(* ===== verification/_CoqProject ===== *)
-Q . S2P
Prelude.v
Order.v
BTreeMap.v
Codec.v
Ulid.v
Value.v
StoredValue.v
IndexKey.v
Core.v
Schema.v
Contracts.v
ContractSemantics.v
ContractViews.v
ContractLens.v
Release.v
Cron.v
Calendar.v
Manifest.v
Bundle.v
Compatibility.v
ReleasePackage.v
StoreModel.v
Batch.v
Execution.v
Mutation.v
MutationSession.v
MutationCommit.v
MutationExecute.v
Query.v
QueryStable.v
Impact.v
Registry.v
Sql.v
SqliteStore.v
SqliteCommit.v
SqliteInvariant.v
SqliteReads.v
SqliteOutbox.v
SqliteExport.v
SqliteRestore.v
SqliteSchedule.v
SqliteSystem.v
SqliteJournal.v
SqliteTraces.v
MutationSqlite.v
Worker.v
Dispatcher.v
QuerySqlite.v
Subscriptions.v
CronRepository.v
CronMaterializer.v
CronTicks.v
Routing.v
Serving.v
ServingRepository.v
ServingHistory.v
