(* ===== verification/Prelude.v ===== *)
(** * Runku: a verification development

    Runku is a backend that runs application Functions (Queries, Mutations, Actions) written in
    JavaScript against a transactional document store, and publishes them as immutable Releases.
    The parts modelled here and how they interact:

    - canonical values (runku-value) have a stored form and, for the scalar ones, an index-key form
      whose byte order is the logical order;
    - a commit batch (runku-data) declares what one operation read, writes, indexes, publishes and
      schedules; the SQLite adapter (runku-data-sqlite) applies it in one transaction, remembers the
      outcome in a journal, hands its events to outbox consumers under leases and its scheduled
      invocations to workers under leases;
    - a Mutation (runku-execution) runs a handler against a buffered session, turns what it did into
      a batch, derives the index changes from the catalog (runku-schema), commits, and starts again
      on a conflict; the scheduled worker (runku-execution) claims due invocations, has them run and
      stores what became of them;
    - a Query (runku-execution) reads one snapshot and records what its result depends on; a
      subscription (runku-realtime) holds the result of a Query, and the dispatcher claims the events
      Mutations publish, decides from the recorded dependencies which subscriptions they concern,
      runs those Queries again and acknowledges the events;
    - the Cron repository (runku-cron) holds the schedules that Releases activate, and its
      materializer turns every due tick into a scheduled invocation of the store;
    - a Release (runku-releases) is a manifest with its bundle, contracts (runku-contracts), document
      schema and Cron schedules; the compatibility engine (runku-compatibility) decides whether one
      Release may replace another or serve beside it;
    - a serving policy (runku-serving, runku-serving-repository) says which Releases take an
      Environment's traffic and in which proportion, and the router (runku-releases) resolves the
      target of a request.

    ** Files

    Foundations.  [Prelude] has Rust's [Result] with its notations, bytes and UTF-8, machine
    integers, and lemmas on lists and maps; [Order] comparison functions, sorting and limited
    ordered queries; [BTreeMap] ordered maps with text keys; [Codec] cursor decoders and the notion of a
    decoder exact for an encoder; [Ulid] the interface of the ulid crate.

    Values.  [Value], [StoredValue], [IndexKey]: value.rs, stored.rs and index.rs of runku-value.
    [Core]: id.rs, target.rs, scope.rs, function.rs and environment.rs of runku-core.

    Schemas and contracts.  [Schema]: runku-schema/src/lib.rs.  [Contracts]:
    runku-contracts/src/lib.rs; [ContractSemantics], [ContractViews] and [ContractLens] say what its
    validation, projection and write-back mean.

    Releases.  [Release], [Cron], [Manifest], [Bundle]: error.rs and digest.rs, cron.rs, manifest.rs,
    bundle.rs of runku-releases; [Calendar] the calendar behind the schedules.  [Compatibility] and
    [ReleasePackage]: runku-compatibility/src/lib.rs.  [Routing]: routing.rs of runku-releases.

    Serving.  [Serving]: error.rs and model.rs of runku-serving.  [ServingRepository]:
    runku-serving-repository/src/adapter.rs on the record [ServingDb] of its tables with their
    constraints; [ServingHistory] is about all sequences of its commands.

    Store.  [StoreModel] and [Batch]: error.rs, model.rs and batch.rs of runku-data.  [Sql]: tables,
    integer columns and transactions.  [SqliteStore]: every operation of
    runku-data-sqlite/src/adapter.rs on the record [Db] of the tables of migration.rs, one
    definition per Rust function, under its name.  [SqliteCommit], [SqliteReads], [SqliteOutbox],
    [SqliteExport], [SqliteRestore] and [SqliteSchedule] say what the operations do;
    [SqliteInvariant] has the invariant [db_ok] and that they keep it; [SqliteSystem],
    [SqliteJournal] and [SqliteTraces] are about all histories of operations.

    Execution.  [Execution]: the request and error types of runku-runtime and [LogicalStore], the
    interface between the coordinators and a store, with its laws [StoreLaws].  [Mutation]:
    runku-execution/src/mutation.rs over any [LogicalStore]; [MutationSession], [MutationCommit] and
    [MutationExecute] prove its properties from the laws, and [MutationSqlite] discharges the laws
    with the SQLite model and states the result for the two together.  [Worker]:
    runku-execution/src/scheduler.rs over the SQLite model.  [Query]: runku-execution/src/query.rs over
    any [LogicalStore]; [QueryStable] says what a Query's dependencies are good for.

    Realtime.  [Impact], [Registry] and [Dispatcher]: lib.rs, registry.rs and dispatcher.rs of
    runku-realtime.  [QuerySqlite] composes Mutations, the events they publish and Queries over the
    SQLite model; [Subscriptions] adds registry and dispatcher and is about all interleavings of them.

    Cron.  [CronRepository]: model.rs and adapter.rs of runku-cron on the record [CronDb] of its
    tables; [CronMaterializer]: materializer.rs over any [LogicalStore]; [CronTicks] is about all
    interleavings of commands, workers and clients of the store.

    ** How code becomes definitions

    Fallible code returns [result]; [?] is [let?].  A transaction is a function on the database; what
    its COMMIT does (take effect, roll back, take effect or not with the answer lost) is an argument
    [TxnOutcome], so the theorems hold for every fate of every transaction.  Clocks are arguments as
    well.  Integers are [Z] with the range checks, saturation and wrap-around of the source written
    out; floats are their 64 bits; strings are byte lists with [utf8_valid] as invariant; columns
    hold rendered text and are parsed when read, as in the code.  A Mutation's handler is the tree of
    requests it makes and of what it does with the answers, and so is a Query's; other clients change
    the database between any two awaited calls.  A poll of the dispatcher or of the Cron materializer
    takes the steps of the other tasks between its own as an argument; the theorems let these be any
    sequence of the operations modelled.  They assume that nobody else acknowledges for the
    dispatcher's consumer or touches its tickets, and that a Cron worker identifier polls once at a
    time.  Theorems about the journal, delivery and schedules of an Environment over a history
    exclude its own seed, import and reset, which erase them; those of other Environments are in.

    ** What the theorems show

    - Commits: a commit that took effect is replayed from the journal as long as that is not erased,
      even when its answer was lost; a fresh one found every read assertion and expected revision current and reads back
      as written; a stale one changes nothing; the digest binds the batch's content.
    - The store: every reachable database satisfies [db_ok]; Environments do not influence each
      other; scans, claims, acknowledgements, completions and exports do what they promise; no
      outbox event is skipped by workers that use the lease generations they were handed; a scheduled invocation only moves along its state machine.
    - Mutations: among other clients of any kind, an execution adds the commit of one batch to what
      they do, or nothing, and is serializable, keeps the indexes exact, sees its own writes, and only builds batches the store accepts.  The
      condition that no document read is removed meanwhile is needed: a document inserted under the
      identifier of a removed one passes for it.  The effects of a clock set back and of executing
      again a Mutation that is committed are shown too.
    - The worker: what a poll does, the retry delays, and that polling finishes every schedule; and
      that crashes evade the attempt limit.
    - Queries: as long as no published event invalidates its dependencies, a Query has the result it
      had.
    - Subscriptions: a subscription that owes no work, registered while its first result was current,
      holds what its Query returns now, once all events are acknowledged; deliveries are numbered
      without gap; a poll ends.  Two ways to miss a change are shown: a rerun left behind by a failed
      poll is never taken up again, and a change acknowledged between a subscription's first run and
      its registration is never made up for.
    - Cron commands and ticks: a command is compare-and-set on the stored revision and takes effect
      once, whatever the repository does later; no tick between an activation and its
      cursor is without its scheduled invocation.
    - Formats: the stored-value, index-key, schema, manifest and bundle codecs are inverse to their
      encoders and accept nothing else; index-key order is logical order; prefixes are intervals.
    - Contracts: validation decides the meaning of contracts within the step budget, and a Release's
      view is a lens; the compatibility reports are sound for that meaning.
    - Serving: a policy's weights are the shares of traffic; a command takes effect once; what the
      repository stores, journals and audits is the history of the commands that took effect; an
      accepted configuration routes every Channel.
    - Cron: the civil calendar is the Gregorian one; the next occurrence is the first one, and the
      search bound never cuts one off.

    ** Bounds and fuel

    Recursion is structural on the data, on a depth limit the source checks itself (stored values,
    contracts) or on the count of a [for] loop: [commit_retries] and [attempts] on [MAX_ATTEMPTS],
    [search_minutes] on [MAX_SEARCH_MINUTES], [set_bits] on the 8-bit range of a field.
    [binary_search_loop] takes the size of the slice, which shrinks every turn.  [decimal_digits]
    takes 20, the digits of a 64-bit integer; [audit_walk], which reads an audit trail page by page,
    one more than the number of events, shown to suffice.  The dispatcher's loop over a
    ticket has no bound in the source: [run_ticket] takes fuel and answers [None] when it runs out,
    two turns are shown to suffice always, and the safety theorems hold for every fuel.  No theorem
    assumes that fuel suffices.

    ** Third-party code

    SHA-256 is an argument, with collision freedom or the digest's length as hypothesis where needed;
    the text form of ULIDs is the class [UlidLib] with [UlidLaws], instantiated by [crockford];
    serde_json is the class [SerdeJson].  The SQL driver is modelled by what the adapter uses of it:
    serializable write transactions over tables with the schema's keys, checks and cascades.

    ** Not modelled

    Telemetry, logs and wake-up broadcasts, which never influence a result.  Connection pools,
    migration bookkeeping and file handling of the SQLite adapters.  The PostgreSQL adapter and the
    PostgreSQL branches of the Cron repository, whose concurrency rests on the database's row locks.
    The JavaScript engine and the bridges to it; Actions and the broker of nested calls, which forward
    to that engine and to the executors modelled here.  The HTTP, WebSocket and management services,
    clients, command line and build pipeline, which are input and output; identity and key handling,
    which is third-party cryptography; the control-plane repositories other than the serving one,
    which are SQL text over their own tables; and the queue and object-storage crates. *)

From Stdlib Require Import Strings.Byte ZArith Lia.
From stdpp Require Import prelude gmap list strings.

#[global] Open Scope Z_scope.

(** ** Fallible code: Rust's [Result<A, E>] *)

Inductive result (E A : Type) : Type :=
| Ok (a : A)
| Err (e : E).
Arguments Ok {E A} a.
Arguments Err {E A} e.

#[export] Instance result_eq_dec {E A} `{!EqDecision E} `{!EqDecision A} :
  EqDecision (result E A).
Proof. solve_decision. Defined.

Definition rbind {E A B} (r : result E A) (k : A -> result E B) : result E B :=
  match r with Ok a => k a | Err e => Err e end.

Definition map_err {E F A} (f : E -> F) (r : result E A) : result F A :=
  match r with Ok a => Ok a | Err e => Err (f e) end.

Definition ok_or {E A} (e : E) (o : option A) : result E A :=
  match o with Some a => Ok a | None => Err e end.

(** [Option::is_some_and] *)
Definition is_some_and {A} (o : option A) (p : A -> bool) : bool :=
  match o with Some a => p a | None => false end.

Definition is_ok {E A} (r : result E A) : bool :=
  match r with Ok _ => true | Err _ => false end.

Declare Scope runku_scope.
Delimit Scope runku_scope with runku.

(** Rust's [let x = e?; k] and the early return [if c { return Err(e) }; k]. *)
Notation "'let?' x := e 'in' k" := (rbind e (fun x => k))
  (at level 10, x pattern, e at level 200, k at level 200) : runku_scope.
Notation "'ensure?' b 'else' e 'in' k" := (if b then k else Err e)
  (at level 10, b at level 200, e at level 200, k at level 200) : runku_scope.
#[global] Open Scope runku_scope.

(** [collect::<Result<Vec<_>, _>>]: stops at the first error. *)
Definition try_map {E A B} (f : A -> result E B) : list A -> result E (list B) :=
  fix go l :=
    match l with
    | [] => Ok []
    | x :: l => let? y := f x in let? ys := go l in Ok (y :: ys)
    end.

(** A [for] loop whose body updates a state and may return early. *)
Definition try_fold {E A S} (f : S -> A -> result E S) : S -> list A -> result E S :=
  fix go s l :=
    match l with
    | [] => Ok s
    | x :: l => let? s := f s x in go s l
    end.

Lemma rbind_Ok {E A B} (r : result E A) (k : A -> result E B) (b : B) :
  rbind r k = Ok b <-> exists a, r = Ok a /\ k a = Ok b.
Proof. destruct r; simpl; naive_solver. Qed.

Lemma map_err_Ok {E F A} (f : E -> F) (r : result E A) (a : A) :
  map_err f r = Ok a <-> r = Ok a.
Proof. destruct r; simpl; naive_solver. Qed.

Lemma ok_or_Ok {E A} (e : E) (o : option A) (a : A) :
  ok_or e o = Ok a <-> o = Some a.
Proof. destruct o; simpl; naive_solver. Qed.

Lemma try_map_Ok {E A B} (f : A -> result E B) l ys :
  try_map f l = Ok ys <-> Forall2 (fun x y => f x = Ok y) l ys.
Proof.
  revert ys; induction l as [|x l IH]; intros ys; simpl.
  - split; [intros [= <-]; constructor|]. by intros ->%Forall2_nil_inv_l.
  - rewrite rbind_Ok. setoid_rewrite rbind_Ok. setoid_rewrite IH. split.
    + intros (y & Hy & zs & Hzs & [= <-]). by constructor.
    + intros H. inversion H; subst. eauto 6.
Qed.

Lemma try_map_is_ok {E A B} (f : A -> result E B) l :
  (forall x, x ∈ l -> is_ok (f x) = true) -> is_ok (try_map f l) = true.
Proof.
  induction l as [|x l IH]; intros Hf; [done|]. cbn [try_map].
  assert (is_ok (f x) = true) as Hx by (apply Hf; left). destruct (f x); [|done]. cbn [rbind].
  assert (is_ok (try_map f l) = true) as Hl by (apply IH; intros; apply Hf; by right).
  by destruct (try_map f l).
Qed.

Lemma try_fold_app {E A S} (f : S -> A -> result E S) s l1 l2 :
  try_fold f s (l1 ++ l2) = rbind (try_fold f s l1) (fun s => try_fold f s l2).
Proof. revert s; induction l1; intros s; simpl; [done|]. destruct (f s a); simpl; auto. Qed.

Lemma Forall2_with {A B} (P : A -> Prop) (R Q : A -> B -> Prop) l k :
  (forall x, In x l -> P x) -> Forall2 R l k -> (forall x y, P x -> R x y -> Q x y) -> Forall2 Q l k.
Proof.
  intros HP HR Himp. induction HR; constructor; [apply Himp; [apply HP; by left|done]|].
  apply IHHR. intros; apply HP; by right.
Qed.

(** An invariant of the loop state is kept by the whole loop. *)
Lemma try_fold_inv {E A S} (P : S -> Prop) (f : S -> A -> result E S) l s s' :
  (forall s x s', In x l -> P s -> f s x = Ok s' -> P s') ->
  P s -> try_fold f s l = Ok s' -> P s'.
Proof.
  revert s; induction l as [|x l IH]; intros s Hstep HP; simpl; [naive_solver|].
  rewrite rbind_Ok; intros (s1 & H1 & H2).
  apply (IH s1); eauto; naive_solver.
Qed.

(** Every turn of a loop that succeeds has succeeded. *)
Lemma try_fold_each {E A S} (f : S -> A -> result E S) l s s' : try_fold f s l = Ok s' ->
  Forall (fun x => exists t t', f t x = Ok t') l.
Proof.
  revert s; induction l as [|x l IH]; intros s; simpl; [constructor|].
  rewrite rbind_Ok. intros (t & Ht & H). constructor; eauto.
Qed.

(** ** The development's automation

    [invert_ok] breaks a hypothesis [computation = Ok v] into the results of its steps. *)

Create HintDb runku.
#[export] Hint Extern 1 (_ <= _) => lia : runku.
#[export] Hint Extern 1 (_ < _) => lia : runku.

Ltac invert_ok_step :=
  match goal with
  | H : rbind _ _ = Ok _ |- _ =>
      let a := fresh "a" in let Ha := fresh "Hok" in
      apply rbind_Ok in H as (a & Ha & H)
  | H : map_err _ _ = Ok _ |- _ => apply map_err_Ok in H
  | H : ok_or _ _ = Ok _ |- _ => apply ok_or_Ok in H
  | H : (let '(_, _) := ?p in _) = Ok _ |- _ => destruct p eqn:?
  | H : (if ?b then _ else _) = Ok _ |- _ => destruct b eqn:?; [|try discriminate H]; try discriminate H
  | H : Ok _ = Ok _ |- _ => injection H as H; try subst
  | H : Err _ = Ok _ |- _ => discriminate H
  end.
Ltac invert_ok := repeat invert_ok_step; simplify_eq/=.

Ltac bool_facts :=
  repeat match goal with
  | H : _ && _ = true |- _ => apply andb_true_iff in H as [? ?]
  | H : _ || _ = false |- _ => apply orb_false_iff in H as [? ?]
  | H : negb _ = true |- _ => apply negb_true_iff in H
  | H : negb _ = false |- _ => apply negb_false_iff in H
  | H : bool_decide _ = true |- _ => apply bool_decide_eq_true in H
  | H : bool_decide _ = false |- _ => apply bool_decide_eq_false in H
  | H : (_ =? _) = true |- _ => apply Z.eqb_eq in H
  | H : (_ =? _) = false |- _ => apply Z.eqb_neq in H
  | H : (_ <? _) = true |- _ => apply Z.ltb_lt in H
  | H : (_ <? _) = false |- _ => apply Z.ltb_ge in H
  | H : (_ <=? _) = true |- _ => apply Z.leb_le in H
  | H : (_ <=? _) = false |- _ => apply Z.leb_gt in H
  end.

(** ** Machine integers

    A [w]-bit unsigned integer is a [Z] in [0 <= z < 2^w], a signed one a [Z] in
    [-2^(w-1) <= z < 2^(w-1)]; wrap-around is written out where the source casts. *)

Definition u8_max : Z := 2 ^ 8 - 1.
Definition u16_max : Z := 2 ^ 16 - 1.
Definition u32_max : Z := 2 ^ 32 - 1.
Definition u64_max : Z := 2 ^ 64 - 1.
Definition i64_min : Z := - 2 ^ 63.
Definition i64_max : Z := 2 ^ 63 - 1.
(** [usize] on the 64-bit targets the product ships for. *)
Definition usize_max : Z := u64_max.

Definition is_u64 (z : Z) : bool := (0 <=? z) && (z <=? u64_max).
Definition is_i64 (z : Z) : bool := (i64_min <=? z) && (z <=? i64_max).

(** [i64::cast_unsigned] and [u64::cast_signed]. *)
Definition cast_unsigned (z : Z) : Z := z mod 2 ^ 64.
Definition cast_signed (z : Z) : Z := if z <? 2 ^ 63 then z else z - 2 ^ 64.

(** Checked signed arithmetic: the exact result if it fits an [i64]. *)
Definition checked_i64 (z : Z) : option Z := if is_i64 z then Some z else None.

(** [checked_add] and [checked_mul] at the width whose maximum is [mx]. *)
Definition checked_add (mx a b : Z) : option Z :=
  if a + b <=? mx then Some (a + b) else None.
Definition checked_mul (mx a b : Z) : option Z :=
  if a * b <=? mx then Some (a * b) else None.

(** [T::try_from] to an unsigned type with maximum [mx]. *)
Definition try_from_u (mx z : Z) : option Z :=
  if (0 <=? z) && (z <=? mx) then Some z else None.

Lemma checked_add_Some mx a b c : checked_add mx a b = Some c <-> c = a + b /\ a + b <= mx.
Proof. unfold checked_add. destruct (Z.leb_spec (a + b) mx); naive_solver lia. Qed.

Lemma checked_add_None mx a b : checked_add mx a b = None <-> mx < a + b.
Proof. unfold checked_add. destruct (Z.leb_spec (a + b) mx); split; intros; done || lia. Qed.

Lemma try_from_u_Some mx z c : try_from_u mx z = Some c <-> c = z /\ 0 <= z <= mx.
Proof.
  unfold try_from_u. destruct (Z.leb_spec 0 z), (Z.leb_spec z mx); naive_solver lia.
Qed.

Lemma is_i64_spec z : is_i64 z = true <-> i64_min <= z <= i64_max.
Proof. unfold is_i64. rewrite andb_true_iff, !Z.leb_le. done. Qed.
Lemma is_u64_spec z : is_u64 z = true <-> 0 <= z <= u64_max.
Proof. unfold is_u64. rewrite andb_true_iff, !Z.leb_le. done. Qed.

Lemma cast_signed_unsigned z : is_i64 z = true -> cast_signed (cast_unsigned z) = z.
Proof.
  rewrite is_i64_spec. unfold cast_signed, cast_unsigned, i64_min, i64_max. intros H.
  destruct (decide (0 <= z)) as [Hz|Hz].
  - rewrite Z.mod_small by lia. destruct (Z.ltb_spec z (2 ^ 63)); lia.
  - rewrite <-(Z.mod_add z 1 (2 ^ 64)) by lia. rewrite Z.mod_small by lia.
    destruct (Z.ltb_spec (z + 1 * 2 ^ 64) (2 ^ 63)); lia.
Qed.

Lemma cast_unsigned_signed z : is_u64 z = true -> cast_unsigned (cast_signed z) = z.
Proof.
  rewrite is_u64_spec. unfold cast_signed, cast_unsigned, u64_max. intros H.
  destruct (Z.ltb_spec z (2 ^ 63)).
  - by rewrite Z.mod_small by lia.
  - rewrite <-(Z.mod_add (z - 2 ^ 64) 1 (2 ^ 64)) by lia. rewrite Z.mod_small; lia.
Qed.

Lemma cast_signed_range z : is_u64 z = true -> is_i64 (cast_signed z) = true.
Proof.
  rewrite is_u64_spec, is_i64_spec. unfold cast_signed, u64_max, i64_min, i64_max. intros H.
  destruct (Z.ltb_spec z (2 ^ 63)); lia.
Qed.

Lemma cast_unsigned_range z : is_u64 (cast_unsigned z) = true.
Proof.
  rewrite is_u64_spec. unfold cast_unsigned, u64_max.
  pose proof (Z.mod_pos_bound z (2 ^ 64)). lia.
Qed.
#[export] Hint Resolve cast_signed_range cast_unsigned_range : runku.

(** ** Bytes *)

Abbreviation bytes := (list byte).

Definition bz (b : byte) : Z := Z.of_N (Byte.to_N b).
Definition zb (z : Z) : byte := default x00 (Byte.of_N (Z.to_N (z mod 256))).
Definition len {A} (l : list A) : Z := Z.of_nat (length l).

Lemma bz_range b : 0 <= bz b < 256.
Proof. unfold bz. pose proof (Byte.to_N_bounded b). lia. Qed.

Lemma bz_inj b c : bz b = bz c -> b = c.
Proof.
  unfold bz. intros H%N2Z.inj.
  pose proof (Byte.of_to_N b). pose proof (Byte.of_to_N c). congruence.
Qed.

Lemma zb_bz b : zb (bz b) = b.
Proof.
  unfold zb. rewrite Z.mod_small by apply bz_range. unfold bz.
  by rewrite N2Z.id, Byte.of_to_N.
Qed.

Lemma bz_zb z : bz (zb z) = z mod 256.
Proof.
  unfold zb. pose proof (Z.mod_pos_bound z 256 ltac:(lia)).
  destruct (Byte.of_N (Z.to_N (z mod 256))) as [b|] eqn:E; simpl.
  - unfold bz. rewrite (Byte.to_of_N _ E). lia.
  - apply Byte.of_N_None_iff in E. lia.
Qed.

#[export] Instance byte_eq_decision : EqDecision byte.
Proof.
  refine (fun b c => match N.eq_dec (Byte.to_N b) (Byte.to_N c) with
                     | left H => left _ | right H => right _ end).
  - abstract (apply bz_inj; unfold bz; by rewrite H).
  - abstract (by intros ->).
Defined.

#[export] Program Instance byte_countable : Countable byte :=
  inj_countable Byte.to_N Byte.of_N _.
Next Obligation. apply Byte.of_to_N. Qed.

(** Rust text literals, as the bytes of the literal. *)
Definition text (s : string) : bytes := String.list_byte_of_string s.

Lemma len_nonneg {A} (l : list A) : 0 <= len l.
Proof. unfold len. lia. Qed.
Lemma len_app {A} (l k : list A) : len (l ++ k) = len l + len k.
Proof. unfold len. rewrite length_app. lia. Qed.
Lemma len_cons {A} (x : A) l : len (x :: l) = 1 + len l.
Proof. unfold len. simpl. lia. Qed.
Lemma len_nil {A} : len (@nil A) = 0.
Proof. done. Qed.
#[export] Hint Rewrite @len_app @len_cons @len_nil : runku.
#[export] Hint Resolve len_nonneg : runku.

(** [slice::starts_with] / [str::strip_prefix], the rest of the input being the result. *)
Fixpoint strip_prefix (p l : bytes) : option bytes :=
  match p, l with
  | [], _ => Some l
  | a :: p, b :: l => if decide (a = b) then strip_prefix p l else None
  | _ :: _, [] => None
  end.

Lemma strip_prefix_Some p l r : strip_prefix p l = Some r <-> l = p ++ r.
Proof.
  revert l; induction p as [|a p IH]; intros [|b l]; simpl; try naive_solver.
  case_decide; [rewrite IH|]; naive_solver.
Qed.

Lemma strip_prefix_app p r : strip_prefix p (p ++ r) = Some r.
Proof. by apply strip_prefix_Some. Qed.

(** [str::split_once] on a one-byte separator. *)
Fixpoint split_once (sep : byte) (l : bytes) : option (bytes * bytes) :=
  match l with
  | [] => None
  | b :: l => if decide (b = sep) then Some ([], l)
              else '(x, y) ← split_once sep l; Some (b :: x, y)
  end.

Lemma split_once_Some sep l x y :
  split_once sep l = Some (x, y) <-> l = x ++ sep :: y /\ sep ∉ x.
Proof.
  revert x y; induction l as [|b l IH]; intros x y; simpl.
  - split; [done|]. by intros [?%(f_equal length) _]; rewrite length_app in *; simpl in *; lia.
  - case_decide as Hb; [subst b|].
    + destruct x as [|a x]; simpl; set_solver.
    + rewrite bind_Some. split.
      * intros ([x' y'] & (-> & Hx)%IH & [= <- <-]). set_solver.
      * destruct x as [|a x]; simpl; [naive_solver|]. intros [[= -> ->] Hni].
        exists (x, y). rewrite IH. set_solver.
Qed.

(** ** Byte classes of the Rust standard library *)

Definition in_range (lo hi : Z) (b : byte) : bool := (lo <=? bz b) && (bz b <=? hi).
Definition is_ascii (b : byte) : bool := bz b <? 128.
Definition is_ascii_lowercase (b : byte) : bool := in_range 97 122 b.
Definition is_ascii_uppercase (b : byte) : bool := in_range 65 90 b.
Definition is_ascii_digit (b : byte) : bool := in_range 48 57 b.
Definition is_ascii_alphabetic (b : byte) : bool :=
  is_ascii_lowercase b || is_ascii_uppercase b.
Definition is_ascii_alphanumeric (b : byte) : bool :=
  is_ascii_alphabetic b || is_ascii_digit b.

(** ** Well-formed UTF-8: what [str::from_utf8] accepts *)

Fixpoint utf8_valid (l : bytes) : bool :=
  match l with
  | [] => true
  | b0 :: l0 =>
    if is_ascii b0 then utf8_valid l0
    else match l0 with
    | [] => false
    | b1 :: l1 =>
      if in_range 0xC2 0xDF b0 then in_range 0x80 0xBF b1 && utf8_valid l1
      else match l1 with
      | [] => false
      | b2 :: l2 =>
        if in_range 0xE0 0xEF b0 then
          in_range (if bz b0 =? 0xE0 then 0xA0 else 0x80)
                   (if bz b0 =? 0xED then 0x9F else 0xBF) b1
          && in_range 0x80 0xBF b2 && utf8_valid l2
        else match l2 with
        | [] => false
        | b3 :: l3 =>
          in_range 0xF0 0xF4 b0
          && in_range (if bz b0 =? 0xF0 then 0x90 else 0x80)
                      (if bz b0 =? 0xF4 then 0x8F else 0xBF) b1
          && in_range 0x80 0xBF b2 && in_range 0x80 0xBF b3 && utf8_valid l3
        end
      end
    end
  end.

(** [str::from_utf8]: the text is its own bytes. *)
Definition from_utf8 (l : bytes) : option bytes := if utf8_valid l then Some l else None.

Lemma from_utf8_Some l s : from_utf8 l = Some s <-> s = l /\ utf8_valid l = true.
Proof. unfold from_utf8. destruct (utf8_valid l); naive_solver. Qed.

Lemma ascii_utf8_valid l : forallb is_ascii l = true -> utf8_valid l = true.
Proof. induction l as [|b l IH]; simpl; [done|]. rewrite andb_true_iff. intros [-> ?]. auto. Qed.

(** ** Comparison of byte strings: [Ord] of [&u8], [Vec<u8>] and [str] *)

(** Lexicographic combination, [Ordering::then]. *)
Definition cmp_then (c d : comparison) : comparison := match c with Eq => d | _ => c end.

Fixpoint bytes_cmp (l k : bytes) : comparison :=
  match l, k with
  | [], [] => Eq
  | [], _ :: _ => Lt
  | _ :: _, [] => Gt
  | a :: l, b :: k => cmp_then (bz a ?= bz b) (bytes_cmp l k)
  end.

Definition bytes_ltb (l k : bytes) : bool :=
  match bytes_cmp l k with Lt => true | _ => false end.
Definition bytes_leb (l k : bytes) : bool :=
  match bytes_cmp l k with Gt => false | _ => true end.

Lemma bytes_cmp_cons a b l k :
  bytes_cmp (a :: l) (b :: k) = cmp_then (bz a ?= bz b) (bytes_cmp l k).
Proof. done. Qed.

Lemma bytes_cmp_eq l k : bytes_cmp l k = Eq <-> l = k.
Proof.
  revert k; induction l as [|a l IH]; intros [|b k]; try (simpl; naive_solver).
  rewrite bytes_cmp_cons. destruct (Z.compare_spec (bz a) (bz b)) as [E|E|E]; simpl.
  - rewrite IH. apply bz_inj in E. naive_solver.
  - split; [done|]. intros [= -> ->]. lia.
  - split; [done|]. intros [= -> ->]. lia.
Qed.

Lemma bytes_cmp_refl l : bytes_cmp l l = Eq.
Proof. by apply bytes_cmp_eq. Qed.

Lemma bytes_cmp_antisym l k : bytes_cmp k l = CompOpp (bytes_cmp l k).
Proof.
  revert k; induction l as [|a l IH]; intros [|b k]; try done.
  rewrite !bytes_cmp_cons, (Z.compare_antisym (bz a) (bz b)).
  destruct (bz a ?= bz b); simpl; auto.
Qed.

Lemma bytes_cmp_app p l k : bytes_cmp (p ++ l) (p ++ k) = bytes_cmp l k.
Proof.
  induction p as [|a p IH]; [done|]. simpl (_ ++ _).
  rewrite bytes_cmp_cons, Z.compare_refl. done.
Qed.

Lemma bytes_cmp_lt_trans l k m :
  bytes_cmp l k = Lt -> bytes_cmp k m = Lt -> bytes_cmp l m = Lt.
Proof.
  revert k m; induction l as [|a l IH]; intros [|b k] [|c m]; try done.
  rewrite !bytes_cmp_cons.
  destruct (Z.compare_spec (bz a) (bz b)), (Z.compare_spec (bz b) (bz c));
    simpl; try done; intros H1 H2;
    destruct (Z.compare_spec (bz a) (bz c)); simpl; try lia; eauto.
Qed.

(** ** Big-endian encodings: [uN::to_be_bytes] and [uN::from_be_bytes] *)

Fixpoint to_be (n : nat) (z : Z) : bytes :=
  match n with
  | O => []
  | S n => zb (z / 256 ^ Z.of_nat n) :: to_be n z
  end.

Fixpoint from_be (l : bytes) : Z :=
  match l with
  | [] => 0
  | b :: l => bz b * 256 ^ len l + from_be l
  end.

Lemma length_to_be n z : length (to_be n z) = n.
Proof. induction n; simpl; auto. Qed.
Lemma len_to_be n z : len (to_be n z) = Z.of_nat n.
Proof. unfold len. by rewrite length_to_be. Qed.

Lemma from_be_range l : 0 <= from_be l < 256 ^ len l.
Proof.
  induction l as [|b l IH]; simpl; [done|]. rewrite len_cons, Z.pow_add_r by (unfold len; lia).
  pose proof (bz_range b). nia.
Qed.

Lemma from_be_to_be_mod n z : from_be (to_be n z) = z mod 256 ^ Z.of_nat n.
Proof.
  induction n as [|n IH]; [by rewrite Z.mod_1_r|].
  cbn [to_be from_be]. rewrite IH, len_to_be, bz_zb.
  rewrite Nat2Z.inj_succ, <-Z.add_1_r, Z.pow_add_r by lia.
  assert (0 < 256 ^ Z.of_nat n) by (apply Z.pow_pos_nonneg; lia).
  rewrite Z.pow_1_r, Z.rem_mul_r by lia. lia.
Qed.

Lemma from_be_to_be n z : 0 <= z < 256 ^ Z.of_nat n -> from_be (to_be n z) = z.
Proof. intros. rewrite from_be_to_be_mod. by apply Z.mod_small. Qed.

Lemma from_be_inj l k : length l = length k -> from_be l = from_be k -> l = k.
Proof.
  revert k; induction l as [|a l IH]; intros [|b k]; simpl; try done.
  intros [= Hl]. unfold len. rewrite Hl. intros H.
  pose proof (from_be_range l) as Rl. pose proof (from_be_range k) as Rk.
  unfold len in Rl, Rk. rewrite Hl in Rl.
  assert (bz a = bz b) as E%bz_inj by nia. subst. f_equal. apply IH; [done|]. nia.
Qed.

Lemma to_be_from_be n l : length l = n -> to_be n (from_be l) = l.
Proof.
  intros <-. apply from_be_inj; [apply length_to_be|].
  apply from_be_to_be. apply from_be_range.
Qed.

(** Big-endian byte strings of one width sort like the numbers they denote. *)
Lemma bytes_cmp_from_be l k r s :
  length l = length k ->
  bytes_cmp (l ++ r) (k ++ s) = cmp_then (from_be l ?= from_be k) (bytes_cmp r s).
Proof.
  revert k; induction l as [|a l IH]; intros [|b k] Hl; simplify_eq/=; [done|].
  rewrite IH by done. unfold len. rewrite Hl.
  pose proof (from_be_range l) as Rl. pose proof (from_be_range k) as Rk.
  unfold len in Rl, Rk. rewrite Hl in Rl.
  destruct (Z.compare_spec (bz a) (bz b)) as [E|E|E].
  - rewrite E, Z.add_compare_mono_l. done.
  - assert ((bz a + 1) * 256 ^ Z.of_nat (length k) <= bz b * 256 ^ Z.of_nat (length k))
      by (apply Z.mul_le_mono_nonneg_r; lia).
    cbn [cmp_then]. rewrite (proj2 (Z.compare_lt_iff _ _)) by lia. done.
  - assert ((bz b + 1) * 256 ^ Z.of_nat (length k) <= bz a * 256 ^ Z.of_nat (length k))
      by (apply Z.mul_le_mono_nonneg_r; lia).
    cbn [cmp_then]. rewrite (proj2 (Z.compare_gt_iff _ _)) by lia. done.
Qed.

Lemma bytes_cmp_to_be n x y r s :
  0 <= x < 256 ^ Z.of_nat n -> 0 <= y < 256 ^ Z.of_nat n ->
  bytes_cmp (to_be n x ++ r) (to_be n y ++ s) = cmp_then (x ?= y) (bytes_cmp r s).
Proof.
  intros. rewrite bytes_cmp_from_be by (by rewrite !length_to_be).
  by rewrite !from_be_to_be.
Qed.

Lemma to_be_inj n x y :
  0 <= x < 256 ^ Z.of_nat n -> 0 <= y < 256 ^ Z.of_nat n -> to_be n x = to_be n y -> x = y.
Proof.
  intros Hx Hy E. by rewrite <-(from_be_to_be n x), <-(from_be_to_be n y), E.
Qed.

(** ** Bit facts *)

Lemma land_pow2_small x n : 0 <= n -> 0 <= x < 2 ^ n -> Z.land x (2 ^ n) = 0.
Proof.
  intros Hn Hx. apply Z.bits_inj'. intros i Hi. rewrite Z.land_spec, Z.bits_0.
  rewrite Z.pow2_bits_eqb by lia. destruct (Z.eqb_spec n i) as [<-|]; [|apply andb_false_r].
  rewrite <-(Z.mod_small x (2 ^ n)) by lia. by rewrite Z.mod_pow2_bits_high by lia.
Qed.

Lemma lxor_pow2_small x n : 0 <= n -> 0 <= x < 2 ^ n -> Z.lxor x (2 ^ n) = x + 2 ^ n.
Proof. intros. symmetry. apply Z.add_nocarry_lxor. by apply land_pow2_small. Qed.

Lemma lxor_pow2_big x n : 0 <= n -> 2 ^ n <= x < 2 ^ (n + 1) -> Z.lxor x (2 ^ n) = x - 2 ^ n.
Proof.
  intros Hn Hx. rewrite Z.pow_add_r in Hx by lia.
  replace x with (Z.lxor (x - 2 ^ n) (2 ^ n)) at 1 by (rewrite lxor_pow2_small; lia).
  by rewrite Z.lxor_assoc, Z.lxor_nilpotent, Z.lxor_0_r.
Qed.

Lemma land_pow2_big x n : 0 <= n -> 2 ^ n <= x < 2 ^ (n + 1) -> Z.land x (2 ^ n) = 2 ^ n.
Proof.
  intros Hn Hx. apply Z.bits_inj'. intros i Hi. rewrite Z.land_spec.
  rewrite Z.pow2_bits_eqb by lia. destruct (Z.eqb_spec n i) as [<-|]; [|apply andb_false_r].
  rewrite andb_true_r. rewrite Z.pow_add_r in Hx by lia.
  rewrite Z.testbit_eqb by lia. rewrite <-(Z.div_unique x (2 ^ n) 1 (x - 2 ^ n)) by lia. done.
Qed.

Lemma lxor_ones x n : 0 <= n -> 0 <= x < 2 ^ n -> Z.lxor x (2 ^ n - 1) = 2 ^ n - 1 - x.
Proof.
  intros Hn Hx. replace (2 ^ n - 1) with (Z.ones n) by (rewrite Z.ones_equiv; lia).
  rewrite Z.sub_nocarry_ldiff.
  - apply Z.bits_inj'. intros i Hi. rewrite Z.lxor_spec, Z.ldiff_spec.
    destruct (decide (i < n)) as [|Hin].
    + rewrite Z.ones_spec_low by lia. by destruct (Z.testbit x i).
    + rewrite Z.ones_spec_high by lia.
      rewrite <-(Z.mod_small x (2 ^ n)) by lia. by rewrite Z.mod_pow2_bits_high by lia.
  - destruct (decide (x = 0)) as [->|]; [apply Z.ldiff_0_l|].
    rewrite Z.ldiff_ones_r_low; [done|lia|]. apply Z.log2_lt_pow2; lia.
Qed.

(** ** Bounded sums *)

Definition sumZ : list Z -> Z := foldr Z.add 0.

Lemma sumZ_nonneg l : Forall (fun n => 0 <= n) l -> 0 <= sumZ l.
Proof. induction 1; simpl; lia. Qed.

Lemma sumZ_map_nonneg {A} (f : A -> Z) l : (forall x, In x l -> 0 <= f x) -> 0 <= sumZ (map f l).
Proof. intros H. apply sumZ_nonneg, Forall_forall. intros y (x & <- & ?)%list_elem_of_In%in_map_iff. auto. Qed.

Lemma sumZ_map_le {A} (cost : A -> Z) l x :
  (forall y, In y l -> 0 <= cost y) -> In x l -> cost x <= sumZ (map cost l).
Proof.
  induction l as [|y l IH]; [done|]. intros Hpos [<-|Hx]; simpl.
  - assert (0 <= sumZ (map cost l)) by (apply sumZ_map_nonneg; naive_solver). lia.
  - specialize (IH ltac:(naive_solver) Hx). specialize (Hpos y (or_introl eq_refl)). lia.
Qed.

Lemma forallb_andb {A} (f g : A -> bool) l :
  forallb (fun x => f x && g x) l = true <-> forallb f l = true /\ forallb g l = true.
Proof. rewrite !forallb_forall. setoid_rewrite andb_true_iff. naive_solver. Qed.

(** A loop that adds up costs under the size limit succeeds exactly when the total fits. *)
Lemma try_fold_cost {A E} (M : Z) (step : Z -> A -> result E Z) (ok : A -> bool)
  (cost : A -> Z) l s t :
  (forall s x t, In x l -> 0 <= s <= M -> step s x = Ok t <->
     ok x = true /\ t = s + cost x /\ t <= M) ->
  (forall x, In x l -> 0 <= cost x) ->
  0 <= s <= M ->
  try_fold step s l = Ok t <->
    forallb ok l = true /\ t = s + sumZ (map cost l) /\ t <= M.
Proof.
  revert s; induction l as [|x l IH]; intros s Hstep Hpos Hs; simpl.
  { split; [intros [= <-]; split_and!; [done|lia|lia]|intros (_ & -> & _); f_equal; lia]. }
  assert (0 <= sumZ (map cost l)) by (apply sumZ_map_nonneg; naive_solver).
  rewrite rbind_Ok, andb_true_iff. setoid_rewrite Hstep; [|by left|lia].
  assert (forall s, 0 <= s <= M -> try_fold step s l = Ok t <-> _) as IH'
    by (intros s'; apply (IH s'); naive_solver).
  pose proof (Hpos x (or_introl eq_refl)) as Hx0.
  split.
  - intros (s1 & (Hx & -> & Hs1) & H2). apply IH' in H2 as (? & -> & ?); [|lia].
    split_and!; [done|done|lia|done].
  - intros ((Hx & Hl) & -> & Ht). exists (s + cost x). split_and!; [done|done|lia|].
    apply IH'; [lia|]. split_and!; [done|lia|lia].
Qed.


(** ** [Iterator::enumerate] *)

Fixpoint enumerate_from {A} (n : nat) (l : list A) : list (nat * A) :=
  match l with
  | [] => []
  | x :: l => (n, x) :: enumerate_from (S n) l
  end.
Definition enumerate {A} (l : list A) : list (nat * A) := enumerate_from 0 l.

(** ** Sets that only grow: [BTreeSet] *)

(** [BTreeSet::insert] returning whether the element was new, as [Some] of the grown set. *)
Definition set_insert {A} `{EqDecision A} (x : A) (seen : list A) : option (list A) :=
  if bool_decide (x ∈ seen) then None else Some (x :: seen).

Lemma set_insert_Ok {E K} `{EqDecision K} (e : E) (k : K) seen seen' :
  ok_or e (set_insert k seen) = Ok seen' <-> k ∉ seen /\ seen' = k :: seen.
Proof. rewrite ok_or_Ok. unfold set_insert. case_bool_decide; naive_solver. Qed.

(** A fold that collects the keys of a list in a set succeeds exactly on distinct new keys. *)
Lemma try_fold_keys {E A K} `{EqDecision K} (step : list K -> A -> result E (list K))
  (good : A -> bool) (key : A -> K) l seen :
  (forall seen x seen', step seen x = Ok seen' <->
     good x = true /\ key x ∉ seen /\ seen' = key x :: seen) ->
  is_ok (try_fold step seen l) = true <->
  forallb good l = true /\ NoDup (map key l) /\ (forall k, k ∈ seen -> k ∉ map key l).
Proof.
  intros Hstep. revert seen; induction l as [|x l IH]; intros seen; cbn [try_fold map forallb].
  { split; [|done]. intros _. split; [done|]. split; [constructor|]. set_solver. }
  rewrite andb_true_iff, NoDup_cons. destruct (step seen x) as [seen'|e] eqn:Es; cbn [rbind].
  - apply Hstep in Es as (Hg & Hn & ->). rewrite IH. split.
    + intros (Hl & Hnd & Hs). split_and!; [done|done| |done|].
      * apply Hs. left.
      * intros k Hk. apply not_elem_of_cons. split; [by intros ->|]. apply Hs. by right.
    + intros ([_ Hl] & [Hx Hnd] & Hs). split_and!; [done|done|].
      intros k [->|Hk]%elem_of_cons; [done|]. specialize (Hs k Hk).
      by apply not_elem_of_cons in Hs as [_ ?].
  - split; [done|]. intros ([Hg _] & _ & Hs).
    assert (step seen x = Ok (key x :: seen)) as ?; [|congruence].
    apply Hstep. split_and!; [done| |done]. intros Hin. apply (Hs _ Hin). left.
Qed.
