(* ===== verification/Order.v ===== *)
(** * Orders, sorting and ordered queries

    Comparison functions as the code has them ([Ordering]), the laws of a total comparison, sorting
    by one, and what an ordered, limited query returns. *)

From Stdlib Require Import Strings.Byte ZArith Lia.
From stdpp Require Import prelude gmap sorting list.
From S2P Require Import Prelude.

#[export] Instance comparison_eq_dec : EqDecision comparison.
Proof. solve_decision. Defined.

Definition cmp_le {A} (cmp : A -> A -> comparison) : relation A := fun x y => cmp x y <> Gt.
#[export] Instance cmp_le_dec {A} (cmp : A -> A -> comparison) : RelDecision (cmp_le cmp) :=
  fun x y => _.

(** [slice::sort_by], and the [ORDER BY] of a query. *)
Definition order_by {A} (cmp : A -> A -> comparison) (rows : list A) : list A :=
  merge_sort (cmp_le cmp) rows.

(** Ordering a projection, and lexicographic ordering by two columns. *)
Definition cmp_on {A B} (f : A -> B) (cmp : B -> B -> comparison) : A -> A -> comparison :=
  fun x y => cmp (f x) (f y).
Definition cmp_lex {A} (c d : A -> A -> comparison) : A -> A -> comparison :=
  fun x y => cmp_then (c x y) (d x y).

Class TotalCmp {A} (cmp : A -> A -> comparison) : Prop := {
  cmp_refl x : cmp x x = Eq;
  cmp_antisym x y : cmp y x = CompOpp (cmp x y);
  cmp_lt_trans x y z : cmp x y = Lt -> cmp y z = Lt -> cmp x z = Lt;
  cmp_eq_l x y z : cmp x y = Eq -> cmp x z = cmp y z
}.

#[export] Instance Z_compare_total : TotalCmp Z.compare.
Proof.
  split.
  - apply Z.compare_refl.
  - intros x y. apply Z.compare_antisym.
  - intros x y z. rewrite !Z.compare_lt_iff. lia.
  - by intros x y z ->%Z.compare_eq.
Qed.

#[export] Instance bytes_cmp_total : TotalCmp bytes_cmp.
Proof.
  split.
  - apply bytes_cmp_refl.
  - intros x y. apply bytes_cmp_antisym.
  - apply bytes_cmp_lt_trans.
  - by intros x y z ->%bytes_cmp_eq.
Qed.

#[export] Instance cmp_on_total {A B} (f : A -> B) cmp : TotalCmp cmp -> TotalCmp (cmp_on f cmp).
Proof.
  intros H. unfold cmp_on. split; intros.
  - apply cmp_refl.
  - apply cmp_antisym.
  - by eapply cmp_lt_trans.
  - by apply cmp_eq_l.
Qed.

Lemma cmp_eq_r {A} (cmp : A -> A -> comparison) `{!TotalCmp cmp} x y z :
  cmp x y = Eq -> cmp z x = cmp z y.
Proof. intros E. by rewrite (cmp_antisym x z), (cmp_antisym y z), (cmp_eq_l x y z E). Qed.

#[export] Instance cmp_lex_total {A} (c d : A -> A -> comparison) :
  TotalCmp c -> TotalCmp d -> TotalCmp (cmp_lex c d).
Proof.
  intros Hc Hd. unfold cmp_lex. split.
  - intros x. by rewrite cmp_refl, (cmp_refl (cmp := d)).
  - intros x y. rewrite (cmp_antisym (cmp := c)), (cmp_antisym (cmp := d)).
    by destruct (c x y).
  - intros x y z. destruct (c x y) eqn:E1, (c y z) eqn:E2; cbn [cmp_then]; try done; intros H1 H2.
    + rewrite (cmp_eq_l x y z E1), E2. cbn [cmp_then]. by eapply cmp_lt_trans.
    + by rewrite (cmp_eq_l x y z E1), E2.
    + by rewrite <-(cmp_eq_r c y z x E2), E1.
    + by rewrite (cmp_lt_trans x y z E1 E2).
  - intros x y z. destruct (c x y) eqn:E1; cbn [cmp_then]; try done. intros E2.
    by rewrite (cmp_eq_l x y z E1), (cmp_eq_l (cmp := d) x y z E2).
Qed.

Section order.
Context {A : Type} (cmp : A -> A -> comparison) {T : TotalCmp cmp}.

#[export] Instance cmp_le_transitive : Transitive (cmp_le cmp).
Proof.
  intros x y z. unfold cmp_le. intros H1 H2.
  destruct (cmp x y) eqn:E1; [by rewrite (cmp_eq_l x y z E1)| |done].
  destruct (cmp y z) eqn:E2; [by rewrite <-(cmp_eq_r cmp y z x E2), E1| |done].
  by rewrite (cmp_lt_trans x y z E1 E2).
Qed.

#[export] Instance cmp_le_total : Total (cmp_le cmp).
Proof.
  intros x y. unfold cmp_le. rewrite (cmp_antisym (cmp := cmp) x y). destruct (cmp x y); cbn; auto.
Qed.

Lemma order_by_perm l : order_by cmp l ≡ₚ l.
Proof. apply merge_sort_Permutation. Qed.

Lemma elem_of_order_by x l : x ∈ order_by cmp l <-> x ∈ l.
Proof. by rewrite order_by_perm. Qed.

Lemma order_by_sorted l : StronglySorted (cmp_le cmp) (order_by cmp l).
Proof. apply StronglySorted_merge_sort; apply _. Qed.

(** An ordered list with distinct sort keys is the result of any query with its rows. *)
Lemma order_by_unique l l' :
  l ≡ₚ l' -> StronglySorted (cmp_le cmp) l' ->
  (forall x y, x ∈ l' -> y ∈ l' -> cmp x y = Eq -> x = y) ->
  order_by cmp l = l'.
Proof.
  intros Hp Hs Heq. eapply StronglySorted_unique_strong; [|apply order_by_sorted|done|].
  - intros x y Hx Hy Hxy Hyx. apply Heq; [by rewrite <-Hp, <-elem_of_order_by|done|].
    unfold cmp_le in *. rewrite (cmp_antisym (cmp := cmp) x y) in Hyx. by destruct (cmp x y).
  - by rewrite order_by_perm.
Qed.

(** What [WHERE P ORDER BY cmp LIMIT n] returns: matching rows, in order, at most [n] of them, and a
    matching row is left out only when [n] rows not after it are returned. *)
Record limit_query (P : A -> Prop) (n : nat) (l : list A) : Prop := {
  lq_nodup : NoDup l;
  lq_sorted : StronglySorted (cmp_le cmp) l;
  lq_sound x : x ∈ l -> P x;
  lq_limit : (length l <= n)%nat;
  lq_complete y : P y -> y ∉ l -> length l = n /\ forall x, x ∈ l -> cmp_le cmp x y
}.

Lemma take_order_by n rows (P : A -> Prop) : NoDup rows -> (forall x, x ∈ rows <-> P x) ->
  limit_query P n (take n (order_by cmp rows)).
Proof.
  intros Hnd HP. pose proof (order_by_sorted rows) as Hs. pose proof (order_by_perm rows) as Hp.
  assert (forall x, x ∈ order_by cmp rows <-> P x) as HP' by (intros; by rewrite Hp).
  assert (NoDup (order_by cmp rows)) as Hnd' by (by rewrite Hp).
  generalize dependent (order_by cmp rows). intros l Hs Hp HP' Hnd'.
  rewrite <- (take_drop n l) in Hs, Hnd'. apply NoDup_app in Hnd' as (Hn1 & _ & _).
  apply StronglySorted_app in Hs as (Hs1 & Hs2 & _). split.
  - done.
  - done.
  - intros x Hx. apply HP'. rewrite <- (take_drop n l). apply elem_of_app. by left.
  - rewrite length_take. lia.
  - intros y Hy%HP' Hny. rewrite <- (take_drop n l) in Hy. apply elem_of_app in Hy as [|Hy]; [done|].
    split; [|intros x Hx; by apply Hs1].
    rewrite length_take. assert (drop n l <> []) as Hd by (intros E; rewrite E in Hy; set_solver).
    assert (n < length l)%nat; [|lia]. destruct (Nat.lt_ge_cases n (length l)); [done|].
    by rewrite drop_ge in Hd.
Qed.
End order.

(** Decoding the rows of a query, when decoding is one-to-one and keeps the order. *)
Section decoded_query.
Context {A B : Type} (cmp : A -> A -> comparison) (cmp' : B -> B -> comparison).
Context (P : A -> Prop) (Q : B -> Prop) (R : A -> B -> Prop).
Hypothesis R_fun : forall x y y', R x y -> R x y' -> y = y'.
Hypothesis R_inj : forall x x' y, P x -> P x' -> R x y -> R x' y -> x = x'.
Hypothesis R_cmp : forall x x' y y', P x -> P x' -> R x y -> R x' y' -> cmp' y y' = cmp x x'.
Hypothesis R_sound : forall x y, P x -> R x y -> Q y.
Hypothesis R_onto : forall y, Q y -> exists x, P x /\ R x y.

Lemma Forall2_elem_l l k x : Forall2 R l k -> x ∈ l -> exists y, y ∈ k /\ R x y.
Proof.
  intros Hall [i Hi]%list_elem_of_lookup. destruct (Forall2_lookup_l _ _ _ _ _ Hall Hi) as (y & Hy & ?).
  apply list_elem_of_lookup_2 in Hy. eauto.
Qed.
Lemma Forall2_elem_r l k y : Forall2 R l k -> y ∈ k -> exists x, x ∈ l /\ R x y.
Proof.
  intros Hall [i Hi]%list_elem_of_lookup. destruct (Forall2_lookup_r _ _ _ _ _ Hall Hi) as (x & Hx & ?).
  apply list_elem_of_lookup_2 in Hx. eauto.
Qed.

Lemma limit_query_map n l k : limit_query cmp P n l -> Forall2 R l k -> limit_query cmp' Q n k.
Proof.
  intros [Hnd Hs Hin Hlim Hc] Hall. pose proof (Forall2_length _ _ _ Hall) as Hlen. split.
  - clear Hc Hlim Hlen Hs. induction Hall as [|x y l k Hxy Hall IH]; [constructor|].
    apply NoDup_cons in Hnd as [Hx Hnd]. constructor; [|apply IH; [done|intros; apply Hin; by right]].
    intros (x' & Hx' & Hr)%(Forall2_elem_r l k). 2:{ done. } apply Hx.
    rewrite (R_inj x x' y) by (done || apply Hin; by (left || right)). done.
  - clear Hc Hlim Hlen Hnd. induction Hall as [|x y l k Hxy Hall IH]; [constructor|].
    apply StronglySorted_cons in Hs as [Hx Hs].
    constructor; [apply IH; [done|intros; apply Hin; by right]|].
    apply Forall_forall. intros y' (x' & Hx' & Hr)%(Forall2_elem_r l k). 2:{ done. }
    unfold cmp_le. rewrite (R_cmp x x' y y') by (done || apply Hin; by (left || right)).
    rewrite Forall_forall in Hx. by apply Hx.
  - intros y (x & Hx & Hr)%(Forall2_elem_r l k); [|done]. eauto.
  - by rewrite <- Hlen.
  - intros y (x & Hx & Hr)%R_onto Hny. destruct (Hc x Hx) as [Hl Hle].
    { intros Hxl. destruct (Forall2_elem_l l k x Hall Hxl) as (y' & Hy' & Hr').
      by rewrite (R_fun x y y' Hr Hr') in Hny. }
    split; [by rewrite <- Hlen|]. intros y' (x' & Hx' & Hr')%(Forall2_elem_r l k); [|done].
    unfold cmp_le. rewrite (R_cmp x' x y' y) by eauto. by apply Hle.
Qed.
End decoded_query.

(** A query on one part of a table sees only that part. *)
Lemma order_by_ext {K V} `{Countable K} (cmp : K * V -> K * V -> comparison) `{!TotalCmp cmp}
  (P : K * V -> Prop) `{!forall x, Decision (P x)} (m m' : gmap K V) :
  (forall k v, P (k, v) -> m !! k = Some v <-> m' !! k = Some v) ->
  (forall x y, P x -> P y -> cmp x y = Eq -> fst x = fst y) ->
  order_by cmp (filter P (map_to_list m)) = order_by cmp (filter P (map_to_list m')).
Proof.
  intros Hext Hkey. apply order_by_unique; [done|..].
  - rewrite order_by_perm. apply NoDup_Permutation; [apply NoDup_filter, NoDup_map_to_list..|].
    intros [k v]. rewrite !list_elem_of_filter, !elem_of_map_to_list. split; intros [HP Hl]; by apply Hext in Hl.
  - by apply order_by_sorted.
  - intros [k v] [k' v']. rewrite !elem_of_order_by, !list_elem_of_filter, !elem_of_map_to_list.
    intros [Px Lx] [Py Ly] E. pose proof (Hkey _ _ Px Py E) as Ek. cbn in Ek. subst k'. congruence.
Qed.
