(* ===== verification/BTreeMap.v ===== *)
(** * Rust's [BTreeMap<String, V>]

    An ordered map with text keys is the list of its entries in strictly increasing key order, the
    order in which the code iterates over it. *)

From Stdlib Require Import Strings.Byte ZArith Lia.
From stdpp Require Import prelude list.
From S2P Require Import Prelude.

(** Strictly increasing keys, the iteration order of a [BTreeMap<String, _>]. *)
Fixpoint keys_sorted (ks : list bytes) : bool :=
  match ks with
  | k1 :: ((k2 :: _) as ks) => bytes_ltb k1 k2 && keys_sorted ks
  | _ => true
  end.

(** [BTreeMap::get] and [contains_key]. *)
Fixpoint btree_get {V} (k : bytes) (m : list (bytes * V)) : option V :=
  match m with
  | [] => None
  | (k', v) :: m => if decide (k = k') then Some v else btree_get k m
  end.
Definition btree_contains {V} (k : bytes) (m : list (bytes * V)) : bool :=
  match btree_get k m with Some _ => true | None => false end.

(** [BTreeMap::insert]. *)
Fixpoint btree_insert {V} (k : bytes) (v : V) (m : list (bytes * V)) : list (bytes * V) :=
  match m with
  | [] => [(k, v)]
  | (k', v') :: m' =>
      match bytes_cmp k k' with
      | Lt => (k, v) :: m
      | Eq => (k, v) :: m'
      | Gt => (k', v') :: btree_insert k v m'
      end
  end.

(** ** Sorted keys *)

Definition bytes_lt (l k : bytes) : Prop := bytes_cmp l k = Lt.

#[export] Instance bytes_lt_trans : Transitive bytes_lt.
Proof. intros l k m. apply bytes_cmp_lt_trans. Qed.

Lemma bytes_ltb_spec l k : bytes_ltb l k = true <-> bytes_lt l k.
Proof. unfold bytes_ltb, bytes_lt. destruct (bytes_cmp l k); naive_solver. Qed.

Lemma bytes_lt_irrefl l : ~ bytes_lt l l.
Proof. unfold bytes_lt. by rewrite bytes_cmp_refl. Qed.

Lemma keys_sorted_cons k ks :
  keys_sorted (k :: ks) = true <->
  keys_sorted ks = true /\ match head ks with Some k' => bytes_lt k k' | None => True end.
Proof.
  destruct ks as [|k' ks]; simpl; [naive_solver|].
  rewrite andb_true_iff, bytes_ltb_spec. naive_solver.
Qed.

Lemma keys_sorted_Forall k ks : keys_sorted (k :: ks) = true -> Forall (bytes_lt k) ks.
Proof.
  revert k; induction ks as [|k' ks IH]; intros k; [constructor|].
  intros [Hs Hlt]%keys_sorted_cons. simpl in Hlt. constructor; [done|].
  eapply Forall_impl; [by apply IH|]. intros x Hx. by etransitivity.
Qed.

Lemma keys_sorted_suffix ks js : keys_sorted (ks ++ js) = true -> keys_sorted js = true.
Proof. induction ks as [|k ks IH]; [done|]. cbn [app]. intros [H _]%keys_sorted_cons. by apply IH. Qed.

Lemma keys_sorted_NoDup ks : keys_sorted ks = true -> NoDup ks.
Proof.
  induction ks as [|k ks IH]; intros H; [constructor|]. constructor.
  - intros Hin. apply keys_sorted_Forall in H. rewrite Forall_forall in H.
    apply (bytes_lt_irrefl k), H, Hin.
  - apply IH. by apply keys_sorted_cons in H as [? _].
Qed.

(** ** Lookups and updates *)

Lemma btree_get_In {V} k (v : V) m : btree_get k m = Some v -> (k, v) ∈ m.
Proof.
  induction m as [|[k' v'] m IH]; cbn; [done|]. case_decide; [intros [= ->]; subst; left|].
  intros ?. right. auto.
Qed.

Lemma btree_get_None {V} k (m : list (bytes * V)) : btree_get k m = None <-> k ∉ map fst m.
Proof.
  induction m as [|[k' v'] m IH]; cbn; [split; [intros _; apply not_elem_of_nil|done]|].
  rewrite not_elem_of_cons. case_decide; naive_solver.
Qed.

Lemma btree_get_map {V W} (g : V -> W) k (m : list (bytes * V)) :
  btree_get k (map (fun f => (fst f, g (snd f))) m) = g <$> btree_get k m.
Proof. induction m as [|[k' v] m IH]; cbn; [done|]. by case_decide. Qed.

Lemma btree_contains_spec {V} k (m : list (bytes * V)) : btree_contains k m = true <-> k ∈ map fst m.
Proof.
  unfold btree_contains. pose proof (btree_get_None k m). destruct (btree_get k m) eqn:E.
  - split; [|done]. intros _. apply btree_get_In in E. apply list_elem_of_fmap. by exists (k, v).
  - split; [done|]. naive_solver.
Qed.

Lemma btree_In_get {V} k (v : V) m : keys_sorted (map fst m) = true ->
  (k, v) ∈ m -> btree_get k m = Some v.
Proof.
  induction m as [|[k' v'] m IH]; cbn [map fst]; intros Hs; [by intros ?%elem_of_nil|].
  intros [[= <- <-]|Hin]%elem_of_cons; cbn [btree_get]; [by rewrite decide_True|].
  pose proof (keys_sorted_NoDup _ Hs) as [Hni _]%NoDup_cons.
  rewrite decide_False.
  - apply IH; [by apply keys_sorted_cons in Hs as [? _]|done].
  - intros ->. apply Hni, list_elem_of_fmap. by exists (k', v).
Qed.

Lemma btree_insert_last {V} k (v : V) m :
  Forall (fun f => bytes_lt (fst f) k) m -> btree_insert k v m = m ++ [(k, v)].
Proof.
  induction 1 as [|[k' v'] m Hlt _ IH]; [done|]. simpl in *.
  rewrite (bytes_cmp_antisym k' k), Hlt. simpl. by rewrite IH.
Qed.

Lemma btree_insert_keys {V} k j (v : V) m :
  j ∈ map fst (btree_insert k v m) <-> j = k \/ j ∈ map fst m.
Proof.
  induction m as [|[k' v'] m IH]; cbn [btree_insert map fst].
  - rewrite elem_of_cons. naive_solver.
  - destruct (bytes_cmp k k') eqn:E; cbn [map fst]; rewrite !elem_of_cons; [|naive_solver|].
    + apply bytes_cmp_eq in E as ->. naive_solver.
    + rewrite IH. naive_solver.
Qed.

Lemma Forall_keys_sorted k ks : Forall (bytes_lt k) ks -> keys_sorted ks = true ->
  keys_sorted (k :: ks) = true.
Proof. intros Hf Hs. apply keys_sorted_cons. split; [done|]. destruct Hf; done. Qed.

Lemma btree_insert_sorted {V} k (v : V) m : keys_sorted (map fst m) = true ->
  keys_sorted (map fst (btree_insert k v m)) = true.
Proof.
  induction m as [|[k' v'] m IH]; [done|]. cbn [btree_insert map fst]. intros Hs.
  pose proof (keys_sorted_Forall _ _ Hs) as Hk. pose proof Hs as [Hm _]%keys_sorted_cons.
  destruct (bytes_cmp k k') eqn:E; cbn [map fst].
  - by apply bytes_cmp_eq in E as ->.
  - apply keys_sorted_cons. done.
  - apply Forall_keys_sorted; [|by apply IH]. apply Forall_forall.
    intros j [->|Hj]%btree_insert_keys; [|rewrite Forall_forall in Hk; by apply Hk].
    unfold bytes_lt. by rewrite (bytes_cmp_antisym k k'), E.
Qed.

Lemma btree_get_insert {V} j k (v : V) m : keys_sorted (map fst m) = true ->
  btree_get j (btree_insert k v m) = if decide (j = k) then Some v else btree_get j m.
Proof.
  induction m as [|[k' v'] m IH]; cbn [btree_insert map fst]; intros Hs; [done|].
  pose proof Hs as [Hm _]%keys_sorted_cons. destruct (bytes_cmp k k') eqn:E; cbn [btree_get].
  - apply bytes_cmp_eq in E as ->. by repeat case_decide.
  - done.
  - rewrite (IH Hm). repeat case_decide; subst; try done. by rewrite bytes_cmp_refl in E.
Qed.

(** An ordered map is determined by its lookups. *)
Lemma btree_ext {V} (m m' : list (bytes * V)) : keys_sorted (map fst m) = true ->
  keys_sorted (map fst m') = true -> (forall k, btree_get k m = btree_get k m') -> m = m'.
Proof.
  revert m'; induction m as [|[k v] m IH]; intros [|[k' v'] m'] Hs Hs' Hget; [done|..].
  - specialize (Hget k'). cbn in Hget. by rewrite decide_True in Hget.
  - specialize (Hget k). cbn in Hget. by rewrite decide_True in Hget.
  - assert (k = k') as <-.
    { pose proof (keys_sorted_Forall _ _ Hs) as F. pose proof (keys_sorted_Forall _ _ Hs') as F'.
      rewrite Forall_forall in F, F'. destruct (decide (k = k')) as [|Hne]; [done|].
      assert (k ∈ map fst m') as Hk.
      { apply btree_contains_spec. unfold btree_contains. specialize (Hget k). cbn in Hget.
        rewrite decide_True, decide_False in Hget by done. by rewrite <- Hget. }
      assert (k' ∈ map fst m) as Hk'.
      { apply btree_contains_spec. unfold btree_contains. specialize (Hget k'). cbn in Hget.
        rewrite decide_False, decide_True in Hget by done. by rewrite Hget. }
      destruct (bytes_lt_irrefl k). transitivity k'; [by apply F|by apply F']. }
    pose proof Hs as [Hm _]%keys_sorted_cons. pose proof Hs' as [Hm' _]%keys_sorted_cons.
    pose proof (keys_sorted_NoDup _ Hs) as [Hn _]%NoDup_cons.
    pose proof (keys_sorted_NoDup _ Hs') as [Hn' _]%NoDup_cons.
    pose proof (Hget k) as Hk. cbn in Hk. rewrite !decide_True in Hk by done. injection Hk as <-.
    f_equal. apply IH; [done..|]. intros j. specialize (Hget j). cbn in Hget.
    case_decide; [|done]. subst j. apply btree_get_None in Hn, Hn'. cbn in Hn, Hn'. by rewrite Hn, Hn'.
Qed.
