(* ===== verification/Codec.v ===== *)
(** * Cursor decoders

    What the binary formats of the repository share: a cursor over the remaining bytes, the loop that
    reads a number of items, big-endian integers, and the notion of a decoder that reads exactly what
    an encoder writes.  The formats (index catalogs, Release manifests, bundles) are composed from
    these with their own errors. *)

From Stdlib Require Import Strings.Byte ZArith Lia.
From stdpp Require Import prelude strings list.
From S2P Require Import Prelude.

(** Splits off the next [n] bytes. *)
Definition take_exact {E} (e : E) (n : Z) (c : bytes) : result E (bytes * bytes) :=
  if n <=? len c then Ok (take (Z.to_nat n) c, drop (Z.to_nat n) c) else Err e.

(** An unsigned big-endian integer of [n] bytes. *)
Definition take_be {E} (e : E) (n : nat) (c : bytes) : result E (Z * bytes) :=
  let? (raw, c) := take_exact e (Z.of_nat n) c in Ok (from_be raw, c).

(** [for _ in 0..n], one item of the cursor at a time. *)
Definition decode_times {E A} (item : bytes -> result E (A * bytes))
  : nat -> bytes -> result E (list A * bytes) :=
  fix go n c :=
    match n with
    | O => Ok ([], c)
    | S n => let? (x, c) := item c in let? (xs, c) := go n c in Ok (x :: xs, c)
    end.

(** An item of kind [A] is read off the cursor exactly when the cursor starts with its encoding. *)
Definition reads {E A} (item : bytes -> result E (A * bytes)) (enc : A -> bytes) (good : A -> Prop) : Prop :=
  forall c x c', item c = Ok (x, c') <-> good x /\ c = enc x ++ c'.

Lemma take_exact_Ok {E} (e : E) n c v c' : 0 <= n ->
  take_exact e n c = Ok (v, c') <-> len v = n /\ c = v ++ c'.
Proof.
  intros Hn. unfold take_exact. destruct (Z.leb_spec n (len c)).
  - split; [|intros [<- ->]].
    + intros [= <- <-]. rewrite take_drop. split; [|done]. unfold len in *. rewrite length_take. lia.
    + unfold len. rewrite Nat2Z.id, take_app_length, drop_app_length. done.
  - split; [done|]. intros [<- ->]. rewrite len_app in *. pose proof (len_nonneg c'). lia.
Qed.

Lemma reads_exact {E} (e : E) n : 0 <= n -> reads (take_exact e n) id (fun v => len v = n).
Proof. intros Hn c v c'. by apply take_exact_Ok. Qed.

Lemma reads_be {E} (e : E) n : reads (take_be e n) (to_be n) (fun z => 0 <= z < 256 ^ Z.of_nat n).
Proof.
  intros c z c'. unfold take_be. rewrite rbind_Ok. split.
  - intros ([raw c1] & [Hl ->]%take_exact_Ok & [= <- <-]); [|lia]. unfold len in Hl.
    assert (length raw = n) as Hr by lia. rewrite to_be_from_be by done. split; [|done].
    pose proof (from_be_range raw) as R. unfold len in R. by rewrite Hr in R.
  - intros [Hz ->]. exists (to_be n z, c'). split; [|by rewrite from_be_to_be].
    apply take_exact_Ok; [lia|]. by rewrite len_to_be.
Qed.

Lemma reads_times {E A} (item : bytes -> result E (A * bytes)) enc good n :
  reads item enc good ->
  reads (decode_times item n) (fun l => concat (map enc l)) (fun l => length l = n /\ Forall good l).
Proof.
  intros Hr. induction n as [|n IH]; intros c l c'; cbn [decode_times].
  - split; [intros [= <- <-]; by split|]. intros [[Hl%nil_length_inv _] ->]. by subst.
  - rewrite rbind_Ok. split.
    + intros ([x c1] & Hx & H). apply Hr in Hx as [Hx ->]. apply rbind_Ok in H as ([l' c2] & Hl' & [= <- <-]).
      apply IH in Hl' as [[<- Hl'] ->]. split; [split; [done|by constructor]|].
      cbn [map concat]. by rewrite app_assoc.
    + intros [[Hl Hg] ->]. destruct l as [|x l]; [done|]. apply Forall_cons in Hg as [Hx Hg].
      exists (x, concat (map enc l) ++ c'). split; [apply Hr; split; [done|by rewrite app_assoc]|].
      apply rbind_Ok. exists (l, c'). split; [|done]. apply IH. split; [|done].
      split; [by injection Hl|done].
Qed.

(** Reading one item and going on. *)
Lemma rbind_reads {E A B} (item : bytes -> result E (A * bytes)) enc good c
  (k : A * bytes -> result E B) r : reads item enc good ->
  rbind (item c) k = Ok r <-> exists x c', good x /\ c = enc x ++ c' /\ k (x, c') = Ok r.
Proof.
  intros Hr. rewrite rbind_Ok. split.
  - intros ([x c'] & [Hg Hc]%Hr & Hk). eauto.
  - intros (x & c' & Hg & Hc & Hk). exists (x, c'). split; [by apply Hr|done].
Qed.

(** Reading an item that is then converted. *)
Lemma reads_map {E A B} (item : bytes -> result E (A * bytes)) enc good (f : A -> result E B) (g : B -> A)
  (good' : B -> Prop) : reads item enc good ->
  (forall a b, good a -> f a = Ok b <-> good' b /\ a = g b) -> (forall b, good' b -> good (g b)) ->
  reads (fun c => let? (a, c) := item c in let? b := f a in Ok (b, c)) (fun b => enc (g b)) good'.
Proof.
  intros Hr Hf Hg c b c'. rewrite (rbind_reads _ _ _ _ _ _ Hr). split.
  - intros (a & c1 & Ha & -> & (b' & Hb & [= <- <-])%rbind_Ok). by apply Hf in Hb as [? ->].
  - intros [Hb ->]. exists (g b), c'. split_and!; [by apply Hg|done|]. apply rbind_Ok. exists b.
    split; [|done]. apply Hf; [by apply Hg|done].
Qed.
