(* ===== verification/Ulid.v ===== *)
(** * The [ulid] crate

    [ulid::Ulid] is a third-party type. The model keeps it abstract: a ULID is a 128-bit number,
    its text form and its parser are the operations of the class [UlidLib], and [UlidLaws]
    states the documented behaviour of the crate that Runku relies on (26 characters of Crockford
    base 32, parsing the text form gives the number back, and the text sorts like the number).
    [crockford] is a concrete implementation that satisfies the laws; theorems are instantiated
    with it when they are applied to concrete inputs. *)

From Stdlib Require Import Strings.Byte ZArith Lia.
From stdpp Require Import prelude list strings.
From S2P Require Import Prelude.

Definition ulid_range (u : Z) : Prop := 0 <= u < 2 ^ 128.

Class UlidLib := {
  ulid_to_string : Z -> bytes;
  ulid_from_str : bytes -> option Z
}.

Class UlidLaws {UL : UlidLib} : Prop := {
  ulid_round_trip u : ulid_range u -> ulid_from_str (ulid_to_string u) = Some u;
  ulid_from_str_range s u : ulid_from_str s = Some u -> ulid_range u;
  ulid_to_string_len u : ulid_range u -> length (ulid_to_string u) = 26%nat;
  ulid_to_string_alnum u : ulid_range u ->
    forallb (fun b => is_ascii_digit b || is_ascii_uppercase b) (ulid_to_string u) = true;
  ulid_to_string_cmp u v : ulid_range u -> ulid_range v ->
    bytes_cmp (ulid_to_string u) (ulid_to_string v) = (u ?= v)
}.

Section laws.
Context {UL : UlidLib} {ULL : UlidLaws}.

Lemma ulid_to_string_inj u v :
  ulid_range u -> ulid_range v -> ulid_to_string u = ulid_to_string v -> u = v.
Proof.
  intros Hu Hv E. pose proof (ulid_round_trip u Hu) as H. rewrite E, ulid_round_trip in H by done.
  congruence.
Qed.

Lemma ulid_to_string_ascii u : ulid_range u -> forallb is_ascii (ulid_to_string u) = true.
Proof.
  intros Hu. pose proof (ulid_to_string_alnum u Hu) as H.
  rewrite forallb_forall in *. intros b Hb. specialize (H b Hb).
  unfold is_ascii_digit, is_ascii_uppercase, in_range, is_ascii in *.
  apply orb_true_iff in H as [H|H]; bool_facts; apply Z.ltb_lt; lia.
Qed.
End laws.

(** ** A concrete instance: Crockford base 32 *)

Definition crockford_alphabet : bytes := Eval cbv in text "0123456789ABCDEFGHJKMNPQRSTVWXYZ".

Definition crockford_digit (d : Z) : byte := nth (Z.to_nat d) crockford_alphabet x30.

Fixpoint crockford_digits (n : nat) (u : Z) : bytes :=
  match n with
  | O => []
  | S n => crockford_digit ((u / 32 ^ Z.of_nat n) mod 32) :: crockford_digits n u
  end.

Fixpoint index_of (b : byte) (l : bytes) : option Z :=
  match l with
  | [] => None
  | c :: l => if decide (b = c) then Some 0 else Z.succ <$> index_of b l
  end.

Definition ascii_uppercase (b : byte) : byte := if is_ascii_lowercase b then zb (bz b - 32) else b.

Definition crockford_value (b : byte) : option Z := index_of (ascii_uppercase b) crockford_alphabet.

Fixpoint crockford_parse (acc : Z) (l : bytes) : option Z :=
  match l with
  | [] => Some acc
  | b :: l => d ← crockford_value b; crockford_parse ((acc * 32 + d) mod 2 ^ 128) l
  end.

#[export] Instance crockford : UlidLib := {
  ulid_to_string := crockford_digits 26;
  ulid_from_str s := if decide (length s = 26%nat) then crockford_parse 0 s else None
}.

Definition digit_ok (d : Z) : bool :=
  let b := crockford_digit d in
  bool_decide (crockford_value b = Some d) && (is_ascii_digit b || is_ascii_uppercase b)
  && (if d =? 31 then true else bz b <? bz (crockford_digit (d + 1))).

Lemma crockford_digits_ok : forallb (fun n => digit_ok (Z.of_nat n)) (seq 0 32) = true.
Proof. vm_compute. reflexivity. Qed.

Lemma crockford_digit_ok d : 0 <= d < 32 -> digit_ok d = true.
Proof.
  intros Hd. pose proof crockford_digits_ok as H. rewrite forallb_forall in H.
  specialize (H (Z.to_nat d)). rewrite Z2Nat.id in H by lia. apply H.
  apply in_seq. lia.
Qed.

Lemma crockford_value_digit d : 0 <= d < 32 -> crockford_value (crockford_digit d) = Some d.
Proof. intros Hd%crockford_digit_ok. unfold digit_ok in Hd. bool_facts. done. Qed.

Lemma crockford_digit_mono c d : 0 <= c -> c < d -> d < 32 ->
  bz (crockford_digit c) < bz (crockford_digit d).
Proof.
  intros Hc Hcd Hd.
  assert (forall k, (Z.of_nat k) + c + 1 < 32 ->
    bz (crockford_digit c) < bz (crockford_digit (Z.of_nat k + c + 1))) as H.
  { induction k as [|k IH]; intros Hk.
    - pose proof (crockford_digit_ok c ltac:(lia)) as Hok. unfold digit_ok in Hok. bool_facts.
      destruct (Z.eqb_spec c 31); [lia|]. bool_facts. by replace (Z.of_nat 0 + c + 1) with (c + 1) by lia.
    - specialize (IH ltac:(lia)).
      pose proof (crockford_digit_ok (Z.of_nat k + c + 1) ltac:(lia)) as Hok. unfold digit_ok in Hok.
      bool_facts. destruct (Z.eqb_spec (Z.of_nat k + c + 1) 31); [lia|]. bool_facts.
      replace (Z.of_nat (S k) + c + 1) with (Z.of_nat k + c + 1 + 1) by lia. lia. }
  specialize (H (Z.to_nat (d - c - 1))). rewrite Z2Nat.id in H by lia.
  replace (d - c - 1 + c + 1) with d in H by lia. apply H. lia.
Qed.

Lemma crockford_digits_length n u : length (crockford_digits n u) = n.
Proof. induction n; simpl; auto. Qed.

Lemma pow32_pos n : 0 < 32 ^ Z.of_nat n.
Proof. apply Z.pow_pos_nonneg; lia. Qed.

Lemma crockford_digits_cmp n u v :
  bytes_cmp (crockford_digits n u) (crockford_digits n v)
  = (u mod 32 ^ Z.of_nat n ?= v mod 32 ^ Z.of_nat n).
Proof.
  induction n as [|n IH]; [by rewrite !Z.mod_1_r|].
  cbn [crockford_digits bytes_cmp]. rewrite IH.
  rewrite Nat2Z.inj_succ, <-Z.add_1_r, Z.pow_add_r, Z.pow_1_r by lia.
  pose proof (pow32_pos n) as P. rewrite !Z.rem_mul_r by lia.
  pose proof (Z.mod_pos_bound u _ P). pose proof (Z.mod_pos_bound v _ P).
  pose proof (Z.mod_pos_bound (u / 32 ^ Z.of_nat n) 32 ltac:(lia)).
  pose proof (Z.mod_pos_bound (v / 32 ^ Z.of_nat n) 32 ltac:(lia)).
  remember ((u / 32 ^ Z.of_nat n) mod 32) as x eqn:Hx; clear Hx.
  remember ((v / 32 ^ Z.of_nat n) mod 32) as y eqn:Hy; clear Hy.
  destruct (Z.compare_spec x y) as [E|E|E].
  - rewrite E, Z.compare_refl. cbn. by rewrite (Z.add_comm (u mod _)), (Z.add_comm (v mod _)), Z.add_compare_mono_l.
  - pose proof (crockford_digit_mono x y ltac:(lia) E ltac:(lia)).
    rewrite (proj2 (Z.compare_lt_iff (bz _) _)) by lia. cbn.
    symmetry. apply Z.compare_lt_iff. nia.
  - pose proof (crockford_digit_mono y x ltac:(lia) E ltac:(lia)).
    rewrite (proj2 (Z.compare_gt_iff (bz _) _)) by lia. cbn.
    symmetry. apply Z.compare_gt_iff. nia.
Qed.

Lemma crockford_parse_digits n u acc :
  ulid_range u -> 0 <= acc ->
  acc = u / 32 ^ Z.of_nat n ->
  crockford_parse acc (crockford_digits n u) = Some u.
Proof.
  intros Hu. revert acc; induction n as [|n IH]; intros acc Ha E.
  { simpl in *. rewrite E. f_equal. apply Z.div_1_r. }
  cbn [crockford_digits crockford_parse].
  pose proof (pow32_pos n) as P.
  pose proof (Z.mod_pos_bound (u / 32 ^ Z.of_nat n) 32 ltac:(lia)).
  rewrite crockford_value_digit by lia. cbn.
  assert (acc * 32 + (u / 32 ^ Z.of_nat n) mod 32 = u / 32 ^ Z.of_nat n) as Hd.
  { subst acc. rewrite Nat2Z.inj_succ, <-Z.add_1_r, Z.pow_add_r, Z.pow_1_r by lia.
    rewrite <-Z.div_div by lia. pose proof (Z.div_mod (u / 32 ^ Z.of_nat n) 32 ltac:(lia)). lia. }
  rewrite Hd. unfold ulid_range in Hu.
  assert (0 <= u / 32 ^ Z.of_nat n <= u).
  { split; [apply Z.div_pos; lia|]. apply Z.div_le_upper_bound; nia. }
  rewrite Z.mod_small by lia. apply IH; [lia|done].
Qed.

#[export] Instance crockford_laws : UlidLaws.
Proof.
  split.
  - intros u Hu. cbn [ulid_from_str ulid_to_string crockford]. rewrite decide_True by apply crockford_digits_length.
    apply crockford_parse_digits; [done..|]. unfold ulid_range in Hu.
    rewrite Z.div_small; [done|]. change (32 ^ Z.of_nat 26) with (2 ^ 130). lia.
  - intros s u. cbn [ulid_from_str crockford]. case_decide; [|done]. clear.
    assert (forall acc, ulid_range acc -> crockford_parse acc s = Some u -> ulid_range u) as Hp.
    { induction s as [|b s IH]; simpl; [naive_solver|]. intros acc _.
      rewrite bind_Some. intros (d & _ & H). apply IH in H; [done|].
      apply Z.mod_pos_bound. lia. }
    apply Hp. unfold ulid_range. lia.
  - intros u _. apply crockford_digits_length.
  - intros u _. cbn [ulid_to_string crockford]. generalize 26%nat. induction n as [|n IH]; [done|].
    cbn [crockford_digits forallb]. rewrite IH, andb_true_r.
    pose proof (crockford_digit_ok _ (Z.mod_pos_bound (u / 32 ^ Z.of_nat n) 32 ltac:(lia))) as H.
    unfold digit_ok in H. bool_facts. done.
  - intros u v Hu Hv. cbn [ulid_to_string crockford]. rewrite crockford_digits_cmp. unfold ulid_range in *.
    change (32 ^ Z.of_nat 26) with (2 ^ 130). rewrite !Z.mod_small by lia. done.
Qed.
