(* ===== verification/Value.v ===== *)
(** * The canonical value model: [crates/runku-value/src/value.rs]

    Finite binary64 numbers (as their IEEE-754 bits), timestamps, typed identifiers and the
    recursive [CanonicalValue]. A Rust [String] is its bytes with [utf8_valid] as an invariant,
    a [BTreeMap<String, V>] is its association list in strictly increasing key order. The
    invariants Rust's types carry are the boolean [value_ok]. *)

From Stdlib Require Import Strings.Byte ZArith Lia.
From stdpp Require Import prelude list strings.
From S2P Require Import Prelude BTreeMap Ulid.

Definition MAX_ID_KIND_BYTES : Z := 16.
Definition MAX_TYPED_ID_BYTES : Z := MAX_ID_KIND_BYTES + 1 + 26.

(** ** Finite floats

    An [f64] is its bit pattern, [f64::from_bits]/[to_bits] being the identity on it. *)

Inductive NonFiniteFloatError : Type := NonFinite.
#[export] Instance NonFiniteFloatError_eq_dec : EqDecision NonFiniteFloatError.
Proof. solve_decision. Defined.

Definition f64_is_finite (bits : Z) : bool :=
  negb (Z.land (Z.shiftr bits 52) 0x7ff =? 0x7ff).
(** [value == 0.0] holds of both zeros. *)
Definition f64_is_zero (bits : Z) : bool := Z.land bits (2 ^ 63 - 1) =? 0.
(** [f64::total_cmp] of the standard library, on the bits. *)
Definition f64_total_key (bits : Z) : Z :=
  let left := cast_signed bits in
  Z.lxor left (cast_signed (Z.shiftr (cast_unsigned (Z.shiftr left 63)) 1)).

Definition FiniteF64_new (value : Z) : result NonFiniteFloatError Z :=
  ensure? f64_is_finite value else NonFinite in
  Ok (if f64_is_zero value then 0 else value).

Definition FiniteF64_cmp (x y : Z) : comparison := f64_total_key x ?= f64_total_key y.

(** ** Typed identifiers *)

Inductive ParseTypedIdError : Type :=
| TID_MissingSeparator | TID_EmptyKind | TID_TooLong | TID_InvalidKind | TID_InvalidUlid.

Record TypedId : Type := mkTypedId { kind : bytes; ulid : Z }.

Definition validate_kind (kind : bytes) : result ParseTypedIdError unit :=
  if bool_decide (kind = []) then Err TID_EmptyKind
  else if MAX_ID_KIND_BYTES <? len kind then Err TID_TooLong
  else if negb (forallb (fun c => is_ascii_lowercase c || is_ascii_digit c) kind)
  then Err TID_InvalidKind
  else Ok tt.

Section typed_id.
Context {UL : UlidLib}.

Definition TypedId_new (kind : bytes) (ulid : Z) : result ParseTypedIdError TypedId :=
  let? _ := validate_kind kind in Ok (mkTypedId kind ulid).

Definition TypedId_to_string (id : TypedId) : bytes :=
  kind id ++ text "_" ++ ulid_to_string (ulid id).

Definition TypedId_from_str (value : bytes) : result ParseTypedIdError TypedId :=
  if MAX_TYPED_ID_BYTES <? len value then Err TID_TooLong
  else
    let? (kind, payload) := ok_or TID_MissingSeparator (split_once x5f value) in
    let? _ := validate_kind kind in
    let? ulid := ok_or TID_InvalidUlid (ulid_from_str payload) in
    if bool_decide (ulid_to_string ulid <> payload) then Err TID_InvalidUlid
    else Ok (mkTypedId kind ulid).
End typed_id.

(** ** Canonical values *)

Inductive CanonicalValue : Type :=
| CV_Null
| CV_Boolean (b : bool)
| CV_Int64 (z : Z)
| CV_Float64 (bits : Z)
| CV_String (s : bytes)
| CV_Bytes (bs : bytes)
| CV_Timestamp (micros : Z)
| CV_TypedId (id : TypedId)
| CV_Array (vs : list CanonicalValue)
| CV_Object (fields : list (bytes * CanonicalValue)).

(** The induction principle that reaches the members of containers. *)
Section value_induction.
Variable P : CanonicalValue -> Prop.
Hypothesis Hnull : P CV_Null.
Hypothesis Hbool : forall b, P (CV_Boolean b).
Hypothesis Hint : forall z, P (CV_Int64 z).
Hypothesis Hfloat : forall z, P (CV_Float64 z).
Hypothesis Hstring : forall s, P (CV_String s).
Hypothesis Hbytes : forall s, P (CV_Bytes s).
Hypothesis Htime : forall z, P (CV_Timestamp z).
Hypothesis Hid : forall i, P (CV_TypedId i).
Hypothesis Harray : forall vs, Forall P vs -> P (CV_Array vs).
Hypothesis Hobject : forall fs, Forall (fun f => P (snd f)) fs -> P (CV_Object fs).

Fixpoint value_induction (v : CanonicalValue) : P v :=
  match v with
  | CV_Null => Hnull
  | CV_Boolean b => Hbool b
  | CV_Int64 z => Hint z
  | CV_Float64 z => Hfloat z
  | CV_String s => Hstring s
  | CV_Bytes s => Hbytes s
  | CV_Timestamp z => Htime z
  | CV_TypedId i => Hid i
  | CV_Array vs => Harray vs
      ((fix go l := match l return Forall P l with
                    | [] => List.Forall_nil _
                    | v :: l => List.Forall_cons _ v l (value_induction v) (go l)
                    end) vs)
  | CV_Object fs => Hobject fs
      ((fix go l := match l return Forall (fun f => P (snd f)) l with
                    | [] => List.Forall_nil _
                    | f :: l => List.Forall_cons _ f l (value_induction (snd f)) (go l)
                    end) fs)
  end.
End value_induction.

#[export] Instance TypedId_eq_dec : EqDecision TypedId.
Proof. solve_decision. Defined.

#[export] Instance CanonicalValue_eq_dec : EqDecision CanonicalValue.
Proof.
  refine (fix go (v w : CanonicalValue) : Decision (v = w) :=
    match v, w with
    | CV_Null, CV_Null => left eq_refl
    | CV_Boolean a, CV_Boolean b => cast_if (decide (a = b))
    | CV_Int64 a, CV_Int64 b => cast_if (decide (a = b))
    | CV_Float64 a, CV_Float64 b => cast_if (decide (a = b))
    | CV_String a, CV_String b => cast_if (decide (a = b))
    | CV_Bytes a, CV_Bytes b => cast_if (decide (a = b))
    | CV_Timestamp a, CV_Timestamp b => cast_if (decide (a = b))
    | CV_TypedId a, CV_TypedId b => cast_if (decide (a = b))
    | CV_Array a, CV_Array b => cast_if (@decide (a = b) (@list_eq_dec _ go a b))
    | CV_Object a, CV_Object b =>
        cast_if (@decide (a = b)
          (@list_eq_dec _ (fun p q => @prod_eq_dec _ _ _ go p q) a b))
    | _, _ => right _
    end); abstract congruence.
Defined.

(** ** The invariants of the Rust types *)

Definition kind_ok (k : bytes) : bool := is_ok (validate_kind k).
Definition typed_id_ok (id : TypedId) : bool :=
  kind_ok (kind id) && (0 <=? ulid id) && (ulid id <? 2 ^ 128).
Definition float_ok (bits : Z) : bool :=
  is_u64 bits && bool_decide (FiniteF64_new bits = Ok bits).

Fixpoint value_ok (v : CanonicalValue) : bool :=
  match v with
  | CV_Null | CV_Boolean _ | CV_Bytes _ => true
  | CV_Int64 z | CV_Timestamp z => is_i64 z
  | CV_Float64 b => float_ok b
  | CV_String s => utf8_valid s
  | CV_TypedId id => typed_id_ok id
  | CV_Array vs => forallb value_ok vs
  | CV_Object fs =>
      keys_sorted (map fst fs) && forallb utf8_valid (map fst fs)
      && forallb (fun f => value_ok (snd f)) fs
  end.

(** ** Facts about finite floats *)

Lemma shiftr63_sign z : is_i64 z = true -> Z.shiftr z 63 = if z <? 0 then -1 else 0.
Proof.
  rewrite is_i64_spec. unfold i64_min, i64_max. intros H.
  rewrite Z.shiftr_div_pow2 by lia. destruct (Z.ltb_spec z 0).
  - symmetry. apply (Z.div_unique_pos _ _ _ (z + 2 ^ 63)); lia.
  - apply Z.div_small. lia.
Qed.

(** The key [total_cmp] compares, in closed form. *)
Lemma f64_total_key_spec b : is_u64 b = true ->
  f64_total_key b = if b <? 2 ^ 63 then b else 2 ^ 63 - 1 - b.
Proof.
  intros Hb. unfold f64_total_key. pose proof (cast_signed_range _ Hb) as Hs.
  rewrite (shiftr63_sign _ Hs). apply is_u64_spec in Hb. unfold u64_max in Hb.
  destruct (Z.ltb_spec b (2 ^ 63)).
  - replace (cast_signed b) with b by (unfold cast_signed; destruct (Z.ltb_spec b (2 ^ 63)); lia).
    destruct (Z.ltb_spec b 0); [lia|]. apply Z.lxor_0_r.
  - replace (cast_signed b) with (b - 2 ^ 64)
      by (unfold cast_signed; destruct (Z.ltb_spec b (2 ^ 63)); lia).
    destruct (Z.ltb_spec (b - 2 ^ 64) 0); [|lia].
    change (cast_signed (Z.shiftr (cast_unsigned (-1)) 1)) with (2 ^ 63 - 1).
    replace (b - 2 ^ 64) with (Z.lnot (2 ^ 64 - 1 - b)) by (unfold Z.lnot; lia).
    rewrite <-Z.lnot_lxor_l, lxor_ones by lia. unfold Z.lnot. lia.
Qed.

(** The number an [f64] denotes, scaled by [2^1074] so that it is an integer. *)
Definition f64_magnitude (b : Z) : Z :=
  let e := b / 2 ^ 52 in
  let m := b mod 2 ^ 52 in
  if e =? 0 then m else (2 ^ 52 + m) * 2 ^ (e - 1).
Definition f64_scaled (bits : Z) : Z :=
  if bits <? 2 ^ 63 then f64_magnitude bits else - f64_magnitude (bits - 2 ^ 63).

Lemma f64_magnitude_bounds b : 0 <= b -> 
  let e := b / 2 ^ 52 in
  (if e =? 0 then 0 else 2 ^ 52 * 2 ^ (e - 1)) <= f64_magnitude b < 2 ^ 52 * 2 ^ e.
Proof.
  intros Hb e. unfold f64_magnitude. fold e.
  assert (0 <= e) by (apply Z.div_pos; lia).
  pose proof (Z.mod_pos_bound b (2 ^ 52) ltac:(lia)). destruct (Z.eqb_spec e 0) as [->|].
  - lia.
  - replace e with (e - 1 + 1) at 4 by lia. rewrite Z.pow_add_r, Z.pow_1_r by lia.
    assert (0 < 2 ^ (e - 1)) by (apply Z.pow_pos_nonneg; lia). nia.
Qed.

Lemma f64_magnitude_mono b c : 0 <= b -> b < c -> f64_magnitude b < f64_magnitude c.
Proof.
  intros Hb Hbc.
  pose proof (f64_magnitude_bounds b Hb) as Bb. pose proof (f64_magnitude_bounds c ltac:(lia)) as Bc.
  cbn zeta in Bb, Bc.
  assert (b / 2 ^ 52 <= c / 2 ^ 52) by (apply Z.div_le_mono; lia).
  assert (0 <= b / 2 ^ 52) by (apply Z.div_pos; lia).
  destruct (decide (b / 2 ^ 52 = c / 2 ^ 52)) as [E|E].
  - unfold f64_magnitude. rewrite E.
    pose proof (Z.div_mod b (2 ^ 52) ltac:(lia)). pose proof (Z.div_mod c (2 ^ 52) ltac:(lia)).
    assert (b mod 2 ^ 52 < c mod 2 ^ 52) by lia.
    destruct (Z.eqb_spec (c / 2 ^ 52) 0); [lia|].
    apply Z.mul_lt_mono_pos_r; [apply Z.pow_pos_nonneg; lia|lia].
  - destruct (Z.eqb_spec (c / 2 ^ 52) 0); [lia|].
    assert (2 ^ (b / 2 ^ 52) <= 2 ^ (c / 2 ^ 52 - 1)) by (apply Z.pow_le_mono_r; lia). nia.
Qed.

Lemma float_ok_spec b : float_ok b = true ->
  0 <= b < 2 ^ 64 /\ b <> 2 ^ 63 /\ f64_is_finite b = true.
Proof.
  unfold float_ok, FiniteF64_new. intros H. bool_facts.
  rewrite is_u64_spec in *. unfold u64_max in *. destruct (f64_is_finite b) eqn:?; [|done].
  split; [lia|]. split; [|done]. intros ->. done.
Qed.

Lemma f64_magnitude_pos b : 0 < b -> 0 < f64_magnitude b.
Proof. intros H. apply (f64_magnitude_mono 0); lia. Qed.

Lemma f64_magnitude_nonneg b : 0 <= b -> 0 <= f64_magnitude b.
Proof.
  intros. destruct (decide (b = 0)) as [->|]; [done|].
  pose proof (f64_magnitude_pos b). lia.
Qed.

Lemma f64_magnitude_compare b c : 0 <= b -> 0 <= c ->
  (f64_magnitude b ?= f64_magnitude c) = (b ?= c).
Proof.
  intros Hb Hc. destruct (Z.compare_spec b c) as [->|H|H].
  - apply Z.compare_refl.
  - apply Z.compare_lt_iff. by apply f64_magnitude_mono.
  - apply Z.compare_gt_iff. by apply f64_magnitude_mono.
Qed.

(** The bit-level order of finite canonical floats is the order of the numbers they denote. *)
Lemma FiniteF64_cmp_numeric x y : float_ok x = true -> float_ok y = true ->
  FiniteF64_cmp x y = (f64_scaled x ?= f64_scaled y).
Proof.
  intros (Hx & Nx & _)%float_ok_spec (Hy & Ny & _)%float_ok_spec.
  unfold FiniteF64_cmp. rewrite !f64_total_key_spec by (apply is_u64_spec; unfold u64_max; lia).
  unfold f64_scaled. destruct (Z.ltb_spec x (2 ^ 63)), (Z.ltb_spec y (2 ^ 63)).
  - by rewrite f64_magnitude_compare by lia.
  - pose proof (f64_magnitude_pos (y - 2 ^ 63) ltac:(lia)).
    pose proof (f64_magnitude_nonneg x ltac:(lia)).
    rewrite !(proj2 (Z.compare_gt_iff _ _)) by lia. done.
  - pose proof (f64_magnitude_pos (x - 2 ^ 63) ltac:(lia)).
    pose proof (f64_magnitude_nonneg y ltac:(lia)).
    rewrite !(proj2 (Z.compare_lt_iff _ _)) by lia. done.
  - rewrite Z.compare_opp, f64_magnitude_compare by lia.
    destruct (Z.compare_spec (2 ^ 63 - 1 - x) (2 ^ 63 - 1 - y)),
      (Z.compare_spec (y - 2 ^ 63) (x - 2 ^ 63)); (done || lia).
Qed.

(** ** Facts about typed identifiers *)

Lemma validate_kind_Ok k : validate_kind k = Ok tt <->
  k <> [] /\ len k <= MAX_ID_KIND_BYTES
  /\ forallb (fun c => is_ascii_lowercase c || is_ascii_digit c) k = true.
Proof.
  unfold validate_kind. case_bool_decide; [naive_solver|].
  destruct (Z.ltb_spec MAX_ID_KIND_BYTES (len k)); [naive_solver lia|].
  destruct (forallb _ k); naive_solver lia.
Qed.

Lemma kind_ok_spec k : kind_ok k = true <-> validate_kind k = Ok tt.
Proof. unfold kind_ok. destruct (validate_kind k) as [[]|]; naive_solver. Qed.

Lemma kind_no_separator k : validate_kind k = Ok tt -> x5f ∉ k.
Proof.
  intros (_ & _ & H)%validate_kind_Ok Hin. rewrite forallb_forall in H.
  apply list_elem_of_In in Hin. by specialize (H _ Hin).
Qed.

Lemma kind_ascii k : validate_kind k = Ok tt -> forallb is_ascii k = true.
Proof.
  intros (_ & _ & H)%validate_kind_Ok. rewrite forallb_forall in *. intros b Hb.
  specialize (H b Hb). unfold is_ascii_lowercase, is_ascii_digit, in_range, is_ascii in *.
  apply orb_true_iff in H as [H|H]; bool_facts; apply Z.ltb_lt; lia.
Qed.

Section typed_id_facts.
Context {UL : UlidLib} {ULL : UlidLaws}.

Lemma typed_id_ok_spec id : typed_id_ok id = true <->
  validate_kind (kind id) = Ok tt /\ ulid_range (ulid id).
Proof.
  unfold typed_id_ok, ulid_range. rewrite !andb_true_iff, kind_ok_spec, Z.leb_le, Z.ltb_lt. tauto.
Qed.

Lemma TypedId_to_string_len id : typed_id_ok id = true ->
  0 < len (TypedId_to_string id) <= MAX_TYPED_ID_BYTES.
Proof.
  intros [Hk Hu]%typed_id_ok_spec. apply validate_kind_Ok in Hk as (_ & Hk & _).
  unfold TypedId_to_string. rewrite !len_app.
  assert (len (ulid_to_string (ulid id)) = 26) as ->
    by (unfold len; by rewrite ulid_to_string_len).
  pose proof (len_nonneg (kind id)). change (len (text "_")) with 1.
  unfold MAX_TYPED_ID_BYTES, MAX_ID_KIND_BYTES in *. lia.
Qed.

Lemma TypedId_to_string_ascii id : typed_id_ok id = true ->
  forallb is_ascii (TypedId_to_string id) = true.
Proof.
  intros [Hk Hu]%typed_id_ok_spec. unfold TypedId_to_string.
  rewrite !forallb_app, kind_ascii, ulid_to_string_ascii by done. done.
Qed.

Lemma TypedId_from_str_spec s id :
  TypedId_from_str s = Ok id <-> typed_id_ok id = true /\ s = TypedId_to_string id.
Proof.
  split.
  - unfold TypedId_from_str. intros H. invert_ok.
    destruct a0 as [k payload]. invert_ok. case_bool_decide as Hc; [done|]. invert_ok.
    apply split_once_Some in Hok as [-> _]. split; [|done].
    apply typed_id_ok_spec. eauto using ulid_from_str_range.
  - intros [Hid ->]. pose proof (TypedId_to_string_len _ Hid) as Hlen.
    unfold TypedId_from_str. destruct (Z.ltb_spec MAX_TYPED_ID_BYTES (len (TypedId_to_string id))); [lia|].
    apply typed_id_ok_spec in Hid as [Hk Hu].
    rewrite (proj2 (split_once_Some x5f _ (kind id) (ulid_to_string (ulid id)))).
    2:{ split; [done|]. by apply kind_no_separator. }
    simpl. rewrite Hk. simpl. rewrite ulid_round_trip by done. simpl.
    rewrite bool_decide_eq_false_2 by naive_solver. by destruct id.
Qed.

Lemma TypedId_to_string_inj i j : typed_id_ok i = true -> typed_id_ok j = true ->
  TypedId_to_string i = TypedId_to_string j -> i = j.
Proof.
  intros Hi Hj E. assert (TypedId_from_str (TypedId_to_string i) = Ok i) as H
    by (by apply TypedId_from_str_spec).
  rewrite E in H. apply TypedId_from_str_spec in H as [_ H].
  assert (TypedId_from_str (TypedId_to_string j) = Ok j) as H2 by (by apply TypedId_from_str_spec).
  assert (TypedId_from_str (TypedId_to_string i) = Ok i) as H3 by (by apply TypedId_from_str_spec).
  congruence.
Qed.
End typed_id_facts.
