(* ===== verification/StoredValue.v ===== *)
(** * The Stored Value v1 codec: [crates/runku-value/src/stored.rs]

    A [Cursor] is its unread input: [take n] splits off [n] bytes or fails with [Truncated]
    (the overflow of [offset + n] in the source has the same outcome). The recursion of
    [decode_body] is bounded by the depth limit the source checks, so no fuel is involved. *)

From Stdlib Require Import Strings.Byte ZArith Lia.
From stdpp Require Import prelude list strings.
From S2P Require Import Prelude BTreeMap Ulid Value.

Definition MAGIC : bytes := Eval cbv in text "RV".
Definition STORED_VALUE_FORMAT_VERSION : byte := x01.
Definition STORED_VALUE_MAX_BYTES : Z := 1024 * 1024.
Definition MAX_DEPTH : Z := 64.
Definition MAX_CONTAINER_ITEMS : Z := 10000.
Definition MAX_OBJECT_KEY_BYTES : Z := 256.

Definition TAG_NULL : byte := x00.
Definition TAG_FALSE : byte := x01.
Definition TAG_TRUE : byte := x02.
Definition TAG_INT64 : byte := x10.
Definition TAG_FLOAT64 : byte := x11.
Definition TAG_STRING : byte := x20.
Definition TAG_BYTES : byte := x21.
Definition TAG_TIMESTAMP : byte := x22.
Definition TAG_TYPED_ID : byte := x23.
Definition TAG_ARRAY : byte := x30.
Definition TAG_OBJECT : byte := x31.

Inductive StoredValueError : Type :=
| SV_InvalidMagic | SV_UnsupportedVersion | SV_UnknownTag | SV_Truncated | SV_TrailingBytes
| SV_InvalidUtf8 | SV_ValueTooLarge | SV_DepthExceeded | SV_ContainerTooLarge
| SV_ObjectKeyTooLong | SV_ObjectKeysNotSorted | SV_FloatNonFinite | SV_NonCanonicalFloat
| SV_TypedIdInvalid.

#[export] Instance StoredValueError_eq_dec : EqDecision StoredValueError.
Proof. solve_decision. Defined.

Definition checked_sum (left right : Z) : result StoredValueError Z :=
  ok_or SV_ValueTooLarge
    (length ← checked_add usize_max left right;
     if length <=? STORED_VALUE_MAX_BYTES then Some length else None).

Definition ensure_variable_length (length : Z) : result StoredValueError unit :=
  if (STORED_VALUE_MAX_BYTES <? length) || (u32_max <? length)
  then Err SV_ValueTooLarge else Ok tt.

Definition ensure_container_count (count : Z) : result StoredValueError unit :=
  if MAX_CONTAINER_ITEMS <? count then Err SV_ContainerTooLarge else Ok tt.

Definition push_u16 (value : Z) : result StoredValueError bytes :=
  let? value := ok_or SV_ValueTooLarge (try_from_u u16_max value) in Ok (to_be 2 value).
Definition push_u32 (value : Z) : result StoredValueError bytes :=
  let? value := ok_or SV_ValueTooLarge (try_from_u u32_max value) in Ok (to_be 4 value).

Section codec.
Context {UL : UlidLib}.

(** ** Encoding *)

Fixpoint encoded_body_len (value : CanonicalValue) (depth : Z) : result StoredValueError Z :=
  if MAX_DEPTH <? depth then Err SV_DepthExceeded else
  let? length :=
    match value with
    | CV_Null | CV_Boolean _ => Ok 1
    | CV_Int64 _ | CV_Float64 _ | CV_Timestamp _ => Ok 9
    | CV_String value | CV_Bytes value =>
        let? _ := ensure_variable_length (len value) in checked_sum 5 (len value)
    | CV_TypedId value =>
        let length := len (TypedId_to_string value) in
        if MAX_TYPED_ID_BYTES <? length then Err SV_TypedIdInvalid else checked_sum 3 length
    | CV_Array values =>
        let? _ := ensure_container_count (len values) in
        try_fold (fun length item =>
          let? n := encoded_body_len item (depth + 1) in checked_sum length n) 5 values
    | CV_Object fields =>
        let? _ := ensure_container_count (len fields) in
        try_fold (fun length field =>
          if (MAX_OBJECT_KEY_BYTES <? len (fst field)) || (u16_max <? len (fst field))
          then Err SV_ObjectKeyTooLong else
          let? length := checked_sum length 2 in
          let? length := checked_sum length (len (fst field)) in
          let? n := encoded_body_len (snd field) (depth + 1) in checked_sum length n) 5 fields
    end in
  if STORED_VALUE_MAX_BYTES <? length then Err SV_ValueTooLarge else Ok length.

(** The bytes [encode_body] appends to its output. *)
Fixpoint encode_body (value : CanonicalValue) : result StoredValueError bytes :=
  match value with
  | CV_Null => Ok [TAG_NULL]
  | CV_Boolean false => Ok [TAG_FALSE]
  | CV_Boolean true => Ok [TAG_TRUE]
  | CV_Int64 value => Ok (TAG_INT64 :: to_be 8 (cast_unsigned value))
  | CV_Float64 bits => Ok (TAG_FLOAT64 :: to_be 8 bits)
  | CV_String value => let? n := push_u32 (len value) in Ok (TAG_STRING :: n ++ value)
  | CV_Bytes value => let? n := push_u32 (len value) in Ok (TAG_BYTES :: n ++ value)
  | CV_Timestamp value => Ok (TAG_TIMESTAMP :: to_be 8 (cast_unsigned value))
  | CV_TypedId value =>
      let wire := TypedId_to_string value in
      let? n := push_u16 (len wire) in Ok (TAG_TYPED_ID :: n ++ wire)
  | CV_Array values =>
      let? n := push_u32 (len values) in
      let? items := try_map encode_body values in
      Ok (TAG_ARRAY :: n ++ concat items)
  | CV_Object fields =>
      let? n := push_u32 (len fields) in
      let? items := try_map (fun field =>
        let? k := push_u16 (len (fst field)) in
        let? v := encode_body (snd field) in
        Ok (k ++ fst field ++ v)) fields in
      Ok (TAG_OBJECT :: n ++ concat items)
  end.

Definition encode_stored_value (value : CanonicalValue) : result StoredValueError bytes :=
  let? body_len := encoded_body_len value 0 in
  let? total_len :=
    ok_or SV_ValueTooLarge
      (length ← checked_add usize_max (len MAGIC) 1; checked_add usize_max length body_len) in
  if STORED_VALUE_MAX_BYTES <? total_len then Err SV_ValueTooLarge else
  let? body := encode_body value in
  Ok (MAGIC ++ STORED_VALUE_FORMAT_VERSION :: body).

(** ** Decoding *)

Definition cursor_take (n : Z) (c : bytes) : result StoredValueError (bytes * bytes) :=
  if n <=? len c then Ok (take (Z.to_nat n) c, drop (Z.to_nat n) c) else Err SV_Truncated.

Definition cursor_byte (c : bytes) : result StoredValueError (byte * bytes) :=
  let? (b, c) := cursor_take 1 c in
  match b with [b] => Ok (b, c) | _ => Err SV_Truncated end.

(** [uN::from_be_bytes(cursor.array()?)] at [n] bytes. *)
Definition cursor_be (n : Z) (c : bytes) : result StoredValueError (Z * bytes) :=
  let? (b, c) := cursor_take n c in Ok (from_be b, c).

Definition u16_length (c : bytes) : result StoredValueError (Z * bytes) := cursor_be 2 c.
Definition u32_length (c : bytes) : result StoredValueError (Z * bytes) := cursor_be 4 c.

(** [for _ in 0..count { values.push(decode_body(..)?) }]. *)
Fixpoint decode_items (dec : bytes -> result StoredValueError (CanonicalValue * bytes))
  (count : nat) (c : bytes) : result StoredValueError (list CanonicalValue * bytes) :=
  match count with
  | O => Ok ([], c)
  | S count =>
      let? (v, c) := dec c in
      let? (vs, c) := decode_items dec count c in
      Ok (v :: vs, c)
  end.

(** The object loop: [previous] is the last key read, [fields] the map so far. *)
Fixpoint decode_fields (dec : bytes -> result StoredValueError (CanonicalValue * bytes))
  (count : nat) (previous : option bytes) (fields : list (bytes * CanonicalValue)) (c : bytes)
  : result StoredValueError (list (bytes * CanonicalValue) * bytes) :=
  match count with
  | O => Ok (fields, c)
  | S count =>
      let? (key_length, c) := u16_length c in
      if MAX_OBJECT_KEY_BYTES <? key_length then Err SV_ObjectKeyTooLong else
      let? (raw, c) := cursor_take key_length c in
      let? key := ok_or SV_InvalidUtf8 (from_utf8 raw) in
      if match previous with Some last => bytes_leb key last | None => false end
      then Err SV_ObjectKeysNotSorted else
      let? (value, c) := dec c in
      decode_fields dec count (Some key) (btree_insert key value fields) c
  end.

(** The [match] on the tag, [dec] standing for [decode_body(cursor, depth + 1)]. *)
Definition decode_tagged (dec : bytes -> result StoredValueError (CanonicalValue * bytes))
  (tag : byte) (c : bytes) : result StoredValueError (CanonicalValue * bytes) :=
  if decide (tag = TAG_NULL) then Ok (CV_Null, c)
  else if decide (tag = TAG_FALSE) then Ok (CV_Boolean false, c)
  else if decide (tag = TAG_TRUE) then Ok (CV_Boolean true, c)
  else if decide (tag = TAG_INT64) then
    let? (z, c) := cursor_be 8 c in Ok (CV_Int64 (cast_signed z), c)
  else if decide (tag = TAG_FLOAT64) then
    let? (bits, c) := cursor_be 8 c in
    let? value := map_err (fun _ => SV_FloatNonFinite) (FiniteF64_new bits) in
    if bool_decide (value <> bits) then Err SV_NonCanonicalFloat
    else Ok (CV_Float64 value, c)
  else if decide (tag = TAG_STRING) then
    let? (length, c) := u32_length c in
    let? _ := ensure_variable_length length in
    let? (raw, c) := cursor_take length c in
    let? value := ok_or SV_InvalidUtf8 (from_utf8 raw) in
    Ok (CV_String value, c)
  else if decide (tag = TAG_BYTES) then
    let? (length, c) := u32_length c in
    let? _ := ensure_variable_length length in
    let? (raw, c) := cursor_take length c in
    Ok (CV_Bytes raw, c)
  else if decide (tag = TAG_TIMESTAMP) then
    let? (z, c) := cursor_be 8 c in Ok (CV_Timestamp (cast_signed z), c)
  else if decide (tag = TAG_TYPED_ID) then
    let? (length, c) := u16_length c in
    if MAX_TYPED_ID_BYTES <? length then Err SV_TypedIdInvalid else
    let? (raw, c) := cursor_take length c in
    let? wire := ok_or SV_TypedIdInvalid (from_utf8 raw) in
    let? id := map_err (fun _ => SV_TypedIdInvalid) (TypedId_from_str wire) in
    Ok (CV_TypedId id, c)
  else if decide (tag = TAG_ARRAY) then
    let? (count, c) := u32_length c in
    let? _ := ensure_container_count count in
    if len c <? count then Err SV_Truncated else
    let? (vs, c) := decode_items dec (Z.to_nat count) c in
    Ok (CV_Array vs, c)
  else if decide (tag = TAG_OBJECT) then
    let? (count, c) := u32_length c in
    let? _ := ensure_container_count count in
    if len c / 3 <? count then Err SV_Truncated else
    let? (fs, c) := decode_fields dec (Z.to_nat count) None [] c in
    Ok (CV_Object fs, c)
  else Err SV_UnknownTag.

(** [levels] is [MAX_DEPTH + 1 - depth]: no level is left exactly when [depth > MAX_DEPTH]. *)
Fixpoint decode_body_at (levels : nat) (c : bytes)
  : result StoredValueError (CanonicalValue * bytes) :=
  match levels with
  | O => Err SV_DepthExceeded
  | S levels =>
      let? (tag, c) := cursor_byte c in
      decode_tagged (decode_body_at levels) tag c
  end.

Definition decode_body (c : bytes) (depth : Z) : result StoredValueError (CanonicalValue * bytes) :=
  decode_body_at (Z.to_nat (MAX_DEPTH + 1 - depth)) c.

Definition decode_stored_value (input : bytes) : result StoredValueError CanonicalValue :=
  if STORED_VALUE_MAX_BYTES <? len input then Err SV_ValueTooLarge else
  let? (magic, c) := cursor_take 2 input in
  if bool_decide (magic <> MAGIC) then Err SV_InvalidMagic else
  let? (version, c) := cursor_byte c in
  if bool_decide (version <> STORED_VALUE_FORMAT_VERSION) then Err SV_UnsupportedVersion else
  let? (value, c) := decode_body c 0 in
  if bool_decide (c <> []) then Err SV_TrailingBytes else Ok value.
End codec.

(** ** Cursor facts *)

Lemma cursor_take_Ok n c a c' : 0 <= n ->
  cursor_take n c = Ok (a, c') <-> c = a ++ c' /\ len a = n.
Proof.
  intros Hn. unfold cursor_take. split.
  - destruct (Z.leb_spec n (len c)) as [H|]; [|done]. intros [= <- <-].
    split; [by rewrite take_drop|]. unfold len in *. rewrite length_take. lia.
  - intros [-> <-]. rewrite len_app. pose proof (len_nonneg c').
    destruct (Z.leb_spec (len a) (len a + len c')); [|lia].
    unfold len. rewrite Nat2Z.id, take_app_length, drop_app_length. done.
Qed.

Lemma cursor_take_app a c : cursor_take (len a) (a ++ c) = Ok (a, c).
Proof. apply cursor_take_Ok; auto with runku. Qed.

Lemma cursor_byte_cons b c : cursor_byte (b :: c) = Ok (b, c).
Proof. unfold cursor_byte. by rewrite (proj2 (cursor_take_Ok 1 (b :: c) [b] c ltac:(lia))). Qed.

Lemma cursor_byte_Ok c b c' : cursor_byte c = Ok (b, c') <-> c = b :: c'.
Proof.
  split; [|intros ->; apply cursor_byte_cons].
  unfold cursor_byte. intros H. apply rbind_Ok in H as ([bs c''] & H & H').
  apply cursor_take_Ok in H as [-> _]; [|lia].
  destruct bs as [|? [|? ?]]; naive_solver.
Qed.

Lemma cursor_be_to_be n z c : 0 <= z < 256 ^ Z.of_nat n ->
  cursor_be (Z.of_nat n) (to_be n z ++ c) = Ok (z, c).
Proof.
  intros Hz. unfold cursor_be. rewrite <-(len_to_be n z), cursor_take_app. simpl.
  by rewrite from_be_to_be.
Qed.

Lemma cursor_be_Ok n c z c' : cursor_be (Z.of_nat n) c = Ok (z, c') ->
  c = to_be n z ++ c' /\ 0 <= z < 256 ^ Z.of_nat n.
Proof.
  unfold cursor_be. intros H. apply rbind_Ok in H as ([a c''] & H & [= <- <-]).
  apply cursor_take_Ok in H as [-> Hl]; [|lia].
  rewrite to_be_from_be by (unfold len in Hl; lia). split; [done|].
  rewrite <-Hl. apply from_be_range.
Qed.

Lemma u16_length_Ok c z c' : u16_length c = Ok (z, c') ->
  c = to_be 2 z ++ c' /\ 0 <= z <= u16_max.
Proof. intros [-> H]%(cursor_be_Ok 2). change (256 ^ Z.of_nat 2) with (2 ^ 16) in H. unfold u16_max. split; [done|lia]. Qed.
Lemma u32_length_Ok c z c' : u32_length c = Ok (z, c') ->
  c = to_be 4 z ++ c' /\ 0 <= z <= u32_max.
Proof. intros [-> H]%(cursor_be_Ok 4). change (256 ^ Z.of_nat 4) with (2 ^ 32) in H. unfold u32_max. split; [done|lia]. Qed.
Lemma u16_length_to_be z c : 0 <= z <= u16_max -> u16_length (to_be 2 z ++ c) = Ok (z, c).
Proof. intros. apply (cursor_be_to_be 2). change (256 ^ Z.of_nat 2) with (2 ^ 16). unfold u16_max in *. lia. Qed.
Lemma u32_length_to_be z c : 0 <= z <= u32_max -> u32_length (to_be 4 z ++ c) = Ok (z, c).
Proof. intros. apply (cursor_be_to_be 4). change (256 ^ Z.of_nat 4) with (2 ^ 32). unfold u32_max in *. lia. Qed.
Lemma be8_to_be z c : is_u64 z = true -> cursor_be 8 (to_be 8 z ++ c) = Ok (z, c).
Proof. rewrite is_u64_spec. intros. apply (cursor_be_to_be 8). change (256 ^ Z.of_nat 8) with (2 ^ 64). unfold u64_max in *. lia. Qed.
Lemma be8_Ok c z c' : cursor_be 8 c = Ok (z, c') -> c = to_be 8 z ++ c' /\ is_u64 z = true.
Proof. intros [-> H]%(cursor_be_Ok 8). change (256 ^ Z.of_nat 8) with (2 ^ 64) in H. rewrite is_u64_spec. unfold u64_max. split; [done|lia]. Qed.

(** ** Limit facts *)

Lemma checked_sum_Ok a b c :
  checked_sum a b = Ok c <-> c = a + b /\ a + b <= STORED_VALUE_MAX_BYTES.
Proof.
  unfold checked_sum. rewrite ok_or_Ok, bind_Some. setoid_rewrite checked_add_Some. split.
  - intros (x & [-> _] & H). destruct (Z.leb_spec (a + b) STORED_VALUE_MAX_BYTES); naive_solver.
  - intros [-> H]. exists (a + b). destruct (Z.leb_spec (a + b) STORED_VALUE_MAX_BYTES); [|lia].
    split; [|done]. unfold STORED_VALUE_MAX_BYTES, usize_max, u64_max in *. lia.
Qed.

Lemma ensure_variable_length_Ok n :
  ensure_variable_length n = Ok tt <-> n <= STORED_VALUE_MAX_BYTES.
Proof.
  unfold ensure_variable_length, STORED_VALUE_MAX_BYTES, u32_max.
  destruct (Z.ltb_spec (1024 * 1024) n), (Z.ltb_spec (2 ^ 32 - 1) n); simpl; naive_solver lia.
Qed.

Lemma ensure_container_count_Ok n :
  ensure_container_count n = Ok tt <-> n <= MAX_CONTAINER_ITEMS.
Proof.
  unfold ensure_container_count. destruct (Z.ltb_spec MAX_CONTAINER_ITEMS n); naive_solver lia.
Qed.

Lemma push_u16_Ok n b : push_u16 n = Ok b <-> b = to_be 2 n /\ 0 <= n <= u16_max.
Proof. unfold push_u16. rewrite rbind_Ok. setoid_rewrite ok_or_Ok. setoid_rewrite try_from_u_Some. naive_solver. Qed.
Lemma push_u32_Ok n b : push_u32 n = Ok b <-> b = to_be 4 n /\ 0 <= n <= u32_max.
Proof. unfold push_u32. rewrite rbind_Ok. setoid_rewrite ok_or_Ok. setoid_rewrite try_from_u_Some. naive_solver. Qed.

Lemma push_u16_eq n : 0 <= n <= u16_max -> push_u16 n = Ok (to_be 2 n).
Proof. intros. by apply push_u16_Ok. Qed.
Lemma push_u32_eq n : 0 <= n <= u32_max -> push_u32 n = Ok (to_be 4 n).
Proof. intros. by apply push_u32_Ok. Qed.

(** Arithmetic over the format's constants. *)
Ltac limits :=
  unfold STORED_VALUE_MAX_BYTES, MAX_CONTAINER_ITEMS, MAX_OBJECT_KEY_BYTES, MAX_TYPED_ID_BYTES,
    MAX_ID_KIND_BYTES, u16_max, u32_max in *;
  repeat match goal with
  | |- context [len ?l] => lazymatch goal with H : 0 <= len l |- _ => fail | _ => pose proof (len_nonneg l) end
  end; lia.

(** ** What the encoder accepts

    [body_size] is the exact encoded length and [shape_ok] the structural limits; together they
    say declaratively which values have a Stored Value v1 form. *)

#[local] Opaque to_be.

Section facts.
Context {UL : UlidLib}.

Fixpoint body_size (v : CanonicalValue) : Z :=
  match v with
  | CV_Null | CV_Boolean _ => 1
  | CV_Int64 _ | CV_Float64 _ | CV_Timestamp _ => 9
  | CV_String s | CV_Bytes s => 5 + len s
  | CV_TypedId id => 3 + len (TypedId_to_string id)
  | CV_Array vs => 5 + sumZ (map body_size vs)
  | CV_Object fs => 5 + sumZ (map (fun f => 2 + len (fst f) + body_size (snd f)) fs)
  end.

Fixpoint shape_ok (depth : Z) (v : CanonicalValue) : bool :=
  (depth <=? MAX_DEPTH) &&
  match v with
  | CV_TypedId id => len (TypedId_to_string id) <=? MAX_TYPED_ID_BYTES
  | CV_Array vs => (len vs <=? MAX_CONTAINER_ITEMS) && forallb (shape_ok (depth + 1)) vs
  | CV_Object fs => (len fs <=? MAX_CONTAINER_ITEMS)
      && forallb (fun f => len (fst f) <=? MAX_OBJECT_KEY_BYTES) fs
      && forallb (fun f => shape_ok (depth + 1) (snd f)) fs
  | _ => true
  end.

Lemma body_size_pos v : 1 <= body_size v.
Proof.
  induction v as [| | | | s|s| | i|vs IH|fs IH] using value_induction; cbn [body_size];
    try lia; try (pose proof (len_nonneg s); lia).
  - pose proof (len_nonneg (TypedId_to_string i)). lia.
  - pose proof (sumZ_map_nonneg body_size vs) as H. rewrite List.Forall_forall in IH.
    assert (0 <= sumZ (map body_size vs)); [|lia]. apply H. intros x Hx. specialize (IH x Hx). lia.
  - match goal with |- _ <= 5 + sumZ (map ?g fs) => pose proof (sumZ_map_nonneg g fs) as H end.
    rewrite List.Forall_forall in IH.
    match goal with |- _ <= 5 + ?x => cut (0 <= x); [lia|] end. apply H.
    intros x Hx. specialize (IH x Hx). simpl in IH. pose proof (len_nonneg (fst x)). lia.
Qed.

Lemma array_step_Ok item d s t :
  (forall n, encoded_body_len item d = Ok n <->
     shape_ok d item = true /\ body_size item <= STORED_VALUE_MAX_BYTES /\ n = body_size item) ->
  0 <= s ->
  (let? n := encoded_body_len item d in checked_sum s n) = Ok t <->
    shape_ok d item = true /\ t = s + body_size item /\ t <= STORED_VALUE_MAX_BYTES.
Proof.
  intros IH Hs. rewrite rbind_Ok. setoid_rewrite checked_sum_Ok. setoid_rewrite IH.
  pose proof (body_size_pos item). split.
  - intros (n & (? & ? & ->) & -> & ?). split_and!; done.
  - intros (? & -> & ?). exists (body_size item). split_and!; (done || lia).
Qed.

Lemma object_step_Ok (f : bytes * CanonicalValue) d s t :
  (forall n, encoded_body_len (snd f) d = Ok n <->
     shape_ok d (snd f) = true /\ body_size (snd f) <= STORED_VALUE_MAX_BYTES
     /\ n = body_size (snd f)) ->
  0 <= s ->
  (if (MAX_OBJECT_KEY_BYTES <? len (fst f)) || (u16_max <? len (fst f))
   then Err SV_ObjectKeyTooLong else
   let? length := checked_sum s 2 in
   let? length := checked_sum length (len (fst f)) in
   let? n := encoded_body_len (snd f) d in checked_sum length n) = Ok t <->
    ((len (fst f) <=? MAX_OBJECT_KEY_BYTES) && shape_ok d (snd f)) = true
    /\ t = s + (2 + len (fst f) + body_size (snd f)) /\ t <= STORED_VALUE_MAX_BYTES.
Proof.
  intros IH Hs. pose proof (body_size_pos (snd f)). pose proof (len_nonneg (fst f)).
  unfold MAX_OBJECT_KEY_BYTES, u16_max.
  rewrite andb_true_iff, Z.leb_le.
  destruct (Z.ltb_spec 256 (len (fst f))), (Z.ltb_spec (2 ^ 16 - 1) (len (fst f)));
    simpl; try (split; [done|lia]).
  split.
  - intros Hr. apply rbind_Ok in Hr as (x & Hx & Hr). apply rbind_Ok in Hr as (y & Hy & Hr).
    apply checked_sum_Ok in Hx as [-> _]. apply checked_sum_Ok in Hy as [-> _].
    apply array_step_Ok in Hr as (? & -> & ?); [|done|lia]. split_and!; (done || lia).
  - intros ((_ & Hsh) & -> & Ht).
    rewrite (proj2 (checked_sum_Ok s 2 (s + 2))) by lia. cbn.
    rewrite (proj2 (checked_sum_Ok (s + 2) (len (fst f)) (s + 2 + len (fst f)))) by lia. cbn.
    apply array_step_Ok; [done|lia|]. split_and!; (done || lia).
Qed.

Lemma size_checked_Ok (r : result StoredValueError Z) n :
  (let? length := r in
   if STORED_VALUE_MAX_BYTES <? length then Err SV_ValueTooLarge else Ok length) = Ok n <->
  r = Ok n /\ n <= STORED_VALUE_MAX_BYTES.
Proof.
  rewrite rbind_Ok. split.
  - intros (x & -> & H). destruct (Z.ltb_spec STORED_VALUE_MAX_BYTES x); naive_solver.
  - intros [-> H]. exists n. destruct (Z.ltb_spec STORED_VALUE_MAX_BYTES n); [lia|done].
Qed.

Lemma variable_len_Ok k n : 0 <= k ->
  (let? _ := ensure_variable_length k in checked_sum 5 k) = Ok n <->
  n = 5 + k /\ n <= STORED_VALUE_MAX_BYTES.
Proof.
  intros Hk. rewrite rbind_Ok. setoid_rewrite checked_sum_Ok. split.
  - intros (? & _ & -> & ?). done.
  - intros [-> H]. exists tt. rewrite ensure_variable_length_Ok. split_and!; (done || lia).
Qed.

Lemma container_len_Ok {A} (l : list A) (r : result StoredValueError Z) n :
  (let? _ := ensure_container_count (len l) in r) = Ok n <->
  len l <= MAX_CONTAINER_ITEMS /\ r = Ok n.
Proof.
  rewrite rbind_Ok. split.
  - intros ([] & H%ensure_container_count_Ok & ?). done.
  - intros [H ->]. exists tt. by rewrite ensure_container_count_Ok.
Qed.

Lemma encoded_body_len_Ok v d n :
  encoded_body_len v d = Ok n <->
  shape_ok d v = true /\ body_size v <= STORED_VALUE_MAX_BYTES /\ n = body_size v.
Proof.
  revert d n; induction v as [|b|z|z|s|s|z|i|vs IH|fs IH] using value_induction; intros d n;
    cbn [encoded_body_len shape_ok body_size];
    (destruct (Z.ltb_spec MAX_DEPTH d), (Z.leb_spec d MAX_DEPTH);
       [lia|split; [done|naive_solver]| |lia]);
    rewrite size_checked_Ok; cbn [andb].
  1-4,7: unfold STORED_VALUE_MAX_BYTES; naive_solver lia.
  - rewrite variable_len_Ok by auto with runku. naive_solver.
  - rewrite variable_len_Ok by auto with runku. naive_solver.
  - rewrite Z.leb_le. destruct (Z.ltb_spec MAX_TYPED_ID_BYTES (len (TypedId_to_string i)));
      [naive_solver lia|]. rewrite checked_sum_Ok. naive_solver.
  - rewrite container_len_Ok, andb_true_iff, Z.leb_le. rewrite List.Forall_forall in IH.
    rewrite (try_fold_cost STORED_VALUE_MAX_BYTES _ (shape_ok (d + 1)) body_size);
      [naive_solver|by intros; apply array_step_Ok; [auto|lia]| |by unfold STORED_VALUE_MAX_BYTES].
    intros x _. pose proof (body_size_pos x). lia.
  - rewrite container_len_Ok, !andb_true_iff, Z.leb_le. rewrite List.Forall_forall in IH.
    rewrite (try_fold_cost STORED_VALUE_MAX_BYTES _
      (fun f => (len (fst f) <=? MAX_OBJECT_KEY_BYTES) && shape_ok (d + 1) (snd f))
      (fun f => 2 + len (fst f) + body_size (snd f)));
      [|by intros; apply object_step_Ok; [auto|lia]| |by unfold STORED_VALUE_MAX_BYTES].
    + rewrite forallb_andb. naive_solver.
    + intros x _. pose proof (body_size_pos (snd x)). pose proof (len_nonneg (fst x)). lia.
Qed.

Lemma try_map_concat {A} (f : A -> result StoredValueError bytes) (cost : A -> Z) l :
  (forall x, In x l -> exists b, f x = Ok b /\ len b = cost x) ->
  exists bs, try_map f l = Ok bs /\ len (concat bs) = sumZ (map cost l).
Proof.
  induction l as [|x l IH]; intros H; [by exists []|].
  destruct (H x (or_introl eq_refl)) as (b & Hb & Hlen).
  destruct IH as (bs & Hbs & Hsum); [naive_solver|].
  exists (b :: bs). simpl. rewrite Hb. simpl. rewrite Hbs. split; [done|].
  rewrite len_app. lia.
Qed.

Definition field_cost (f : bytes * CanonicalValue) : Z := 2 + len (fst f) + body_size (snd f).

Lemma field_cost_pos f : 0 <= field_cost f.
Proof.
  unfold field_cost. pose proof (body_size_pos (snd f)). pose proof (len_nonneg (fst f)). lia.
Qed.

Lemma encode_fields_Ok fs d :
  (forall f, In f fs -> forall d, shape_ok d (snd f) = true ->
     body_size (snd f) <= STORED_VALUE_MAX_BYTES ->
     exists b, encode_body (snd f) = Ok b /\ len b = body_size (snd f)) ->
  (forall f, In f fs -> (len (fst f) <=? MAX_OBJECT_KEY_BYTES) = true) ->
  (forall f, In f fs -> shape_ok (d + 1) (snd f) = true) ->
  sumZ (map field_cost fs) <= STORED_VALUE_MAX_BYTES ->
  exists bs, try_map (fun field =>
      let? k := push_u16 (len (fst field)) in
      let? v := encode_body (snd field) in
      Ok (k ++ fst field ++ v)) fs = Ok bs
    /\ len (concat bs) = sumZ (map field_cost fs).
Proof.
  intros IH Hkeys Hvals Hn. apply try_map_concat. intros x Hx.
  pose proof (sumZ_map_le field_cost fs x (fun y _ => field_cost_pos y) Hx) as Hle.
  specialize (Hkeys x Hx). apply Z.leb_le in Hkeys. rewrite push_u16_eq by limits.
  unfold field_cost in Hle at 1. pose proof (len_nonneg (fst x)).
  destruct (IH x Hx (d + 1)) as (b & Hb & Hbl); [auto|lia|]. cbn [rbind]. rewrite Hb.
  eexists; split; [done|]. rewrite !len_app, len_to_be, Hbl. unfold field_cost. lia.
Qed.

(** The encoder succeeds on everything the length pass accepts, with exactly that length. *)
Lemma encode_body_Ok v d : shape_ok d v = true -> body_size v <= STORED_VALUE_MAX_BYTES ->
  exists b, encode_body v = Ok b /\ len b = body_size v.
Proof.
  revert d; induction v as [|[]|z|z|s|s|z|i|vs IH|fs IH] using value_induction; intros d Hs Hn;
    cbn [encode_body body_size shape_ok] in *; apply andb_true_iff in Hs as [Hd Hs];
    try (eexists; split; [done|]; by rewrite len_cons, len_to_be);
    try (by eexists).
  1,2: rewrite push_u32_eq by limits; eexists; split; [done|]; autorewrite with runku; rewrite len_to_be; lia.
  - apply Z.leb_le in Hs. rewrite push_u16_eq by limits.
    eexists; split; [done|]. autorewrite with runku. rewrite len_to_be. lia.
  - rewrite List.Forall_forall in IH. bool_facts. rewrite forallb_forall in *.
    rewrite push_u32_eq by limits.
    assert (forall y, In y vs -> 0 <= body_size y) as Hpos
      by (intros y _; pose proof (body_size_pos y); lia).
    destruct (try_map_concat encode_body body_size vs) as (bs & Hbs & Hlen).
    { intros x Hx. pose proof (sumZ_map_le body_size vs x Hpos Hx). eapply IH; eauto. lia. }
    cbn [rbind]. rewrite Hbs. eexists; split; [done|]. autorewrite with runku. rewrite len_to_be. lia.
  - rewrite List.Forall_forall in IH. apply andb_true_iff in Hs as [[Hcount Hkeys]%andb_true_iff Hvals].
    rewrite forallb_forall in Hkeys, Hvals. apply Z.leb_le in Hcount.
    rewrite push_u32_eq by limits. fold field_cost in *.
    change (5 + sumZ (map field_cost fs) <= STORED_VALUE_MAX_BYTES) in Hn.
    destruct (encode_fields_Ok fs d) as (bs & Hbs & Hlen); [done..|lia|].
    cbn [rbind]. rewrite Hbs. eexists; split; [done|]. autorewrite with runku.
    rewrite len_to_be, Hlen. unfold field_cost. lia.
Qed.

(** ** Decoding what was encoded *)

Lemma decode_items_concat dec vs bs c :
  Forall2 (fun v b => forall c, dec (b ++ c) = Ok (v, c)) vs bs ->
  decode_items dec (length vs) (concat bs ++ c) = Ok (vs, c).
Proof.
  induction 1 as [|v b vs bs Hv _ IH]; [done|]. simpl.
  rewrite <-app_assoc, Hv. simpl. by rewrite IH.
Qed.

(** What the object loop needs to know of one encoded field. *)
Definition field_decodes (dec : bytes -> result StoredValueError (CanonicalValue * bytes))
  (f : bytes * CanonicalValue) (b : bytes) : Prop :=
  len (fst f) <= MAX_OBJECT_KEY_BYTES /\ utf8_valid (fst f) = true /\
  exists vb, b = to_be 2 (len (fst f)) ++ fst f ++ vb
    /\ forall c, dec (vb ++ c) = Ok (snd f, c).

Lemma keys_sorted_app_cons ks k ks' :
  keys_sorted (ks ++ k :: ks') = true -> Forall (fun k' => bytes_lt k' k) ks.
Proof.
  induction ks as [|k0 ks IH]; intros H; [constructor|].
  pose proof (keys_sorted_Forall _ _ H) as Hall. simpl in Hall.
  apply Forall_app in Hall as [_ Hall]. inversion Hall; subst.
  constructor; [done|]. apply IH. by apply keys_sorted_cons in H as [? _].
Qed.

Lemma decode_fields_concat dec fs bs acc c :
  Forall2 (field_decodes dec) fs bs ->
  keys_sorted (map fst (acc ++ fs)) = true ->
  decode_fields dec (length fs) (last (map fst acc)) acc (concat bs ++ c) = Ok (acc ++ fs, c).
Proof.
  intros H; revert acc; induction H as [|f b fs bs Hf _ IH]; intros acc Hs; [by rewrite app_nil_r|].
  destruct f as [k v], Hf as (Hk & Hu & vb & -> & Hdec). cbn [fst snd length] in *.
  cbn [concat decode_fields]. rewrite <-!app_assoc.
  rewrite u16_length_to_be by limits. cbn [rbind].
  destruct (Z.ltb_spec MAX_OBJECT_KEY_BYTES (len k)); [lia|].
  rewrite cursor_take_app. cbn [rbind]. unfold from_utf8. rewrite Hu. cbn [ok_or rbind].
  rewrite map_app in Hs. cbn [map fst] in Hs.
  pose proof (keys_sorted_app_cons _ _ _ Hs) as Hlt.
  replace (match last (map fst acc) with Some l => bytes_leb k l | None => false end) with false.
  2:{ destruct (last (map fst acc)) as [l|] eqn:El; [|done].
      apply last_Some_elem_of in El. rewrite Forall_forall in Hlt. specialize (Hlt l El).
      unfold bytes_leb. by rewrite (bytes_cmp_antisym l k), Hlt. }
  rewrite Hdec. cbn [rbind].
  rewrite btree_insert_last by (rewrite Forall_map in Hlt; exact Hlt).
  replace (Some k) with (last (map fst (acc ++ [(k, v)])))
    by (rewrite map_app; cbn; apply last_snoc).
  rewrite IH; [by rewrite <-app_assoc|].
  rewrite <-app_assoc, map_app. exact Hs.
Qed.

(** Selects the branch of the decoder's tag match. *)
Ltac at_tag :=
  unfold decode_tagged; repeat (rewrite decide_False by discriminate); rewrite decide_True by done.

(** Opens an encoder branch that writes a length first. *)
Ltac invert_push H :=
  apply rbind_Ok in H as (?n & ?Hpush & H);
  first [apply push_u32_Ok in Hpush as [-> ?Hlen]|apply push_u16_Ok in Hpush as [-> ?Hlen]];
  try (injection H as <-).

Section decode.
Context {ULL : UlidLaws}.

Lemma decode_body_cons d tag c : d <= MAX_DEPTH ->
  decode_body (tag :: c) d = decode_tagged (fun c => decode_body c (d + 1)) tag c.
Proof.
  intros Hd. unfold decode_body.
  replace (Z.to_nat (MAX_DEPTH + 1 - d)) with (S (Z.to_nat (MAX_DEPTH + 1 - (d + 1)))) by lia.
  cbn [decode_body_at]. by rewrite cursor_byte_cons.
Qed.

Lemma encode_body_nonempty v b : encode_body v = Ok b -> 1 <= len b.
Proof.
  destruct v as [|[]| | | | | | | |]; cbn [encode_body]; intros H;
    repeat (apply rbind_Ok in H as (? & _ & H)); injection H as <-;
    rewrite len_cons; match goal with |- _ <= 1 + len ?l => pose proof (len_nonneg l) end; lia.
Qed.

Lemma concat_len_ge {A} (R : A -> bytes -> Prop) k xs bs :
  0 <= k -> (forall x b, R x b -> k <= len b) -> Forall2 R xs bs ->
  k * len xs <= len (concat bs).
Proof.
  intros Hk HR. induction 1 as [|x b xs bs Hx _ IH]; [unfold len; simpl; lia|].
  cbn [concat]. rewrite len_app, len_cons. specialize (HR _ _ Hx). lia.
Qed.

Lemma encode_field_Ok (f : bytes * CanonicalValue) b :
  (let? k := push_u16 (len (fst f)) in
   let? v := encode_body (snd f) in Ok (k ++ fst f ++ v)) = Ok b <->
  len (fst f) <= u16_max /\
  exists vb, encode_body (snd f) = Ok vb /\ b = to_be 2 (len (fst f)) ++ fst f ++ vb.
Proof.
  split.
  - intros (k & [-> ?]%push_u16_Ok & (vb & ? & [= <-])%rbind_Ok)%rbind_Ok. split; [lia|]. eauto.
  - intros (? & vb & Hvb & ->). rewrite push_u16_eq by limits. cbn [rbind]. by rewrite Hvb.
Qed.

Lemma decode_encode_array vs items d c : d <= MAX_DEPTH -> len vs <= MAX_CONTAINER_ITEMS ->
  (forall v, In v vs -> forall b c, encode_body v = Ok b -> decode_body (b ++ c) (d + 1) = Ok (v, c)) ->
  try_map encode_body vs = Ok items ->
  decode_body (TAG_ARRAY :: (to_be 4 (len vs) ++ concat items) ++ c) d = Ok (CV_Array vs, c).
Proof.
  intros Hd Hcount IH Hitems%try_map_Ok. rewrite decode_body_cons by done. at_tag.
  rewrite <-app_assoc, u32_length_to_be by limits. cbn [rbind].
  rewrite (proj2 (ensure_container_count_Ok _)) by done. cbn [rbind].
  pose proof (concat_len_ge _ 1 _ _ ltac:(lia) encode_body_nonempty Hitems).
  rewrite len_app. pose proof (len_nonneg c).
  destruct (Z.ltb_spec (len (concat items) + len c) (len vs)); [lia|].
  unfold len at 1. rewrite Nat2Z.id, decode_items_concat; [done|].
  eapply Forall2_with; [exact IH|exact Hitems|]. intros v b Hv Hb c'. by apply Hv.
Qed.

Lemma decode_encode_object fs items d c : d <= MAX_DEPTH -> len fs <= MAX_CONTAINER_ITEMS ->
  keys_sorted (map fst fs) = true ->
  (forall f, In f fs -> len (fst f) <= MAX_OBJECT_KEY_BYTES /\ utf8_valid (fst f) = true
     /\ forall b c, encode_body (snd f) = Ok b -> decode_body (b ++ c) (d + 1) = Ok (snd f, c)) ->
  try_map (fun field =>
    let? k := push_u16 (len (fst field)) in
    let? v := encode_body (snd field) in
    Ok (k ++ fst field ++ v)) fs = Ok items ->
  decode_body (TAG_OBJECT :: (to_be 4 (len fs) ++ concat items) ++ c) d = Ok (CV_Object fs, c).
Proof.
  intros Hd Hcount Hsorted IH Hitems%try_map_Ok. rewrite decode_body_cons by done. at_tag.
  rewrite <-app_assoc, u32_length_to_be by limits. cbn [rbind].
  rewrite (proj2 (ensure_container_count_Ok _)) by done. cbn [rbind].
  assert (3 * len fs <= len (concat items)) as Hge.
  { eapply concat_len_ge; [lia| |exact Hitems]. intros f b (_ & vb & Hvb & ->)%encode_field_Ok.
    apply encode_body_nonempty in Hvb. rewrite !len_app, len_to_be.
    pose proof (len_nonneg (fst f)). lia. }
  rewrite len_app. pose proof (len_nonneg c).
  destruct (Z.ltb_spec ((len (concat items) + len c) / 3) (len fs)) as [Hlt|];
    [pose proof (Z.div_le_lower_bound (len (concat items) + len c) 3 (len fs)); lia|].
  unfold len at 1. rewrite Nat2Z.id.
  rewrite (decode_fields_concat (fun c => decode_body c (d + 1)) fs items [] c); [done| |done].
  eapply Forall2_with; [exact IH|exact Hitems|].
  intros f b (Hk & Hu & Hv) (_ & vb & Hvb & ->)%encode_field_Ok.
  split; [done|]. split; [done|]. exists vb. eauto.
Qed.

Lemma decode_encode_body v : value_ok v = true -> forall d b c,
  shape_ok d v = true -> body_size v <= STORED_VALUE_MAX_BYTES -> encode_body v = Ok b ->
  decode_body (b ++ c) d = Ok (v, c).
Proof.
  induction v as [|[]|z|z|s|s|z|i|vs IH|fs IH] using value_induction;
    intros Hok d b c Hsh Hn Hb; cbn [value_ok] in Hok; cbn [body_size] in Hn;
    cbn [shape_ok] in Hsh; apply andb_true_iff in Hsh as [Hd Hsh]; apply Z.leb_le in Hd;
    cbn [encode_body] in Hb;
    [injection Hb as <-|injection Hb as <-|injection Hb as <-|injection Hb as <-|injection Hb as <-
    |invert_push Hb|invert_push Hb|injection Hb as <-|invert_push Hb|invert_push Hb|invert_push Hb];
    cbn [app]; rewrite ?decode_body_cons by done;
    [done|done|done|at_tag|at_tag|at_tag|at_tag|at_tag|at_tag| |].
  - rewrite be8_to_be by auto with runku. cbn [rbind]. by rewrite cast_signed_unsigned.
  - unfold float_ok in Hok. bool_facts. rewrite be8_to_be by done. cbn [rbind].
    match goal with H : FiniteF64_new z = _ |- _ => rewrite H end. cbn [rbind map_err].
    by rewrite bool_decide_eq_false_2 by naive_solver.
  - rewrite <-app_assoc, u32_length_to_be by done. cbn [rbind].
    rewrite (proj2 (ensure_variable_length_Ok _)) by limits. cbn [rbind].
    rewrite cursor_take_app. cbn [rbind]. unfold from_utf8. by rewrite Hok.
  - rewrite <-app_assoc, u32_length_to_be by done. cbn [rbind].
    rewrite (proj2 (ensure_variable_length_Ok _)) by limits. cbn [rbind].
    by rewrite cursor_take_app.
  - rewrite be8_to_be by auto with runku. cbn [rbind]. by rewrite cast_signed_unsigned.
  - apply Z.leb_le in Hsh. rewrite <-app_assoc, u16_length_to_be by done. cbn [rbind].
    destruct (Z.ltb_spec MAX_TYPED_ID_BYTES (len (TypedId_to_string i))); [lia|].
    rewrite cursor_take_app. cbn [rbind]. unfold from_utf8.
    rewrite ascii_utf8_valid by (by apply TypedId_to_string_ascii). cbn [ok_or rbind].
    by rewrite (proj2 (TypedId_from_str_spec _ i)).
  - invert_ok_step. injection Hb as <-. cbn [app].
    apply andb_true_iff in Hsh as [Hcount%Z.leb_le Hsh]. rewrite forallb_forall in Hok, Hsh.
    apply decode_encode_array; [done..| |done]. rewrite List.Forall_forall in IH.
    intros v Hin b c' Hb. apply IH; auto.
    pose proof (sumZ_map_le body_size vs v (fun y _ => Z.lt_le_incl _ _ (proj1 (Z.le_succ_l 0 _) (body_size_pos y))) Hin).
    lia.
  - invert_ok_step. injection Hb as <-. cbn [app].
    apply andb_true_iff in Hsh as [[Hcount%Z.leb_le Hkeys]%andb_true_iff Hsh].
    apply andb_true_iff in Hok as [[Hsorted Hutf8]%andb_true_iff Hvals].
    rewrite forallb_forall in Hkeys, Hutf8, Hsh, Hvals. rewrite List.Forall_forall in IH.
    apply decode_encode_object; [done..| |done]. intros f Hin.
    split; [apply Z.leb_le, Hkeys, Hin|]. split; [by apply Hutf8, in_map|].
    intros b c' Hb. apply IH; auto.
    pose proof (sumZ_map_le field_cost fs f (fun y _ => field_cost_pos y) Hin) as Hle.
    change (5 + sumZ (map field_cost fs) <= STORED_VALUE_MAX_BYTES) in Hn.
    unfold field_cost in Hle at 1. pose proof (len_nonneg (fst f)). lia.
Qed.

(** ** Everything the decoder accepts is canonical *)

(** [sound dec P]: a successful [dec] consumed exactly the encoding of the value it returns. *)
Definition sound (P : CanonicalValue -> Prop)
  (dec : bytes -> result StoredValueError (CanonicalValue * bytes)) : Prop :=
  forall c v c', dec c = Ok (v, c') -> P v /\ exists b, c = b ++ c' /\ encode_body v = Ok b.

Lemma decode_items_sound P dec n c vs c' : sound P dec ->
  decode_items dec n c = Ok (vs, c') ->
  (forall v, In v vs -> P v) /\ length vs = n
  /\ exists bs, c = concat bs ++ c' /\ try_map encode_body vs = Ok bs.
Proof.
  intros Hdec. revert c vs; induction n as [|n IH]; intros c vs H.
  { injection H as <- <-. split; [done|]. split; [done|]. by exists []. }
  cbn [decode_items] in H. apply rbind_Ok in H as ([v c1] & Hv & H).
  apply rbind_Ok in H as ([vs' c2] & Hvs & H). injection H as <- <-.
  apply Hdec in Hv as (HP & b & -> & Hb). apply IH in Hvs as (HPs & <- & bs & -> & Hbs).
  split; [intros w [<-|?]; auto|]. split; [done|]. exists (b :: bs). cbn [concat].
  split; [by rewrite <-app_assoc|]. simpl. rewrite Hb. simpl. by rewrite Hbs.
Qed.

Lemma keys_sorted_snoc ks k :
  keys_sorted (ks ++ [k]) = true <->
  keys_sorted ks = true /\ match last ks with Some l => bytes_lt l k | None => True end.
Proof.
  induction ks as [|k0 ks IH]; [done|]. cbn [app]. rewrite !keys_sorted_cons, IH.
  destruct ks as [|k1 ks]; [simpl; naive_solver|].
  cbn [app head]. replace (last (k0 :: k1 :: ks)) with (last (k1 :: ks)) by done. naive_solver.
Qed.

Lemma bytes_leb_false k l : bytes_leb k l = false <-> bytes_lt l k.
Proof.
  unfold bytes_leb, bytes_lt. rewrite (bytes_cmp_antisym l k).
  destruct (bytes_cmp l k); simpl; naive_solver.
Qed.

Lemma decode_fields_sound P dec n acc c fs c' : sound P dec ->
  keys_sorted (map fst acc) = true ->
  decode_fields dec n (last (map fst acc)) acc c = Ok (fs, c') ->
  exists new items, fs = acc ++ new /\ keys_sorted (map fst fs) = true /\ length new = n
    /\ (forall f, In f new -> len (fst f) <= MAX_OBJECT_KEY_BYTES
          /\ utf8_valid (fst f) = true /\ P (snd f))
    /\ c = concat items ++ c'
    /\ try_map (fun field =>
         let? k := push_u16 (len (fst field)) in
         let? v := encode_body (snd field) in
         Ok (k ++ fst field ++ v)) new = Ok items.
Proof.
  intros Hdec. revert acc c; induction n as [|n IH]; intros acc c Hs H.
  { injection H as <- <-. exists [], []. rewrite app_nil_r. done. }
  cbn [decode_fields] in H. apply rbind_Ok in H as ([kl c1] & Hkl & H).
  apply u16_length_Ok in Hkl as [-> Hkl].
  destruct (Z.ltb_spec MAX_OBJECT_KEY_BYTES kl); [done|].
  apply rbind_Ok in H as ([raw c2] & Hraw & H). apply cursor_take_Ok in Hraw as [-> Hlen]; [|lia].
  apply rbind_Ok in H as (key & Hkey & H). apply ok_or_Ok, from_utf8_Some in Hkey as [-> Hu].
  destruct (match last (map fst acc) with Some l => bytes_leb raw l | None => false end) eqn:Hcmp;
    [done|].
  apply rbind_Ok in H as ([v c3] & Hv & H). apply Hdec in Hv as (HPv & vb & -> & Hvb).
  assert (keys_sorted (map fst (acc ++ [(raw, v)])) = true) as Hs'.
  { rewrite map_app. cbn. apply keys_sorted_snoc. split; [done|].
    destruct (last (map fst acc)); [by apply bytes_leb_false|done]. }
  rewrite btree_insert_last in H.
  2:{ pose proof Hs' as Hlt. rewrite map_app in Hlt. apply keys_sorted_app_cons in Hlt.
      by rewrite Forall_map in Hlt. }
  replace (Some raw) with (last (map fst (acc ++ [(raw, v)]))) in H
    by (rewrite map_app; cbn; apply last_snoc).
  destruct (IH _ _ Hs' H) as (new & items & -> & Hsorted & <- & Hnew & -> & Hitems).
  exists ((raw, v) :: new), ((to_be 2 kl ++ raw ++ vb) :: items).
  split; [by rewrite <-app_assoc|]. split; [done|]. split; [done|]. split.
  { intros f [<-|Hin]; [cbn; split; [lia|done]|auto]. }
  split; [cbn [concat]; by rewrite <-!app_assoc|].
  apply try_map_Ok. constructor; [|by apply try_map_Ok].
  apply encode_field_Ok. cbn [fst snd]. split; [limits|]. exists vb. subst kl. done.
Qed.

Definition well_formed_at (d : Z) (v : CanonicalValue) : Prop :=
  value_ok v = true /\ shape_ok d v = true.

Lemma decode_array_sound dec d c v c' : d <= MAX_DEPTH -> sound (well_formed_at (d + 1)) dec ->
  (let? (count, c) := u32_length c in
   let? _ := ensure_container_count count in
   if len c <? count then Err SV_Truncated else
   let? (vs, c) := decode_items dec (Z.to_nat count) c in
   Ok (CV_Array vs, c)) = Ok (v, c') ->
  well_formed_at d v /\ exists b, TAG_ARRAY :: c = b ++ c' /\ encode_body v = Ok b.
Proof.
  intros Hd Hdec H. apply rbind_Ok in H as ([n c1] & [-> Hn]%u32_length_Ok & H).
  apply rbind_Ok in H as ([] & Hcount%ensure_container_count_Ok & H).
  destruct (len c1 <? n); [done|].
  apply rbind_Ok in H as ([vs c2] & Hvs & H). injection H as <- <-.
  eapply decode_items_sound in Hvs as (Hall & Hlen & bs & -> & Hbs); [|exact Hdec].
  assert (len vs = n) as <- by (unfold len; lia). unfold well_formed_at.
  cbn [value_ok shape_ok]. rewrite !(proj2 (Z.leb_le _ _)) by done. cbn [andb].
  rewrite !forallb_forall. split; [split; intros w Hw; by apply Hall|].
  exists (TAG_ARRAY :: to_be 4 (len vs) ++ concat bs). cbn [app encode_body].
  rewrite push_u32_eq by done. cbn [rbind]. rewrite Hbs. by rewrite <-app_assoc.
Qed.

Lemma decode_object_sound dec d c v c' : d <= MAX_DEPTH -> sound (well_formed_at (d + 1)) dec ->
  (let? (count, c) := u32_length c in
   let? _ := ensure_container_count count in
   if len c / 3 <? count then Err SV_Truncated else
   let? (fs, c) := decode_fields dec (Z.to_nat count) None [] c in
   Ok (CV_Object fs, c)) = Ok (v, c') ->
  well_formed_at d v /\ exists b, TAG_OBJECT :: c = b ++ c' /\ encode_body v = Ok b.
Proof.
  intros Hd Hdec H. apply rbind_Ok in H as ([n c1] & [-> Hn]%u32_length_Ok & H).
  apply rbind_Ok in H as ([] & Hcount%ensure_container_count_Ok & H).
  destruct (len c1 / 3 <? n); [done|].
  apply rbind_Ok in H as ([fs c2] & Hfs & H). injection H as <- <-.
  eapply (decode_fields_sound _ _ _ []) in Hfs
    as (new & items & -> & Hsorted & Hlen & Hall & -> & Hitems); [|exact Hdec|done].
  cbn [app] in *. assert (len new = n) as <- by (unfold len; lia). unfold well_formed_at.
  cbn [value_ok shape_ok]. rewrite Hsorted, !(proj2 (Z.leb_le _ _)) by done. cbn [andb].
  rewrite !andb_true_iff, !forallb_forall. split.
  { split; [split|split]; [intros k (f & <- & Hf)%in_map_iff; by apply Hall|..];
      intros f Hf; [by apply Hall|apply Z.leb_le; by apply Hall|by apply Hall]. }
  exists (TAG_OBJECT :: to_be 4 (len new) ++ concat items). cbn [app encode_body].
  rewrite push_u32_eq by done. cbn [rbind]. rewrite Hitems. by rewrite <-app_assoc.
Qed.

(** Closes [well_formed_at d v] for a scalar [v] whose payload fact is at hand. *)
Ltac scalar_ok :=
  split; unfold well_formed_at; cbn [value_ok shape_ok];
    rewrite ?(proj2 (Z.leb_le _ _)) by done; auto with runku.

Lemma decode_tagged_sound dec d tag c v c' : d <= MAX_DEPTH ->
  sound (well_formed_at (d + 1)) dec ->
  decode_tagged dec tag c = Ok (v, c') ->
  well_formed_at d v /\ exists b, tag :: c = b ++ c' /\ encode_body v = Ok b.
Proof.
  intros Hd Hdec H. unfold decode_tagged in H.
  repeat case_decide; subst;
    [injection H as <- <-|injection H as <- <-|injection H as <- <-|..]; [scalar_ok..| | | | | | | | |].
  - by exists [TAG_NULL].
  - by exists [TAG_FALSE].
  - by exists [TAG_TRUE].
  - apply rbind_Ok in H as ([z c1] & [-> Hz]%be8_Ok & H). injection H as <- <-. scalar_ok.
    exists (TAG_INT64 :: to_be 8 z). cbn [encode_body].
    split; [done|]. by rewrite cast_unsigned_signed.
  - apply rbind_Ok in H as ([z c1] & [-> Hz]%be8_Ok & H).
    apply rbind_Ok in H as (value & Hf%map_err_Ok & H). case_bool_decide as Hc; [done|].
    injection H as <- <-. subst value. unfold well_formed_at.
    cbn [value_ok shape_ok]. unfold float_ok.
    rewrite Hz, bool_decide_eq_true_2, (proj2 (Z.leb_le _ _)) by done.
    split; [done|]. by exists (TAG_FLOAT64 :: to_be 8 z).
  - apply rbind_Ok in H as ([n c1] & [-> Hn]%u32_length_Ok & H).
    apply rbind_Ok in H as (_ & _ & H).
    apply rbind_Ok in H as ([raw c2] & Hraw & H). apply cursor_take_Ok in Hraw as [-> <-]; [|lia].
    apply rbind_Ok in H as (value & [-> Hu]%ok_or_Ok%from_utf8_Some & H). injection H as <- <-.
    scalar_ok. exists (TAG_STRING :: to_be 4 (len raw) ++ raw). cbn [app encode_body].
    rewrite push_u32_eq by done. by rewrite <-app_assoc.
  - apply rbind_Ok in H as ([n c1] & [-> Hn]%u32_length_Ok & H).
    apply rbind_Ok in H as (_ & _ & H).
    apply rbind_Ok in H as ([raw c2] & Hraw & H). apply cursor_take_Ok in Hraw as [-> <-]; [|lia].
    injection H as <- <-. scalar_ok.
    exists (TAG_BYTES :: to_be 4 (len raw) ++ raw). cbn [app encode_body].
    rewrite push_u32_eq by done. by rewrite <-app_assoc.
  - apply rbind_Ok in H as ([z c1] & [-> Hz]%be8_Ok & H). injection H as <- <-. scalar_ok.
    exists (TAG_TIMESTAMP :: to_be 8 z). cbn [encode_body].
    split; [done|]. by rewrite cast_unsigned_signed.
  - apply rbind_Ok in H as ([n c1] & [-> Hn]%u16_length_Ok & H).
    destruct (Z.ltb_spec MAX_TYPED_ID_BYTES n); [done|].
    apply rbind_Ok in H as ([raw c2] & Hraw & H). apply cursor_take_Ok in Hraw as [-> <-]; [|lia].
    apply rbind_Ok in H as (wire & [-> Hu]%ok_or_Ok%from_utf8_Some & H).
    apply rbind_Ok in H as (id & [Hid ->]%map_err_Ok%TypedId_from_str_spec & H).
    injection H as <- <-. scalar_ok.
    exists (TAG_TYPED_ID :: to_be 2 (len (TypedId_to_string id)) ++ TypedId_to_string id).
    cbn [app encode_body]. rewrite push_u16_eq by done. by rewrite <-app_assoc.
  - by eapply decode_array_sound.
  - by eapply decode_object_sound.
  - done.
Qed.

Lemma decode_body_sound d : 0 <= d -> sound (well_formed_at d) (fun c => decode_body c d).
Proof.
  intros Hd. unfold decode_body.
  remember (Z.to_nat (MAX_DEPTH + 1 - d)) as levels eqn:Hl.
  revert d Hd Hl; induction levels as [|levels IH]; intros d Hd Hl c v c' H; [done|].
  cbn [decode_body_at] in H. apply rbind_Ok in H as ([tag c1] & ->%cursor_byte_Ok & H).
  eapply decode_tagged_sound; [lia| |exact H]. apply IH; lia.
Qed.

(** ** The codec as a whole *)

Lemma concat_len_sum {A} (f : A -> result StoredValueError bytes) (cost : A -> Z) l bs :
  (forall x b, In x l -> f x = Ok b -> len b = cost x) ->
  try_map f l = Ok bs -> len (concat bs) = sumZ (map cost l).
Proof.
  intros Hf H%try_map_Ok. induction H as [|x b l bs Hx _ IH]; [done|].
  cbn [concat map]. rewrite len_app, (Hf x b), IH; [done| |by left|done].
  intros; apply Hf; [by right|done].
Qed.

Lemma encode_body_len v b : encode_body v = Ok b -> len b = body_size v.
Proof.
  revert b; induction v as [|[]|z|z|s|s|z|i|vs IH|fs IH] using value_induction;
    intros b Hb; cbn [encode_body] in Hb; cbn [body_size];
    [injection Hb as <-|injection Hb as <-|injection Hb as <-|injection Hb as <-|injection Hb as <-
    |invert_push Hb|invert_push Hb|injection Hb as <-|invert_push Hb|invert_push Hb|invert_push Hb];
    [done|done|done|..].
  1-6: rewrite !len_cons, ?len_app, len_to_be; lia.
  - invert_ok_step. injection Hb as <-. rewrite List.Forall_forall in IH.
    rewrite !len_cons, len_app, len_to_be. rewrite (concat_len_sum encode_body body_size vs a); [lia|auto|done].
  - invert_ok_step. injection Hb as <-. rewrite List.Forall_forall in IH.
    rewrite !len_cons, len_app, len_to_be.
    erewrite (concat_len_sum _ (fun f => 2 + len (fst f) + body_size (snd f)) fs a); [lia| |exact Hok].
    intros f b Hin (_ & vb & Hvb & ->)%encode_field_Ok.
    rewrite !len_app, len_to_be, (IH f Hin vb Hvb). lia.
Qed.

(** The values that have a Stored Value v1 form. *)
Definition storable (v : CanonicalValue) : bool :=
  shape_ok 0 v && (3 + body_size v <=? STORED_VALUE_MAX_BYTES).

Definition stored_header : bytes := MAGIC ++ [STORED_VALUE_FORMAT_VERSION].

Lemma encode_stored_value_Ok v w :
  encode_stored_value v = Ok w <->
  storable v = true /\ exists b, encode_body v = Ok b /\ w = stored_header ++ b.
Proof.
  unfold storable, encode_stored_value. rewrite andb_true_iff, Z.leb_le. split.
  - intros H. apply rbind_Ok in H as (n & (Hsh & Hn & ->)%encoded_body_len_Ok & H).
    apply rbind_Ok in H as (total & Ht & H).
    apply ok_or_Ok, bind_Some in Ht as (x & [-> _]%checked_add_Some & [-> _]%checked_add_Some).
    change (len MAGIC + 1) with 3 in H.
    destruct (Z.ltb_spec STORED_VALUE_MAX_BYTES (3 + body_size v)); [done|].
    apply rbind_Ok in H as (b & Hb & H). injection H as <-. eauto.
  - intros [[Hsh Hn] (b & Hb & ->)]. pose proof (body_size_pos v).
    rewrite (proj2 (encoded_body_len_Ok v 0 (body_size v))) by (split_and!; [done|lia|done]). cbn [rbind].
    change (checked_add usize_max (len MAGIC) 1) with (Some 3). cbn [mbind option_bind].
    rewrite (proj2 (checked_add_Some _ _ _ (3 + body_size v)))
      by (unfold STORED_VALUE_MAX_BYTES, usize_max, u64_max in *; lia).
    cbn [ok_or rbind]. destruct (Z.ltb_spec STORED_VALUE_MAX_BYTES (3 + body_size v)); [lia|].
    rewrite Hb. done.
Qed.

Lemma decode_stored_value_Ok w v :
  decode_stored_value w = Ok v <->
  len w <= STORED_VALUE_MAX_BYTES /\ exists b, w = stored_header ++ b /\ decode_body b 0 = Ok (v, []).
Proof.
  unfold decode_stored_value. split.
  - intros H. destruct (Z.ltb_spec STORED_VALUE_MAX_BYTES (len w)); [done|]. split; [done|].
    apply rbind_Ok in H as ([m c1] & Hm & H). apply cursor_take_Ok in Hm as [-> _]; [|lia].
    case_bool_decide as Hmagic; [done|]. apply rbind_Ok in H as ([ver c2] & ->%cursor_byte_Ok & H).
    case_bool_decide as Hver; [done|]. apply rbind_Ok in H as ([v' c3] & Hb & H).
    case_bool_decide as Hc; [done|]. injection H as <-.
    subst. eauto.
  - intros (Hlen & b & -> & Hb). destruct (Z.ltb_spec STORED_VALUE_MAX_BYTES (len (stored_header ++ b))); [lia|].
    unfold stored_header. rewrite <-app_assoc, (cursor_take_app MAGIC). cbn [rbind app].
    rewrite bool_decide_eq_false_2 by naive_solver. rewrite cursor_byte_cons. cbn [rbind].
    rewrite bool_decide_eq_false_2 by naive_solver. rewrite Hb. cbn [rbind].
    by rewrite bool_decide_eq_false_2 by naive_solver.
Qed.

Lemma stored_decode_encode v w :
  value_ok v = true -> encode_stored_value v = Ok w -> decode_stored_value w = Ok v.
Proof.
  intros Hv (Hs & b & Hb & ->)%encode_stored_value_Ok.
  apply andb_true_iff in Hs as [Hsh Hn%Z.leb_le].
  apply decode_stored_value_Ok. rewrite len_app, (encode_body_len v b Hb).
  split; [done|]. exists b. split; [done|]. rewrite <-(app_nil_r b).
  apply decode_encode_body; [done|done|lia|done].
Qed.

Lemma stored_encode_decode v w :
  decode_stored_value w = Ok v -> value_ok v = true /\ encode_stored_value v = Ok w.
Proof.
  intros (Hlen & b & -> & Hb)%decode_stored_value_Ok.
  apply (decode_body_sound 0) in Hb as ([Hok Hsh] & b' & -> & Hb'); [|lia].
  rewrite app_nil_r in *. split; [done|]. apply encode_stored_value_Ok. split; [|eauto].
  rewrite len_app, (encode_body_len v b' Hb') in Hlen.
  unfold storable. rewrite Hsh. apply Z.leb_le, Hlen.
Qed.
End decode.
End facts.

(** ** Properties *)

(** C12: Every well-formed canonical value within the format's limits (depth, item counts, key,
    typed-id and total size) has an encoding, and decoding that encoding returns exactly the
    value: [decode_stored_value] is a left inverse of [encode_stored_value]. *)
Theorem stored_value_round_trip {UL : UlidLib} {ULL : UlidLaws} (v : CanonicalValue) :
  value_ok v = true -> storable v = true ->
  exists w, encode_stored_value v = Ok w /\ decode_stored_value w = Ok v.
Proof.
  intros Hv Hs. assert (Hs' := Hs). unfold storable in Hs'.
  apply andb_true_iff in Hs' as [Hsh Hn%Z.leb_le].
  destruct (encode_body_Ok v 0 Hsh) as (b & Hb & _); [lia|].
  assert (encode_stored_value v = Ok (stored_header ++ b)) as Hw
    by (apply encode_stored_value_Ok; eauto).
  eauto using stored_decode_encode.
Qed.

(** A value using every tag of the format. *)
Definition sample_value : CanonicalValue :=
  CV_Object
    [ (text "a", CV_Array [CV_Null; CV_Boolean true; CV_Boolean false; CV_Int64 (-1)]);
      (text "b", CV_Float64 4607182418800017408);
      (text "c", CV_Object [(text "k", CV_String (text "hi")); (text "l", CV_Bytes [x00; xff])]);
      (text "d", CV_Timestamp 1700000000000000);
      (text "e", CV_TypedId {| kind := text "doc"; ulid := 42 |}) ].

Lemma stored_value_round_trip_witness :
  exists w, encode_stored_value sample_value = Ok w /\ decode_stored_value w = Ok sample_value.
Proof. apply (stored_value_round_trip sample_value); vm_compute; reflexivity. Defined.

(** C23: The decoder accepts only canonical encodings: any byte string it accepts is exactly what
    [encode_stored_value] produces for the value returned, and that value is well formed (sorted
    unique UTF-8 keys, canonical finite floats, 64-bit integers, valid typed ids).  Hence no two
    byte strings decode to the same value. *)
Theorem stored_value_canonical {UL : UlidLib} {ULL : UlidLaws} (w : bytes) (v : CanonicalValue) :
  decode_stored_value w = Ok v ->
  value_ok v = true /\ encode_stored_value v = Ok w
  /\ forall w', decode_stored_value w' = Ok v -> w' = w.
Proof.
  intros H. apply stored_encode_decode in H as [Hv Hw]. split; [done|]. split; [done|].
  intros w' [_ Hw']%stored_encode_decode. congruence.
Qed.

Definition sample_stored : bytes :=
  [x52; x56; x01; x31; x00; x00; x00; x01; x00; x01; x6b; x02].

Lemma stored_value_canonical_witness :
  value_ok (CV_Object [(text "k", CV_Boolean true)]) = true
  /\ encode_stored_value (CV_Object [(text "k", CV_Boolean true)]) = Ok sample_stored
  /\ forall w', decode_stored_value w' = Ok (CV_Object [(text "k", CV_Boolean true)]) ->
     w' = sample_stored.
Proof. apply (stored_value_canonical sample_stored). vm_compute. reflexivity. Defined.

(** [encode_stored_value] succeeds exactly on the values within the declared limits
    ([storable], an independent description of depth, counts and size), the output length is
    exactly the size [encoded_body_len] pre-computed plus the three header bytes, and it never
    exceeds [STORED_VALUE_MAX_BYTES]. *)
Theorem stored_value_limits {UL : UlidLib} (v : CanonicalValue) :
  ((exists w, encode_stored_value v = Ok w) <-> storable v = true)
  /\ forall w, encode_stored_value v = Ok w ->
     encoded_body_len v 0 = Ok (len w - 3) /\ len w <= STORED_VALUE_MAX_BYTES.
Proof.
  split.
  - split; [intros [w (? & _)%encode_stored_value_Ok]; done|]. intros Hs. assert (Hs' := Hs).
    apply andb_true_iff in Hs' as [Hsh Hn%Z.leb_le].
    destruct (encode_body_Ok v 0 Hsh) as (b & Hb & _); [lia|].
    exists (stored_header ++ b). apply encode_stored_value_Ok. eauto.
  - intros w (Hs & b & Hb & ->)%encode_stored_value_Ok.
    apply andb_true_iff in Hs as [Hsh Hn%Z.leb_le].
    rewrite len_app, (encode_body_len v b Hb). change (len stored_header) with 3.
    split; [|done]. apply encoded_body_len_Ok. split_and!; [done|lia|lia].
Qed.
