(* ===== verification/IndexKey.v ===== *)
(** * Index Key v1: [crates/runku-value/src/index.rs]

    The order-preserving tuple codec of secondary indexes: scalar components, the escaped
    variable-length encoding, decoding with the canonicality check, and the prefix bounds that
    range scans use.  [iv_cmp] and [tuple_cmp] are the logical order the encoding promises. *)

From Stdlib Require Import Strings.Byte ZArith Lia.
From stdpp Require Import prelude list strings.
From S2P Require Import Prelude BTreeMap Ulid Value.

Definition MAGIC : bytes := Eval cbv in text "RK".
Definition FORMAT_VERSION : byte := x01.
Definition MAX_COMPONENTS : Z := 16.
Definition MAX_ENCODED_BYTES : Z := 4 * 1024.

Definition TAG_NULL : byte := x10.
Definition TAG_FALSE : byte := x20.
Definition TAG_TRUE : byte := x21.
Definition TAG_INT64 : byte := x30.
Definition TAG_FLOAT64 : byte := x31.
Definition TAG_TIMESTAMP : byte := x40.
Definition TAG_STRING : byte := x50.
Definition TAG_BYTES : byte := x60.
Definition TAG_TYPED_ID : byte := x70.

Inductive IndexKeyError : Type :=
| IK_InvalidMagic
| IK_UnsupportedVersion
| IK_Empty
| IK_TooManyComponents
| IK_TooLarge
| IK_ValueTypeUnsupported
| IK_Truncated
| IK_UnknownTag
| IK_InvalidEscape
| IK_InvalidUtf8
| IK_FloatNonFinite
| IK_TypedIdInvalid
| IK_NonCanonical
| IK_PrefixComponentCountInvalid
| IK_PrefixHasNoSuccessor.

Inductive IndexValue : Type :=
| IV_Null
| IV_Boolean (b : bool)
| IV_Int64 (z : Z)
| IV_Float64 (bits : Z)
| IV_Timestamp (micros : Z)
| IV_String (s : bytes)
| IV_Bytes (bs : bytes)
| IV_TypedId (id : TypedId).

#[export] Instance IndexValue_eq_dec : EqDecision IndexValue.
Proof. solve_decision. Defined.

Definition IndexValue_try_from (value : CanonicalValue) : result IndexKeyError IndexValue :=
  match value with
  | CV_Null => Ok IV_Null
  | CV_Boolean value => Ok (IV_Boolean value)
  | CV_Int64 value => Ok (IV_Int64 value)
  | CV_Float64 value => Ok (IV_Float64 value)
  | CV_Timestamp value => Ok (IV_Timestamp value)
  | CV_String value => Ok (IV_String value)
  | CV_Bytes value => Ok (IV_Bytes value)
  | CV_TypedId value => Ok (IV_TypedId value)
  | CV_Array _ | CV_Object _ => Err IK_ValueTypeUnsupported
  end.

Record IndexKey : Type := mkIndexKey { encoded : bytes; components : list IndexValue }.
Record IndexKeyPrefix : Type := mkIndexKeyPrefix { prefix_encoded : bytes }.

#[export] Instance IndexKey_eq_dec : EqDecision IndexKey.
Proof. solve_decision. Defined.

(** [impl Ord for IndexKey]. *)
Definition IndexKey_cmp (k l : IndexKey) : comparison := bytes_cmp (encoded k) (encoded l).

Definition validate_component_count (count : Z) : result IndexKeyError unit :=
  if count =? 0 then Err IK_Empty
  else if MAX_COMPONENTS <? count then Err IK_TooManyComponents
  else Ok tt.

Definition ensure_key_size (length : Z) : result IndexKeyError unit :=
  if MAX_ENCODED_BYTES <? length then Err IK_TooLarge else Ok tt.

(** [1_u64 << 63] and [!bits] on [u64]. *)
Definition sign_bit : Z := Z.shiftl 1 63.
Definition not_u64 (bits : Z) : Z := Z.lxor bits u64_max.

Definition ordered_float_bits (bits : Z) : Z :=
  if negb (Z.land bits sign_bit =? 0) then not_u64 bits else Z.lxor bits sign_bit.

(** The bytes [encode_escaped] appends. *)
Fixpoint encode_escaped (input : bytes) : bytes :=
  match input with
  | [] => [x00; x00]
  | b :: input =>
      if decide (b = x00) then x00 :: xff :: encode_escaped input else b :: encode_escaped input
  end.

Section encode.
Context {UL : UlidLib}.

(** The bytes one iteration of the loop of [encode_components] appends. *)
Definition encode_component (value : IndexValue) : bytes :=
  match value with
  | IV_Null => [TAG_NULL]
  | IV_Boolean false => [TAG_FALSE]
  | IV_Boolean true => [TAG_TRUE]
  | IV_Int64 value => TAG_INT64 :: to_be 8 (Z.lxor (cast_unsigned value) sign_bit)
  | IV_Float64 value => TAG_FLOAT64 :: to_be 8 (ordered_float_bits value)
  | IV_Timestamp value => TAG_TIMESTAMP :: to_be 8 (Z.lxor (cast_unsigned value) sign_bit)
  | IV_String value => TAG_STRING :: encode_escaped value
  | IV_Bytes value => TAG_BYTES :: encode_escaped value
  | IV_TypedId value => TAG_TYPED_ID :: encode_escaped (TypedId_to_string value)
  end.

Fixpoint encode_components (values : list IndexValue) (output : bytes)
  : result IndexKeyError bytes :=
  match values with
  | [] => Ok output
  | value :: values =>
      let output := output ++ encode_component value in
      let? _ := ensure_key_size (len output) in
      encode_components values output
  end.

Definition IndexKey_encode (values : list IndexValue) : result IndexKeyError IndexKey :=
  let? _ := validate_component_count (len values) in
  let? encoded := encode_components values (MAGIC ++ [FORMAT_VERSION]) in
  let? _ := ensure_key_size (len encoded) in
  Ok (mkIndexKey encoded values).

Definition IndexKey_prefix (k : IndexKey) (component_count : Z)
  : result IndexKeyError IndexKeyPrefix :=
  if (component_count =? 0) || (len (components k) <? component_count)
  then Err IK_PrefixComponentCountInvalid else
  let? encoded := encode_components (take (Z.to_nat component_count) (components k))
                    (MAGIC ++ [FORMAT_VERSION]) in
  Ok (mkIndexKeyPrefix encoded).

(** [pop] until a byte below [u8::MAX] is found; [rev_prefix] is the vector, last byte first. *)
Fixpoint successor_loop (rev_prefix : bytes) : option bytes :=
  match rev_prefix with
  | [] => None
  | last :: rest =>
      if decide (last = xff) then successor_loop rest
      else Some (rev (zb (bz last + 1) :: rest))
  end.
Definition prefix_successor (prefix : bytes) : option bytes := successor_loop (rev prefix).

Definition inclusive_start (p : IndexKeyPrefix) : bytes := prefix_encoded p.
Definition exclusive_end (p : IndexKeyPrefix) : result IndexKeyError bytes :=
  ok_or IK_PrefixHasNoSuccessor (prefix_successor (prefix_encoded p)).

(** ** Decoding *)

Definition cursor_take (n : Z) (c : bytes) : result IndexKeyError (bytes * bytes) :=
  if n <=? len c then Ok (take (Z.to_nat n) c, drop (Z.to_nat n) c) else Err IK_Truncated.

Definition cursor_byte (c : bytes) : result IndexKeyError (byte * bytes) :=
  match c with b :: c => Ok (b, c) | [] => Err IK_Truncated end.

(** [u64::from_be_bytes(cursor.array()?)]. *)
Definition cursor_u64 (c : bytes) : result IndexKeyError (Z * bytes) :=
  let? (b, c) := cursor_take 8 c in Ok (from_be b, c).

(** The [loop] of [decode_escaped], the cursor shrinking at each turn. *)
Fixpoint decode_escaped (output : bytes) (c : bytes) : result IndexKeyError (bytes * bytes) :=
  match c with
  | [] => Err IK_Truncated
  | b :: c =>
      if negb (bool_decide (b = x00)) then decode_escaped (output ++ [b]) c else
      match c with
      | [] => Err IK_Truncated
      | e :: c =>
          if decide (e = x00) then Ok (output, c)
          else if decide (e = xff) then
            let output := output ++ [x00] in
            if MAX_ENCODED_BYTES <? len output then Err IK_TooLarge else decode_escaped output c
          else Err IK_InvalidEscape
      end
  end.

Definition decode_component (c : bytes) : result IndexKeyError (IndexValue * bytes) :=
  let? (tag, c) := cursor_byte c in
  if decide (tag = TAG_NULL) then Ok (IV_Null, c)
  else if decide (tag = TAG_FALSE) then Ok (IV_Boolean false, c)
  else if decide (tag = TAG_TRUE) then Ok (IV_Boolean true, c)
  else if decide (tag = TAG_INT64) then
    let? (ordered, c) := cursor_u64 c in
    Ok (IV_Int64 (cast_signed (Z.lxor ordered sign_bit)), c)
  else if decide (tag = TAG_FLOAT64) then
    let? (ordered, c) := cursor_u64 c in
    let bits := if Z.land ordered sign_bit =? 0 then not_u64 ordered
                else Z.lxor ordered sign_bit in
    let? value := map_err (fun _ => IK_FloatNonFinite) (FiniteF64_new bits) in
    if bool_decide (value <> bits) then Err IK_NonCanonical else Ok (IV_Float64 value, c)
  else if decide (tag = TAG_TIMESTAMP) then
    let? (ordered, c) := cursor_u64 c in
    Ok (IV_Timestamp (cast_signed (Z.lxor ordered sign_bit)), c)
  else if decide (tag = TAG_STRING) then
    let? (bytes, c) := decode_escaped [] c in
    let? value := ok_or IK_InvalidUtf8 (from_utf8 bytes) in
    Ok (IV_String value, c)
  else if decide (tag = TAG_BYTES) then
    let? (bytes, c) := decode_escaped [] c in
    Ok (IV_Bytes bytes, c)
  else if decide (tag = TAG_TYPED_ID) then
    let? (bytes, c) := decode_escaped [] c in
    let? wire := ok_or IK_TypedIdInvalid (from_utf8 bytes) in
    let? id := map_err (fun _ => IK_TypedIdInvalid) (TypedId_from_str wire) in
    Ok (IV_TypedId id, c)
  else Err IK_UnknownTag.

(** [while !cursor.is_empty()]: [room] is [MAX_COMPONENTS - values.len()]. *)
Fixpoint decode_loop (room : nat) (c : bytes) : result IndexKeyError (list IndexValue) :=
  match c with
  | [] => Ok []
  | _ =>
      match room with
      | O => Err IK_TooManyComponents
      | S room =>
          let? (v, c) := decode_component c in
          let? vs := decode_loop room c in
          Ok (v :: vs)
      end
  end.

Definition decode_components (input : bytes) : result IndexKeyError (list IndexValue) :=
  let? _ := ensure_key_size (len input) in
  let? (magic, c) := cursor_take 2 input in
  if bool_decide (magic <> MAGIC) then Err IK_InvalidMagic else
  let? (version, c) := cursor_byte c in
  if bool_decide (version <> FORMAT_VERSION) then Err IK_UnsupportedVersion else
  let? values := decode_loop (Z.to_nat MAX_COMPONENTS) c in
  let? _ := validate_component_count (len values) in
  Ok values.

Definition IndexKey_decode (input : bytes) : result IndexKeyError IndexKey :=
  let? comps := decode_components input in
  let? canonical := IndexKey_encode comps in
  if bool_decide (encoded canonical <> input) then Err IK_NonCanonical else Ok canonical.
End encode.

(** ** The logical order *)

(** The type order documented on [IndexValue]. *)
Definition type_rank (v : IndexValue) : Z :=
  match v with
  | IV_Null => 0 | IV_Boolean _ => 1 | IV_Int64 _ => 2 | IV_Float64 _ => 3
  | IV_Timestamp _ => 4 | IV_String _ => 5 | IV_Bytes _ => 6 | IV_TypedId _ => 7
  end.

Section order.
Context {UL : UlidLib}.

(** Values of one type compare naturally, values of different types by type. *)
Definition iv_cmp (v w : IndexValue) : comparison :=
  match v, w with
  | IV_Null, IV_Null => Eq
  | IV_Boolean a, IV_Boolean b => Z.b2z a ?= Z.b2z b
  | IV_Int64 a, IV_Int64 b | IV_Timestamp a, IV_Timestamp b => a ?= b
  | IV_Float64 a, IV_Float64 b => f64_scaled a ?= f64_scaled b
  | IV_String a, IV_String b | IV_Bytes a, IV_Bytes b => bytes_cmp a b
  | IV_TypedId a, IV_TypedId b => bytes_cmp (TypedId_to_string a) (TypedId_to_string b)
  | _, _ => type_rank v ?= type_rank w
  end.

(** Tuples compare component by component, a proper prefix first. *)
Fixpoint tuple_cmp (vs ws : list IndexValue) : comparison :=
  match vs, ws with
  | [], [] => Eq
  | [], _ :: _ => Lt
  | _ :: _, [] => Gt
  | v :: vs, w :: ws => cmp_then (iv_cmp v w) (tuple_cmp vs ws)
  end.

(** The invariants of the payload types. *)
Definition iv_ok (v : IndexValue) : bool :=
  match v with
  | IV_Null | IV_Boolean _ | IV_Bytes _ => true
  | IV_Int64 z | IV_Timestamp z => is_i64 z
  | IV_Float64 b => float_ok b
  | IV_String s => utf8_valid s
  | IV_TypedId id => typed_id_ok id
  end.
End order.

(** ** Ordered words *)

Lemma sign_bit_eq : sign_bit = 2 ^ 63.
Proof. done. Qed.

(** Flipping the sign bit of a two's complement word shifts it by [2^63]. *)
Lemma ordered_int z : is_i64 z = true -> Z.lxor (cast_unsigned z) sign_bit = z + 2 ^ 63.
Proof.
  rewrite is_i64_spec, sign_bit_eq. unfold cast_unsigned, i64_min, i64_max. intros H.
  destruct (decide (0 <= z)).
  - rewrite Z.mod_small by lia. rewrite lxor_pow2_small by lia. done.
  - rewrite <-(Z.mod_add z 1 (2 ^ 64)), Z.mod_small by lia.
    rewrite lxor_pow2_big by lia. lia.
Qed.

Lemma unordered_int u : is_u64 u = true ->
  cast_signed (Z.lxor u sign_bit) = u - 2 ^ 63 /\ is_i64 (u - 2 ^ 63) = true.
Proof.
  rewrite is_u64_spec, is_i64_spec, sign_bit_eq.
  unfold cast_signed, u64_max, i64_min, i64_max. intros H. split; [|lia].
  destruct (decide (u < 2 ^ 63)).
  - rewrite lxor_pow2_small by lia. destruct (Z.ltb_spec (u + 2 ^ 63) (2 ^ 63)); lia.
  - rewrite lxor_pow2_big by lia. destruct (Z.ltb_spec (u - 2 ^ 63) (2 ^ 63)); lia.
Qed.

Lemma sign_bit_test u : is_u64 u = true -> (Z.land u sign_bit =? 0) = (u <? 2 ^ 63).
Proof.
  rewrite is_u64_spec, sign_bit_eq. unfold u64_max. intros H. destruct (Z.ltb_spec u (2 ^ 63)).
  - by rewrite land_pow2_small by lia.
  - by rewrite land_pow2_big by lia.
Qed.

Lemma not_u64_eq u : is_u64 u = true -> not_u64 u = 2 ^ 64 - 1 - u.
Proof.
  rewrite is_u64_spec. unfold not_u64, u64_max. intros H. rewrite lxor_ones by lia. done.
Qed.

(** The ordered bits of a float are the [total_cmp] key shifted by [2^63]. *)
Lemma ordered_float b : is_u64 b = true -> ordered_float_bits b = f64_total_key b + 2 ^ 63.
Proof.
  intros Hb. unfold ordered_float_bits. rewrite sign_bit_test, not_u64_eq, f64_total_key_spec by done.
  rewrite is_u64_spec in Hb. unfold u64_max in Hb.
  destruct (Z.ltb_spec b (2 ^ 63)); simpl negb; cbn match; [|lia].
  rewrite sign_bit_eq, lxor_pow2_small by lia. done.
Qed.

Lemma ordered_float_range b : is_u64 b = true -> is_u64 (ordered_float_bits b) = true.
Proof.
  intros Hb. rewrite ordered_float, f64_total_key_spec by done. rewrite is_u64_spec in *.
  unfold u64_max in *. destruct (Z.ltb_spec b (2 ^ 63)); lia.
Qed.

(** The decoder's word transformation and [ordered_float_bits] are inverse bijections. *)
Definition unordered_float_bits (ordered : Z) : Z :=
  if Z.land ordered sign_bit =? 0 then not_u64 ordered else Z.lxor ordered sign_bit.

Lemma unordered_float_eq u : is_u64 u = true ->
  unordered_float_bits u = (if u <? 2 ^ 63 then 2 ^ 64 - 1 - u else u - 2 ^ 63).
Proof.
  intros Hu. unfold unordered_float_bits. rewrite sign_bit_test, not_u64_eq by done.
  rewrite is_u64_spec in Hu. unfold u64_max in Hu. destruct (Z.ltb_spec u (2 ^ 63)); [done|].
  rewrite sign_bit_eq, lxor_pow2_big by lia. done.
Qed.

Lemma unordered_float_range u : is_u64 u = true -> is_u64 (unordered_float_bits u) = true.
Proof.
  intros Hu. rewrite unordered_float_eq by done. rewrite is_u64_spec in *. unfold u64_max in *.
  destruct (Z.ltb_spec u (2 ^ 63)); lia.
Qed.

Lemma unordered_ordered b : is_u64 b = true -> unordered_float_bits (ordered_float_bits b) = b.
Proof.
  intros Hb. rewrite unordered_float_eq by (by apply ordered_float_range).
  rewrite ordered_float, f64_total_key_spec by done. rewrite is_u64_spec in Hb.
  unfold u64_max in Hb. destruct (Z.ltb_spec b (2 ^ 63));
    [destruct (Z.ltb_spec (b + 2 ^ 63) (2 ^ 63))
    |destruct (Z.ltb_spec (2 ^ 63 - 1 - b + 2 ^ 63) (2 ^ 63))]; lia.
Qed.

Lemma ordered_unordered u : is_u64 u = true -> ordered_float_bits (unordered_float_bits u) = u.
Proof.
  intros Hu. rewrite ordered_float, f64_total_key_spec by (by apply unordered_float_range).
  rewrite unordered_float_eq by done. rewrite is_u64_spec in Hu. unfold u64_max in Hu.
  destruct (Z.ltb_spec u (2 ^ 63));
    [destruct (Z.ltb_spec (2 ^ 64 - 1 - u) (2 ^ 63))|destruct (Z.ltb_spec (u - 2 ^ 63) (2 ^ 63))]; lia.
Qed.

(** ** The encoding preserves the order *)

Lemma encode_escaped_cmp a b r s :
  bytes_cmp (encode_escaped a ++ r) (encode_escaped b ++ s)
  = cmp_then (bytes_cmp a b) (bytes_cmp r s).
Proof.
  assert (Hpos : forall x, x <> x00 -> 0 < bz x).
  { intros x Hx. pose proof (bz_range x). destruct (decide (bz x = 0)) as [E|]; [|lia].
    by apply (bz_inj x x00) in E. }
  revert b; induction a as [|x a IH]; intros [|y b]; cbn [encode_escaped].
  - done.
  - case_decide as Hy; [subst; done|]. cbn [app]. rewrite bytes_cmp_cons.
    rewrite (proj2 (Z.compare_lt_iff _ _)); [done|]. by apply Hpos.
  - case_decide as Hx; [subst; done|]. cbn [app]. rewrite bytes_cmp_cons.
    rewrite (proj2 (Z.compare_gt_iff _ _)); [done|]. by apply Hpos.
  - case_decide as Hx; case_decide as Hy; subst; cbn [app]; rewrite !bytes_cmp_cons;
      rewrite ?Z.compare_refl; cbn [cmp_then]; rewrite ?bytes_cmp_cons, ?Z.compare_refl, ?IH;
      try done.
    + by rewrite (proj2 (Z.compare_lt_iff _ _)) by (by apply Hpos).
    + by rewrite (proj2 (Z.compare_gt_iff _ _)) by (by apply Hpos).
    + by destruct (bz x ?= bz y).
Qed.

Lemma u64_cmp x y r s : is_u64 x = true -> is_u64 y = true ->
  bytes_cmp (to_be 8 x ++ r) (to_be 8 y ++ s) = cmp_then (x ?= y) (bytes_cmp r s).
Proof.
  rewrite !is_u64_spec. unfold u64_max. intros. apply bytes_cmp_to_be;
    change (256 ^ Z.of_nat 8) with (2 ^ 64); lia.
Qed.

Lemma i64_cmp x y r s : is_i64 x = true -> is_i64 y = true ->
  bytes_cmp (to_be 8 (Z.lxor (cast_unsigned x) sign_bit) ++ r)
            (to_be 8 (Z.lxor (cast_unsigned y) sign_bit) ++ s)
  = cmp_then (x ?= y) (bytes_cmp r s).
Proof.
  intros Hx Hy. rewrite !ordered_int by done. rewrite is_i64_spec in *.
  unfold i64_min, i64_max in *.
  rewrite u64_cmp by (rewrite is_u64_spec; unfold u64_max; lia).
  f_equal. rewrite !(Z.add_comm _ (2 ^ 63)). apply Z.add_compare_mono_l.
Qed.

Lemma f64_cmp x y r s : float_ok x = true -> float_ok y = true ->
  bytes_cmp (to_be 8 (ordered_float_bits x) ++ r) (to_be 8 (ordered_float_bits y) ++ s)
  = cmp_then (f64_scaled x ?= f64_scaled y) (bytes_cmp r s).
Proof.
  intros Hx Hy. rewrite <-FiniteF64_cmp_numeric by done.
  unfold float_ok in Hx, Hy. bool_facts.
  rewrite u64_cmp by (by apply ordered_float_range). f_equal. unfold FiniteF64_cmp.
  rewrite !ordered_float by done. rewrite !(Z.add_comm _ (2 ^ 63)). apply Z.add_compare_mono_l.
Qed.

#[local] Opaque to_be.

Section codec_facts.
Context {UL : UlidLib} {ULL : UlidLaws}.

Lemma encode_component_cmp v w r s : iv_ok v = true -> iv_ok w = true ->
  bytes_cmp (encode_component v ++ r) (encode_component w ++ s)
  = cmp_then (iv_cmp v w) (bytes_cmp r s).
Proof.
  intros Hv Hw.
  destruct v as [|[]|x|x|x|x|x|x], w as [|[]|y|y|y|y|y|y]; try done;
    cbn [encode_component app]; rewrite bytes_cmp_cons; cbn [iv_cmp];
    rewrite Z.compare_refl; cbn [cmp_then iv_ok] in *.
  - by apply i64_cmp.
  - by apply f64_cmp.
  - by apply i64_cmp.
  - apply encode_escaped_cmp.
  - apply encode_escaped_cmp.
  - apply encode_escaped_cmp.
Qed.

Lemma f64_scaled_inj x y : float_ok x = true -> float_ok y = true ->
  (f64_scaled x ?= f64_scaled y) = Eq -> x = y.
Proof.
  intros Hx Hy. rewrite <-FiniteF64_cmp_numeric by done. unfold FiniteF64_cmp.
  apply float_ok_spec in Hx as (Hx & _), Hy as (Hy & _).
  rewrite !f64_total_key_spec by (apply is_u64_spec; unfold u64_max; lia).
  intros E%Z.compare_eq. destruct (Z.ltb_spec x (2 ^ 63)), (Z.ltb_spec y (2 ^ 63)); lia.
Qed.

Lemma iv_cmp_eq v w : iv_ok v = true -> iv_ok w = true -> iv_cmp v w = Eq -> v = w.
Proof.
  intros Hv Hw.
  destruct v as [|[]|x|x|x|x|x|x], w as [|[]|y|y|y|y|y|y]; try done; cbn [iv_cmp iv_ok] in *.
  - by intros ->%Z.compare_eq.
  - intros E. f_equal. by apply f64_scaled_inj.
  - by intros ->%Z.compare_eq.
  - by intros ->%bytes_cmp_eq.
  - by intros ->%bytes_cmp_eq.
  - intros E%bytes_cmp_eq. f_equal. by apply TypedId_to_string_inj.
Qed.

Definition encode_all (vs : list IndexValue) : bytes := concat (map encode_component vs).

Lemma encode_all_cons v vs : encode_all (v :: vs) = encode_component v ++ encode_all vs.
Proof. done. Qed.

Lemma encode_component_nonempty v : exists b l, encode_component v = b :: l.
Proof. destruct v as [|[]|?|?|?|?|?|?]; eexists _, _; reflexivity. Qed.

Lemma encode_all_cmp vs ws : forallb iv_ok vs = true -> forallb iv_ok ws = true ->
  bytes_cmp (encode_all vs) (encode_all ws) = tuple_cmp vs ws.
Proof.
  revert ws; induction vs as [|v vs IH]; intros [|w ws]; cbn [forallb]; intros Hv Hw.
  - done.
  - rewrite encode_all_cons. destruct (encode_component_nonempty w) as (b & l & ->). done.
  - rewrite encode_all_cons. destruct (encode_component_nonempty v) as (b & l & ->). done.
  - bool_facts. rewrite !encode_all_cons, encode_component_cmp, IH by done. done.
Qed.

(** Components are self-delimiting: equal concatenations have equal heads. *)
Lemma encode_component_inj v w r s : iv_ok v = true -> iv_ok w = true ->
  encode_component v ++ r = encode_component w ++ s -> v = w /\ r = s.
Proof.
  intros Hv Hw E%bytes_cmp_eq. rewrite encode_component_cmp in E by done.
  destruct (iv_cmp v w) eqn:Ec; try done. cbn [cmp_then] in E.
  split; [by apply iv_cmp_eq|by apply bytes_cmp_eq].
Qed.

(** An encoded tuple starts with the encoding of [ws] exactly when the tuple starts with [ws]. *)
Lemma encode_all_prefix vs ws : forallb iv_ok vs = true -> forallb iv_ok ws = true ->
  (exists r, encode_all vs = encode_all ws ++ r) <-> take (length ws) vs = ws.
Proof.
  intros Hv Hw. split.
  - revert vs Hv; induction ws as [|w ws IH]; intros vs Hv [r E]; [done|].
    cbn [forallb] in Hw. bool_facts. destruct vs as [|v vs].
    { rewrite encode_all_cons in E. destruct (encode_component_nonempty w) as (b & l & H').
      rewrite H' in E. done. }
    cbn [forallb] in Hv. bool_facts. rewrite !encode_all_cons, <-app_assoc in E.
    apply encode_component_inj in E as [-> E]; [|done..].
    cbn [length take]. f_equal. apply IH; eauto.
  - intros E. exists (encode_all (drop (length ws) vs)). unfold encode_all.
    rewrite <-concat_app, <-map_app. f_equal. f_equal. rewrite <-E at 1. by rewrite take_drop.
Qed.

(** ** What the encoder accepts *)

Lemma ensure_key_size_Ok n : ensure_key_size n = Ok tt <-> n <= MAX_ENCODED_BYTES.
Proof. unfold ensure_key_size. destruct (Z.ltb_spec MAX_ENCODED_BYTES n); naive_solver lia. Qed.

Lemma validate_component_count_Ok {A} (l : list A) :
  validate_component_count (len l) = Ok tt <-> l <> [] /\ len l <= MAX_COMPONENTS.
Proof.
  unfold validate_component_count. destruct l as [|x l]; [naive_solver|].
  rewrite len_cons. pose proof (len_nonneg l). destruct (Z.eqb_spec (1 + len l) 0); [lia|].
  destruct (Z.ltb_spec MAX_COMPONENTS (1 + len l)); naive_solver lia.
Qed.

Lemma encode_components_Ok vs out w : len out <= MAX_ENCODED_BYTES ->
  encode_components vs out = Ok w <->
  w = out ++ encode_all vs /\ len w <= MAX_ENCODED_BYTES.
Proof.
  revert out; induction vs as [|v vs IH]; intros out Hout; cbn [encode_components].
  - unfold encode_all; simpl. rewrite app_nil_r. naive_solver.
  - rewrite encode_all_cons, app_assoc, rbind_Ok. split.
    + intros ([] & Hs%ensure_key_size_Ok & H). by apply IH in H.
    + intros [-> Hw]. assert (len (out ++ encode_component v) <= MAX_ENCODED_BYTES).
      { rewrite len_app in Hw. pose proof (len_nonneg (encode_all vs)). lia. }
      exists tt. rewrite ensure_key_size_Ok. split; [done|]. by apply IH.
Qed.

Definition key_header : bytes := MAGIC ++ [FORMAT_VERSION].

Lemma IndexKey_encode_Ok vs k :
  IndexKey_encode vs = Ok k <->
  k = mkIndexKey (key_header ++ encode_all vs) vs /\ vs <> [] /\ len vs <= MAX_COMPONENTS
  /\ 3 + len (encode_all vs) <= MAX_ENCODED_BYTES.
Proof.
  unfold IndexKey_encode. fold key_header. split.
  - intros H. apply rbind_Ok in H as ([] & Hc%validate_component_count_Ok & H).
    apply rbind_Ok in H as (w & [-> Hw]%encode_components_Ok & H); [|done].
    apply rbind_Ok in H as (_ & _ & H). injection H as <-.
    rewrite len_app in Hw. tauto.
  - intros (-> & Hne & Hc & Hs).
    rewrite (proj2 (validate_component_count_Ok vs)) by done. cbn [rbind].
    rewrite (proj2 (encode_components_Ok vs key_header (key_header ++ encode_all vs) ltac:(done)))
      by (rewrite len_app; done). cbn [rbind].
    rewrite (proj2 (ensure_key_size_Ok _)) by (rewrite len_app; done). done.
Qed.
End codec_facts.

(** ** The decoder inverts the encoder *)

Lemma encode_escaped_len s : len s < len (encode_escaped s).
Proof.
  induction s as [|b s IH]; [done|]. cbn [encode_escaped].
  case_decide; rewrite !len_cons in *; lia.
Qed.

Lemma decode_escaped_encode s out c : len out + len s <= MAX_ENCODED_BYTES ->
  decode_escaped out (encode_escaped s ++ c) = Ok (out ++ s, c).
Proof.
  revert out; induction s as [|b s IH]; intros out Hl; [by rewrite app_nil_r|].
  rewrite len_cons in Hl. pose proof (len_nonneg s). cbn [encode_escaped]. case_decide as Hb.
  - subst. cbn [app decode_escaped].
    rewrite bool_decide_eq_true_2, decide_False, decide_True by done. cbn [negb].
    rewrite len_app, len_cons, len_nil.
    destruct (Z.ltb_spec MAX_ENCODED_BYTES (len out + (1 + 0))); [lia|].
    rewrite IH by (rewrite len_app, len_cons, len_nil; lia). by rewrite <-app_assoc.
  - cbn [app decode_escaped]. rewrite bool_decide_eq_false_2 by done. cbn [negb].
    rewrite IH by (rewrite len_app, len_cons, len_nil; lia). by rewrite <-app_assoc.
Qed.

Lemma decode_escaped_sound n c out r c' : (length c < n)%nat ->
  decode_escaped out c = Ok (r, c') -> exists s, r = out ++ s /\ c = encode_escaped s ++ c'.
Proof.
  revert c out; induction n as [|n IH]; intros [|b c] out Hn H; cbn [length] in Hn;
    [lia|lia|done|].
  cbn [decode_escaped] in H. case_bool_decide as Hb; cbn [negb] in H.
  - subst b. destruct c as [|e c]; [done|]. cbn [length] in Hn. case_decide; [|case_decide; [|done]].
    + subst e. injection H as <- <-. exists []. by rewrite app_nil_r.
    + subst e. destruct (MAX_ENCODED_BYTES <? len (out ++ [x00])); [done|].
      apply IH in H as (s & -> & ->); [|lia]. exists (x00 :: s). by rewrite <-app_assoc.
  - apply IH in H as (s & -> & ->); [|lia]. exists (b :: s). rewrite <-app_assoc.
    cbn [encode_escaped]. by rewrite decide_False.
Qed.

Lemma decode_escaped_Ok c r c' :
  decode_escaped [] c = Ok (r, c') -> c = encode_escaped r ++ c'.
Proof. intros H. eapply decode_escaped_sound in H as (s & -> & ->); [done|apply Nat.lt_succ_diag_r]. Qed.

Lemma cursor_u64_Ok c z c' : cursor_u64 c = Ok (z, c') <-> c = to_be 8 z ++ c' /\ is_u64 z = true.
Proof.
  unfold cursor_u64, cursor_take. rewrite is_u64_spec. unfold u64_max. split.
  - destruct (Z.leb_spec 8 (len c)) as [Hl|]; [|done]. cbn [rbind]. intros [= <- <-].
    assert (length (take (Z.to_nat 8) c) = 8%nat) as E
      by (rewrite length_take; unfold len in Hl; lia).
    rewrite to_be_from_be by done. rewrite take_drop. split; [done|].
    pose proof (from_be_range (take (Z.to_nat 8) c)) as R. unfold len in R. rewrite E in R.
    change (256 ^ Z.of_nat 8) with (2 ^ 64) in R. lia.
  - intros [-> Hz]. rewrite len_app, len_to_be. pose proof (len_nonneg c').
    destruct (Z.leb_spec 8 (Z.of_nat 8 + len c')); [|lia].
    rewrite take_app_length', drop_app_length' by (by rewrite length_to_be). cbn [rbind].
    rewrite from_be_to_be; [done|]. change (256 ^ Z.of_nat 8) with (2 ^ 64). lia.
Qed.

Section decode_facts.
Context {UL : UlidLib} {ULL : UlidLaws}.

(** The guard chain of [decode_component] at a known tag. *)
Local Ltac at_tag :=
  cbn [encode_component app]; unfold decode_component; cbn [cursor_byte rbind];
  repeat (rewrite decide_False by done); rewrite decide_True by done.

Lemma decode_component_encode v c : iv_ok v = true -> len (encode_component v) <= MAX_ENCODED_BYTES ->
  decode_component (encode_component v ++ c) = Ok (v, c).
Proof.
  intros Hv Hl.
  destruct v as [|[]|z|z|z|s|s|i]; cbn [iv_ok] in Hv; at_tag; try done.
  - rewrite (proj2 (cursor_u64_Ok _ (Z.lxor (cast_unsigned z) sign_bit) c)).
    2:{ split; [done|]. rewrite ordered_int by done. rewrite is_i64_spec in Hv. rewrite is_u64_spec.
        unfold i64_min, i64_max, u64_max in *. lia. }
    cbn [rbind]. by rewrite Z.lxor_assoc, Z.lxor_nilpotent, Z.lxor_0_r, cast_signed_unsigned.
  - unfold float_ok in Hv. bool_facts.
    rewrite (proj2 (cursor_u64_Ok _ (ordered_float_bits z) c)) by (split; [done|by apply ordered_float_range]).
    cbn [rbind]. fold (unordered_float_bits (ordered_float_bits z)). rewrite unordered_ordered by done.
    match goal with H : FiniteF64_new z = _ |- _ => rewrite H end. cbn [rbind map_err].
    by rewrite bool_decide_eq_false_2 by naive_solver.
  - rewrite (proj2 (cursor_u64_Ok _ (Z.lxor (cast_unsigned z) sign_bit) c)).
    2:{ split; [done|]. rewrite ordered_int by done. rewrite is_i64_spec in Hv. rewrite is_u64_spec.
        unfold i64_min, i64_max, u64_max in *. lia. }
    cbn [rbind]. by rewrite Z.lxor_assoc, Z.lxor_nilpotent, Z.lxor_0_r, cast_signed_unsigned.
  - cbn [encode_component] in Hl. rewrite len_cons in Hl. pose proof (encode_escaped_len s).
    rewrite decode_escaped_encode by (rewrite len_nil; lia). cbn [rbind app].
    unfold from_utf8. by rewrite Hv.
  - cbn [encode_component] in Hl. rewrite len_cons in Hl. pose proof (encode_escaped_len s).
    by rewrite decode_escaped_encode by (rewrite len_nil; lia).
  - cbn [encode_component] in Hl. rewrite len_cons in Hl.
    pose proof (encode_escaped_len (TypedId_to_string i)).
    rewrite decode_escaped_encode by (rewrite len_nil; lia). cbn [rbind app].
    unfold from_utf8. rewrite ascii_utf8_valid by (by apply TypedId_to_string_ascii).
    cbn [ok_or rbind]. by rewrite (proj2 (TypedId_from_str_spec _ i)).
Qed.

Lemma decode_component_sound c v c' : decode_component c = Ok (v, c') ->
  iv_ok v = true /\ c = encode_component v ++ c'.
Proof.
  intros H. unfold decode_component in H. destruct c as [|tag c]; [done|].
  cbn [cursor_byte rbind] in H.
  repeat case_decide; subst; [injection H as <- <-; done..| | | | | | |done].
  - apply rbind_Ok in H as ([u c1] & [-> Hu]%cursor_u64_Ok & H). injection H as <- <-.
    destruct (unordered_int u Hu) as [-> Hi]. split; [done|].
    cbn [encode_component app]. by rewrite ordered_int, Z.sub_add.
  - apply rbind_Ok in H as ([u c1] & [-> Hu]%cursor_u64_Ok & H).
    fold (unordered_float_bits u) in H.
    apply rbind_Ok in H as (value & Hf%map_err_Ok & H). case_bool_decide as Hc; [done|].
    injection H as <- <-. subst value. cbn [iv_ok encode_component app]. split.
    + unfold float_ok. rewrite unordered_float_range, bool_decide_eq_true_2 by done. done.
    + by rewrite ordered_unordered.
  - apply rbind_Ok in H as ([u c1] & [-> Hu]%cursor_u64_Ok & H). injection H as <- <-.
    destruct (unordered_int u Hu) as [-> Hi]. split; [done|].
    cbn [encode_component app]. by rewrite ordered_int, Z.sub_add.
  - apply rbind_Ok in H as ([s c1] & ->%decode_escaped_Ok & H).
    apply rbind_Ok in H as (value & [-> Hu]%ok_or_Ok%from_utf8_Some & H). by injection H as <- <-.
  - apply rbind_Ok in H as ([s c1] & ->%decode_escaped_Ok & H). by injection H as <- <-.
  - apply rbind_Ok in H as ([s c1] & ->%decode_escaped_Ok & H).
    apply rbind_Ok in H as (wire & [-> Hu]%ok_or_Ok%from_utf8_Some & H).
    apply rbind_Ok in H as (id & [Hid ->]%map_err_Ok%TypedId_from_str_spec & H).
    by injection H as <- <-.
Qed.

Lemma decode_loop_Ok room c vs : len c <= MAX_ENCODED_BYTES ->
  decode_loop room c = Ok vs <->
  c = encode_all vs /\ forallb iv_ok vs = true /\ (length vs <= room)%nat.
Proof.
  revert c vs; induction room as [|room IH]; intros c vs Hc; (destruct c as [|b c];
    [split; [intros [= <-]; split_and!; (done || simpl; lia)
            |intros (E & _ & _); destruct vs as [|v vs]; [done|];
             rewrite encode_all_cons in E; destruct (encode_component_nonempty v) as (? & ? & Hne);
             by rewrite Hne in E]|]).
  - split; [done|]. intros (E & _ & Hl). destruct vs; [done|simpl in Hl; lia].
  - cbn [decode_loop]. rewrite rbind_Ok. split.
    + intros ([v c1] & (Hv & Eq)%decode_component_sound & H).
      apply rbind_Ok in H as (ws & Hws & [= <-]). rewrite Eq, len_app in Hc.
      pose proof (len_nonneg (encode_component v)).
      apply IH in Hws as (-> & Hok & Hl); [|lia]. rewrite encode_all_cons. cbn [forallb length].
      rewrite Hv. split_and!; [done|done|lia].
    + intros (Eq & Hok & Hl). destruct vs as [|v vs]; [done|]. rewrite encode_all_cons in Eq.
      cbn [forallb length] in *. bool_facts. rewrite Eq, len_app in Hc.
      pose proof (len_nonneg (encode_all vs)). pose proof (len_nonneg (encode_component v)).
      exists (v, encode_all vs). rewrite Eq, decode_component_encode by (done || lia).
      split; [done|].
      assert (decode_loop room (encode_all vs) = Ok vs) as ->; [|done].
      apply IH; [lia|]. split_and!; [done|done|lia].
Qed.

Lemma decode_components_Ok w vs :
  decode_components w = Ok vs <->
  w = key_header ++ encode_all vs /\ forallb iv_ok vs = true /\ vs <> []
  /\ len vs <= MAX_COMPONENTS /\ 3 + len (encode_all vs) <= MAX_ENCODED_BYTES.
Proof.
  unfold decode_components. split.
  - intros H. apply rbind_Ok in H as ([] & Hs%ensure_key_size_Ok & H).
    apply rbind_Ok in H as ([magic c] & Hm & H). unfold cursor_take in Hm.
    destruct (2 <=? len w); [|done]. injection Hm as <- <-. case_bool_decide as Hmag; [done|].
    apply rbind_Ok in H as ([ver c] & Hv & H). case_bool_decide as Hver; [done|].
    destruct (drop (Z.to_nat 2) w) as [|v' c'] eqn:Hd; [done|]. injection Hv as -> ->. subst ver.
    assert (w = key_header ++ c) as ->
      by (rewrite <-(take_drop (Z.to_nat 2) w), Hd, Hmag; done).
    rewrite len_app in Hs. change (len key_header) with 3 in Hs.
    apply rbind_Ok in H as (vs' & (-> & Hok & _)%decode_loop_Ok & H); [|lia].
    apply rbind_Ok in H as ([] & [Hne Hc]%validate_component_count_Ok & [= <-]). done.
  - intros (-> & Hok & Hne & Hc & Hs).
    rewrite (proj2 (ensure_key_size_Ok _)) by (rewrite len_app; done). cbn [rbind].
    change (key_header ++ encode_all vs) with (x52 :: x4b :: x01 :: encode_all vs).
    unfold cursor_take. rewrite !len_cons. pose proof (len_nonneg (encode_all vs)).
    destruct (Z.leb_spec 2 (1 + (1 + (1 + len (encode_all vs))))); [|lia].
    change (Z.to_nat 2) with 2%nat. cbn [rbind take drop].
    rewrite bool_decide_eq_false_2 by naive_solver. cbn [rbind cursor_byte].
    rewrite bool_decide_eq_false_2 by naive_solver. change (Z.to_nat MAX_COMPONENTS) with 16%nat.
    assert (decode_loop 16 (encode_all vs) = Ok vs) as ->.
    { apply decode_loop_Ok; [lia|]. split_and!; [done|done|].
      unfold len, MAX_COMPONENTS in Hc. lia. }
    cbn [rbind]. by rewrite (proj2 (validate_component_count_Ok vs)).
Qed.
End decode_facts.

(** ** Prefix bounds *)

Lemma bytes_leb_spec l k : bytes_leb l k = true <-> bytes_cmp l k <> Gt.
Proof. unfold bytes_leb. destruct (bytes_cmp l k); naive_solver. Qed.

Lemma cmp_prefix_ge p x : bytes_cmp p (p ++ x) <> Gt.
Proof.
  rewrite <-(app_nil_r p) at 1. rewrite bytes_cmp_app. by destruct x.
Qed.

(** [p ++ ff^n]'s successor bumps the last byte of [p] that is not [ff]. *)
Lemma successor_loop_Some r e : successor_loop r = Some e ->
  exists q b n, rev r = q ++ [b] ++ replicate n xff /\ b <> xff /\ e = q ++ [zb (bz b + 1)].
Proof.
  induction r as [|b r IH]; cbn [successor_loop]; [done|]. case_decide as Hb.
  - subst. intros (q & b & n & Hr & Hb & ->)%IH. exists q, b, (S n). split_and!; [|done|done].
    cbn [rev]. rewrite Hr, <-!app_assoc. do 2 f_equal. by rewrite <-replicate_cons_app.
  - intros [= <-]. exists (rev r), b, 0%nat. split_and!; [|done|done]. cbn [rev replicate].
    by rewrite app_nil_r.
Qed.

Lemma successor_loop_None r : successor_loop r = None -> r = replicate (length r) xff.
Proof.
  induction r as [|b r IH]; cbn [successor_loop]; [done|]. case_decide; [|done].
  intros E. cbn [length replicate]. subst. f_equal. auto.
Qed.

Lemma bz_succ b : b <> xff -> bz (zb (bz b + 1)) = bz b + 1.
Proof.
  intros Hb. rewrite bz_zb. apply Z.mod_small. pose proof (bz_range b).
  assert (bz b <> bz xff) by (intros E%bz_inj; done). change (bz xff) with 255 in *. lia.
Qed.

Lemma cmp_ff_prefix n x : bytes_cmp (replicate n xff) x <> Gt -> exists r, x = replicate n xff ++ r.
Proof.
  revert x; induction n as [|n IH]; intros x; [by exists x|]. destruct x as [|b x]; [done|].
  cbn [replicate]. rewrite bytes_cmp_cons. pose proof (bz_range b).
  change (bz xff) with 255. destruct (Z.compare_spec 255 (bz b)) as [E|E|E]; [|lia|done].
  cbn [cmp_then]. intros [r ->]%IH. exists r. cbn. f_equal. by apply bz_inj.
Qed.

Lemma cmp_app_split q x e :
  bytes_cmp q x <> Gt -> bytes_cmp x (q ++ e) = Lt -> exists y, x = q ++ y.
Proof.
  revert x; induction q as [|a q IH]; intros x; [by exists x|]. destruct x as [|b x]; [done|].
  cbn [app]. rewrite !bytes_cmp_cons, (Z.compare_antisym (bz a)).
  destruct (Z.compare_spec (bz a) (bz b)) as [E|E|E]; cbn [CompOpp cmp_then]; try done.
  intros H1 H2. destruct (IH x H1 H2) as [y ->]. exists y. f_equal. symmetry. by apply bz_inj.
Qed.

Lemma cmp_le_app q s x : bytes_cmp (q ++ s) x <> Gt -> bytes_cmp q x <> Gt.
Proof.
  revert x; induction q as [|a q IH]; intros x; [by destruct x|]. destruct x as [|b x]; [done|].
  cbn [app]. rewrite !bytes_cmp_cons. destruct (bz a ?= bz b); cbn [cmp_then]; eauto.
Qed.

(** The half-open interval from [p] to its successor holds exactly the strings that extend [p]. *)
Lemma prefix_successor_interval p e x : prefix_successor p = Some e ->
  bytes_leb p x = true /\ bytes_ltb x e = true <-> exists r, x = p ++ r.
Proof.
  intros (q & b & n & Hp & Hb & ->)%successor_loop_Some. rewrite rev_involutive in Hp. subst p.
  rewrite bytes_leb_spec, bytes_ltb_spec. unfold bytes_lt. split.
  - intros [H1 H2]. assert (exists y, x = q ++ y) as [y ->]
      by (eapply cmp_app_split; [by eapply cmp_le_app|done]).
    rewrite bytes_cmp_app in H1, H2. destruct y as [|c y]; [done|].
    cbn [app] in H1. rewrite bytes_cmp_cons in H1, H2. rewrite bz_succ in H2 by done.
    destruct (Z.compare_spec (bz b) (bz c)) as [E|E|E]; [| |done].
    + apply bz_inj in E. subst c. cbn [cmp_then] in H1. apply cmp_ff_prefix in H1 as [r ->].
      exists r. by rewrite <-!app_assoc.
    + destruct (Z.compare_spec (bz c) (bz b + 1)) as [E'|E'|E'];
        [by destruct y|lia|done].
  - intros [r ->]. split; [apply cmp_prefix_ge|]. rewrite <-!app_assoc, bytes_cmp_app.
    cbn [app]. rewrite bytes_cmp_cons, bz_succ by done.
    by rewrite (proj2 (Z.compare_lt_iff _ _)) by lia.
Qed.

Section prefix_facts.
Context {UL : UlidLib} {ULL : UlidLaws}.

Lemma header_app_inj (x : bytes) y : (exists r, key_header ++ x = (key_header ++ y) ++ r) <-> exists r, x = y ++ r.
Proof.
  split; intros [r E]; exists r.
  - rewrite <-app_assoc in E. by apply app_inv_head in E.
  - by rewrite E, app_assoc.
Qed.

Lemma encode_all_take vs n : len (encode_all (take n vs)) <= len (encode_all vs).
Proof.
  rewrite <-(take_drop n vs) at 2. unfold encode_all. rewrite map_app, concat_app, len_app.
  pose proof (len_nonneg (concat (map encode_component (drop n vs)))). lia.
Qed.

Lemma forallb_take {A} (f : A -> bool) n l : forallb f l = true -> forallb f (take n l) = true.
Proof.
  rewrite !forallb_forall. intros H x Hx. apply H. rewrite <-(take_drop n l).
  apply in_or_app. by left.
Qed.

Lemma prefix_successor_header l : exists e, prefix_successor (key_header ++ l) = Some e.
Proof.
  unfold prefix_successor. destruct (successor_loop _) eqn:E; [eauto|]. exfalso.
  apply successor_loop_None in E. apply (f_equal (@rev byte)) in E.
  rewrite rev_involutive in E. assert (In x52 (rev (replicate (length (rev (key_header ++ l))) xff))).
  { rewrite <-E. by left. }
  apply in_rev, list_elem_of_In, elem_of_replicate in H as [H _]. done.
Qed.

Lemma IndexKey_prefix_Ok vs k n : IndexKey_encode vs = Ok k -> 1 <= n <= len vs ->
  IndexKey_prefix k n = Ok (mkIndexKeyPrefix (key_header ++ encode_all (take (Z.to_nat n) vs))).
Proof.
  intros (-> & _ & _ & Hs)%IndexKey_encode_Ok Hn. unfold IndexKey_prefix.
  cbn [components]. destruct (Z.eqb_spec n 0); [lia|].
  destruct (Z.ltb_spec (len vs) n); [lia|]. cbn [orb]. fold key_header.
  set (w := key_header ++ encode_all (take (Z.to_nat n) vs)).
  assert (encode_components (take (Z.to_nat n) vs) key_header = Ok w) as ->; [|done].
  apply encode_components_Ok; [done|]. split; [done|]. unfold w. rewrite len_app.
  pose proof (encode_all_take vs (Z.to_nat n)). change (len key_header) with 3. lia.
Qed.
End prefix_facts.

Lemma IndexKey_decode_Ok {UL : UlidLib} {ULL : UlidLaws} (w : bytes) (k : IndexKey) :
  IndexKey_decode w = Ok k <->
  encoded k = w /\ forallb iv_ok (components k) = true /\ IndexKey_encode (components k) = Ok k.
Proof.
  unfold IndexKey_decode. split.
  - intros H. apply rbind_Ok in H as (vs & (-> & Hok & _)%decode_components_Ok & H).
    apply rbind_Ok in H as (k' & Hk & H). case_bool_decide as Hc; [done|]. injection H as <-.
    assert (Hk' := Hk). apply IndexKey_encode_Ok in Hk' as (-> & _). done.
  - intros (<- & Hok & Hk). assert (Hk' := Hk).
    apply IndexKey_encode_Ok in Hk' as (E & Hne & Hc & Hs).
    rewrite (proj2 (decode_components_Ok (encoded k) (components k)))
      by (rewrite E at 1; cbn [encoded]; done).
    cbn [rbind]. rewrite Hk. cbn [rbind]. by rewrite bool_decide_eq_false_2 by naive_solver.
Qed.

(** ** Properties *)

(** C13: Index keys sort as the logical tuples do: comparing two encoded keys bytewise
    ([IndexKey::cmp]) gives the lexicographic order of their components, where components of
    different types follow the documented type order, integers and timestamps compare as signed
    numbers, floats as the real numbers they denote, strings, bytes and typed ids bytewise. *)
Theorem index_key_order {UL : UlidLib} {ULL : UlidLaws} (vs ws : list IndexValue) (k l : IndexKey) :
  forallb iv_ok vs = true -> forallb iv_ok ws = true ->
  IndexKey_encode vs = Ok k -> IndexKey_encode ws = Ok l ->
  IndexKey_cmp k l = tuple_cmp vs ws.
Proof.
  intros Hv Hw (-> & _)%IndexKey_encode_Ok (-> & _)%IndexKey_encode_Ok.
  unfold IndexKey_cmp. cbn [encoded]. rewrite bytes_cmp_app. by apply encode_all_cmp.
Qed.

Definition sample_key_low : list IndexValue := [IV_String (text "team"); IV_Float64 (2 ^ 63 + 1)].
Definition sample_key_high : list IndexValue := [IV_String (text "team"); IV_Float64 0; IV_Null].

Lemma index_key_order_witness :
  match IndexKey_encode sample_key_low, IndexKey_encode sample_key_high with
  | Ok k, Ok l => IndexKey_cmp k l = Lt
  | _, _ => False
  end.
Proof.
  destruct (IndexKey_encode sample_key_low) as [k|] eqn:Hk; [|vm_compute in Hk; discriminate].
  destruct (IndexKey_encode sample_key_high) as [l|] eqn:Hl; [|vm_compute in Hl; discriminate].
  rewrite (index_key_order sample_key_low sample_key_high k l); [| | |exact Hk|exact Hl];
    vm_compute; reflexivity.
Defined.

(** [IndexKey::decode] accepts a byte string exactly when it is the encoding of a tuple of
    well-formed components within the limits, and returns that key: decoding and encoding are
    mutually inverse, and every accepted key is canonical. *)
Theorem index_key_decode_spec {UL : UlidLib} {ULL : UlidLaws} (w : bytes) (k : IndexKey) :
  IndexKey_decode w = Ok k <->
  encoded k = w /\ forallb iv_ok (components k) = true /\ IndexKey_encode (components k) = Ok k.
Proof. apply IndexKey_decode_Ok. Qed.

Definition sample_key : IndexKey :=
  mkIndexKey [x52; x4b; x01; x10; x60; x00; xff; xff; x00; x00] [IV_Null; IV_Bytes [x00; xff]].

Lemma index_key_decode_spec_witness :
  IndexKey_decode (encoded sample_key) = Ok sample_key.
Proof.
  apply (index_key_decode_spec (encoded sample_key) sample_key).
  split; [reflexivity|]. split; vm_compute; reflexivity.
Defined.

(** C21: The prefix of the first [n] components of a key always has bounds, and the half-open byte
    interval from [inclusive_start] to [exclusive_end] contains the encoding of a key exactly when
    that key's first [n] components are those of the prefix: a prefix scan returns all matching
    index entries and no others. *)
Theorem index_prefix_range {UL : UlidLib} {ULL : UlidLaws}
  (vs : list IndexValue) (k : IndexKey) (n : Z) :
  forallb iv_ok vs = true -> IndexKey_encode vs = Ok k -> 1 <= n <= len vs ->
  exists p e, IndexKey_prefix k n = Ok p /\ exclusive_end p = Ok e /\
    forall ws l, forallb iv_ok ws = true -> IndexKey_encode ws = Ok l ->
      bytes_leb (inclusive_start p) (encoded l) = true /\ bytes_ltb (encoded l) e = true <->
      take (Z.to_nat n) ws = take (Z.to_nat n) vs.
Proof.
  intros Hv Hk Hn. rewrite (IndexKey_prefix_Ok vs k n Hk Hn).
  destruct (prefix_successor_header (encode_all (take (Z.to_nat n) vs))) as [e He].
  eexists _, e. split; [done|]. split; [unfold exclusive_end; cbn [prefix_encoded]; by rewrite He|].
  intros ws l Hw (-> & _)%IndexKey_encode_Ok. cbn [encoded inclusive_start prefix_encoded].
  rewrite (prefix_successor_interval _ _ _ He), header_app_inj, encode_all_prefix
    by auto using forallb_take.
  rewrite length_take. unfold len in Hn. by rewrite Nat.min_l by lia.
Qed.

Lemma index_prefix_range_witness :
  match IndexKey_encode sample_key_low with
  | Ok k => exists p e, IndexKey_prefix k 1 = Ok p /\ exclusive_end p = Ok e /\
      forall ws l, forallb iv_ok ws = true -> IndexKey_encode ws = Ok l ->
        bytes_leb (inclusive_start p) (encoded l) = true /\ bytes_ltb (encoded l) e = true <->
        take 1 ws = take 1 sample_key_low
  | Err _ => False
  end.
Proof.
  destruct (IndexKey_encode sample_key_low) as [k|] eqn:Hk; [|vm_compute in Hk; discriminate].
  apply (index_prefix_range sample_key_low k 1); [vm_compute; reflexivity|exact Hk|].
  split; vm_compute; discriminate.
Defined.
