(* ===== verification/Core.v ===== *)
(** * Core identities: [crates/runku-core/src/{id,target,scope,function,environment}.rs]

    Resource identifiers (the [resource_id!] macro), code targets and pinned code, function names,
    the Project/Environment scope and the environment policy.  A resource identifier carries its
    kind as a phantom parameter, as the macro makes one Rust type per kind. *)

From Stdlib Require Import Strings.Byte ZArith Lia.
From stdpp Require Import prelude strings countable list.
From S2P Require Import Prelude Ulid.

(** ** Resource identifiers *)

Inductive ResourceKind : Type :=
| ProjectK | EnvironmentK | ReleaseK | BuildK | FunctionK | DevRevisionK | WorkspaceK
| ApplicationClientK | CredentialK | DevelopmentCredentialK | OperatorK | OperatorSessionK
| OperatorInvitationK | RequestK | InvocationK | TableK | DocumentK | IndexK | OutboxEventK
| OperationalEventK | ScheduledInvocationK | SubscriptionK | OperationK | WorkerK.

#[export] Instance ResourceKind_eq_dec : EqDecision ResourceKind.
Proof. solve_decision. Defined.

Definition PREFIX (k : ResourceKind) : bytes :=
  text match k with
  | ProjectK => "prj_" | EnvironmentK => "env_" | ReleaseK => "rel_" | BuildK => "bld_"
  | FunctionK => "fnc_" | DevRevisionK => "drv_" | WorkspaceK => "wsp_"
  | ApplicationClientK => "app_" | CredentialK => "crd_" | DevelopmentCredentialK => "dvk_"
  | OperatorK => "opr_" | OperatorSessionK => "ops_" | OperatorInvitationK => "opi_"
  | RequestK => "req_" | InvocationK => "inv_" | TableK => "tbl_" | DocumentK => "doc_"
  | IndexK => "idx_" | OutboxEventK => "evt_" | OperationalEventK => "log_"
  | ScheduledInvocationK => "sch_" | SubscriptionK => "sub_" | OperationK => "opn_"
  | WorkerK => "wrk_"
  end.

Record ResourceId (k : ResourceKind) : Type := from_ulid { as_ulid : Z }.
Arguments from_ulid {k} _.
Arguments as_ulid {k} _.

#[export] Instance ResourceId_eq_dec k : EqDecision (ResourceId k).
Proof. solve_decision. Defined.
#[export] Program Instance ResourceId_countable k : Countable (ResourceId k) :=
  inj_countable' as_ulid from_ulid _.
Next Obligation. by intros k []. Qed.

Abbreviation ProjectId := (ResourceId ProjectK).
Abbreviation EnvironmentId := (ResourceId EnvironmentK).
Abbreviation ReleaseId := (ResourceId ReleaseK).
Abbreviation BuildId := (ResourceId BuildK).
Abbreviation FunctionId := (ResourceId FunctionK).
Abbreviation DevRevisionId := (ResourceId DevRevisionK).
Abbreviation TableId := (ResourceId TableK).
Abbreviation DocumentId := (ResourceId DocumentK).
Abbreviation IndexId := (ResourceId IndexK).
Abbreviation OutboxEventId := (ResourceId OutboxEventK).
Abbreviation ScheduledInvocationId := (ResourceId ScheduledInvocationK).
Abbreviation OperationId := (ResourceId OperationK).
Abbreviation WorkerId := (ResourceId WorkerK).
Abbreviation SubscriptionId := (ResourceId SubscriptionK).

Inductive ParseResourceIdError : Type :=
| RID_UnexpectedPrefix (expected : bytes)
| RID_InvalidUlid.

Definition ParseResourceIdError_code (e : ParseResourceIdError) : bytes :=
  text match e with
  | RID_UnexpectedPrefix _ => "RESOURCE_ID_PREFIX_INVALID"
  | RID_InvalidUlid => "RESOURCE_ID_PAYLOAD_INVALID"
  end.

Section ids.
Context {UL : UlidLib}.

(** [impl Display]. *)
Definition id_to_string {k} (id : ResourceId k) : bytes := PREFIX k ++ ulid_to_string (as_ulid id).

(** [impl FromStr]. *)
Definition id_from_str (k : ResourceKind) (value : bytes)
  : result ParseResourceIdError (ResourceId k) :=
  let? payload := ok_or (RID_UnexpectedPrefix (PREFIX k)) (strip_prefix (PREFIX k) value) in
  let? ulid := ok_or RID_InvalidUlid (ulid_from_str payload) in
  if bool_decide (ulid_to_string ulid <> payload) then Err RID_InvalidUlid
  else Ok (from_ulid ulid).

(** The invariant of the wrapped 128-bit ULID. *)
Definition id_ok {k} (id : ResourceId k) : Prop := ulid_range (as_ulid id).
End ids.

(** ** Names *)

Definition MAX_WORKSPACE_REF_BYTES : Z := 100.
Definition MAX_CHANNEL_NAME_BYTES : Z := 63.
Definition FUNCTION_NAME_MAX_BYTES : Z := 128.

Inductive NameError : Type := NE_Empty | NE_TooLong | NE_InvalidCharacter | NE_EmptySegment.

Definition flat_char (c : byte) : bool :=
  is_ascii_lowercase c || is_ascii_digit c || bool_decide (c = x2d).

Definition validate_flat_name (value : bytes) (max_bytes : Z) : result NameError unit :=
  if bool_decide (value = []) then Err NE_Empty
  else if max_bytes <? len value then Err NE_TooLong
  else if negb (forallb flat_char value) then Err NE_InvalidCharacter
  else Ok tt.

(** [value.contains("//")]. *)
Fixpoint contains_double_slash (value : bytes) : bool :=
  match value with
  | a :: ((b :: _) as rest) =>
      (bool_decide (a = x2f) && bool_decide (b = x2f)) || contains_double_slash rest
  | _ => false
  end.

Definition validate_hierarchical_name (value : bytes) (max_bytes : Z) : result NameError unit :=
  if bool_decide (value = []) then Err NE_Empty
  else if max_bytes <? len value then Err NE_TooLong
  else if bool_decide (head value = Some x2f) || bool_decide (last value = Some x2f)
          || contains_double_slash value then Err NE_EmptySegment
  else if negb (forallb (fun c => flat_char c || bool_decide (c = x2f)) value)
  then Err NE_InvalidCharacter
  else Ok tt.

Inductive ParseWorkspaceRefError : Type :=
| WR_Empty | WR_TooLong | WR_InvalidCharacter | WR_EmptySegment.
Definition ParseWorkspaceRefError_from_name_error (error : NameError) : ParseWorkspaceRefError :=
  match error with
  | NE_Empty => WR_Empty
  | NE_TooLong => WR_TooLong
  | NE_InvalidCharacter => WR_InvalidCharacter
  | NE_EmptySegment => WR_EmptySegment
  end.

Inductive ParseChannelNameError : Type := CN_Empty | CN_TooLong | CN_InvalidCharacter.
Definition ParseChannelNameError_from_name_error (error : NameError) : ParseChannelNameError :=
  match error with
  | NE_Empty => CN_Empty
  | NE_TooLong => CN_TooLong
  | NE_InvalidCharacter | NE_EmptySegment => CN_InvalidCharacter
  end.

Record WorkspaceRef : Type := mkWorkspaceRef { workspace_str : bytes }.
Record ChannelName : Type := mkChannelName { channel_str : bytes }.
Record FunctionName : Type := mkFunctionName { function_str : bytes }.

#[export] Instance WorkspaceRef_eq_dec : EqDecision WorkspaceRef.
Proof. solve_decision. Defined.
#[export] Instance ChannelName_eq_dec : EqDecision ChannelName.
Proof. solve_decision. Defined.
#[export] Instance FunctionName_eq_dec : EqDecision FunctionName.
Proof. solve_decision. Defined.

Definition WorkspaceRef_from_str (value : bytes) : result ParseWorkspaceRefError WorkspaceRef :=
  let? _ := map_err ParseWorkspaceRefError_from_name_error
              (validate_hierarchical_name value MAX_WORKSPACE_REF_BYTES) in
  Ok (mkWorkspaceRef value).

Definition ChannelName_from_str (value : bytes) : result ParseChannelNameError ChannelName :=
  let? _ := map_err ParseChannelNameError_from_name_error
              (validate_flat_name value MAX_CHANNEL_NAME_BYTES) in
  Ok (mkChannelName value).

Inductive ParseFunctionNameError : Type := FN_Empty | FN_TooLong | FN_InvalidCharacter.

Definition function_char (b : byte) : bool :=
  is_ascii_alphanumeric b || bool_decide (b ∈ [x5f; x2d; x2e; x2f]).

Definition FunctionName_from_str (value : bytes) : result ParseFunctionNameError FunctionName :=
  if bool_decide (value = []) then Err FN_Empty
  else if FUNCTION_NAME_MAX_BYTES <? len value then Err FN_TooLong
  else match value with
  | [] => Err FN_Empty
  | first :: rest =>
      if negb (is_ascii_alphabetic first) || negb (forallb function_char rest)
      then Err FN_InvalidCharacter else Ok (mkFunctionName value)
  end.

(** ** Code targets *)

Inductive CodeTarget : Type :=
| CT_EnvironmentDefault
| CT_Release (id : ReleaseId)
| CT_Channel (name : ChannelName)
| CT_Workspace (ref : WorkspaceRef).

Inductive PinnedCode : Type :=
| PC_Release (id : ReleaseId)
| PC_DevRevision (id : DevRevisionId).

#[export] Instance CodeTarget_eq_dec : EqDecision CodeTarget.
Proof. solve_decision. Defined.
#[export] Instance PinnedCode_eq_dec : EqDecision PinnedCode.
Proof. solve_decision. Defined.

Inductive ParsePinnedCodeError : Type :=
| PCE_UnknownKind
| PCE_InvalidRelease (e : ParseResourceIdError)
| PCE_InvalidDevRevision (e : ParseResourceIdError).

Inductive ParseCodeTargetError : Type :=
| CTE_MissingKindSeparator
| CTE_UnknownKind
| CTE_InvalidEnvironment
| CTE_InvalidRelease (e : ParseResourceIdError)
| CTE_InvalidChannel (e : ParseChannelNameError)
| CTE_InvalidWorkspace (e : ParseWorkspaceRefError).

Definition CodeTarget_is_moving (t : CodeTarget) : bool :=
  match t with
  | CT_EnvironmentDefault | CT_Channel _ | CT_Workspace _ => true
  | CT_Release _ => false
  end.
Definition CodeTarget_is_workspace (t : CodeTarget) : bool :=
  match t with CT_Workspace _ => true | _ => false end.

Section targets.
Context {UL : UlidLib}.

Definition PinnedCode_to_string (p : PinnedCode) : bytes :=
  match p with
  | PC_Release value => text "release:" ++ id_to_string value
  | PC_DevRevision value => text "dev_revision:" ++ id_to_string value
  end.

Definition PinnedCode_from_str (value : bytes) : result ParsePinnedCodeError PinnedCode :=
  match strip_prefix (text "release:") value with
  | Some id => let? id := map_err PCE_InvalidRelease (id_from_str ReleaseK id) in
               Ok (PC_Release id)
  | None =>
    match strip_prefix (text "dev_revision:") value with
    | Some id => let? id := map_err PCE_InvalidDevRevision (id_from_str DevRevisionK id) in
                 Ok (PC_DevRevision id)
    | None => Err PCE_UnknownKind
    end
  end.

Definition CodeTarget_to_string (t : CodeTarget) : bytes :=
  match t with
  | CT_EnvironmentDefault => text "environment:default"
  | CT_Release release => text "release:" ++ id_to_string release
  | CT_Channel channel => text "channel:" ++ channel_str channel
  | CT_Workspace workspace => text "workspace:" ++ workspace_str workspace
  end.

Definition CodeTarget_from_str (value : bytes) : result ParseCodeTargetError CodeTarget :=
  let? (kind, reference) := ok_or CTE_MissingKindSeparator (split_once x3a value) in
  if decide (kind = text "environment") then
    if decide (reference = text "default") then Ok CT_EnvironmentDefault
    else Err CTE_InvalidEnvironment
  else if decide (kind = text "release") then
    let? id := map_err CTE_InvalidRelease (id_from_str ReleaseK reference) in Ok (CT_Release id)
  else if decide (kind = text "channel") then
    let? name := map_err CTE_InvalidChannel (ChannelName_from_str reference) in
    Ok (CT_Channel name)
  else if decide (kind = text "workspace") then
    let? ref := map_err CTE_InvalidWorkspace (WorkspaceRef_from_str reference) in
    Ok (CT_Workspace ref)
  else Err CTE_UnknownKind.
End targets.

(** ** Scopes and the environment policy *)

Record EnvironmentScope : Type :=
  mkScope { project_id : ProjectId; environment_id : EnvironmentId }.

#[export] Instance EnvironmentScope_eq_dec : EqDecision EnvironmentScope.
Proof. solve_decision. Defined.

Inductive EnvironmentPurpose : Type := EP_Development | EP_Preview | EP_Staging | EP_Production.
Inductive EnvironmentProtection : Type := PR_Open | PR_Protected | PR_Production.
Inductive EnvironmentLocation : Type := EL_Local | EL_Managed | EL_SelfHosted.

Record EnvironmentDescriptor : Type := mkEnvironmentDescriptor {
  ed_id : EnvironmentId;
  ed_purpose : EnvironmentPurpose;
  ed_protection : EnvironmentProtection;
  ed_location : EnvironmentLocation;
  ed_workspace_targets_enabled : bool
}.

Inductive EnvironmentPolicyError : Type := ProductionWorkspaceConfiguration.
Inductive TargetPolicyError : Type := WorkspaceNotAllowed | DevelopmentSyncNotAllowed.

Definition is_production_purpose (p : EnvironmentPurpose) : bool :=
  match p with EP_Production => true | _ => false end.
Definition is_production_protection (p : EnvironmentProtection) : bool :=
  match p with PR_Production => true | _ => false end.

Definition EnvironmentDescriptor_new (id : EnvironmentId) (purpose : EnvironmentPurpose)
  (protection : EnvironmentProtection) (location : EnvironmentLocation)
  (workspace_targets_enabled : bool) : result EnvironmentPolicyError EnvironmentDescriptor :=
  if workspace_targets_enabled
     && (is_production_purpose purpose || is_production_protection protection)
  then Err ProductionWorkspaceConfiguration
  else Ok (mkEnvironmentDescriptor id purpose protection location workspace_targets_enabled).

Definition local_development (id : EnvironmentId) : EnvironmentDescriptor :=
  mkEnvironmentDescriptor id EP_Development PR_Open EL_Local true.

Definition production (id : EnvironmentId) (location : EnvironmentLocation)
  : EnvironmentDescriptor :=
  mkEnvironmentDescriptor id EP_Production PR_Production location false.

Definition validate_target (d : EnvironmentDescriptor) (target : CodeTarget)
  : result TargetPolicyError unit :=
  if CodeTarget_is_workspace target && negb (ed_workspace_targets_enabled d)
  then Err WorkspaceNotAllowed else Ok tt.

Definition validate_development_sync (d : EnvironmentDescriptor) : result TargetPolicyError unit :=
  if negb (ed_workspace_targets_enabled d) || is_production_purpose (ed_purpose d)
     || is_production_protection (ed_protection d)
  then Err DevelopmentSyncNotAllowed else Ok tt.

(** ** Facts about identifiers and names *)

Lemma PREFIX_length k : length (PREFIX k) = 4%nat.
Proof. by destruct k. Qed.

Lemma PREFIX_inj k l : PREFIX k = PREFIX l -> k = l.
Proof. destruct k, l; (done || intros H; discriminate H). Qed.

Lemma PREFIX_ascii k : forallb is_ascii (PREFIX k) = true.
Proof. by destruct k. Qed.

Section id_facts.
Context {UL : UlidLib} {ULL : UlidLaws}.

Lemma id_from_str_Ok k s (id : ResourceId k) :
  id_from_str k s = Ok id <-> id_ok id /\ s = id_to_string id.
Proof.
  unfold id_from_str, id_ok, id_to_string. split.
  - intros H. apply rbind_Ok in H as (payload & ->%ok_or_Ok%strip_prefix_Some & H).
    apply rbind_Ok in H as (u & Hu%ok_or_Ok & H). case_bool_decide as Hc; [done|].
    injection H as <-. cbn [as_ulid]. subst payload. split; [by eapply ulid_from_str_range|done].
  - intros [Hid ->]. rewrite strip_prefix_app. cbn [ok_or rbind].
    rewrite ulid_round_trip by done. cbn [ok_or rbind].
    rewrite bool_decide_eq_false_2 by naive_solver. by destruct id.
Qed.

Lemma id_from_to_string {k} (id : ResourceId k) : id_ok id ->
  id_from_str k (id_to_string id) = Ok id.
Proof. intros. by apply id_from_str_Ok. Qed.

Lemma id_to_string_inj {k} (i j : ResourceId k) : id_ok i -> id_ok j ->
  id_to_string i = id_to_string j -> i = j.
Proof.
  intros Hi Hj E. apply id_from_to_string in Hi, Hj. rewrite E in Hi. congruence.
Qed.

Lemma id_to_string_kind {k l} (i : ResourceId k) (j : ResourceId l) :
  id_to_string i = id_to_string j -> k = l.
Proof.
  unfold id_to_string. intros E. apply PREFIX_inj.
  apply (f_equal (take 4)) in E.
  rewrite !take_app_length' in E by (by rewrite PREFIX_length). done.
Qed.

Lemma id_to_string_cmp {k} (i j : ResourceId k) : id_ok i -> id_ok j ->
  bytes_cmp (id_to_string i) (id_to_string j) = (as_ulid i ?= as_ulid j).
Proof. intros. unfold id_to_string. rewrite bytes_cmp_app. by apply ulid_to_string_cmp. Qed.

Lemma id_to_string_len {k} (i : ResourceId k) : id_ok i -> len (id_to_string i) = 30.
Proof.
  intros. unfold id_to_string. rewrite len_app. unfold len.
  rewrite PREFIX_length, ulid_to_string_len by done. done.
Qed.

Lemma id_to_string_ascii {k} (i : ResourceId k) : id_ok i ->
  forallb is_ascii (id_to_string i) = true.
Proof.
  intros. unfold id_to_string. by rewrite forallb_app, PREFIX_ascii, ulid_to_string_ascii.
Qed.
End id_facts.

(** A name in [1..max] bytes made of flat-name characters. *)
Definition channel_ok (c : ChannelName) : bool :=
  is_ok (validate_flat_name (channel_str c) MAX_CHANNEL_NAME_BYTES).
Definition workspace_ok (w : WorkspaceRef) : bool :=
  is_ok (validate_hierarchical_name (workspace_str w) MAX_WORKSPACE_REF_BYTES).
Definition function_ok (f : FunctionName) : bool := is_ok (FunctionName_from_str (function_str f)).

Lemma is_ok_tt {E} (r : result E unit) : is_ok r = true <-> r = Ok tt.
Proof. destruct r as [[]|]; naive_solver. Qed.

Lemma ChannelName_from_str_Ok s c : ChannelName_from_str s = Ok c <->
  channel_ok c = true /\ s = channel_str c.
Proof.
  unfold ChannelName_from_str, channel_ok. rewrite is_ok_tt. split.
  - intros H. apply rbind_Ok in H as ([] & Hv%map_err_Ok & [= <-]). done.
  - intros [H ->]. rewrite H. by destruct c.
Qed.

Lemma WorkspaceRef_from_str_Ok s w : WorkspaceRef_from_str s = Ok w <->
  workspace_ok w = true /\ s = workspace_str w.
Proof.
  unfold WorkspaceRef_from_str, workspace_ok. rewrite is_ok_tt. split.
  - intros H. apply rbind_Ok in H as ([] & Hv%map_err_Ok & [= <-]). done.
  - intros [H ->]. rewrite H. by destruct w.
Qed.

Lemma FunctionName_from_str_Ok s f : FunctionName_from_str s = Ok f <->
  function_ok f = true /\ s = function_str f.
Proof.
  assert (forall s f, FunctionName_from_str s = Ok f -> s = function_str f) as Hstr.
  { clear. intros s f. unfold FunctionName_from_str. case_bool_decide; [done|].
    destruct (_ <? _); [done|]. destruct s as [|b s]; [done|]. destruct (_ || _); [done|].
    by intros [= <-]. }
  unfold function_ok. split.
  - intros H. assert (H' := H). apply Hstr in H as ->. by rewrite H'.
  - intros [H ->]. destruct (FunctionName_from_str (function_str f)) as [g|] eqn:E; [|done].
    apply Hstr in E. destruct f, g; simpl in *. by subst.
Qed.

Section target_facts.
Context {UL : UlidLib} {ULL : UlidLaws}.

Definition pinned_ok (p : PinnedCode) : Prop :=
  match p with PC_Release id => id_ok id | PC_DevRevision id => id_ok id end.

Definition target_ok (t : CodeTarget) : Prop :=
  match t with
  | CT_EnvironmentDefault => True
  | CT_Release id => id_ok id
  | CT_Channel name => channel_ok name = true
  | CT_Workspace ref => workspace_ok ref = true
  end.

Lemma strip_prefix_other p q s : length q = length p -> p <> q -> strip_prefix p (q ++ s) = None.
Proof.
  intros Hl Hne. destruct (strip_prefix p (q ++ s)) as [r|] eqn:E; [|done].
  apply strip_prefix_Some in E. exfalso. apply Hne.
  apply (f_equal (take (length p))) in E. rewrite take_app_length in E.
  by rewrite <-Hl, take_app_length in E.
Qed.

Lemma PinnedCode_from_str_Ok s p : PinnedCode_from_str s = Ok p <->
  pinned_ok p /\ s = PinnedCode_to_string p.
Proof.
  unfold PinnedCode_from_str. split.
  - intros H. destruct (strip_prefix (text "release:") s) as [r|] eqn:E1.
    { apply strip_prefix_Some in E1 as ->.
      apply rbind_Ok in H as (id & [Hid ->]%map_err_Ok%id_from_str_Ok & [= <-]). done. }
    destruct (strip_prefix (text "dev_revision:") s) as [r|] eqn:E2; [|done].
    apply strip_prefix_Some in E2 as ->.
    apply rbind_Ok in H as (id & [Hid ->]%map_err_Ok%id_from_str_Ok & [= <-]). done.
  - intros [Hok ->]. destruct p as [id|id]; cbn [PinnedCode_to_string pinned_ok] in *.
    + rewrite strip_prefix_app. by rewrite id_from_to_string.
    + change (text "dev_revision:" ++ id_to_string id)
        with (text "dev_revi" ++ (text "sion:" ++ id_to_string id)).
      rewrite strip_prefix_other by done.
      change (text "dev_revi" ++ (text "sion:" ++ id_to_string id))
        with (text "dev_revision:" ++ id_to_string id).
      rewrite strip_prefix_app. by rewrite id_from_to_string.
Qed.

Lemma split_kind kind ref : forallb (fun b => negb (bool_decide (b = x3a))) kind = true ->
  split_once x3a (kind ++ x3a :: ref) = Some (kind, ref).
Proof.
  intros H. apply split_once_Some. split; [done|]. intros Hin%list_elem_of_In.
  rewrite forallb_forall in H. apply H in Hin. by rewrite bool_decide_eq_true_2 in Hin.
Qed.

Lemma CodeTarget_from_str_Ok s t : CodeTarget_from_str s = Ok t <->
  target_ok t /\ s = CodeTarget_to_string t.
Proof.
  unfold CodeTarget_from_str. split.
  - intros H. apply rbind_Ok in H as ([kind ref] & [-> _]%ok_or_Ok%split_once_Some & H).
    repeat case_decide; subst; try done.
    + by injection H as <-.
    + apply rbind_Ok in H as (id & [Hid ->]%map_err_Ok%id_from_str_Ok & [= <-]). done.
    + apply rbind_Ok in H as (c & [Hc ->]%map_err_Ok%ChannelName_from_str_Ok & [= <-]). done.
    + apply rbind_Ok in H as (w & [Hw ->]%map_err_Ok%WorkspaceRef_from_str_Ok & [= <-]). done.
  - intros [Hok ->]. destruct t as [|id|c|w]; cbn [target_ok] in Hok; [done|..].
    + change (CodeTarget_to_string (CT_Release id)) with (text "release" ++ x3a :: id_to_string id).
      rewrite split_kind by done. cbn [ok_or rbind].
      rewrite decide_False, decide_True by done. by rewrite id_from_to_string.
    + change (CodeTarget_to_string (CT_Channel c)) with (text "channel" ++ x3a :: channel_str c).
      rewrite split_kind by done. cbn [ok_or rbind].
      rewrite !decide_False, decide_True by done.
      by rewrite (proj2 (ChannelName_from_str_Ok _ c)).
    + change (CodeTarget_to_string (CT_Workspace w))
        with (text "workspace" ++ x3a :: workspace_str w).
      rewrite split_kind by done. cbn [ok_or rbind].
      rewrite !decide_False, decide_True by done.
      by rewrite (proj2 (WorkspaceRef_from_str_Ok _ w)).
Qed.
End target_facts.

(** ** Properties *)

(** A text parses as an identifier of kind [k] exactly when it is the canonical rendering of
    an in-range identifier of that kind; rendering is injective across all kinds, so one text never
    names two resources, and identifiers of a kind sort as text in the order of their ULIDs. *)
Theorem resource_id_canonical {UL : UlidLib} {ULL : UlidLaws} (k : ResourceKind) :
  (forall s (id : ResourceId k), id_from_str k s = Ok id <-> id_ok id /\ s = id_to_string id)
  /\ (forall s l (i : ResourceId k) (j : ResourceId l),
        id_from_str k s = Ok i -> id_from_str l s = Ok j -> k = l /\ as_ulid i = as_ulid j)
  /\ (forall i j : ResourceId k, id_ok i -> id_ok j ->
        bytes_cmp (id_to_string i) (id_to_string j) = (as_ulid i ?= as_ulid j)).
Proof.
  split; [intros; apply id_from_str_Ok|]. split; [|intros; by apply id_to_string_cmp].
  intros s l i j [Hi ->]%id_from_str_Ok [Hj E]%id_from_str_Ok.
  assert (k = l) as <- by (by apply id_to_string_kind in E). split; [done|]. f_equal.
  by apply id_to_string_inj.
Qed.

Lemma resource_id_canonical_witness :
  id_from_str DocumentK (text "doc_01ARZ3NDEKTSV4RRFFQ69G5FAV")
  = Ok (from_ulid 1777027686520646174104517696511196507)
  /\ text "doc_01ARZ3NDEKTSV4RRFFQ69G5FAV"
     = id_to_string (from_ulid (k := DocumentK) 1777027686520646174104517696511196507).
Proof.
  assert (id_from_str DocumentK (text "doc_01ARZ3NDEKTSV4RRFFQ69G5FAV")
          = Ok (from_ulid 1777027686520646174104517696511196507)) as H
    by (vm_compute; reflexivity).
  split; [exact H|]. apply (resource_id_canonical DocumentK). exact H.
Defined.

(** A text parses as a code target exactly when it is the rendering of a well-formed target,
    and likewise for pinned code: both wire forms round-trip and have one spelling per value. *)
Theorem code_target_canonical {UL : UlidLib} {ULL : UlidLaws} (s : bytes) :
  (forall t, CodeTarget_from_str s = Ok t <-> target_ok t /\ s = CodeTarget_to_string t)
  /\ (forall p, PinnedCode_from_str s = Ok p <-> pinned_ok p /\ s = PinnedCode_to_string p).
Proof. split; intros; [apply CodeTarget_from_str_Ok|apply PinnedCode_from_str_Ok]. Qed.

Lemma code_target_canonical_witness :
  CodeTarget_from_str (text "workspace:dev/manuel/bug-241")
  = Ok (CT_Workspace (mkWorkspaceRef (text "dev/manuel/bug-241"))).
Proof.
  apply (code_target_canonical (text "workspace:dev/manuel/bug-241")).
  split; vm_compute; reflexivity.
Defined.

(** A descriptor built by [EnvironmentDescriptor::new] that is production by purpose or by
    protection rejects every Workspace target and development sync; in general its policy admits
    development sync exactly when it admits Workspace targets, and Release, Channel and default
    targets are always admitted. *)
Theorem environment_policy id purpose protection location enabled d :
  EnvironmentDescriptor_new id purpose protection location enabled = Ok d ->
  (is_production_purpose purpose || is_production_protection protection = true ->
     validate_development_sync d = Err DevelopmentSyncNotAllowed
     /\ forall w, validate_target d (CT_Workspace w) = Err WorkspaceNotAllowed)
  /\ (validate_development_sync d = Ok tt <->
       forall t, validate_target d t = Ok tt)
  /\ (forall t, CodeTarget_is_workspace t = false -> validate_target d t = Ok tt).
Proof.
  unfold EnvironmentDescriptor_new.
  destruct enabled, purpose, protection; simpl; intros [= <-]; unfold validate_target; simpl;
    (split; [done|]); (split; [|by intros [] ?]); (split; [by intros ? []|]); try done;
    intros H; by specialize (H (CT_Workspace (mkWorkspaceRef []))).
Qed.

Lemma environment_policy_witness :
  validate_development_sync (production (from_ulid 1) EL_Managed) = Err DevelopmentSyncNotAllowed.
Proof.
  apply (environment_policy (from_ulid 1) EP_Production PR_Production EL_Managed false); reflexivity.
Defined.
