(* ===== verification/Schema.v ===== *)
(** * Schema catalogs: [crates/runku-schema/src/lib.rs]

    Index definitions, the canonical catalog of a Project's indexes with its text encoding and
    digest, and the extraction of an index key from a document.  The digest is the SHA-256 of the
    encoding; the hash function is an argument.  The decoder's cursor is the rest of the input, so
    its offset additions cannot overflow. *)

From Stdlib Require Import Strings.Byte ZArith Lia.
From stdpp Require Import prelude strings gmap sorting list.
From S2P Require Import Prelude BTreeMap Order Codec Ulid Value IndexKey Core.

Definition CATALOG_RESOURCE_MAGIC : bytes :=
  Eval cbv in text "RUNKU_INDEX_CATALOG_RESOURCE_V1" ++ [x0a].
Definition CATALOG_RESOURCE_MAX_BYTES : Z := 1024 * 1024.
Definition MAX_INDEXES : Z := 1000.
Definition MAX_FIELDS : Z := 16.
Definition MAX_PATH_SEGMENTS : Z := 16.
Definition MAX_NAME_BYTES : Z := 64.

Inductive SchemaError : Type :=
| CE_InvalidCatalog | CE_InvalidName | CE_LimitExceeded | CE_UnsupportedValue.

#[export] Instance SchemaError_eq_dec : EqDecision SchemaError.
Proof. solve_decision. Defined.

Definition SchemaError_code (e : SchemaError) : bytes :=
  text match e with
  | CE_InvalidCatalog => "SCHEMA_CATALOG_INVALID"
  | CE_InvalidName => "SCHEMA_NAME_INVALID"
  | CE_LimitExceeded => "SCHEMA_LIMIT_EXCEEDED"
  | CE_UnsupportedValue => "INDEX_VALUE_UNSUPPORTED"
  end.

(** ** Definitions *)

Definition valid_name (value : bytes) : bool :=
  match value with
  | [] => false
  | first :: rest =>
      (len value <=? MAX_NAME_BYTES)
      && (is_ascii_alphabetic first || bool_decide (first = x5f))
      && forallb (fun b => is_ascii_alphanumeric b || bool_decide (b = x5f)) rest
  end.

Record FieldPath : Type := mkFieldPath { segments : list bytes }.
#[export] Instance FieldPath_eq_dec : EqDecision FieldPath.
Proof. solve_decision. Defined.

Definition FieldPath_new (segments : list bytes) : result SchemaError FieldPath :=
  if bool_decide (segments = []) || (MAX_PATH_SEGMENTS <? len segments) then Err CE_LimitExceeded
  else if existsb (fun s => negb (valid_name s)) segments then Err CE_InvalidName
  else Ok (mkFieldPath segments).

Record IndexDefinition : Type := mkIndexDefinition {
  def_index_id : IndexId;
  def_table_id : TableId;
  def_name : bytes;
  def_fields : list FieldPath
}.
#[export] Instance IndexDefinition_eq_dec : EqDecision IndexDefinition.
Proof. solve_decision. Defined.

(** [collect::<BTreeSet<_>>()] keeps one copy of each path. *)
Definition IndexDefinition_new (index_id : IndexId) (table_id : TableId) (name : bytes)
  (fields : list FieldPath) : result SchemaError IndexDefinition :=
  if negb (valid_name name) then Err CE_InvalidName
  else if bool_decide (fields = []) || (MAX_FIELDS <? len fields) then Err CE_LimitExceeded
  else if negb (len (remove_dups fields) =? len fields) then Err CE_InvalidCatalog
  else Ok (mkIndexDefinition index_id table_id name fields).

Record SchemaCatalog : Type := mkSchemaCatalog {
  cat_project_id : ProjectId;
  cat_indexes : list IndexDefinition;
  cat_by_table : gmap TableId (list nat);
  cat_digest : bytes
}.

(** ** Encoding *)

(** [format!("{count:08x}")] of a [u32]: its eight hexadecimal digits. *)
Definition hex_digit (d : Z) : byte := zb (if d <? 10 then 48 + d else 87 + d).
Fixpoint hex_digits (n : nat) (z : Z) : bytes :=
  match n with
  | O => []
  | S n => hex_digit (z / 16 ^ Z.of_nat n mod 16) :: hex_digits n z
  end.

Definition push_count (output : bytes) (count : Z) : result SchemaError bytes :=
  let? count := ok_or CE_LimitExceeded (try_from_u u32_max count) in
  Ok (output ++ hex_digits 8 count).

Definition push_text (output value : bytes) : result SchemaError bytes :=
  let? output := push_count output (len value) in
  let output := output ++ value in
  if CATALOG_RESOURCE_MAX_BYTES <? len output then Err CE_LimitExceeded else Ok output.

Section catalog.
Context {UL : UlidLib}.

(** The bodies of the loops of [encode_schema_catalog]. *)
Definition push_path (output : bytes) (path : FieldPath) : result SchemaError bytes :=
  let? output := push_count output (len (segments path)) in
  try_fold push_text output (segments path).

Definition push_definition (output : bytes) (index : IndexDefinition) : result SchemaError bytes :=
  let? output := push_text output (id_to_string (def_index_id index)) in
  let? output := push_text output (id_to_string (def_table_id index)) in
  let? output := push_text output (def_name index) in
  let? output := push_count output (len (def_fields index)) in
  try_fold push_path output (def_fields index).

Definition encode_schema_catalog (catalog : SchemaCatalog) : result SchemaError bytes :=
  let? output := push_text CATALOG_RESOURCE_MAGIC (id_to_string (cat_project_id catalog)) in
  let? output := push_count output (len (cat_indexes catalog)) in
  let? output := try_fold push_definition output (cat_indexes catalog) in
  if CATALOG_RESOURCE_MAX_BYTES <? len output then Err CE_LimitExceeded else Ok output.

(** ** Construction *)

(** [ids], [names] and [by_table] of the loop of [SchemaCatalog::new]. *)
Definition catalog_step
  (st : (list IndexId * list (TableId * bytes)) * gmap TableId (list nat))
  (entry : nat * IndexDefinition)
  : result SchemaError ((list IndexId * list (TableId * bytes)) * gmap TableId (list nat)) :=
  let '((ids, names), by_table) := st in
  let '(position, index) := entry in
  let? ids := ok_or CE_InvalidCatalog (set_insert (def_index_id index) ids) in
  let? names := ok_or CE_InvalidCatalog (set_insert (def_table_id index, def_name index) names) in
  Ok ((ids, names),
      <[def_table_id index := default [] (by_table !! def_table_id index) ++ [position]]> by_table).

(** [IndexId::cmp]: the derived order of the wrapped ULID. *)
Definition by_index_id : IndexDefinition -> IndexDefinition -> comparison :=
  cmp_on (fun d => as_ulid (def_index_id d)) Z.compare.

Definition SchemaCatalog_new (sha256 : bytes -> bytes) (project_id : ProjectId)
  (indexes : list IndexDefinition) : result SchemaError SchemaCatalog :=
  if MAX_INDEXES <? len indexes then Err CE_LimitExceeded else
  let indexes := order_by by_index_id indexes in
  let? (_, by_table) := try_fold catalog_step (([], []), ∅) (enumerate indexes) in
  let? encoded := encode_schema_catalog (mkSchemaCatalog project_id indexes by_table []) in
  Ok (mkSchemaCatalog project_id indexes by_table (sha256 encoded)).

(** [indexes_for_table]: the positions recorded for the table, each within [indexes]. *)
Definition indexes_for_table (catalog : SchemaCatalog) (table_id : TableId) : list IndexDefinition :=
  omap (fun position => cat_indexes catalog !! position)
    (default [] (cat_by_table catalog !! table_id)).

(** ** Decoding *)

Definition is_lower_hex (b : byte) : bool := is_ascii_digit b || in_range 97 102 b.
Definition hex_digit_value (b : byte) : Z := if is_ascii_digit b then bz b - 48 else bz b - 87.

(** [u32::from_str_radix(raw, 16)] on lower-case hexadecimal digits; eight of them always fit. *)
Fixpoint from_hex (acc : Z) (raw : bytes) : Z :=
  match raw with
  | [] => acc
  | b :: raw => from_hex (16 * acc + hex_digit_value b) raw
  end.

(** [self.bytes.get(offset..offset + n)]. *)
Definition catalog_take (n : Z) (c : bytes) : result SchemaError (bytes * bytes) :=
  take_exact CE_InvalidCatalog n c.

Definition cursor_count (c : bytes) : result SchemaError (Z * bytes) :=
  let? (raw, c) := catalog_take 8 c in
  let? raw := ok_or CE_InvalidCatalog (from_utf8 raw) in
  if negb (forallb is_lower_hex raw) then Err CE_InvalidCatalog else Ok (from_hex 0 raw, c).

Definition cursor_text (c : bytes) : result SchemaError (bytes * bytes) :=
  let? (length, c) := cursor_count c in
  let? (value, c) := catalog_take length c in
  let? value := ok_or CE_InvalidCatalog (from_utf8 value) in
  Ok (value, c).

(** [cursor.text()?.parse()] of an identifier. *)
Definition cursor_id (k : ResourceKind) (c : bytes) : result SchemaError (ResourceId k * bytes) :=
  let? (value, c) := cursor_text c in
  let? id := map_err (fun _ => CE_InvalidCatalog) (id_from_str k value) in
  Ok (id, c).

Definition decode_path (c : bytes) : result SchemaError (FieldPath * bytes) :=
  let? (segment_count, c) := cursor_count c in
  if MAX_PATH_SEGMENTS <? segment_count then Err CE_LimitExceeded else
  let? (segments, c) := decode_times cursor_text (Z.to_nat segment_count) c in
  let? path := FieldPath_new segments in
  Ok (path, c).

Definition decode_definition (c : bytes) : result SchemaError (IndexDefinition * bytes) :=
  let? (index_id, c) := cursor_id IndexK c in
  let? (table_id, c) := cursor_id TableK c in
  let? (name, c) := cursor_text c in
  let? (field_count, c) := cursor_count c in
  if MAX_FIELDS <? field_count then Err CE_LimitExceeded else
  let? (fields, c) := decode_times decode_path (Z.to_nat field_count) c in
  let? definition := IndexDefinition_new index_id table_id name fields in
  Ok (definition, c).

Definition decode_schema_catalog (sha256 : bytes -> bytes) (input : bytes)
  : result SchemaError SchemaCatalog :=
  if CATALOG_RESOURCE_MAX_BYTES <? len input then Err CE_InvalidCatalog else
  let? c := ok_or CE_InvalidCatalog (strip_prefix CATALOG_RESOURCE_MAGIC input) in
  let? (project_id, c) := cursor_id ProjectK c in
  let? (count, c) := cursor_count c in
  if MAX_INDEXES <? count then Err CE_LimitExceeded else
  let? (indexes, c) := decode_times decode_definition (Z.to_nat count) c in
  if negb (bool_decide (c = [])) then Err CE_InvalidCatalog else
  let? catalog := SchemaCatalog_new sha256 project_id indexes in
  let? canonical := encode_schema_catalog catalog in
  if bool_decide (canonical <> input) then Err CE_InvalidCatalog else Ok catalog.

(** ** Index keys of documents *)

(** The loop of [resolve]. *)
Fixpoint resolve (current : CanonicalValue) (path : list bytes)
  : result SchemaError (option CanonicalValue) :=
  match path with
  | [] => Ok (Some current)
  | segment :: path =>
      match current with
      | CV_Object object =>
          match btree_get segment object with
          | None => Ok None
          | Some next => resolve next path
          end
      | _ => Err CE_UnsupportedValue
      end
  end.

(** The loop over the fields: [None] is the early return [Ok(None)]. *)
Fixpoint extract_values (fields : list FieldPath) (document : CanonicalValue)
  : result SchemaError (option (list IndexValue)) :=
  match fields with
  | [] => Ok (Some [])
  | path :: fields =>
      let? value := resolve document (segments path) in
      match value with
      | None => Ok None
      | Some value =>
          let? value := map_err (fun _ => CE_UnsupportedValue) (IndexValue_try_from value) in
          let? values := extract_values fields document in
          Ok (values ← values; Some (value :: values))
      end
  end.

Definition extract_index_key (definition : IndexDefinition) (document : CanonicalValue)
  : result SchemaError (option IndexKey) :=
  let? values := extract_values (def_fields definition) document in
  match values with
  | None => Ok None
  | Some values =>
      let? key := map_err (fun _ => CE_LimitExceeded) (IndexKey_encode values) in
      Ok (Some key)
  end.
End catalog.

(** ** Hexadecimal counts *)

Lemma hex_digit_ok d : 0 <= d < 16 ->
  is_lower_hex (hex_digit d) = true /\ hex_digit_value (hex_digit d) = d.
Proof.
  intros Hd. assert (forallb (fun n => is_lower_hex (hex_digit (Z.of_nat n))
    && (hex_digit_value (hex_digit (Z.of_nat n)) =? Z.of_nat n)) (seq 0 16) = true) as H by done.
  rewrite forallb_forall in H. specialize (H (Z.to_nat d)).
  rewrite Z2Nat.id in H by lia. rewrite in_seq in H. specialize (H ltac:(lia)). by bool_facts.
Qed.

Lemma hex_digit_mod z :
  is_lower_hex (hex_digit (z mod 16)) = true /\ hex_digit_value (hex_digit (z mod 16)) = z mod 16.
Proof. apply hex_digit_ok, Z.mod_pos_bound. done. Qed.

Lemma hex_digit_value_range b : is_lower_hex b = true -> 0 <= hex_digit_value b < 16.
Proof.
  unfold is_lower_hex, hex_digit_value, is_ascii_digit, in_range.
  destruct ((48 <=? bz b) && (bz b <=? 57)) eqn:E; intros H; bool_facts; [lia|].
  cbn [orb] in H. bool_facts. lia.
Qed.

Lemma hex_digit_value_inj b c : is_lower_hex b = true -> is_lower_hex c = true ->
  hex_digit_value b = hex_digit_value c -> b = c.
Proof.
  unfold is_lower_hex, hex_digit_value, is_ascii_digit, in_range. intros Hb Hc E. apply bz_inj.
  destruct ((48 <=? bz b) && (bz b <=? 57)) eqn:Eb, ((48 <=? bz c) && (bz c <=? 57)) eqn:Ec;
    cbn [orb] in *; bool_facts; lia.
Qed.

Lemma from_hex_acc acc raw : from_hex acc raw = acc * 16 ^ len raw + from_hex 0 raw.
Proof.
  revert acc; induction raw as [|b raw IH]; intros acc; cbn [from_hex]; [rewrite len_nil; lia|].
  rewrite IH, (IH (16 * 0 + _)), len_cons, Z.pow_add_r by auto with runku. lia.
Qed.

Lemma from_hex_range raw : forallb is_lower_hex raw = true -> 0 <= from_hex 0 raw < 16 ^ len raw.
Proof.
  induction raw as [|b raw IH]; cbn [forallb from_hex]; [done|]. intros [Hb Hr]%andb_true_iff.
  rewrite from_hex_acc, len_cons, Z.pow_add_r by auto with runku.
  pose proof (hex_digit_value_range b Hb). specialize (IH Hr).
  assert (0 < 16 ^ len raw) by (apply Z.pow_pos_nonneg; auto with runku). nia.
Qed.

Lemma from_hex_inj raw raw' : length raw = length raw' ->
  forallb is_lower_hex raw = true -> forallb is_lower_hex raw' = true ->
  from_hex 0 raw = from_hex 0 raw' -> raw = raw'.
Proof.
  revert raw'; induction raw as [|b raw IH]; intros [|c raw'] Hl; try done.
  cbn [forallb from_hex]. intros [Hb Hr]%andb_true_iff [Hc Hr']%andb_true_iff.
  rewrite (from_hex_acc _ raw), (from_hex_acc _ raw').
  injection Hl as Hl. unfold len. rewrite Hl.
  pose proof (from_hex_range raw Hr) as R. pose proof (from_hex_range raw' Hr') as R'.
  unfold len in R, R'. rewrite Hl in R. intros E.
  assert (hex_digit_value b = hex_digit_value c) as Ev by nia.
  rewrite (hex_digit_value_inj b c) by done. f_equal. apply IH; [done..|]. rewrite Ev in E. lia.
Qed.

Lemma hex_digits_length n z : length (hex_digits n z) = n.
Proof. induction n; cbn; auto. Qed.

Lemma hex_digits_hex n z : forallb is_lower_hex (hex_digits n z) = true.
Proof.
  induction n as [|n IH]; [done|]. cbn [hex_digits forallb]. rewrite IH.
  by rewrite (proj1 (hex_digit_mod _)).
Qed.

Lemma from_hex_digits_mod n z : from_hex 0 (hex_digits n z) = z mod 16 ^ Z.of_nat n.
Proof.
  induction n as [|n IH]; [by rewrite Z.mod_1_r|]. cbn [hex_digits from_hex].
  rewrite from_hex_acc, IH. unfold len. rewrite hex_digits_length.
  rewrite (proj2 (hex_digit_mod _)).
  rewrite Nat2Z.inj_succ, <- Z.add_1_r, Z.pow_add_r, Z.pow_1_r by lia.
  assert (0 < 16 ^ Z.of_nat n) by (apply Z.pow_pos_nonneg; lia).
  rewrite Z.rem_mul_r by lia. lia.
Qed.

Lemma hex_digits_from_hex raw : forallb is_lower_hex raw = true ->
  hex_digits (length raw) (from_hex 0 raw) = raw.
Proof.
  intros H. apply from_hex_inj; [apply hex_digits_length|apply hex_digits_hex|done|].
  rewrite from_hex_digits_mod. apply Z.mod_small. by apply from_hex_range.
Qed.

Lemma lower_hex_ascii raw : forallb is_lower_hex raw = true -> forallb is_ascii raw = true.
Proof.
  rewrite !forallb_forall. intros H b Hb. specialize (H b Hb).
  unfold is_lower_hex, is_ascii_digit, is_ascii, in_range in *.
  apply orb_true_iff in H as [H|H]; bool_facts; apply Z.ltb_lt; lia.
Qed.

(** ** The encoding without its limits *)

Definition enc_count (n : Z) : bytes := hex_digits 8 n.
Definition enc_text (s : bytes) : bytes := enc_count (len s) ++ s.
Definition enc_list {A} (enc : A -> bytes) (l : list A) : bytes :=
  enc_count (len l) ++ concat (map enc l).
Definition enc_path (path : FieldPath) : bytes := enc_list enc_text (segments path).

(** A step that appends [enc x] as long as the output stays within the size limit. *)
Definition writes {A} (push : bytes -> A -> result SchemaError bytes) (enc : A -> bytes) : Prop :=
  forall o x, (forall o', push o x = Ok o' -> o' = o ++ enc x)
    /\ (len (o ++ enc x) <= CATALOG_RESOURCE_MAX_BYTES -> push o x = Ok (o ++ enc x)).

Lemma push_count_Ok o n o' : push_count o n = Ok o' <-> o' = o ++ enc_count n /\ 0 <= n <= u32_max.
Proof.
  unfold push_count. rewrite rbind_Ok. setoid_rewrite ok_or_Ok. setoid_rewrite try_from_u_Some.
  unfold enc_count. naive_solver.
Qed.

Lemma push_count_eq o n : 0 <= n <= u32_max -> push_count o n = Ok (o ++ enc_count n).
Proof. intros. by apply push_count_Ok. Qed.

Lemma len_enc_count n : len (enc_count n) = 8.
Proof. unfold len, enc_count. by rewrite hex_digits_length. Qed.

Lemma small_count n : 0 <= n <= CATALOG_RESOURCE_MAX_BYTES -> 0 <= n <= u32_max.
Proof. unfold CATALOG_RESOURCE_MAX_BYTES, u32_max. lia. Qed.

Lemma writes_text : writes push_text enc_text.
Proof.
  intros o x. unfold push_text, enc_text. split.
  - intros o' H. invert_ok. apply push_count_Ok in Hok as [-> _]. bool_facts. by rewrite <- app_assoc.
  - rewrite !len_app, len_enc_count. intros H. pose proof (len_nonneg o). pose proof (len_nonneg x).
    rewrite push_count_eq by (apply small_count; lia).
    cbn [rbind]. rewrite !len_app, len_enc_count.
    destruct (Z.ltb_spec CATALOG_RESOURCE_MAX_BYTES (len o + 8 + len x)); [lia|].
    by rewrite app_assoc.
Qed.

Lemma writes_fold {A} (push : bytes -> A -> result SchemaError bytes) enc :
  writes push enc -> writes (try_fold push) (fun l => concat (map enc l)).
Proof.
  intros Hw o l. revert o; induction l as [|x l IH]; intros o; cbn [try_fold map concat].
  { split; [intros o' [= <-]|intros _]; by rewrite app_nil_r. }
  destruct (Hw o x) as [W1 W2]. destruct (IH (o ++ enc x)) as [I1 I2]. split.
  - intros o' (o1 & H1 & H2)%rbind_Ok. apply W1 in H1 as ->. rewrite app_assoc. by apply I1.
  - rewrite app_assoc. intros H. rewrite W2.
    + cbn [rbind]. by apply I2.
    + rewrite len_app in H. pose proof (len_nonneg (concat (map enc l))). lia.
Qed.

Lemma concat_map_len {A} (enc : A -> bytes) l : (forall x, 1 <= len (enc x)) ->
  len l <= len (concat (map enc l)).
Proof.
  intros H. induction l as [|x l IH]; [done|]. cbn [map concat]. rewrite len_cons, len_app.
  specialize (H x). lia.
Qed.

Lemma writes_list {A} (push : bytes -> A -> result SchemaError bytes) enc :
  writes push enc -> (forall x, 1 <= len (enc x)) ->
  writes (fun o l => let? o := push_count o (len l) in try_fold push o l) (enc_list enc).
Proof.
  intros Hw Hpos o l. unfold enc_list. split.
  - intros o' (o1 & (-> & _)%push_count_Ok & H2)%rbind_Ok.
    apply (writes_fold _ _ Hw) in H2 as ->. by rewrite app_assoc.
  - rewrite app_assoc. intros H. pose proof (concat_map_len enc l Hpos). pose proof (len_nonneg o).
    pose proof (len_nonneg l). rewrite push_count_eq.
    + cbn [rbind]. by apply (writes_fold _ _ Hw).
    + apply small_count. rewrite !len_app, len_enc_count in H. lia.
Qed.

Lemma enc_text_pos s : 1 <= len (enc_text s).
Proof. unfold enc_text. rewrite len_app, len_enc_count. pose proof (len_nonneg s). lia. Qed.
Lemma enc_list_pos {A} (enc : A -> bytes) l : 1 <= len (enc_list enc l).
Proof.
  unfold enc_list. rewrite len_app, len_enc_count. pose proof (len_nonneg (concat (map enc l))). lia.
Qed.

Lemma writes_path : writes push_path enc_path.
Proof. intros o p. apply (writes_list push_text enc_text writes_text enc_text_pos o (segments p)). Qed.

Section encoding.
Context {UL : UlidLib}.

Definition enc_definition (d : IndexDefinition) : bytes :=
  enc_text (id_to_string (def_index_id d)) ++ enc_text (id_to_string (def_table_id d))
  ++ enc_text (def_name d) ++ enc_list enc_path (def_fields d).

Definition enc_catalog (project : ProjectId) (indexes : list IndexDefinition) : bytes :=
  CATALOG_RESOURCE_MAGIC ++ enc_text (id_to_string project) ++ enc_list enc_definition indexes.

Lemma writes_definition : writes push_definition enc_definition.
Proof.
  intros o d. unfold push_definition, enc_definition.
  pose proof (writes_list push_path enc_path writes_path (fun p => enc_list_pos _ _)) as Wl. split.
  - intros o' (o1 & H1 & (o2 & H2 & (o3 & H3 & H4)%rbind_Ok)%rbind_Ok)%rbind_Ok.
    apply writes_text in H1 as ->. apply writes_text in H2 as ->. apply writes_text in H3 as ->.
    apply Wl in H4 as ->. by rewrite <- !app_assoc.
  - rewrite !app_assoc, len_app. intros H. pose proof (enc_list_pos enc_path (def_fields d)).
    pose proof (enc_text_pos (def_name d)). pose proof (enc_text_pos (id_to_string (def_table_id d))).
    rewrite (proj2 (writes_text _ _)) by (rewrite !len_app in *; lia). cbn [rbind].
    rewrite (proj2 (writes_text _ _)) by (rewrite !len_app in *; lia). cbn [rbind].
    rewrite (proj2 (writes_text _ _)) by (rewrite !len_app in *; lia). cbn [rbind].
    apply Wl. by rewrite len_app.
Qed.

Lemma enc_definition_pos d : 1 <= len (enc_definition d).
Proof.
  unfold enc_definition. rewrite len_app. pose proof (enc_text_pos (id_to_string (def_index_id d))).
  auto with runku. pose proof (len_nonneg (enc_text (id_to_string (def_table_id d)) ++
    enc_text (def_name d) ++ enc_list enc_path (def_fields d))). lia.
Qed.

(** The encoder produces the plain encoding exactly when it is within the size limit. *)
Lemma encode_schema_catalog_Ok c w : encode_schema_catalog c = Ok w <->
  w = enc_catalog (cat_project_id c) (cat_indexes c) /\ len w <= CATALOG_RESOURCE_MAX_BYTES.
Proof.
  unfold encode_schema_catalog, enc_catalog.
  pose proof (writes_list push_definition enc_definition writes_definition enc_definition_pos) as Wl.
  rewrite rbind_Ok. split.
  - intros (o1 & H1 & H2). apply writes_text in H1 as ->. apply rbind_Ok in H2 as (o2 & H2 & H3).
    apply rbind_Ok in H3 as (o3 & H3 & H4).
    assert (o3 = (CATALOG_RESOURCE_MAGIC ++ enc_text (id_to_string (cat_project_id c)))
      ++ enc_list enc_definition (cat_indexes c)) as -> by (apply Wl; rewrite H2; done).
    destruct (Z.ltb_spec CATALOG_RESOURCE_MAX_BYTES (len ((CATALOG_RESOURCE_MAGIC
      ++ enc_text (id_to_string (cat_project_id c))) ++ enc_list enc_definition (cat_indexes c))));
      simplify_eq. split; [by rewrite !app_assoc|done].
  - intros [-> H]. rewrite app_assoc in *. pose proof H as H'. rewrite len_app in H'.
    pose proof (enc_list_pos enc_definition (cat_indexes c)).
    eexists. split; [apply writes_text; lia|].
    apply (proj2 (Wl _ _)) in H as Hl. apply rbind_Ok in Hl as (o2 & H2 & H3). rewrite H2. cbn [rbind].
    rewrite H3. cbn [rbind]. by destruct (Z.ltb_spec CATALOG_RESOURCE_MAX_BYTES (len ((CATALOG_RESOURCE_MAGIC
      ++ enc_text (id_to_string (cat_project_id c))) ++ enc_list enc_definition (cat_indexes c)))); [lia|].
Qed.
End encoding.

(** ** What the constructors admit *)

Definition path_ok (path : FieldPath) : Prop :=
  segments path <> [] /\ len (segments path) <= MAX_PATH_SEGMENTS
  /\ forallb valid_name (segments path) = true.

Definition definition_ok (d : IndexDefinition) : Prop :=
  id_ok (def_index_id d) /\ id_ok (def_table_id d) /\ valid_name (def_name d) = true
  /\ def_fields d <> [] /\ len (def_fields d) <= MAX_FIELDS /\ NoDup (def_fields d)
  /\ Forall path_ok (def_fields d).

Lemma existsb_negb {A} (f : A -> bool) l : existsb (fun x => negb (f x)) l = negb (forallb f l).
Proof. induction l as [|x l IH]; [done|]. cbn. rewrite IH. by destruct (f x). Qed.

Lemma FieldPath_new_Ok s p : FieldPath_new s = Ok p <-> segments p = s /\ path_ok p.
Proof.
  unfold FieldPath_new, path_ok. rewrite existsb_negb. split.
  - intros H. invert_ok. bool_facts. by rewrite Heqb0.
  - destruct p as [s']; cbn. intros (<- & Hn & Hl & Hv). rewrite Hv, bool_decide_false by done.
    by destruct (Z.ltb_spec MAX_PATH_SEGMENTS (len s')); [lia|].
Qed.

Lemma remove_dups_length {A} `{EqDecision A} (l : list A) :
  len (remove_dups l) = len l <-> NoDup l.
Proof.
  unfold len. split.
  - intros Hl%Nat2Z.inj. assert (remove_dups l ≡ₚ l) as <-; [|apply NoDup_remove_dups].
    apply submseteq_length_Permutation; [|lia].
    apply NoDup_submseteq; [apply NoDup_remove_dups|]. intros x. by rewrite elem_of_remove_dups.
  - intros Hn. f_equal. apply Permutation_length.
    apply NoDup_Permutation; [apply NoDup_remove_dups|done|]. apply elem_of_remove_dups.
Qed.

Lemma IndexDefinition_new_Ok i t n f d : IndexDefinition_new i t n f = Ok d <->
  d = mkIndexDefinition i t n f /\ valid_name n = true /\ f <> [] /\ len f <= MAX_FIELDS /\ NoDup f.
Proof.
  unfold IndexDefinition_new. rewrite <- remove_dups_length. split.
  - intros H. invert_ok. by bool_facts.
  - intros (-> & -> & Hf & Hl & ->). cbn [negb]. rewrite bool_decide_false, Z.eqb_refl by done.
    by destruct (Z.ltb_spec MAX_FIELDS (len f)); [lia|].
Qed.

Lemma valid_name_text s : valid_name s = true -> utf8_valid s = true /\ len s <= u32_max.
Proof.
  destruct s as [|b s]; [done|]. unfold valid_name. rewrite !andb_true_iff, Z.leb_le, orb_true_iff.
  intros [[Hl Hb] Hs]. split; [|unfold MAX_NAME_BYTES, u32_max in *; lia].
  assert (forall b, is_ascii_alphanumeric b || bool_decide (b = x5f) = true -> is_ascii b = true) as Ha.
  { intros c Hc. apply orb_true_iff in Hc as [Hc|Hc]; [|by bool_facts; subst].
    unfold is_ascii_alphanumeric, is_ascii_alphabetic, is_ascii_lowercase, is_ascii_uppercase,
      is_ascii_digit, is_ascii, in_range in *.
    apply Z.ltb_lt. repeat (apply orb_true_iff in Hc as [Hc|Hc]); bool_facts; lia. }
  apply ascii_utf8_valid. cbn [forallb]. apply andb_true_iff. split.
  - apply Ha, orb_true_iff. destruct Hb as [Hb|Hb]; [left|by right].
    unfold is_ascii_alphanumeric. by rewrite Hb.
  - rewrite forallb_forall in Hs |- *. auto.
Qed.

(** ** The decoder reads exactly what the encoder writes *)

Lemma catalog_take_Ok n c v c' : 0 <= n -> catalog_take n c = Ok (v, c') <-> len v = n /\ c = v ++ c'.
Proof. apply take_exact_Ok. Qed.

Lemma reads_count : reads cursor_count enc_count (fun n => 0 <= n <= u32_max).
Proof.
  intros c n c'. unfold cursor_count, enc_count. split.
  - intros ([raw c1] & H1 & (raw' & [-> _]%ok_or_Ok%from_utf8_Some & H)%rbind_Ok)%rbind_Ok.
    apply catalog_take_Ok in H1 as [Hl ->]; [|lia].
    destruct (forallb is_lower_hex raw) eqn:Hx; [|done]. injection H as <- <-.
    pose proof (from_hex_range raw Hx) as R. rewrite Hl in R. change (16 ^ 8) with (u32_max + 1) in R.
    split; [lia|]. unfold len in Hl. replace 8%nat with (length raw) by lia.
    by rewrite hex_digits_from_hex.
  - intros [Hn ->]. rewrite (proj2 (catalog_take_Ok 8 _ (hex_digits 8 n) c' ltac:(lia))).
    2:{ split; [|done]. unfold len. by rewrite hex_digits_length. }
    cbn [rbind]. unfold from_utf8. pose proof (hex_digits_hex 8 n) as Hx.
    rewrite ascii_utf8_valid by (by apply lower_hex_ascii). cbn [ok_or rbind]. rewrite Hx. cbn [negb].
    rewrite from_hex_digits_mod, Z.mod_small; [done|]. unfold u32_max in Hn. lia.
Qed.

Lemma reads_text : reads cursor_text enc_text (fun s => utf8_valid s = true /\ len s <= u32_max).
Proof.
  intros c s c'. unfold cursor_text, enc_text. rewrite rbind_Ok. split.
  - intros ([n c1] & Hc & H). apply reads_count in Hc as [Hn ->].
    apply rbind_Ok in H as ([v c2] & [Hl ->]%catalog_take_Ok & H); [|lia].
    apply rbind_Ok in H as (v' & [-> Hu]%ok_or_Ok%from_utf8_Some & [= <- <-]).
    rewrite Hl. split; [split; [done|lia]|]. by rewrite app_assoc.
  - intros [[Hu Hl] ->]. exists (len s, s ++ c'). split.
    + apply reads_count. split; [|by rewrite <- app_assoc]. pose proof (len_nonneg s). lia.
    + rewrite (proj2 (catalog_take_Ok (len s) _ s c' (len_nonneg s))) by done.
      cbn [rbind]. unfold from_utf8. by rewrite Hu.
Qed.

(** A counted list, the count within [limit], and what is done with it. *)
Lemma reads_list {A B} (item : bytes -> result SchemaError (A * bytes)) enc good limit c
  (k : list A -> bytes -> result SchemaError B) r :
  reads item enc good -> 0 <= limit <= u32_max ->
  (let? (n, c) := cursor_count c in
   if limit <? n then Err CE_LimitExceeded else
   let? (l, c) := decode_times item (Z.to_nat n) c in k l c) = Ok r
  <-> exists l c', len l <= limit /\ Forall good l /\ c = enc_list enc l ++ c' /\ k l c' = Ok r.
Proof.
  intros Hr Hlim. rewrite rbind_Ok. unfold enc_list. split.
  - intros ([n c1] & Hn & H). apply reads_count in Hn as [Hn ->].
    destruct (Z.ltb_spec limit n); [done|]. apply rbind_Ok in H as ([l c'] & H & Hk).
    apply (reads_times _ _ _ _ Hr) in H as [[Hl Hg] ->].
    assert (len l = n) as <- by (unfold len; lia). exists l, c'.
    split_and!; [done|done| |done]. by rewrite <- !app_assoc.
  - intros (l & c' & Hl & Hg & -> & Hk). pose proof (len_nonneg l).
    exists (len l, concat (map enc l) ++ c'). split.
    + apply reads_count. split; [lia|]. by rewrite app_assoc.
    + destruct (Z.ltb_spec limit (len l)); [lia|]. apply rbind_Ok. exists (l, c'). split; [|done].
      apply (reads_times _ _ _ _ Hr). split; [|done]. split; [unfold len; lia|done].
Qed.

Lemma reads_path : reads decode_path enc_path path_ok.
Proof.
  intros c p c'. unfold decode_path, enc_path. rewrite (reads_list _ _ _ _ _ _ _ reads_text) by done.
  split.
  - intros (l & c1 & Hl & _ & -> & H). apply rbind_Ok in H as (q & [<- Hq]%FieldPath_new_Ok & [= <- <-]).
    done.
  - intros [(Hn & Hl & Hv) ->]. exists (segments p), c'. split_and!; [done| |done|].
    + apply Forall_forall. rewrite forallb_forall in Hv. intros s Hs. apply valid_name_text, Hv.
      by apply list_elem_of_In.
    + by rewrite (proj2 (FieldPath_new_Ok (segments p) p)).
Qed.

Section decoding.
Context {UL : UlidLib} {ULL : UlidLaws}.

Lemma reads_id k : reads (cursor_id k) (fun id => enc_text (id_to_string id)) id_ok.
Proof.
  intros c id c'. unfold cursor_id. rewrite rbind_Ok. split.
  - intros ([s c1] & [_ ->]%reads_text & H). apply rbind_Ok in H as (i & Hi & [= <- <-]).
    by apply map_err_Ok, id_from_str_Ok in Hi as [? ->].
  - intros [Hid ->]. exists (id_to_string id, c'). split.
    + apply reads_text. split; [|done].
      split; [by apply ascii_utf8_valid, id_to_string_ascii|]. by rewrite id_to_string_len.
    + rewrite (proj2 (map_err_Ok _ _ id)) by (by apply id_from_str_Ok). done.
Qed.

Lemma reads_definition : reads decode_definition enc_definition definition_ok.
Proof.
  intros c d c'. unfold decode_definition, enc_definition, definition_ok. split.
  - intros ([i c1] & [Hi ->]%reads_id & H)%rbind_Ok.
    apply rbind_Ok in H as ([t c2] & [Ht ->]%reads_id & H).
    apply rbind_Ok in H as ([n c3] & [_ ->]%reads_text & H).
    apply (reads_list _ _ _ _ _ _ _ reads_path) in H as (l & c4 & Hl & Hg & -> & H); [|done].
    apply rbind_Ok in H as (d' & (-> & Hn & Hf & _ & Hnd)%IndexDefinition_new_Ok & [= <- <-]).
    split; [done|]. by rewrite <- !app_assoc.
  - destruct d as [i t n f]. cbn [def_index_id def_table_id def_name def_fields]. intros [(Hi & Ht & Hn & Hf & Hl & Hnd & Hp) ->].
    rewrite <- !app_assoc. apply rbind_Ok. eexists (i, _). split; [by apply reads_id|].
    cbn beta iota. apply rbind_Ok. eexists (t, _). split; [by apply reads_id|].
    cbn beta iota. apply rbind_Ok. eexists (n, _).
    split; [apply reads_text; split; [by apply valid_name_text|done]|].
    cbn beta iota. apply (reads_list _ _ _ _ _ _ _ reads_path); [done|]. exists f, c'. split_and!; [done..|].
    by rewrite (proj2 (IndexDefinition_new_Ok i t n f (mkIndexDefinition i t n f))).
Qed.
End decoding.

(** ** Building a catalog *)

Definition table_name (d : IndexDefinition) : TableId * bytes := (def_table_id d, def_name d).
Definition positions (t : TableId) (n : nat) (l : list IndexDefinition) : list nat :=
  map fst (filter (fun e => def_table_id (snd e) = t) (enumerate_from n l)).

Lemma catalog_loop l n ids names bt r :
  try_fold catalog_step ((ids, names), bt) (enumerate_from n l) = Ok r ->
  NoDup (map def_index_id l) /\ (forall i, i ∈ ids -> i ∉ map def_index_id l)
  /\ NoDup (map table_name l) /\ (forall k, k ∈ names -> k ∉ map table_name l)
  /\ forall t, default [] (snd r !! t) = default [] (bt !! t) ++ positions t n l.
Proof.
  revert n ids names bt; induction l as [|d l IH]; intros n ids names bt; cbn [enumerate_from try_fold].
  - intros [= <-]. cbn. split_and!; try constructor; try set_solver. intros t. by rewrite app_nil_r.
  - intros ([[ids' names'] bt'] & Hs & H)%rbind_Ok. unfold catalog_step in Hs.
    apply rbind_Ok in Hs as (ids1 & [Hi ->]%set_insert_Ok & Hs).
    apply rbind_Ok in Hs as (names1 & [Hn ->]%set_insert_Ok & [= <- <- <-]).
    apply IH in H as (H1 & H2 & H3 & H4 & H5). cbn [map]. split_and!.
    + constructor; [apply H2; left|done].
    + intros i Hin. apply not_elem_of_cons. split; [by intros ->|]. apply H2. by right.
    + constructor; [apply H4; left|done].
    + intros k Hin. apply not_elem_of_cons. split; [by intros ->|]. apply H4. by right.
    + intros t. rewrite H5. unfold positions. cbn [enumerate_from]. rewrite filter_cons. cbn [snd].
      destruct (decide (def_table_id d = t)) as [<-|Ht].
      * rewrite lookup_insert_eq. cbn [default map fst]. unfold Datatypes.id. by rewrite <- app_assoc.
      * by rewrite lookup_insert_ne.
Qed.

Lemma catalog_loop_Err l n st e :
  try_fold catalog_step st (enumerate_from n l) = Err e -> e = CE_InvalidCatalog.
Proof.
  revert n st; induction l as [|d l IH]; intros n st; cbn [enumerate_from try_fold]; [done|].
  destruct (catalog_step st (n, d)) as [st'|e'] eqn:Es; cbn [rbind]; [apply IH|].
  intros [= ->]. revert Es. unfold catalog_step. destruct st as [[ids names] bt].
  destruct (set_insert (def_index_id d) ids); cbn [ok_or rbind]; [|naive_solver].
  destruct (set_insert (def_table_id d, def_name d) names); naive_solver.
Qed.

Lemma positions_lookup t pre l :
  omap (fun p => (pre ++ l) !! p) (positions t (length pre) l) = filter (fun d => def_table_id d = t) l.
Proof.
  revert pre; induction l as [|d l IH]; intros pre; [done|]. unfold positions. cbn [enumerate_from].
  rewrite !filter_cons. cbn [snd]. specialize (IH (pre ++ [d])). rewrite length_app, <- app_assoc in IH.
  replace (length pre + length [d])%nat with (S (length pre)) in IH by (cbn; lia).
  destruct (decide (def_table_id d = t)).
  - cbn [map fst omap list_omap]. rewrite list_lookup_middle by done. f_equal. apply IH.
  - apply IH.
Qed.

#[export] Instance by_index_id_total : TotalCmp by_index_id.
Proof. unfold by_index_id. apply _. Qed.

Lemma by_index_id_Eq d d' : by_index_id d d' = Eq -> def_index_id d = def_index_id d'.
Proof.
  unfold by_index_id, cmp_on. intros E%Z.compare_eq.
  destruct (def_index_id d), (def_index_id d'). cbn in E. by subst.
Qed.

Lemma by_index_id_inj l d d' : NoDup (map def_index_id l) -> d ∈ l -> d' ∈ l ->
  by_index_id d d' = Eq -> d = d'.
Proof.
  intros Hnd Hd Hd' E%by_index_id_Eq. revert Hnd. rewrite NoDup_alt. intros Hnd.
  apply list_elem_of_lookup in Hd as [i Hi], Hd' as [j Hj].
  assert (i = j) as ->; [|congruence].
  apply (Hnd i j (def_index_id d)); rewrite list_lookup_fmap.
  - by rewrite Hi.
  - by rewrite Hj, E.
Qed.

Section catalogs.
Context {UL : UlidLib}.

Lemma SchemaCatalog_new_Ok sha256 p ds c : SchemaCatalog_new sha256 p ds = Ok c ->
  cat_project_id c = p /\ cat_indexes c = order_by by_index_id ds /\ len ds <= MAX_INDEXES
  /\ NoDup (map def_index_id (cat_indexes c)) /\ NoDup (map table_name (cat_indexes c))
  /\ (forall t, indexes_for_table c t = filter (fun d => def_table_id d = t) (cat_indexes c))
  /\ exists w, encode_schema_catalog c = Ok w /\ cat_digest c = sha256 w.
Proof.
  unfold SchemaCatalog_new. destruct (Z.ltb_spec MAX_INDEXES (len ds)); [done|].
  intros ([st by_table] & Hl & Hr)%rbind_Ok. apply rbind_Ok in Hr as (w & Hw & [= <-]).
  apply catalog_loop in Hl as (H1 & _ & H3 & _ & H5). cbn. split_and!; try done.
  - intros t. unfold indexes_for_table. cbn. cbn in H5. rewrite H5. cbn.
    apply (positions_lookup t []).
  - by exists w.
Qed.

(** A catalog does not depend on the order in which its definitions are given. *)
Lemma SchemaCatalog_new_perm sha256 p ds ds' : ds ≡ₚ ds' ->
  SchemaCatalog_new sha256 p ds = SchemaCatalog_new sha256 p ds'.
Proof.
  intros Hp. unfold SchemaCatalog_new. unfold len. rewrite (Permutation_length Hp).
  destruct (MAX_INDEXES <? Z.of_nat (length ds')); [done|].
  destruct (decide (NoDup (map def_index_id ds'))) as [Hnd|Hnd].
  - assert (order_by by_index_id ds = order_by by_index_id ds') as ->; [|done].
    apply order_by_unique; [apply _|by rewrite order_by_perm|apply order_by_sorted, _|].
    intros x y. rewrite !elem_of_order_by. by apply by_index_id_inj.
  - assert (forall l, l ≡ₚ ds' -> try_fold catalog_step (([], []), ∅) (enumerate (order_by by_index_id l))
      = Err CE_InvalidCatalog) as Herr; [|by rewrite !Herr].
    intros l Hl. destruct (try_fold _ _ _) as [r|e] eqn:E.
    + apply catalog_loop in E as [Hn _]. destruct Hnd. revert Hn. by rewrite order_by_perm, Hl.
    + f_equal. by apply catalog_loop_Err in E.
Qed.
End catalogs.

(** ** Catalogs and their encodings *)

(** The catalogs a program can hold: built by [SchemaCatalog::new] from definitions the constructors
    admit. *)
Definition catalog_built {UL : UlidLib} (sha256 : bytes -> bytes) (c : SchemaCatalog) : Prop :=
  exists p ds, id_ok p /\ Forall definition_ok ds /\ SchemaCatalog_new sha256 p ds = Ok c.

Lemma decode_schema_catalog_Ok {UL : UlidLib} {ULL : UlidLaws} sha256 w c :
  decode_schema_catalog sha256 w = Ok c <->
  exists p ds, id_ok p /\ Forall definition_ok ds /\ w = enc_catalog p ds
    /\ SchemaCatalog_new sha256 p ds = Ok c /\ encode_schema_catalog c = Ok w.
Proof.
  unfold decode_schema_catalog. split.
  - destruct (Z.ltb_spec CATALOG_RESOURCE_MAX_BYTES (len w)); [done|].
    intros (c1 & ->%ok_or_Ok%strip_prefix_Some & Hr)%rbind_Ok.
    apply rbind_Ok in Hr as ([p c2] & [Hp ->]%reads_id & Hr). cbn beta iota in Hr.
    apply (reads_list _ _ _ _ _ _ _ reads_definition) in Hr as (ds & c3 & Hl & Hds & -> & Hr); [|done].
    destruct (bool_decide (c3 = [])) eqn:E; [|done]. bool_facts. subst c3.
    apply rbind_Ok in Hr as (c' & Hc & Hr). apply rbind_Ok in Hr as (w' & Hw & Hr).
    case_bool_decide as Ew; simplify_eq.
    exists p, ds. unfold enc_catalog. rewrite app_nil_r in *. done.
  - intros (p & ds & Hp & Hds & -> & Hc & Hw). pose proof Hw as (_ & Hlen)%encode_schema_catalog_Ok.
    destruct (Z.ltb_spec CATALOG_RESOURCE_MAX_BYTES (len (enc_catalog p ds))); [lia|].
    unfold enc_catalog at 1. rewrite strip_prefix_app. cbn [ok_or rbind].
    apply rbind_Ok. eexists (p, _). split; [by apply reads_id|]. cbn beta iota.
    apply (reads_list _ _ _ _ _ _ _ reads_definition); [done|]. exists ds, [].
    rewrite app_nil_r. split_and!; [by apply SchemaCatalog_new_Ok in Hc as (_ & _ & ? & _)|done|done|].
    rewrite bool_decide_true by done. cbn [negb]. rewrite Hc. cbn [rbind]. rewrite Hw. cbn [rbind].
    rewrite bool_decide_false; [done|]. intros Hne. by apply Hne.
Qed.

Lemma catalog_rebuild {UL : UlidLib} sha256 p ds c : SchemaCatalog_new sha256 p ds = Ok c ->
  SchemaCatalog_new sha256 p (cat_indexes c) = Ok c.
Proof.
  intros Hc. pose proof Hc as (_ & Hi & _)%SchemaCatalog_new_Ok. rewrite <- Hc.
  apply SchemaCatalog_new_perm. by rewrite Hi, order_by_perm.
Qed.

(** A byte string decodes to a catalog exactly when it is the encoding of that catalog and the
    catalog is one the constructors can build; every such catalog has an encoding, so the two are
    mutually inverse.  A catalog does not depend on the order its definitions were given in, holds
    them with distinct identifiers and distinct names per table, in the order of their identifiers,
    and its per-table lookup returns exactly the definitions of that table. *)
Theorem schema_catalog_round_trip {UL : UlidLib} {ULL : UlidLaws} (sha256 : bytes -> bytes) :
  (forall w c, decode_schema_catalog sha256 w = Ok c <->
     catalog_built sha256 c /\ encode_schema_catalog c = Ok w)
  /\ (forall c, catalog_built sha256 c ->
        (exists w, encode_schema_catalog c = Ok w /\ cat_digest c = sha256 w)
        /\ NoDup (map def_index_id (cat_indexes c)) /\ NoDup (map table_name (cat_indexes c))
        /\ StronglySorted (cmp_le by_index_id) (cat_indexes c)
        /\ forall t, indexes_for_table c t = filter (fun d => def_table_id d = t) (cat_indexes c))
  /\ (forall p ds ds', ds ≡ₚ ds' -> SchemaCatalog_new sha256 p ds = SchemaCatalog_new sha256 p ds').
Proof.
  split_and!.
  - intros w c. rewrite decode_schema_catalog_Ok. split.
    + intros (p & ds & Hp & Hds & -> & Hc & Hw). split; [by exists p, ds|done].
    + intros [(p & ds & Hp & Hds & Hc) Hw]. exists p, (cat_indexes c).
      pose proof Hc as (Hpc & Hi & _)%SchemaCatalog_new_Ok.
      pose proof Hw as (-> & _)%encode_schema_catalog_Ok. rewrite Hpc in *.
      split_and!; [done| |done|by eapply catalog_rebuild|done].
      rewrite Hi, order_by_perm. done.
  - intros c (p & ds & _ & _ & Hc). pose proof Hc as (_ & Hi & _ & H1 & H2 & H3 & H4)%SchemaCatalog_new_Ok.
    split_and!; [done..| |done]. rewrite Hi. apply order_by_sorted, _.
  - intros p ds ds'. apply SchemaCatalog_new_perm.
Qed.

Definition sample_definition : IndexDefinition :=
  mkIndexDefinition (from_ulid 3) (from_ulid 2) (text "by_team") [mkFieldPath [text "team"]].

Lemma sample_definition_ok : definition_ok sample_definition.
Proof.
  unfold definition_ok, id_ok, ulid_range; cbn [sample_definition def_index_id def_table_id as_ulid].
  split_and!; try done; cbn [sample_definition def_fields].
  - apply NoDup_singleton.
  - apply Forall_singleton. by split_and!.
Qed.

Lemma schema_catalog_round_trip_witness :
  exists c w, SchemaCatalog_new id (from_ulid 1) [sample_definition] = Ok c
    /\ encode_schema_catalog c = Ok w /\ decode_schema_catalog id w = Ok c.
Proof.
  destruct (SchemaCatalog_new id (from_ulid 1) [sample_definition]) as [c|e] eqn:E.
  - destruct (schema_catalog_round_trip id) as (H1 & H2 & _).
    assert (catalog_built id c) as Hc.
    { exists (from_ulid 1), [sample_definition].
      split_and!; [by vm_compute|constructor; [apply sample_definition_ok|constructor]|done]. }
    destruct (H2 c Hc) as [(w & Hw & _) _]. exists c, w. split_and!; [done|done|]. by apply H1.
  - vm_compute in E. discriminate E.
Defined.
