(* ===== verification/Contracts.v ===== *)
(** * Value contracts and document schemas: [crates/runku-contracts/src/lib.rs]

    The contract language over canonical values, its definition checks, validation, projection to a
    Release's view, and the merge that keeps fields a Release does not know.  The [&mut usize] step
    budget is threaded as state; a failing call still leaves its steps counted, as the code does.
    [serde_json] is third-party code: its encoders and decoders are the class [SerdeJson]. *)

From Stdlib Require Import Strings.Byte ZArith Lia.
From stdpp Require Import prelude strings list.
From S2P Require Import Prelude Order BTreeMap Ulid Value Core.

Definition CONTRACT_MAX_BYTES : Z := 256 * 1024.
Definition CONTRACT_MAX_DEPTH : Z := 32.
Definition CONTRACT_MAX_NODES : Z := 10000.
Definition OBJECT_MAX_FIELDS : Z := 1000.
Definition UNION_MAX_VARIANTS : Z := 16.
Definition SCHEMA_MAX_TABLES : Z := 1000.
Definition NAME_MAX_BYTES : Z := 128.
Definition VALIDATION_MAX_STEPS : Z := 200000.

(** Bounds of floats ([FiniteBound]) are the bits of the [f64]; fields are a [BTreeMap], optional
    keys a [BTreeSet]. *)
Inductive Contract : Type :=
| C_Any
| C_Null
| C_Boolean
| C_Int64 (minimum maximum : option Z)
| C_Float64 (minimum maximum : option Z)
| C_String (minimum_bytes maximum_bytes : option Z)
| C_Bytes (minimum_bytes maximum_bytes : option Z)
| C_Timestamp
| C_TypedId (kind : option bytes)
| C_DocumentId (table : bytes)
| C_Array (items : Contract) (minimum_items maximum_items : option Z)
| C_Object (fields : list (bytes * Contract)) (optional : list bytes)
| C_Union (variants : list Contract).

Section contract_induction.
Context (P : Contract -> Prop).
Hypothesis Hany : P C_Any.
Hypothesis Hnull : P C_Null.
Hypothesis Hbool : P C_Boolean.
Hypothesis Hint : forall a b, P (C_Int64 a b).
Hypothesis Hfloat : forall a b, P (C_Float64 a b).
Hypothesis Hstring : forall a b, P (C_String a b).
Hypothesis Hbytes : forall a b, P (C_Bytes a b).
Hypothesis Htime : P C_Timestamp.
Hypothesis Hid : forall k, P (C_TypedId k).
Hypothesis Hdoc : forall t, P (C_DocumentId t).
Hypothesis Harray : forall c a b, P c -> P (C_Array c a b).
Hypothesis Hobject : forall fs o, Forall (fun f => P (snd f)) fs -> P (C_Object fs o).
Hypothesis Hunion : forall vs, Forall P vs -> P (C_Union vs).

Fixpoint contract_induction (c : Contract) : P c :=
  match c with
  | C_Any => Hany
  | C_Null => Hnull
  | C_Boolean => Hbool
  | C_Int64 a b => Hint a b
  | C_Float64 a b => Hfloat a b
  | C_String a b => Hstring a b
  | C_Bytes a b => Hbytes a b
  | C_Timestamp => Htime
  | C_TypedId k => Hid k
  | C_DocumentId t => Hdoc t
  | C_Array c a b => Harray c a b (contract_induction c)
  | C_Object fs o => Hobject fs o
      ((fix go l := match l return Forall (fun f => P (snd f)) l with
                    | [] => List.Forall_nil _
                    | f :: l => List.Forall_cons _ f l (contract_induction (snd f)) (go l)
                    end) fs)
  | C_Union vs => Hunion vs
      ((fix go l := match l return Forall P l with
                    | [] => List.Forall_nil _
                    | v :: l => List.Forall_cons _ v l (contract_induction v) (go l)
                    end) vs)
  end.
End contract_induction.

Inductive ContractError : Type := CT_InvalidDefinition | CT_LimitExceeded | CT_InvalidEncoding.
Inductive ValidationError : Type :=
| VE_TypeMismatch | VE_BoundViolation | VE_ObjectShape | VE_UnionMismatch | VE_UnknownTable.

#[export] Instance ContractError_eq_dec : EqDecision ContractError.
Proof. solve_decision. Defined.
#[export] Instance ValidationError_eq_dec : EqDecision ValidationError.
Proof. solve_decision. Defined.

Definition ContractError_code (e : ContractError) : bytes :=
  text match e with
  | CT_InvalidDefinition => "CONTRACT_DEFINITION_INVALID"
  | CT_LimitExceeded => "CONTRACT_LIMIT_EXCEEDED"
  | CT_InvalidEncoding => "CONTRACT_ENCODING_INVALID"
  end.
Definition ValidationError_code (e : ValidationError) : bytes :=
  text match e with
  | VE_TypeMismatch => "CONTRACT_TYPE_MISMATCH"
  | VE_BoundViolation => "CONTRACT_BOUND_VIOLATION"
  | VE_ObjectShape => "CONTRACT_OBJECT_SHAPE_INVALID"
  | VE_UnionMismatch => "CONTRACT_UNION_MISMATCH"
  | VE_UnknownTable => "SCHEMA_TABLE_UNKNOWN"
  end.

(** ** Numbers *)

(** [f64] comparison: false when either side is not a number. *)
Definition f64_is_nan (bits : Z) : bool := 0x7FF0000000000000 <? Z.land bits (2 ^ 63 - 1).
Definition f64_ltb (x y : Z) : bool :=
  negb (f64_is_nan x) && negb (f64_is_nan y) && (f64_scaled x <? f64_scaled y).
Definition f64_is_sign_negative (bits : Z) : bool := 2 ^ 63 <=? bits.

Definition FiniteBound_new (value : Z) : result ContractError Z :=
  if negb (f64_is_finite value) then Err CT_InvalidDefinition
  else Ok (if f64_is_zero value then 0 else value).

Definition validate_bounds (minimum maximum : option Z) : result ContractError unit :=
  match minimum, maximum with
  | Some lo, Some hi => if hi <? lo then Err CT_InvalidDefinition else Ok tt
  | _, _ => Ok tt
  end.

(** [PartialOrd] of the values: [ltb]. *)
Definition validate_value_bounds (ltb : Z -> Z -> bool) (value : Z) (minimum maximum : option Z)
  : result ValidationError unit :=
  if is_some_and minimum (fun minimum => ltb value minimum)
     || is_some_and maximum (fun maximum => ltb maximum value)
  then Err VE_BoundViolation else Ok tt.

Definition validate_length (length : Z) (minimum maximum : option Z) : result ValidationError unit :=
  if is_some_and minimum (fun minimum => length <? minimum)
     || is_some_and maximum (fun maximum => maximum <? length)
  then Err VE_BoundViolation else Ok tt.

Definition valid_field_name (name : bytes) : bool :=
  negb (bool_decide (name = [])) && (len name <=? NAME_MAX_BYTES) && negb (bool_decide (x00 ∈ name)).

Definition valid_logical_name (name : bytes) : bool :=
  negb (bool_decide (name = [])) && (len name <=? 64)
  && forallb (fun e => is_ascii_alphanumeric (snd e)
                       || ((0 <? Z.of_nat (fst e)) && bool_decide (snd e = x5f))) (enumerate name)
  && is_some_and (head name) is_ascii_lowercase.

(** ** The step budget *)

(** A computation that counts steps: [steps : &mut usize]. *)
Definition stepped (A : Type) : Type := Z -> result ValidationError A * Z.

Definition sret {A} (a : A) : stepped A := fun steps => (Ok a, steps).
Definition sfail {A} (e : ValidationError) : stepped A := fun steps => (Err e, steps).
Definition slift {A} (r : result ValidationError A) : stepped A := fun steps => (r, steps).
Definition sbind {A B} (m : stepped A) (k : A -> stepped B) : stepped B := fun steps =>
  match m steps with
  | (Ok a, steps) => k a steps
  | (Err e, steps) => (Err e, steps)
  end.
Notation "'let^' x := m 'in' k" := (sbind m (fun x => k))
  (at level 10, x pattern, m at level 200, k at level 200) : runku_scope.

(** [*steps = steps.saturating_add(1); if *steps > VALIDATION_MAX_STEPS { return Err(..) }]. *)
Definition spend {A} (m : stepped A) : stepped A := fun steps =>
  let steps := Z.min usize_max (steps + 1) in
  if VALIDATION_MAX_STEPS <? steps then (Err VE_BoundViolation, steps) else m steps.

(** [try_for_each], [map(..).collect::<Result<Vec<_>, _>>()] and [any(|x| f(x).is_ok())]. *)
Fixpoint stry_each {A} (f : A -> stepped unit) (l : list A) : stepped unit :=
  match l with
  | [] => sret tt
  | x :: l => let^ _ := f x in stry_each f l
  end.
Fixpoint stry_map {A B} (f : A -> stepped B) (l : list A) : stepped (list B) :=
  match l with
  | [] => sret []
  | x :: l => let^ y := f x in let^ ys := stry_map f l in sret (y :: ys)
  end.
Fixpoint sany (ms : list (stepped unit)) : stepped bool := fun steps =>
  match ms with
  | [] => (Ok false, steps)
  | m :: ms => match m steps with
               | (Ok _, steps) => (Ok true, steps)
               | (Err _, steps) => sany ms steps
               end
  end.

(** ** Validating values *)

Fixpoint validate_value_at (self : Contract) (value : CanonicalValue) : stepped unit :=
  spend
    match self with
    | C_Any => sret tt
    | C_Null => match value with CV_Null => sret tt | _ => sfail VE_TypeMismatch end
    | C_Boolean => match value with CV_Boolean _ => sret tt | _ => sfail VE_TypeMismatch end
    | C_Timestamp => match value with CV_Timestamp _ => sret tt | _ => sfail VE_TypeMismatch end
    | C_Int64 minimum maximum =>
        match value with
        | CV_Int64 value => slift (validate_value_bounds Z.ltb value minimum maximum)
        | _ => sfail VE_TypeMismatch
        end
    | C_Float64 minimum maximum =>
        match value with
        | CV_Float64 value => slift (validate_value_bounds f64_ltb value minimum maximum)
        | _ => sfail VE_TypeMismatch
        end
    | C_String minimum_bytes maximum_bytes =>
        match value with
        | CV_String value => slift (validate_length (len value) minimum_bytes maximum_bytes)
        | _ => sfail VE_TypeMismatch
        end
    | C_Bytes minimum_bytes maximum_bytes =>
        match value with
        | CV_Bytes value => slift (validate_length (len value) minimum_bytes maximum_bytes)
        | _ => sfail VE_TypeMismatch
        end
    | C_TypedId required =>
        match value with
        | CV_TypedId value =>
            if is_some_and required (fun required => bool_decide (required <> kind value))
            then sfail VE_BoundViolation else sret tt
        | _ => sfail VE_TypeMismatch
        end
    | C_DocumentId _ =>
        match value with
        | CV_TypedId value =>
            if bool_decide (kind value = text "doc") then sret tt else sfail VE_BoundViolation
        | _ => sfail VE_TypeMismatch
        end
    | C_Array items minimum_items maximum_items =>
        match value with
        | CV_Array values =>
            let^ _ := slift (validate_length (len values) minimum_items maximum_items) in
            stry_each (validate_value_at items) values
        | _ => sfail VE_TypeMismatch
        end
    | C_Object fields optional =>
        match value with
        | CV_Object values =>
            if existsb (fun e => negb (btree_contains (fst e) fields)) values
               || existsb (fun f => negb (bool_decide (fst f ∈ optional))
                                    && negb (btree_contains (fst f) values)) fields
            then sfail VE_ObjectShape else
            let validators := map (fun f => (fst f, validate_value_at (snd f))) fields in
            stry_each (fun e => match btree_get (fst e) validators with
                                | None => sfail VE_ObjectShape
                                | Some validate => validate (snd e)
                                end) values
        | _ => sfail VE_TypeMismatch
        end
    | C_Union variants =>
        let^ any := sany (map (fun variant => validate_value_at variant value) variants) in
        if any : bool then sret tt else sfail VE_UnionMismatch
    end.

Definition validate_value (self : Contract) (value : CanonicalValue) : result ValidationError unit :=
  fst (validate_value_at self value 0).

(** ** A Release's view of a value *)

(** The loop over the declared fields; the keys arrive in order, so inserting appends. *)
Fixpoint project_fields (optional : list bytes) (stored : list (bytes * CanonicalValue))
  (fields : list (bytes * (CanonicalValue -> stepped CanonicalValue)))
  : stepped (list (bytes * CanonicalValue)) :=
  match fields with
  | [] => sret []
  | (name, project) :: fields =>
      match btree_get name stored with
      | Some value =>
          let^ value := project value in
          let^ projected := project_fields optional stored fields in
          sret ((name, value) :: projected)
      | None =>
          if bool_decide (name ∈ optional) then project_fields optional stored fields
          else sfail VE_ObjectShape
      end
  end.

(** The loop over the variants of a union. *)
Fixpoint project_variants
  (variants : list (stepped CanonicalValue * (CanonicalValue -> result ValidationError unit)))
  : stepped CanonicalValue := fun steps =>
  match variants with
  | [] => (Err VE_UnionMismatch, steps)
  | (project, validate) :: variants =>
      match project steps with
      | (Ok projected, steps) =>
          if is_ok (validate projected) then (Ok projected, steps) else project_variants variants steps
      | (Err _, steps) => project_variants variants steps
      end
  end.

Fixpoint project_value_at (self : Contract) (value : CanonicalValue) : stepped CanonicalValue :=
  spend
    match self, value with
    | C_Any, value => sret value
    | C_Object fields optional, CV_Object stored =>
        let^ projected := project_fields optional stored
          (map (fun f => (fst f, project_value_at (snd f))) fields) in
        sret (CV_Object projected)
    | C_Array items _ _, CV_Array values =>
        let^ projected := stry_map (project_value_at items) values in
        let^ _ := slift (validate_value self (CV_Array projected)) in
        sret (CV_Array projected)
    | C_Union variants, value =>
        project_variants (map (fun variant => (project_value_at variant value, validate_value variant))
                            variants)
    | _, value => let^ _ := slift (validate_value self value) in sret value
    end.

Definition project_value (self : Contract) (value : CanonicalValue)
  : result ValidationError CanonicalValue := fst (project_value_at self value 0).

(** ** Keeping the fields of other Releases *)

(** The loop over the stored fields, [merged] being the result so far. *)
Fixpoint preserve_fields
  (fields : list (bytes * (CanonicalValue -> CanonicalValue -> stepped CanonicalValue)))
  (replacement stored merged : list (bytes * CanonicalValue))
  : stepped (list (bytes * CanonicalValue)) :=
  match stored with
  | [] => sret merged
  | (name, value) :: stored =>
      match btree_get name fields, btree_get name replacement with
      | None, _ => preserve_fields fields replacement stored (btree_insert name value merged)
      | Some preserve, Some next =>
          let^ value := preserve value next in
          preserve_fields fields replacement stored (btree_insert name value merged)
      | Some _, None => preserve_fields fields replacement stored merged
      end
  end.

(** [stored.get(index)] for each item of the replacement. *)
Fixpoint preserve_items (preserve : CanonicalValue -> CanonicalValue -> stepped CanonicalValue)
  (stored replacement : list CanonicalValue) : stepped (list CanonicalValue) :=
  match replacement with
  | [] => sret []
  | next :: replacement =>
      let^ item := match stored with [] => sret next | value :: _ => preserve value next end in
      let^ items := preserve_items preserve (tail stored) replacement in
      sret (item :: items)
  end.

(** [variants.iter().find(..)], then the call on the variant found. *)
Fixpoint preserve_variant (variants : list (bool * stepped CanonicalValue)) : stepped CanonicalValue :=
  match variants with
  | [] => sfail VE_UnionMismatch
  | (matches, preserve) :: variants => if matches : bool then preserve else preserve_variant variants
  end.

Fixpoint preserve_unknown_fields_at (self : Contract) (stored replacement : CanonicalValue)
  : stepped CanonicalValue :=
  spend
    match self, stored, replacement with
    | C_Object fields _, CV_Object stored, CV_Object replacement =>
        let^ merged := preserve_fields
          (map (fun f => (fst f, preserve_unknown_fields_at (snd f))) fields)
          replacement stored replacement in
        sret (CV_Object merged)
    | C_Array items _ _, CV_Array stored, CV_Array replacement =>
        let^ merged := preserve_items (preserve_unknown_fields_at items) stored replacement in
        sret (CV_Array merged)
    | C_Union variants, stored, replacement =>
        preserve_variant (map (fun variant => (is_ok (validate_value variant replacement),
                                 preserve_unknown_fields_at variant stored replacement)) variants)
    | _, _, replacement => sret replacement
    end.

Definition preserve_unknown_fields (self : Contract) (stored replacement : CanonicalValue)
  : result ValidationError CanonicalValue :=
  let? _ := validate_value self replacement in
  fst (preserve_unknown_fields_at self stored replacement 0).

(** ** Definitions *)

Record DocumentTableContract : Type := mkDocumentTableContract {
  dt_id : TableId;
  dt_name : bytes;
  dt_document_contract : Contract
}.
Record DocumentSchemaV1 : Type := mkDocumentSchemaV1 {
  ds_version : Z;
  ds_tables : list DocumentTableContract
}.

(** [serde_json::to_vec] and [serde_json::from_slice] at the two types. *)
Class SerdeJson := {
  contract_to_vec : Contract -> option bytes;
  contract_from_slice : bytes -> option Contract;
  schema_to_vec : DocumentSchemaV1 -> option bytes;
  schema_from_slice : bytes -> option DocumentSchemaV1
}.

Section definitions.
Context {SJ : SerdeJson}.

Definition definition_bounds_bad (minimum maximum : option Z) : bool :=
  is_some_and minimum (fun v => negb (f64_is_finite v))
  || is_some_and maximum (fun v => negb (f64_is_finite v))
  || is_some_and minimum (fun v => f64_is_zero v && f64_is_sign_negative v)
  || is_some_and maximum (fun v => f64_is_zero v && f64_is_sign_negative v)
  || match minimum, maximum with Some lo, Some hi => f64_ltb hi lo | _, _ => false end.

Definition kind_malformed (required : bytes) : bool :=
  bool_decide (required = []) || (16 <? len required)
  || negb (forallb (fun b => is_ascii_lowercase b || is_ascii_digit b) required).

(** The nodes counted so far are the result; an error ends the whole check. *)
Fixpoint validate_definition_at (self : Contract) (depth nodes : Z) : result ContractError Z :=
  let nodes := Z.min usize_max (nodes + 1) in
  if (CONTRACT_MAX_DEPTH <? depth) || (CONTRACT_MAX_NODES <? nodes) then Err CT_LimitExceeded else
  match self with
  | C_Int64 minimum maximum => let? _ := validate_bounds minimum maximum in Ok nodes
  | C_Float64 minimum maximum =>
      if definition_bounds_bad minimum maximum then Err CT_InvalidDefinition else Ok nodes
  | C_String minimum_bytes maximum_bytes | C_Bytes minimum_bytes maximum_bytes =>
      let? _ := validate_bounds minimum_bytes maximum_bytes in Ok nodes
  | C_TypedId required =>
      if is_some_and required kind_malformed then Err CT_InvalidDefinition else Ok nodes
  | C_DocumentId table => if valid_logical_name table then Ok nodes else Err CT_InvalidDefinition
  | C_Array items minimum_items maximum_items =>
      let? _ := validate_bounds minimum_items maximum_items in
      validate_definition_at items (Z.min usize_max (depth + 1)) nodes
  | C_Object fields optional =>
      if (OBJECT_MAX_FIELDS <? len fields)
         || existsb (fun key => negb (btree_contains key fields)) optional
         || existsb (fun f => negb (valid_field_name (fst f))) fields
      then Err CT_InvalidDefinition else
      try_fold (fun nodes check => check (Z.min usize_max (depth + 1)) nodes) nodes
        (map (fun f => validate_definition_at (snd f)) fields)
  | C_Union variants =>
      if negb ((2 <=? len variants) && (len variants <=? UNION_MAX_VARIANTS))
      then Err CT_InvalidDefinition else
      let? (nodes, _) :=
        try_fold (fun '(nodes, encoded) '(check, bytes) =>
            let? nodes := check (Z.min usize_max (depth + 1)) nodes in
            let? bytes := ok_or CT_InvalidDefinition bytes in
            let? encoded := ok_or CT_InvalidDefinition (set_insert bytes encoded) in
            Ok (nodes, encoded)) (nodes, [])
          (map (fun variant => (validate_definition_at variant, contract_to_vec variant)) variants) in
      Ok nodes
  | C_Any | C_Null | C_Boolean | C_Timestamp => Ok nodes
  end.

Definition validate_definition (self : Contract) : result ContractError unit :=
  let? _ := validate_definition_at self 0 0 in
  let? encoded := ok_or CT_InvalidDefinition (contract_to_vec self) in
  if CONTRACT_MAX_BYTES <? len encoded then Err CT_LimitExceeded else Ok tt.

Definition encode_contract (contract : Contract) : result ContractError bytes :=
  let? _ := validate_definition contract in
  let? encoded := ok_or CT_InvalidDefinition (contract_to_vec contract) in
  if CONTRACT_MAX_BYTES <? len encoded then Err CT_LimitExceeded else Ok encoded.

Definition decode_contract (input : bytes) : result ContractError Contract :=
  if CONTRACT_MAX_BYTES <? len input then Err CT_LimitExceeded else
  let? contract := ok_or CT_InvalidEncoding (contract_from_slice input) in
  let? _ := validate_definition contract in
  let? encoded := encode_contract contract in
  if bool_decide (encoded <> input) then Err CT_InvalidEncoding else Ok contract.

(** ** Document schemas *)

(** [previous] and [names] of the loop over the tables. *)
Definition check_table (st : option TableId * list bytes) (table : DocumentTableContract)
  : result ContractError (option TableId * list bytes) :=
  let '(previous, names) := st in
  if is_some_and previous (fun id => as_ulid (dt_id table) <=? as_ulid id)
     || negb (valid_logical_name (dt_name table))
  then Err CT_InvalidDefinition else
  let? names := ok_or CT_InvalidDefinition (set_insert (dt_name table) names) in
  let? _ := validate_definition (dt_document_contract table) in
  Ok (Some (dt_id table), names).

Definition schema_validate_definition (self : DocumentSchemaV1) : result ContractError unit :=
  if negb (ds_version self =? 1) || (SCHEMA_MAX_TABLES <? len (ds_tables self))
  then Err (if SCHEMA_MAX_TABLES <? len (ds_tables self) then CT_LimitExceeded
            else CT_InvalidDefinition) else
  let? _ := try_fold check_table (None, []) (ds_tables self) in
  let? encoded := ok_or CT_InvalidDefinition (schema_to_vec self) in
  if CONTRACT_MAX_BYTES <? len encoded then Err CT_LimitExceeded else Ok tt.

Definition by_table_id : DocumentTableContract -> DocumentTableContract -> comparison :=
  cmp_on (fun table => as_ulid (dt_id table)) Z.compare.

Definition DocumentSchemaV1_new (tables : list DocumentTableContract)
  : result ContractError DocumentSchemaV1 :=
  let schema := mkDocumentSchemaV1 1 (order_by by_table_id tables) in
  let? _ := schema_validate_definition schema in
  Ok schema.

Definition encode_document_schema (schema : DocumentSchemaV1) : result ContractError bytes :=
  let? _ := schema_validate_definition schema in
  let? encoded := ok_or CT_InvalidDefinition (schema_to_vec schema) in
  if CONTRACT_MAX_BYTES <? len encoded then Err CT_LimitExceeded else Ok encoded.

Definition decode_document_schema (input : bytes) : result ContractError DocumentSchemaV1 :=
  if CONTRACT_MAX_BYTES <? len input then Err CT_LimitExceeded else
  let? schema := ok_or CT_InvalidEncoding (schema_from_slice input) in
  let? _ := schema_validate_definition schema in
  let? encoded := encode_document_schema schema in
  if bool_decide (encoded <> input) then Err CT_InvalidEncoding else Ok schema.
End definitions.

(** [slice::binary_search_by_key]: the loop of the standard library, [size] halving until one
    candidate is left.  Each turn shrinks [size], so [fuel := size] is never used up. *)
Fixpoint binary_search_loop (fuel : nat) (key : nat -> Z) (target : Z) (base size : nat) : nat :=
  match fuel with
  | O => base
  | S fuel =>
      if (size <=? 1)%nat then base else
      let half := (size / 2)%nat in
      let mid := (base + half)%nat in
      let base := if target <? key mid then base else mid in
      binary_search_loop fuel key target base (size - half)
  end.

Definition binary_search (tables : list DocumentTableContract) (target : TableId) : option nat :=
  let key i := match tables !! i with Some table => as_ulid (dt_id table) | None => 0 end in
  match tables with
  | [] => None
  | _ =>
      let base := binary_search_loop (length tables) key (as_ulid target) 0 (length tables) in
      if key base =? as_ulid target then Some base else None
  end.

Definition schema_table (self : DocumentSchemaV1) (table_id : TableId)
  : result ValidationError DocumentTableContract :=
  ok_or VE_UnknownTable (index ← binary_search (ds_tables self) table_id; ds_tables self !! index).

Definition validate_document (self : DocumentSchemaV1) (table_id : TableId) (value : CanonicalValue)
  : result ValidationError unit :=
  let? table := schema_table self table_id in
  validate_value (dt_document_contract table) value.

Definition project_document (self : DocumentSchemaV1) (table_id : TableId) (value : CanonicalValue)
  : result ValidationError CanonicalValue :=
  let? table := schema_table self table_id in
  project_value (dt_document_contract table) value.

Definition preserve_unknown_document_fields (self : DocumentSchemaV1) (table_id : TableId)
  (stored replacement : CanonicalValue) : result ValidationError CanonicalValue :=
  let? table := schema_table self table_id in
  preserve_unknown_fields (dt_document_contract table) stored replacement.
