(* ===== verification/ContractSemantics.v ===== *)
(** * What contracts mean

    A reference semantics of contracts without the step budget, and the facts that relate the code
    of [Contracts] to it: validation accepts only admitted values, and accepts all of them as long as
    contract and value are small enough for the budget. *)

From Stdlib Require Import Strings.Byte ZArith Lia.
From stdpp Require Import prelude strings list.
From S2P Require Import Prelude Order BTreeMap Ulid Value Core Contracts.

(** ** The reference semantics *)

Definition bounds_ok (ltb : Z -> Z -> bool) (minimum maximum : option Z) (x : Z) : bool :=
  negb (is_some_and minimum (fun m => ltb x m)) && negb (is_some_and maximum (fun m => ltb m x)).

(** Whether [c] admits [v]: no budget, no order of evaluation. *)
Fixpoint accepts (c : Contract) (v : CanonicalValue) : bool :=
  match c, v with
  | C_Any, _ => true
  | C_Null, CV_Null => true
  | C_Boolean, CV_Boolean _ => true
  | C_Timestamp, CV_Timestamp _ => true
  | C_Int64 lo hi, CV_Int64 x => bounds_ok Z.ltb lo hi x
  | C_Float64 lo hi, CV_Float64 x => bounds_ok f64_ltb lo hi x
  | C_String lo hi, CV_String s => bounds_ok Z.ltb lo hi (len s)
  | C_Bytes lo hi, CV_Bytes s => bounds_ok Z.ltb lo hi (len s)
  | C_TypedId required, CV_TypedId i =>
      match required with Some k => bool_decide (k = kind i) | None => true end
  | C_DocumentId _, CV_TypedId i => bool_decide (kind i = text "doc")
  | C_Array items lo hi, CV_Array vs => bounds_ok Z.ltb lo hi (len vs) && forallb (accepts items) vs
  | C_Object fields optional, CV_Object vs =>
      forallb (fun e => match btree_get (fst e) (map (fun f => (fst f, accepts (snd f))) fields) with
                        | Some p => p (snd e)
                        | None => false
                        end) vs
      && forallb (fun f => bool_decide (fst f ∈ optional) || btree_contains (fst f) vs) fields
  | C_Union variants, v => existsb (fun c => accepts c v) variants
  | _, _ => false
  end.

(** The nodes of a contract and of a value: their product bounds the steps of a traversal. *)
Fixpoint contract_nodes (c : Contract) : Z :=
  match c with
  | C_Array items _ _ => 1 + contract_nodes items
  | C_Object fields _ => 1 + sumZ (map (fun f => contract_nodes (snd f)) fields)
  | C_Union variants => 1 + sumZ (map contract_nodes variants)
  | _ => 1
  end.
Fixpoint value_nodes (v : CanonicalValue) : Z :=
  match v with
  | CV_Array vs => 1 + sumZ (map value_nodes vs)
  | CV_Object fs => 1 + sumZ (map (fun f => value_nodes (snd f)) fs)
  | _ => 1
  end.
Definition within_budget (c : Contract) (v : CanonicalValue) : Prop :=
  contract_nodes c * value_nodes v <= VALIDATION_MAX_STEPS.

Lemma contract_nodes_pos c : 1 <= contract_nodes c.
Proof.
  induction c using contract_induction; cbn [contract_nodes]; try lia.
  - assert (0 <= sumZ (map (fun f => contract_nodes (snd f)) fs)); [|lia].
    apply sumZ_map_nonneg. intros x Hx%list_elem_of_In.
    rewrite Forall_forall in H. specialize (H x Hx). lia.
  - assert (0 <= sumZ (map contract_nodes vs)); [|lia]. apply sumZ_map_nonneg.
    intros x Hx%list_elem_of_In. rewrite Forall_forall in H. specialize (H x Hx). lia.
Qed.

Lemma value_nodes_pos v : 1 <= value_nodes v.
Proof.
  induction v using value_induction; cbn [value_nodes]; try lia.
  - assert (0 <= sumZ (map value_nodes vs)); [|lia]. apply sumZ_map_nonneg.
    intros x Hx%list_elem_of_In. rewrite Forall_forall in H. specialize (H x Hx). lia.
  - assert (0 <= sumZ (map (fun f => value_nodes (snd f)) fs)); [|lia].
    apply sumZ_map_nonneg. intros x Hx%list_elem_of_In.
    rewrite Forall_forall in H. specialize (H x Hx). lia.
Qed.
#[export] Hint Resolve contract_nodes_pos value_nodes_pos : runku.

(** ** Running a counted computation *)

(** [m] run at [s] within a limit of [n] further steps: it counts at most [n] of them, and succeeds
    exactly when [ok], with a result as [Q] says. *)
Definition runs {A} (m : stepped A) (s n : Z) (ok : bool) (Q : A -> Prop) : Prop :=
  exists r s', m s = (r, s') /\ s <= s' <= s + n /\ is_ok r = ok /\ forall a, r = Ok a -> Q a.

Lemma runs_ret {A} (a : A) s n (Q : A -> Prop) : 0 <= n -> Q a -> runs (sret a) s n true Q.
Proof. intros Hn HQ. exists (Ok a), s. split_and!; [done|lia|lia|done|]. by intros ? [= <-]. Qed.

Lemma runs_fail {A} e s n (Q : A -> Prop) : 0 <= n -> runs (sfail e) s n false Q.
Proof. intros Hn. exists (Err e), s. split_and!; try done; lia. Qed.

Lemma runs_lift {A} (r : result ValidationError A) s n (Q : A -> Prop) :
  0 <= n -> (forall a, r = Ok a -> Q a) -> runs (slift r) s n (is_ok r) Q.
Proof. intros Hn HQ. exists r, s. split_and!; try done; lia. Qed.

Lemma runs_bind {A B} (m : stepped A) (k : A -> stepped B) s n1 n2 ok1 ok2 Q1 Q2 :
  0 <= n2 -> runs m s n1 ok1 Q1 ->
  (forall a s', Q1 a -> s <= s' <= s + n1 -> runs (k a) s' n2 ok2 Q2) ->
  runs (sbind m k) s (n1 + n2) (ok1 && ok2) Q2.
Proof.
  intros Hn (r & s1 & E1 & Hs1 & Hok & HQ) Hk. unfold sbind, runs. rewrite E1.
  destruct r as [a|e]; cbn in Hok; subst ok1; cbn [andb].
  - destruct (Hk a s1) as (r2 & s2 & E2 & Hs2 & Hok2 & HQ2); [by apply HQ|done|].
    exists r2, s2. split_and!; try done; lia.
  - exists (Err e), s1. split_and!; try done; lia.
Qed.

Lemma runs_spend {A} (m : stepped A) s n ok Q :
  0 <= s -> s + (1 + n) <= VALIDATION_MAX_STEPS -> 0 <= n ->
  runs m (s + 1) n ok Q -> runs (spend m) s (1 + n) ok Q.
Proof.
  intros Hs Hmax Hn (r & s' & E & Hs' & Hok & HQ). unfold spend, runs.
  rewrite Z.min_r by (unfold usize_max, u64_max, VALIDATION_MAX_STEPS in *; lia).
  destruct (Z.ltb_spec VALIDATION_MAX_STEPS (s + 1)); [lia|].
  exists r, s'. split_and!; try done; lia.
Qed.

Lemma runs_weaken {A} (m : stepped A) s n n' ok ok' Q : n <= n' -> ok = ok' ->
  runs m s n ok Q -> runs m s n' ok' Q.
Proof. intros Hn -> (r & s' & ? & ? & ? & ?). exists r, s'. split_and!; try done; lia. Qed.

Lemma runs_each {A} (f : A -> stepped unit) (cost : A -> Z) (ok : A -> bool) l s :
  (forall x, x ∈ l -> 0 <= cost x) ->
  (forall x s', x ∈ l -> s <= s' -> s' + cost x <= s + sumZ (map cost l) ->
     runs (f x) s' (cost x) (ok x) (fun _ => True)) ->
  runs (stry_each f l) s (sumZ (map cost l)) (forallb ok l) (fun _ => True).
Proof.
  revert s; induction l as [|x l IH]; intros s Hc Hf; cbn [stry_each map sumZ foldr forallb].
  { by apply runs_ret. }
  assert (0 <= sumZ (map cost l)).
  { apply sumZ_map_nonneg. intros y Hy%list_elem_of_In. apply Hc. by right. }
  fold (sumZ (map cost l)). apply (runs_bind _ _ _ _ _ _ _ (fun _ => True)); [done| |].
  - apply Hf; [left|lia|]. cbn. fold (sumZ (map cost l)). lia.
  - intros _ s' _ Hs'. apply IH; [intros; apply Hc; by right|].
    intros y s2 Hy Hs2 Hl. apply Hf; [by right|lia|]. cbn. fold (sumZ (map cost l)).
    assert (0 <= cost x) by (apply Hc; left). lia.
Qed.

Lemma runs_any {A} (f : A -> stepped unit) (cost : A -> Z) (ok : A -> bool) l s :
  (forall x, x ∈ l -> 0 <= cost x) ->
  (forall x s', x ∈ l -> s <= s' -> s' + cost x <= s + sumZ (map cost l) ->
     runs (f x) s' (cost x) (ok x) (fun _ => True)) ->
  runs (sany (map f l)) s (sumZ (map cost l)) true (fun b => b = existsb ok l).
Proof.
  revert s; induction l as [|x l IH]; intros s Hc Hf; cbn [map sumZ foldr existsb].
  { exists (Ok false), s. split_and!; try done; try lia. naive_solver. }
  assert (0 <= sumZ (map cost l)).
  { apply sumZ_map_nonneg. intros y Hy%list_elem_of_In. apply Hc. by right. }
  fold (sumZ (map cost l)). assert (0 <= cost x) by (apply Hc; left).
  destruct (Hf x s) as (r & s1 & E1 & Hs1 & Hok & _); [left|lia|cbn; fold (sumZ (map cost l)); lia|].
  unfold runs. cbn [sany]. rewrite E1. destruct r as [u|e]; cbn in Hok; rewrite <- Hok.
  - exists (Ok true), s1. split_and!; try done; try lia. naive_solver.
  - destruct (IH s1) as (r & s2 & E2 & Hs2 & Hr & HQ).
    + intros; apply Hc; by right.
    + intros y s' Hy Hs' Hl. apply Hf; [by right|lia|]. cbn. fold (sumZ (map cost l)). lia.
    + exists r, s2. split_and!; try done; lia.
Qed.

(** ** Validation within the budget *)

Lemma validate_value_bounds_ok ltb x lo hi :
  is_ok (validate_value_bounds ltb x lo hi) = bounds_ok ltb lo hi x.
Proof.
  unfold validate_value_bounds, bounds_ok.
  by destruct (is_some_and lo _), (is_some_and hi _).
Qed.
Lemma validate_length_ok n lo hi : is_ok (validate_length n lo hi) = bounds_ok Z.ltb lo hi n.
Proof. apply (validate_value_bounds_ok Z.ltb). Qed.

Lemma sumZ_map_mul {A} (f : A -> Z) k l : sumZ (map (fun x => k * f x) l) = k * sumZ (map f l).
Proof. induction l as [|x l IH]; cbn; [lia|]. fold (sumZ (map (fun x => k * f x) l)) (sumZ (map f l)). lia. Qed.

Lemma field_nodes_le k c fields : btree_get k fields = Some c ->
  contract_nodes c <= sumZ (map (fun f => contract_nodes (snd f)) fields).
Proof.
  intros Hk%btree_get_In. apply (sumZ_map_le (fun f => contract_nodes (snd f)) fields (k, c)).
  - intros y _. pose proof (contract_nodes_pos (snd y)). lia.
  - by apply list_elem_of_In.
Qed.

Lemma forallb_true_ext {A} (f g : A -> bool) l : (forall x, x ∈ l -> f x = g x) -> forallb f l = forallb g l.
Proof.
  induction l as [|x l IH]; intros H; [done|]. cbn. rewrite (H x) by left. f_equal.
  apply IH. intros; apply H; by right.
Qed.

Lemma existsb_negb_forallb {A} (f : A -> bool) l : existsb (fun x => negb (f x)) l = negb (forallb f l).
Proof. induction l as [|x l IH]; [done|]. cbn. rewrite IH. by destruct (f x). Qed.

(** The two shape checks of an object, against the reference. *)
Lemma object_shape_ok fields (optional : list bytes) vs :
  existsb (fun e : bytes * CanonicalValue => negb (btree_contains (fst e) fields)) vs
  || existsb (fun f : bytes * Contract => negb (bool_decide (fst f ∈ optional))
                                    && negb (btree_contains (fst f) vs)) fields
  = negb (forallb (fun e => btree_contains (fst e) fields) vs
          && forallb (fun f => bool_decide (fst f ∈ optional) || btree_contains (fst f) vs) fields).
Proof.
  rewrite existsb_negb_forallb, negb_andb. f_equal. rewrite <- existsb_negb_forallb.
  induction fields as [|f fields IH]; [done|]. cbn. rewrite IH. by rewrite negb_orb.
Qed.

Definition field_accepts (fields : list (bytes * Contract)) (e : bytes * CanonicalValue) : bool :=
  match btree_get (fst e) fields with Some c => accepts c (snd e) | None => false end.

Lemma accepts_object fields optional vs :
  accepts (C_Object fields optional) (CV_Object vs) =
  forallb (field_accepts fields) vs
  && forallb (fun f => bool_decide (fst f ∈ optional) || btree_contains (fst f) vs) fields.
Proof.
  cbn [accepts]. f_equal. apply forallb_true_ext. intros e _. unfold field_accepts.
  rewrite btree_get_map. by destruct (btree_get (fst e) fields).
Qed.

Definition validates (c : Contract) : Prop := forall v s,
  0 <= s -> s + contract_nodes c * value_nodes v <= VALIDATION_MAX_STEPS ->
  runs (validate_value_at c v) s (contract_nodes c * value_nodes v) (accepts c v) (fun _ => True).

Lemma runs_node {A} (m : stepped A) c v s ok Q :
  0 <= s -> s + contract_nodes c * value_nodes v <= VALIDATION_MAX_STEPS ->
  runs m (s + 1) (contract_nodes c * value_nodes v - 1) ok Q ->
  runs (spend m) s (contract_nodes c * value_nodes v) ok Q.
Proof.
  intros Hs Hmax Hm. pose proof (value_nodes_pos v). pose proof (contract_nodes_pos c).
  apply (runs_weaken _ _ (1 + (contract_nodes c * value_nodes v - 1)) _ ok); [lia|done|].
  apply runs_spend; [lia|lia|nia|done].
Qed.

Lemma node_room c v : 0 <= contract_nodes c * value_nodes v - 1.
Proof. pose proof (value_nodes_pos v). pose proof (contract_nodes_pos c). nia. Qed.
#[local] Hint Resolve node_room : core.

Lemma validates_array items lo hi : validates items -> validates (C_Array items lo hi).
Proof.
  intros IH v s Hs Hmax. cbn [validate_value_at]. apply runs_node; [done..|].
  destruct v as [| | | | | | | |vs|]; try (apply runs_fail; done).
  cbn [accepts]. pose proof (contract_nodes_pos items).
  set (n := sumZ (map (fun w => contract_nodes items * value_nodes w) vs)).
  assert (n = contract_nodes items * sumZ (map value_nodes vs)) as En by apply sumZ_map_mul.
  assert (0 <= n) by (apply sumZ_map_nonneg; intros w _; pose proof (value_nodes_pos w); nia).
  cbn [contract_nodes value_nodes] in *.
  assert (0 <= sumZ (map value_nodes vs)).
  { apply sumZ_map_nonneg. intros w _. pose proof (value_nodes_pos w). lia. }
  apply (runs_weaken _ _ (0 + n) _ (is_ok (validate_length (len vs) lo hi) && forallb (accepts items) vs)).
  { nia. }
  { by rewrite validate_length_ok. }
  apply (runs_bind _ _ _ _ _ _ _ (fun _ => True)); [done|by apply runs_lift|].
  intros _ s' _ Hs'. apply runs_each.
  - intros w _. pose proof (value_nodes_pos w). nia.
  - intros w s2 Hw Hs2 Hl. apply IH; [lia|]. fold n in Hl. nia.
Qed.

Lemma validates_object fields optional :
  Forall (fun f => validates (snd f)) fields -> validates (C_Object fields optional).
Proof.
  intros IH v s Hs Hmax. cbn [validate_value_at]. apply runs_node; [done..|].
  destruct v as [| | | | | | | | |vs]; try (apply runs_fail; done).
  rewrite accepts_object, object_shape_ok.
  destruct (forallb (fun f => bool_decide (fst f ∈ optional) || btree_contains (fst f) vs) fields).
  2:{ rewrite !andb_false_r. cbn [negb]. by apply runs_fail. }
  rewrite !andb_true_r. destruct (forallb (fun e => btree_contains (fst e) fields) vs) eqn:Eshape; cbn [negb].
  2:{ replace (forallb (field_accepts fields) vs) with false; [by apply runs_fail|].
      symmetry. apply not_true_iff_false. intros Hall. apply not_true_iff_false in Eshape. apply Eshape.
      rewrite forallb_forall in Hall |- *. intros e He. specialize (Hall e He).
      unfold field_accepts in Hall. unfold btree_contains. by destruct (btree_get (fst e) fields). }
  set (C := sumZ (map (fun f => contract_nodes (snd f)) fields)).
  set (n := sumZ (map (fun e => C * value_nodes (snd e)) vs)).
  assert (0 <= C) by (apply sumZ_map_nonneg; intros f _; pose proof (contract_nodes_pos (snd f)); lia).
  assert (n = C * sumZ (map (fun e => value_nodes (snd e)) vs)) as En by apply sumZ_map_mul.
  assert (0 <= sumZ (map (fun e => value_nodes (snd e)) vs)).
  { apply sumZ_map_nonneg. intros e _. pose proof (value_nodes_pos (snd e)). lia. }
  cbn [contract_nodes value_nodes] in *. fold C in Hmax |- *.
  apply (runs_weaken _ _ n _ (forallb (field_accepts fields) vs)); [nia|done|].
  apply runs_each.
  - intros e _. pose proof (value_nodes_pos (snd e)). nia.
  - intros e s' He Hs' Hl. rewrite btree_get_map. unfold field_accepts. fold n in Hl.
    destruct (btree_get (fst e) fields) as [c|] eqn:Ec; cbn [fmap option_fmap option_map].
    + pose proof (field_nodes_le _ _ _ Ec) as HcC. fold C in HcC. pose proof (value_nodes_pos (snd e)).
      apply (runs_weaken _ _ (contract_nodes c * value_nodes (snd e)) _ (accepts c (snd e))); [nia|done|].
      assert (contract_nodes c * value_nodes (snd e) <= C * value_nodes (snd e)) by nia.
      rewrite Forall_forall in IH. apply (IH (fst e, c)); [by apply btree_get_In|lia|]. cbn [snd]. nia.
    + apply runs_fail. pose proof (value_nodes_pos (snd e)). nia.
Qed.

Lemma validates_union variants : Forall validates variants -> validates (C_Union variants).
Proof.
  intros IH v s Hs Hmax. cbn [validate_value_at]. apply runs_node; [done..|].
  pose proof (value_nodes_pos v).
  set (n := sumZ (map (fun c => value_nodes v * contract_nodes c) variants)).
  assert (n = value_nodes v * sumZ (map contract_nodes variants)) as En by apply sumZ_map_mul.
  assert (0 <= sumZ (map contract_nodes variants)).
  { apply sumZ_map_nonneg. intros c _. pose proof (contract_nodes_pos c). lia. }
  cbn [contract_nodes accepts] in *.
  apply (runs_weaken _ _ (n + 0) _ (true && existsb (fun c => accepts c v) variants)); [nia|done|].
  eapply runs_bind; [done|apply (runs_any _ (fun c => value_nodes v * contract_nodes c)
    (fun c => accepts c v))|].
  - intros c _. pose proof (contract_nodes_pos c). nia.
  - intros c s' Hc Hs' Hl. fold n in Hl. rewrite Z.mul_comm. rewrite Forall_forall in IH.
    apply IH; [done|lia|nia].
  - intros b s' -> _. destruct (existsb _ _); [by apply runs_ret|by apply runs_fail].
Qed.

(** A contract and value within the budget are validated as the reference says. *)
Lemma validate_runs c : validates c.
Proof.
  induction c using contract_induction; [| | | | | | | | | |by apply validates_array
    |by apply validates_object|by apply validates_union];
    intros v s Hs Hmax; cbn [validate_value_at]; (apply runs_node; [done..|]);
    destruct v; cbn [accepts];
    first [by apply runs_ret | by apply runs_fail
          | rewrite <- validate_value_bounds_ok; by apply runs_lift
          | rewrite <- validate_length_ok; by apply runs_lift | idtac].
  - destruct k as [k|]; cbn [is_some_and]; [|by apply runs_ret].
    repeat case_bool_decide; first [by apply runs_ret | by apply runs_fail | congruence].
  - case_bool_decide; [by apply runs_ret|by apply runs_fail].
Qed.

(** ** What a successful run shows, whatever the budget *)

Definition yields {A} (m : stepped A) (Q : A -> Prop) : Prop :=
  forall s a s', m s = (Ok a, s') -> Q a.

Lemma yields_ret {A} (a : A) (Q : A -> Prop) : Q a -> yields (sret a) Q.
Proof. by intros HQ s b s' [= <- _]. Qed.
Lemma yields_fail {A} e (Q : A -> Prop) : yields (sfail e) Q.
Proof. done. Qed.
Lemma yields_lift {A} (r : result ValidationError A) (Q : A -> Prop) :
  (forall a, r = Ok a -> Q a) -> yields (slift r) Q.
Proof. intros HQ s a s' [= -> _]. by apply HQ. Qed.
Lemma yields_bind {A B} (m : stepped A) (k : A -> stepped B) R Q :
  yields m R -> (forall a, R a -> yields (k a) Q) -> yields (sbind m k) Q.
Proof.
  intros Hm Hk s b s'. unfold sbind. destruct (m s) as [[a|e] s1] eqn:E; [|done].
  apply Hk. by apply (Hm s a s1).
Qed.
Lemma yields_spend {A} (m : stepped A) Q : yields m Q -> yields (spend m) Q.
Proof. intros Hm s a s'. unfold spend. case_match; [done|]. apply Hm. Qed.

Lemma yields_each {A} (f : A -> stepped unit) (P : A -> Prop) l :
  (forall x, x ∈ l -> yields (f x) (fun _ => P x)) -> yields (stry_each f l) (fun _ => Forall P l).
Proof.
  induction l as [|x l IH]; intros Hf; cbn [stry_each]; [by apply yields_ret|].
  apply (yields_bind _ _ (fun _ => P x)); [apply Hf; left|]. intros _ Hx s a s' E.
  constructor; [done|]. apply (IH ltac:(intros; apply Hf; by right) s a s' E).
Qed.

Lemma yields_map {A B} (f : A -> stepped B) (R : A -> B -> Prop) l :
  (forall x, x ∈ l -> yields (f x) (R x)) -> yields (stry_map f l) (Forall2 R l).
Proof.
  induction l as [|x l IH]; intros Hf; cbn [stry_map]; [apply yields_ret; constructor|].
  apply (yields_bind _ _ (R x)); [apply Hf; left|]. intros y Hy.
  apply (yields_bind _ _ (Forall2 R l)); [apply IH; intros; apply Hf; by right|].
  intros ys Hys. apply yields_ret. by constructor.
Qed.

Lemma yields_any {A} (f : A -> stepped unit) (P : A -> Prop) l :
  (forall x, x ∈ l -> yields (f x) (fun _ => P x)) ->
  yields (sany (map f l)) (fun b => b = true -> Exists P l).
Proof.
  induction l as [|x l IH]; intros Hf s b s'; cbn [map sany]; [by intros [= <- _]|].
  destruct (f x s) as [[u|e] s1] eqn:E.
  - intros [= <- _] _. left. by apply (Hf x ltac:(left) s u s1).
  - intros H Hb. right. apply (IH ltac:(intros; apply Hf; by right) s1 b s' H Hb).
Qed.

Lemma validate_value_yields c v : yields (validate_value_at c v) (fun _ => accepts c v = true).
Proof.
  revert v; induction c using contract_induction; intros v; cbn [validate_value_at];
    apply yields_spend; lazymatch goal with
    | |- yields _ (fun _ => accepts (C_Array _ _ _) _ = true) =>
        destruct v; cbn [accepts]; try by apply yields_fail
    | |- yields _ (fun _ => accepts (C_Object _ _) _ = true) =>
        destruct v; try by apply yields_fail
    | |- yields _ (fun _ => accepts (C_Union _) _ = true) => idtac
    | _ => destruct v; cbn [accepts];
      first [by apply yields_ret | by apply yields_fail
        | rewrite <- validate_value_bounds_ok; apply yields_lift; intros ? ->; done
        | rewrite <- validate_length_ok; apply yields_lift; intros ? ->; done | idtac]
    end.
  - destruct k as [k|]; cbn [is_some_and]; [|by apply yields_ret].
    repeat case_bool_decide; first [by apply yields_ret | by apply yields_fail | congruence].
  - case_bool_decide; [by apply yields_ret|by apply yields_fail].
  - apply (yields_bind _ _ (fun _ => bounds_ok Z.ltb a b (len vs) = true)).
    { rewrite <- validate_length_ok. apply yields_lift. by intros ? ->. }
    intros _ ->. intros s u s' E. cbn [andb]. apply forallb_forall. intros w Hw%list_elem_of_In.
    revert w Hw. apply Forall_forall. by apply (yields_each _ (fun w => accepts c w = true)) in E.
  - rewrite object_shape_ok. destruct (_ && _) eqn:E; cbn [negb]; [|by apply yields_fail].
    rewrite accepts_object. apply andb_true_iff in E as [_ ->]. rewrite andb_true_r.
    intros s u s' E. apply forallb_forall. intros e He%list_elem_of_In. revert e He. apply Forall_forall.
    apply (yields_each _ (fun e => field_accepts fs e = true)) in E; [done|].
    intros e _. rewrite btree_get_map. unfold field_accepts.
    destruct (btree_get (fst e) fs) as [c|] eqn:Ec; cbn; [|by apply yields_fail].
    rewrite Forall_forall in H. apply (H (fst e, c)). by apply btree_get_In.
  - apply (yields_bind _ _ (fun b => b = true -> Exists (fun c => accepts c v = true) vs)).
    { apply yields_any. intros c Hc. rewrite Forall_forall in H. by apply H. }
    intros [] Hb; [|by apply yields_fail]. apply yields_ret. cbn [accepts]. apply existsb_exists.
    apply Exists_exists in Hb as (c & Hc & Ha); [|done]. exists c. by rewrite <- list_elem_of_In.
Qed.

Lemma validate_value_sound c v : validate_value c v = Ok tt -> accepts c v = true.
Proof.
  unfold validate_value. destruct (validate_value_at c v 0) as [r s] eqn:E. cbn. intros ->.
  by apply (validate_value_yields c v 0 tt s).
Qed.

Lemma validate_value_complete c v : accepts c v = true -> within_budget c v -> validate_value c v = Ok tt.
Proof.
  intros Ha Hb. unfold validate_value, within_budget in *.
  destruct (validate_runs c v 0) as (r & s' & -> & _ & Hok & _); [lia|lia|].
  rewrite Ha in Hok. destruct r as [[]|]; [done|discriminate].
Qed.

Lemma validate_value_is_ok c v : within_budget c v -> is_ok (validate_value c v) = accepts c v.
Proof.
  intros Hb. destruct (accepts c v) eqn:Ha; [by rewrite validate_value_complete|].
  destruct (validate_value c v) as [[]|] eqn:E; [|done]. by apply validate_value_sound in E; congruence.
Qed.

(** C29: Validation implements the meaning of contracts.  It accepts only values the contract admits,
    whatever their size; and a contract and value whose node counts multiply to at most the budget of
    200,000 steps are accepted exactly when the contract admits the value, so the budget never turns
    an admitted value of that size away. *)
Theorem validate_value_spec c v :
  (validate_value c v = Ok tt -> accepts c v = true)
  /\ (within_budget c v -> validate_value c v = Ok tt <-> accepts c v = true).
Proof.
  split; [apply validate_value_sound|]. intros Hb.
  split; [apply validate_value_sound|]. intros Ha. by apply validate_value_complete.
Qed.

(** A user contract with a bounded array and an optional field. *)
Definition sample_contract : Contract :=
  C_Object [(text "age", C_Int64 (Some 0) None); (text "tags", C_Array (C_String None (Some 8)) None (Some 3))]
    [text "tags"].
Definition sample_document : CanonicalValue :=
  CV_Object [(text "age", CV_Int64 42); (text "tags", CV_Array [CV_String (text "a")])].

Lemma validate_value_spec_witness : within_budget sample_contract sample_document
  /\ validate_value sample_contract sample_document = Ok tt
  /\ accepts sample_contract sample_document = true.
Proof.
  assert (within_budget sample_contract sample_document) as Hb by (by vm_compute).
  split_and!; [done|by vm_compute|].
  apply (validate_value_spec sample_contract sample_document); [done|]. by vm_compute.
Defined.
