(* ===== verification/ContractViews.v ===== *)
(** * Release views of stored documents

    Projection of a stored document to the view of a Release ([project_value] of
    [crates/runku-contracts/src/lib.rs]): what projection returns the contract admits, and within the
    budget it succeeds exactly on the values that have a view. *)

From Stdlib Require Import Strings.Byte ZArith Lia.
From stdpp Require Import prelude strings list.
From S2P Require Import Prelude Order BTreeMap Ulid Value Core Contracts ContractSemantics.

(** The invariant of the [BTreeMap]s inside a contract. *)
Fixpoint contract_ok (c : Contract) : bool :=
  match c with
  | C_Array items _ _ => contract_ok items
  | C_Object fields _ => keys_sorted (map fst fields) && forallb (fun f => contract_ok (snd f)) fields
  | C_Union variants => forallb contract_ok variants
  | _ => true
  end.

(** ** Projection is sound *)

(** The values [fields] keeps of [stored]: one for each declared field that is present. *)
Definition projected_field (R : bytes * Contract -> CanonicalValue -> CanonicalValue -> Prop)
  (stored : list (bytes * CanonicalValue)) (optional : list bytes)
  : list (bytes * Contract) -> list (bytes * CanonicalValue) -> Prop :=
  fix go fields projected :=
    match fields with
    | [] => projected = []
    | f :: fields =>
        match btree_get (fst f) stored with
        | Some v => exists p rest, projected = (fst f, p) :: rest /\ R f v p /\ go fields rest
        | None => fst f ∈ optional /\ go fields projected
        end
    end.

Lemma project_fields_yields R optional stored fields :
  (forall f v, f ∈ fields -> btree_get (fst f) stored = Some v ->
     yields (project_value_at (snd f) v) (R f v)) ->
  yields (project_fields optional stored (map (fun f => (fst f, project_value_at (snd f))) fields))
    (projected_field R stored optional fields).
Proof.
  induction fields as [|f fields IH]; intros Hf; cbn [map project_fields projected_field].
  { by apply yields_ret. }
  destruct (btree_get (fst f) stored) as [v|] eqn:E.
  - apply (yields_bind _ _ (R f v)); [apply Hf; [left|done]|]. intros p Hp.
    apply (yields_bind _ _ (projected_field R stored optional fields)).
    + apply IH. intros; apply Hf; [by right|done].
    + intros rest Hrest. apply yields_ret. eauto.
  - case_bool_decide as Ho; [|by apply yields_fail]. intros s ps s' Hps. split; [done|].
    revert Hps. apply IH. intros; apply Hf; [by right|done].
Qed.

Lemma projected_field_keys R stored optional fields ps :
  projected_field R stored optional fields ps ->
  forall k p, (k, p) ∈ ps -> exists f v, f ∈ fields /\ fst f = k /\ btree_get k stored = Some v /\ R f v p.
Proof.
  revert ps; induction fields as [|f fields IH]; intros ps; cbn [projected_field].
  { intros ->. by intros k p ?%elem_of_nil. }
  destruct (btree_get (fst f) stored) as [v|] eqn:E.
  - intros (q & rest & -> & Hq & Hrest) k p [[= -> ->]|Hin]%elem_of_cons.
    + exists f, v. split_and!; [left|done..].
    + destruct (IH rest Hrest k p Hin) as (f' & v' & Hf' & ?). exists f', v'. split; [by right|done].
  - intros [_ Hps] k p Hin. destruct (IH ps Hps k p Hin) as (f' & v' & Hf' & ?).
    exists f', v'. split; [by right|done].
Qed.

Lemma projected_field_present R stored optional fields ps :
  projected_field R stored optional fields ps ->
  forall f, f ∈ fields -> fst f ∈ optional \/ fst f ∈ map fst ps.
Proof.
  revert ps; induction fields as [|f fields IH]; intros ps; cbn [projected_field].
  { by intros _ f ?%elem_of_nil. }
  destruct (btree_get (fst f) stored) as [v|] eqn:E.
  - intros (q & rest & -> & Hq & Hrest) g [->|Hin]%elem_of_cons; [right; left|].
    destruct (IH rest Hrest g Hin); [by left|right; by right].
  - intros [Ho Hps] g [->|Hin]%elem_of_cons; [by left|]. by apply IH.
Qed.

Lemma sorted_field_get (fields : list (bytes * Contract)) f : keys_sorted (map fst fields) = true ->
  f ∈ fields -> btree_get (fst f) fields = Some (snd f).
Proof. intros Hs Hf. apply btree_In_get; [done|]. by destruct f. Qed.

Lemma sumZ_perm l k : l ≡ₚ k -> sumZ l = sumZ k.
Proof. unfold sumZ. induction 1; cbn; lia. Qed.

Lemma sumZ_submseteq {A} (g : A -> Z) l k : (forall x, 0 <= g x) -> l ⊆+ k ->
  sumZ (map g l) <= sumZ (map g k).
Proof.
  intros Hg (r & Hr)%submseteq_Permutation. rewrite (sumZ_perm (map g k) (map g (l ++ r))).
  - rewrite map_app. assert (0 <= sumZ (map g r)) by (apply sumZ_map_nonneg; intros; apply Hg).
    assert (forall a b, sumZ (a ++ b) = sumZ a + sumZ b) as ->; [|lia].
    intros a b. induction a as [|x a IHa]; cbn; [done|]. fold (sumZ (a ++ b)) (sumZ a). lia.
  - by rewrite Hr.
Qed.

(** The stored entries a projection reads. *)
Definition read_entries (stored : list (bytes * CanonicalValue)) (fields : list (bytes * Contract))
  : list (bytes * CanonicalValue) :=
  omap (fun f => v ← btree_get (fst f) stored; Some (fst f, v)) fields.

Lemma read_entries_submseteq stored fields : keys_sorted (map fst fields) = true ->
  read_entries stored fields ⊆+ stored.
Proof.
  intros Hs%keys_sorted_NoDup. unfold read_entries. apply NoDup_submseteq.
  - induction fields as [|f fields IH]; cbn; [constructor|].
    apply NoDup_cons in Hs as [Hf Hs]. destruct (btree_get (fst f) stored) as [v|]; cbn; [|by apply IH].
    constructor; [|by apply IH]. intros (g & Hg & Ho)%list_elem_of_omap.
    destruct (btree_get (fst g) stored); cbn in Ho; [|done]. injection Ho as Eg _. apply Hf.
    rewrite <- Eg. by apply list_elem_of_fmap_2.
  - intros [k v] (f & _ & Ho)%list_elem_of_omap.
    destruct (btree_get (fst f) stored) eqn:E; cbn in Ho; [|done]. injection Ho as <- <-.
    by apply btree_get_In.
Qed.

Lemma projected_field_nodes R stored optional fields ps :
  keys_sorted (map fst fields) = true ->
  (forall f v p, f ∈ fields -> R f v p -> value_nodes p <= value_nodes v) ->
  projected_field R stored optional fields ps ->
  sumZ (map (fun e => value_nodes (snd e)) ps) <= sumZ (map (fun e => value_nodes (snd e)) stored).
Proof.
  intros Hs HR Hps. etransitivity.
  2:{ apply sumZ_submseteq, read_entries_submseteq, Hs.
      intros x. pose proof (value_nodes_pos (snd x)). lia. }
  clear Hs. revert ps Hps. induction fields as [|f fields IH]; intros ps; cbn [projected_field].
  { by intros ->. }
  unfold read_entries. cbn [omap list_omap]. fold (read_entries stored fields).
  destruct (btree_get (fst f) stored) as [v|] eqn:E; cbn [mbind option_bind].
  - intros (q & rest & -> & Hq & Hrest). cbn [map snd sumZ foldr].
    assert (value_nodes q <= value_nodes v) by (apply (HR f); [left|done]).
    specialize (IH ltac:(intros; eapply HR; [by right|done]) rest Hrest).
    fold (sumZ (map (fun e => value_nodes (snd e)) rest)).
    change (omap _ fields) with (read_entries stored fields).
    fold (sumZ (map (fun e => value_nodes (snd e)) (read_entries stored fields))). lia.
  - intros [_ Hps]. apply IH; [intros; eapply HR; [by right|done]|done].
Qed.

(** What a projection returns: a value the contract admits, no larger than the stored one. *)
Definition view_ok (c : Contract) (v p : CanonicalValue) : Prop :=
  accepts c p = true /\ value_nodes p <= value_nodes v.

Lemma project_object_ok fields optional stored ps : keys_sorted (map fst fields) = true ->
  projected_field (fun f => view_ok (snd f)) stored optional fields ps ->
  view_ok (C_Object fields optional) (CV_Object stored) (CV_Object ps).
Proof.
  intros Hs Hps. split.
  - rewrite accepts_object. apply andb_true_iff. split; apply forallb_forall.
    + intros [k p] Hin%list_elem_of_In.
      destruct (projected_field_keys _ _ _ _ _ Hps k p Hin) as (f & v & Hf & <- & _ & Ha & _).
      unfold field_accepts. cbn [fst snd]. by rewrite (sorted_field_get fields f).
    + intros f Hf%list_elem_of_In. apply orb_true_iff.
      destruct (projected_field_present _ _ _ _ _ Hps f Hf) as [Ho|Hin].
      * left. by apply bool_decide_eq_true.
      * right. by apply btree_contains_spec.
  - cbn [value_nodes]. pose proof (projected_field_nodes _ _ _ _ _ Hs (fun f v p _ H => proj2 H) Hps). lia.
Qed.

Lemma project_items_nodes c vs ps : Forall2 (view_ok c) vs ps ->
  sumZ (map value_nodes ps) <= sumZ (map value_nodes vs).
Proof.
  induction 1 as [|v p vs ps [_ Hn] _ IH]; [done|]. cbn.
  fold (sumZ (map value_nodes ps)) (sumZ (map value_nodes vs)). lia.
Qed.

Lemma project_variants_yields (Q : CanonicalValue -> Prop) v vs :
  (forall c, c ∈ vs -> yields (project_value_at c v) (fun p => accepts c p = true -> Q p)) ->
  yields (project_variants (map (fun c => (project_value_at c v, validate_value c)) vs)) Q.
Proof.
  induction vs as [|c vs IH]; intros Hvs s p s'; cbn [map project_variants]; [done|].
  destruct (project_value_at c v s) as [[q|e] s1] eqn:E.
  - destruct (is_ok (validate_value c q)) eqn:Eq.
    + intros [= <- _]. destruct (validate_value c q) as [[]|] eqn:Ev; [|done].
      apply (Hvs c ltac:(left) _ _ _ E). by apply validate_value_sound.
    + apply IH. intros; apply Hvs; by right.
  - apply IH. intros; apply Hvs; by right.
Qed.

Lemma project_yields c v : contract_ok c = true -> yields (project_value_at c v) (view_ok c v).
Proof.
  assert (forall c v, yields (let^ _ := slift (validate_value c v) in sret v) (view_ok c v)) as Hleaf.
  { intros c0 v0. apply (yields_bind _ _ (fun _ => accepts c0 v0 = true)).
    - apply yields_lift. intros []. apply validate_value_sound.
    - intros _ Ha. apply yields_ret. split; [done|lia]. }
  revert v; induction c using contract_induction; intros v Hok; cbn [project_value_at]; apply yields_spend;
    try (destruct v; apply Hleaf); cbn [contract_ok] in Hok.
  - apply yields_ret. split; [done|lia].
  - destruct v as [| | | | | | | |vs|]; try apply Hleaf. apply (yields_bind _ _ (Forall2 (view_ok c) vs)).
    + apply yields_map. intros x _. by apply IHc.
    + intros ps Hps. apply (yields_bind _ _ (fun _ => accepts (C_Array c a b) (CV_Array ps) = true)).
      * apply yields_lift. intros []. apply validate_value_sound.
      * intros _ Ha. apply yields_ret. split; [done|]. cbn [value_nodes].
        pose proof (project_items_nodes c _ _ Hps). lia.
  - destruct v as [| | | | | | | | |stored]; try apply Hleaf. apply andb_true_iff in Hok as [Hs Hok].
    apply (yields_bind _ _ (projected_field (fun f => view_ok (snd f)) stored o fs)).
    + apply project_fields_yields. intros f w Hf _. rewrite Forall_forall in H. apply H; [done|].
      rewrite forallb_forall in Hok. apply Hok. by apply list_elem_of_In.
    + intros ps Hps. apply yields_ret. by apply project_object_ok.
  - apply project_variants_yields. intros c Hc s p s' E Ha. rewrite Forall_forall in H.
    rewrite forallb_forall in Hok. apply list_elem_of_In in Hc as Hc'.
    destruct (H c Hc v (Hok c Hc') s p s' E) as [_ Hn]. split; [|done].
    cbn [accepts]. apply existsb_exists. eauto.
Qed.

(** ** Projection within the budget *)

(** Whether [v] has a view in [c]: declared fields present or optional, unknown fields ignored. *)
Fixpoint readable (c : Contract) (v : CanonicalValue) : bool :=
  match c, v with
  | C_Any, _ => true
  | C_Array items lo hi, CV_Array vs => forallb (readable items) vs && bounds_ok Z.ltb lo hi (len vs)
  | C_Object fields optional, CV_Object vs =>
      forallb (fun f => match btree_get (fst f) vs with
                        | Some w => readable (snd f) w
                        | None => bool_decide (fst f ∈ optional)
                        end) fields
  | C_Union variants, v => existsb (fun c => readable c v) variants
  | c, v => accepts c v
  end.

Lemma runs_yields {A} (m : stepped A) s n ok Q Q' :
  runs m s n ok Q -> yields m Q' -> runs m s n ok Q'.
Proof.
  intros (r & s' & E & Hs & Hok & _) Hy. exists r, s'. split_and!; try done; try lia.
  intros a ->. by apply (Hy s a s').
Qed.

Lemma runs_map {A B} (f : A -> stepped B) (cost : A -> Z) (ok : A -> bool) l s :
  (forall x, x ∈ l -> 0 <= cost x) ->
  (forall x s', x ∈ l -> s <= s' -> s' + cost x <= s + sumZ (map cost l) ->
     runs (f x) s' (cost x) (ok x) (fun _ => True)) ->
  runs (stry_map f l) s (sumZ (map cost l)) (forallb ok l) (fun _ => True).
Proof.
  revert s; induction l as [|x l IH]; intros s Hc Hf; cbn [stry_map map sumZ foldr forallb].
  { by apply runs_ret. }
  assert (0 <= sumZ (map cost l)).
  { apply sumZ_map_nonneg. intros y Hy%list_elem_of_In. apply Hc. by right. }
  fold (sumZ (map cost l)). assert (0 <= cost x) by (apply Hc; left).
  apply (runs_bind _ _ _ _ _ _ _ (fun _ => True)); [done| |].
  - apply Hf; [left|lia|]. cbn. fold (sumZ (map cost l)). lia.
  - intros y s' _ Hs'. rewrite <- (andb_true_r (forallb ok l)).
    rewrite <- (Z.add_0_r (sumZ (map cost l))).
    apply (runs_bind _ _ _ _ _ _ _ (fun _ => True)); [done| |intros ys s2 _ _; by apply runs_ret].
    apply IH; [intros; apply Hc; by right|]. intros z s2 Hz Hs2 Hl. apply Hf; [by right|lia|].
    cbn. fold (sumZ (map cost l)). lia.
Qed.

(** The steps a projection spends on one declared field. *)
Definition field_cost (stored : list (bytes * CanonicalValue)) (f : bytes * Contract) : Z :=
  match btree_get (fst f) stored with
  | Some v => contract_nodes (snd f) * value_nodes v
  | None => 0
  end.
Definition field_readable (stored : list (bytes * CanonicalValue)) (optional : list bytes)
  (f : bytes * Contract) : bool :=
  match btree_get (fst f) stored with
  | Some v => readable (snd f) v
  | None => bool_decide (fst f ∈ optional)
  end.

Lemma field_cost_nonneg stored f : 0 <= field_cost stored f.
Proof.
  unfold field_cost. destruct (btree_get (fst f) stored) as [v|]; [|lia].
  pose proof (contract_nodes_pos (snd f)). pose proof (value_nodes_pos v). nia.
Qed.

Lemma stored_nodes_le k v stored : btree_get k stored = Some v ->
  value_nodes v <= sumZ (map (fun e => value_nodes (snd e)) stored).
Proof.
  intros Hk%btree_get_In. apply (sumZ_map_le (fun e => value_nodes (snd e)) stored (k, v)).
  - intros y _. pose proof (value_nodes_pos (snd y)). lia.
  - by apply list_elem_of_In.
Qed.

Lemma field_costs_le stored fields :
  sumZ (map (field_cost stored) fields) <=
  sumZ (map (fun f => contract_nodes (snd f)) fields) * sumZ (map (fun e => value_nodes (snd e)) stored).
Proof.
  set (V := sumZ (map (fun e => value_nodes (snd e)) stored)).
  assert (0 <= V) by (apply sumZ_map_nonneg; intros e _; pose proof (value_nodes_pos (snd e)); lia).
  induction fields as [|f fields IH]; cbn; [lia|].
  fold (sumZ (map (field_cost stored) fields)) (sumZ (map (fun f => contract_nodes (snd f)) fields)).
  assert (field_cost stored f <= contract_nodes (snd f) * V); [|lia].
  unfold field_cost. pose proof (contract_nodes_pos (snd f)).
  destruct (btree_get (fst f) stored) as [v|] eqn:E; [|nia].
  pose proof (stored_nodes_le _ _ _ E) as Hv. fold V in Hv. nia.
Qed.

Lemma project_fields_runs optional stored fields s :
  (forall f v s', f ∈ fields -> btree_get (fst f) stored = Some v -> s <= s' ->
     s' + contract_nodes (snd f) * value_nodes v <= s + sumZ (map (field_cost stored) fields) ->
     runs (project_value_at (snd f) v) s' (contract_nodes (snd f) * value_nodes v)
       (readable (snd f) v) (fun _ => True)) ->
  runs (project_fields optional stored (map (fun f => (fst f, project_value_at (snd f))) fields)) s
    (sumZ (map (field_cost stored) fields)) (forallb (field_readable stored optional) fields) (fun _ => True).
Proof.
  revert s; induction fields as [|f fields IH]; intros s Hf; cbn [map project_fields forallb sumZ foldr].
  { by apply runs_ret. }
  fold (sumZ (map (field_cost stored) fields)).
  assert (0 <= sumZ (map (field_cost stored) fields)) as Hnn.
  { apply sumZ_map_nonneg. intros y _. apply field_cost_nonneg. }
  assert (forall s1, s <= s1 <= s + field_cost stored f ->
    runs (project_fields optional stored (map (fun f => (fst f, project_value_at (snd f))) fields)) s1
      (sumZ (map (field_cost stored) fields)) (forallb (field_readable stored optional) fields)
      (fun _ => True)) as Hrest.
  { intros s1 Hs1. apply IH. intros g v s' Hg Hv Hs' Hl. apply Hf; [by right|done|lia|].
    cbn. fold (sumZ (map (field_cost stored) fields)). lia. }
  unfold field_readable at 1. unfold field_cost at 1. unfold field_cost at 1 in Hrest.
  destruct (btree_get (fst f) stored) as [v|] eqn:E.
  - apply (runs_bind _ _ _ _ _ _ _ (fun _ => True)); [done| |].
    + apply Hf; [left|done|lia|]. cbn. fold (sumZ (map (field_cost stored) fields)).
      unfold field_cost at 1. rewrite E. lia.
    + intros p s1 _ Hs1. rewrite <- (andb_true_r (forallb _ fields)).
      rewrite <- (Z.add_0_r (sumZ (map (field_cost stored) fields))).
      apply (runs_bind _ _ _ _ _ _ _ (fun _ => True)); [done|by apply Hrest|].
      intros ps s2 _ _. by apply runs_ret.
  - case_bool_decide; [apply Hrest; lia|]. apply runs_fail. lia.
Qed.

Lemma project_variants_runs v (vs : list Contract) (cost : Contract -> Z) s :
  (forall c, c ∈ vs -> 0 <= cost c) ->
  (forall c s', c ∈ vs -> s <= s' -> s' + cost c <= s + sumZ (map cost vs) ->
     runs (project_value_at c v) s' (cost c) (readable c v) (fun p => is_ok (validate_value c p) = true)) ->
  runs (project_variants (map (fun c => (project_value_at c v, validate_value c)) vs)) s
    (sumZ (map cost vs)) (existsb (fun c => readable c v) vs) (fun _ => True).
Proof.
  revert s; induction vs as [|c vs IH]; intros s Hc Hf; cbn [map sumZ foldr existsb].
  { exists (Err VE_UnionMismatch), s. split_and!; try done; lia. }
  assert (0 <= sumZ (map cost vs)).
  { apply sumZ_map_nonneg. intros y Hy%list_elem_of_In. apply Hc. by right. }
  fold (sumZ (map cost vs)). assert (0 <= cost c) by (apply Hc; left).
  destruct (Hf c s) as (r & s1 & E1 & Hs1 & Hok & HQ); [left|lia|cbn; fold (sumZ (map cost vs)); lia|].
  unfold runs. cbn [project_variants]. rewrite E1, <- Hok. destruct r as [p|e]; cbn [is_ok orb].
  - rewrite (HQ p eq_refl). exists (Ok p), s1. split_and!; try done; lia.
  - destruct (IH s1) as (r & s2 & E2 & Hs2 & Hr & _).
    + intros; apply Hc; by right.
    + intros y s' Hy Hs' Hl. apply Hf; [by right|lia|]. cbn. fold (sumZ (map cost vs)). lia.
    + exists r, s2. split_and!; try done; lia.
Qed.

Lemma view_within_budget c v p : view_ok c v p ->
  contract_nodes c * value_nodes v <= VALIDATION_MAX_STEPS -> validate_value c p = Ok tt.
Proof.
  intros [Ha Hn] Hb. apply validate_value_complete; [done|]. unfold within_budget.
  pose proof (contract_nodes_pos c). nia.
Qed.

Definition projects (c : Contract) : Prop := forall v s, contract_ok c = true ->
  0 <= s -> s + contract_nodes c * value_nodes v <= VALIDATION_MAX_STEPS ->
  runs (project_value_at c v) s (contract_nodes c * value_nodes v) (readable c v) (view_ok c v).

Lemma leaf_projects c v s n : 0 <= n -> within_budget c v ->
  runs (let^ _ := slift (validate_value c v) in sret v) s n (accepts c v) (fun _ => True).
Proof.
  intros Hn Hb. apply (runs_weaken _ _ (0 + n) _ (is_ok (validate_value c v) && true)); [lia| |].
  - rewrite andb_true_r. by apply validate_value_is_ok.
  - apply (runs_bind _ _ _ _ _ _ _ (fun _ => True)); [done|by apply runs_lift|].
    intros _ s' _ _. by apply runs_ret.
Qed.

Lemma projects_array items lo hi : projects items -> projects (C_Array items lo hi).
Proof.
  intros IH v s Hok Hs Hmax. eapply runs_yields; [|by apply project_yields].
  cbn [project_value_at]. apply runs_node; [done..|].
  destruct v as [| | | | | | | |vs|]; try (apply leaf_projects; [apply node_room|unfold within_budget; lia]).
  cbn [readable]. pose proof (contract_nodes_pos items).
  set (n := sumZ (map (fun w => contract_nodes items * value_nodes w) vs)).
  assert (n = contract_nodes items * sumZ (map value_nodes vs)) as En by apply sumZ_map_mul.
  assert (0 <= sumZ (map value_nodes vs)).
  { apply sumZ_map_nonneg. intros w _. pose proof (value_nodes_pos w). lia. }
  apply (runs_weaken _ _ (n + 0) _ (forallb (readable items) vs && bounds_ok Z.ltb lo hi (len vs))).
  { cbn [contract_nodes value_nodes]. nia. }
  { done. }
  eapply (runs_bind _ _ _ _ _ _ _ (Forall2 (view_ok items) vs)); [done| |].
  - eapply runs_yields; [|apply yields_map; intros x _; by apply project_yields].
    apply runs_map; [intros w _; pose proof (value_nodes_pos w); nia|].
    intros w s' Hw Hs' Hl. fold n in Hl. eapply runs_yields; [|by intros ? ? ?].
    apply IH; [done|lia|]. cbn [contract_nodes value_nodes] in Hmax. nia.
  - intros ps s' Hps Hs'. rewrite (Forall2_length _ _ _ Hps : length vs = length ps) || idtac.
    apply (runs_weaken _ _ (0 + 0) _ (is_ok (validate_value (C_Array items lo hi) (CV_Array ps)) && true)).
    + done.
    + rewrite andb_true_r, validate_value_is_ok.
      * cbn [accepts]. unfold len. rewrite (Forall2_length _ _ _ Hps).
        replace (forallb (accepts items) ps) with true; [by rewrite andb_true_r|].
        symmetry. apply forallb_forall. intros p Hp%list_elem_of_In.
        destruct (Forall2_elem_r _ _ _ p Hps Hp) as (w & _ & [Ha _]). done.
      * unfold within_budget. cbn [contract_nodes value_nodes] in Hmax |- *.
        pose proof (project_items_nodes items _ _ Hps). nia.
    + apply (runs_bind _ _ _ _ _ _ _ (fun _ => True)); [done|by apply runs_lift|].
      intros _ s2 _ _. by apply runs_ret.
Qed.

Lemma projects_object fields optional :
  Forall (fun f => projects (snd f)) fields -> projects (C_Object fields optional).
Proof.
  intros IH v s Hok Hs Hmax. eapply runs_yields; [|by apply project_yields].
  cbn [project_value_at]. apply runs_node; [done..|].
  destruct v as [| | | | | | | | |vs]; try (apply leaf_projects; [apply node_room|unfold within_budget; lia]).
  cbn [readable contract_ok] in *. apply andb_true_iff in Hok as [_ Hok].
  pose proof (field_costs_le vs fields) as Hc. cbn [contract_nodes value_nodes] in *.
  set (C := sumZ (map (fun f => contract_nodes (snd f)) fields)) in *.
  set (V := sumZ (map (fun e => value_nodes (snd e)) vs)) in *.
  assert (0 <= C) by (apply sumZ_map_nonneg; intros f _; pose proof (contract_nodes_pos (snd f)); lia).
  assert (0 <= V) by (apply sumZ_map_nonneg; intros f _; pose proof (value_nodes_pos (snd f)); lia).
  apply (runs_weaken _ _ (sumZ (map (field_cost vs) fields) + 0) _
    (forallb (field_readable vs optional) fields && true)); [nia|by rewrite andb_true_r|].
  apply (runs_bind _ _ _ _ _ _ _ (fun _ => True)); [done| |intros ps s' _ _; by apply runs_ret].
  apply project_fields_runs. intros f v s' Hf Hv Hs' Hl. eapply runs_yields; [|by intros ? ? ?].
  rewrite Forall_forall in IH. apply (IH f Hf); [|lia|nia].
  rewrite forallb_forall in Hok. apply Hok. by apply list_elem_of_In.
Qed.

Lemma projects_union variants : Forall projects variants -> projects (C_Union variants).
Proof.
  intros IH v s Hok Hs Hmax. eapply runs_yields; [|by apply project_yields].
  cbn [project_value_at readable contract_ok] in *. apply runs_node; [done..|].
  pose proof (value_nodes_pos v).
  set (n := sumZ (map (fun c => value_nodes v * contract_nodes c) variants)).
  assert (n = value_nodes v * sumZ (map contract_nodes variants)) as En by apply sumZ_map_mul.
  assert (0 <= sumZ (map contract_nodes variants)).
  { apply sumZ_map_nonneg. intros c _. pose proof (contract_nodes_pos c). lia. }
  cbn [contract_nodes] in *.
  apply (runs_weaken _ _ n _ (existsb (fun c => readable c v) variants)); [nia|done|].
  apply project_variants_runs.
  - intros c _. pose proof (contract_nodes_pos c). nia.
  - intros c s' Hc Hs' Hl. fold n in Hl. rewrite Forall_forall in IH. rewrite forallb_forall in Hok.
    assert (contract_ok c = true) as Hokc by (apply Hok; by apply list_elem_of_In).
    assert (s' + contract_nodes c * value_nodes v <= VALIDATION_MAX_STEPS) as Hroom by nia.
    destruct (IH c Hc v s' Hokc ltac:(lia) Hroom) as (r & s2 & E & Hs2 & Hr & HQ).
    exists r, s2. split_and!; [done|lia|lia|done|]. intros p ->.
    rewrite (view_within_budget c v p); [done|by apply HQ|]. lia.
Qed.

(** Within the budget, a projection succeeds exactly when the value has a view. *)
Lemma project_runs c : projects c.
Proof.
  induction c using contract_induction; [| | | | | | | | | |by apply projects_array
    |by apply projects_object|by apply projects_union];
    intros v s Hok Hs Hmax; (apply (runs_yields _ _ _ _ (fun _ => True)); [|by apply project_yields]);
    cbn [project_value_at]; (apply runs_node; [done..|]);
    [apply runs_ret; [apply node_room|done]|..];
    destruct v; (apply leaf_projects; [apply node_room|unfold within_budget; lia]).
Qed.

Lemma project_value_readable c v : contract_ok c = true -> within_budget c v -> readable c v = true ->
  exists p, project_value c v = Ok p /\ accepts c p = true.
Proof.
  intros Hok Hb Hr. unfold project_value, within_budget in *.
  destruct (project_runs c v 0 Hok ltac:(lia) ltac:(lia)) as (r & s' & -> & _ & Hr' & HQ).
  rewrite Hr in Hr'. destruct r as [p|]; [|done]. exists p. split; [done|]. by apply HQ.
Qed.

(** An admitted value has a view. *)
Lemma accepts_readable c v : contract_ok c = true -> accepts c v = true -> readable c v = true.
Proof.
  revert v; induction c using contract_induction; intros v Hok; try done; cbn [contract_ok] in Hok.
  - destruct v; try done. cbn [accepts readable]. rewrite !andb_true_iff, !forallb_forall. naive_solver.
  - destruct v as [| | | | | | | | |vs]; try done. apply andb_true_iff in Hok as [Hs Hok].
    rewrite accepts_object. cbn [readable]. rewrite andb_true_iff, !forallb_forall.
    intros [Hvs Hfs] f Hf. rewrite Forall_forall in H. rewrite forallb_forall in Hok.
    specialize (Hfs f Hf). unfold btree_contains in Hfs.
    destruct (btree_get (fst f) vs) as [w|] eqn:E; [|by rewrite orb_false_r in Hfs].
    apply btree_get_In, list_elem_of_In, Hvs in E. unfold field_accepts in E. cbn [fst snd] in E.
    apply list_elem_of_In in Hf as Hf'. rewrite (sorted_field_get fs f Hs Hf') in E. eauto.
  - cbn [accepts readable]. rewrite !existsb_exists. intros (c & Hc & Ha). exists c.
    rewrite Forall_forall in H. rewrite forallb_forall in Hok. split; [done|].
    apply H; [by apply list_elem_of_In|by apply Hok|done].
Qed.
