(* ===== verification/ContractLens.v ===== *)
(** * Reading and writing through a Release's view

    Projection together with the merge of a Release's replacement with the fields it does not know
    ([project_value] and [preserve_unknown_fields] of [crates/runku-contracts/src/lib.rs]).  For
    contracts without unions the pair is a well-behaved lens: a Release reads back exactly what it
    wrote, and writing back what it read changes nothing. *)

From Stdlib Require Import Strings.Byte ZArith Lia.
From stdpp Require Import prelude strings list.
From S2P Require Import Prelude Order BTreeMap Ulid Value Core Contracts ContractSemantics ContractViews.

Fixpoint union_free (c : Contract) : bool :=
  match c with
  | C_Array items _ _ => union_free items
  | C_Object fields _ => forallb (fun f => union_free (snd f)) fields
  | C_Union _ => false
  | _ => true
  end.

(** ** Exact step counts, for contracts without unions *)

(** The contract nodes that meet a node of the value. *)
Fixpoint reach (c : Contract) (v : CanonicalValue) : Z :=
  match c, v with
  | C_Array items _ _, CV_Array vs => 1 + sumZ (map (reach items) vs)
  | C_Object fields _, CV_Object vs =>
      1 + sumZ (map (fun f => match btree_get (fst f) vs with
                              | Some w => reach (snd f) w
                              | None => 0
                              end) fields)
  | _, _ => 1
  end.

(** [m] succeeds with [a] after exactly [n] steps if the budget allows them, and fails otherwise. *)
Definition takes {A} (m : stepped A) (n : Z) (a : A) : Prop := 0 <= n /\ forall s, 0 <= s ->
  (s + n <= VALIDATION_MAX_STEPS -> m s = (Ok a, s + n))
  /\ (VALIDATION_MAX_STEPS < s + n -> s <= VALIDATION_MAX_STEPS -> is_ok (fst (m s)) = false).

Lemma takes_ret {A} (a : A) : takes (sret a) 0 a.
Proof. split; [lia|]. intros s Hs. split; [|lia]. intros _. by rewrite Z.add_0_r. Qed.

Lemma takes_lift {A} (a : A) : takes (slift (Ok a)) 0 a.
Proof. apply takes_ret. Qed.

Lemma takes_bind {A B} (m : stepped A) (k : A -> stepped B) n n' a b :
  takes m n a -> takes (k a) n' b -> takes (sbind m k) (n + n') b.
Proof.
  intros [Hn Hm] [Hn' Hk]. split; [lia|]. intros s Hs. destruct (Hm s Hs) as [M1 M2]. unfold sbind. split.
  - intros H. rewrite M1 by lia. destruct (Hk (s + n) ltac:(lia)) as [K1 _]. rewrite K1 by lia.
    f_equal. lia.
  - intros H Hs'. destruct (Z.le_gt_cases (s + n) VALIDATION_MAX_STEPS) as [Hle|Hgt].
    + rewrite M1 by lia. destruct (Hk (s + n) ltac:(lia)) as [_ K2]. apply K2; lia.
    + specialize (M2 ltac:(lia) Hs'). by destruct (m s) as [[]].
Qed.

Lemma takes_spend {A} (m : stepped A) n a : takes m n a -> takes (spend m) (1 + n) a.
Proof.
  intros [Hn Hm]. split; [lia|]. intros s Hs. unfold spend. split.
  - intros H. rewrite Z.min_r by (unfold usize_max, u64_max, VALIDATION_MAX_STEPS in *; lia).
    destruct (Z.ltb_spec VALIDATION_MAX_STEPS (s + 1)); [lia|].
    rewrite (proj1 (Hm (s + 1) ltac:(lia))) by lia. f_equal. lia.
  - intros H Hs'. rewrite Z.min_r by (unfold usize_max, u64_max, VALIDATION_MAX_STEPS in *; lia).
    destruct (Z.ltb_spec VALIDATION_MAX_STEPS (s + 1)); [done|].
    apply (proj2 (Hm (s + 1) ltac:(lia))); lia.
Qed.

Lemma takes_each {A} (f : A -> stepped unit) (cost : A -> Z) l :
  (forall x, x ∈ l -> takes (f x) (cost x) tt) -> takes (stry_each f l) (sumZ (map cost l)) tt.
Proof.
  induction l as [|x l IH]; intros Hf; cbn [stry_each map sumZ foldr]; [apply takes_ret|].
  fold (sumZ (map cost l)). apply (takes_bind _ _ _ _ tt); [apply Hf; left|].
  apply IH. intros; apply Hf; by right.
Qed.

Lemma takes_map {A B} (f : A -> stepped B) (cost : B -> Z) l ys :
  Forall2 (fun x y => takes (f x) (cost y) y) l ys -> takes (stry_map f l) (sumZ (map cost ys)) ys.
Proof.
  induction 1 as [|x y l ys Hxy _ IH]; cbn [stry_map map sumZ foldr]; [apply takes_ret|].
  fold (sumZ (map cost ys)). apply (takes_bind _ _ _ _ y); [done|].
  rewrite <- (Z.add_0_r (sumZ (map cost ys))). eapply takes_bind; [done|apply takes_ret].
Qed.

(** A check after [n] counted steps only matters when the budget allows them. *)
Lemma takes_guard {A B} (m : stepped A) (k : A -> stepped B) n a b :
  takes m n a -> (1 + n <= VALIDATION_MAX_STEPS -> takes (k a) 0 b) -> takes (spend (sbind m k)) (1 + n) b.
Proof.
  intros Hm Hk. destruct (Z.le_gt_cases (1 + n) VALIDATION_MAX_STEPS) as [Hle|Hgt].
  - apply takes_spend. rewrite <- (Z.add_0_r n). apply (takes_bind _ _ _ _ a); [done|by apply Hk].
  - destruct (takes_spend _ _ _ Hm) as [Hn Hs]. split; [lia|]. intros s Hs0. split; [lia|].
    intros H Hs'. destruct (Hs s Hs0) as [_ Hfail]. specialize (Hfail H Hs'). unfold spend, sbind in *.
    case_match; [done|]. by destruct (m _) as [[]].
Qed.

Lemma takes_Ok {A} (m : stepped A) n a : takes m n a -> is_ok (fst (m 0)) = true ->
  n <= VALIDATION_MAX_STEPS /\ fst (m 0) = Ok a.
Proof.
  intros [Hn Hm] Hok. destruct (Hm 0 ltac:(lia)) as [M1 M2].
  destruct (Z.le_gt_cases n VALIDATION_MAX_STEPS) as [Hle|Hgt].
  - by rewrite M1 by lia.
  - rewrite M2 in Hok; [done|lia|]. unfold VALIDATION_MAX_STEPS. lia.
Qed.

Lemma takes_run {A} (m : stepped A) n a : takes m n a -> n <= VALIDATION_MAX_STEPS -> fst (m 0) = Ok a.
Proof. intros [Hn Hm] Hle. destruct (Hm 0 ltac:(lia)) as [M1 _]. by rewrite M1 by lia. Qed.

(** ** Validation counts the nodes that meet *)

(** The sum over the values of an object is the sum over the fields present in it. *)
Lemma sum_meet_cons (g : Contract -> CanonicalValue -> Z) k c fields vs :
  k ∉ map fst fields -> NoDup (map fst vs) ->
  sumZ (map (fun e => match btree_get (fst e) ((k, c) :: fields) with
                      | Some c => g c (snd e) | None => 0 end) vs)
  = match btree_get k vs with Some w => g c w | None => 0 end
    + sumZ (map (fun e => match btree_get (fst e) fields with
                          | Some c => g c (snd e) | None => 0 end) vs).
Proof.
  intros Hk. induction vs as [|[j w] vs IH]; intros Hnd; [done|].
  cbn [map fst] in Hnd. apply NoDup_cons in Hnd as [Hj Hnd]. specialize (IH Hnd).
  cbn [map sumZ foldr]. fold (sumZ (map (fun e => match btree_get (fst e) ((k, c) :: fields) with
    | Some c => g c (snd e) | None => 0 end) vs)).
  fold (sumZ (map (fun e => match btree_get (fst e) fields with Some c => g c (snd e) | None => 0 end) vs)).
  rewrite IH. cbn [btree_get fst snd]. destruct (decide (j = k)) as [->|Hne].
  - rewrite decide_True by done. apply btree_get_None in Hj, Hk. rewrite Hj, Hk. lia.
  - rewrite (decide_False (P := k = j)) by congruence. lia.
Qed.

Lemma sum_meet (g : Contract -> CanonicalValue -> Z) fields vs :
  NoDup (map fst fields) -> NoDup (map fst vs) ->
  sumZ (map (fun e => match btree_get (fst e) fields with
                      | Some c => g c (snd e) | None => 0 end) vs)
  = sumZ (map (fun f => match btree_get (fst f) vs with
                        | Some w => g (snd f) w | None => 0 end) fields).
Proof.
  intros Hf Hv. induction fields as [|[k c] fields IH].
  - cbn. clear Hv. induction vs as [|e vs IHv]; [done|]. cbn. exact IHv.
  - cbn [map fst] in Hf. apply NoDup_cons in Hf as [Hk Hf].
    rewrite sum_meet_cons by done. rewrite IH by done. done.
Qed.

Lemma value_ok_object vs : value_ok (CV_Object vs) = true ->
  keys_sorted (map fst vs) = true /\ forall e, e ∈ vs -> value_ok (snd e) = true.
Proof.
  cbn [value_ok]. rewrite !andb_true_iff, (forallb_forall (fun f => value_ok (snd f))).
  intros [[Hs _] Hv]. split; [done|]. intros e He. apply Hv. by apply list_elem_of_In.
Qed.

Lemma value_ok_get k vs w : value_ok (CV_Object vs) = true -> btree_get k vs = Some w -> value_ok w = true.
Proof. intros [_ Hv]%value_ok_object Hk%btree_get_In. by apply (Hv (k, w)). Qed.

Lemma object_fields_ok fields optional f : contract_ok (C_Object fields optional) = true ->
  union_free (C_Object fields optional) = true -> f ∈ fields ->
  contract_ok (snd f) = true /\ union_free (snd f) = true.
Proof.
  cbn. rewrite andb_true_iff, !forallb_forall. intros [_ H1] H2 Hf%list_elem_of_In. split; auto.
Qed.

Lemma lift_leaf {A} (r : result ValidationError unit) (a : A) (k : stepped A) :
  is_ok r = true -> takes k 0 a -> takes (let^ _ := slift r in k) 0 a.
Proof. destruct r as [[]|]; [|done]. intros _ Hk. by apply (takes_bind _ _ 0 0 tt); [apply takes_lift|]. Qed.

Lemma takes_lift_unit (r : result ValidationError unit) : is_ok r = true -> takes (slift r) 0 tt.
Proof. destruct r as [[]|]; [|done]. intros _. apply takes_lift. Qed.

(** An admitted value is validated in as many steps as nodes meet. *)
Lemma validate_takes c v : contract_ok c = true -> union_free c = true -> value_ok v = true ->
  accepts c v = true -> takes (validate_value_at c v) (reach c v) tt.
Proof.
  revert v; induction c using contract_induction; intros v Hc Hu Hv Ha; cbn [validate_value_at];
    lazymatch goal with
    | |- takes _ (reach (C_Array _ _ _) _) _ => destruct v as [| | | | | | | |vs|]; try done
    | |- takes _ (reach (C_Object _ _) _) _ => destruct v as [| | | | | | | | |vs]; try done
    | |- takes _ (reach (C_Union _) _) _ => done
    | _ => change (reach _ _) with (1 + 0); destruct v; try done; apply takes_spend
    end; try apply takes_ret.
  - apply takes_lift_unit. by rewrite validate_value_bounds_ok.
  - apply takes_lift_unit. by rewrite validate_value_bounds_ok.
  - apply takes_lift_unit. by rewrite validate_length_ok.
  - apply takes_lift_unit. by rewrite validate_length_ok.
  - cbn [accepts] in Ha. destruct k as [k|]; cbn [is_some_and]; [|apply takes_ret].
    bool_facts. rewrite bool_decide_false by (by intros ?). apply takes_ret.
  - cbn [accepts] in Ha. rewrite Ha. apply takes_ret.
  - cbn [reach accepts value_ok] in *. bool_facts. apply takes_spend. rewrite <- (Z.add_0_l (sumZ _)).
    apply (takes_bind _ _ _ _ tt); [apply takes_lift_unit; by rewrite validate_length_ok|].
    apply takes_each. intros w Hw%list_elem_of_In. rewrite forallb_forall in *. auto.
  - pose proof (value_ok_object _ Hv) as [Hsv _]. pose proof Hc as Hc'. cbn [contract_ok] in Hc'.
    apply andb_true_iff in Hc' as [Hsf _]. rewrite accepts_object in Ha.
    apply andb_true_iff in Ha as [Ha Ha']. cbn [reach]. apply takes_spend.
    rewrite object_shape_ok, Ha'. rewrite andb_true_r.
    rewrite forallb_forall in Ha.
    replace (forallb (fun e => btree_contains (fst e) fs) vs) with true; cbn [negb].
    2:{ symmetry. apply forallb_forall. intros e He. specialize (Ha e He). unfold field_accepts in Ha.
        unfold btree_contains. by destruct (btree_get (fst e) fs). }
    rewrite <- sum_meet by (by apply keys_sorted_NoDup).
    apply takes_each. intros e He. rewrite btree_get_map.
    pose proof (Ha e ltac:(by apply list_elem_of_In)) as Hf. unfold field_accepts in Hf.
    destruct (btree_get (fst e) fs) as [c|] eqn:Ec; [|done]. cbn.
    apply btree_get_In in Ec. rewrite Forall_forall in H.
    destruct (object_fields_ok fs o _ Hc Hu Ec). apply (H _ Ec); [done..| |done].
    pose proof (value_ok_object _ Hv) as [_ Hvs]. by apply Hvs.
Qed.

(** ** The merge without its budget *)

Fixpoint merge_fields (fields : list (bytes * (CanonicalValue -> CanonicalValue -> CanonicalValue)))
  (replacement stored merged : list (bytes * CanonicalValue)) : list (bytes * CanonicalValue) :=
  match stored with
  | [] => merged
  | (name, value) :: stored =>
      merge_fields fields replacement stored
        match btree_get name fields, btree_get name replacement with
        | None, _ => btree_insert name value merged
        | Some g, Some next => btree_insert name (g value next) merged
        | Some _, None => merged
        end
  end.
Fixpoint merge_items (g : CanonicalValue -> CanonicalValue -> CanonicalValue)
  (stored replacement : list CanonicalValue) : list CanonicalValue :=
  match replacement with
  | [] => []
  | next :: replacement =>
      match stored with [] => next | value :: _ => g value next end :: merge_items g (tail stored) replacement
  end.

Fixpoint merge (c : Contract) (stored replacement : CanonicalValue) : CanonicalValue :=
  match c, stored, replacement with
  | C_Object fields _, CV_Object stored, CV_Object replacement =>
      CV_Object (merge_fields (map (fun f => (fst f, merge (snd f))) fields) replacement stored replacement)
  | C_Array items _ _, CV_Array stored, CV_Array replacement =>
      CV_Array (merge_items (merge items) stored replacement)
  | _, _, replacement => replacement
  end.

Lemma merge_null c r : merge c CV_Null r = r.
Proof. by destruct c, r. Qed.

(** The merged object, key by key. *)
Lemma merge_fields_get fields rs ss merged k :
  keys_sorted (map fst merged) = true -> NoDup (map fst ss) ->
  keys_sorted (map fst (merge_fields fields rs ss merged)) = true
  /\ btree_get k (merge_fields fields rs ss merged)
     = match btree_get k ss with
       | Some v => match btree_get k fields, btree_get k rs with
                   | None, _ => Some v
                   | Some g, Some next => Some (g v next)
                   | Some _, None => btree_get k merged
                   end
       | None => btree_get k merged
       end.
Proof.
  revert merged; induction ss as [|[j v] ss IH]; intros merged Hm Hnd; [done|].
  cbn [map fst] in Hnd. apply NoDup_cons in Hnd as [Hj Hnd]. cbn [merge_fields].
  set (merged' := match btree_get j fields, btree_get j rs with
                  | None, _ => btree_insert j v merged
                  | Some g, Some next => btree_insert j (g v next) merged
                  | Some _, None => merged end).
  assert (keys_sorted (map fst merged') = true) as Hm'.
  { unfold merged'. destruct (btree_get j fields), (btree_get j rs); try done; by apply btree_insert_sorted. }
  destruct (IH merged' Hm' Hnd) as [Hs ->]. split; [done|]. cbn [btree_get].
  apply btree_get_None in Hj. destruct (decide (k = j)) as [->|Hne].
  - rewrite Hj. unfold merged'. destruct (btree_get j fields), (btree_get j rs); try done;
      rewrite btree_get_insert by done; by rewrite decide_True.
  - destruct (btree_get k ss); [destruct (btree_get k fields) as [g|] eqn:Eg, (btree_get k rs) eqn:Er; try done|];
      unfold merged'; destruct (btree_get j fields), (btree_get j rs); try done;
      rewrite btree_get_insert by done; by rewrite decide_False.
Qed.

Lemma preserve_fields_yields fields rs ss merged :
  (forall f v w, f ∈ fields -> yields (preserve_unknown_fields_at (snd f) v w) (fun m => m = merge (snd f) v w)) ->
  yields (preserve_fields (map (fun f => (fst f, preserve_unknown_fields_at (snd f))) fields) rs ss merged)
    (fun ms => ms = merge_fields (map (fun f => (fst f, merge (snd f))) fields) rs ss merged).
Proof.
  intros Hf. revert merged; induction ss as [|[k v] ss IH]; intros merged; cbn [preserve_fields merge_fields].
  { by apply yields_ret. }
  rewrite !btree_get_map. destruct (btree_get k fields) as [c|] eqn:Ec; cbn; [|apply IH].
  destruct (btree_get k rs) as [w|]; [|apply IH].
  eapply yields_bind; [apply (Hf (k, c)); by apply btree_get_In|]. cbn. intros m ->. apply IH.
Qed.

Lemma preserve_items_yields items ss rs :
  (forall v w, yields (preserve_unknown_fields_at items v w) (fun m => m = merge items v w)) ->
  yields (preserve_items (preserve_unknown_fields_at items) ss rs) (fun ms => ms = merge_items (merge items) ss rs).
Proof.
  intros Hf. revert ss; induction rs as [|r rs IH]; intros ss; cbn [preserve_items merge_items].
  { by apply yields_ret. }
  apply (yields_bind _ _ (fun m => m = match ss with [] => r | v :: _ => merge items v r end)).
  { destruct ss; [by apply yields_ret|apply Hf]. }
  intros m ->. eapply yields_bind; [apply IH|]. intros ms ->. by apply yields_ret.
Qed.

Lemma preserve_yields c s r : union_free c = true ->
  yields (preserve_unknown_fields_at c s r) (fun m => m = merge c s r).
Proof.
  revert s r; induction c using contract_induction; intros s r Hu; cbn [preserve_unknown_fields_at];
    apply yields_spend; try (by destruct s, r; apply yields_ret); [| |done].
  - destruct s; try (by apply yields_ret). destruct r; try (by apply yields_ret). cbn [merge].
    eapply yields_bind; [apply preserve_items_yields; intros; by apply IHc|].
    intros ms ->. by apply yields_ret.
  - destruct s; try (by apply yields_ret). destruct r; try (by apply yields_ret). cbn [merge].
    eapply yields_bind; [apply preserve_fields_yields|intros ms ->; by apply yields_ret].
    intros f v w Hf. rewrite Forall_forall in H. apply H; [done|].
    cbn [union_free] in Hu. rewrite forallb_forall in Hu. apply Hu. by apply list_elem_of_In.
Qed.

Lemma preserve_Ok c s r m : union_free c = true -> preserve_unknown_fields c s r = Ok m ->
  m = merge c s r /\ is_ok (fst (validate_value_at c r 0)) = true.
Proof.
  intros Hu. unfold preserve_unknown_fields, validate_value.
  intros ([] & Hv & Hm)%rbind_Ok. rewrite Hv. split; [|done].
  destruct (preserve_unknown_fields_at c s r 0) as [x s'] eqn:E. cbn in Hm. subst x.
  by apply (preserve_yields c s r Hu 0 m s').
Qed.

(** ** A Release reads back what it wrote *)

Lemma read_entries_get rs fields k : keys_sorted (map fst fields) = true ->
  btree_get k (read_entries rs fields) = if btree_contains k fields then btree_get k rs else None.
Proof.
  intros Hs. unfold btree_contains. revert Hs. induction fields as [|[j c] fields IH]; intros Hs; [done|].
  cbn [map fst] in Hs. pose proof (keys_sorted_NoDup _ Hs) as [Hj _]%NoDup_cons.
  pose proof Hs as [Hs' _]%keys_sorted_cons. specialize (IH Hs'). apply btree_get_None in Hj.
  unfold read_entries in *. cbn [omap list_omap fst]. cbn [btree_get].
  destruct (btree_get j rs) as [w|] eqn:Ew; cbn [mbind option_bind btree_get].
  - case_decide as E; [by subst|]. exact IH.
  - rewrite IH. case_decide as E; [|done]. subst. by rewrite Hj, Ew.
Qed.

Lemma read_entries_sorted rs fields : keys_sorted (map fst fields) = true ->
  keys_sorted (map fst (read_entries rs fields)) = true.
Proof.
  induction fields as [|[j c] fields IH]; intros Hs; [done|]. cbn [map fst] in Hs.
  pose proof (keys_sorted_Forall _ _ Hs) as Hj. pose proof Hs as [Hs' _]%keys_sorted_cons.
  unfold read_entries in *. cbn [omap list_omap fst].
  destruct (btree_get j rs) as [w|]; cbn [mbind option_bind]; [|by apply IH].
  apply Forall_keys_sorted; [|by apply IH]. apply Forall_forall. intros k ([k' v] & -> & Hin)%list_elem_of_fmap.
  apply list_elem_of_omap in Hin as ([j' c'] & Hin & Ho). cbn in Ho.
  destruct (btree_get j' rs); cbn in Ho; [|done]. injection Ho as <- <-.
  rewrite Forall_forall in Hj. apply Hj. apply list_elem_of_fmap. by exists (j', c').
Qed.

Lemma read_entries_all rs fields : keys_sorted (map fst fields) = true ->
  keys_sorted (map fst rs) = true -> forallb (fun e => btree_contains (fst e) fields) rs = true ->
  read_entries rs fields = rs.
Proof.
  intros Hf Hr Hsub. apply btree_ext; [by apply read_entries_sorted|done|]. intros k.
  rewrite read_entries_get by done. destruct (btree_contains k fields) eqn:E; [done|].
  destruct (btree_get k rs) as [v|] eqn:Ek; [|done]. rewrite forallb_forall in Hsub.
  apply btree_get_In, list_elem_of_In, Hsub in Ek. cbn in Ek. congruence.
Qed.

(** The steps the fields of [fields] present in [rs] take. *)
Definition fields_reach (fields : list (bytes * Contract)) (rs : list (bytes * CanonicalValue)) : Z :=
  sumZ (map (fun f => match btree_get (fst f) rs with Some w => reach (snd f) w | None => 0 end) fields).

Lemma project_fields_takes optional ms rs fields :
  (forall f, f ∈ fields -> match btree_get (fst f) rs with
     | Some w => exists v, btree_get (fst f) ms = Some v
         /\ takes (project_value_at (snd f) v) (reach (snd f) w) w
     | None => btree_get (fst f) ms = None /\ fst f ∈ optional
     end) ->
  takes (project_fields optional ms (map (fun f => (fst f, project_value_at (snd f))) fields))
    (fields_reach fields rs) (read_entries rs fields).
Proof.
  unfold fields_reach, read_entries.
  induction fields as [|f fields IH]; intros Hf; cbn [map project_fields sumZ foldr omap list_omap].
  { apply takes_ret. }
  fold (sumZ (map (fun f => match btree_get (fst f) rs with Some w => reach (snd f) w | None => 0 end) fields)).
  specialize (IH ltac:(intros; apply Hf; by right)). specialize (Hf f ltac:(left)).
  destruct (btree_get (fst f) rs) as [w|]; cbn [mbind option_bind].
  - destruct Hf as (v & -> & Ht). apply (takes_bind _ _ _ _ w); [done|].
    rewrite <- (Z.add_0_r (sumZ _)). eapply takes_bind; [exact IH|apply takes_ret].
  - destruct Hf as [-> Ho]. rewrite bool_decide_true by done. rewrite Z.add_0_l. exact IH.
Qed.

Lemma reach_pos c v : 1 <= reach c v.
Proof.
  revert v; induction c using contract_induction; intros v; cbn [reach]; try lia; destruct v; try lia.
  - match goal with |- 1 <= 1 + sumZ ?l => assert (0 <= sumZ l); [|lia] end.
    apply sumZ_map_nonneg. intros w _. pose proof (IHc w). lia.
  - match goal with |- 1 <= 1 + sumZ ?l => assert (0 <= sumZ l); [|lia] end.
    apply sumZ_map_nonneg. intros f Hf%list_elem_of_In. case_match; [|lia]. rewrite Forall_forall in H.
    match goal with |- 0 <= reach _ ?w => specialize (H f Hf w); lia end.
Qed.

Lemma validate_reach c r : contract_ok c = true -> union_free c = true -> value_ok r = true ->
  accepts c r = true -> reach c r <= VALIDATION_MAX_STEPS -> validate_value c r = Ok tt.
Proof. intros. unfold validate_value. eapply takes_run; [by apply validate_takes|done]. Qed.

Definition put_get (c : Contract) : Prop := forall s r, contract_ok c = true -> union_free c = true ->
  value_ok s = true -> value_ok r = true -> accepts c r = true ->
  takes (project_value_at c (merge c s r)) (reach c r) r.

Lemma merge_items_nil g rs : merge_items g [] rs = rs.
Proof. induction rs as [|r rs IH]; cbn; [done|]. by rewrite IH. Qed.
Lemma merge_fields_nil fields rs : merge_fields fields rs [] rs = rs.
Proof. done. Qed.

Lemma put_get_array items lo hi : put_get items -> put_get (C_Array items lo hi).
Proof.
  intros IH s r Hc Hu Hs Hr Ha. destruct r as [| | | | | | | |rs|]; try done.
  assert (exists ss, forallb value_ok ss = true
    /\ merge (C_Array items lo hi) s (CV_Array rs) = CV_Array (merge_items (merge items) ss rs)) as (ss & Hss & ->).
  { destruct s as [| | | | | | | |ss|]; try (exists []; split; [done|]; cbn; by rewrite merge_items_nil).
    by exists ss. }
  pose proof Ha as Ha'. cbn [accepts] in Ha'. apply andb_true_iff in Ha' as [_ Ha'].
  pose proof Hr as Hr'. cbn [value_ok] in Hr'. cbn [contract_ok union_free] in *.
  assert (Forall2 (fun x y => takes (project_value_at items x) (reach items y) y)
    (merge_items (merge items) ss rs) rs) as Hall.
  { clear Ha Hr. revert ss Hss. induction rs as [|w rs IHr]; intros ss Hss; cbn [merge_items]; [constructor|].
    cbn [forallb] in Ha', Hr'. bool_facts. constructor.
    - destruct ss as [|v ss]; [rewrite <- (merge_null items w) at 1; by apply IH|].
      cbn [forallb] in Hss. bool_facts. by apply IH.
    - apply IHr; [done..|]. destruct ss; [done|]. cbn in Hss |- *. by bool_facts. }
  cbn [project_value_at reach]. apply (takes_guard _ _ _ rs).
  - by apply takes_map.
  - intros Hle. apply lift_leaf; [|apply takes_ret]. by rewrite (validate_reach (C_Array items lo hi)).
Qed.

Lemma put_get_object fields optional :
  Forall (fun f => put_get (snd f)) fields -> put_get (C_Object fields optional).
Proof.
  intros IH s r Hc Hu Hs Hr Ha. destruct r as [| | | | | | | | |rs]; try done.
  assert (exists ss, value_ok (CV_Object ss) = true /\ merge (C_Object fields optional) s (CV_Object rs)
    = CV_Object (merge_fields (map (fun f => (fst f, merge (snd f))) fields) rs ss rs)) as (ss & Hss & ->).
  { destruct s as [| | | | | | | | |ss]; try (by exists []). by exists ss. }
  pose proof (value_ok_object _ Hss) as [Hks _]. pose proof (value_ok_object _ Hr) as [Hkr _].
  pose proof Hc as Hc'. cbn [contract_ok] in Hc'. apply andb_true_iff in Hc' as [Hkf _].
  pose proof Ha as Ha'. rewrite accepts_object in Ha'. apply andb_true_iff in Ha' as [Hacc Hreq].
  assert (forallb (fun e => btree_contains (fst e) fields) rs = true) as Hsub.
  { rewrite forallb_forall in Hacc |- *. intros e He. specialize (Hacc e He). unfold field_accepts in Hacc.
    unfold btree_contains. by destruct (btree_get (fst e) fields). }
  cbn [project_value_at reach]. fold (fields_reach fields rs). apply takes_spend.
  rewrite <- (Z.add_0_r (fields_reach fields rs)). apply (takes_bind _ _ _ _ rs); [|apply takes_ret].
  pose proof (project_fields_takes optional
    (merge_fields (map (fun f => (fst f, merge (snd f))) fields) rs ss rs) rs fields) as Ht.
  rewrite read_entries_all in Ht by done. apply Ht. clear Ht.
  intros f Hf. pose proof (sorted_field_get fields f Hkf Hf) as Hget.
  destruct (merge_fields_get (map (fun f => (fst f, merge (snd f))) fields) rs ss rs (fst f) Hkr
    (keys_sorted_NoDup _ Hks)) as [_ Hm].
  rewrite btree_get_map, Hget in Hm. cbn in Hm. rewrite Forall_forall in IH.
  destruct (object_fields_ok _ _ _ Hc Hu Hf) as [Hcf Huf].
  destruct (btree_get (fst f) rs) as [w|] eqn:Ew.
  - assert (accepts (snd f) w = true) as Haw.
    { rewrite forallb_forall in Hacc. pose proof (btree_get_In _ _ _ Ew) as Hin.
      specialize (Hacc _ (proj1 (list_elem_of_In _ _) Hin)). unfold field_accepts in Hacc.
      cbn [fst snd] in Hacc. by rewrite Hget in Hacc. }
    pose proof (value_ok_get _ _ _ Hr Ew) as Hw.
    destruct (btree_get (fst f) ss) as [v|] eqn:Ev.
    + exists (merge (snd f) v w). split; [done|]. apply (IH f Hf); try done. by apply (value_ok_get _ _ _ Hss Ev).
    + exists w. split; [done|]. rewrite <- (merge_null (snd f) w) at 1. by apply (IH f Hf).
  - split; [by destruct (btree_get (fst f) ss)|]. rewrite forallb_forall in Hreq.
    specialize (Hreq f (proj1 (list_elem_of_In _ _) Hf)). unfold btree_contains in Hreq. rewrite Ew in Hreq.
    rewrite orb_false_r in Hreq. by bool_facts.
Qed.

Lemma project_merge c : put_get c.
Proof.
  induction c using contract_induction; [| | | | | | | | | |by apply put_get_array
    |by apply put_get_object|done]; intros s r Hc Hu Hs Hr Ha;
    (match goal with |- takes (project_value_at ?c _) _ _ =>
      assert (merge c s r = r) as -> by (by destruct s, r) end);
    change (reach _ _) with (1 + 0); cbn [project_value_at].
  1: apply takes_spend, takes_ret.
  all: destruct r; try done; apply takes_spend; apply lift_leaf; [|apply takes_ret];
    by rewrite (validate_reach _ _ Hc Hu Hr Ha).
Qed.

(** ** Writing back what was read changes nothing *)

Definition never {A} (m : stepped A) : Prop := forall s, is_ok (fst (m s)) = false.

Lemma never_spend {A} (m : stepped A) : never m -> never (spend m).
Proof. intros Hm s. unfold spend. case_match; [done|apply Hm]. Qed.
Lemma never_bind_l {A B} (m : stepped A) (k : A -> stepped B) : never m -> never (sbind m k).
Proof. intros Hm s. unfold sbind. specialize (Hm s). by destruct (m s) as [[]]. Qed.
Lemma never_bind_r {A B} (m : stepped A) (k : A -> stepped B) Q :
  yields m Q -> (forall a, Q a -> never (k a)) -> never (sbind m k).
Proof.
  intros Hm Hk s. unfold sbind. destruct (m s) as [[a|] s'] eqn:E; [|done]. apply Hk. by apply (Hm s a s').
Qed.
Lemma never_map {A B} (f : A -> stepped B) l x : x ∈ l -> never (f x) -> never (stry_map f l).
Proof.
  intros Hx Hf. induction l as [|y l IH]; [by apply elem_of_nil in Hx|]. cbn [stry_map].
  apply elem_of_cons in Hx as [->|Hx]; [by apply never_bind_l|].
  apply (never_bind_r _ _ (fun _ => True)); [done|]. intros y0 _. apply never_bind_l. by apply IH.
Qed.

(** [p] is the view of [v], and merging it back into [v] gives [v]. *)
Definition view_of (c : Contract) (v p : CanonicalValue) : Prop :=
  takes (project_value_at c v) (reach c p) p /\ accepts c p = true /\ value_ok p = true /\ merge c v p = v.

Definition get_put (c : Contract) : Prop := forall v,
  contract_ok c = true -> union_free c = true -> value_ok v = true ->
  (exists p, view_of c v p) \/ never (project_value_at c v).

Lemma never_validate {A} c v (k : stepped A) : accepts c v = false ->
  never (let^ _ := slift (validate_value c v) in k).
Proof.
  intros Ha. apply never_bind_l. intros s. cbn. destruct (validate_value c v) as [[]|] eqn:E; [|done].
  apply validate_value_sound in E. congruence.
Qed.

(** Either all items have a view, or the projection of the array fails. *)
Lemma items_cases items vs : get_put items -> contract_ok items = true -> union_free items = true ->
  forallb value_ok vs = true ->
  (exists ps, Forall2 (view_of items) vs ps) \/ never (stry_map (project_value_at items) vs).
Proof.
  intros IH Hc Hu. induction vs as [|v vs IHv]; intros Hv; [left; by exists []|].
  cbn [forallb] in Hv. bool_facts. destruct (IH v) as [(p & Hp)|Hn]; [done..| |].
  - destruct IHv as [(ps & Hps)|Hn]; [done|left; exists (p :: ps); by constructor|].
    right. cbn [stry_map]. apply (never_bind_r _ _ (fun _ => True)); [done|]. intros y0 _. by apply never_bind_l.
  - right. by apply (never_map _ _ v); [left|].
Qed.

Lemma merge_items_views items vs ps : Forall2 (view_of items) vs ps ->
  merge_items (merge items) vs ps = vs /\ forallb (accepts items) ps = true /\ forallb value_ok ps = true.
Proof.
  induction 1 as [|v p vs ps (_ & Ha & Hv & Hm) _ IH]; [done|]. cbn. destruct IH as (-> & -> & ->).
  by rewrite Ha, Hv, Hm.
Qed.

Lemma get_put_array items lo hi : get_put items -> get_put (C_Array items lo hi).
Proof.
  intros IH v Hc Hu Hv. destruct v as [| | | | | | | |vs|]; cbn [contract_ok union_free value_ok] in *;
    try (right; cbn [project_value_at]; apply never_spend; by apply never_validate).
  destruct (items_cases items vs IH Hc Hu Hv) as [(ps & Hps)|Hn].
  2:{ right. cbn [project_value_at]. apply never_spend. by apply never_bind_l. }
  destruct (merge_items_views _ _ _ Hps) as (Hm & Hap & Hvp).
  assert (yields (stry_map (project_value_at items) vs) (fun qs => len qs = len vs)) as Hlen.
  { intros s qs s' E. apply (yields_map _ (fun _ _ => True)) in E; [|done]. unfold len.
    by rewrite (Forall2_length _ _ _ E). }
  assert (len ps = len vs) as Hl by (unfold len; by rewrite (Forall2_length _ _ _ Hps)).
  destruct (bounds_ok Z.ltb lo hi (len vs)) eqn:Eb.
  - left. exists (CV_Array ps). unfold view_of.
    assert (accepts (C_Array items lo hi) (CV_Array ps) = true) as Ha by (cbn [accepts]; by rewrite Hl, Eb, Hap).
    split_and!; [|done|done|cbn [merge]; by rewrite Hm]. cbn [project_value_at reach]. apply (takes_guard _ _ _ ps).
    + apply takes_map. eapply Forall2_impl; [exact Hps|]. by intros x y [Ht _].
    + intros Hle. apply lift_leaf; [|apply takes_ret]. by rewrite (validate_reach (C_Array items lo hi)).
  - right. cbn [project_value_at]. apply never_spend. apply (never_bind_r _ _ _ Hlen). intros qs Hq.
    apply never_validate. cbn [accepts]. by rewrite Hq, Eb.
Qed.

(** The fields of a stored object that a view shows. *)
Definition field_view (vs ps : list (bytes * CanonicalValue)) (optional : list bytes)
  (f : bytes * Contract) : Prop :=
  match btree_get (fst f) vs with
  | Some w => exists q, btree_get (fst f) ps = Some q /\ view_of (snd f) w q
  | None => btree_get (fst f) ps = None /\ fst f ∈ optional
  end.

Lemma fields_cases fields optional vs : Forall (fun f => get_put (snd f)) fields ->
  (forall f, f ∈ fields -> contract_ok (snd f) = true /\ union_free (snd f) = true) ->
  keys_sorted (map fst fields) = true -> value_ok (CV_Object vs) = true ->
  (exists ps, keys_sorted (map fst ps) = true /\ (forall k, k ∈ map fst ps -> k ∈ map fst fields)
     /\ forall f, f ∈ fields -> field_view vs ps optional f)
  \/ never (project_fields optional vs (map (fun f => (fst f, project_value_at (snd f))) fields)).
Proof.
  induction fields as [|f fields IH]; intros Hgp Hok Hs Hv.
  { left. exists []. split_and!; [done|done|]. by intros f ?%elem_of_nil. }
  apply Forall_cons in Hgp as [Hf Hgp]. cbn [map] in Hs. pose proof Hs as [Hs' _]%keys_sorted_cons.
  pose proof (keys_sorted_Forall _ _ Hs) as Hlt. rewrite Forall_forall in Hlt.
  destruct IH as [(ps & Hp & Hsub & Hview)|Hn]; [done|intros; apply Hok; by right|done|done| |].
  - assert (fst f ∉ map fst ps) as Hni.
    { intros Hin%Hsub%Hlt. by apply bytes_lt_irrefl in Hin. }
    assert (forall q g, g ∈ fields -> field_view vs ps optional g -> field_view vs ((fst f, q) :: ps) optional g)
      as Hext.
    { intros q g Hg. unfold field_view. cbn [btree_get]. rewrite decide_False; [done|].
      intros E. apply (bytes_lt_irrefl (fst f)). rewrite <- E at 2. apply Hlt.
      by apply list_elem_of_fmap_2. }
    cbn [map project_fields]. destruct (btree_get (fst f) vs) as [w|] eqn:Ew.
    + destruct (Hok f ltac:(left)) as [Hcf Huf].
      destruct (Hf w Hcf Huf (value_ok_get _ _ _ Hv Ew)) as [(q & Hq)|Hn].
      * left. exists ((fst f, q) :: ps). split_and!.
        -- apply Forall_keys_sorted; [|done]. apply Forall_forall. intros k Hk. by apply Hlt, Hsub.
        -- cbn [map fst]. intros k [->|Hk]%elem_of_cons; [left|right; by apply Hsub].
        -- intros g [->|Hg]%elem_of_cons; [|by apply Hext, Hview].
           unfold field_view. rewrite Ew. exists q. cbn [btree_get]. by rewrite decide_True.
      * right. by apply never_bind_l.
    + case_bool_decide as Ho; [|by right]. left. exists ps. split_and!; [done| |].
      * intros k Hk. cbn [map]. right. by apply Hsub.
      * intros g [->|Hg]%elem_of_cons; [|by apply Hview]. unfold field_view. rewrite Ew.
        split; [by apply btree_get_None|done].
  - right. cbn [map project_fields]. destruct (btree_get (fst f) vs) as [w|].
    + apply (never_bind_r _ _ (fun _ => True)); [done|]. intros y0 _. by apply never_bind_l.
    + by case_bool_decide.
Qed.

Lemma fields_view_object fields optional vs ps : contract_ok (C_Object fields optional) = true ->
  value_ok (CV_Object vs) = true -> keys_sorted (map fst ps) = true ->
  (forall k, k ∈ map fst ps -> k ∈ map fst fields) ->
  (forall f, f ∈ fields -> field_view vs ps optional f) ->
  view_of (C_Object fields optional) (CV_Object vs) (CV_Object ps).
Proof.
  intros Hc Hv Hp Hsub Hview. cbn [contract_ok] in Hc. apply andb_true_iff in Hc as [Hkf _].
  pose proof (value_ok_object _ Hv) as [Hkv _].
  assert (forall k q, btree_get k ps = Some q -> exists c w, (k, c) ∈ fields /\ btree_get k vs = Some w
    /\ view_of c w q) as Hps.
  { intros k q Hk. assert (k ∈ map fst fields) as Hkin.
    { apply Hsub, btree_contains_spec. unfold btree_contains. by rewrite Hk. }
    apply list_elem_of_fmap in Hkin as ([k' c] & -> & Hf). specialize (Hview _ Hf).
    unfold field_view in Hview. cbn [fst snd] in *. destruct (btree_get k' vs) as [w|]; [|naive_solver].
    destruct Hview as (q' & Hq' & Hq). exists c, w. by simplify_eq. }
  assert (forall e, e ∈ ps -> exists c w, btree_get (fst e) fields = Some c
    /\ btree_get (fst e) vs = Some w /\ view_of c w (snd e)) as Hpe.
  { intros [k q] He. destruct (Hps k q) as (c & w & Hf & Hw & Hq); [by apply btree_In_get|].
    exists c, w. split_and!; [by apply btree_In_get|done|done]. }
  unfold view_of. split_and!.
  - cbn [project_value_at reach]. fold (fields_reach fields ps). apply takes_spend.
    rewrite <- (Z.add_0_r (fields_reach fields ps)). apply (takes_bind _ _ _ _ ps); [|apply takes_ret].
    pose proof (project_fields_takes optional vs ps fields) as Ht.
    rewrite read_entries_all in Ht; [|done|done|].
    2:{ apply forallb_forall. intros e He%list_elem_of_In. apply btree_contains_spec, Hsub.
        by apply list_elem_of_fmap_2. }
    apply Ht. intros f Hf. specialize (Hview f Hf). unfold field_view in Hview.
    destruct (btree_get (fst f) vs) as [w|].
    + destruct Hview as (q & -> & Hq & _). eauto.
    + destruct Hview as [-> Ho]. done.
  - rewrite accepts_object. apply andb_true_iff. split; apply forallb_forall; intros e He%list_elem_of_In.
    + unfold field_accepts. by destruct (Hpe e He) as (c & w & -> & _ & _ & -> & _).
    + apply orb_true_iff. specialize (Hview e He). unfold field_view in Hview. unfold btree_contains.
      destruct (btree_get (fst e) vs); [destruct Hview as (q & -> & _); by right|left].
      apply bool_decide_eq_true. by destruct Hview.
  - cbn [value_ok] in Hv |- *. rewrite Hp. cbn [andb]. apply andb_true_iff in Hv as [Hv _].
    apply andb_true_iff in Hv as [_ Hutf]. apply andb_true_iff. split; apply forallb_forall.
    + intros k Hk%list_elem_of_In. apply list_elem_of_fmap in Hk as (e & -> & He).
      destruct (Hpe e He) as (c & w & _ & Hw & _). rewrite forallb_forall in Hutf. apply Hutf, list_elem_of_In.
      apply btree_contains_spec. unfold btree_contains. by rewrite Hw.
    + intros e He%list_elem_of_In. by destruct (Hpe e He) as (c & w & _ & _ & _ & _ & Hq & _).
  - cbn [merge]. f_equal.
    apply btree_ext; [by apply merge_fields_get; [exact []|done|apply keys_sorted_NoDup]|done|].
    intros k. destruct (merge_fields_get (map (fun f => (fst f, merge (snd f))) fields) ps vs ps k Hp
      (keys_sorted_NoDup _ Hkv)) as [_ ->].
    rewrite btree_get_map. destruct (btree_get k vs) as [w|] eqn:Ew.
    + destruct (btree_get k fields) as [c|] eqn:Ec; cbn; [|done]. apply btree_get_In in Ec.
      specialize (Hview _ Ec). unfold field_view in Hview. cbn [fst snd] in Hview. rewrite Ew in Hview.
      destruct Hview as (q & -> & _ & _ & _ & ->). done.
    + destruct (btree_get k ps) as [q|] eqn:Eq; [|done].
      destruct (Hps k q Eq) as (c & w & _ & Hw & _). congruence.
Qed.

Lemma get_put_object fields optional :
  Forall (fun f => get_put (snd f)) fields -> get_put (C_Object fields optional).
Proof.
  intros IH v Hc Hu Hv. destruct v as [| | | | | | | | |vs];
    try (right; cbn [project_value_at]; apply never_spend; by apply never_validate).
  pose proof Hc as Hc'. cbn [contract_ok] in Hc'. apply andb_true_iff in Hc' as [Hkf _].
  destruct (fields_cases fields optional vs IH) as [(ps & Hp & Hsub & Hview)|Hn]; [|done|done| |].
  - intros f Hf. by apply (object_fields_ok fields optional).
  - left. exists (CV_Object ps). by apply fields_view_object.
  - right. cbn [project_value_at]. apply never_spend. by apply never_bind_l.
Qed.

Lemma project_view c : get_put c.
Proof.
  induction c using contract_induction; [| | | | | | | | | |by apply get_put_array
    |by apply get_put_object|done]; intros v Hc Hu Hv.
  1:{ left. exists v. unfold view_of. split_and!; [|done|done|by destruct v].
      change (reach C_Any v) with (1 + 0). apply takes_spend, takes_ret. }
  all: match goal with |- (exists p, view_of ?c _ _) \/ _ =>
    destruct (accepts c v) eqn:Ha;
    [left; exists v; assert (merge c v v = v) as Hm by (by destruct v); unfold view_of;
     split_and!; [|done|done|exact Hm]; rewrite <- Hm at 1; by apply project_merge
    |right; destruct v; cbn [project_value_at]; apply never_spend; by apply never_validate] end.
Qed.

(** The merge succeeds when the nodes of the replacement fit the budget. *)
Definition preserves (c : Contract) : Prop := forall s r s0, union_free c = true ->
  contract_ok c = true -> value_ok s = true -> value_ok r = true ->
  0 <= s0 -> s0 + reach c r <= VALIDATION_MAX_STEPS ->
  runs (preserve_unknown_fields_at c s r) s0 (reach c r) true (fun m => m = merge c s r).

Lemma preserve_items_runs items ss rs s0 : preserves items -> union_free items = true ->
  contract_ok items = true -> forallb value_ok ss = true -> forallb value_ok rs = true ->
  0 <= s0 -> s0 + sumZ (map (reach items) rs) <= VALIDATION_MAX_STEPS ->
  runs (preserve_items (preserve_unknown_fields_at items) ss rs) s0 (sumZ (map (reach items) rs)) true
    (fun ms => ms = merge_items (merge items) ss rs).
Proof.
  intros IH Hu Hc. revert ss s0; induction rs as [|r rs IHr]; intros ss s0 Hss Hrs Hs0 Hmax;
    cbn [preserve_items merge_items map sumZ foldr]; [by apply runs_ret|].
  cbn [map sumZ foldr] in Hmax. fold (sumZ (map (reach items) rs)) in Hmax |- *.
  cbn [forallb] in Hrs. bool_facts. pose proof (reach_pos items r).
  assert (0 <= sumZ (map (reach items) rs)).
  { apply sumZ_map_nonneg. intros w _. pose proof (reach_pos items w). lia. }
  apply (runs_bind _ _ _ _ _ true true (fun m => m = match ss with [] => r | v :: _ => merge items v r end)); [done| |].
  - destruct ss as [|v ss]; [apply runs_ret; [lia|done]|]. cbn in Hss. bool_facts. apply IH; try done; lia.
  - intros m s1 -> Hs1. rewrite <- (Z.add_0_r (sumZ (map (reach items) rs))).
    eapply (runs_bind _ _ _ _ _ true true); [done| |].
    + apply IHr; [by destruct ss; [|cbn in Hss |- *; bool_facts]|done|lia|lia].
    + intros ms s2 -> _. by apply runs_ret.
Qed.

Definition key_reach (fields : list (bytes * Contract)) (rs : list (bytes * CanonicalValue)) (k : bytes) : Z :=
  match btree_get k fields, btree_get k rs with Some c, Some w => reach c w | _, _ => 0 end.

Lemma key_reach_nonneg fields rs k : 0 <= key_reach fields rs k.
Proof. unfold key_reach. repeat case_match; try lia. match goal with |- 0 <= reach ?c ?w => pose proof (reach_pos c w) end. lia. Qed.

Lemma preserve_fields_runs fields rs ss merged s0 :
  (forall f, f ∈ fields -> preserves (snd f) /\ union_free (snd f) = true /\ contract_ok (snd f) = true) ->
  (forall e, e ∈ ss -> value_ok (snd e) = true) -> value_ok (CV_Object rs) = true ->
  0 <= s0 -> s0 + sumZ (map (key_reach fields rs) (map fst ss)) <= VALIDATION_MAX_STEPS ->
  runs (preserve_fields (map (fun f => (fst f, preserve_unknown_fields_at (snd f))) fields) rs ss merged) s0
    (sumZ (map (key_reach fields rs) (map fst ss))) true
    (fun ms => ms = merge_fields (map (fun f => (fst f, merge (snd f))) fields) rs ss merged).
Proof.
  intros Hf. revert merged s0; induction ss as [|[k v] ss IH]; intros merged s0 Hss Hrs Hs0 Hmax;
    cbn [preserve_fields merge_fields map fst sumZ foldr]; [by apply runs_ret|].
  cbn [map fst sumZ foldr] in Hmax. fold (sumZ (map (key_reach fields rs) (map fst ss))) in Hmax |- *.
  assert (0 <= sumZ (map (key_reach fields rs) (map fst ss))).
  { apply sumZ_map_nonneg. intros j _. apply key_reach_nonneg. }
  assert (forall merged s1, s0 <= s1 <= s0 + key_reach fields rs k ->
    runs (preserve_fields (map (fun f => (fst f, preserve_unknown_fields_at (snd f))) fields) rs ss merged) s1
      (sumZ (map (key_reach fields rs) (map fst ss))) true
      (fun ms => ms = merge_fields (map (fun f => (fst f, merge (snd f))) fields) rs ss merged)) as Hrest.
  { intros m1 s1 Hs1. apply IH; [intros; apply Hss; by right|done|lia|lia]. }
  assert (key_reach fields rs k = match btree_get k fields, btree_get k rs with
    | Some c, Some w => reach c w | _, _ => 0 end) as Ek by done. rewrite !btree_get_map.
  destruct (btree_get k fields) as [c|] eqn:Ec; cbn [fmap option_fmap option_map];
    [|rewrite Ek in *; apply Hrest; lia].
  destruct (btree_get k rs) as [w|] eqn:Ew; rewrite Ek in *; [|apply Hrest; lia].
  apply (runs_bind _ _ _ _ _ true true (fun m => m = merge c v w)); [done| |intros m s1 -> Hs1; by apply Hrest].
  destruct (Hf (k, c)) as (IHc & Hu & Hc); [by apply btree_get_In|]. apply IHc; [done|done| |..].
  - apply (Hss (k, v)). left.
  - by apply (value_ok_get k rs).
  - lia.
  - cbn [snd]. lia.
Qed.

Lemma sum_keys_le (g : bytes -> Z) ks fks : (forall k, 0 <= g k) -> NoDup ks ->
  (forall k, k ∉ fks -> g k = 0) -> sumZ (map g ks) <= sumZ (map g fks).
Proof.
  intros Hg Hnd Hz. transitivity (sumZ (map g (filter (fun k => k ∈ fks) ks))).
  - clear Hnd. induction ks as [|k ks IH]; [done|]. rewrite filter_cons. cbn [map sumZ foldr].
    fold (sumZ (map g ks)). case_decide as Hk.
    + cbn [map sumZ foldr]. fold (sumZ (map g (filter (fun k => k ∈ fks) ks))). lia.
    + rewrite (Hz k Hk). lia.
  - apply sumZ_submseteq; [done|]. apply NoDup_submseteq; [by apply NoDup_filter|].
    intros k. rewrite list_elem_of_filter. naive_solver.
Qed.

Lemma fields_reach_keys fields rs : keys_sorted (map fst fields) = true ->
  fields_reach fields rs = sumZ (map (key_reach fields rs) (map fst fields)).
Proof.
  intros Hs. unfold fields_reach. rewrite map_map. f_equal. apply map_ext_in. intros f Hf%list_elem_of_In.
  unfold key_reach. by rewrite (sorted_field_get fields f Hs Hf).
Qed.

Lemma runs_spend_pred {A} (m : stepped A) s n ok Q : 0 <= s -> 1 <= n -> s + n <= VALIDATION_MAX_STEPS ->
  runs m (s + 1) (n - 1) ok Q -> runs (spend m) s n ok Q.
Proof.
  intros Hs Hn Hmax Hm. apply (runs_weaken _ _ (1 + (n - 1)) _ ok); [lia|done|].
  apply runs_spend; [lia..|done].
Qed.

Lemma preserves_array items lo hi : preserves items -> preserves (C_Array items lo hi).
Proof.
  intros IH s r s0 Hu Hc Hs Hr Hs0 Hmax. pose proof (reach_pos (C_Array items lo hi) r).
  cbn [preserve_unknown_fields_at]. apply runs_spend_pred; [lia..|].
  destruct s as [| | | | | | | |ss|]; try (apply runs_ret; [lia|done]).
  destruct r as [| | | | | | | |rs|]; try (apply runs_ret; [lia|done]).
  cbn [reach value_ok contract_ok union_free merge] in *.
  apply (runs_weaken _ _ (sumZ (map (reach items) rs) + 0) _ (true && true)); [lia|done|].
  eapply (runs_bind _ _ _ _ _ true true); [lia|apply preserve_items_runs; try done; lia|].
  intros ms s1 -> _. by apply runs_ret.
Qed.

Lemma preserves_object fields optional :
  Forall (fun f => preserves (snd f)) fields -> preserves (C_Object fields optional).
Proof.
  intros IH s r s0 Hu Hc Hs Hr Hs0 Hmax. pose proof (reach_pos (C_Object fields optional) r).
  cbn [preserve_unknown_fields_at]. apply runs_spend_pred; [lia..|].
  destruct s as [| | | | | | | | |ss]; try (apply runs_ret; [lia|done]).
  destruct r as [| | | | | | | | |rs]; try (apply runs_ret; [lia|done]).
  cbn [reach merge] in *. fold (fields_reach fields rs) in *.
  pose proof Hc as Hc'. cbn [contract_ok] in Hc'. apply andb_true_iff in Hc' as [Hkf _].
  pose proof (value_ok_object _ Hs) as [Hks Hvs].
  assert (sumZ (map (key_reach fields rs) (map fst ss)) <= fields_reach fields rs) as Hle.
  { rewrite fields_reach_keys by done. apply sum_keys_le; [apply key_reach_nonneg|by apply keys_sorted_NoDup|].
    intros k Hk%btree_get_None. unfold key_reach. by rewrite Hk. }
  assert (0 <= sumZ (map (key_reach fields rs) (map fst ss))).
  { apply sumZ_map_nonneg. intros j _. apply key_reach_nonneg. }
  apply (runs_weaken _ _ (sumZ (map (key_reach fields rs) (map fst ss)) + 0) _ (true && true)); [lia|done|].
  eapply (runs_bind _ _ _ _ _ true true); [lia|apply preserve_fields_runs; try done; try lia|].
  - intros f Hf. destruct (object_fields_ok _ _ _ Hc Hu Hf). rewrite Forall_forall in IH.
    split_and!; [by apply IH|done|done].
  - intros ms s1 -> _. by apply runs_ret.
Qed.

Lemma preserve_runs c : preserves c.
Proof.
  induction c using contract_induction; [| | | | | | | | | |by apply preserves_array
    |by apply preserves_object|done]; intros s r s0 Hu Hc Hs Hr Hs0 Hmax;
    cbn [preserve_unknown_fields_at]; change (reach _ r) with 1 in *;
    (apply runs_spend_pred; [lia..|]); by destruct s, r; apply runs_ret.
Qed.

(** ** The lens laws *)

(** C30: A Release's view is a well-behaved lens on the stored documents.  For a contract without unions:
    if replacing a stored value through the view succeeds, the same Release reads back exactly the
    replacement, and every field of the stored object that the contract does not know is kept; and if
    a stored value has a view, writing that view back succeeds and leaves the stored value as it was.
    The step budget never breaks either law. *)
Theorem view_lens c : contract_ok c = true -> union_free c = true ->
  (forall s r m, value_ok s = true -> value_ok r = true -> preserve_unknown_fields c s r = Ok m ->
     project_value c m = Ok r
     /\ forall fields optional ss rs, c = C_Object fields optional -> s = CV_Object ss -> r = CV_Object rs ->
          exists ms, m = CV_Object ms
            /\ forall k, btree_get k fields = None -> is_Some (btree_get k ss) -> btree_get k ms = btree_get k ss)
  /\ (forall s p, value_ok s = true -> project_value c s = Ok p -> preserve_unknown_fields c s p = Ok s).
Proof.
  intros Hc Hu. split.
  - intros s r m Hs Hr (-> & Hv)%preserve_Ok; [|done].
    assert (accepts c r = true) as Ha.
    { apply validate_value_sound. unfold validate_value.
      by destruct (fst (validate_value_at c r 0)) as [[]|]. }
    destruct (takes_Ok _ _ _ (validate_takes c r Hc Hu Hr Ha) Hv) as [Hle _].
    split; [exact (takes_run _ _ _ (project_merge c s r Hc Hu Hs Hr Ha) Hle)|].
    intros fields optional ss rs -> -> ->.
    exists (merge_fields (map (fun f => (fst f, merge (snd f))) fields) rs ss rs).
    split; [done|]. intros k Hk [v Hkv].
    destruct (merge_fields_get (map (fun f => (fst f, merge (snd f))) fields) rs ss rs k) as [_ ->];
      [by apply value_ok_object|apply keys_sorted_NoDup; by apply value_ok_object|].
    by rewrite Hkv, btree_get_map, Hk.
  - intros s p Hs Hp. destruct (project_view c s Hc Hu Hs) as [(q & Ht & Ha & Hv & Hm)|Hn].
    2:{ specialize (Hn 0). unfold project_value in Hp. by rewrite Hp in Hn. }
    destruct (takes_Ok _ _ _ Ht) as [Hle Hq]; [unfold project_value in Hp; by rewrite Hp|].
    unfold project_value in Hp. rewrite Hp in Hq. injection Hq as <-.
    unfold preserve_unknown_fields. rewrite (validate_reach c p) by done. cbn [rbind].
    destruct (preserve_runs c s p 0 Hu Hc Hs Hv) as (r & s' & -> & _ & Hr & HQ); [lia|lia|].
    destruct r as [m|]; [|done]. cbn. by rewrite (HQ m eq_refl), Hm.
Qed.

(** A document with a field of a newer Release, and a replacement by the older one. *)
Definition newer_document : CanonicalValue :=
  CV_Object [(text "age", CV_Int64 41); (text "email", CV_String (text "a@b"))].
Definition older_replacement : CanonicalValue := CV_Object [(text "age", CV_Int64 42)].

Lemma view_lens_witness : exists m,
  preserve_unknown_fields sample_contract newer_document older_replacement = Ok m
  /\ project_value sample_contract m = Ok older_replacement
  /\ preserve_unknown_fields sample_contract newer_document (CV_Object [(text "age", CV_Int64 41)])
     = Ok newer_document.
Proof.
  destruct (view_lens sample_contract) as [H1 H2]; [by vm_compute..|].
  destruct (preserve_unknown_fields sample_contract newer_document older_replacement) as [m|e] eqn:E.
  - exists m. split_and!; [done| |].
    + by apply (H1 newer_document older_replacement m); [vm_compute|vm_compute|].
    + apply H2; by vm_compute.
  - vm_compute in E. discriminate E.
Defined.
