(* ===== verification/Release.v ===== *)
(** * Shared vocabulary of Releases

    The error taxonomy of the crate runku-releases (error.rs), the text codec of its SHA-256
    identifiers (digest.rs), and the string operations of the Rust standard library its parsers
    use ([split], [join], decimal rendering). *)

From Stdlib Require Import Strings.Byte ZArith Lia.
From stdpp Require Import prelude strings gmap sorting list.
From S2P Require Import Prelude.

(** ** Errors *)

Inductive ReleaseError : Type :=
  | RE_InvalidManifest | RE_InvalidArtifact | RE_Unsupported | RE_LimitExceeded | RE_DigestMismatch
  | RE_DescriptorMismatch | RE_NotFound | RE_Corruption | RE_ProductionBackendUnsupported | RE_Busy
  | RE_Unavailable | RE_Internal | RE_InvalidTransition | RE_InvalidSnapshot | RE_ReleaseNotFound
  | RE_ReleaseNotServable | RE_ReleaseRetired | RE_ChannelNotFound | RE_DefaultChannelMissing
  | RE_EnvironmentServingPolicyMissing | RE_EnvironmentServingPolicyNotReady
  | RE_WorkspaceUnsupported | RE_OperationIdReused | RE_RepositoryConflict | RE_ResultUncertain.

#[export] Instance ReleaseError_eq_dec : EqDecision ReleaseError.
Proof. solve_decision. Defined.

Definition ReleaseError_retryable (e : ReleaseError) : bool :=
  match e with
  | RE_Busy | RE_Unavailable | RE_RepositoryConflict | RE_ResultUncertain
  | RE_EnvironmentServingPolicyNotReady => true
  | _ => false
  end.

(** ** SHA-256 identifiers *)

Definition Sha256Digest : Type := bytes.

Inductive ParseSha256DigestError : Type := SD_Length | SD_Character | SD_NonCanonical.

(** [write!("{byte:02x}")]. *)
Definition nibble_char (n : Z) : byte := zb (if n <? 10 then 48 + n else 87 + n).
Definition Sha256Digest_to_string (d : Sha256Digest) : bytes :=
  flat_map (fun b => [nibble_char (bz b / 16); nibble_char (bz b mod 16)]) d.

Definition nibble (value : byte) : result ParseSha256DigestError Z :=
  if in_range 48 57 value then Ok (bz value - 48)
  else if in_range 97 102 value then Ok (bz value - 97 + 10)
  else if in_range 65 70 value then Err SD_NonCanonical
  else Err SD_Character.

Fixpoint parse_pairs (value : bytes) : result ParseSha256DigestError bytes :=
  match value with
  | high :: low :: rest =>
      let? h := nibble high in
      let? l := nibble low in
      let? tail := parse_pairs rest in
      Ok (zb (Z.lor (Z.shiftl h 4) l) :: tail)
  | _ => Ok []
  end.

Definition Sha256Digest_from_str (value : bytes) : result ParseSha256DigestError Sha256Digest :=
  ensure? len value =? 64 else SD_Length in
  let? parsed := parse_pairs value in
  ensure? bool_decide (Sha256Digest_to_string parsed = value) else SD_NonCanonical in
  Ok parsed.

(** ** String operations of the standard library *)

(** [str::split] on one byte: always at least one piece. *)
Fixpoint split_on (sep : byte) (l : bytes) : list bytes :=
  match l with
  | [] => [[]]
  | b :: l =>
      if decide (b = sep) then [] :: split_on sep l
      else match split_on sep l with
           | piece :: rest => (b :: piece) :: rest
           | [] => [[b]]
           end
  end.

(** [[String]::join]. *)
Fixpoint join (sep : bytes) (parts : list bytes) : bytes :=
  match parts with
  | [] => []
  | [part] => part
  | part :: rest => part ++ sep ++ join sep rest
  end.

(** [u8::to_string]. *)
Definition u8_to_string (v : Z) : bytes :=
  (if v <? 100 then [] else [zb (48 + v / 100)])
  ++ (if v <? 10 then [] else [zb (48 + v / 10 mod 10)])
  ++ [zb (48 + v mod 10)].

(** ** Lemmas *)

Lemma split_on_clean sep l : sep ∉ l -> split_on sep l = [l].
Proof.
  induction l as [|b l IH]; [done|]. intros [Hb Hl]%not_elem_of_cons. cbn.
  rewrite decide_False by congruence. by rewrite IH.
Qed.

Lemma split_on_app sep l k : sep ∉ l -> split_on sep (l ++ sep :: k) = l :: split_on sep k.
Proof.
  induction l as [|b l IH]; cbn; [intros _; by rewrite decide_True|].
  intros [Hb Hl]%not_elem_of_cons. rewrite decide_False by congruence. by rewrite IH.
Qed.

Lemma split_on_join sep parts : parts <> [] -> Forall (fun p => sep ∉ p) parts ->
  split_on sep (join [sep] parts) = parts.
Proof.
  intros Hne Hall. induction parts as [|p parts IH]; [done|].
  apply Forall_cons in Hall as [Hp Hall]. destruct parts as [|q parts]; [by apply split_on_clean|].
  change (join [sep] (p :: q :: parts)) with (p ++ sep :: join [sep] (q :: parts)).
  rewrite split_on_app by done. by rewrite IH.
Qed.

Lemma elem_of_join b sep parts : b ∈ join sep parts -> b ∈ sep \/ exists p, p ∈ parts /\ b ∈ p.
Proof.
  induction parts as [|p parts IH]; [by intros ?%elem_of_nil|]. destruct parts as [|q parts].
  - intros Hb. right. exists p. by split; [left|].
  - change (join sep (p :: q :: parts)) with (p ++ sep ++ join sep (q :: parts)).
    rewrite !elem_of_app. intros [Hb|[Hb|Hb]]; [right; exists p; by split; [left|]|by left|].
    destruct (IH Hb) as [?|(r & Hr & ?)]; [by left|]. right. exists r. by split; [right|].
Qed.

Lemma nibble_char_nibble n : 0 <= n < 16 -> nibble (nibble_char n) = Ok n.
Proof.
  intros Hn. assert (n ∈ seqZ 0 16) as Hin by (apply elem_of_seqZ; lia).
  revert n Hn Hin. cut (Forall (fun n => nibble (nibble_char n) = Ok n) (seqZ 0 16)).
  { intros H n _ Hin. rewrite Forall_forall in H. by apply H. }
  repeat constructor.
Qed.

Lemma nibble_range b n : nibble b = Ok n -> 0 <= n < 16.
Proof.
  unfold nibble, in_range. intros H. repeat case_match; simplify_eq; lia.
Qed.

Lemma zb_nibbles b : zb (Z.lor (Z.shiftl (bz b / 16) 4) (bz b mod 16)) = b.
Proof.
  destruct (bz_range b). rewrite Z.shiftl_mul_pow2 by lia. change (2 ^ 4) with 16.
  rewrite <- (zb_bz b) at 3. f_equal.
  assert (Z.land (bz b / 16 * 16) (bz b mod 16) = 0) as Hl.
  { apply Z.bits_inj'. intros n Hn. rewrite Z.land_spec, Z.bits_0.
    change 16 with (2 ^ 4) at 2 3. destruct (Z.ltb_spec n 4).
    - rewrite Z.mul_pow2_bits_low by lia. done.
    - rewrite (Z.mod_pow2_bits_high _ 4 n) by lia. apply andb_false_r. }
  rewrite <- Z.lxor_lor, <- Z.add_nocarry_lxor by done. pose proof (Z.div_mod (bz b) 16). lia.
Qed.

Lemma parse_pairs_to_string d : parse_pairs (Sha256Digest_to_string d) = Ok d.
Proof.
  induction d as [|b d IH]; [done|]. destruct (bz_range b).
  assert (0 <= bz b / 16 < 16) by (split; [apply Z.div_pos|apply Z.div_lt_upper_bound]; lia).
  pose proof (Z.mod_pos_bound (bz b) 16).
  cbn [Sha256Digest_to_string flat_map app parse_pairs]. fold (Sha256Digest_to_string d).
  rewrite !nibble_char_nibble by lia. cbn [rbind]. rewrite IH. cbn [rbind]. by rewrite zb_nibbles.
Qed.

Lemma Sha256Digest_to_string_len d : len (Sha256Digest_to_string d) = 2 * len d.
Proof.
  unfold Sha256Digest_to_string. induction d as [|b d IH]; [done|]. cbn [flat_map app].
  autorewrite with runku. lia.
Qed.

(** A text is read as a digest exactly when it is the rendering of 32 bytes. *)
Lemma Sha256Digest_from_str_Ok s d :
  Sha256Digest_from_str s = Ok d <-> s = Sha256Digest_to_string d /\ len d = 32.
Proof.
  unfold Sha256Digest_from_str. split.
  - destruct (len s =? 64) eqn:El; [|done]. intros (p & Hp & Hs)%rbind_Ok.
    destruct (bool_decide _) eqn:E; [|done]. injection Hs as <-. apply bool_decide_eq_true in E.
    subst s. rewrite Sha256Digest_to_string_len in El. split; [done|lia].
  - intros [-> Hd]. rewrite Sha256Digest_to_string_len, Hd. cbn [Z.eqb Z.mul Pos.eqb].
    change (2 * 32 =? 64) with true. cbn beta iota. rewrite parse_pairs_to_string. cbn [rbind].
    by rewrite bool_decide_true.
Qed.

Lemma u8_to_string_clean sep v : 0 <= v < 256 -> is_ascii_digit sep = false -> sep ∉ u8_to_string v.
Proof.
  intros Hv Hsep Hin. assert (exists d, 0 <= d < 10 /\ sep = zb (48 + d)) as (d & Hd & ->).
  { unfold u8_to_string in Hin. rewrite !elem_of_app in Hin.
    pose proof (Z.mod_pos_bound v 10). pose proof (Z.mod_pos_bound (v / 10) 10).
    assert (0 <= v / 100 < 10) by (split; [apply Z.div_pos|apply Z.div_lt_upper_bound]; lia).
    destruct Hin as [Hin|[Hin|Hin]]; [destruct (v <? 100)|destruct (v <? 10)|];
      try (by apply elem_of_nil in Hin); apply list_elem_of_singleton in Hin as ->; eexists;
      (split; [|done]); lia. }
  unfold is_ascii_digit, in_range in Hsep. rewrite bz_zb, Z.mod_small in Hsep by lia. lia.
Qed.
