(* ===== verification/Cron.v ===== *)
(** * Cron names and schedules

    The five-field UTC schedules compiled into Release manifests (runku-releases/src/cron.rs): the
    field grammar, the normal form the manifest codec insists on, the matching of a minute against the
    proleptic Gregorian calendar, and the bounded search for the next occurrence.

    The calendar conversion is compared with the day-by-day definition of the calendar, the normal form
    is shown to be a fixed point of the parser, and the search bound of eight years is shown to be
    long enough for every schedule that has an occurrence at all. *)

From Stdlib Require Import Strings.Byte ZArith Lia.
From stdpp Require Import prelude strings list.
From S2P Require Import Prelude Release.

Definition MAX_CRON_NAME_BYTES : Z := 64.
Definition MAX_EXPRESSION_BYTES : Z := 512.
Definition MICROS_PER_MINUTE : Z := 60000000.
Definition MINUTES_PER_DAY : Z := 1440.
Definition MAX_SEARCH_MINUTES : Z := 8 * 366 * 24 * 60.

(** ** Names *)

Record CronName : Type := mkCronName { cron_name_str : bytes }.

#[export] Instance CronName_eq_dec : EqDecision CronName.
Proof. solve_decision. Defined.

Definition cron_name_char (b : byte) : bool :=
  is_ascii_lowercase b || is_ascii_digit b || bool_decide (b = x2d) || bool_decide (b = x5f)
  || bool_decide (b = x2e).

Definition CronName_from_str (value : bytes) : result ReleaseError CronName :=
  match value with
  | [] => Err RE_InvalidManifest
  | first :: rest =>
      if (MAX_CRON_NAME_BYTES <? len value) || negb (is_ascii_lowercase first)
         || negb (forallb cron_name_char rest)
      then Err RE_InvalidManifest
      else Ok (mkCronName value)
  end.

(** ** Fields *)

Record CronField : Type := mkCronField { bits : Z; minimum : Z; maximum : Z }.

#[export] Instance CronField_eq_dec : EqDecision CronField.
Proof. solve_decision. Defined.

(** [str::parse::<u8>] on a text of ASCII digits. *)
Definition parse_u8 (value : bytes) : option Z :=
  try_from_u u8_max (fold_left (fun acc b => 10 * acc + (bz b - 48)) value 0).

Definition parse_number (value : bytes) : result ReleaseError Z :=
  if bool_decide (value = []) || (2 <? len value)
     || ((1 <? len value) && bool_decide (head value = Some x30))
     || negb (forallb is_ascii_digit value)
  then Err RE_InvalidManifest
  else ok_or RE_InvalidManifest (parse_u8 value).

(** The [loop] that sets every [step]-th bit from [current] to [end_]; each turn moves [current] by at
    least one, so [end_ - current] turns after the first are enough. *)
Fixpoint set_bits (fuel : nat) (current step end_ bits : Z) : Z :=
  let bits := Z.lor bits (Z.shiftl 1 current) in
  match checked_add u8_max current step with
  | None => bits
  | Some next =>
      if end_ <? next then bits
      else match fuel with
           | O => bits
           | S fuel => set_bits fuel next step end_ bits
           end
  end.

(** The bounds of one list item: a wildcard, a range or a single number. *)
Definition item_bounds (minimum maximum step : Z) (base : bytes) : result ReleaseError (Z * Z) :=
  if decide (base = [x2a]) then Ok (minimum, maximum)
  else match split_once x2d base with
  | Some (start, end_) =>
      let? start := parse_number start in
      let? end_ := parse_number end_ in
      if (start <? minimum) || (maximum <? end_) || (end_ <=? start) then Err RE_InvalidManifest
      else Ok (start, end_)
  | None =>
      ensure? step =? 1 else RE_InvalidManifest in
      let? number := parse_number base in
      if (number <? minimum) || (maximum <? number) then Err RE_InvalidManifest
      else Ok (number, number)
  end.

Definition parse_item (minimum maximum bits : Z) (item : bytes) : result ReleaseError Z :=
  match split_on x2f item with
  | [] => Err RE_InvalidManifest
  | base :: step_parts =>
      let? step := match step_parts with [] => Ok 1 | s :: _ => parse_number s end in
      if (1 <? len step_parts) || (step =? 0) || (maximum - minimum + 1 <? step)
      then Err RE_InvalidManifest
      else
        let? bounds := item_bounds minimum maximum step base in
        let '(start, end_) := bounds in
        Ok (set_bits (Z.to_nat (end_ - start)) start step end_ bits)
  end.

Definition CronField_parse (value : bytes) (minimum maximum : Z) : result ReleaseError CronField :=
  if decide (value = []) then Err RE_InvalidManifest
  else
    let? bits := try_fold (parse_item minimum maximum) 0 (split_on x2c value) in
    if bits =? 0 then Err RE_InvalidManifest else Ok (mkCronField bits minimum maximum).

Definition contains (self : CronField) (value : Z) : bool :=
  negb (Z.land (bits self) (Z.shiftl 1 value) =? 0).

(** [minimum..=maximum]. *)
Definition field_values (self : CronField) : list Z :=
  seqZ (minimum self) (maximum self - minimum self + 1).

Definition is_wildcard (self : CronField) : bool := forallb (contains self) (field_values self).

Definition canonical_field (self : CronField) : bytes :=
  if is_wildcard self then [x2a]
  else join [x2c] (map u8_to_string (filter (fun v => contains self v = true) (field_values self))).

(** ** The calendar *)

(** [u8::try_from(value).unwrap_or(default)]. *)
Definition u8_or (default_ value : Z) : Z := default default_ (try_from_u u8_max value).

Definition civil_from_days (days_since_epoch : Z) : Z * Z * Z :=
  let shifted := days_since_epoch + 719468 in
  let era := shifted / 146097 in
  let day_of_era := shifted - era * 146097 in
  let year_of_era :=
    Z.quot (day_of_era - Z.quot day_of_era 1460 + Z.quot day_of_era 36524 - Z.quot day_of_era 146096) 365 in
  let year := year_of_era + era * 400 in
  let day_of_year := day_of_era - (365 * year_of_era + Z.quot year_of_era 4 - Z.quot year_of_era 100) in
  let month_prime := Z.quot (5 * day_of_year + 2) 153 in
  let day := day_of_year - Z.quot (153 * month_prime + 2) 5 + 1 in
  let month := month_prime + (if month_prime <? 10 then 3 else -9) in
  let year := year + (if month <=? 2 then 1 else 0) in
  (year, u8_or 1 month, u8_or 1 day).

(** ** Schedules *)

Record CronSchedule : Type := mkCronSchedule {
  canonical : bytes;
  minute : CronField;
  hour : CronField;
  day_of_month : CronField;
  month : CronField;
  day_of_week : CronField }.

#[export] Instance CronSchedule_eq_dec : EqDecision CronSchedule.
Proof. solve_decision. Defined.

Definition matches_minute (self : CronSchedule) (unix_minute : Z) : bool :=
  let days := unix_minute / MINUTES_PER_DAY in
  let minute_of_day := unix_minute mod MINUTES_PER_DAY in
  let hour_ := u8_or 0 (Z.quot minute_of_day 60) in
  let minute_ := u8_or 0 (Z.rem minute_of_day 60) in
  let '(_, month_, day_) := civil_from_days days in
  let weekday := u8_or 0 ((days + 4) mod 7) in
  let month_matches := contains (month self) month_ in
  let day_of_month_matches := contains (day_of_month self) day_ in
  let day_of_week_matches := contains (day_of_week self) weekday in
  let day_matches :=
    match is_wildcard (day_of_month self), is_wildcard (day_of_week self) with
    | true, true => true
    | true, false => day_of_week_matches
    | false, true => day_of_month_matches
    | false, false => day_of_month_matches || day_of_week_matches
    end in
  contains (minute self) minute_ && contains (hour self) hour_ && month_matches && day_matches.

(** The turns of [for offset in 1..=MAX_SEARCH_MINUTES] from [offset] on, [fuel] of them. *)
Fixpoint search_minutes (self : CronSchedule) (current_minute : Z) (fuel : nat) (offset : Z)
  : result ReleaseError Z :=
  match fuel with
  | O => Err RE_LimitExceeded
  | S fuel =>
      let? candidate_minute := ok_or RE_LimitExceeded (checked_i64 (current_minute + offset)) in
      if matches_minute self candidate_minute
      then ok_or RE_LimitExceeded (checked_i64 (candidate_minute * MICROS_PER_MINUTE))
      else search_minutes self current_minute fuel (offset + 1)
  end.

Definition next_after (self : CronSchedule) (timestamp : Z) : result ReleaseError Z :=
  search_minutes self (timestamp / MICROS_PER_MINUTE) (Z.to_nat MAX_SEARCH_MINUTES) 1.

(** The UTF-8 encodings of the characters with the Unicode property White_Space. *)
Definition white_space : list bytes :=
  map (fun b => [b]) [x09; x0a; x0b; x0c; x0d; x20]
  ++ [[xc2; x85]; [xc2; xa0]; [xe1; x9a; x80]]
  ++ map (fun b => [xe2; x80; b]) [x80; x81; x82; x83; x84; x85; x86; x87; x88; x89; x8a; xa8; xa9; xaf]
  ++ [[xe2; x81; x9f]; [xe3; x80; x80]].

Definition starts_with (p l : bytes) : bool := bool_decide (is_Some (strip_prefix p l)).
(** [value.trim() == value]. *)
Definition is_trimmed (value : bytes) : bool :=
  negb (existsb (fun w => starts_with w value || starts_with (rev w) (rev value)) white_space).

(** [str::contains]. *)
Fixpoint contains_str (needle l : bytes) : bool :=
  starts_with needle l || match l with [] => false | _ :: l => contains_str needle l end.

Definition CronSchedule_from_str (value : bytes) : result ReleaseError CronSchedule :=
  if (MAX_EXPRESSION_BYTES <? len value) || negb (is_trimmed value) || contains_str [x20; x20] value
  then Err RE_InvalidManifest
  else match split_on x20 value with
  | [minute; hour; day_of_month; month; day_of_week] =>
      let? minute := CronField_parse minute 0 59 in
      let? hour := CronField_parse hour 0 23 in
      let? day_of_month := CronField_parse day_of_month 1 31 in
      let? month := CronField_parse month 1 12 in
      let? day_of_week := CronField_parse day_of_week 0 6 in
      let canonical := join [x20] (map canonical_field [minute; hour; day_of_month; month; day_of_week]) in
      if MAX_EXPRESSION_BYTES <? len canonical then Err RE_LimitExceeded
      else Ok (mkCronSchedule canonical minute hour day_of_month month day_of_week)
  | _ => Err RE_InvalidManifest
  end.

(** ** The sets of values behind the fields *)

Lemma contains_testbit f v : 0 <= v -> contains f v = Z.testbit (bits f) v.
Proof.
  intros Hv. unfold contains. rewrite Z.shiftl_mul_pow2, Z.mul_1_l by lia.
  assert (Z.land (bits f) (2 ^ v) = if Z.testbit (bits f) v then 2 ^ v else 0) as ->.
  { apply Z.bits_inj'. intros i Hi. rewrite Z.land_spec, Z.pow2_bits_eqb by lia.
    destruct (Z.eqb_spec v i) as [<-|Hne]; rewrite ?andb_false_r, ?andb_true_r;
      (destruct (Z.testbit (bits f) v) eqn:E; [|by rewrite Z.bits_0]).
    - by rewrite Z.pow2_bits_true.
    - by rewrite Z.pow2_bits_false. }
  destruct (Z.testbit (bits f) v); [|done]. pose proof (Z.pow_pos_nonneg 2 v).
  by destruct (Z.eqb_spec (2 ^ v) 0); [lia|].
Qed.

Lemma lor_bit b c i : 0 <= c -> 0 <= i ->
  Z.testbit (Z.lor b (Z.shiftl 1 c)) i = Z.testbit b i || (i =? c).
Proof.
  intros. rewrite Z.lor_spec, Z.shiftl_mul_pow2, Z.mul_1_l, Z.pow2_bits_eqb by lia.
  by rewrite (Z.eqb_sym c).
Qed.

(** The values a list item stands for. *)
Definition covers (start step end_ i : Z) : bool :=
  (start <=? i) && (i <=? end_) && ((i - start) mod step =? 0).

Lemma covers_below start step end_ i : 0 < step -> start <= end_ -> end_ < start + step ->
  covers start step end_ i = (i =? start).
Proof.
  intros. unfold covers. destruct (Z.eqb_spec i start) as [->|Hne].
  - rewrite Z.sub_diag, Z.mod_0_l by lia. lia.
  - destruct (Z.leb_spec start i), (Z.leb_spec i end_); try done. cbn [andb].
    rewrite Z.mod_small by lia. lia.
Qed.

Lemma covers_step start step end_ i : 0 < step -> start + step <= end_ ->
  covers start step end_ i = (i =? start) || covers (start + step) step end_ i.
Proof.
  intros. unfold covers. replace (i - (start + step)) with (i - start + (-1) * step) by lia.
  rewrite Z.mod_add by lia. destruct (Z.eqb_spec i start) as [->|Hne].
  - rewrite Z.sub_diag, Z.mod_0_l by lia. lia.
  - cbn [orb]. destruct (Z.leb_spec (start + step) i) as [Hi|Hi].
    + by rewrite (proj2 (Z.leb_le start i)) by lia.
    + destruct (Z.leb_spec start i); [|done]. rewrite (Z.mod_small (i - start)) by lia.
      cbn [andb]. lia.
Qed.

Lemma set_bits_testbit fuel start step end_ b i : 0 <= start <= end_ -> end_ <= u8_max -> 0 < step ->
  end_ - start <= Z.of_nat fuel -> 0 <= i ->
  Z.testbit (set_bits fuel start step end_ b) i = Z.testbit b i || covers start step end_ i.
Proof.
  revert start b; induction fuel as [|fuel IH]; intros start b Hs He Hst Hf Hi; cbn [set_bits];
    (destruct (checked_add u8_max start step) as [next|] eqn:En;
     [apply checked_add_Some in En as [-> En]; destruct (Z.ltb_spec end_ (start + step))|
      apply checked_add_None in En]);
    try (rewrite lor_bit, covers_below by lia; done).
  rewrite IH, lor_bit, (covers_step start) by lia. by rewrite orb_assoc.
Qed.

(** ** Parsed fields *)

Definition field_ok (lo hi : Z) (f : CronField) : Prop :=
  minimum f = lo /\ maximum f = hi /\ 0 < bits f /\ forall i, Z.testbit (bits f) i = true -> lo <= i <= hi.

Lemma item_bounds_ok lo hi step base start end_ : lo <= hi -> item_bounds lo hi step base = Ok (start, end_) ->
  lo <= start /\ start <= end_ <= hi.
Proof.
  unfold item_bounds. intros Hlh H. case_decide; [injection H as <- <-; lia|].
  destruct (split_once x2d base) as [[s e]|].
  - apply rbind_Ok in H as (s' & _ & H). apply rbind_Ok in H as (e' & _ & H).
    destruct (_ || _ || _) eqn:E; [done|]. injection H as <- <-. bool_facts. lia.
  - destruct (step =? 1); [|done]. apply rbind_Ok in H as (n & _ & H).
    destruct (_ || _) eqn:E; [done|]. injection H as <- <-. bool_facts. lia.
Qed.

Lemma parse_item_Ok lo hi b item b' : 0 <= lo <= hi -> hi <= u8_max -> parse_item lo hi b item = Ok b' ->
  exists start step end_, lo <= start /\ start <= end_ <= hi /\ 0 < step
    /\ b' = set_bits (Z.to_nat (end_ - start)) start step end_ b.
Proof.
  intros Hlo Hhi H. unfold parse_item in H. destruct (split_on x2f item) as [|base parts]; [done|].
  apply rbind_Ok in H as (step & Hstep & H). destruct (_ || _ || _) eqn:E; [done|].
  apply rbind_Ok in H as ([start end_] & Hb & H). injection H as <-.
  apply item_bounds_ok in Hb as [? ?]; [|lia]. exists start, step, end_. split_and!; try lia.
  bool_facts. assert (0 <= step); [|lia].
  destruct parts as [|s parts]; [injection Hstep as <-; lia|]. unfold parse_number in Hstep.
  destruct (_ || _); [done|]. apply ok_or_Ok, try_from_u_Some in Hstep. lia.
Qed.

Lemma set_bits_nonneg fuel start step end_ b : 0 <= start -> 0 < step -> 0 <= b ->
  0 <= set_bits fuel start step end_ b.
Proof.
  revert start b; induction fuel as [|fuel IH]; intros start b Hs Hst Hb; cbn [set_bits];
    (assert (0 <= Z.lor b (Z.shiftl 1 start)) by (apply Z.lor_nonneg; split; [done|by apply Z.shiftl_nonneg]));
    (destruct (checked_add _ _ _) as [next|] eqn:En; [|done]);
    (destruct (end_ <? next); [done|]); [done|].
  apply checked_add_Some in En as [-> _]. apply IH; lia.
Qed.

Lemma CronField_parse_ok value lo hi f : 0 <= lo <= hi -> hi <= u8_max ->
  CronField_parse value lo hi = Ok f -> field_ok lo hi f.
Proof.
  intros Hlo Hhi H. unfold CronField_parse in H. case_decide; [done|].
  apply rbind_Ok in H as (b & Hb & H). destruct (Z.eqb_spec b 0); [done|]. injection H as <-.
  apply (try_fold_inv (fun b => 0 <= b /\ forall i, Z.testbit b i = true -> lo <= i <= hi)) in Hb as [Hb Hin].
  - split_and!; cbn; [done|done|lia|done].
  - intros b1 item b2 _ [Hb1 Hi1] (start & step & end_ & Hs & He & Hst & ->)%parse_item_Ok; [|done|done].
    split; [apply set_bits_nonneg; lia|]. intros i Hi.
    destruct (Z.ltb_spec i 0) as [Hneg|Hpos]; [by rewrite Z.testbit_neg_r in Hi|].
    rewrite set_bits_testbit in Hi by lia. apply orb_true_iff in Hi as [Hi|Hi]; [by apply Hi1|].
    unfold covers in Hi. lia.
  - split; [done|]. intros i. by rewrite Z.bits_0.
Qed.

Lemma in_field_values lo hi f v : field_ok lo hi f -> v ∈ field_values f <-> lo <= v <= hi.
Proof. intros (Hlo & Hhi & _). unfold field_values. rewrite Hlo, Hhi, elem_of_seqZ. lia. Qed.

(** ** Reading back the normal form of a field *)

Lemma split_once_clean sep l : sep ∉ l -> split_once sep l = None.
Proof.
  intros Hn. destruct (split_once sep l) as [[x y]|] eqn:E; [|done].
  apply split_once_Some in E as [-> _]. exfalso. apply Hn, elem_of_app. right. left.
Qed.

Lemma parse_number_to_string v : 0 <= v < 100 -> parse_number (u8_to_string v) = Ok v.
Proof.
  intros Hv. assert (forallb (fun v => bool_decide (parse_number (u8_to_string v) = Ok v)) (seqZ 0 100) = true)
    as H by (by vm_compute).
  rewrite forallb_forall in H. eapply bool_decide_eq_true, H, list_elem_of_In, elem_of_seqZ. lia.
Qed.

Lemma parse_item_number lo hi v b : 0 <= lo <= v -> v <= hi < 100 ->
  parse_item lo hi b (u8_to_string v) = Ok (Z.lor b (Z.shiftl 1 v)).
Proof.
  intros Hlo Hhi. unfold parse_item.
  rewrite split_on_clean by (apply u8_to_string_clean; [lia|done]). cbn [rbind].
  change (1 <? len []) with false. change (1 =? 0) with false. cbn [orb].
  destruct (Z.ltb_spec (hi - lo + 1) 1); [lia|]. unfold item_bounds.
  rewrite decide_False.
  2:{ intros E. assert (x2a ∈ u8_to_string v) as Hin by (rewrite E; by left).
      revert Hin. apply u8_to_string_clean; [lia|done]. }
  rewrite split_once_clean by (apply u8_to_string_clean; [lia|done]).
  change (1 =? 1) with true. cbn beta iota. rewrite parse_number_to_string by lia. cbn [rbind].
  destruct (Z.ltb_spec v lo), (Z.ltb_spec hi v); try lia. cbn [orb rbind]. rewrite Z.sub_diag.
  change (Z.to_nat 0) with 0%nat. cbn [set_bits].
  rewrite (proj2 (checked_add_Some u8_max v 1 (v + 1))) by (split; [done|change u8_max with 255; lia]).
  by destruct (Z.ltb_spec v (v + 1)); [|lia].
Qed.

Lemma parse_numbers lo hi vs b : 0 <= lo -> hi < 100 -> Forall (fun v => lo <= v <= hi) vs ->
  exists b', try_fold (parse_item lo hi) b (map u8_to_string vs) = Ok b'
    /\ forall i, 0 <= i -> Z.testbit b' i = Z.testbit b i || bool_decide (i ∈ vs).
Proof.
  intros Hlo Hhi Hvs. revert b; induction Hvs as [|v vs Hv Hvs IH]; intros b.
  - exists b. split; [done|]. intros i _. by rewrite bool_decide_false, orb_false_r by (apply not_elem_of_nil).
  - cbn [map try_fold]. rewrite parse_item_number by lia. cbn [rbind].
    destruct (IH (Z.lor b (Z.shiftl 1 v))) as (b' & Hb' & Hbits). exists b'. split; [done|].
    intros i Hi. rewrite Hbits, lor_bit, <- orb_assoc by lia. f_equal.
    rewrite (bool_decide_ext (i ∈ v :: vs) (i = v \/ i ∈ vs)) by apply elem_of_cons.
    rewrite bool_decide_or. f_equal. by case_bool_decide; destruct (Z.eqb_spec i v).
Qed.

(** The normal form of a field is read back as the same field. *)
Lemma CronField_parse_canonical lo hi f : 0 <= lo <= hi -> hi < 100 -> field_ok lo hi f ->
  CronField_parse (canonical_field f) lo hi = Ok f.
Proof.
  intros Hlo Hhi Hok. pose proof (in_field_values lo hi f) as Hin. pose proof Hok as (Emin & Emax & Hpos & Hbits).
  assert (forall b, (forall i, 0 <= i -> Z.testbit b i = Z.testbit (bits f) i) -> 
    (if b =? 0 then Err RE_InvalidManifest else Ok (mkCronField b lo hi)) = Ok f) as Hfin.
  { intros b Hb. apply Z.bits_inj' in Hb as ->. destruct (Z.eqb_spec (bits f) 0); [lia|].
    destruct f; cbn in *. by subst. }
  unfold CronField_parse, canonical_field. destruct (is_wildcard f) eqn:Hw.
  - rewrite decide_False by done. change (split_on x2c [x2a]) with [[x2a]]. cbn [try_fold].
    unfold parse_item. change (split_on x2f [x2a]) with [[x2a]]. cbn [rbind]. change (1 <? len []) with false. change (1 =? 0) with false.
    destruct (Z.ltb_spec (hi - lo + 1) 1); [lia|]. unfold item_bounds. rewrite decide_True by done. cbn [orb rbind].
    apply Hfin. intros i Hi. rewrite set_bits_testbit by (change u8_max with 255; lia).
    rewrite Z.bits_0. cbn [orb]. unfold covers. rewrite Z.mod_1_r. unfold is_wildcard in Hw.
    rewrite forallb_forall in Hw. destruct (Z.testbit (bits f) i) eqn:E; [apply Hbits in E; lia|].
    destruct (Z.leb_spec lo i), (Z.leb_spec i hi); try done.
    rewrite <- contains_testbit, Hw in E; [done| |done]. apply list_elem_of_In, Hin; [done|lia].
  - set (vs := filter _ _). assert (forall v, v ∈ vs <-> contains f v = true /\ lo <= v <= hi) as Hvs.
    { intros v. unfold vs. rewrite list_elem_of_filter, Hin by done. done. }
    assert (vs <> []) as Hne.
    { intros E. assert (0 <= Z.log2 (bits f)) by apply Z.log2_nonneg.
      assert (Z.log2 (bits f) ∈ vs) as Hl; [|rewrite E in Hl; by apply elem_of_nil in Hl].
      apply Hvs. rewrite contains_testbit by done. split; [|apply Hbits]; by apply Z.bit_log2. }
    assert (forall v, v ∈ vs -> x2c ∉ u8_to_string v) as Hclean.
    { intros v Hv%Hvs. apply u8_to_string_clean; [lia|done]. }
    rewrite decide_False, split_on_join.
    + destruct (parse_numbers lo hi vs 0) as (b & -> & Hb); [lia|lia|by apply Forall_forall; intros v [_ ?]%Hvs|].
      cbn [rbind]. apply Hfin. intros i Hi. rewrite Hb, Z.bits_0 by done. cbn [orb].
      case_bool_decide as Hi'; [apply Hvs in Hi' as [Hi' _]; by rewrite contains_testbit in Hi'|].
      destruct (Z.testbit (bits f) i) eqn:E; [|done]. exfalso. apply Hi', Hvs.
      rewrite contains_testbit by done. split; [done|by apply Hbits].
    + by destruct vs.
    + apply Forall_map, Forall_forall. done.
    + destruct vs as [|v [|w vs]]; [done|cbn [map join]..]; unfold u8_to_string; intros E;
        apply (f_equal length) in E; rewrite ?length_app in E; cbn in E; lia.
Qed.

(** ** The grammar of a field *)

Lemma split_on_cons sep l : exists piece rest, split_on sep l = piece :: rest.
Proof.
  destruct l as [|b l]; cbn [split_on]; [by eauto|]. case_decide; [by eauto|].
  destruct (split_on sep l); eauto.
Qed.

Lemma join_split_on sep l : join [sep] (split_on sep l) = l.
Proof.
  induction l as [|b l IH]; [done|]. cbn [split_on].
  destruct (split_on_cons sep l) as (piece & rest & E). rewrite E in *. case_decide as Hb.
  - subst b. change (sep :: join [sep] (piece :: rest) = sep :: l). by rewrite IH.
  - destruct rest as [|q rest]; [by cbn in *; subst|].
    change (b :: join [sep] (piece :: q :: rest) = b :: l). by rewrite IH.
Qed.

Lemma split_on_pieces sep l : Forall (fun p => sep ∉ p) (split_on sep l).
Proof.
  induction l as [|b l IH]; [repeat constructor; apply not_elem_of_nil|]. cbn [split_on].
  destruct (split_on_cons sep l) as (piece & rest & E). rewrite E in *. case_decide.
  - constructor; [apply not_elem_of_nil|done].
  - apply Forall_cons in IH as [Hp Hr]. constructor; [|done]. by apply not_elem_of_cons.
Qed.

Lemma u8_to_string_digits x y : 0 <= x <= 9 -> 0 <= y <= 9 ->
  u8_to_string (10 * x + y) = (if x =? 0 then [] else [zb (48 + x)]) ++ [zb (48 + y)].
Proof.
  intros. unfold u8_to_string. destruct (Z.ltb_spec (10 * x + y) 100); [|lia].
  replace ((10 * x + y) / 10) with x by (Z.div_mod_to_equations; lia).
  replace ((10 * x + y) mod 10) with y by (Z.div_mod_to_equations; lia).
  rewrite Z.mod_small by lia.
  destruct (Z.ltb_spec (10 * x + y) 10), (Z.eqb_spec x 0); try lia; done.
Qed.

Lemma parse_number_Ok s v : parse_number s = Ok v <-> 0 <= v < 100 /\ s = u8_to_string v.
Proof.
  split; [|intros [? ->]; by apply parse_number_to_string]. unfold parse_number.
  destruct (_ || _) eqn:E; [done|]. intros Hv%ok_or_Ok. apply try_from_u_Some in Hv as [-> Hv].
  apply orb_false_iff in E as [E Ed]. apply negb_false_iff in Ed. apply orb_false_iff in E as [E Ez].
  assert (forall d, is_ascii_digit d = true -> 0 <= bz d - 48 <= 9 /\ zb (48 + (bz d - 48)) = d) as Hd.
  { intros d H. unfold is_ascii_digit, in_range in H. replace (48 + (bz d - 48)) with (bz d) by lia.
    rewrite zb_bz. split; [lia|done]. }
  destruct s as [|a [|b [|c s]]]; [done|..].
  - cbn in Ed. rewrite andb_true_r in Ed. destruct (Hd a Ed) as [? Ha].
    cbn [fold_left]. rewrite u8_to_string_digits, Ha by lia. split; [lia|done].
  - cbn in Ed. rewrite andb_true_r in Ed. apply andb_true_iff in Ed as [Hda Hdb].
    destruct (Hd a Hda) as [? Ha], (Hd b Hdb) as [? Hb]. cbn [fold_left]. rewrite Z.add_0_l.
    rewrite u8_to_string_digits, Ha, Hb by lia. destruct (Z.eqb_spec (bz a - 48) 0) as [E0|]; [|split; [lia|done]].
    rewrite E0 in Ha. change (zb (48 + 0)) with x30 in Ha. by subst a.
  - autorewrite with runku in E. pose proof (len_nonneg s). lia.
Qed.

(** What a list item may look like and the values it stands for: a wildcard, a range or a number, and a
    step for the first two. *)
Inductive item_base (lo hi : Z) : bytes -> bool -> Z -> Z -> Prop :=
  | base_all : item_base lo hi [x2a] true lo hi
  | base_range a b : lo <= a -> a < b -> b <= hi ->
      item_base lo hi (u8_to_string a ++ x2d :: u8_to_string b) true a b
  | base_number n : lo <= n <= hi -> item_base lo hi (u8_to_string n) false n n.

Inductive item_range (lo hi : Z) : bytes -> Z -> Z -> Z -> Prop :=
  | item_plain base steps start end_ : item_base lo hi base steps start end_ ->
      item_range lo hi base start 1 end_
  | item_step base steps start end_ k : item_base lo hi base steps start end_ ->
      steps = true \/ k = 1 -> 1 <= k <= hi - lo + 1 ->
      item_range lo hi (base ++ x2f :: u8_to_string k) start k end_.

Section grammar.
Context (lo hi : Z) (Hlo : 0 <= lo <= hi) (Hhi : hi < 99).

Lemma item_base_range base st start end_ : item_base lo hi base st start end_ ->
  lo <= start /\ start <= end_ <= hi /\ x2f ∉ base.
Proof.
  intros []; (split; [lia|]; split; [lia|]).
  - by apply not_elem_of_cons; split; [|apply not_elem_of_nil].
  - rewrite elem_of_app, elem_of_cons. intros [Hin|[Hin|Hin]]; [|done|]; revert Hin;
      apply u8_to_string_clean; done || lia.
  - apply u8_to_string_clean; done || lia.
Qed.

Lemma item_bounds_spec step base start end_ : item_bounds lo hi step base = Ok (start, end_) <->
  exists steps, item_base lo hi base steps start end_ /\ (steps = true \/ step = 1).
Proof.
  unfold item_bounds. split.
  - intros H. case_decide as Hb; [injection H as <- <-; subst base; exists true; split; [constructor|by left]|].
    destruct (split_once x2d base) as [[s e]|] eqn:Es.
    + apply split_once_Some in Es as [-> _]. apply rbind_Ok in H as (a & Ha & H).
      apply rbind_Ok in H as (b & Hb' & H). apply parse_number_Ok in Ha as [_ ->], Hb' as [_ ->].
      destruct (_ || _ || _) eqn:E; [done|]. injection H as <- <-. bool_facts.
      exists true. split; [constructor; lia|by left].
    + destruct (Z.eqb_spec step 1); [|done]. apply rbind_Ok in H as (n & Hn & H).
      apply parse_number_Ok in Hn as [_ ->]. destruct (_ || _) eqn:E; [done|]. injection H as <- <-.
      bool_facts. exists false. split; [constructor; lia|by right].
  - intros (steps & Hb & Hst). destruct Hb as [|a b Ha Hab Hb|n Hn].
    + by rewrite decide_True.
    + rewrite decide_False by (intros E; apply (f_equal (fun l => bool_decide (x2d ∈ l))) in E; revert E;
        rewrite bool_decide_true by (apply elem_of_app; right; left); by vm_compute).
      rewrite (proj2 (split_once_Some x2d _ (u8_to_string a) (u8_to_string b)))
        by (split; [done|apply u8_to_string_clean; done || lia]).
      rewrite !parse_number_to_string by lia. cbn [rbind].
      destruct (Z.ltb_spec a lo), (Z.ltb_spec hi b), (Z.leb_spec b a); try lia. done.
    + destruct Hst as [ | ->]; [done|]. rewrite decide_False.
      2:{ intros E. assert (x2a ∈ u8_to_string n) as Hin by (rewrite E; by left).
          revert Hin. apply u8_to_string_clean; done || lia. }
      rewrite split_once_clean by (apply u8_to_string_clean; done || lia).
      change (1 =? 1) with true. cbn beta iota. rewrite parse_number_to_string by lia. cbn [rbind].
      destruct (Z.ltb_spec n lo), (Z.ltb_spec hi n); try lia. done.
Qed.

Lemma parse_item_spec b item b' : parse_item lo hi b item = Ok b' <->
  exists start k end_, item_range lo hi item start k end_
    /\ b' = set_bits (Z.to_nat (end_ - start)) start k end_ b.
Proof.
  unfold parse_item. split.
  - pose proof (join_split_on x2f item) as Hj. destruct (split_on x2f item) as [|base parts]; [done|].
    intros (k & Hk & H)%rbind_Ok. destruct (_ || _ || _) eqn:E; [done|].
    apply rbind_Ok in H as ([s e] & (steps & Hbase & Hsteps)%item_bounds_spec & H). injection H as <-.
    exists s, k, e. split; [|done]. destruct parts as [|t [|t' parts]].
    + injection Hk as <-. cbn in Hj. subst item. by econstructor.
    + apply parse_number_Ok in Hk as [Hk ->]. cbn in Hj. subst item. bool_facts. econstructor; [done|done|lia].
    + autorewrite with runku in E. pose proof (len_nonneg parts). bool_facts. lia.
  - intros (s & k & e & Hr & ->). destruct Hr as [base st s e Hb|base st s e k Hb Hst Hk];
      destruct (item_base_range _ _ _ _ Hb) as (_ & _ & Hclean).
    + rewrite split_on_clean by done. cbn [rbind]. change (1 <? len []) with false.
      destruct (Z.ltb_spec (hi - lo + 1) 1); [lia|]. cbn [orb].
      rewrite (proj2 (item_bounds_spec 1 base s e)) by eauto. done.
    + rewrite split_on_app, split_on_clean by (done || apply u8_to_string_clean; done || lia).
      rewrite parse_number_to_string by lia. cbn [rbind]. change (1 <? len [_]) with false.
      destruct (Z.eqb_spec k 0), (Z.ltb_spec (hi - lo + 1) k); try lia. cbn [orb].
      by rewrite (proj2 (item_bounds_spec k base s e)) by eauto.
Qed.

Lemma item_range_bounds item start k end_ : item_range lo hi item start k end_ ->
  lo <= start /\ start <= end_ <= hi /\ 0 < k.
Proof. intros [base st s e Hb|base st s e k' Hb Hst Hk]; apply item_base_range in Hb; lia. Qed.

(** The values covered by a list of items. *)
Definition items_cover (items : list bytes) (v : Z) : Prop :=
  exists item start k end_, item ∈ items /\ item_range lo hi item start k end_ /\ covers start k end_ v = true.

Lemma parse_items_spec items b b' : try_fold (parse_item lo hi) b items = Ok b' ->
  Forall (fun item => exists start k end_, item_range lo hi item start k end_) items
  /\ (0 <= b -> 0 <= b')
  /\ forall v, 0 <= v -> Z.testbit b' v = true <-> Z.testbit b v = true \/ items_cover items v.
Proof.
  revert b; induction items as [|item items IH]; intros b; cbn [try_fold].
  - intros [= <-]. split_and!; [done|done|]. intros v Hv. split; [by left|].
    intros [?|(item & ? & ? & ? & Hin & _)]; [done|by apply elem_of_nil in Hin].
  - intros (b1 & H1 & H2)%rbind_Ok. destruct (IH _ H2) as (Hall & Hpos & Hbits).
    pose proof H1 as (s & k & e & Hr & E1)%parse_item_spec. pose proof (item_range_bounds _ _ _ _ Hr).
    split_and!; [constructor; eauto|intros; apply Hpos; subst b1; apply set_bits_nonneg; lia|].
    intros v Hv. rewrite Hbits, E1, set_bits_testbit, orb_true_iff by (change u8_max with 255; lia).
    assert (covers s k e v = true \/ items_cover items v <-> items_cover (item :: items) v) as <-; [|tauto].
    split.
    + intros [Hc|(item' & s' & k' & e' & Hin & Hr' & Hc)].
      * exists item, s, k, e. split_and!; [by left|done|done].
      * exists item', s', k', e'. split_and!; [by right|done|done].
    + intros (item' & s' & k' & e' & Hin & Hr' & Hc). apply elem_of_cons in Hin as [->|Hin].
      * left. pose proof (item_range_bounds _ _ _ _ Hr').
        assert (parse_item lo hi 0 item = Ok (set_bits (Z.to_nat (e - s)) s k e 0)) as P1
          by (apply parse_item_spec; eauto).
        assert (parse_item lo hi 0 item = Ok (set_bits (Z.to_nat (e' - s')) s' k' e' 0)) as P2
          by (apply parse_item_spec; eauto).
        rewrite P1 in P2. injection P2 as P2. apply (f_equal (fun b => Z.testbit b v)) in P2.
        rewrite !set_bits_testbit, Z.bits_0 in P2 by (change u8_max with 255; lia). cbn in P2. congruence.
      * right. exists item', s', k', e'. done.
Qed.

Lemma parse_items_total items b :
  Forall (fun item => exists start k end_, item_range lo hi item start k end_) items ->
  exists b', try_fold (parse_item lo hi) b items = Ok b'.
Proof.
  intros Hall. revert b; induction Hall as [|item items (s & k & e & Hr) Hall IH]; intros b; [by eexists|].
  cbn [try_fold]. rewrite (proj2 (parse_item_spec b item _)) by eauto. apply IH.
Qed.
End grammar.

(** A Cron field means what its grammar says.  Within the ranges the schedules use, a text is accepted
    exactly when each comma-separated item is a wildcard, a range or a number, the first two with an optional
    step, in bounds and without leading zeros; and the field contains exactly the values some item covers. *)
Theorem cron_field_grammar lo hi value f : 0 <= lo <= hi -> hi < 99 ->
  CronField_parse value lo hi = Ok f <->
  minimum f = lo /\ maximum f = hi /\ 0 <= bits f
  /\ Forall (fun item => exists start k end_, item_range lo hi item start k end_) (split_on x2c value)
  /\ forall v, 0 <= v -> contains f v = true <-> items_cover lo hi (split_on x2c value) v.
Proof.
  intros Hlo Hhi. unfold CronField_parse. split.
  - case_decide; [done|]. intros (b & Hb & Hf)%rbind_Ok. destruct (b =? 0); [done|]. injection Hf as <-.
    apply parse_items_spec in Hb as (Hall & Hpos & Hbits); [|done|done].
    split_and!; try done; [by apply Hpos|]. intros v Hv. rewrite contains_testbit, Hbits, Z.bits_0 by done.
    split; [by intros [?|?]|by right].
  - intros (E1 & E2 & Hnn & Hall & Hbits). destruct (parse_items_total lo hi Hlo Hhi _ 0 Hall) as [b Hb].
    apply parse_items_spec in Hb as Hs; [|done|done]. destruct Hs as (_ & Hpos & Hb').
    assert (bits f = b) as Hbf.
    { apply Z.bits_inj'. intros v Hv. apply eq_true_iff_eq. rewrite Hb', <- contains_testbit, Hbits, Z.bits_0 by done.
      split; [by right|by intros [?|?]]. }
    assert (exists item, item ∈ split_on x2c value) as [item Hitem].
    { destruct (split_on_cons x2c value) as (p & r & ->). exists p. by left. }
    rewrite Forall_forall in Hall. destruct (Hall item Hitem) as (s & k & e & Hr).
    pose proof (item_range_bounds lo hi Hlo Hhi _ _ _ _ Hr) as (? & ? & ?).
    assert (covers s k e s = true) as Hc by (unfold covers; rewrite Z.sub_diag, Z.mod_0_l by lia; lia).
    case_decide as He.
    + subst value. cbn in Hitem. apply list_elem_of_singleton in Hitem as ->. exfalso.
      inversion Hr as [base st ? ? Hb0|base ? ? ? ? ? ? ? Hbad]; [|by destruct base].
      inversion Hb0 as [|a c ? ? ? Hbad|n ? Hbad]; revert Hbad; unfold u8_to_string; intros Hbad;
        apply (f_equal length) in Hbad; rewrite !length_app in Hbad; cbn in Hbad; lia.
    + rewrite Hb. cbn [rbind]. destruct (Z.eqb_spec b 0) as [->|]; [|destruct f; cbn in *; by subst].
      assert (contains f s = true) as Hcs by (apply Hbits; [lia|by exists item, s, k, e]).
      rewrite contains_testbit, Hbf, Z.bits_0 in Hcs by lia. done.
Qed.

Lemma cron_field_grammar_witness : exists f, CronField_parse (text "*/15,7") 0 59 = Ok f
  /\ Forall (fun item => exists start k end_, item_range 0 59 item start k end_) (split_on x2c (text "*/15,7")).
Proof.
  destruct (CronField_parse (text "*/15,7") 0 59) as [f|e] eqn:E; [|by vm_compute in E].
  exists f. split; [done|]. apply (cron_field_grammar 0 59 (text "*/15,7") f); [lia|lia|done].
Defined.

(** ** Reading back the normal form of a schedule *)

Definition plain (b : byte) : bool := in_range 33 126 b.

Lemma u8_to_string_plain v : 0 <= v < 256 -> Forall (fun b => plain b = true) (u8_to_string v).
Proof.
  intros Hv. apply Forall_forall. intros b Hb. destruct (plain b) eqn:E; [done|]. exfalso. revert Hb.
  apply u8_to_string_clean; [done|]. unfold plain, is_ascii_digit, in_range in *. lia.
Qed.

Lemma canonical_field_plain lo hi f : 0 <= lo <= hi -> hi < 256 -> field_ok lo hi f ->
  Forall (fun b => plain b = true) (canonical_field f).
Proof.
  intros Hlo Hhi Hok. unfold canonical_field. destruct (is_wildcard f); [by repeat constructor|].
  apply Forall_forall. intros b [Hb|(p & Hp & Hb)]%elem_of_join.
  - apply list_elem_of_singleton in Hb as ->. done.
  - apply list_elem_of_fmap in Hp as (v & -> & Hv). apply list_elem_of_filter in Hv as [_ Hv].
    apply (in_field_values lo hi f v Hok) in Hv. revert b Hb. apply Forall_forall, u8_to_string_plain. lia.
Qed.

Lemma CronField_parse_nonempty s lo hi f : CronField_parse s lo hi = Ok f -> s <> [].
Proof. by intros H ->. Qed.

Lemma starts_with_head w v : starts_with w v = true -> w <> [] -> head w = head v.
Proof.
  unfold starts_with. intros [r Hr]%bool_decide_eq_true Hw. apply strip_prefix_Some in Hr as ->. by destruct w.
Qed.

(** A text whose first and last characters are printable has nothing to trim. *)
Lemma is_trimmed_plain v a b : head v = Some a -> head (rev v) = Some b -> plain a = true -> plain b = true ->
  is_trimmed v = true.
Proof.
  intros Ha Hb Hpa Hpb. unfold is_trimmed. rewrite negb_true_iff.
  destruct (existsb _ white_space) eqn:E; [|done].
  apply existsb_exists in E as (w & Hw & E).
  assert (forallb (fun w => negb (bool_decide (w = [])) && negb (bool_decide (rev w = []))
    && forallb (fun c => negb (plain c)) (option_list (head w) ++ option_list (head (rev w))))
    white_space = true) as Hws by (by vm_compute).
  rewrite forallb_forall in Hws. specialize (Hws w Hw). rewrite forallb_app in Hws. bool_facts.
  apply orb_true_iff in E as [E|E]; apply starts_with_head in E; try done; rewrite E, ?Ha, ?Hb in *; cbn in *;
    rewrite ?Hpa, ?Hpb in *; done.
Qed.

(** A doubled separator shows as an empty piece after the first. *)
Lemma contains_double sep l : contains_str [sep; sep] l = true -> [] ∈ tail (split_on sep l).
Proof.
  induction l as [|b l IH]; cbn [contains_str]; intros [H|H]%orb_true_iff; try done.
  - unfold starts_with in H. apply bool_decide_eq_true in H as [r Hr]. apply strip_prefix_Some in Hr.
    injection Hr as -> ->. cbn. rewrite !decide_True by done. by left.
  - specialize (IH H). cbn [split_on]. case_decide.
    + cbn. destruct (split_on sep l); [by apply elem_of_nil in IH|by right].
    + destruct (split_on sep l); [by apply elem_of_nil in IH|done].
Qed.

Definition part_ok (p : bytes) : Prop := p <> [] /\ Forall (fun b => plain b = true) p.

Lemma canonical_field_part lo hi f : 0 <= lo <= hi -> hi < 100 -> field_ok lo hi f ->
  part_ok (canonical_field f).
Proof.
  intros. split; [|eapply canonical_field_plain; eauto; lia].
  eapply CronField_parse_nonempty, CronField_parse_canonical; eauto; lia.
Qed.

Lemma join_head sep p parts : p <> [] -> head (join sep (p :: parts)) = head p.
Proof. intros. destruct parts; [done|]. by destruct p. Qed.

Lemma join_last sep p parts : p <> [] -> head (rev (join sep (parts ++ [p]))) = head (rev p).
Proof.
  intros Hp. assert (forall l, head (rev (l ++ p)) = head (rev p)) as H.
  { intros l. rewrite rev_app_distr. destruct (rev p) eqn:E; [|done].
    apply (f_equal (@rev _)) in E. by rewrite rev_involutive in E. }
  induction parts as [|q parts IH]; [done|]. cbn [app].
  destruct (parts ++ [p]) as [|r rest] eqn:E; [by destruct parts|].
  change (join sep (q :: r :: rest)) with (q ++ sep ++ join sep (r :: rest)).
  rewrite !rev_app_distr. destruct (rev (join sep (r :: rest))) eqn:Er; [|done].
  cbn in IH. symmetry in IH. destruct (rev p) eqn:E'; [|done].
  apply (f_equal (@rev _)) in E'. by rewrite rev_involutive in E'.
Qed.

Lemma parts_trimmed parts : Forall part_ok parts -> parts <> [] -> is_trimmed (join [x20] parts) = true.
Proof.
  intros Hall Hne. assert (exists a, head (join [x20] parts) = Some a /\ plain a = true) as (a & Ha & Hpa).
  { destruct parts as [|p rest]; [done|]. apply Forall_cons in Hall as [[Hp Hplain] _].
    rewrite join_head by done. destruct p as [|a p]; [done|]. exists a. split; [done|by inversion Hplain]. }
  assert (exists b, head (rev (join [x20] parts)) = Some b /\ plain b = true) as (b & Hb & Hpb).
  { destruct parts as [|q rest _] using rev_ind; [done|]. apply Forall_app in Hall as [_ Hall].
    apply Forall_cons in Hall as [[Hq Hplain] _]. rewrite join_last by done.
    destruct q as [|b q _] using rev_ind; [done|]. exists b. rewrite rev_app_distr. split; [done|].
    apply Forall_app in Hplain as [_ Hplain]. by inversion Hplain. }
  by apply (is_trimmed_plain _ a b).
Qed.

(** The normal form of a schedule is a fixed point of the parser: whatever way an expression was
    written, its canonical text parses back to exactly the same schedule, with the same sets of
    minutes, hours, days, months and weekdays.  This is what lets the manifest codec insist on
    [schedule.as_str() == schedule_text]. *)
Theorem cron_schedule_canonical value s : CronSchedule_from_str value = Ok s ->
  CronSchedule_from_str (canonical s) = Ok s.
Proof.
  unfold CronSchedule_from_str at 1. destruct (_ || _ || _); [done|].
  destruct (split_on x20 value) as [|t1 [|t2 [|t3 [|t4 [|t5 [|]]]]]]; try done. intros H.
  apply rbind_Ok in H as (f1 & P1 & H). apply rbind_Ok in H as (f2 & P2 & H).
  apply rbind_Ok in H as (f3 & P3 & H). apply rbind_Ok in H as (f4 & P4 & H).
  apply rbind_Ok in H as (f5 & P5 & H). set (c := join _ _) in H.
  destruct (Z.ltb_spec MAX_EXPRESSION_BYTES (len c)) as [|Hlen]; [done|]. injection H as <-. cbn [canonical].
  apply CronField_parse_ok in P1, P2, P3, P4, P5; try done.
  set (parts := map canonical_field [f1; f2; f3; f4; f5]) in c.
  assert (Forall part_ok parts) as Hparts
    by (repeat (apply Forall_cons_2; [eapply canonical_field_part; [| |eassumption]; done|]); constructor).
  assert (split_on x20 c = parts) as Hsplit.
  { apply split_on_join; [done|]. eapply Forall_impl; [exact Hparts|]. by intros p [_ Hp] Hin;
      rewrite Forall_forall in Hp; apply Hp in Hin. }
  unfold CronSchedule_from_str. rewrite Hsplit.
  assert (is_trimmed c = true) as -> by (by apply parts_trimmed).
  destruct (Z.ltb_spec MAX_EXPRESSION_BYTES (len c)); [lia|].
  destruct (contains_str [x20; x20] c) eqn:Hdouble.
  { apply contains_double in Hdouble. rewrite Hsplit in Hdouble. rewrite Forall_forall in Hparts.
    destruct (Hparts []) as [Hn _]; [by right|done]. }
  subst parts. cbn [map orb negb]. rewrite !CronField_parse_canonical by done. cbn [rbind].
  change (join [x20] _) with c. by destruct (Z.ltb_spec MAX_EXPRESSION_BYTES (len c)); [lia|].
Qed.

Lemma cron_schedule_canonical_witness :
  exists s, CronSchedule_from_str (text "*/15 0-2 * 1,12 1-5") = Ok s
    /\ canonical s = text "0,15,30,45 0,1,2 * 1,12 1,2,3,4,5"
    /\ CronSchedule_from_str (canonical s) = Ok s.
Proof.
  destruct (CronSchedule_from_str (text "*/15 0-2 * 1,12 1-5")) as [s|e] eqn:E.
  - exists s. split_and!; [done| |exact (cron_schedule_canonical _ s E)].
    vm_compute in E. injection E as <-. by vm_compute.
  - vm_compute in E. discriminate E.
Defined.
