(* ===== verification/Calendar.v ===== *)
(** * The calendar behind the Cron schedules

    [civil_from_days] (runku-releases/src/cron.rs) against the definition of the proleptic Gregorian
    calendar by month lengths and leap years, and, with it, the meaning of [next_after]: the search
    returns the first matching minute after a timestamp, and its bound of eight leap-sized years is
    long enough for every schedule that matches any minute at all. *)

From Stdlib Require Import Strings.Byte ZArith Lia.
From stdpp Require Import prelude strings list.
From S2P Require Import Prelude Release Cron.

(** ** The Gregorian calendar *)

Definition is_leap (y : Z) : bool := (y mod 4 =? 0) && (negb (y mod 100 =? 0) || (y mod 400 =? 0)).

Definition days_in_month (y m : Z) : Z :=
  if m =? 2 then (if is_leap y then 29 else 28)
  else if (m =? 4) || (m =? 6) || (m =? 9) || (m =? 11) then 30 else 31.

Definition valid_date (date : Z * Z * Z) : Prop :=
  let '(y, m, d) := date in 1 <= m <= 12 /\ 1 <= d <= days_in_month y m.

(** The day after a date. *)
Definition next_day (date : Z * Z * Z) : Z * Z * Z :=
  let '(y, m, d) := date in
  if d <? days_in_month y m then (y, m, d + 1)
  else if m <? 12 then (y, m + 1, 1)
  else (y + 1, 1, 1).

(** Years that start in March: the first day of year [y], counted from the first of March of year 0,
    and the first day of its month [m], counted from March. *)
Definition year_start (y : Z) : Z := 365 * y + y / 4 - y / 100 + y / 400.
Definition month_start (m : Z) : Z := (153 * m + 2) / 5.

(** The day number of a date, in days since 1970-01-01. *)
Definition days_from_civil (date : Z * Z * Z) : Z :=
  let '(y, m, d) := date in
  year_start (if m <=? 2 then y - 1 else y) + month_start (if m <=? 2 then m + 9 else m - 3) + d - 719469.

Ltac eval_eqb :=
  repeat match goal with
  | |- context [Z.eqb ?a ?b] => let r := eval vm_compute in (Z.eqb a b) in change (Z.eqb a b) with r
  end; cbn [orb].
Ltac div_lia := Z.div_mod_to_equations; lia.

Lemma div_succ k y : 0 < k -> (y + 1) / k = y / k + (if (y + 1) mod k =? 0 then 1 else 0).
Proof.
  intros Hk. destruct (Z.eqb_spec ((y + 1) mod k) 0) as [E|E].
  - rewrite <- (Z.div_unique_pos y k ((y + 1) / k - 1) (k - 1)); [lia|lia|].
    pose proof (Z.div_mod (y + 1) k). lia.
  - rewrite <- (Z.div_unique_pos y k ((y + 1) / k) ((y + 1) mod k - 1)); [lia| |].
    + pose proof (Z.mod_pos_bound (y + 1) k). lia.
    + pose proof (Z.div_mod (y + 1) k). lia.
Qed.

Lemma year_start_succ y : year_start (y + 1) = year_start y + (if is_leap (y + 1) then 366 else 365).
Proof.
  unfold year_start, is_leap. rewrite !div_succ by lia.
  assert (((y + 1) mod 400 = 0 -> (y + 1) mod 100 = 0) /\ ((y + 1) mod 100 = 0 -> (y + 1) mod 4 = 0)) as [H1 H2].
  { split; intros; div_lia. }
  destruct (Z.eqb_spec ((y + 1) mod 4) 0), (Z.eqb_spec ((y + 1) mod 100) 0),
    (Z.eqb_spec ((y + 1) mod 400) 0); cbn [andb orb negb]; lia.
Qed.

Lemma days_next_day date : valid_date date -> days_from_civil (next_day date) = days_from_civil date + 1.
Proof.
  destruct date as [[y m] d]. intros [Hm Hd]. cbn [next_day].
  assert (m = 1 \/ m = 2 \/ m = 3 \/ m = 4 \/ m = 5 \/ m = 6 \/ m = 7 \/ m = 8 \/ m = 9 \/ m = 10
    \/ m = 11 \/ m = 12) as Hcases by lia.
  destruct (Z.ltb_spec d (days_in_month y m)).
  - unfold days_from_civil. lia.
  - assert (d = days_in_month y m) as -> by lia. clear Hd.
    pose proof (year_start_succ (y - 1)) as Hy. replace (y - 1 + 1) with y in Hy by lia.
    destruct_or! Hcases; subst m; unfold days_from_civil, month_start, days_in_month;
      cbn [Z.eqb Pos.eqb orb Z.ltb Z.compare Pos.compare Pos.compare_cont];
      repeat match goal with |- context [?a <=? 2] => destruct (Z.leb_spec a 2); [try lia|try lia] end;
      try replace (y + 1 - 1) with y by lia; try div_lia.
    rewrite Hy. destruct (is_leap y); div_lia.
Qed.
Lemma u8_or_small d v : 0 <= v < 256 -> u8_or d v = v.
Proof. intros. unfold u8_or. by rewrite (proj2 (try_from_u_Some u8_max v v)) by (split; [done|change u8_max with 255; lia]). Qed.

Lemma quot_div a b : 0 <= a -> 0 < b -> Z.quot a b = a / b.
Proof. intros. by apply Z.quot_div_nonneg. Qed.

(** Year and day within a cycle of 400 years. *)
Definition year_of_era (doe : Z) : Z := (doe - doe / 1460 + doe / 36524 - doe / 146096) / 365.

Lemma year_of_era_range doe : 0 <= doe < 146097 -> 0 <= year_of_era doe < 400.
Proof. intros. unfold year_of_era. div_lia. Qed.

Lemma year_of_era_spec doe : 0 <= doe < 146097 -> year_start (year_of_era doe) <= doe < year_start (year_of_era doe + 1).
Proof.
  intros. pose proof (year_of_era_range doe). unfold year_of_era, year_start in *. div_lia.
Qed.

Lemma year_start_era y era : year_start (y + era * 400) = year_start y + era * 146097.
Proof.
  unfold year_start. replace (y + era * 400) with (y + era * 100 * 4) at 2 by lia.
  replace (y + era * 400) with (y + era * 4 * 100) at 2 by lia. rewrite !Z.div_add by lia. lia.
Qed.

Lemma is_leap_era y era : is_leap (y + era * 400) = is_leap y.
Proof.
  unfold is_leap. rewrite Z.mod_add by lia. replace (y + era * 400) with (y + era * 100 * 4) at 1 by lia.
  replace (y + era * 400) with (y + era * 4 * 100) by lia. by rewrite !Z.mod_add by lia.
Qed.

Lemma month_prime_spec doy : 0 <= doy <= 365 ->
  0 <= (5 * doy + 2) / 153 <= 11
  /\ month_start ((5 * doy + 2) / 153) <= doy < month_start ((5 * doy + 2) / 153 + 1).
Proof. intros. unfold month_start. div_lia. Qed.

(** The conversion without its guards. *)
Lemma civil_from_days_eq n (era := (n + 719468) / 146097) (doe := (n + 719468) mod 146097)
  (y := year_of_era doe) (doy := doe - year_start y) (mp := (5 * doy + 2) / 153)
  (m := mp + (if mp <? 10 then 3 else -9)) :
  0 <= doe < 146097 /\ 0 <= y < 400 /\ 0 <= doy < (if is_leap (y + 1) then 366 else 365)
  /\ civil_from_days n = (y + era * 400 + (if m <=? 2 then 1 else 0), m, doy - month_start mp + 1).
Proof.
  assert (0 <= doe < 146097) as Hdoe by (subst doe; apply Z.mod_pos_bound; lia).
  pose proof (year_of_era_range doe Hdoe) as Hy. pose proof (year_of_era_spec doe Hdoe) as Hs.
  fold y in Hy, Hs. rewrite year_start_succ in Hs.
  assert (0 <= doy < if is_leap (y + 1) then 366 else 365) as Hdoy by (subst doy; destruct (is_leap _); lia).
  assert (0 <= doy <= 365) as Hdoy' by (destruct (is_leap _); lia).
  pose proof (month_prime_spec doy Hdoy') as [Hmp Hms]. fold mp in Hmp, Hms.
  split_and!; try lia. unfold civil_from_days.
  replace (n + 719468 - (n + 719468) / 146097 * 146097) with doe
    by (subst doe; rewrite (Z.mod_eq _ 146097) by lia; lia).
  assert (0 <= doe - doe / 1460 + doe / 36524 - doe / 146096) by div_lia.
  rewrite !(quot_div doe) by lia. rewrite (quot_div (_ - _)) by lia.
  fold (year_of_era doe) y era. rewrite !(quot_div y) by lia.
  replace (365 * y + y / 4 - y / 100) with (year_start y)
    by (unfold year_start; rewrite (Z.div_small y 400) by lia; lia).
  fold doy. rewrite (quot_div (5 * doy + 2)) by lia. fold mp. rewrite (quot_div (153 * mp + 2)) by lia.
  fold (month_start mp) m.
  assert (1 <= m <= 12) by (subst m; destruct (Z.ltb_spec mp 10); lia).
  assert (1 <= doy - month_start mp + 1 <= 31) by (unfold month_start in *; div_lia).
  by rewrite !u8_or_small by lia.
Qed.

Lemma civil_from_days_spec n : valid_date (civil_from_days n) /\ days_from_civil (civil_from_days n) = n.
Proof.
  destruct (civil_from_days_eq n) as (Hdoe & Hy & Hdoy & ->).
  set (doe := (n + 719468) mod 146097) in *. set (era := (n + 719468) / 146097).
  set (y := year_of_era doe) in *. set (doy := doe - year_start y) in *.
  assert (0 <= doy <= 365) as Hdoy' by (destruct (is_leap _); lia).
  destruct (month_prime_spec doy Hdoy') as [Hmp Hms]. set (mp := (5 * doy + 2) / 153) in *.
  assert (n + 719468 = 146097 * era + doe) as Hn by (apply Z.div_mod; lia).
  unfold valid_date, days_from_civil. clearbody mp. clear Hdoy'.
  assert (mp <= 9 \/ mp = 10 \/ mp = 11) as [Hm|Hm] by lia.
  - destruct (Z.ltb_spec mp 10); [|lia]. destruct (Z.leb_spec (mp + 3) 2); [lia|].
    replace (mp + 3 - 3) with mp by lia. rewrite Z.add_0_r, year_start_era. split; [|lia].
    split; [lia|]. split; [lia|]. unfold days_in_month.
    assert (mp = 0 \/ mp = 1 \/ mp = 2 \/ mp = 3 \/ mp = 4 \/ mp = 5 \/ mp = 6 \/ mp = 7 \/ mp = 8 \/ mp = 9)
      as Hc by lia.
    unfold month_start in *. destruct_or! Hc; subst mp; eval_eqb; div_lia.
  - destruct (Z.ltb_spec mp 10); [lia|]. destruct (Z.leb_spec (mp + -9) 2); [|lia].
    replace (y + era * 400 + 1 - 1) with (y + era * 400) by lia.
    replace (mp + -9 + 9) with mp by lia. rewrite year_start_era. split; [|lia].
    split; [lia|]. split; [lia|]. replace (y + era * 400 + 1) with (y + 1 + era * 400) by lia.
    unfold days_in_month. rewrite is_leap_era.
    destruct Hm as [Hm|Hm]; subst mp; eval_eqb;
      unfold month_start in *; [|destruct (is_leap _)]; div_lia.
Qed.

Lemma year_start_mono y z : y <= z -> year_start y <= year_start z.
Proof. intros. unfold year_start. div_lia. Qed.

(** A valid date lies inside its month and its year, both counted from March. *)
Lemma date_inside y m d (y' := if m <=? 2 then y - 1 else y) (mp := if m <=? 2 then m + 9 else m - 3) :
  valid_date (y, m, d) ->
  0 <= mp <= 11 /\ 0 <= d - 1 /\ month_start mp + d - 1 < month_start (mp + 1)
  /\ month_start mp + d - 1 < year_start (y' + 1) - year_start y'.
Proof.
  intros [Hm Hd]. rewrite year_start_succ. subst y' mp. unfold days_in_month in Hd.
  assert (m = 1 \/ m = 2 \/ m = 3 \/ m = 4 \/ m = 5 \/ m = 6 \/ m = 7 \/ m = 8 \/ m = 9 \/ m = 10
    \/ m = 11 \/ m = 12) as Hcases by lia.
  unfold month_start. destruct (Z.leb_spec m 2) as [H2|H2].
  - replace (y - 1 + 1) with y by lia.
    destruct_or! Hcases; try lia; subst m; revert Hd; eval_eqb; destruct (is_leap y); intros Hd; div_lia.
  - destruct_or! Hcases; try lia; subst m; revert Hd; eval_eqb; destruct (is_leap (y + 1)); intros Hd; div_lia.
Qed.

Lemma days_from_civil_inj date date' : valid_date date -> valid_date date' ->
  days_from_civil date = days_from_civil date' -> date = date'.
Proof.
  destruct date as [[y m] d], date' as [[z n] e]. intros Hd He Heq.
  destruct (date_inside _ _ _ Hd) as (D1 & D2 & D3 & D4), (date_inside _ _ _ He) as (E1 & E2 & E3 & E4).
  unfold days_from_civil in Heq.
  set (y' := if m <=? 2 then y - 1 else y) in *. set (z' := if n <=? 2 then z - 1 else z) in *.
  set (p := if m <=? 2 then m + 9 else m - 3) in *. set (q := if n <=? 2 then n + 9 else n - 3) in *.
  assert (forall i, 0 <= i -> 0 <= month_start i) as Hpos by (intros; unfold month_start; div_lia).
  pose proof (Hpos p). pose proof (Hpos q).
  assert (y' = z') as Hy.
  { destruct (Z.lt_trichotomy y' z') as [Hlt|[?|Hlt]]; [|done|];
      [pose proof (year_start_mono (y' + 1) z')|pose proof (year_start_mono (z' + 1) y')]; lia. }
  assert (p = q) as Hp.
  { rewrite Hy in Heq. unfold month_start in *.
    destruct (Z.lt_trichotomy p q) as [Hlt|[?|Hlt]]; [|done|]; div_lia. }
  assert (d = e) as <- by (rewrite Hy, Hp in Heq; lia).
  destruct Hd as [Hm _], He as [Hn _]. revert Hy Hp. subst y' z' p q.
  destruct (Z.leb_spec m 2), (Z.leb_spec n 2); intros Hy Hp; first [lia|f_equal; f_equal; lia].
Qed.

Lemma civil_days date : valid_date date -> civil_from_days (days_from_civil date) = date.
Proof. intros Hv. destruct (civil_from_days_spec (days_from_civil date)). by apply days_from_civil_inj. Qed.

Lemma next_day_valid date : valid_date date -> valid_date (next_day date).
Proof.
  destruct date as [[y m] d]. intros [Hm Hd]. unfold next_day.
  assert (forall z i, 1 <= days_in_month z i) by (intros; unfold days_in_month; repeat case_match; lia).
  destruct (Z.ltb_spec d (days_in_month y m)); [|destruct (Z.ltb_spec m 12)]; unfold valid_date; auto with lia.
Qed.

(** [civil_from_days] is the proleptic Gregorian calendar: day 0 is 1970-01-01, every day is a valid
    date, and the date of the following day is the calendar's next day, with the usual month lengths
    and leap years, forwards and backwards without bound. *)
Theorem civil_from_days_calendar :
  civil_from_days 0 = (1970, 1, 1)
  /\ forall n, valid_date (civil_from_days n) /\ civil_from_days (n + 1) = next_day (civil_from_days n).
Proof.
  split; [by vm_compute|]. intros n. destruct (civil_from_days_spec n) as [Hv Hd]. split; [done|].
  apply next_day_valid in Hv as Hv'. rewrite <- (civil_days _ Hv'), days_next_day, Hd by done. done.
Qed.

(** ** Recurring dates *)

Definition jan1 (y : Z) : Z := days_from_civil (y, 1, 1).

Lemma jan1_eq y : jan1 y = year_start (y - 1) + 307 - 719469.
Proof.
  unfold jan1, days_from_civil. change (1 <=? 2) with true.
  change (month_start (if true then 1 + 9 else 1 - 3)) with 306. cbn beta iota. lia.
Qed.

(** A date lies between the first of January of its year and of the next. *)
Lemma date_in_year y m d : valid_date (y, m, d) -> jan1 y <= days_from_civil (y, m, d) < jan1 (y + 1).
Proof.
  intros Hv. destruct (date_inside _ _ _ Hv) as (D1 & D2 & D3 & D4). destruct Hv as [Hm Hd].
  rewrite !jan1_eq. unfold days_from_civil. pose proof (year_start_succ (y - 1)).
  replace (y + 1 - 1) with y by lia. replace (y - 1 + 1) with y in * by lia. unfold month_start in *.
  destruct (Z.leb_spec m 2); [replace (y - 1 + 1) with y in * by lia|]; destruct (is_leap y); div_lia.
Qed.

Lemma civil_in_year n y m d : civil_from_days n = (y, m, d) -> jan1 y <= n < jan1 (y + 1).
Proof.
  intros E. destruct (civil_from_days_spec n) as [Hv Hn]. rewrite E in *. rewrite <- Hn.
  by apply date_in_year.
Qed.

Lemma jan1_year y : 365 <= jan1 (y + 1) - jan1 y <= 366.
Proof.
  rewrite !jan1_eq. pose proof (year_start_succ (y - 1)). replace (y + 1 - 1) with (y - 1 + 1) by lia.
  destruct (is_leap _); lia.
Qed.

Lemma jan1_mono y z : y <= z -> jan1 y <= jan1 z.
Proof. intros. rewrite !jan1_eq. pose proof (year_start_mono (y - 1) (z - 1)). lia. Qed.

Lemma jan1_eight y : jan1 (y + 8) - jan1 y <= 2922.
Proof. rewrite !jan1_eq. unfold year_start. div_lia. Qed.

(** Leap years are at most eight years apart, and four apart except around a secular year. *)
Lemma next_leap y : exists l, y < l <= y + 8 /\ is_leap l = true /\ (l = y + 8 -> is_leap y = true).
Proof.
  assert (forall l, l mod 4 = 0 -> l mod 100 <> 0 \/ l mod 400 = 0 -> is_leap l = true) as Hleap.
  { intros l H4 H1. unfold is_leap. rewrite H4. destruct (Z.eqb_spec (l mod 100) 0); [|done].
    destruct H1 as [? | ->]; [lia|done]. }
  pose proof (Z.mod_pos_bound y 4). set (l := y + 4 - y mod 4).
  assert (l mod 4 = 0) as Hl by (subst l; div_lia).
  destruct (decide (l mod 100 <> 0 \/ l mod 400 = 0)) as [H1|H1].
  - exists l. split; [lia|]. split; [by apply Hleap|lia].
  - assert (l mod 100 = 0) as Hc by lia. exists (l + 4).
    split; [lia|]. split; [apply Hleap; [|left]; div_lia|].
    intros He. assert (y = l - 4) by lia. clearbody l. subst y. apply Hleap; [|left]; div_lia.
Qed.

(** Every month and day that occurs in some year occurs again within eight years of any day. *)
Lemma date_recurs y m d c : valid_date (y, m, d) ->
  exists n z, c < n <= c + 2922 /\ civil_from_days n = (z, m, d).
Proof.
  intros [Hm Hd]. destruct (civil_from_days c) as [[cy cm] cd] eqn:Ec.
  pose proof (civil_in_year _ _ _ _ Ec) as Hc. pose proof (jan1_year cy). pose proof (jan1_year (cy + 1)).
  assert (forall z, valid_date (z, m, d) -> c < days_from_civil (z, m, d) <= c + 2922 ->
    exists n z, c < n <= c + 2922 /\ civil_from_days n = (z, m, d)) as Hfound.
  { intros z Hv Hin. exists (days_from_civil (z, m, d)), z. by rewrite civil_days. }
  destruct (decide (m = 2 /\ d = 29)) as [[-> ->]|Hn].
  - assert (forall z, is_leap z = true -> valid_date (z, 2, 29)) as Hleap
      by (intros z Hz; unfold valid_date, days_in_month; cbn; rewrite Hz; lia).
    destruct (next_leap cy) as (l & Hl & Hll & H8). pose proof (date_in_year l 2 29 (Hleap l Hll)) as Hin.
    destruct (decide (l = cy + 8)) as [->|Hne].
    + specialize (H8 eq_refl). pose proof (date_in_year cy 2 29 (Hleap cy H8)).
      assert (days_from_civil (cy + 8, 2, 29) - days_from_civil (cy, 2, 29) <= 2922) as H8d.
      { pose proof (jan1_eight cy). rewrite !jan1_eq in *. unfold days_from_civil.
        change (2 <=? 2) with true. cbn beta iota. lia. }
      destruct (Z.lt_ge_cases c (days_from_civil (cy, 2, 29))).
      * apply (Hfound cy); [by apply Hleap|lia].
      * pose proof (jan1_mono (cy + 1) (cy + 8)). apply (Hfound (cy + 8)); [by apply Hleap|lia].
    + apply (Hfound l); [by apply Hleap|]. pose proof (jan1_eight cy).
      pose proof (jan1_mono (cy + 1) l). pose proof (jan1_mono (l + 1) (cy + 8)). lia.
  - assert (valid_date (cy + 1, m, d)) as Hv.
    { unfold valid_date, days_in_month in *. split; [lia|]. destruct (m =? 2) eqn:E2; [|done].
      destruct (is_leap y), (is_leap (cy + 1)); lia. }
    pose proof (date_in_year _ _ _ Hv). apply (Hfound (cy + 1)); [done|]. lia.
Qed.

Definition weekday (n : Z) : Z := (n + 4) mod 7.

(** Every month has every weekday. *)
Lemma weekday_recurs m w c : 1 <= m <= 12 -> 0 <= w < 7 ->
  exists n z d, c < n <= c + 2922 /\ civil_from_days n = (z, m, d) /\ weekday n = w.
Proof.
  intros Hm Hw. destruct (civil_from_days c) as [[cy cm] cd] eqn:Ec.
  pose proof (civil_in_year _ _ _ _ Ec) as Hc. pose proof (jan1_year cy). pose proof (jan1_year (cy + 1)).
  set (f := days_from_civil (cy + 1, m, 1)). set (k := (w - (f + 4)) mod 7).
  assert (0 <= k < 7) as Hk by (apply Z.mod_pos_bound; lia).
  assert (valid_date (cy + 1, m, k + 1)) as Hv
    by (unfold valid_date, days_in_month; repeat case_match; lia).
  pose proof (date_in_year _ _ _ Hv) as Hin.
  assert (days_from_civil (cy + 1, m, k + 1) = f + k) as Hf by (subst f; unfold days_from_civil; lia).
  exists (f + k), (cy + 1), (k + 1). split; [lia|]. split; [by rewrite <- Hf, civil_days|].
  unfold weekday, k. rewrite <- Z.add_assoc, (Z.add_comm _ 4), Z.add_assoc, Z.add_mod_idemp_r by lia.
  replace (f + 4 + (w - (f + 4))) with w by lia. by apply Z.mod_small.
Qed.

(** ** Matching days *)

(** The part of [matches_minute] that depends on the day alone. *)
Definition matches_day (self : CronSchedule) (n : Z) : bool :=
  let '(_, m, d) := civil_from_days n in
  contains (month self) m
  && match is_wildcard (day_of_month self), is_wildcard (day_of_week self) with
     | true, true => true
     | true, false => contains (day_of_week self) (weekday n)
     | false, true => contains (day_of_month self) d
     | false, false => contains (day_of_month self) d || contains (day_of_week self) (weekday n)
     end.

Lemma matches_minute_eq s u : matches_minute s u =
  contains (minute s) (u mod 1440 mod 60) && contains (hour s) (u mod 1440 / 60) && matches_day s (u / 1440).
Proof.
  unfold matches_minute, matches_day, MINUTES_PER_DAY. pose proof (Z.mod_pos_bound u 1440).
  rewrite quot_div, Z.rem_mod_nonneg by lia. pose proof (Z.mod_pos_bound (u mod 1440) 60).
  assert (0 <= u mod 1440 / 60 < 24) by (split; [apply Z.div_pos|apply Z.div_lt_upper_bound]; lia).
  pose proof (Z.mod_pos_bound (u / 1440 + 4) 7). rewrite !u8_or_small by lia.
  destruct (civil_from_days (u / 1440)) as [[y m] d]. by rewrite <- !andb_assoc.
Qed.

Lemma matches_day_recurs s n c : matches_day s n = true ->
  exists n', c < n' <= c + 2922 /\ matches_day s n' = true.
Proof.
  intros Hs. destruct (civil_from_days n) as [[y m] d] eqn:En.
  destruct (civil_from_days_spec n) as [Hv _]. rewrite En in Hv.
  assert (0 <= weekday n < 7) as Hw by (apply Z.mod_pos_bound; lia).
  destruct (date_recurs y m d c Hv) as (n1 & z1 & H1 & E1).
  destruct (weekday_recurs m (weekday n) c) as (n2 & z2 & d2 & H2 & E2 & W2); [by destruct Hv|done|].
  unfold matches_day in Hs. rewrite En in Hs. apply andb_true_iff in Hs as [Hm Hs].
  assert (matches_day s n1 = true \/ matches_day s n2 = true) as [?|?]; [|by exists n1|by exists n2].
  unfold matches_day. rewrite E1, E2, Hm, W2.
  destruct (is_wildcard (day_of_month s)), (is_wildcard (day_of_week s)); [by left|by right|by left|].
  apply orb_true_iff in Hs as [->|Hs]; [by left|]. rewrite Hs, orb_true_r. by right.
Qed.

(** A schedule that matches any minute matches one within the search bound of any minute. *)
Lemma matches_minute_recurs s u c : matches_minute s u = true ->
  exists u', c < u' <= c + MAX_SEARCH_MINUTES /\ matches_minute s u' = true.
Proof.
  rewrite matches_minute_eq. intros [Ht Hd]%andb_true_iff.
  destruct (matches_day_recurs s _ (c / 1440) Hd) as (n & Hn & Hd').
  pose proof (Z.mod_pos_bound u 1440). exists (n * 1440 + u mod 1440). split.
  - unfold MAX_SEARCH_MINUTES. pose proof (Z.div_mod c 1440). pose proof (Z.mod_pos_bound c 1440). lia.
  - rewrite matches_minute_eq, (Z.add_comm (n * 1440)), Z.mod_add, Z.div_add by lia.
    rewrite (Z.mod_small (u mod 1440) 1440), (Z.div_small (u mod 1440) 1440) by lia.
    by rewrite Ht, Z.add_0_l.
Qed.

(** ** The search *)

Lemma minute_i64 k : is_i64 (k * MICROS_PER_MINUTE) = true -> is_i64 k = true.
Proof. rewrite !is_i64_spec. unfold MICROS_PER_MINUTE, i64_min, i64_max. lia. Qed.

Lemma search_minutes_Ok s c fuel offset r : search_minutes s c fuel offset = Ok r ->
  is_i64 r = true /\ exists m, r = m * MICROS_PER_MINUTE /\ c + offset <= m
    /\ matches_minute s m = true /\ forall m', c + offset <= m' < m -> matches_minute s m' = false.
Proof.
  revert offset; induction fuel as [|fuel IH]; intros offset; cbn [search_minutes]; [done|].
  intros (k & Hk%ok_or_Ok & H)%rbind_Ok. unfold checked_i64 in Hk. destruct (is_i64 (c + offset)); [|done]. injection Hk as <-.
  destruct (matches_minute s (c + offset)) eqn:Em.
  - apply ok_or_Ok in H. unfold checked_i64 in H. destruct (is_i64 _) eqn:Hi in H; [|done]. injection H as <-.
    split; [done|]. exists (c + offset). split_and!; [done|lia|done|lia].
  - apply IH in H as (Hi & m & -> & Hm & Hmatch & Hno). split; [done|]. exists m. split_and!; [done|lia|done|].
    intros m' Hm'. destruct (decide (m' = c + offset)) as [->|]; [done|]. apply Hno. lia.
Qed.

(** A result of [next_after] is the first occurrence after the timestamp. *)
Lemma next_after_Ok s t r : next_after s t = Ok r ->
  is_i64 r = true /\ t < r /\ (exists m, r = m * MICROS_PER_MINUTE /\ matches_minute s m = true)
  /\ forall m', t < m' * MICROS_PER_MINUTE < r -> matches_minute s m' = false.
Proof.
  intros (Hi & m & -> & Hm & Hmatch & Hno)%search_minutes_Ok. pose proof (Z.div_mod t MICROS_PER_MINUTE) as Hd.
  pose proof (Z.mod_pos_bound t MICROS_PER_MINUTE) as Hb. unfold MICROS_PER_MINUTE in *.
  split_and!; [done|lia|by exists m|]. intros m' Hm'. apply Hno. lia.
Qed.

Lemma search_minutes_spec s c fuel offset :
  (forall k, c + offset <= k < c + offset + Z.of_nat fuel -> is_i64 (k * MICROS_PER_MINUTE) = true) ->
  match search_minutes s c fuel offset with
  | Ok r => exists m, r = m * MICROS_PER_MINUTE /\ c + offset <= m
      /\ matches_minute s m = true /\ forall m', c + offset <= m' < m -> matches_minute s m' = false
  | Err e => e = RE_LimitExceeded
      /\ forall m', c + offset <= m' < c + offset + Z.of_nat fuel -> matches_minute s m' = false
  end.
Proof.
  revert offset; induction fuel as [|fuel IH]; intros offset Hr; cbn [search_minutes]; [split; [done|lia]|].
  assert (is_i64 ((c + offset) * MICROS_PER_MINUTE) = true) as Hm by (apply Hr; lia).
  unfold checked_i64. rewrite (minute_i64 _ Hm). cbn [ok_or rbind].
  destruct (matches_minute s (c + offset)) eqn:Em.
  - rewrite Hm. cbn [ok_or]. exists (c + offset). split_and!; [done|lia|done|lia].
  - assert (forall m' hi, (c + (offset + 1) <= m' < hi -> matches_minute s m' = false) ->
      c + offset <= m' < hi -> matches_minute s m' = false) as Hstep.
    { intros m' hi H Hin. destruct (decide (m' = c + offset)) as [->|]; [done|]. apply H. lia. }
    specialize (IH (offset + 1)). destruct (search_minutes s c fuel (offset + 1)) as [r|e].
    + destruct IH as (m & -> & Hlo & Hmatch & Hmin); [intros; apply Hr; lia|].
      exists m. split_and!; [done|lia|done|]. intros m'. apply Hstep, Hmin.
    + destruct IH as [-> Hno]; [intros; apply Hr; lia|]. split; [done|].
      intros m'. apply Hstep. intros. apply Hno. lia.
Qed.

(** C37: [next_after] is the next occurrence of a schedule.  A result is a whole minute strictly after the
    timestamp that the schedule matches, with no matching minute in between; and the bounded search gives
    up only on a schedule that matches no minute of the calendar, so every schedule that has an
    occurrence is found.  Timestamps within eight years of the end of the 64-bit range are excluded. *)
Theorem next_after_spec s t : is_i64 t = true ->
  is_i64 (t + MAX_SEARCH_MINUTES * MICROS_PER_MINUTE) = true ->
  match next_after s t with
  | Ok r => exists m, r = m * MICROS_PER_MINUTE /\ t < r /\ matches_minute s m = true
      /\ forall m', t < m' * MICROS_PER_MINUTE < r -> matches_minute s m' = false
  | Err e => e = RE_LimitExceeded /\ forall m, matches_minute s m = false
  end.
Proof.
  intros Hlo Hhi. unfold next_after. set (c := t / MICROS_PER_MINUTE).
  assert (c * MICROS_PER_MINUTE <= t < (c + 1) * MICROS_PER_MINUTE) as Hc.
  { pose proof (Z.div_mod t MICROS_PER_MINUTE). pose proof (Z.mod_pos_bound t MICROS_PER_MINUTE).
    fold c in H. unfold MICROS_PER_MINUTE in *. lia. }
  pose proof (search_minutes_spec s c (Z.to_nat MAX_SEARCH_MINUTES) 1) as Hsearch.
  rewrite Z2Nat.id in Hsearch by (unfold MAX_SEARCH_MINUTES; lia).
  destruct (search_minutes _ _ _ _) as [r|e]; (lapply Hsearch; clear Hsearch;
    [|intros k Hk; apply is_i64_spec; apply is_i64_spec in Hlo, Hhi; unfold MICROS_PER_MINUTE in *; lia]).
  - intros (m & -> & Hm & Hmatch & Hmin). exists m. unfold MICROS_PER_MINUTE in *.
    split_and!; [done|lia|done|]. intros m' Hm'. apply Hmin. lia.
  - intros [-> Hno]. split; [done|]. intros m. destruct (matches_minute s m) eqn:Em; [|done].
    destruct (matches_minute_recurs s m c Em) as (u & Hu & E). rewrite Hno in E; [done|lia].
Qed.

(** Every five minutes from midnight UTC, and the first of the month or Monday. *)
Definition sample_schedule : CronSchedule :=
  match CronSchedule_from_str (text "*/5 0 1 * 1") with
  | Ok s => s
  | Err _ => mkCronSchedule [] (mkCronField 0 0 0) (mkCronField 0 0 0) (mkCronField 0 0 0) (mkCronField 0 0 0)
      (mkCronField 0 0 0)
  end.

Lemma next_after_spec_witness :
  next_after sample_schedule 1725148740000000 = Ok 1725148800000000
  /\ forall m', 1725148740000000 < m' * MICROS_PER_MINUTE < 1725148800000000 ->
       matches_minute sample_schedule m' = false.
Proof.
  pose proof (next_after_spec sample_schedule 1725148740000000 eq_refl eq_refl) as H.
  assert (next_after sample_schedule 1725148740000000 = Ok 1725148800000000) as E by (vm_compute; reflexivity).
  rewrite E in H. split; [done|]. destruct H as (m & _ & _ & _ & Hmin). exact Hmin.
Defined.
