(* ===== verification/Manifest.v ===== *)
(** * Release manifests

    The immutable description of a Release (runku-releases/src/manifest.rs): its functions with their
    types, policies and capabilities, its Cron definitions and content digests; the structural
    validation; and the canonical binary codec. *)

From Stdlib Require Import Strings.Byte ZArith Lia.
From stdpp Require Import prelude strings list.
From S2P Require Import Prelude BTreeMap Codec Ulid Value StoredValue Core Release Cron.

Definition MANIFEST_FORMAT_VERSION : Z := 1.
Definition MANIFEST_MAX_BYTES : Z := 1024 * 1024.
Definition ARTIFACT_MAX_BYTES : Z := 64 * 1024 * 1024.
Definition MAX_FUNCTIONS : Z := 1000.
Definition MAX_CRON_DEFINITIONS : Z := 128.
Definition MAX_CRON_ARGS_BYTES : Z := 64 * 1024.
Definition MAX_CAPABILITIES : Z := 32.
Definition MAX_RUNTIME_VERSION_BYTES : Z := 32.
Definition MAX_SECRET_NAME_BYTES : Z := 64.
Definition MAGIC : bytes := [x52; x4d; x01].

(** ** Data *)

Inductive ArtifactFormat : Type :=
  | AF_SafeEsmBundleV1 | AF_NodeOciDescriptorV1 | AF_NodeEsmBundleV1 | AF_HybridOciArtifactV1.
Inductive RuntimeClass : Type := RC_SafeV8 | RC_FullNode.
Inductive FunctionType : Type := FT_Query | FT_Mutation | FT_Action.
Inductive FunctionVisibility : Type := FV_Public | FV_Internal.
Inductive AuthPolicy : Type := AP_None | AP_Optional | AP_Guest | AP_User | AP_Service.
Inductive Capability : Type :=
  | CA_DbRead | CA_DbWrite | CA_AuthRead | CA_FunctionQuery | CA_FunctionMutation | CA_FunctionAction
  | CA_NetworkHttps | CA_SchedulerCreate | CA_FileRead | CA_FileWrite
  | CA_Secret (name : bytes) | CA_Variable (name : bytes).

#[export] Instance ArtifactFormat_eq_dec : EqDecision ArtifactFormat.
Proof. solve_decision. Defined.
#[export] Instance RuntimeClass_eq_dec : EqDecision RuntimeClass.
Proof. solve_decision. Defined.
#[export] Instance FunctionType_eq_dec : EqDecision FunctionType.
Proof. solve_decision. Defined.
#[export] Instance FunctionVisibility_eq_dec : EqDecision FunctionVisibility.
Proof. solve_decision. Defined.
#[export] Instance AuthPolicy_eq_dec : EqDecision AuthPolicy.
Proof. solve_decision. Defined.
#[export] Instance Capability_eq_dec : EqDecision Capability.
Proof. solve_decision. Defined.

Record RuntimeVersion : Type := mkRuntimeVersion { runtime_str : bytes }.
#[export] Instance RuntimeVersion_eq_dec : EqDecision RuntimeVersion.
Proof. solve_decision. Defined.

Definition version_suffix (value : bytes) : option bytes :=
  match strip_prefix (text "platform-js-") value with Some s => Some s | None =>
  match strip_prefix (text "runku-js-") value with Some s => Some s | None =>
  match strip_prefix (text "runku-node-") value with Some s => Some s | None =>
  strip_prefix (text "runku-hybrid-") value end end end.

Definition RuntimeVersion_from_str (value : bytes) : result ReleaseError RuntimeVersion :=
  if bool_decide (value ∈ [text "runku-js"; text "runku-node"; text "runku-hybrid"])
  then Ok (mkRuntimeVersion value)
  else
    let? suffix := ok_or RE_InvalidManifest (version_suffix value) in
    if (MAX_RUNTIME_VERSION_BYTES <? len value) || bool_decide (suffix = []) || (5 <? len suffix)
       || bool_decide (head suffix = Some x30) || negb (forallb is_ascii_digit suffix)
    then Err RE_InvalidManifest
    else Ok (mkRuntimeVersion value).

Record ArtifactDescriptor : Type := mkArtifactDescriptor {
  format : ArtifactFormat;
  artifact_digest : Sha256Digest;
  size_bytes : Z }.

Record FunctionManifest : Type := mkFunctionManifest {
  fn_id : FunctionId;
  fn_name : FunctionName;
  function_type : FunctionType;
  visibility : FunctionVisibility;
  auth_policy : AuthPolicy;
  runtime_class : RuntimeClass;
  implementation_hash : Sha256Digest;
  arguments_contract_hash : Sha256Digest;
  result_contract_hash : Sha256Digest;
  capabilities : list Capability }.

Record CronDefinition : Type := mkCronDefinition {
  cron_name : CronName;
  cron_schedule : CronSchedule;
  cron_function : FunctionName;
  cron_args : CanonicalValue }.

#[export] Instance CronDefinition_eq_dec : EqDecision CronDefinition.
Proof. solve_decision. Defined.

Record ReleaseManifestV1 : Type := mkReleaseManifestV1 {
  release_id : ReleaseId;
  project_id : ProjectId;
  build_id : BuildId;
  created_at : Z;
  runtime_version : RuntimeVersion;
  artifact : ArtifactDescriptor;
  function_contract_hash : Sha256Digest;
  schema_contract_hash : Sha256Digest;
  index_contract_hash : Sha256Digest;
  functions : list FunctionManifest;
  cron_definitions : list CronDefinition }.

(** ** Validation *)

(** The derived order of capabilities: by variant, then by name. *)
Definition capability_index (c : Capability) : Z :=
  match c with
  | CA_DbRead => 0 | CA_DbWrite => 1 | CA_AuthRead => 2 | CA_FunctionQuery => 3 | CA_FunctionMutation => 4
  | CA_FunctionAction => 5 | CA_NetworkHttps => 6 | CA_SchedulerCreate => 7 | CA_FileRead => 8
  | CA_FileWrite => 9 | CA_Secret _ => 10 | CA_Variable _ => 11
  end.
Definition capability_cmp (c d : Capability) : comparison :=
  match c, d with
  | CA_Secret m, CA_Secret n | CA_Variable m, CA_Variable n => bytes_cmp m n
  | _, _ => capability_index c ?= capability_index d
  end.

Definition capability_allowed (function_type : FunctionType) (capability : Capability) : bool :=
  match function_type with
  | FT_Query =>
      match capability with CA_DbRead | CA_AuthRead | CA_FunctionQuery | CA_Variable _ => true | _ => false end
  | FT_Mutation =>
      match capability with
      | CA_DbRead | CA_DbWrite | CA_AuthRead | CA_FunctionQuery | CA_FunctionMutation | CA_SchedulerCreate
      | CA_Variable _ => true
      | _ => false
      end
  | FT_Action =>
      match capability with
      | CA_AuthRead | CA_FunctionQuery | CA_FunctionMutation | CA_FunctionAction | CA_NetworkHttps
      | CA_SchedulerCreate | CA_FileRead | CA_FileWrite | CA_Secret _ | CA_Variable _ => true
      | _ => false
      end
  end.

Definition secret_char (b : byte) : bool :=
  is_ascii_alphanumeric b || bool_decide (b ∈ [x5f; x2d; x2e]).
Definition valid_capability (capability : Capability) : bool :=
  match capability with
  | CA_Secret name | CA_Variable name =>
      bool_decide (name <> []) && (len name <=? MAX_SECRET_NAME_BYTES) && forallb secret_char name
  | _ => true
  end.

Definition valid_configuration_name (name : bytes) : bool :=
  match name with
  | [] => false
  | first :: rest =>
      is_ascii_uppercase first
      && forallb (fun b => is_ascii_uppercase b || is_ascii_digit b || bool_decide (b = x5f)) rest
  end.

(** The loop over all capabilities, with [variable_requested] as its state. *)
Definition check_configuration (configuration_runtime : bool) (variable_requested : bool)
  (capability : Capability) : result ReleaseError bool :=
  match capability with
  | CA_Variable name =>
      if configuration_runtime && negb (valid_configuration_name name) then Err RE_InvalidManifest else Ok true
  | CA_Secret name =>
      if configuration_runtime && negb (valid_configuration_name name) then Err RE_InvalidManifest
      else Ok variable_requested
  | _ => Ok variable_requested
  end.

Definition validate_configuration_runtime (manifest : ReleaseManifestV1) : result ReleaseError unit :=
  let configuration_runtime := bool_decide (runtime_str (runtime_version manifest)
    ∈ [text "runku-js"; text "runku-node"; text "runku-hybrid"]) in
  let? variable_requested :=
    try_fold (check_configuration configuration_runtime) false (flat_map capabilities (functions manifest)) in
  if variable_requested && negb configuration_runtime then Err RE_InvalidManifest else Ok tt.

(** [previous.is_some_and(|previous| previous >= value)]. *)
Definition not_increasing {A} (cmp : A -> A -> comparison) (previous : option A) (value : A) : bool :=
  match previous with
  | Some previous => match cmp previous value with Lt => false | _ => true end
  | None => false
  end.

Definition check_capability (ft : FunctionType) (previous : option Capability) (capability : Capability)
  : result ReleaseError (option Capability) :=
  if not_increasing capability_cmp previous capability || negb (capability_allowed ft capability)
     || negb (valid_capability capability)
  then Err RE_InvalidManifest
  else Ok (Some capability).

Definition name_cmp (m n : FunctionName) : comparison := bytes_cmp (function_str m) (function_str n).
Definition cron_name_cmp (m n : CronName) : comparison := bytes_cmp (cron_name_str m) (cron_name_str n).

Definition check_function (st : list FunctionId * option FunctionName) (function : FunctionManifest)
  : result ReleaseError (list FunctionId * option FunctionName) :=
  let '(ids, previous_name) := st in
  match set_insert (fn_id function) ids with
  | None => Err RE_InvalidManifest
  | Some ids =>
      if not_increasing name_cmp previous_name (fn_name function)
         || (MAX_CAPABILITIES <? len (capabilities function))
      then Err RE_InvalidManifest
      else
        let? _ := try_fold (check_capability (function_type function)) None (capabilities function) in
        Ok (ids, Some (fn_name function))
  end.

Definition storage_runtimes : list bytes :=
  map text ["runku-js-2"; "runku-node-2"; "runku-hybrid-2"; "runku-js-3"; "runku-node-3"; "runku-hybrid-3";
    "runku-js"; "runku-node"; "runku-hybrid"]%string.

Definition is_storage_capability (c : Capability) : bool :=
  match c with CA_FileRead | CA_FileWrite => true | _ => false end.

Section manifest.
Context {UL : UlidLib}.

Definition check_cron (functions : list FunctionManifest) (previous_cron : option CronName)
  (cron : CronDefinition) : result ReleaseError (option CronName) :=
  let? target := ok_or RE_InvalidManifest
    (List.find (fun f => bool_decide (fn_name f = cron_function cron)) functions) in
  let? args := map_err (fun _ => RE_InvalidManifest) (encode_stored_value (cron_args cron)) in
  if not_increasing cron_name_cmp previous_cron (cron_name cron)
     || bool_decide (visibility target <> FV_Internal)
     || negb (bool_decide (function_type target ∈ [FT_Mutation; FT_Action]))
     || (MAX_CRON_ARGS_BYTES <? len args)
  then Err RE_InvalidManifest
  else Ok (Some (cron_name cron)).

Definition validate (self : ReleaseManifestV1) : result ReleaseError unit :=
  if (size_bytes (artifact self) =? 0) || (ARTIFACT_MAX_BYTES <? size_bytes (artifact self))
     || bool_decide (functions self = []) || (MAX_FUNCTIONS <? len (functions self))
     || (MAX_CRON_DEFINITIONS <? len (cron_definitions self))
  then Err RE_LimitExceeded
  else
    let? _ := try_fold check_function ([], None) (functions self) in
    let storage_requested := existsb (fun f => existsb is_storage_capability (capabilities f)) (functions self) in
    if storage_requested && negb (bool_decide (runtime_str (runtime_version self) ∈ storage_runtimes))
    then Err RE_InvalidManifest
    else
      let? _ := validate_configuration_runtime self in
      let? _ := try_fold (check_cron (functions self)) None (cron_definitions self) in
      Ok tt.

Definition mvp_runtimes : list bytes :=
  map text ["platform-js-1"; "runku-js-1"; "runku-js-2"; "runku-js-3"; "runku-js"]%string.
Definition node_runtimes : list bytes :=
  map text ["runku-node-1"; "runku-node-2"; "runku-node-3"; "runku-node"]%string.
Definition hybrid_runtimes : list bytes :=
  map text ["runku-hybrid-1"; "runku-hybrid-2"; "runku-hybrid-3"; "runku-hybrid"]%string.

Definition has_class (c : RuntimeClass) (f : FunctionManifest) : bool := bool_decide (runtime_class f = c).
Definition node_without_action (f : FunctionManifest) : bool :=
  has_class RC_FullNode f && bool_decide (function_type f <> FT_Action).

Definition ensure_mvp_runtime_supported (self : ReleaseManifestV1) : result ReleaseError unit :=
  let? _ := validate self in
  if negb (bool_decide (runtime_str (runtime_version self) ∈ mvp_runtimes))
     || existsb (has_class RC_FullNode) (functions self)
  then Err RE_Unsupported
  else Ok tt.

Definition ensure_full_node_supported (self : ReleaseManifestV1) : result ReleaseError unit :=
  let? _ := validate self in
  let version := runtime_str (runtime_version self) in
  let supported :=
    if bool_decide (version ∈ node_runtimes) && bool_decide (format (artifact self) = AF_NodeOciDescriptorV1)
    then forallb (has_class RC_FullNode) (functions self)
    else if bool_decide (version ∈ hybrid_runtimes)
            && bool_decide (format (artifact self) = AF_HybridOciArtifactV1)
    then existsb (has_class RC_SafeV8) (functions self) && existsb (has_class RC_FullNode) (functions self)
    else false in
  if negb supported || existsb node_without_action (functions self) then Err RE_Unsupported else Ok tt.

Definition ensure_local_full_node_supported (self : ReleaseManifestV1) : result ReleaseError unit :=
  let? _ := validate self in
  let version := runtime_str (runtime_version self) in
  let version_supported :=
    if bool_decide (version ∈ node_runtimes) then forallb (has_class RC_FullNode) (functions self)
    else if bool_decide (version ∈ hybrid_runtimes)
    then existsb (has_class RC_SafeV8) (functions self) && existsb (has_class RC_FullNode) (functions self)
    else false in
  if negb version_supported || bool_decide (format (artifact self) <> AF_NodeEsmBundleV1)
     || existsb node_without_action (functions self)
  then Err RE_Unsupported else Ok tt.

(** ** Encoding *)

Definition push_u16 (value : Z) : result ReleaseError bytes :=
  let? value := ok_or RE_LimitExceeded (try_from_u u16_max value) in Ok (to_be 2 value).
Definition push_u32 (value : Z) : result ReleaseError bytes :=
  let? value := ok_or RE_LimitExceeded (try_from_u u32_max value) in Ok (to_be 4 value).
Definition push_text (value : bytes) : result ReleaseError bytes :=
  let? n := push_u16 (len value) in Ok (n ++ value).

Definition artifact_format_tag (value : ArtifactFormat) : Z :=
  match value with
  | AF_SafeEsmBundleV1 => 1 | AF_NodeOciDescriptorV1 => 2 | AF_NodeEsmBundleV1 => 3
  | AF_HybridOciArtifactV1 => 4
  end.
Definition function_type_tag (value : FunctionType) : Z :=
  match value with FT_Query => 1 | FT_Mutation => 2 | FT_Action => 3 end.
Definition visibility_tag (value : FunctionVisibility) : Z :=
  match value with FV_Public => 1 | FV_Internal => 2 end.
Definition auth_policy_tag (value : AuthPolicy) : Z :=
  match value with AP_None => 1 | AP_Optional => 2 | AP_Guest => 3 | AP_User => 4 | AP_Service => 5 end.
Definition runtime_class_tag (value : RuntimeClass) : Z :=
  match value with RC_SafeV8 => 1 | RC_FullNode => 2 end.
Definition capability_tag (value : Capability) : Z :=
  match value with
  | CA_DbRead => 1 | CA_DbWrite => 2 | CA_AuthRead => 3 | CA_FunctionQuery => 4 | CA_FunctionMutation => 5
  | CA_FunctionAction => 6 | CA_NetworkHttps => 7 | CA_SchedulerCreate => 8 | CA_FileRead => 10
  | CA_FileWrite => 11 | CA_Secret _ => 9 | CA_Variable _ => 12
  end.

Definition encode_capability (capability : Capability) : result ReleaseError bytes :=
  let tag := to_be 1 (capability_tag capability) in
  match capability with
  | CA_Secret name | CA_Variable name => let? name := push_text name in Ok (tag ++ name)
  | _ => Ok tag
  end.

Definition encode_function (function : FunctionManifest) : result ReleaseError bytes :=
  let? id := push_text (id_to_string (fn_id function)) in
  let? name := push_text (function_str (fn_name function)) in
  let tags := to_be 1 (function_type_tag (function_type function))
    ++ to_be 1 (visibility_tag (visibility function))
    ++ to_be 1 (auth_policy_tag (auth_policy function))
    ++ to_be 1 (runtime_class_tag (runtime_class function)) in
  let digests := implementation_hash function ++ arguments_contract_hash function
    ++ result_contract_hash function in
  let? count := push_u16 (len (capabilities function)) in
  let? capabilities := try_map encode_capability (capabilities function) in
  Ok (id ++ name ++ tags ++ digests ++ count ++ concat capabilities).

Definition encode_cron (cron : CronDefinition) : result ReleaseError bytes :=
  let? name := push_text (cron_name_str (cron_name cron)) in
  let? schedule := push_text (canonical (cron_schedule cron)) in
  let? function := push_text (function_str (cron_function cron)) in
  let? args := map_err (fun _ => RE_InvalidManifest) (encode_stored_value (cron_args cron)) in
  let? length := push_u32 (len args) in
  Ok (name ++ schedule ++ function ++ length ++ args).

Definition encode_release_manifest (manifest : ReleaseManifestV1) : result ReleaseError bytes :=
  let? _ := validate manifest in
  let? release := push_text (id_to_string (release_id manifest)) in
  let? project := push_text (id_to_string (project_id manifest)) in
  let? build := push_text (id_to_string (build_id manifest)) in
  let? version := push_text (runtime_str (runtime_version manifest)) in
  let? function_count := push_u16 (len (functions manifest)) in
  let? function_bytes := try_map encode_function (functions manifest) in
  let? cron_count := push_u16 (len (cron_definitions manifest)) in
  let? cron_bytes := try_map encode_cron (cron_definitions manifest) in
  let output := MAGIC ++ release ++ project ++ build ++ to_be 8 (cast_unsigned (created_at manifest)) ++ version
    ++ to_be 1 (artifact_format_tag (format (artifact manifest))) ++ artifact_digest (artifact manifest)
    ++ to_be 8 (size_bytes (artifact manifest))
    ++ function_contract_hash manifest ++ schema_contract_hash manifest ++ index_contract_hash manifest
    ++ function_count ++ concat function_bytes ++ cron_count ++ concat cron_bytes in
  if MANIFEST_MAX_BYTES <? len output then Err RE_LimitExceeded else Ok output.

(** [ReleaseManifestV1::digest], for the hash function [sha256]. *)
Definition manifest_digest (sha256 : bytes -> bytes) (manifest : ReleaseManifestV1)
  : result ReleaseError Sha256Digest :=
  let? encoded := encode_release_manifest manifest in Ok (sha256 encoded).

(** ** Decoding *)

Definition cursor_be (n : nat) (c : bytes) : result ReleaseError (Z * bytes) := take_be RE_InvalidManifest n c.
Definition cursor_i64 (c : bytes) : result ReleaseError (Z * bytes) :=
  let? (v, c) := cursor_be 8 c in Ok (cast_signed v, c).
Definition cursor_digest (c : bytes) : result ReleaseError (Sha256Digest * bytes) :=
  take_exact RE_InvalidManifest 32 c.
Definition cursor_text (maximum : Z) (c : bytes) : result ReleaseError (bytes * bytes) :=
  let? (length, c) := cursor_be 2 c in
  if maximum <? length then Err RE_LimitExceeded else
  let? (raw, c) := take_exact RE_InvalidManifest length c in
  let? value := ok_or RE_InvalidManifest (from_utf8 raw) in
  Ok (value, c).

(** [cursor.text(maximum)?.parse()], with the parser's error replaced. *)
Definition cursor_parse {A} (maximum : Z) (parse : bytes -> result ReleaseError A) (c : bytes)
  : result ReleaseError (A * bytes) :=
  let? (value, c) := cursor_text maximum c in
  let? value := parse value in
  Ok (value, c).
Definition invalid_manifest {E A} (r : result E A) : result ReleaseError A :=
  map_err (fun _ => RE_InvalidManifest) r.

Definition decode_artifact_format (tag : Z) : result ReleaseError ArtifactFormat :=
  match tag with
  | 1 => Ok AF_SafeEsmBundleV1 | 2 => Ok AF_NodeOciDescriptorV1 | 3 => Ok AF_NodeEsmBundleV1
  | 4 => Ok AF_HybridOciArtifactV1
  | _ => Err RE_Unsupported
  end.
Definition decode_function_type (tag : Z) : result ReleaseError FunctionType :=
  match tag with 1 => Ok FT_Query | 2 => Ok FT_Mutation | 3 => Ok FT_Action | _ => Err RE_Unsupported end.
Definition decode_visibility (tag : Z) : result ReleaseError FunctionVisibility :=
  match tag with 1 => Ok FV_Public | 2 => Ok FV_Internal | _ => Err RE_Unsupported end.
Definition decode_auth_policy (tag : Z) : result ReleaseError AuthPolicy :=
  match tag with
  | 1 => Ok AP_None | 2 => Ok AP_Optional | 3 => Ok AP_Guest | 4 => Ok AP_User | 5 => Ok AP_Service
  | _ => Err RE_Unsupported
  end.
Definition decode_runtime_class (tag : Z) : result ReleaseError RuntimeClass :=
  match tag with 1 => Ok RC_SafeV8 | 2 => Ok RC_FullNode | _ => Err RE_Unsupported end.
Definition decode_capability (tag : Z) : result ReleaseError Capability :=
  match tag with
  | 1 => Ok CA_DbRead | 2 => Ok CA_DbWrite | 3 => Ok CA_AuthRead | 4 => Ok CA_FunctionQuery
  | 5 => Ok CA_FunctionMutation | 6 => Ok CA_FunctionAction | 7 => Ok CA_NetworkHttps
  | 8 => Ok CA_SchedulerCreate | 10 => Ok CA_FileRead | 11 => Ok CA_FileWrite
  | _ => Err RE_Unsupported
  end.

(** One tag byte and its meaning. *)
Definition cursor_tag {A} (decode : Z -> result ReleaseError A) (c : bytes) : result ReleaseError (A * bytes) :=
  let? (tag, c) := cursor_be 1 c in let? value := decode tag in Ok (value, c).

Definition decode_capability_item (c : bytes) : result ReleaseError (Capability * bytes) :=
  let? (tag, c) := cursor_be 1 c in
  if tag =? 9 then let? (name, c) := cursor_text MAX_SECRET_NAME_BYTES c in Ok (CA_Secret name, c)
  else if tag =? 12 then let? (name, c) := cursor_text MAX_SECRET_NAME_BYTES c in Ok (CA_Variable name, c)
  else let? capability := decode_capability tag in Ok (capability, c).

Definition cursor_id (k : ResourceKind) : bytes -> result ReleaseError (ResourceId k * bytes) :=
  cursor_parse 64 (fun s => invalid_manifest (id_from_str k s)).
Definition cursor_function_name : bytes -> result ReleaseError (FunctionName * bytes) :=
  cursor_parse FUNCTION_NAME_MAX_BYTES (fun s => invalid_manifest (FunctionName_from_str s)).

Definition decode_function (c : bytes) : result ReleaseError (FunctionManifest * bytes) :=
  let? (id, c) := cursor_id FunctionK c in
  let? (name, c) := cursor_function_name c in
  let? (function_type, c) := cursor_tag decode_function_type c in
  let? (visibility, c) := cursor_tag decode_visibility c in
  let? (auth_policy, c) := cursor_tag decode_auth_policy c in
  let? (runtime_class, c) := cursor_tag decode_runtime_class c in
  let? (implementation_hash, c) := cursor_digest c in
  let? (arguments_contract_hash, c) := cursor_digest c in
  let? (result_contract_hash, c) := cursor_digest c in
  let? (capability_count, c) := cursor_be 2 c in
  if MAX_CAPABILITIES <? capability_count then Err RE_LimitExceeded else
  let? (capabilities, c) := decode_times decode_capability_item (Z.to_nat capability_count) c in
  Ok (mkFunctionManifest id name function_type visibility auth_policy runtime_class implementation_hash
        arguments_contract_hash result_contract_hash capabilities, c).

(** The schedule text must be the normal form of the schedule it denotes. *)
Definition parse_schedule (schedule_text : bytes) : result ReleaseError CronSchedule :=
  let? schedule := CronSchedule_from_str schedule_text in
  if bool_decide (canonical schedule <> schedule_text) then Err RE_InvalidManifest else Ok schedule.

Definition decode_args (c : bytes) : result ReleaseError (CanonicalValue * bytes) :=
  let? (args_length, c) := cursor_be 4 c in
  if MAX_CRON_ARGS_BYTES <? args_length then Err RE_LimitExceeded else
  let? (args_bytes, c) := take_exact RE_InvalidManifest args_length c in
  let? args := invalid_manifest (decode_stored_value args_bytes) in
  let? again := invalid_manifest (encode_stored_value args) in
  if bool_decide (again <> args_bytes) then Err RE_InvalidManifest else Ok (args, c).

Definition decode_cron (c : bytes) : result ReleaseError (CronDefinition * bytes) :=
  let? (name, c) := cursor_parse 64 (fun s => invalid_manifest (CronName_from_str s)) c in
  let? (schedule, c) := cursor_parse 512 parse_schedule c in
  let? (function, c) := cursor_function_name c in
  let? (args, c) := decode_args c in
  Ok (mkCronDefinition name schedule function args, c).

Definition decode_cron_definitions (c : bytes) : result ReleaseError (list CronDefinition * bytes) :=
  let? (count, c) := cursor_be 2 c in
  if MAX_CRON_DEFINITIONS <? count then Err RE_LimitExceeded else
  decode_times decode_cron (Z.to_nat count) c.

Definition decode_artifact (c : bytes) : result ReleaseError (ArtifactDescriptor * bytes) :=
  let? (format, c) := cursor_tag decode_artifact_format c in
  let? (digest, c) := cursor_digest c in
  let? (size_bytes, c) := cursor_be 8 c in
  Ok (mkArtifactDescriptor format digest size_bytes, c).

Definition decode_functions (c : bytes) : result ReleaseError (list FunctionManifest * bytes) :=
  let? (function_count, c) := cursor_be 2 c in
  if (function_count =? 0) || (MAX_FUNCTIONS <? function_count) then Err RE_LimitExceeded else
  decode_times decode_function (Z.to_nat function_count) c.

Definition decode_manifest_body (c : bytes) : result ReleaseError ReleaseManifestV1 :=
  let? (release_id, c) := cursor_id ReleaseK c in
  let? (project_id, c) := cursor_id ProjectK c in
  let? (build_id, c) := cursor_id BuildK c in
  let? (created_at, c) := cursor_i64 c in
  let? (runtime_version, c) := cursor_parse MAX_RUNTIME_VERSION_BYTES RuntimeVersion_from_str c in
  let? (artifact, c) := decode_artifact c in
  let? (function_contract_hash, c) := cursor_digest c in
  let? (schema_contract_hash, c) := cursor_digest c in
  let? (index_contract_hash, c) := cursor_digest c in
  let? (functions, c) := decode_functions c in
  let? (cron_definitions, c) := decode_cron_definitions c in
  if bool_decide (c <> []) then Err RE_InvalidManifest else
  let manifest := mkReleaseManifestV1 release_id project_id build_id created_at runtime_version artifact
    function_contract_hash schema_contract_hash index_contract_hash functions cron_definitions in
  let? _ := validate manifest in
  Ok manifest.

Definition decode_release_manifest (input : bytes) : result ReleaseError ReleaseManifestV1 :=
  if MANIFEST_MAX_BYTES <? len input then Err RE_LimitExceeded else
  match input with
  | m1 :: m2 :: version :: rest =>
      if bool_decide (m1 <> x52) || bool_decide (m2 <> x4d) then Err RE_InvalidManifest
      else if bool_decide (bz version <> MANIFEST_FORMAT_VERSION) then Err RE_Unsupported
      else decode_manifest_body rest
  | _ => Err RE_InvalidManifest
  end.
End manifest.

(** ** What the codec reads and writes *)

(** The guarantees of the Rust types inside a manifest. *)
Definition digest_ok (d : Sha256Digest) : Prop := len d = 32.
Definition version_ok (v : RuntimeVersion) : Prop := RuntimeVersion_from_str (runtime_str v) = Ok v.
Definition cron_name_ok (n : CronName) : Prop := CronName_from_str (cron_name_str n) = Ok n.
Definition schedule_ok (s : CronSchedule) : Prop := CronSchedule_from_str (canonical s) = Ok s.
Definition artifact_ok (a : ArtifactDescriptor) : Prop := digest_ok (artifact_digest a) /\ is_u64 (size_bytes a) = true.
Definition capability_ok (c : Capability) : Prop :=
  match c with CA_Secret name | CA_Variable name => utf8_valid name = true | _ => True end.

Record function_manifest_ok (f : FunctionManifest) : Prop := {
  fo_id : id_ok (fn_id f);
  fo_name : function_ok (fn_name f) = true;
  fo_implementation : digest_ok (implementation_hash f);
  fo_arguments : digest_ok (arguments_contract_hash f);
  fo_result : digest_ok (result_contract_hash f);
  fo_capabilities : Forall capability_ok (capabilities f) }.

Record cron_definition_ok (c : CronDefinition) : Prop := {
  co_name : cron_name_ok (cron_name c);
  co_schedule : schedule_ok (cron_schedule c);
  co_function : function_ok (cron_function c) = true;
  co_args : value_ok (cron_args c) = true }.

Record manifest_ok (m : ReleaseManifestV1) : Prop := {
  mo_release : id_ok (release_id m);
  mo_project : id_ok (project_id m);
  mo_build : id_ok (build_id m);
  mo_created : is_i64 (created_at m) = true;
  mo_version : version_ok (runtime_version m);
  mo_artifact : artifact_ok (artifact m);
  mo_function_contract : digest_ok (function_contract_hash m);
  mo_schema_contract : digest_ok (schema_contract_hash m);
  mo_index_contract : digest_ok (index_contract_hash m);
  mo_functions : Forall function_manifest_ok (functions m);
  mo_crons : Forall cron_definition_ok (cron_definitions m) }.

Definition enc_text (s : bytes) : bytes := to_be 2 (len s) ++ s.

Lemma manifest_reads_text maximum : 0 <= maximum <= u16_max ->
  reads (cursor_text maximum) enc_text (fun s => utf8_valid s = true /\ len s <= maximum).
Proof.
  intros Hmax c s c'. unfold cursor_text, cursor_be, enc_text. rewrite (rbind_reads _ _ _ _ _ _ (reads_be _ 2)).
  split.
  - intros (n & c1 & Hn & -> & H). destruct (Z.ltb_spec maximum n); [done|].
    apply rbind_Ok in H as ([raw c2] & [Hl ->]%take_exact_Ok & H); [|lia].
    apply rbind_Ok in H as (v & [-> Hu]%ok_or_Ok%from_utf8_Some & [= <- <-]). rewrite Hl.
    split; [done|]. by rewrite app_assoc.
  - intros [[Hu Hl] ->]. pose proof (len_nonneg s). exists (len s), (s ++ c').
    split; [change (256 ^ Z.of_nat 2) with (u16_max + 1); lia|]. split; [by rewrite app_assoc|].
    destruct (Z.ltb_spec maximum (len s)); [lia|].
    rewrite (proj2 (take_exact_Ok _ (len s) _ s c' ltac:(lia))) by done. cbn [rbind].
    unfold from_utf8. by rewrite Hu.
Qed.

Lemma reads_parse {A} maximum (parse : bytes -> result ReleaseError A) (render : A -> bytes) (good : A -> Prop) :
  0 <= maximum <= u16_max ->
  (forall s a, parse s = Ok a <-> good a /\ s = render a) ->
  (forall a, good a -> utf8_valid (render a) = true /\ len (render a) <= maximum) ->
  reads (cursor_parse maximum parse) (fun a => enc_text (render a)) good.
Proof. intros Hm Hp Hr. eapply reads_map; [by apply manifest_reads_text|intros; apply Hp|done]. Qed.

Lemma invalid_manifest_Ok {E A} (r : result E A) a : invalid_manifest r = Ok a <-> r = Ok a.
Proof. apply map_err_Ok. Qed.

Lemma invalid_manifest_inv {E A} (r : result E A) a : invalid_manifest r = Ok a -> r = Ok a.
Proof. apply invalid_manifest_Ok. Qed.

Lemma reads_tag {A} (decode : Z -> result ReleaseError A) (tag : A -> Z) :
  (forall a, 0 <= tag a < 256) -> (forall t a, decode t = Ok a <-> t = tag a) ->
  reads (cursor_tag decode) (fun a => to_be 1 (tag a)) (fun _ => True).
Proof.
  intros Ht Hd. eapply reads_map; [apply reads_be| |intros a _; change (256 ^ Z.of_nat 1) with 256; apply Ht].
  intros t a _. rewrite Hd. naive_solver.
Qed.

Ltac solve_tag := intros t a; split; [intros H; repeat (case_match; simplify_eq; try done)|intros ->; by destruct a].

Lemma reads_function_type : reads (cursor_tag decode_function_type) (fun a => to_be 1 (function_type_tag a)) (fun _ => True).
Proof. apply reads_tag; [by intros []|]. unfold decode_function_type. solve_tag. Qed.
Lemma reads_visibility : reads (cursor_tag decode_visibility) (fun a => to_be 1 (visibility_tag a)) (fun _ => True).
Proof. apply reads_tag; [by intros []|]. unfold decode_visibility. solve_tag. Qed.
Lemma reads_auth_policy : reads (cursor_tag decode_auth_policy) (fun a => to_be 1 (auth_policy_tag a)) (fun _ => True).
Proof. apply reads_tag; [by intros []|]. unfold decode_auth_policy. solve_tag. Qed.
Lemma reads_runtime_class : reads (cursor_tag decode_runtime_class) (fun a => to_be 1 (runtime_class_tag a)) (fun _ => True).
Proof. apply reads_tag; [by intros []|]. unfold decode_runtime_class. solve_tag. Qed.
Lemma reads_artifact_format : reads (cursor_tag decode_artifact_format) (fun a => to_be 1 (artifact_format_tag a)) (fun _ => True).
Proof. apply reads_tag; [by intros []|]. unfold decode_artifact_format. solve_tag. Qed.

Lemma reads_i64 : reads cursor_i64 (fun z => to_be 8 (cast_unsigned z)) (fun z => is_i64 z = true).
Proof.
  intros c z c'. unfold cursor_i64, cursor_be. rewrite (rbind_reads _ _ _ _ _ _ (reads_be _ 8)). split.
  - intros (v & c1 & Hv & -> & [= <- <-]). assert (is_u64 v = true) as Hu
      by (apply is_u64_spec; change (256 ^ Z.of_nat 8) with (u64_max + 1) in Hv; lia).
    split; [by apply cast_signed_range|]. by rewrite cast_unsigned_signed.
  - intros [Hz ->]. exists (cast_unsigned z), c'. pose proof (cast_unsigned_range z) as Hr.
    apply is_u64_spec in Hr. split; [change (256 ^ Z.of_nat 8) with (u64_max + 1); lia|].
    split; [done|]. by rewrite cast_signed_unsigned.
Qed.

Lemma reads_digest : reads cursor_digest (fun d => d) digest_ok.
Proof. by apply reads_exact. Qed.

(** A parser that keeps its input as the value accepts exactly the renderings of valid values. *)
Lemma keeps_text {A} (parse : bytes -> result ReleaseError A) (str : A -> bytes) (mk : bytes -> A) :
  (forall s a, parse s = Ok a -> a = mk s) -> (forall s, str (mk s) = s) ->
  forall s a, parse s = Ok a <-> parse (str a) = Ok a /\ s = str a.
Proof.
  intros Hmk Hstr s a. split; [|by intros [H ->]]. intros H. pose proof (Hmk _ _ H) as ->. by rewrite Hstr.
Qed.

Lemma RuntimeVersion_from_str_Ok s v : RuntimeVersion_from_str s = Ok v <-> version_ok v /\ s = runtime_str v.
Proof.
  apply (keeps_text _ runtime_str mkRuntimeVersion); [|done]. clear. intros s v.
  unfold RuntimeVersion_from_str. case_bool_decide; [by intros [= <-]|].
  intros (x & _ & H')%rbind_Ok. destruct (_ || _); [done|]. by injection H'.
Qed.

Lemma CronName_from_str_Ok s n : CronName_from_str s = Ok n <-> cron_name_ok n /\ s = cron_name_str n.
Proof.
  apply (keeps_text _ cron_name_str mkCronName); [|done]. clear. intros [|b s] n; [done|].
  unfold CronName_from_str. destruct (_ || _); [done|]. by intros [= <-].
Qed.

Lemma parse_schedule_Ok t s : parse_schedule t = Ok s <-> schedule_ok s /\ t = canonical s.
Proof.
  unfold parse_schedule. rewrite rbind_Ok. split.
  - intros (s' & Hs & H). case_bool_decide as E; [done|]. injection H as <-.
    unfold schedule_ok. by rewrite E.
  - intros [Hs ->]. exists s. split; [done|]. by rewrite bool_decide_false by tauto.
Qed.

Lemma cron_name_char_ascii b : cron_name_char b = true -> is_ascii b = true.
Proof. by destruct b. Qed.
Lemma function_char_ascii b : function_char b = true -> is_ascii b = true.
Proof. by destruct b. Qed.
Lemma secret_char_ascii b : secret_char b = true -> is_ascii b = true.
Proof. by destruct b. Qed.
Lemma alphabetic_ascii b : is_ascii_alphabetic b = true -> is_ascii b = true.
Proof. by destruct b. Qed.

Lemma digits_ascii s : forallb is_ascii_digit s = true -> forallb is_ascii s = true.
Proof.
  rewrite !forallb_forall. intros H b Hb%H. unfold is_ascii_digit, in_range, is_ascii in *. lia.
Qed.

Lemma version_text v : version_ok v -> utf8_valid (runtime_str v) = true /\ len (runtime_str v) <= 32.
Proof.
  unfold version_ok, RuntimeVersion_from_str. set (s := runtime_str v). case_bool_decide as Hin.
  - intros _. repeat (apply elem_of_cons in Hin as [->|Hin]; [by vm_compute|]). by apply elem_of_nil in Hin.
  - intros (x & Hx%ok_or_Ok & H)%rbind_Ok. destruct (_ || _) eqn:E; [done|]. bool_facts.
    split; [|unfold MAX_RUNTIME_VERSION_BYTES in *; lia].
    assert (exists p, forallb is_ascii p = true /\ s = p ++ x) as (p & Hp & ->).
    { unfold version_suffix in Hx. repeat case_match; simplify_eq;
        repeat match goal with H : strip_prefix _ _ = Some _ |- _ => apply strip_prefix_Some in H end;
        eexists; (split; [|done]); by vm_compute. }
    apply ascii_utf8_valid. rewrite forallb_app, Hp. by apply digits_ascii.
Qed.

Lemma cron_name_text n : cron_name_ok n -> utf8_valid (cron_name_str n) = true /\ len (cron_name_str n) <= 64.
Proof.
  unfold cron_name_ok, CronName_from_str. destruct (cron_name_str n) as [|b s]; [done|].
  destruct (_ || _) eqn:E; [done|]. intros _. bool_facts. split; [|unfold MAX_CRON_NAME_BYTES in *; lia].
  apply ascii_utf8_valid. cbn [forallb]. apply andb_true_iff. split.
  - unfold is_ascii_lowercase, in_range, is_ascii in *. lia.
  - rewrite forallb_forall in *. eauto using cron_name_char_ascii.
Qed.

Lemma schedule_text s : schedule_ok s -> utf8_valid (canonical s) = true /\ len (canonical s) <= 512.
Proof.
  unfold schedule_ok, CronSchedule_from_str. destruct (_ || _ || _) eqn:E; [done|]. intros H.
  bool_facts. split; [|unfold MAX_EXPRESSION_BYTES in *; lia].
  destruct (split_on _ _) as [|t1 [|t2 [|t3 [|t4 [|t5 [|]]]]]]; try done.
  apply rbind_Ok in H as (f1 & P1 & H). apply rbind_Ok in H as (f2 & P2 & H).
  apply rbind_Ok in H as (f3 & P3 & H). apply rbind_Ok in H as (f4 & P4 & H).
  apply rbind_Ok in H as (f5 & P5 & H). destruct (_ <? _); [done|]. injection H as <-. cbn [canonical].
  apply CronField_parse_ok in P1, P2, P3, P4, P5; try done.
  apply ascii_utf8_valid, forallb_forall. intros b Hb%list_elem_of_In.
  assert (forall lo hi f, 0 <= lo <= hi -> hi < 100 -> field_ok lo hi f -> b ∈ canonical_field f -> is_ascii b = true)
    as Hf.
  { intros lo hi f ? ? Hf Hin. pose proof (canonical_field_plain lo hi f ltac:(lia) ltac:(lia) Hf) as Hp.
    rewrite Forall_forall in Hp. specialize (Hp b Hin). unfold plain, in_range, is_ascii in *. lia. }
  apply (elem_of_join b [x20] (map canonical_field [f1; f2; f3; f4; f5])) in Hb as [Hb|(p & Hp & Hb)]; [by apply list_elem_of_singleton in Hb as ->|].
  cbn [map] in Hp.
  repeat (apply elem_of_cons in Hp as [->|Hp]; [eapply Hf; [| | |exact Hb]; [| |eassumption]; lia|]).
  by apply elem_of_nil in Hp.
Qed.

Lemma function_text f : function_ok f = true ->
  utf8_valid (function_str f) = true /\ len (function_str f) <= FUNCTION_NAME_MAX_BYTES.
Proof.
  unfold function_ok, FunctionName_from_str. case_bool_decide; [done|].
  destruct (Z.ltb_spec FUNCTION_NAME_MAX_BYTES (len (function_str f))); [done|].
  destruct (function_str f) as [|b s]; [done|]. destruct (_ || _) eqn:E; [done|]. intros _. split; [|done].
  bool_facts. apply ascii_utf8_valid. cbn [forallb]. apply andb_true_iff. split; [by apply alphabetic_ascii|].
  rewrite forallb_forall in *. eauto using function_char_ascii.
Qed.

(** ** The parts of the format *)

Definition name_limit (c : Capability) : Prop :=
  match c with CA_Secret name | CA_Variable name => utf8_valid name = true /\ len name <= 64 | _ => True end.
Definition enc_capability (c : Capability) : bytes :=
  to_be 1 (capability_tag c) ++ match c with CA_Secret name | CA_Variable name => enc_text name | _ => [] end.

Lemma manifest_push_u16_eq n : 0 <= n <= u16_max -> push_u16 n = Ok (to_be 2 n).
Proof. intros. unfold push_u16. by rewrite (proj2 (try_from_u_Some u16_max n n)). Qed.
Lemma manifest_push_u32_eq n : 0 <= n <= u32_max -> push_u32 n = Ok (to_be 4 n).
Proof. intros. unfold push_u32. by rewrite (proj2 (try_from_u_Some u32_max n n)). Qed.
Lemma push_text_eq s : len s <= u16_max -> push_text s = Ok (enc_text s).
Proof. intros. unfold push_text. rewrite manifest_push_u16_eq; [done|]. split; [apply len_nonneg|done]. Qed.

Lemma encode_capability_eq c : name_limit c -> encode_capability c = Ok (enc_capability c).
Proof.
  assert (forall n : bytes, len n <= 64 -> len n <= u16_max) by (change u16_max with 65535; lia).
  destruct c; try done; intros [_ Hn]; cbn; by rewrite push_text_eq by auto.
Qed.

Lemma reads_capability : reads decode_capability_item enc_capability name_limit.
Proof.
  intros c cap c'. unfold decode_capability_item, cursor_be. rewrite (rbind_reads _ _ _ _ _ _ (reads_be _ 1)).
  assert (0 <= MAX_SECRET_NAME_BYTES <= u16_max) as Hmax by done. split.
  - intros (tag & c1 & _ & -> & H). destruct (Z.eqb_spec tag 9) as [->|]; [|destruct (Z.eqb_spec tag 12) as [->|]].
    + apply (rbind_reads _ _ _ _ _ _ (manifest_reads_text _ Hmax)) in H as (nm & c2 & Hn & -> & [= <- <-]).
      split; [done|]. unfold enc_capability. by rewrite <- app_assoc.
    + apply (rbind_reads _ _ _ _ _ _ (manifest_reads_text _ Hmax)) in H as (nm & c2 & Hn & -> & [= <- <-]).
      split; [done|]. unfold enc_capability. by rewrite <- app_assoc.
    + apply rbind_Ok in H as (cap' & Hc & [= <- <-]). unfold decode_capability in Hc.
      repeat (case_match; simplify_eq; try done).
  - intros [Hcap ->]. exists (capability_tag cap).
    exists (match cap with CA_Secret name | CA_Variable name => enc_text name | _ => [] end ++ c').
    split; [by destruct cap|]. split; [unfold enc_capability; by rewrite <- app_assoc|].
    destruct cap; try done; cbn [capability_tag]; cbn beta iota;
      apply (rbind_reads _ _ _ _ _ _ (manifest_reads_text _ Hmax)); by eexists _, c'.
Qed.

Section codec.
Context {UL : UlidLib} {ULL : UlidLaws}.

Lemma manifest_reads_id k : reads (cursor_id k) (fun id => enc_text (id_to_string id)) id_ok.
Proof.
  apply reads_parse; [done|intros s a; rewrite invalid_manifest_Ok; apply id_from_str_Ok|].
  intros id Hid. split; [by apply ascii_utf8_valid, id_to_string_ascii|by rewrite id_to_string_len].
Qed.

Lemma reads_function_name :
  reads cursor_function_name (fun n => enc_text (function_str n)) (fun n => function_ok n = true).
Proof.
  apply reads_parse; [done|intros s a; rewrite invalid_manifest_Ok; apply FunctionName_from_str_Ok|].
  apply function_text.
Qed.

Lemma reads_version : reads (cursor_parse MAX_RUNTIME_VERSION_BYTES RuntimeVersion_from_str)
  (fun v => enc_text (runtime_str v)) version_ok.
Proof. apply reads_parse; [done|apply RuntimeVersion_from_str_Ok|apply version_text]. Qed.

Lemma reads_cron_name : reads (cursor_parse 64 (fun s => invalid_manifest (CronName_from_str s)))
  (fun n => enc_text (cron_name_str n)) cron_name_ok.
Proof.
  apply reads_parse; [done|intros s a; rewrite invalid_manifest_Ok; apply CronName_from_str_Ok|apply cron_name_text].
Qed.

Lemma reads_schedule : reads (cursor_parse 512 parse_schedule) (fun s => enc_text (canonical s)) schedule_ok.
Proof. apply reads_parse; [done|apply parse_schedule_Ok|apply schedule_text]. Qed.

(** *** Cron arguments *)
Definition args_ok (v : CanonicalValue) : Prop :=
  value_ok v = true /\ exists b, encode_stored_value v = Ok b /\ len b <= MAX_CRON_ARGS_BYTES.
Definition enc_args (v : CanonicalValue) : bytes :=
  match encode_stored_value v with Ok b => to_be 4 (len b) ++ b | Err _ => [] end.

Lemma reads_args : reads decode_args enc_args args_ok.
Proof.
  intros c v c'. unfold decode_args, cursor_be, enc_args, args_ok. rewrite (rbind_reads _ _ _ _ _ _ (reads_be _ 4)).
  split.
  - intros (n & c1 & Hn & -> & H). destruct (Z.ltb_spec MAX_CRON_ARGS_BYTES n); [done|].
    apply rbind_Ok in H as ([b c2] & [Hl ->]%take_exact_Ok & H); [|lia].
    apply rbind_Ok in H as (v' & Hd%invalid_manifest_inv & H).
    apply rbind_Ok in H as (b' & Hb'%invalid_manifest_inv & H). case_bool_decide as Hbb; [done|]. injection H as <- <-.
    apply stored_encode_decode in Hd as [Hv Hb]. rewrite Hb. split; [split; [done|]; exists b; split; [done|lia]|].
    by rewrite <- app_assoc, Hl.
  - intros [(Hv & b & Hb & Hl) ->]. rewrite Hb. pose proof (len_nonneg b). exists (len b), (b ++ c').
    split; [change (256 ^ Z.of_nat 4) with (2 ^ 32); unfold MAX_CRON_ARGS_BYTES in *; lia|].
    split; [by rewrite <- app_assoc|]. destruct (Z.ltb_spec MAX_CRON_ARGS_BYTES (len b)); [lia|].
    rewrite (proj2 (take_exact_Ok _ (len b) _ b c' ltac:(lia))) by done. cbn [rbind].
    rewrite (proj2 (invalid_manifest_Ok _ v)) by (by apply stored_decode_encode). cbn [rbind].
    rewrite (proj2 (invalid_manifest_Ok _ b)) by done. cbn [rbind]. by rewrite bool_decide_false by tauto.
Qed.

(** A counted list. *)
Lemma reads_counted {A} (item : bytes -> result ReleaseError (A * bytes)) enc good (bad : Z -> bool) limit :
  reads item enc good -> limit <= u16_max -> (forall n, bad n = false -> n <= limit) ->
  reads (fun c => let? (n, c) := cursor_be 2 c in
                  if bad n then Err RE_LimitExceeded else decode_times item (Z.to_nat n) c)
    (fun l => to_be 2 (len l) ++ concat (map enc l)) (fun l => bad (len l) = false /\ Forall good l).
Proof.
  intros Hr Hlim Hbad c l c'. unfold cursor_be. rewrite (rbind_reads _ _ _ _ _ _ (reads_be _ 2)). split.
  - intros (n & c1 & Hn & -> & H). destruct (bad n) eqn:Eb; [done|].
    apply (reads_times _ _ _ _ Hr) in H as [[Hl Hg] ->]. assert (len l = n) as -> by (unfold len; lia).
    split; [done|]. by rewrite <- app_assoc.
  - intros [[Hb Hg] ->]. pose proof (len_nonneg l). specialize (Hbad _ Hb).
    exists (len l), (concat (map enc l) ++ c').
    split; [change (256 ^ Z.of_nat 2) with (u16_max + 1); lia|]. split; [by rewrite <- app_assoc|].
    rewrite Hb. apply (reads_times _ _ _ _ Hr). split; [|done]. split; [unfold len; lia|done].
Qed.

Lemma rbind_counted {A B} (item : bytes -> result ReleaseError (A * bytes)) enc good (bad : Z -> bool) limit
  c (k : list A * bytes -> result ReleaseError B) r :
  reads item enc good -> limit <= u16_max -> (forall n, bad n = false -> n <= limit) ->
  (let? (n, c) := cursor_be 2 c in
   if bad n then Err RE_LimitExceeded else rbind (decode_times item (Z.to_nat n) c) k) = Ok r
  <-> exists l c', (bad (len l) = false /\ Forall good l)
        /\ c = (to_be 2 (len l) ++ concat (map enc l)) ++ c' /\ k (l, c') = Ok r.
Proof.
  intros Hr Hlim Hbad. rewrite <- (rbind_reads _ _ _ _ _ _ (reads_counted _ _ _ _ _ Hr Hlim Hbad)).
  destruct (cursor_be 2 c) as [[n c1]|e]; [|done]. cbn [rbind]. by destruct (bad n).
Qed.

Lemma try_map_eq {A B} (f : A -> result ReleaseError B) g l :
  Forall (fun x => f x = Ok (g x)) l -> try_map f l = Ok (map g l).
Proof. induction 1 as [|x l Hx Hl IH]; [done|]. cbn. rewrite Hx. cbn [rbind]. by rewrite IH. Qed.

(** *** Functions *)
Definition function_good (f : FunctionManifest) : Prop :=
  function_manifest_ok f /\ (MAX_CAPABILITIES <? len (capabilities f)) = false /\ Forall name_limit (capabilities f).

Definition enc_function (f : FunctionManifest) : bytes :=
  enc_text (id_to_string (fn_id f)) ++ enc_text (function_str (fn_name f))
  ++ to_be 1 (function_type_tag (function_type f)) ++ to_be 1 (visibility_tag (visibility f))
  ++ to_be 1 (auth_policy_tag (auth_policy f)) ++ to_be 1 (runtime_class_tag (runtime_class f))
  ++ implementation_hash f ++ arguments_contract_hash f ++ result_contract_hash f
  ++ to_be 2 (len (capabilities f)) ++ concat (map enc_capability (capabilities f)).

Lemma name_limit_ok c : name_limit c -> capability_ok c.
Proof. by destruct c as [| | | | | | | | | |n|n]; try done; intros [? _]. Qed.

Lemma short_text s maximum : utf8_valid s = true /\ len s <= maximum -> maximum <= u16_max ->
  push_text s = Ok (enc_text s).
Proof. intros [_ H] Hm. apply push_text_eq. lia. Qed.

Lemma push_id {k} (i : ResourceId k) : id_ok i -> push_text (id_to_string i) = Ok (enc_text (id_to_string i)).
Proof. intros Hi. apply push_text_eq. by rewrite id_to_string_len. Qed.

Lemma encode_function_eq f : function_good f -> encode_function f = Ok (enc_function f).
Proof.
  intros (Hok & Hn & Hc). destruct Hok. unfold encode_function.
  rewrite (push_id (fn_id f)), (short_text _ _ (function_text _ fo_name0)) by done. cbn [rbind].
  pose proof (len_nonneg (capabilities f)).
  rewrite manifest_push_u16_eq by (change u16_max with 65535; unfold MAX_CAPABILITIES in *; lia). cbn [rbind].
  rewrite (try_map_eq _ enc_capability) by (eapply Forall_impl; [done|apply encode_capability_eq]). cbn [rbind].
  unfold enc_function. by rewrite <- !app_assoc.
Qed.

Ltac cbn_fields :=
  cbn [fn_id fn_name function_type visibility auth_policy runtime_class implementation_hash
    arguments_contract_hash result_contract_hash capabilities cron_name cron_schedule cron_function cron_args
    release_id project_id build_id created_at runtime_version artifact format artifact_digest size_bytes
    function_contract_hash schema_contract_hash index_contract_hash functions cron_definitions] in *.
(** One step of a decoder, in the two directions. *)
Ltac read_step R H x Hx :=
  let c := fresh "c" in
  apply (rbind_reads _ _ _ _ _ _ R) in H as (x & c & Hx & -> & H); cbn beta iota in H.
Ltac write_step R :=
  apply (rbind_reads _ _ _ _ _ _ R); eexists _, _; split; [|split; [rewrite <- ?app_assoc; reflexivity|]];
  [try done|cbn beta iota].

Lemma reads_function : reads decode_function enc_function function_good.
Proof.
  intros c f c'. unfold decode_function. split.
  - intros H. read_step (manifest_reads_id FunctionK) H i Hi. read_step reads_function_name H n Hn.
    read_step reads_function_type H ft Hft. read_step reads_visibility H v Hv.
    read_step reads_auth_policy H pol Hpol. read_step reads_runtime_class H rc Hrc.
    read_step reads_digest H d1 Hd1. read_step reads_digest H d2 Hd2. read_step reads_digest H d3 Hd3.
    apply (rbind_counted _ _ _ (fun n => MAX_CAPABILITIES <? n) MAX_CAPABILITIES _ _ _ reads_capability)
      in H as (l & c9 & [Hl Hg] & -> & [= <- <-]); [|done|intros; lia].
    split; [|unfold enc_function; cbn_fields; by rewrite <- !app_assoc].
    split; [|done]. split; cbn_fields; try done. eapply Forall_impl; [done|apply name_limit_ok].
  - destruct f as [i n ft v pol rc d1 d2 d3 l]. intros [([H1 H2 H3 H4 H5 H6] & Hl & Hg) ->].
    unfold enc_function. cbn_fields.
    write_step (manifest_reads_id FunctionK). write_step reads_function_name. write_step reads_function_type.
    write_step reads_visibility. write_step reads_auth_policy. write_step reads_runtime_class.
    write_step reads_digest. write_step reads_digest. write_step reads_digest.
    apply (rbind_counted _ _ _ (fun n => MAX_CAPABILITIES <? n) MAX_CAPABILITIES _ _ _ reads_capability);
      [done|intros; lia|]. exists l, c'. split; [done|]. split; [by rewrite <- app_assoc|done].
Qed.

(** *** Cron definitions *)
Definition cron_good (c : CronDefinition) : Prop := cron_definition_ok c /\ args_ok (cron_args c).

Definition enc_cron (c : CronDefinition) : bytes :=
  enc_text (cron_name_str (cron_name c)) ++ enc_text (canonical (cron_schedule c))
  ++ enc_text (function_str (cron_function c)) ++ enc_args (cron_args c).

Lemma encode_cron_eq c : cron_good c -> encode_cron c = Ok (enc_cron c).
Proof.
  intros [[H1 H2 H3 H4] (_ & b & Hb & Hl)]. unfold encode_cron, enc_cron, enc_args.
  rewrite (short_text _ _ (cron_name_text _ H1)), (short_text _ _ (schedule_text _ H2)),
    (short_text _ _ (function_text _ H3)), Hb by done. cbn [rbind map_err].
  pose proof (len_nonneg b). rewrite manifest_push_u32_eq by (unfold MAX_CRON_ARGS_BYTES, u32_max in *; lia). done.
Qed.

Lemma reads_cron : reads decode_cron enc_cron cron_good.
Proof.
  intros c d c'. unfold decode_cron. split.
  - intros H. read_step reads_cron_name H n Hn. read_step reads_schedule H s Hs.
    read_step reads_function_name H f Hf. read_step reads_args H v Hv. injection H as <- <-.
    split; [|unfold enc_cron; cbn_fields; by rewrite <- !app_assoc]. split; [|done].
    by destruct Hv.
  - destruct d as [n s f v]. intros [[[H1 H2 H3 H4] H5] ->]. unfold enc_cron. cbn_fields.
    write_step reads_cron_name. write_step reads_schedule. write_step reads_function_name. write_step reads_args.
    done.
Qed.

Lemma reads_crons : reads decode_cron_definitions (fun l => to_be 2 (len l) ++ concat (map enc_cron l))
  (fun l => (MAX_CRON_DEFINITIONS <? len l) = false /\ Forall cron_good l).
Proof.
  apply (reads_counted _ _ _ (fun n => MAX_CRON_DEFINITIONS <? n) MAX_CRON_DEFINITIONS);
    [apply reads_cron|done|intros; lia].
Qed.

Lemma reads_functions : reads decode_functions (fun l => to_be 2 (len l) ++ concat (map enc_function l))
  (fun l => (len l =? 0) || (MAX_FUNCTIONS <? len l) = false /\ Forall function_good l).
Proof.
  apply (reads_counted _ _ _ (fun n => (n =? 0) || (MAX_FUNCTIONS <? n)) MAX_FUNCTIONS);
    [apply reads_function|done|intros; lia].
Qed.

Definition enc_artifact (a : ArtifactDescriptor) : bytes :=
  to_be 1 (artifact_format_tag (format a)) ++ artifact_digest a ++ to_be 8 (size_bytes a).

Lemma reads_artifact : reads decode_artifact enc_artifact artifact_ok.
Proof.
  assert (forall z, is_u64 z = true <-> 0 <= z < 256 ^ Z.of_nat 8) as Hu64.
  { intros z. rewrite is_u64_spec. change (256 ^ Z.of_nat 8) with (u64_max + 1). lia. }
  intros c a c'. unfold decode_artifact, cursor_be. split.
  - intros H. read_step reads_artifact_format H f Hf. read_step reads_digest H d Hd.
    read_step (@reads_be _ RE_InvalidManifest 8) H n Hn. injection H as <- <-.
    split; [split; [done|by apply Hu64]|]. unfold enc_artifact. cbn_fields. by rewrite <- !app_assoc.
  - destruct a as [f d n]. intros [[H1 H2] ->]. unfold enc_artifact. cbn_fields.
    write_step reads_artifact_format. write_step reads_digest.
    write_step (@reads_be _ RE_InvalidManifest 8); [by apply Hu64|done].
Qed.

(** *** The manifest *)
Definition enc_manifest (m : ReleaseManifestV1) : bytes :=
  enc_text (id_to_string (release_id m)) ++ enc_text (id_to_string (project_id m))
  ++ enc_text (id_to_string (build_id m)) ++ to_be 8 (cast_unsigned (created_at m))
  ++ enc_text (runtime_str (runtime_version m)) ++ enc_artifact (artifact m)
  ++ function_contract_hash m ++ schema_contract_hash m ++ index_contract_hash m
  ++ (to_be 2 (len (functions m)) ++ concat (map enc_function (functions m)))
  ++ (to_be 2 (len (cron_definitions m)) ++ concat (map enc_cron (cron_definitions m))).

(** What validation adds to the guarantees of the types. *)
Lemma check_capabilities_names ft p caps r :
  try_fold (check_capability ft) p caps = Ok r -> Forall name_limit caps.
Proof.
  intros H%try_fold_each. eapply Forall_impl; [exact H|]. intros c (t & t' & Hc). unfold check_capability in Hc.
  destruct (_ || _ || _) eqn:E; [done|]. bool_facts. destruct c; try done; cbn in *; bool_facts;
    (split; [|unfold MAX_SECRET_NAME_BYTES in *; lia]); apply ascii_utf8_valid;
    match goal with H : forallb secret_char _ = true |- _ => rewrite forallb_forall in H |- *;
      intros b Hb; apply secret_char_ascii, H, Hb end.
Qed.

Lemma validate_good m : manifest_ok m -> validate m = Ok tt ->
  ((len (functions m) =? 0) || (MAX_FUNCTIONS <? len (functions m)) = false /\ Forall function_good (functions m))
  /\ ((MAX_CRON_DEFINITIONS <? len (cron_definitions m)) = false /\ Forall cron_good (cron_definitions m)).
Proof.
  intros Hm Hv. unfold validate in Hv. destruct (_ || _) eqn:E; [done|].
  apply rbind_Ok in Hv as (st & Hf%try_fold_each & Hv). destruct (_ && _); [done|].
  apply rbind_Ok in Hv as ([] & _ & Hv). apply rbind_Ok in Hv as (last & Hc%try_fold_each & _).
  bool_facts. split; split.
  - apply orb_false_iff. split; [|lia]. destruct (functions m); [done|]. autorewrite with runku.
    pose proof (len_nonneg l). lia.
  - eapply Forall_impl; [apply Forall_and; split; [apply (mo_functions _ Hm)|exact Hf]|].
    intros f [Hok (t & t' & Hstep)]. unfold check_function in Hstep. destruct t as [ids prev].
    destruct (set_insert _ _); [|done]. destruct (_ || _) eqn:E'; [done|].
    apply rbind_Ok in Hstep as (p & Hcaps%check_capabilities_names & _). bool_facts.
    split; [done|]. split; [lia|done].
  - lia.
  - eapply Forall_impl; [apply Forall_and; split; [apply (mo_crons _ Hm)|exact Hc]|].
    intros c [Hok (t & t' & Hstep)]. unfold check_cron in Hstep.
    apply rbind_Ok in Hstep as (target & _ & Hstep). apply rbind_Ok in Hstep as (b & Hb & Hstep).
    apply (proj1 (map_err_Ok _ _ _)) in Hb. destruct (_ || _) eqn:E'; [done|]. bool_facts.
    split; [done|]. split; [apply (co_args _ Hok)|]. exists b. split; [done|lia].
Qed.

Lemma encode_manifest_eq m : manifest_ok m -> validate m = Ok tt ->
  encode_release_manifest m
  = if MANIFEST_MAX_BYTES <? len (MAGIC ++ enc_manifest m) then Err RE_LimitExceeded
    else Ok (MAGIC ++ enc_manifest m).
Proof.
  intros Hm Hv. destruct (validate_good m Hm Hv) as [[Hfn Hf] [Hcn Hc]]. destruct Hm.
  unfold encode_release_manifest. rewrite Hv. cbn [rbind].
  rewrite !push_id by done. cbn [rbind]. rewrite (short_text _ _ (version_text _ mo_version0)) by done. cbn [rbind].
  pose proof (len_nonneg (functions m)). pose proof (len_nonneg (cron_definitions m)).
  rewrite !manifest_push_u16_eq by (change u16_max with 65535; unfold MAX_FUNCTIONS, MAX_CRON_DEFINITIONS in *; lia).
  cbn [rbind]. rewrite (try_map_eq _ enc_function) by (eapply Forall_impl; [done|apply encode_function_eq]).
  cbn [rbind]. rewrite (try_map_eq _ enc_cron) by (eapply Forall_impl; [done|apply encode_cron_eq]).
  cbn [rbind]. unfold enc_manifest, enc_artifact. by rewrite <- !app_assoc.
Qed.

Lemma decode_body_spec c m : decode_manifest_body c = Ok m <->
  manifest_ok m /\ validate m = Ok tt /\ c = enc_manifest m.
Proof.
  unfold decode_manifest_body. split.
  - intros H. read_step (manifest_reads_id ReleaseK) H r Hr. read_step (manifest_reads_id ProjectK) H p Hp.
    read_step (manifest_reads_id BuildK) H b Hb. read_step reads_i64 H t Ht. read_step reads_version H v Hv.
    read_step reads_artifact H a Ha. read_step reads_digest H d1 Hd1. read_step reads_digest H d2 Hd2.
    read_step reads_digest H d3 Hd3. read_step reads_functions H fs Hfs. read_step reads_crons H cs Hcs.
    case_bool_decide as Hc; [done|]. apply rbind_Ok in H as ([] & Hval & [= <-]). split; [|split; [done|]].
    + destruct Hfs as [_ Hfs], Hcs as [_ Hcs]. split; cbn_fields; try done;
        (eapply Forall_impl; [done|]; by intros ? []).
    + subst. unfold enc_manifest. cbn_fields. by rewrite app_nil_r.
  - intros (Hm & Hv & ->). destruct (validate_good m Hm Hv) as [Hf Hc]. destruct Hm.
    unfold enc_manifest. destruct m as [r p b t v a d1 d2 d3 fs cs]. cbn_fields.
    write_step (manifest_reads_id ReleaseK). write_step (manifest_reads_id ProjectK). write_step (manifest_reads_id BuildK).
    write_step reads_i64. write_step reads_version. write_step reads_artifact. write_step reads_digest.
    write_step reads_digest. write_step reads_digest. write_step reads_functions.
    apply (rbind_reads _ _ _ _ _ _ reads_crons). exists cs, []. split; [done|].
    split; [by rewrite app_nil_r|]. cbn beta iota. rewrite bool_decide_false by tauto. by rewrite Hv.
Qed.
End codec.

(** C35: The manifest codec is exact: a text decodes to a manifest precisely when it is that manifest's
    encoding.  So a manifest that encodes reads back unchanged, the decoder accepts no other spelling,
    and what it accepts satisfies every structural rule of [validate] and the invariants of all its
    identifiers, names, versions, digests, schedules and arguments. *)
Theorem manifest_codec_exact {UL : UlidLib} {ULL : UlidLaws} (input : bytes) (m : ReleaseManifestV1) :
  decode_release_manifest input = Ok m <-> manifest_ok m /\ encode_release_manifest m = Ok input.
Proof.
  unfold decode_release_manifest. split.
  - destruct (Z.ltb_spec MANIFEST_MAX_BYTES (len input)); [done|].
    destruct input as [|m1 [|m2 [|version rest]]]; try done.
    destruct (_ || _) eqn:E; [done|]. bool_facts. case_bool_decide as Hver; [done|].
    intros (Hm & Hv & ->)%decode_body_spec. split; [done|]. rewrite encode_manifest_eq by done.
    assert (m1 = x52 /\ m2 = x4d /\ version = x01) as (-> & -> & ->).
    { split_and!; [by apply dec_stable|by apply dec_stable|by apply bz_inj]. }
    change (x52 :: x4d :: x01 :: enc_manifest m) with (MAGIC ++ enc_manifest m) in *.
    by destruct (Z.ltb_spec MANIFEST_MAX_BYTES (len (MAGIC ++ enc_manifest m))); [lia|].
  - intros [Hm He]. assert (validate m = Ok tt) as Hv
      by (unfold encode_release_manifest in He; by apply rbind_Ok in He as ([] & ? & _)).
    rewrite encode_manifest_eq in He by done.
    destruct (Z.ltb_spec MANIFEST_MAX_BYTES (len (MAGIC ++ enc_manifest m))); [done|]. injection He as <-.
    change (MAGIC ++ enc_manifest m) with (x52 :: x4d :: x01 :: enc_manifest m) in *.
    destruct (Z.ltb_spec MANIFEST_MAX_BYTES (len (x52 :: x4d :: x01 :: enc_manifest m))); [lia|].
    rewrite !bool_decide_false by (intros Hn; by apply Hn). by apply decode_body_spec.
Qed.

(** A Release with an internal Mutation run daily and a public Query. *)
Definition sample_digest : Sha256Digest := replicate 32 x07.
Definition sample_function (id : Z) (name : string) (ft : FunctionType) (v : FunctionVisibility)
  (caps : list Capability) : FunctionManifest :=
  mkFunctionManifest (from_ulid id) (mkFunctionName (text name)) ft v AP_None RC_SafeV8 sample_digest sample_digest
    sample_digest caps.
Definition sample_cron : CronDefinition :=
  mkCronDefinition (mkCronName (text "daily"))
    match CronSchedule_from_str (text "0 3 * * *") with
    | Ok s => s
    | Err _ => mkCronSchedule [] (mkCronField 0 0 0) (mkCronField 0 0 0) (mkCronField 0 0 0)
        (mkCronField 0 0 0) (mkCronField 0 0 0)
    end
    (mkFunctionName (text "cleanup")) (CV_Object [(text "days", CV_Int64 30)]).
Definition sample_manifest : ReleaseManifestV1 :=
  mkReleaseManifestV1 (from_ulid 1) (from_ulid 2) (from_ulid 3) 1700000000000000 (mkRuntimeVersion (text "runku-js"))
    (mkArtifactDescriptor AF_SafeEsmBundleV1 sample_digest 1024) sample_digest sample_digest sample_digest
    [sample_function 4 "cleanup" FT_Mutation FV_Internal [CA_DbRead; CA_DbWrite; CA_Variable (text "REGION")];
     sample_function 5 "list" FT_Query FV_Public [CA_DbRead]]
    [sample_cron].

Lemma manifest_codec_exact_witness : exists b,
  encode_release_manifest sample_manifest = Ok b /\ decode_release_manifest b = Ok sample_manifest.
Proof.
  assert (manifest_ok sample_manifest) as Hok.
  { split; [by vm_compute..| |by vm_compute|by vm_compute|by vm_compute| |].
    - split; by vm_compute.
    - repeat (apply Forall_cons_2; [split; [by vm_compute..|repeat constructor]|]). apply Forall_nil_2.
    - apply Forall_cons_2; [|apply Forall_nil_2]. split; by vm_compute. }
  destruct (encode_release_manifest sample_manifest) as [b|e] eqn:E; [|vm_compute in E; discriminate E].
  exists b. split; [reflexivity|]. apply (manifest_codec_exact b sample_manifest). split; [exact Hok|exact E].
Defined.
