(* ===== verification/Bundle.v ===== *)
(** * Runtime artifacts

    The content-addressed resource bundles of runku-releases/src/bundle.rs: Function implementations and
    canonical contracts keyed by their SHA-256 digest, their strict codec, and the checks that tie a
    bundle to a Release manifest.  [sha256] is the hash function of the sha2 crate; all that is used
    of it is that digests have 32 bytes. *)

From Stdlib Require Import Strings.Byte ZArith Lia.
From stdpp Require Import prelude strings list.
From S2P Require Import Prelude BTreeMap Codec Ulid Value StoredValue Core Release Cron Manifest.

Definition SAFE_ESM_BUNDLE_FORMAT_VERSION : Z := 1.
Definition SAFE_ESM_IMPLEMENTATION_MAX_BYTES : Z := 8 * 1024 * 1024.
Definition MAX_IMPLEMENTATIONS : Z := 1000.
Definition MAGIC : bytes := [x52; x42; x01].

(** [BTreeMap<Sha256Digest, String>]: digests are compared bytewise. *)
Record SafeEsmBundleV1 : Type := mkSafeEsmBundleV1 { implementations : list (Sha256Digest * bytes) }.
Record NodeEsmBundleV1 : Type := mkNodeEsmBundleV1 { node_bundle : SafeEsmBundleV1 }.

Definition resource (self : SafeEsmBundleV1) (digest : Sha256Digest) : option bytes :=
  btree_get digest (implementations self).
Definition source (self : SafeEsmBundleV1) (digest : Sha256Digest) : option bytes := resource self digest.
Definition node_source (self : NodeEsmBundleV1) (digest : Sha256Digest) : option bytes :=
  source (node_bundle self) digest.
Definition node_resource (self : NodeEsmBundleV1) (digest : Sha256Digest) : option bytes :=
  resource (node_bundle self) digest.

Definition validate_source (source : bytes) : result ReleaseError unit :=
  if bool_decide (source = []) then Err RE_InvalidArtifact
  else if SAFE_ESM_IMPLEMENTATION_MAX_BYTES <? len source then Err RE_LimitExceeded
  else Ok tt.

Section bundle.
Context (sha256 : bytes -> bytes).

(** ** Encoding *)

Definition push_implementation (output : bytes) (entry : Sha256Digest * bytes) : result ReleaseError bytes :=
  let '(digest, source) := entry in
  let? _ := validate_source source in
  if bool_decide (digest <> sha256 source) then Err RE_DigestMismatch else
  let? length := ok_or RE_LimitExceeded (try_from_u u32_max (len source)) in
  let output := output ++ digest ++ to_be 4 length ++ source in
  if ARTIFACT_MAX_BYTES <? len output then Err RE_LimitExceeded else Ok output.

Definition encode_safe_esm_bundle (bundle : SafeEsmBundleV1) : result ReleaseError bytes :=
  if bool_decide (implementations bundle = []) || (MAX_IMPLEMENTATIONS <? len (implementations bundle))
  then Err RE_InvalidArtifact
  else
    let? count := ok_or RE_LimitExceeded (try_from_u u16_max (len (implementations bundle))) in
    try_fold push_implementation (MAGIC ++ to_be 2 count) (implementations bundle).

Definition encode_node_esm_bundle (bundle : NodeEsmBundleV1) : result ReleaseError bytes :=
  encode_safe_esm_bundle (node_bundle bundle).

(** One source added by [from_sources]. *)
Definition add_source (implementations : list (Sha256Digest * bytes)) (source : bytes)
  : result ReleaseError (list (Sha256Digest * bytes)) :=
  let? _ := validate_source source in
  let implementations := btree_insert (sha256 source) source implementations in
  if MAX_IMPLEMENTATIONS <? len implementations then Err RE_LimitExceeded else Ok implementations.

Definition from_sources (sources : list bytes) : result ReleaseError SafeEsmBundleV1 :=
  let? implementations := try_fold add_source [] sources in
  if bool_decide (implementations = []) then Err RE_InvalidArtifact else
  let bundle := mkSafeEsmBundleV1 implementations in
  let? _ := encode_safe_esm_bundle bundle in
  Ok bundle.

Definition node_from_sources (sources : list bytes) : result ReleaseError NodeEsmBundleV1 :=
  let? bundle := from_sources sources in Ok (mkNodeEsmBundleV1 bundle).

Definition descriptor_of (format : ArtifactFormat) (encoded : bytes) : result ReleaseError ArtifactDescriptor :=
  let? size := ok_or RE_LimitExceeded (try_from_u u64_max (len encoded)) in
  Ok (mkArtifactDescriptor format (sha256 encoded) size).

Definition descriptor (self : SafeEsmBundleV1) : result ReleaseError ArtifactDescriptor :=
  let? encoded := encode_safe_esm_bundle self in descriptor_of AF_SafeEsmBundleV1 encoded.
Definition node_descriptor (self : NodeEsmBundleV1) : result ReleaseError ArtifactDescriptor :=
  let? encoded := encode_node_esm_bundle self in descriptor_of AF_NodeEsmBundleV1 encoded.

(** ** Decoding *)

(** One record of the container, after the digest [previous]. *)
Definition decode_implementation (previous : option Sha256Digest) (c : bytes)
  : result ReleaseError ((Sha256Digest * bytes) * bytes) :=
  let? (digest, c) := take_exact RE_InvalidArtifact 32 c in
  if not_increasing bytes_cmp previous digest then Err RE_InvalidArtifact else
  let? (length, c) := take_be RE_InvalidArtifact 4 c in
  if (length =? 0) || (SAFE_ESM_IMPLEMENTATION_MAX_BYTES <? length) then Err RE_LimitExceeded else
  let? (source_bytes, c) := take_exact RE_InvalidArtifact length c in
  let? source := ok_or RE_InvalidArtifact (from_utf8 source_bytes) in
  if bool_decide (sha256 source_bytes <> digest) then Err RE_DigestMismatch else
  Ok ((digest, source), c).

(** The loop over [0..count]; inserting strictly increasing digests appends them. *)
Fixpoint decode_implementations (n : nat) (previous : option Sha256Digest)
  (implementations : list (Sha256Digest * bytes)) (c : bytes)
  : result ReleaseError (list (Sha256Digest * bytes) * bytes) :=
  match n with
  | O => Ok (implementations, c)
  | S n =>
      let? (entry, c) := decode_implementation previous c in
      decode_implementations n (Some (fst entry)) (btree_insert (fst entry) (snd entry) implementations) c
  end.

Definition decode_safe_esm_bundle (input : bytes) : result ReleaseError SafeEsmBundleV1 :=
  if ARTIFACT_MAX_BYTES <? len input then Err RE_LimitExceeded else
  match input with
  | m1 :: m2 :: version :: rest =>
      if bool_decide (m1 <> x52) || bool_decide (m2 <> x42) then Err RE_InvalidArtifact
      else if bool_decide (bz version <> SAFE_ESM_BUNDLE_FORMAT_VERSION) then Err RE_Unsupported
      else
        let? (count, c) := take_be RE_InvalidArtifact 2 rest in
        if (count =? 0) || (MAX_IMPLEMENTATIONS <? count) then Err RE_InvalidArtifact else
        let? (implementations, c) := decode_implementations (Z.to_nat count) None [] c in
        if bool_decide (c <> []) then Err RE_InvalidArtifact else
        let bundle := mkSafeEsmBundleV1 implementations in
        let? again := encode_safe_esm_bundle bundle in
        if bool_decide (again <> input) then Err RE_InvalidArtifact else Ok bundle
  | _ => Err RE_InvalidArtifact
  end.

Definition decode_node_esm_bundle (input : bytes) : result ReleaseError NodeEsmBundleV1 :=
  let? bundle := decode_safe_esm_bundle input in Ok (mkNodeEsmBundleV1 bundle).

(** ** Verification against a manifest *)

Definition is_none {A} (o : option A) : bool := negb (bool_decide (is_Some o)).

Definition contracts_missing (self : SafeEsmBundleV1) (manifest : ReleaseManifestV1) : bool :=
  is_none (resource self (schema_contract_hash manifest))
  || is_none (resource self (index_contract_hash manifest))
  || existsb (fun f => is_none (resource self (arguments_contract_hash f))
                       || is_none (resource self (result_contract_hash f))) (functions manifest).

Definition verify_resources (self : SafeEsmBundleV1) (manifest : ReleaseManifestV1) : result ReleaseError unit :=
  if existsb (fun f => is_none (source self (implementation_hash f))) (functions manifest)
     || contracts_missing self manifest
  then Err RE_InvalidArtifact else Ok tt.

Definition contract_runtimes : list bytes :=
  map text ["runku-js-1"; "runku-js-2"; "runku-js-3"; "runku-js"]%string.

Section verify.
Context {UL : UlidLib}.

Definition verify_manifest (self : SafeEsmBundleV1) (manifest : ReleaseManifestV1) (artifact_bytes : bytes)
  : result ReleaseError unit :=
  let? _ := ensure_mvp_runtime_supported manifest in
  let? size := ok_or RE_LimitExceeded (try_from_u u64_max (len artifact_bytes)) in
  if bool_decide (format (artifact manifest) <> AF_SafeEsmBundleV1)
     || bool_decide (size_bytes (artifact manifest) <> size)
  then Err RE_DescriptorMismatch
  else if bool_decide (artifact_digest (artifact manifest) <> sha256 artifact_bytes) then Err RE_DigestMismatch
  else if existsb (fun f => bool_decide (runtime_class f <> RC_SafeV8)
                            || is_none (source self (implementation_hash f))) (functions manifest)
  then Err RE_InvalidArtifact
  else if bool_decide (runtime_str (runtime_version manifest) ∈ contract_runtimes)
          && contracts_missing self manifest
  then Err RE_InvalidArtifact
  else Ok tt.

Definition verify_node_manifest (self : NodeEsmBundleV1) (manifest : ReleaseManifestV1) (artifact_bytes : bytes)
  : result ReleaseError unit :=
  let? _ := ensure_local_full_node_supported manifest in
  let? size := ok_or RE_LimitExceeded (try_from_u u64_max (len artifact_bytes)) in
  if bool_decide (format (artifact manifest) <> AF_NodeEsmBundleV1)
     || bool_decide (size_bytes (artifact manifest) <> size)
  then Err RE_DescriptorMismatch
  else if bool_decide (artifact_digest (artifact manifest) <> sha256 artifact_bytes) then Err RE_DigestMismatch
  else if existsb (fun f => is_none (node_source self (implementation_hash f)) || node_without_action f)
            (functions manifest)
          || contracts_missing (node_bundle self) manifest
  then Err RE_InvalidArtifact
  else Ok tt.
End verify.
End bundle.

(** ** The container format *)

Section format.
Context (sha256 : bytes -> bytes) (Hsha : forall b, len (sha256 b) = 32).

Definition enc_entry (e : Sha256Digest * bytes) : bytes := fst e ++ to_be 4 (len (snd e)) ++ snd e.

(** A resource filed under its own digest. *)
Definition entry_valid (e : Sha256Digest * bytes) : Prop :=
  snd e <> [] /\ len (snd e) <= SAFE_ESM_IMPLEMENTATION_MAX_BYTES /\ fst e = sha256 (snd e).

(** The guarantees of [BTreeMap<Sha256Digest, String>]. *)
Definition bundle_ok (b : SafeEsmBundleV1) : Prop :=
  keys_sorted (map fst (implementations b)) = true
  /\ Forall (fun e => utf8_valid (snd e) = true) (implementations b).

Lemma push_implementation_Ok o e o' : push_implementation sha256 o e = Ok o' ->
  o' = o ++ enc_entry e /\ entry_valid e /\ len o' <= ARTIFACT_MAX_BYTES.
Proof.
  destruct e as [d s]. unfold push_implementation, validate_source, entry_valid, enc_entry. cbn [fst snd].
  intros ([] & Hs & H)%rbind_Ok. destruct (bool_decide_reflect (s = [])); [done|].
  destruct (Z.ltb_spec SAFE_ESM_IMPLEMENTATION_MAX_BYTES (len s)); [done|].
  destruct (bool_decide_reflect (d <> sha256 s)) as [|Hd]; [done|]. apply dec_stable in Hd.
  apply rbind_Ok in H as (length & [-> _]%ok_or_Ok%try_from_u_Some & H).
  destruct (Z.ltb_spec ARTIFACT_MAX_BYTES (len (o ++ d ++ to_be 4 (len s) ++ s))) as [|Hl]; [done|].
  injection H as <-. split_and!; done.
Qed.

Lemma push_all_Ok l o o' : try_fold (push_implementation sha256) o l = Ok o' ->
  o' = o ++ concat (map enc_entry l) /\ Forall entry_valid l /\ (l = [] \/ len o' <= ARTIFACT_MAX_BYTES).
Proof.
  revert o; induction l as [|e l IH]; intros o; cbn [try_fold map concat].
  - intros [= <-]. rewrite app_nil_r. eauto.
  - intros (o1 & (-> & He & Hl)%push_implementation_Ok & H)%rbind_Ok.
    destruct (IH _ H) as (-> & Hall & Hlen). rewrite <- app_assoc. split_and!; [done|by constructor|].
    right. destruct Hlen as [->|Hlen]; [|by rewrite <- app_assoc in Hlen]. cbn. by rewrite app_nil_r.
Qed.

Lemma encode_bundle_Ok b input : encode_safe_esm_bundle sha256 b = Ok input ->
  input = MAGIC ++ to_be 2 (len (implementations b)) ++ concat (map enc_entry (implementations b))
  /\ Forall entry_valid (implementations b) /\ 1 <= len (implementations b) <= MAX_IMPLEMENTATIONS
  /\ len input <= ARTIFACT_MAX_BYTES.
Proof.
  unfold encode_safe_esm_bundle. destruct (_ || _) eqn:E; [done|]. bool_facts.
  intros (n & [-> _]%ok_or_Ok%try_from_u_Some & (-> & Hall & Hl)%push_all_Ok)%rbind_Ok.
  split; [by rewrite <- app_assoc|]. split; [done|]. destruct Hl as [|Hl]; [done|]. split; [|done].
  destruct (implementations b) as [|e l]; [done|]. rewrite len_cons in *. pose proof (len_nonneg l). lia.
Qed.

(** ** Reading it back *)

Lemma reads_implementation previous :
  reads (decode_implementation sha256 previous) enc_entry
    (fun e => entry_valid e /\ utf8_valid (snd e) = true /\ not_increasing bytes_cmp previous (fst e) = false).
Proof.
  intros c [d s] c'. unfold decode_implementation, entry_valid, enc_entry. cbn [fst snd].
  rewrite (rbind_reads _ _ _ _ _ _ (reads_exact _ 32 ltac:(lia))). split.
  - intros (d' & c1 & Hd & -> & H). destruct (not_increasing _ _ d') eqn:Ei; [done|].
    apply (rbind_reads _ _ _ _ _ _ (reads_be _ 4)) in H as (n & c2 & Hn & -> & H).
    destruct (_ || _) eqn:E; [done|]. bool_facts.
    apply rbind_Ok in H as ([s' c3] & [Hl ->]%take_exact_Ok & H); [|lia].
    apply rbind_Ok in H as (s2 & [-> Hu]%ok_or_Ok%from_utf8_Some & H). case_bool_decide as Hs; [done|].
    injection H as <- <- <-. split; [|rewrite <- !app_assoc; by rewrite Hl].
    split_and!; [|lia|done|done|done]. intros ->. rewrite len_nil in Hl. lia.
  - intros [((Hne & Hl & Hd) & Hu & Hi) ->]. exists d, (to_be 4 (len s) ++ s ++ c').
    split; [by rewrite Hd|]. split; [by rewrite <- !app_assoc|]. rewrite Hi.
    assert (1 <= len s) as Hpos by (destruct s as [|x s']; [done|]; rewrite len_cons; pose proof (len_nonneg s'); lia).
    apply (rbind_reads _ _ _ _ _ _ (reads_be _ 4)). exists (len s), (s ++ c').
    split; [change (256 ^ Z.of_nat 4) with (2 ^ 32); unfold SAFE_ESM_IMPLEMENTATION_MAX_BYTES in *; lia|].
    split; [done|]. destruct (Z.eqb_spec (len s) 0), (Z.ltb_spec SAFE_ESM_IMPLEMENTATION_MAX_BYTES (len s)); try lia.
    cbn [orb]. rewrite (proj2 (take_exact_Ok _ (len s) _ s c' ltac:(lia))) by done. cbn [rbind].
    unfold from_utf8. rewrite Hu. cbn [ok_or rbind]. rewrite bool_decide_false by (intros Hn; by apply Hn). done.
Qed.

(** Every key read so far is at most the previous digest. *)
Definition upto (previous : option Sha256Digest) (m : list (Sha256Digest * bytes)) : Prop :=
  Forall (fun e => match previous with Some p => fst e = p \/ bytes_lt (fst e) p | None => False end) m.

Lemma upto_below previous m d : upto previous m -> not_increasing bytes_cmp previous d = false ->
  Forall (fun e => bytes_lt (fst e) d) m.
Proof.
  intros Hm Hd. eapply Forall_impl; [exact Hm|]. intros e He. destruct previous as [p|]; [|done].
  unfold not_increasing in Hd. assert (bytes_lt p d) as Hp by (unfold bytes_lt; by destruct (bytes_cmp p d)).
  destruct He as [He|He]; [by subst p|]. by etransitivity.
Qed.

Lemma upto_next previous m e : upto previous m -> not_increasing bytes_cmp previous (fst e) = false ->
  upto (Some (fst e)) (m ++ [e]).
Proof.
  intros Hm Hd. apply Forall_app. split; [|repeat constructor].
  eapply Forall_impl; [by eapply upto_below|]. by right.
Qed.

Lemma decode_implementations_Ok n previous m c m' c' : upto previous m -> keys_sorted (map fst m) = true ->
  decode_implementations sha256 n previous m c = Ok (m', c') ->
  exists l, m' = m ++ l /\ length l = n /\ Forall (fun e => utf8_valid (snd e) = true) l
    /\ keys_sorted (map fst m') = true.
Proof.
  revert previous m c; induction n as [|n IH]; intros previous m c Hm Hs; cbn [decode_implementations].
  - intros [= <- <-]. exists []. by rewrite app_nil_r.
  - intros ([e c1] & [(He & Hu & Hi) _]%reads_implementation & H)%rbind_Ok.
    pose proof (btree_insert_sorted (fst e) (snd e) m Hs) as Hs'.
    rewrite btree_insert_last in H, Hs' by (by eapply upto_below). rewrite <- surjective_pairing in H, Hs'.
    apply IH in H as (l & -> & Hl & Hul & Hsl); [|by eapply upto_next|done].
    exists (e :: l). rewrite <- app_assoc in *. split_and!; [done|cbn; lia|by constructor|done].
Qed.

Lemma decode_implementations_eq l previous m c : upto previous m ->
  keys_sorted (map fst (m ++ l)) = true -> Forall entry_valid l -> Forall (fun e => utf8_valid (snd e) = true) l ->
  (forall p e, previous = Some p -> head l = Some e -> bytes_lt p (fst e)) ->
  decode_implementations sha256 (length l) previous m (concat (map enc_entry l) ++ c) = Ok (m ++ l, c).
Proof.
  revert previous m; induction l as [|e l IH]; intros previous m Hm Hs Hv Hu Hp;
    cbn [length map concat decode_implementations]; [by rewrite app_nil_r|].
  apply Forall_cons in Hv as [He Hv], Hu as [Hue Hu].
  assert (not_increasing bytes_cmp previous (fst e) = false) as Hi.
  { destruct previous as [p|]; [|done]. unfold not_increasing. by rewrite (Hp p e eq_refl eq_refl). }
  rewrite (proj2 (reads_implementation previous _ e (concat (map enc_entry l) ++ c)))
    by (split; [done|by rewrite <- app_assoc]).
  cbn [rbind]. rewrite btree_insert_last by (by eapply upto_below). rewrite <- surjective_pairing.
  rewrite IH; [by rewrite <- app_assoc|by eapply upto_next|by rewrite <- app_assoc|done|done|].
  intros p e' [= <-] Hh. rewrite map_app in Hs. apply keys_sorted_suffix in Hs.
  destruct l as [|e'' l]; [done|]. injection Hh as ->. cbn [map] in Hs. by apply keys_sorted_cons in Hs as [_ ?].
Qed.
End format.

Lemma decode_bundle_iff (sha256 : bytes -> bytes) input b : (forall x, len (sha256 x) = 32) ->
  decode_safe_esm_bundle sha256 input = Ok b <-> bundle_ok b /\ encode_safe_esm_bundle sha256 b = Ok input.
Proof.
  intros Hsha. unfold decode_safe_esm_bundle. split.
  - destruct (ARTIFACT_MAX_BYTES <? len input); [done|].
    destruct input as [|m1 [|m2 [|version rest]]]; try done.
    destruct (_ || _); [done|]. case_bool_decide; [done|]. intros ([n c] & _ & Hn)%rbind_Ok.
    destruct (_ || _); [done|]. apply rbind_Ok in Hn as ([m c2] & Hm & Hn). case_bool_decide; [done|].
    apply rbind_Ok in Hn as (again & Ha & Hn). case_bool_decide; [done|]. injection Hn as <-. subst again.
    split; [|done]. apply decode_implementations_Ok in Hm as (l & -> & _ & Hu & Hs); [by split|done|constructor|done].
  - intros [[Hs Hu] He]. apply encode_bundle_Ok in He as Hb. destruct Hb as (Hin & Hv & Hn & Hl).
    destruct (Z.ltb_spec ARTIFACT_MAX_BYTES (len input)); [lia|]. rewrite Hin. cbn [MAGIC app].
    rewrite !bool_decide_false by (intros Hne; by apply Hne). cbn [orb].
    apply (rbind_reads _ _ _ _ _ _ (reads_be _ 2)).
    exists (len (implementations b)), (concat (map enc_entry (implementations b))).
    split; [unfold MAX_IMPLEMENTATIONS in *; change (256 ^ Z.of_nat 2) with 65536; lia|]. split; [done|].
    destruct (Z.eqb_spec (len (implementations b)) 0), (Z.ltb_spec MAX_IMPLEMENTATIONS (len (implementations b)));
      try lia. cbn [orb]. unfold len. rewrite Nat2Z.id.
    rewrite <- (app_nil_r (concat _)), decode_implementations_eq by (done || constructor). cbn [rbind app].
    rewrite bool_decide_false by tauto. destruct b as [l]. cbn [implementations] in *. rewrite He. cbn [rbind].
    rewrite bool_decide_false; [done|]. intros Hne. apply Hne. by rewrite Hin, ?app_nil_r.
Qed.

Lemma decode_bundle_resource (sha256 : bytes -> bytes) input b d s : (forall x, len (sha256 x) = 32) ->
  decode_safe_esm_bundle sha256 input = Ok b -> resource b d = Some s ->
  s <> [] /\ utf8_valid s = true /\ d = sha256 s.
Proof.
  intros Hsha [[_ Hu] He]%decode_bundle_iff Hr%btree_get_In; [|done].
  apply encode_bundle_Ok in He as (_ & Hv & _). rewrite Forall_forall in Hu, Hv.
  destruct (Hv _ Hr) as (Hne & _ & Hd). split_and!; [done|exact (Hu _ Hr)|done].
Qed.

(** C36: The bundle codec is exact: bytes decode to a bundle precisely when they are its encoding.  An
    accepted bundle therefore has one spelling, its records are in strict digest order, and every
    resource in it is non-empty UTF-8 text filed under its own SHA-256 digest. *)
Theorem bundle_codec_exact (sha256 : bytes -> bytes) (input : bytes) (b : SafeEsmBundleV1) :
  (forall x, len (sha256 x) = 32) ->
  (decode_safe_esm_bundle sha256 input = Ok b <-> bundle_ok b /\ encode_safe_esm_bundle sha256 b = Ok input)
  /\ (decode_safe_esm_bundle sha256 input = Ok b ->
      forall d s, resource b d = Some s -> s <> [] /\ utf8_valid s = true /\ d = sha256 s).
Proof. intros Hsha. split; [by apply decode_bundle_iff|]. intros. by eapply decode_bundle_resource. Qed.

(** A hash function with digests of 32 bytes, for concrete inputs. *)
Definition pad32 (b : bytes) : bytes := take 32 (b ++ replicate 32 x00).

Lemma pad32_len b : len (pad32 b) = 32.
Proof. unfold len, pad32. rewrite length_take, length_app, length_replicate. lia. Qed.

Definition sample_bundle : SafeEsmBundleV1 :=
  mkSafeEsmBundleV1 [(pad32 (text "export a"), text "export a"); (pad32 (text "export b"), text "export b")].

Lemma bundle_codec_exact_witness : exists input,
  encode_safe_esm_bundle pad32 sample_bundle = Ok input /\ decode_safe_esm_bundle pad32 input = Ok sample_bundle.
Proof.
  destruct (encode_safe_esm_bundle pad32 sample_bundle) as [input|e] eqn:E; [|vm_compute in E; discriminate E].
  exists input. split; [reflexivity|].
  apply (proj1 (bundle_codec_exact pad32 input sample_bundle pad32_len)). split; [|exact E].
  split; [by vm_compute|]. repeat constructor.
Defined.

Lemma is_none_false {A} (o : option A) : is_none o = false -> exists a, o = Some a.
Proof. unfold is_none. rewrite negb_false_iff, bool_decide_eq_true. by intros [a Ha]; exists a. Qed.

Lemma existsb_false {A} (p : A -> bool) l x : existsb p l = false -> x ∈ l -> p x = false.
Proof.
  intros H Hx. destruct (p x) eqn:E; [|done]. rewrite <- H. symmetry. apply existsb_exists.
  exists x. split; [by apply list_elem_of_In|done].
Qed.

(** A bundle that passes verification is what its manifest says: the artifact bytes have exactly the
    declared size and SHA-256 digest, every Function runs in the safe runtime and its implementation
    is present as text with exactly the declared digest, and in the runtimes that carry contracts
    so are its argument and result contracts, the schema and the index catalog. *)
Theorem verified_bundle_integrity {UL : UlidLib} (sha256 : bytes -> bytes) input b m :
  (forall x, len (sha256 x) = 32) ->
  decode_safe_esm_bundle sha256 input = Ok b -> verify_manifest sha256 b m input = Ok tt ->
  artifact_digest (artifact m) = sha256 input /\ size_bytes (artifact m) = len input
  /\ forall f, f ∈ functions m -> runtime_class f = RC_SafeV8
     /\ (exists s, source b (implementation_hash f) = Some s /\ sha256 s = implementation_hash f)
     /\ (runtime_str (runtime_version m) ∈ contract_runtimes ->
         forall d, d ∈ [arguments_contract_hash f; result_contract_hash f; schema_contract_hash m; index_contract_hash m] ->
         exists s, resource b d = Some s /\ sha256 s = d).
Proof.
  intros Hsha Hd Hv. unfold verify_manifest in Hv.
  apply rbind_Ok in Hv as ([] & _ & Hv). apply rbind_Ok in Hv as (n & [-> _]%ok_or_Ok%try_from_u_Some & Hv).
  destruct (_ || _) eqn:E1; [done|]. destruct (bool_decide_reflect (artifact_digest (artifact m) <> sha256 input))
    as [|E2]; [done|]. destruct (existsb _ _) eqn:E3; [done|]. destruct (_ && _) eqn:E4; [done|].
  apply orb_false_iff in E1 as [_ E1]. apply bool_decide_eq_false, dec_stable in E1. apply dec_stable in E2.
  assert (forall d, is_none (resource b d) = false -> exists s, resource b d = Some s /\ sha256 s = d) as Hres.
  { intros d [s Hs]%is_none_false. exists s. split; [done|].
    by destruct (decode_bundle_resource sha256 input b d s Hsha Hd Hs) as (_ & _ & ->). }
  split_and!; [done|done|]. intros f Hf. pose proof (existsb_false _ _ _ E3 Hf) as Ef. cbn beta in Ef. bool_facts.
  split_and!; [by apply dec_stable|by apply Hres|]. intros Hrt d Hin.
  rewrite bool_decide_true in E4 by done. cbn [andb] in E4. unfold contracts_missing in E4.
  apply orb_false_iff in E4 as [E4 E5]. pose proof (existsb_false _ _ _ E5 Hf) as Ec. cbn beta in Ec. bool_facts. apply Hres.
  repeat (apply elem_of_cons in Hin as [->|Hin]; [done|]). by apply elem_of_nil in Hin.
Qed.

Definition sample_input : bytes :=
  match encode_safe_esm_bundle pad32 sample_bundle with Ok input => input | Err _ => [] end.
Definition sample_release : ReleaseManifestV1 :=
  let d := pad32 (text "export a") in
  mkReleaseManifestV1 (from_ulid 1) (from_ulid 2) (from_ulid 3) 0 (mkRuntimeVersion (text "runku-js"))
    (mkArtifactDescriptor AF_SafeEsmBundleV1 (pad32 sample_input) (len sample_input)) d d d
    [mkFunctionManifest (from_ulid 4) (mkFunctionName (text "list")) FT_Query FV_Public AP_None RC_SafeV8
       (pad32 (text "export b")) d d [CA_DbRead]] [].

Lemma verified_bundle_integrity_witness :
  verify_manifest pad32 sample_bundle sample_release sample_input = Ok tt
  /\ artifact_digest (artifact sample_release) = pad32 sample_input
  /\ size_bytes (artifact sample_release) = len sample_input.
Proof.
  assert (verify_manifest pad32 sample_bundle sample_release sample_input = Ok tt) as Hv by (vm_compute; reflexivity).
  split; [exact Hv|].
  destruct (verified_bundle_integrity pad32 sample_input sample_bundle sample_release pad32_len) as (H1 & H2 & _);
    [vm_compute; reflexivity|exact Hv|]. split; [exact H1|exact H2].
Defined.
