(* ===== verification/Compatibility.v ===== *)
(** * Compatibility of Releases

    The checks that decide whether a Release may replace another or serve beside it
    (runku-compatibility/src/lib.rs): loading a verified package, the subset relation on contracts,
    the coexistence relation on document views, and the comparisons that turn them into diagnostics.

    The relations are proved sound for the meaning of contracts: what the narrower contract admits
    the wider one admits, and what one view writes the other can read; and the reports of the
    comparisons are proved to mean what they say.  The coexistence relation is documented as symmetric; on unions it
    is not, which is shown by an example. *)

From Stdlib Require Import Strings.Byte ZArith Lia.
From stdpp Require Import prelude strings list.
From S2P Require Import Prelude Order BTreeMap Codec Ulid Value StoredValue IndexKey Core Schema.
From S2P Require Import Contracts ContractSemantics ContractViews ContractLens Release Cron Manifest Bundle.

Definition MAX_RELATION_STEPS : Z := 200000.
Definition MAX_DIAGNOSTICS : Z := 4096.

Inductive CompatibilityError : Type :=
  | CO_InvalidRelease | CO_InvalidArtifact | CO_InvalidContract | CO_LimitExceeded.
Definition CompatibilityError_code (e : CompatibilityError) : bytes :=
  text match e with
  | CO_InvalidRelease => "COMPATIBILITY_RELEASE_INVALID"
  | CO_InvalidArtifact => "COMPATIBILITY_ARTIFACT_INVALID"
  | CO_InvalidContract => "COMPATIBILITY_CONTRACT_INVALID"
  | CO_LimitExceeded => "COMPATIBILITY_LIMIT_EXCEEDED"
  end.

(** ** The relations on contracts *)

(** Computations that count their steps in [&mut usize]; an error abandons the count. *)
Definition counted (A : Type) : Type := Z -> result CompatibilityError (A * Z).

(** The step taken on entry of each relation. *)
Definition count {A} (m : counted A) : counted A := fun steps =>
  let steps := steps + 1 in
  if MAX_RELATION_STEPS <? steps then Err CO_LimitExceeded else m steps.

(** [for x in l { if !f(x)? { return Ok(false) } } Ok(true)], and its dual. *)
Definition counted_all {A} (f : A -> counted bool) : list A -> counted bool :=
  fix go l steps :=
    match l with
    | [] => Ok (true, steps)
    | x :: l => let? (b, steps) := f x steps in if b : bool then go l steps else Ok (false, steps)
    end.
Definition counted_any {A} (f : A -> counted bool) : list A -> counted bool :=
  fix go l steps :=
    match l with
    | [] => Ok (false, steps)
    | x :: l => let? (b, steps) := f x steps in if b : bool then Ok (true, steps) else go l steps
    end.

Definition lower_inside (geb : Z -> Z -> bool) (subset superset : option Z) : bool :=
  match subset, superset with
  | _, None => true
  | Some lo, Some hi => geb lo hi
  | None, Some _ => false
  end.
Definition upper_inside (leb : Z -> Z -> bool) (subset superset : option Z) : bool :=
  match subset, superset with
  | _, None => true
  | Some lo, Some hi => leb lo hi
  | None, Some _ => false
  end.
(** [<=] on [f64]. *)
Definition f64_leb (x y : Z) : bool :=
  negb (f64_is_nan x) && negb (f64_is_nan y) && (f64_scaled x <=? f64_scaled y).

Definition bounds_inside (leb : Z -> Z -> bool) (lo hi lo' hi' : option Z) : bool :=
  lower_inside (fun x y => leb y x) lo lo' && upper_inside leb hi hi'.

(** The keys of the right object: all optional or present on the left, and required there if required
    on the right. *)
Definition right_keys_ok (left_fields right_fields : list (bytes * Contract)) (left_optional right_optional : list bytes)
  : bool :=
  forallb (fun name =>
    negb (negb (btree_contains name left_fields) && negb (bool_decide (name ∈ right_optional)))
    && negb (negb (bool_decide (name ∈ right_optional)) && bool_decide (name ∈ left_optional)))
    (map fst right_fields).

Fixpoint contract_subset_at (subset : Contract) : Contract -> counted bool :=
  fix to_superset (superset : Contract) : counted bool :=
    count (fun steps =>
      match superset, subset with
      | C_Any, _ => Ok (true, steps)
      | _, C_Union variants => counted_all (fun variant => contract_subset_at variant superset) variants steps
      | C_Union variants, _ => counted_any to_superset variants steps
      | C_Null, C_Null | C_Boolean, C_Boolean | C_Timestamp, C_Timestamp => Ok (true, steps)
      | C_Int64 lo' hi', C_Int64 lo hi => Ok (bounds_inside Z.leb lo hi lo' hi', steps)
      | C_Float64 lo' hi', C_Float64 lo hi => Ok (bounds_inside f64_leb lo hi lo' hi', steps)
      | C_String lo' hi', C_String lo hi => Ok (bounds_inside Z.leb lo hi lo' hi', steps)
      | C_Bytes lo' hi', C_Bytes lo hi => Ok (bounds_inside Z.leb lo hi lo' hi', steps)
      | C_TypedId kind', C_TypedId kind =>
          Ok (bool_decide (kind' = None) || bool_decide (kind = kind'), steps)
      | C_DocumentId table', C_DocumentId table => Ok (bool_decide (table = table'), steps)
      | C_Array items' lo' hi', C_Array items lo hi =>
          if bounds_inside Z.leb lo hi lo' hi' then contract_subset_at items items' steps else Ok (false, steps)
      | C_Object right_fields right_optional, C_Object left_fields left_optional =>
          let? (b, steps) := counted_all (fun field steps =>
            match btree_get (fst field) right_fields with
            | None => Ok (false, steps)
            | Some right_contract => contract_subset_at (snd field) right_contract steps
            end) left_fields steps in
          Ok (if b : bool then right_keys_ok left_fields right_fields left_optional right_optional else false, steps)
      | _, _ => Ok (false, steps)
      end).

Definition contract_subset (subset superset : Contract) : result CompatibilityError bool :=
  let? (b, _) := contract_subset_at subset superset 0 in Ok b.
Definition contract_is_subset (subset superset : Contract) : result CompatibilityError bool :=
  contract_subset subset superset.

(** [contract_subset(l, r)? && contract_subset(r, l)?]. *)
Definition same_values (l r : Contract) : result CompatibilityError bool :=
  let? b := contract_subset l r in if b : bool then contract_subset r l else Ok false.

(** The loops over the variants of two unions. *)
Fixpoint has_same (variant : Contract) (right : list Contract) : result CompatibilityError bool :=
  match right with
  | [] => Ok false
  | other :: rest => let? b := same_values variant other in if b : bool then Ok true else has_same variant rest
  end.
Fixpoint all_have_same (left right : list Contract) : result CompatibilityError bool :=
  match left with
  | [] => Ok true
  | variant :: rest => let? b := has_same variant right in if b : bool then all_have_same rest right else Ok false
  end.

Fixpoint contracts_can_coexist_at (left right : Contract) : counted bool :=
  count (fun steps =>
    match left, right with
    | C_Object left_fields left_optional, C_Object right_fields right_optional =>
        let? (b, steps) := counted_all (fun field steps =>
          match btree_get (fst field) right_fields with
          | Some other =>
              if negb (eqb (bool_decide (fst field ∈ left_optional)) (bool_decide (fst field ∈ right_optional)))
              then Ok (false, steps)
              else contracts_can_coexist_at (snd field) other steps
          | None => Ok (bool_decide (fst field ∈ left_optional), steps)
          end) left_fields steps in
        Ok (if b : bool
            then forallb (fun name => btree_contains name left_fields || bool_decide (name ∈ right_optional))
                   (map fst right_fields)
            else false, steps)
    | C_Array left_items left_minimum left_maximum, C_Array right_items right_minimum right_maximum =>
        if bool_decide (left_minimum = right_minimum) && bool_decide (left_maximum = right_maximum)
        then contracts_can_coexist_at left_items right_items steps
        else Ok (false, steps)
    | C_Union left_variants, C_Union right_variants =>
        if bool_decide (len left_variants <> len right_variants) then Ok (false, steps)
        else let? b := all_have_same left_variants right_variants in Ok (b, steps)
    | _, _ => let? b := same_values left right in Ok (b, steps)
    end).

Definition contracts_can_coexist (left right : Contract) : result CompatibilityError bool :=
  let? (b, _) := contracts_can_coexist_at left right 0 in Ok b.

(** ** Soundness of the relations *)

Lemma counted_all_true {A} (f : A -> counted bool) l s s' : counted_all f l s = Ok (true, s') ->
  Forall (fun x => exists t t', f x t = Ok (true, t')) l.
Proof.
  revert s; induction l as [|x l IH]; intros s; [constructor|]. cbn [counted_all].
  intros ([[] t] & Hx & H)%rbind_Ok; [|done]. constructor; eauto.
Qed.

Lemma counted_any_true {A} (f : A -> counted bool) l s s' : counted_any f l s = Ok (true, s') ->
  exists x t t', x ∈ l /\ f x t = Ok (true, t').
Proof.
  revert s; induction l as [|x l IH]; intros s; [done|]. cbn [counted_any].
  intros ([[] t] & Hx & H)%rbind_Ok.
  - exists x, s, t. split; [by left|done].
  - destruct (IH _ H) as (y & t1 & t2 & Hy & E). exists y, t1, t2. split; [by right|done].
Qed.

Lemma count_Ok {A} (m : counted A) s r : count m s = Ok r -> m (s + 1) = Ok r.
Proof. unfold count. by destruct (_ <? _). Qed.

Lemma bounds_inside_Z lo hi lo' hi' x : bounds_inside Z.leb lo hi lo' hi' = true ->
  bounds_ok Z.ltb lo hi x = true -> bounds_ok Z.ltb lo' hi' x = true.
Proof.
  unfold bounds_inside, lower_inside, upper_inside, bounds_ok, is_some_and. intros H1 H2.
  destruct lo, lo', hi, hi'; cbn in *; lia.
Qed.

Lemma bounds_inside_f64 lo hi lo' hi' x : bounds_inside f64_leb lo hi lo' hi' = true ->
  bounds_ok f64_ltb lo hi x = true -> bounds_ok f64_ltb lo' hi' x = true.
Proof.
  unfold bounds_inside, lower_inside, upper_inside, bounds_ok, is_some_and, f64_leb, f64_ltb. intros H1 H2.
  destruct lo, lo', hi, hi'; cbn in *;
    repeat match goal with H : context [f64_is_nan ?a] |- _ => destruct (f64_is_nan a); cbn in * end;
    try done; try lia; destruct (f64_is_nan x); cbn in *; try done; lia.
Qed.

Lemma subset_union_l variants superset s s' : superset <> C_Any ->
  contract_subset_at (C_Union variants) superset s = Ok (true, s') ->
  Forall (fun variant => exists t t', contract_subset_at variant superset t = Ok (true, t')) variants.
Proof. intros Hn H. apply (counted_all_true _ _ (s + 1) s'). by destruct superset; apply count_Ok in H. Qed.

Lemma subset_union_r subset variants s s' : (forall l, subset <> C_Union l) ->
  contract_subset_at subset (C_Union variants) s = Ok (true, s') ->
  exists variant t t', variant ∈ variants /\ contract_subset_at subset variant t = Ok (true, t').
Proof.
  intros Hn H. apply (counted_any_true _ _ (s + 1) s'). destruct subset; apply count_Ok in H; try done.
  by destruct (Hn variants0).
Qed.

Definition included (c : Contract) : Prop := forall c' s s' v,
  contract_subset_at c c' s = Ok (true, s') -> accepts c v = true -> accepts c' v = true.

Lemma included_object fields optional fields' optional' s s' v :
  Forall (fun f => included (snd f)) fields ->
  contract_subset_at (C_Object fields optional) (C_Object fields' optional') s = Ok (true, s') ->
  accepts (C_Object fields optional) v = true -> accepts (C_Object fields' optional') v = true.
Proof.
  intros IH H%count_Ok. apply rbind_Ok in H as ([b t] & Hall & H). destruct b; [|done]. injection H as Hkeys _.
  apply counted_all_true in Hall. destruct v as [| | | | | | | | |vs]; try done.
  rewrite !accepts_object, !andb_true_iff, !forallb_forall. intros [Hv Hf].
  rewrite Forall_forall in Hall, IH. unfold right_keys_ok in Hkeys. rewrite forallb_forall in Hkeys. split.
  - intros e He. specialize (Hv e He). unfold field_accepts in *.
    destruct (btree_get (fst e) fields) as [c|] eqn:E; [|done]. apply btree_get_In in E.
    destruct (Hall _ E) as (t1 & t2 & Hs). cbn [fst snd] in Hs.
    destruct (btree_get (fst e) fields') as [c'|]; [|done]. by apply (IH _ E c' t1 t2).
  - intros f Hin. specialize (Hkeys (fst f) (in_map fst _ _ Hin)). apply andb_true_iff in Hkeys as [K1 K2].
    case_bool_decide as Ho; [done|]. cbn [orb negb andb] in *. rewrite andb_true_r, negb_involutive in K1.
    apply btree_contains_spec, list_elem_of_fmap in K1 as (g & Eg & Hg). rewrite Eg in *.
    apply list_elem_of_In in Hg. specialize (Hf g Hg). by case_bool_decide.
Qed.

Lemma included_array items lo hi items' lo' hi' s s' v : included items ->
  contract_subset_at (C_Array items lo hi) (C_Array items' lo' hi') s = Ok (true, s') ->
  accepts (C_Array items lo hi) v = true -> accepts (C_Array items' lo' hi') v = true.
Proof.
  intros IH H%count_Ok. destruct (bounds_inside _ _ _ _ _) eqn:Eb; [|done]. destruct v; try done. cbn [accepts].
  rewrite !andb_true_iff, !forallb_forall. intros [Hb Hv].
  split; [by eapply bounds_inside_Z|]. intros x Hx. by eapply IH; [exact H|apply Hv].
Qed.

(** It is enough to look at supersets that are not unions. *)
Lemma included_superset c : (forall l, c <> C_Union l) ->
  (forall c' s s' v, (forall l, c' <> C_Union l) -> c' <> C_Any ->
     contract_subset_at c c' s = Ok (true, s') -> accepts c v = true -> accepts c' v = true) -> included c.
Proof.
  intros Hc Hbase c'. induction c' using contract_induction; intros s s' v Hs Ha; [done|by eapply Hbase..|].
  apply subset_union_r in Hs as (w & t & t' & Hw & Ht); [|done]. rewrite Forall_forall in H. cbn [accepts].
  apply existsb_exists. exists w. split; [by apply list_elem_of_In|by eapply H].
Qed.

Ltac subset_leaf :=
  let c' := fresh "c'" in let v := fresh "v" in
  intros c' s s' v Hu Hany Hs Ha;
  destruct c'; try (by match goal with Hu : forall l, C_Union ?x <> C_Union l |- _ => destruct (Hu x) end);
  try (by apply count_Ok in Hs); try done;
  try (apply count_Ok in Hs; injection Hs as Hs _; destruct v; try done; cbn [accepts] in *;
       eauto using bounds_inside_Z, bounds_inside_f64).

Lemma contract_subset_included c : included c.
Proof.
  induction c using contract_induction; [apply included_superset; [done|]..|];
    [subset_leaf..|].
  - apply orb_true_iff in Hs as [Hk|Hk]; apply bool_decide_eq_true in Hk; by subst.
  - by apply included_array with (1 := IHc) (2 := Hs).
  - by apply included_object with (1 := H) (2 := Hs).
  - intros c' s s' v Hs Ha. assert (c' = C_Any \/ c' <> C_Any) as [->|Hn] by (destruct c'; auto); [done|].
    apply subset_union_l in Hs; [|done]. cbn [accepts] in Ha. apply existsb_exists in Ha as (w & Hw & Ha).
    rewrite Forall_forall in H, Hs. apply list_elem_of_In in Hw. destruct (Hs w Hw) as (t & t' & Ht).
    by eapply H.
Qed.

Lemma same_values_accepts l r v : same_values l r = Ok true -> accepts l v = accepts r v.
Proof.
  unfold same_values, contract_subset. intros ([] & ([b1 s1] & H1 & [= ->])%rbind_Ok & H)%rbind_Ok; [|done].
  apply rbind_Ok in H as ([b2 s2] & H2 & [= ->]). apply eq_true_iff_eq.
  split; intros Ha; by eapply contract_subset_included.
Qed.

Lemma has_same_spec w right : has_same w right = Ok true ->
  exists other, other ∈ right /\ forall v, accepts w v = accepts other v.
Proof.
  induction right as [|other rest IH]; [done|]. cbn [has_same]. intros ([] & Hs & H)%rbind_Ok.
  - exists other. split; [by left|]. intros v. by apply same_values_accepts.
  - destruct (IH H) as (x & Hx & ?). exists x. split; [by right|done].
Qed.

Lemma all_have_same_spec left right w : all_have_same left right = Ok true -> w ∈ left ->
  exists other, other ∈ right /\ forall v, accepts w v = accepts other v.
Proof.
  induction left as [|x rest IH]; [by intros _ ?%elem_of_nil|]. cbn [all_have_same].
  intros ([] & Hs & H)%rbind_Ok [->|Hw]%elem_of_cons; [by apply has_same_spec|by apply IH|done..].
Qed.

(** ** Coexisting views *)

Section objects.
Context (fields fields' : list (bytes * Contract)) (optional optional' : list bytes).
Context (Hk : keys_sorted (map fst fields) = true) (Hk' : keys_sorted (map fst fields') = true).

(** What the loop over the left fields establishes. *)
Definition fields_coexist : Prop := forall k c, (k, c) ∈ fields ->
  match btree_get k fields' with
  | Some c' => (k ∈ optional <-> k ∈ optional')
      /\ exists s s', contracts_can_coexist_at c c' s = Ok (true, s')
  | None => k ∈ optional
  end.

Lemma coexist_object s s' :
  contracts_can_coexist_at (C_Object fields optional) (C_Object fields' optional') s = Ok (true, s') ->
  fields_coexist /\ forall k, k ∈ map fst fields' -> k ∈ map fst fields \/ k ∈ optional'.
Proof.
  intros H%count_Ok. apply rbind_Ok in H as ([b t] & Hall & H). destruct b; [|done]. injection H as Hkeys _.
  apply counted_all_true in Hall. rewrite Forall_forall in Hall. split.
  - intros k c Hin. destruct (Hall _ Hin) as (t1 & t2 & E). cbn [fst snd] in E.
    destruct (btree_get k fields') as [c'|]; [|injection E as E _; by apply bool_decide_eq_true in E].
    destruct (eqb _ _) eqn:Eb; [|done]. cbn [negb] in E. apply eqb_prop in Eb. split; [|by exists t1, t2].
    rewrite <- (bool_decide_eq_true (k ∈ optional)), <- (bool_decide_eq_true (k ∈ optional')). by rewrite Eb.
  - intros k Hin. rewrite forallb_forall in Hkeys. apply list_elem_of_In, Hkeys, orb_true_iff in Hin as [Hin|Hin].
    + left. by apply btree_contains_spec.
    + right. by apply bool_decide_eq_true in Hin.
Qed.

Lemma accepts_entries vs : accepts (C_Object fields optional) (CV_Object vs) = true ->
  (forall k w, btree_get k vs = Some w -> exists c, (k, c) ∈ fields /\ btree_get k fields = Some c /\ accepts c w = true)
  /\ (forall k, k ∈ map fst fields -> btree_get k vs = None -> k ∈ optional).
Proof.
  rewrite accepts_object, andb_true_iff, !forallb_forall. intros [Hv Hf]. split.
  - intros k w Hin%btree_get_In%list_elem_of_In. specialize (Hv _ Hin). unfold field_accepts in Hv. cbn [fst snd] in Hv.
    destruct (btree_get k fields) as [c|] eqn:E; [|done]. exists c. split; [by apply btree_get_In|done].
  - intros k (f & -> & Hf')%list_elem_of_fmap Hnone. apply list_elem_of_In in Hf'. specialize (Hf _ Hf').
    unfold btree_contains in Hf. rewrite Hnone in Hf. rewrite orb_false_r in Hf. by apply bool_decide_eq_true in Hf.
Qed.
End objects.

Definition reads_left (c : Contract) : Prop := forall c' s s' v, contract_ok c = true -> contract_ok c' = true ->
  contracts_can_coexist_at c c' s = Ok (true, s') -> accepts c v = true -> readable c' v = true.
Definition reads_right (c : Contract) : Prop := forall c' s s' v, contract_ok c = true -> contract_ok c' = true ->
  union_free c = true ->
  contracts_can_coexist_at c c' s = Ok (true, s') -> accepts c' v = true -> readable c v = true.

(** Every pair but two objects, two arrays or two unions is compared for equality. *)
Lemma coexist_same c c' s s' v : contracts_can_coexist_at c c' s = Ok (true, s') ->
  match c, c' with
  | C_Object _ _, C_Object _ _ | C_Array _ _ _, C_Array _ _ _ | C_Union _, C_Union _ => False
  | _, _ => True
  end -> accepts c v = accepts c' v.
Proof.
  intros H Hc. assert (same_values c c' = Ok true); [|by apply same_values_accepts].
  destruct c, c'; try done; apply count_Ok, rbind_Ok in H as (b & Hb & [= -> _]); done.
Qed.

Lemma reads_left_object fields optional : Forall (fun f => reads_left (snd f)) fields ->
  reads_left (C_Object fields optional).
Proof.
  intros IH c' s s' v Hok Hok' Hc Ha. destruct c' as [| | | | | | | | | | |fields' optional'|];
    try (rewrite (coexist_same _ _ _ _ v Hc I) in Ha; by apply accepts_readable).
  destruct v as [| | | | | | | | |vs]; try done. cbn [contract_ok] in Hok, Hok'.
  apply andb_true_iff in Hok as [Hk Hcs], Hok' as [Hk' Hcs']. rewrite forallb_forall in Hcs, Hcs'.
  apply coexist_object in Hc as [Hf Hkeys]. apply accepts_entries in Ha as [Hpresent Habsent].
  cbn [readable]. apply forallb_forall. intros [k c'] Hin. cbn [fst snd]. pose proof (Hcs' _ Hin) as Hc'.
  apply list_elem_of_In in Hin. pose proof (btree_In_get _ _ _ Hk' Hin) as Hget.
  destruct (btree_get k vs) as [w|] eqn:Ew.
  - destruct (Hpresent _ _ Ew) as (c & Hc & _ & Ha). specialize (Hf _ _ Hc). rewrite Hget in Hf.
    destruct Hf as (_ & t & t' & Hco). rewrite Forall_forall in IH. pose proof (Hcs (k, c)) as Hok.
    eapply (IH (k, c)); eauto. apply Hok. by apply list_elem_of_In.
  - apply bool_decide_eq_true. destruct (Hkeys k) as [Hl|]; [apply list_elem_of_fmap; by exists (k, c')| |done].
    pose proof (Habsent k Hl Ew) as Ho. apply list_elem_of_fmap in Hl as ([k0 c] & -> & Hl). cbn [fst] in *.
    specialize (Hf _ _ Hl). rewrite Hget in Hf. by apply Hf.
Qed.

Lemma reads_right_object fields optional : Forall (fun f => reads_right (snd f)) fields ->
  reads_right (C_Object fields optional).
Proof.
  intros IH c' s s' v Hok Hok' Huf Hc Ha. destruct c' as [| | | | | | | | | | |fields' optional'|];
    try (rewrite <- (coexist_same _ _ _ _ v Hc I) in Ha; by apply accepts_readable).
  destruct v as [| | | | | | | | |vs]; try done. cbn [contract_ok union_free] in Hok, Hok', Huf.
  apply andb_true_iff in Hok as [Hk Hcs], Hok' as [Hk' Hcs']. rewrite forallb_forall in Hcs, Hcs', Huf.
  apply coexist_object in Hc as [Hf Hkeys]. apply accepts_entries in Ha as [Hpresent Habsent].
  cbn [readable]. apply forallb_forall. intros [k c] Hin. cbn [fst snd]. pose proof (Hcs _ Hin) as Hokc.
  pose proof (Huf _ Hin) as Hufc. apply list_elem_of_In in Hin. specialize (Hf _ _ Hin).
  destruct (btree_get k vs) as [w|] eqn:Ew.
  - destruct (Hpresent _ _ Ew) as (c' & Hc' & Hget & Ha). rewrite Hget in Hf.
    destruct Hf as (_ & t & t' & Hco). rewrite Forall_forall in IH.
    eapply (IH (k, c) Hin c' t t' w Hokc); eauto. apply (Hcs' (k, c')). by apply list_elem_of_In.
  - apply bool_decide_eq_true. destruct (btree_get k fields') as [c'|] eqn:Hget; [|done].
    apply Hf, Habsent; [|done]. apply btree_get_In in Hget. apply list_elem_of_fmap. by exists (k, c').
Qed.

Lemma coexist_array items lo hi items' lo' hi' s s' :
  contracts_can_coexist_at (C_Array items lo hi) (C_Array items' lo' hi') s = Ok (true, s') ->
  lo = lo' /\ hi = hi' /\ contracts_can_coexist_at items items' (s + 1) = Ok (true, s').
Proof. intros H%count_Ok. destruct (_ && _) eqn:E; [|done]. bool_facts. done. Qed.

Lemma coexisting_reads_left c : reads_left c.
Proof.
  induction c using contract_induction;
    try (intros c' s s' v Hok Hok' Hc Ha; rewrite (coexist_same _ _ _ _ v Hc) in Ha by (by destruct c');
         by apply accepts_readable).
  - intros c' s s' v Hok Hok' Hc Ha. destruct c' as [| | | | | | | | | |items' lo' hi'| |];
      try (rewrite (coexist_same _ _ _ _ v Hc I) in Ha; by apply accepts_readable).
    apply coexist_array in Hc as (-> & -> & Hc). destruct v; try done. cbn [accepts readable] in *.
    rewrite andb_true_iff, forallb_forall in Ha |- *. destruct Ha as [Hb Ha].
    split; [|done]. intros x Hx. by eapply IHc; eauto.
  - by apply reads_left_object.
  - intros c' s s' v Hok Hok' Hc Ha. destruct c' as [| | | | | | | | | | | |vs'];
      try (rewrite (coexist_same _ _ _ _ v Hc I) in Ha; by apply accepts_readable).
    apply count_Ok in Hc. case_bool_decide; [done|]. apply rbind_Ok in Hc as (b & Hb & [= -> _]).
    cbn [accepts readable contract_ok] in *. apply existsb_exists in Ha as (w & Hw & Ha).
    apply list_elem_of_In in Hw. destruct (all_have_same_spec _ _ _ Hb Hw) as (o & Ho & Hsame).
    apply existsb_exists. exists o. apply list_elem_of_In in Ho. split; [done|].
    rewrite forallb_forall in Hok'. apply accepts_readable; [by apply Hok'|by rewrite <- Hsame].
Qed.

Lemma coexisting_reads_right c : reads_right c.
Proof.
  induction c using contract_induction;
    try (intros c' s s' v Hok Hok' Huf Hc Ha; rewrite <- (coexist_same _ _ _ _ v Hc) in Ha by (by destruct c');
         by apply accepts_readable).
  - intros c' s s' v Hok Hok' Huf Hc Ha. destruct c' as [| | | | | | | | | |items' lo' hi'| |];
      try (rewrite <- (coexist_same _ _ _ _ v Hc I) in Ha; by apply accepts_readable).
    apply coexist_array in Hc as (-> & -> & Hc). destruct v; try done. cbn [accepts readable] in *.
    rewrite andb_true_iff, forallb_forall in Ha |- *. destruct Ha as [Hb Ha].
    split; [|done]. intros x Hx.
    by apply (IHc items' (s + 1) s' x Hok Hok' Huf Hc), Ha.
  - by apply reads_right_object.
Qed.

(** ** Properties *)

(** C33: [contract_is_subset] is sound: when it answers true, every value the smaller contract admits is
    admitted by the larger one, so whatever passes validation against the smaller contract passes it against
    the larger one within the validation budget. *)
Theorem contract_is_subset_sound c c' v : contract_is_subset c c' = Ok true ->
  (accepts c v = true -> accepts c' v = true)
  /\ (validate_value c v = Ok tt -> within_budget c' v -> validate_value c' v = Ok tt).
Proof.
  intros ([b s] & Hs & [= ->])%rbind_Ok. pose proof (contract_subset_included c c' 0 s v Hs) as Hi.
  split; [done|]. intros Ha%validate_value_sound Hb. by apply validate_value_complete; [apply Hi|].
Qed.

(** A document contract, a wider one, and a document of the first. *)
Definition narrow_contract : Contract :=
  C_Object [(text "age", C_Int64 (Some 0) (Some 150)); (text "tag", C_Union [C_Null; C_String None (Some 8)])] [].
Definition wide_contract : Contract :=
  C_Object [(text "age", C_Int64 (Some (-1)) None); (text "note", C_Any);
            (text "tag", C_Union [C_String None (Some 64); C_Null])] [text "note"; text "tag"].
Definition narrow_document : CanonicalValue := CV_Object [(text "age", CV_Int64 42); (text "tag", CV_Null)].

Lemma contract_is_subset_sound_witness :
  contract_is_subset narrow_contract wide_contract = Ok true
  /\ validate_value narrow_contract narrow_document = Ok tt /\ validate_value wide_contract narrow_document = Ok tt.
Proof.
  assert (contract_is_subset narrow_contract wide_contract = Ok true) as Hs by (vm_compute; reflexivity).
  assert (validate_value narrow_contract narrow_document = Ok tt) as Hv by (vm_compute; reflexivity).
  split; [exact Hs|]. split; [exact Hv|].
  apply (contract_is_subset_sound narrow_contract wide_contract narrow_document Hs); [exact Hv|by vm_compute].
Defined.

(** Views that may coexist can read each other's documents.  If [contracts_can_coexist] accepts a
    pair, every document the left view may write has a valid view on the right; and, when the left contract has
    no unions, the other way round.  The views are within the projection budget. *)
Theorem coexisting_views c c' v : contract_ok c = true -> contract_ok c' = true ->
  contracts_can_coexist c c' = Ok true ->
  (accepts c v = true -> within_budget c' v -> exists p, project_value c' v = Ok p /\ accepts c' p = true)
  /\ (union_free c = true -> accepts c' v = true -> within_budget c v ->
      exists p, project_value c v = Ok p /\ accepts c p = true).
Proof.
  intros Hok Hok' ([b s] & Hc & [= ->])%rbind_Ok. split.
  - intros Ha Hb. apply project_value_readable; [done|done|]. exact (coexisting_reads_left c c' 0 s v Hok Hok' Hc Ha).
  - intros Hu Ha Hb. apply project_value_readable; [done|done|]. exact (coexisting_reads_right c c' 0 s v Hok Hok' Hu Hc Ha).
Qed.

Definition old_view : Contract := C_Object [(text "name", C_String None None)] [].
Definition new_view : Contract :=
  C_Object [(text "name", C_String None None); (text "nick", C_String None (Some 16))] [text "nick"].
Definition new_document : CanonicalValue :=
  CV_Object [(text "name", CV_String (text "Ada")); (text "nick", CV_String (text "a"))].

Lemma coexisting_views_witness :
  contracts_can_coexist old_view new_view = Ok true
  /\ exists p, project_value old_view new_document = Ok p /\ accepts old_view p = true.
Proof.
  assert (contracts_can_coexist old_view new_view = Ok true) as Hc by (vm_compute; reflexivity).
  split; [exact Hc|].
  apply (coexisting_views old_view new_view new_document eq_refl eq_refl Hc); by vm_compute.
Defined.

(** On unions the coexistence check depends on the order of its arguments, although it is documented
    as symmetric: only the left variants have to be matched, so two left variants may share a match.
    The accepted pair here has a right document that the left view cannot read. *)
Theorem coexistence_not_symmetric : exists c c' v,
  contract_ok c = true /\ contract_ok c' = true
  /\ contracts_can_coexist c c' = Ok true /\ contracts_can_coexist c' c = Ok false
  /\ accepts c' v = true /\ project_value c v = Err VE_UnionMismatch.
Proof.
  exists (C_Union [C_Union [C_Null; C_Boolean]; C_Union [C_Boolean; C_Null]]).
  exists (C_Union [C_Union [C_Null; C_Boolean]; C_Timestamp]), (CV_Timestamp 0).
  split_and!; by vm_compute.
Qed.
