(* ===== verification/ReleasePackage.v ===== *)
(** * Release packages and their comparison

    Loading a Release with its bundle and contracts, and the three comparisons of
    runku-compatibility/src/lib.rs: [compare] (replacement for callers and documents), [compare_api]
    (replacement for the callers of a Channel) and [coexist] (serving beside each other in one
    Environment), each a report of sorted diagnostics.

    A report without diagnostics is proved to be the guarantee it stands for. *)

From Stdlib Require Import Strings.Byte ZArith Lia.
From stdpp Require Import prelude strings list sorting.
From S2P Require Import Prelude Order BTreeMap Codec Ulid Value StoredValue IndexKey Core Schema.
From S2P Require Import Contracts ContractSemantics ContractViews ContractLens Release Cron Manifest Bundle.
From S2P Require Import Compatibility.

(** ** Packages *)

Record ReleasePackage : Type := mkReleasePackage {
  manifest : ReleaseManifestV1;
  bundle : SafeEsmBundleV1;
  contracts : list (Sha256Digest * Contract);
  schema : option DocumentSchemaV1 }.

Section load.
Context {UL : UlidLib} {SJ : SerdeJson} (sha256 : bytes -> bytes).



End load.

Definition contract (self : ReleasePackage) (digest : Sha256Digest) : option Contract :=
  btree_get digest (contracts self).
Definition resolved_contract (package : ReleasePackage) (digest : Sha256Digest) : Contract :=
  default C_Any (contract package digest).

(** ** Diagnostics *)

Record CompatibilityDiagnostic : Type := mkDiagnostic { code : bytes; subject : bytes }.
#[export] Instance CompatibilityDiagnostic_eq_dec : EqDecision CompatibilityDiagnostic.
Proof. solve_decision. Defined.

Record CompatibilityReport : Type := mkReport { compatible : bool; diagnostics : list CompatibilityDiagnostic }.

Definition push_diagnostic (diagnostics : list CompatibilityDiagnostic) (code subject : bytes)
  : result CompatibilityError (list CompatibilityDiagnostic) :=
  if MAX_DIAGNOSTICS <=? len diagnostics then Err CO_LimitExceeded
  else Ok (diagnostics ++ [mkDiagnostic code subject]).

(** [if condition { push_diagnostic(..)? }]. *)
Definition diagnose (condition : bool) (diagnostics : list CompatibilityDiagnostic) (code subject : bytes)
  : result CompatibilityError (list CompatibilityDiagnostic) :=
  if condition then push_diagnostic diagnostics code subject else Ok diagnostics.

Definition diagnostic_cmp (d e : CompatibilityDiagnostic) : comparison :=
  cmp_then (bytes_cmp (code d) (code e)) (bytes_cmp (subject d) (subject e)).
(** [Vec::dedup]. *)
Fixpoint dedup (l : list CompatibilityDiagnostic) : list CompatibilityDiagnostic :=
  match l with
  | d :: (e :: _) as rest => if bool_decide (d = e) then dedup rest else d :: dedup rest
  | _ => l
  end.
Definition finish_report (diagnostics : list CompatibilityDiagnostic) : CompatibilityReport :=
  let diagnostics := dedup (order_by diagnostic_cmp diagnostics) in
  mkReport (bool_decide (diagnostics = [])) diagnostics.

(** ** Comparisons *)

Definition validate_pair (base candidate : ReleasePackage) : result CompatibilityError unit :=
  if bool_decide (project_id (manifest base) <> project_id (manifest candidate))
     || bool_decide (release_id (manifest base) = release_id (manifest candidate))
  then Err CO_InvalidRelease else Ok tt.

(** [get] in the map collected from [l]: the last entry of a key. *)
Definition collected {A K} `{EqDecision K} (key : A -> K) (l : list A) (k : K) : option A :=
  List.find (fun x => bool_decide (key x = k)) (rev l).

Definition metadata_changed (previous next : FunctionManifest) : bool :=
  bool_decide (fn_id previous <> fn_id next)
  || bool_decide (function_type previous <> function_type next)
  || bool_decide (visibility previous <> visibility next)
  || bool_decide (auth_policy previous <> auth_policy next)
  || bool_decide (runtime_class previous <> runtime_class next)
  || bool_decide (capabilities previous <> capabilities next).

Definition compare_function (base candidate : ReleasePackage) (diagnostics : list CompatibilityDiagnostic)
  (previous : FunctionManifest) : result CompatibilityError (list CompatibilityDiagnostic) :=
  let subject := function_str (fn_name previous) in
  match collected fn_name (functions (manifest candidate)) (fn_name previous) with
  | None => push_diagnostic diagnostics (text "PUBLIC_FUNCTION_REMOVED") subject
  | Some next =>
      let? diagnostics := diagnose (metadata_changed previous next) diagnostics
        (text "PUBLIC_FUNCTION_METADATA_CHANGED") subject in
      let? wider := contract_subset (resolved_contract base (arguments_contract_hash previous))
        (resolved_contract candidate (arguments_contract_hash next)) in
      let? diagnostics := diagnose (negb wider) diagnostics (text "FUNCTION_ARGUMENTS_NARROWED") subject in
      let? narrower := contract_subset (resolved_contract candidate (result_contract_hash next))
        (resolved_contract base (result_contract_hash previous)) in
      diagnose (negb narrower) diagnostics (text "FUNCTION_RESULT_WIDENED") subject
  end.

Definition compare_functions (base candidate : ReleasePackage) (diagnostics : list CompatibilityDiagnostic)
  : result CompatibilityError (list CompatibilityDiagnostic) :=
  try_fold (compare_function base candidate) diagnostics
    (filter (fun f => visibility f = FV_Public) (functions (manifest base))).

Section tables.
Context {UL : UlidLib}.

Definition compare_table (next : list DocumentTableContract) (diagnostics : list CompatibilityDiagnostic)
  (table : DocumentTableContract) : result CompatibilityError (list CompatibilityDiagnostic) :=
  let subject := id_to_string (dt_id table) in
  match collected dt_id next (dt_id table) with
  | None => push_diagnostic diagnostics (text "SCHEMA_TABLE_REMOVED") subject
  | Some next_table =>
      let? diagnostics := diagnose (bool_decide (dt_name table <> dt_name next_table)) diagnostics
        (text "SCHEMA_TABLE_RENAMED") subject in
      let? wider := contract_subset (dt_document_contract table) (dt_document_contract next_table) in
      diagnose (negb wider) diagnostics (text "SCHEMA_DOCUMENT_NARROWED") subject
  end.

Definition compare_schema (base candidate : ReleasePackage) (diagnostics : list CompatibilityDiagnostic)
  : result CompatibilityError (list CompatibilityDiagnostic) :=
  match schema base, schema candidate with
  | Some previous, Some next => try_fold (compare_table (ds_tables next)) diagnostics (ds_tables previous)
  | None, _ =>
      diagnose (bool_decide (schema_contract_hash (manifest base) <> schema_contract_hash (manifest candidate)))
        diagnostics (text "SCHEMA_CHANGE_UNPROVEN") (text "release")
  | Some _, None => push_diagnostic diagnostics (text "SCHEMA_VALIDATION_REMOVED") (text "release")
  end.

Definition coexist_table (right : list DocumentTableContract) (diagnostics : list CompatibilityDiagnostic)
  (table : DocumentTableContract) : result CompatibilityError (list CompatibilityDiagnostic) :=
  match collected dt_id right (dt_id table) with
  | None => Ok diagnostics
  | Some other =>
      let subject := id_to_string (dt_id table) in
      if bool_decide (dt_name table <> dt_name other)
      then push_diagnostic diagnostics (text "SCHEMA_TABLE_ID_RENAMED") subject
      else
        let? coexist := contracts_can_coexist (dt_document_contract table) (dt_document_contract other) in
        diagnose (negb coexist) diagnostics (text "SCHEMA_VIEWS_CANNOT_COEXIST") subject
  end.

Definition compare_schema_coexistence (left right : ReleasePackage) (diagnostics : list CompatibilityDiagnostic)
  : result CompatibilityError (list CompatibilityDiagnostic) :=
  match schema left, schema right with
  | Some mine, Some theirs => try_fold (coexist_table (ds_tables theirs)) diagnostics (ds_tables mine)
  | None, None => Ok diagnostics
  | _, _ => push_diagnostic diagnostics (text "SCHEMA_VIEW_UNAVAILABLE") (text "release")
  end.

Definition compare (base candidate : ReleasePackage) : result CompatibilityError CompatibilityReport :=
  let? _ := validate_pair base candidate in
  let? diagnostics := compare_functions base candidate [] in
  let? diagnostics := compare_schema base candidate diagnostics in
  let? diagnostics := diagnose
    (bool_decide (index_contract_hash (manifest base) <> index_contract_hash (manifest candidate)))
    diagnostics (text "INDEX_CONTRACT_CHANGE_UNPROVEN") (text "release") in
  Ok (finish_report diagnostics).

Definition compare_api (base candidate : ReleasePackage) : result CompatibilityError CompatibilityReport :=
  let? _ := validate_pair base candidate in
  let? diagnostics := compare_functions base candidate [] in
  Ok (finish_report diagnostics).

Definition coexist (left right : ReleasePackage) : result CompatibilityError CompatibilityReport :=
  let? _ := validate_pair left right in
  let? diagnostics := compare_schema_coexistence left right [] in
  let? diagnostics := diagnose
    (bool_decide (index_contract_hash (manifest left) <> index_contract_hash (manifest right)))
    diagnostics (text "INDEX_CONTRACT_CHANGE_REQUIRES_READINESS") (text "release") in
  let? diagnostics := diagnose
    (bool_decide (cron_definitions (manifest left) <> cron_definitions (manifest right)))
    diagnostics (text "CRON_DECLARATIONS_DIVERGED") (text "release") in
  Ok (finish_report diagnostics).
End tables.

(** ** What a clean report means *)

Lemma push_nonempty ds c s ds' : push_diagnostic ds c s = Ok ds' -> ds' <> [].
Proof. unfold push_diagnostic. destruct (_ <=? _); [done|]. intros [= <-]. by destruct ds. Qed.

(** The checks only ever add diagnostics. *)
Lemma diagnose_grows b ds c s ds' : diagnose b ds c s = Ok ds' -> ds' = [] -> b = false /\ ds = [].
Proof.
  unfold diagnose. destruct b; [intros H ->; by apply push_nonempty in H|]. by intros [= ->].
Qed.

Lemma try_fold_clean {A} (f : list CompatibilityDiagnostic -> A -> result CompatibilityError (list CompatibilityDiagnostic))
  l ds : (forall ds x ds', f ds x = Ok ds' -> ds' = [] -> ds = []) ->
  try_fold f ds l = Ok [] -> ds = [] /\ Forall (fun x => f [] x = Ok []) l.
Proof.
  intros Hf. revert ds; induction l as [|x l IH]; intros ds; cbn [try_fold]; [by intros [= ->]|].
  intros (ds1 & H1 & H2)%rbind_Ok. apply IH in H2 as [-> Hl]. assert (ds = []) as -> by (by eapply Hf).
  split; [done|]. by constructor.
Qed.

Lemma finish_report_clean ds : compatible (finish_report ds) = true -> ds = [].
Proof.
  unfold finish_report. cbn [compatible]. rewrite bool_decide_eq_true. intros H.
  assert (forall l, dedup l = [] -> l = []) as Hd.
  { induction l as [|d [|e l] IH]; [done|done|]. cbn [dedup].
    case_bool_decide; [|done]. intros H'. by apply IH in H'. }
  apply Hd in H. apply Permutation_nil. rewrite <- H. by rewrite order_by_perm.
Qed.

Lemma collected_In {A K} `{EqDecision K} (key : A -> K) l k x : collected key l k = Some x -> x ∈ l /\ key x = k.
Proof.
  unfold collected. intros H%find_some. destruct H as [Hin Hk]. apply bool_decide_eq_true in Hk.
  split; [|done]. by apply list_elem_of_In, in_rev.
Qed.

(** [c] is handled by everything that handles [c']. *)
Definition admits_less (c c' : Contract) : Prop := forall v, accepts c v = true -> accepts c' v = true.

Lemma contract_subset_admits c c' : contract_subset c c' = Ok true -> admits_less c c'.
Proof. intros ([b s] & Hs & [= ->])%rbind_Ok v. by eapply contract_subset_included. Qed.

(** A public function of the base is still there and its callers notice no change. *)
Definition function_kept (base candidate : ReleasePackage) (previous : FunctionManifest) : Prop :=
  exists next, next ∈ functions (manifest candidate) /\ fn_name next = fn_name previous
    /\ (fn_id next = fn_id previous /\ function_type next = function_type previous /\ visibility next = visibility previous
        /\ auth_policy next = auth_policy previous /\ runtime_class next = runtime_class previous
        /\ capabilities next = capabilities previous)
    /\ admits_less (resolved_contract base (arguments_contract_hash previous))
         (resolved_contract candidate (arguments_contract_hash next))
    /\ admits_less (resolved_contract candidate (result_contract_hash next))
         (resolved_contract base (result_contract_hash previous)).

Lemma metadata_same previous next : metadata_changed previous next = false ->
  fn_id next = fn_id previous /\ function_type next = function_type previous /\ visibility next = visibility previous
  /\ auth_policy next = auth_policy previous /\ runtime_class next = runtime_class previous
  /\ capabilities next = capabilities previous.
Proof.
  unfold metadata_changed. rewrite !orb_false_iff, !bool_decide_eq_false.
  intros (((((H1 & H2) & H3) & H4) & H5) & H6). split_and!; symmetry; by apply dec_stable.
Qed.

Lemma compare_function_grows base candidate ds f ds' :
  compare_function base candidate ds f = Ok ds' -> ds' = [] -> ds = [].
Proof.
  unfold compare_function. intros H ->. destruct (collected _ _ _); [|by apply push_nonempty in H].
  apply rbind_Ok in H as (d1 & H1 & H). apply rbind_Ok in H as (w & _ & H). apply rbind_Ok in H as (d2 & H2 & H).
  apply rbind_Ok in H as (n & _ & H). apply diagnose_grows in H as [_ ->]; [|done].
  apply diagnose_grows in H2 as [_ ->]; [|done]. by apply diagnose_grows in H1 as [_ ->].
Qed.

Lemma compare_function_clean base candidate f :
  compare_function base candidate [] f = Ok [] -> function_kept base candidate f.
Proof.
  unfold compare_function. intros H. destruct (collected _ _ _) as [next|] eqn:En; [|by apply push_nonempty in H].
  apply collected_In in En as [Hin Hname]. exists next. split; [done|]. split; [done|].
  apply rbind_Ok in H as (d1 & H1 & H). apply rbind_Ok in H as (w & Hw & H). apply rbind_Ok in H as (d2 & H2 & H).
  apply rbind_Ok in H as (n & Hn & H). apply diagnose_grows in H as [Hn' ->]; [|done].
  apply diagnose_grows in H2 as [Hw' ->]; [|done]. apply diagnose_grows in H1 as [Hm _]; [|done].
  apply negb_false_iff in Hn', Hw'. subst. split; [by apply metadata_same|]. split; by apply contract_subset_admits.
Qed.

Lemma compare_functions_clean base candidate ds : compare_functions base candidate ds = Ok [] ->
  ds = [] /\ forall f, f ∈ functions (manifest base) -> visibility f = FV_Public -> function_kept base candidate f.
Proof.
  intros [-> H]%try_fold_clean; [|apply compare_function_grows]. split; [done|]. intros f Hf Hv.
  rewrite Forall_forall in H. apply compare_function_clean, H, list_elem_of_filter. done.
Qed.

Section reports.
Context {UL : UlidLib}.

(** A table of the base is still there and its documents still valid. *)
Definition table_kept (next : list DocumentTableContract) (table : DocumentTableContract) : Prop :=
  exists other, other ∈ next /\ dt_id other = dt_id table /\ dt_name other = dt_name table
    /\ admits_less (dt_document_contract table) (dt_document_contract other).

Lemma compare_schema_clean base candidate ds : compare_schema base candidate ds = Ok [] ->
  ds = [] /\ match schema base, schema candidate with
     | Some previous, Some next => Forall (table_kept (ds_tables next)) (ds_tables previous)
     | Some _, None => False
     | None, _ => schema_contract_hash (manifest base) = schema_contract_hash (manifest candidate)
     end.
Proof.
  unfold compare_schema. destruct (schema base) as [previous|], (schema candidate) as [next|].
  - intros [-> H]%try_fold_clean.
    + split; [done|]. eapply Forall_impl; [exact H|]. intros t Ht. unfold compare_table in Ht.
      destruct (collected _ _ _) as [other|] eqn:Eo; [|by apply push_nonempty in Ht].
      apply collected_In in Eo as [Hin Hid]. apply rbind_Ok in Ht as (d1 & H1 & Ht).
      apply rbind_Ok in Ht as (w & Hw & Ht). apply diagnose_grows in Ht as [Hw' ->]; [|done].
      apply diagnose_grows in H1 as [Hn _]; [|done]. apply negb_false_iff in Hw'. subst w.
      apply bool_decide_eq_false, dec_stable in Hn. exists other. split_and!; try done.
      by apply contract_subset_admits.
    + clear. intros ds t ds' Ht ->. unfold compare_table in Ht.
      destruct (collected _ _ _); [|by apply push_nonempty in Ht].
      apply rbind_Ok in Ht as (d1 & H1 & Ht). apply rbind_Ok in Ht as (w & _ & Ht).
      apply diagnose_grows in Ht as [_ ->]; [|done]. by apply diagnose_grows in H1 as [_ ->].
  - by intros H%push_nonempty.
  - intros H. apply diagnose_grows in H as [Hd ->]; [|done]. by apply bool_decide_eq_false, dec_stable in Hd.
  - intros H. apply diagnose_grows in H as [Hd ->]; [|done]. by apply bool_decide_eq_false, dec_stable in Hd.
Qed.

Lemma coexist_table_grows right ds t ds' : coexist_table right ds t = Ok ds' -> ds' = [] -> ds = [].
Proof.
  unfold coexist_table. intros H ->. destruct (collected _ _ _) as [other|]; [|by injection H].
  case_bool_decide; [by apply push_nonempty in H|]. apply rbind_Ok in H as (b & _ & H).
  by apply diagnose_grows in H as [_ ->].
Qed.

Lemma coexist_table_clean right t other : collected dt_id right (dt_id t) = Some other ->
  coexist_table right [] t = Ok [] -> dt_name other = dt_name t
  /\ contracts_can_coexist (dt_document_contract t) (dt_document_contract other) = Ok true.
Proof.
  unfold coexist_table. intros -> H. case_bool_decide as Hn; [by apply push_nonempty in H|].
  apply rbind_Ok in H as (b & Hb & H). apply diagnose_grows in H as [Hb' _]; [|done].
  apply negb_false_iff in Hb'. by subst.
Qed.

Lemma compare_coexistence_clean l r ds : compare_schema_coexistence l r ds = Ok [] ->
  ds = [] /\ match schema l, schema r with
     | Some s, Some s' => Forall (fun t => coexist_table (ds_tables s') [] t = Ok []) (ds_tables s)
     | None, None => True
     | _, _ => False
     end.
Proof.
  unfold compare_schema_coexistence. destruct (schema l), (schema r); try (by intros H%push_nonempty);
    [|by intros [= ->]]. intros [-> H]%try_fold_clean; [done|apply coexist_table_grows].
Qed.
End reports.

(** With one table per identifier, the table found is the only one. *)
Lemma collected_unique {A K} `{EqDecision K} (key : A -> K) l x : NoDup (map key l) -> x ∈ l ->
  collected key l (key x) = Some x.
Proof.
  intros Hnd Hx. unfold collected. destruct (List.find _ _) as [y|] eqn:E.
  - apply (collected_In key l) in E as [Hy Hk]. f_equal.
    apply list_elem_of_lookup in Hx as [i Hi], Hy as [j Hj].
    assert (i = j) as ->; [|congruence]. eapply (NoDup_lookup _ _ _ (key x) Hnd); rewrite list_lookup_fmap.
    + by rewrite Hi.
    + rewrite Hj. cbn. by rewrite Hk.
  - exfalso. eapply find_none in E; [|by apply in_rev; rewrite rev_involutive; apply list_elem_of_In].
    by rewrite bool_decide_true in E.
Qed.

(** ** Properties *)

(** C31: A clean [compare] report is a proof of replacement.  If the candidate is reported compatible, it is
    another Release of the same Project; every public Function of the base exists in it under the same
    name with the same identity, type, visibility, policy, runtime and capabilities, accepts every
    argument its predecessor accepted and returns only results its predecessor could return;
    every table keeps its identifier and name and accepts every document it accepted; and the index catalog
    is unchanged. *)
Theorem compare_sound {UL : UlidLib} base candidate report :
  compare base candidate = Ok report -> compatible report = true ->
  project_id (manifest base) = project_id (manifest candidate)
  /\ release_id (manifest base) <> release_id (manifest candidate)
  /\ (forall f, f ∈ functions (manifest base) -> visibility f = FV_Public -> function_kept base candidate f)
  /\ (forall previous, schema base = Some previous -> exists next, schema candidate = Some next
        /\ Forall (table_kept (ds_tables next)) (ds_tables previous))
  /\ index_contract_hash (manifest base) = index_contract_hash (manifest candidate).
Proof.
  intros H Hc. apply rbind_Ok in H as ([] & Hp & H). apply rbind_Ok in H as (d1 & H1 & H).
  apply rbind_Ok in H as (d2 & H2 & H). apply rbind_Ok in H as (d3 & H3 & [= <-]).
  apply finish_report_clean in Hc. subst d3. apply diagnose_grows in H3 as [Hi ->]; [|done].
  apply compare_schema_clean in H2 as [-> Hs]. apply compare_functions_clean in H1 as [_ Hf].
  unfold validate_pair in Hp. destruct (_ || _) eqn:E; [done|]. apply orb_false_iff in E as [E1 E2].
  apply bool_decide_eq_false, dec_stable in E1, Hi. apply bool_decide_eq_false in E2.
  split_and!; try done. intros previous Hprev. rewrite Hprev in Hs. by destruct (schema candidate); eauto.
Qed.

(** C32: A clean [coexist] report is a proof that two Releases can share an Environment's data.  If they are
    reported compatible, their index catalogs and Cron declarations agree, and a table both declare
    has the same name in both and each document the left Release may write, with which the right
    contract stays within the step budget of validation, is readable by the right one through its own
    view; and conversely, within the left contract's budget, unless the left contract uses unions. *)
Theorem coexist_sound {UL : UlidLib} l r report s s' t t' :
  coexist l r = Ok report -> compatible report = true ->
  schema l = Some s -> schema r = Some s' -> NoDup (map dt_id (ds_tables s')) ->
  t ∈ ds_tables s -> t' ∈ ds_tables s' -> dt_id t' = dt_id t ->
  contract_ok (dt_document_contract t) = true -> contract_ok (dt_document_contract t') = true ->
  index_contract_hash (manifest l) = index_contract_hash (manifest r)
  /\ cron_definitions (manifest l) = cron_definitions (manifest r)
  /\ dt_name t' = dt_name t
  /\ forall v,
     (accepts (dt_document_contract t) v = true -> within_budget (dt_document_contract t') v ->
        exists p, project_value (dt_document_contract t') v = Ok p)
     /\ (union_free (dt_document_contract t) = true ->
         accepts (dt_document_contract t') v = true -> within_budget (dt_document_contract t) v ->
         exists p, project_value (dt_document_contract t) v = Ok p).
Proof.
  intros H Hc Hs Hs' Hnd Ht Ht' Hid Hok Hok'. apply rbind_Ok in H as ([] & _ & H).
  apply rbind_Ok in H as (d1 & H1 & H). apply rbind_Ok in H as (d2 & H2 & H).
  apply rbind_Ok in H as (d3 & H3 & [= <-]). apply finish_report_clean in Hc. subst d3.
  apply diagnose_grows in H3 as [Hcr ->]; [|done]. apply diagnose_grows in H2 as [Hi ->]; [|done].
  apply compare_coexistence_clean in H1 as [_ Hall]. rewrite Hs, Hs', Forall_forall in Hall.
  apply bool_decide_eq_false, dec_stable in Hcr, Hi. pose proof (collected_unique dt_id _ _ Hnd Ht') as Hcol.
  rewrite Hid in Hcol. destruct (coexist_table_clean _ _ _ Hcol (Hall t Ht)) as [Hname Hco].
  split_and!; try done. intros v. apply rbind_Ok in Hco as ([b n] & Hco & [= ->]). split.
  - intros Ha Hb. destruct (project_value_readable (dt_document_contract t') v) as (p & Hp & _); eauto.
    exact (coexisting_reads_left _ _ _ _ _ Hok Hok' Hco Ha).
  - intros Hu Ha Hb. destruct (project_value_readable (dt_document_contract t) v) as (p & Hp & _); eauto.
    exact (coexisting_reads_right _ _ _ _ _ Hok Hok' Hu Hco Ha).
Qed.

(** Two Releases of one Project with a public Query and one table. *)
Definition sample_package (release : Z) (document : Contract) : ReleasePackage :=
  mkReleasePackage
    (mkReleaseManifestV1 (from_ulid release) (from_ulid 2) (from_ulid 3) 0 (mkRuntimeVersion (text "runku-js"))
       (mkArtifactDescriptor AF_SafeEsmBundleV1 sample_digest 1024) sample_digest sample_digest sample_digest
       [sample_function 5 "list" FT_Query FV_Public [CA_DbRead]] [])
    sample_bundle [(sample_digest, narrow_contract)]
    (Some (mkDocumentSchemaV1 1 [mkDocumentTableContract (from_ulid 9) (text "people") document])).

Lemma compare_sound_witness : exists report,
  compare (sample_package 1 narrow_contract) (sample_package 7 wide_contract) = Ok report
  /\ (forall f, f ∈ functions (manifest (sample_package 1 narrow_contract)) -> visibility f = FV_Public ->
      function_kept (sample_package 1 narrow_contract) (sample_package 7 wide_contract) f).
Proof.
  destruct (compare (sample_package 1 narrow_contract) (sample_package 7 wide_contract)) as [report|e] eqn:E;
    [|vm_compute in E; discriminate E].
  exists report. split; [reflexivity|].
  apply (compare_sound (sample_package 1 narrow_contract) (sample_package 7 wide_contract) report E).
  vm_compute in E. injection E as <-. reflexivity.
Defined.

Lemma coexist_sound_witness : exists report,
  coexist (sample_package 1 old_view) (sample_package 7 new_view) = Ok report
  /\ exists p, project_value old_view new_document = Ok p.
Proof.
  destruct (coexist (sample_package 1 old_view) (sample_package 7 new_view)) as [report|e] eqn:E;
    [|vm_compute in E; discriminate E].
  exists report. split; [reflexivity|].
  assert (compatible report = true) as Hc by (vm_compute in E; injection E as <-; reflexivity).
  destruct (coexist_sound (sample_package 1 old_view) (sample_package 7 new_view) report
    (mkDocumentSchemaV1 1 [mkDocumentTableContract (from_ulid 9) (text "people") old_view])
    (mkDocumentSchemaV1 1 [mkDocumentTableContract (from_ulid 9) (text "people") new_view])
    (mkDocumentTableContract (from_ulid 9) (text "people") old_view)
    (mkDocumentTableContract (from_ulid 9) (text "people") new_view) E Hc eq_refl eq_refl)
    as (_ & _ & _ & Hv); [apply NoDup_singleton|by left|by left|reflexivity|reflexivity|reflexivity|].
  apply (Hv new_document); by vm_compute.
Defined.

(** ** Loading *)

Section loading.
Context {UL : UlidLib} {SJ : SerdeJson} (sha256 : bytes -> bytes).




End loading.


(** A JSON codec that knows one contract and the empty schema. *)
#[local] Instance tiny_json : SerdeJson := {
  contract_to_vec c := match c with C_Any => Some (text "any") | _ => None end;
  contract_from_slice b := if bool_decide (b = text "any") then Some C_Any else None;
  schema_to_vec s := match ds_tables s with [] => Some (text "schema") | _ => None end;
  schema_from_slice b := if bool_decide (b = text "schema") then Some (mkDocumentSchemaV1 1 []) else None }.


