(* ===== verification/StoreModel.v ===== *)
(** * Logical records of the store: [crates/runku-data/src/{error,model}.rs]

    The error taxonomy, the records every adapter returns, the outbox consumer names, and the
    bounds of an index scan. *)

From Stdlib Require Import Strings.Byte ZArith Lia.
From stdpp Require Import prelude strings list.
From S2P Require Import Prelude BTreeMap Ulid Value IndexKey Core.

(** ** Errors *)

Inductive StoreError : Type :=
| SE_EmptyBatch
| SE_LimitExceeded
| SE_DuplicateMutation
| SE_InvalidRange
| SE_OperationIdReused
| SE_MutationConflict
| SE_NotFound
| SE_LeaseLost
| SE_OutboxLeaseLost
| SE_ProductionBackendUnsupported
| SE_Busy
| SE_SerializationFailure
| SE_ResultUncertain
| SE_Corruption
| SE_MigrationFailed
| SE_Unavailable
| SE_Internal.

#[export] Instance StoreError_eq_dec : EqDecision StoreError.
Proof. solve_decision. Defined.

Definition StoreError_code (e : StoreError) : bytes :=
  text match e with
  | SE_EmptyBatch => "STORAGE_BATCH_EMPTY"
  | SE_LimitExceeded => "STORAGE_LIMIT_EXCEEDED"
  | SE_DuplicateMutation => "STORAGE_MUTATION_DUPLICATE"
  | SE_InvalidRange => "STORAGE_RANGE_INVALID"
  | SE_OperationIdReused => "OPERATION_ID_REUSED"
  | SE_MutationConflict => "MUTATION_CONFLICT"
  | SE_NotFound => "STORAGE_NOT_FOUND"
  | SE_LeaseLost => "SCHEDULE_LEASE_LOST"
  | SE_OutboxLeaseLost => "OUTBOX_LEASE_LOST"
  | SE_ProductionBackendUnsupported => "STORAGE_BACKEND_PRODUCTION_UNSUPPORTED"
  | SE_Busy => "STORAGE_BUSY"
  | SE_SerializationFailure => "STORAGE_SERIALIZATION_FAILURE"
  | SE_ResultUncertain => "STORAGE_RESULT_UNCERTAIN"
  | SE_Corruption => "STORAGE_CORRUPTION"
  | SE_MigrationFailed => "STORAGE_MIGRATION_FAILED"
  | SE_Unavailable => "STORAGE_UNAVAILABLE"
  | SE_Internal => "STORAGE_INTERNAL_ERROR"
  end.

Definition StoreError_retryable (e : StoreError) : bool :=
  match e with
  | SE_MutationConflict | SE_Busy | SE_SerializationFailure | SE_ResultUncertain
  | SE_OutboxLeaseLost | SE_Unavailable => true
  | _ => false
  end.

(** ** Outbox consumers *)

Record OutboxConsumerName : Type := mkOutboxConsumerName { consumer_str : bytes }.

Definition consumer_char (b : byte) : bool :=
  is_ascii_alphanumeric b || bool_decide (b ∈ [x5f; x2d; x2e]).

Definition OutboxConsumerName_from_str (value : bytes) : result StoreError OutboxConsumerName :=
  match value with
  | [] => Err SE_InvalidRange
  | first :: rest =>
      if (64 <? len value) || negb (is_ascii_alphanumeric first)
         || negb (forallb consumer_char rest)
      then Err SE_InvalidRange else Ok (mkOutboxConsumerName value)
  end.

Record OutboxCursor : Type :=
  mkOutboxCursor { oc_commit_sequence : Z; oc_event_id : OutboxEventId }.

#[export] Instance OutboxCursor_eq_dec : EqDecision OutboxCursor.
Proof. solve_decision. Defined.

(** [derive(Ord)] on the cursor: sequence first, then the identifier. *)
Definition OutboxCursor_cmp (a b : OutboxCursor) : comparison :=
  cmp_then (oc_commit_sequence a ?= oc_commit_sequence b)
           (as_ulid (oc_event_id a) ?= as_ulid (oc_event_id b)).

Record OutboxEventRecord : Type := mkOutboxEventRecord {
  oe_event_id : OutboxEventId;
  oe_commit_sequence : Z;
  oe_payload : CanonicalValue
}.

Definition OutboxEventRecord_cursor (e : OutboxEventRecord) : OutboxCursor :=
  mkOutboxCursor (oe_commit_sequence e) (oe_event_id e).

Record ClaimedOutboxBatch : Type := mkClaimedOutboxBatch {
  co_lease_generation : Z;
  co_acknowledged_through : option OutboxCursor;
  co_events : list OutboxEventRecord
}.

(** ** Documents and index entries *)

Record DocumentRecord : Type := mkDocumentRecord {
  dr_table_id : TableId;
  dr_document_id : DocumentId;
  dr_revision : Z;
  dr_commit_sequence : Z;
  dr_created_at : Z;
  dr_updated_at : Z;
  dr_value : CanonicalValue
}.

Record IndexEntry : Type := mkIndexEntry {
  ie_index_id : IndexId;
  ie_key : IndexKey;
  ie_table_id : TableId;
  ie_document_id : DocumentId;
  ie_document_revision : Z;
  ie_commit_sequence : Z
}.

Inductive KeyBound : Type :=
| KB_Unbounded
| KB_Inclusive (value : bytes)
| KB_Exclusive (value : bytes).

Definition KeyBound_bytes (b : KeyBound) : option bytes :=
  match b with
  | KB_Unbounded => None
  | KB_Inclusive value | KB_Exclusive value => Some value
  end.

Definition is_inclusive (b : KeyBound) : bool :=
  match b with KB_Inclusive _ => true | _ => false end.

Record IndexRange : Type := between { lower : KeyBound; upper : KeyBound }.

Definition IndexRange_all : IndexRange := between KB_Unbounded KB_Unbounded.

Definition IndexRange_prefix (prefix : IndexKeyPrefix) : result StoreError IndexRange :=
  let? upper := map_err (fun _ => SE_InvalidRange) (exclusive_end prefix) in
  Ok (between (KB_Inclusive (inclusive_start prefix)) (KB_Exclusive upper)).

Definition IndexRange_validate (r : IndexRange) (limit : Z) : result StoreError unit :=
  if (limit =? 0) || (1000 <? limit) then Err SE_InvalidRange else
  match KeyBound_bytes (lower r), KeyBound_bytes (upper r) with
  | Some lo, Some hi =>
      if bytes_ltb hi lo
         || (bool_decide (lo = hi) && (negb (is_inclusive (lower r)) || negb (is_inclusive (upper r))))
      then Err SE_InvalidRange else Ok tt
  | _, _ => Ok tt
  end.

(** ** Scheduled invocations *)

Inductive ScheduleStatus : Type :=
| SS_Pending | SS_Running | SS_Succeeded | SS_Failed | SS_Cancelled.

#[export] Instance ScheduleStatus_eq_dec : EqDecision ScheduleStatus.
Proof. solve_decision. Defined.

Record ScheduledInvocationRecord : Type := mkScheduledInvocationRecord {
  si_id : ScheduledInvocationId;
  si_pinned_code : PinnedCode;
  si_function : FunctionName;
  si_args : CanonicalValue;
  si_execute_at : Z;
  si_status : ScheduleStatus;
  si_attempts : Z;
  si_lease_generation : Z;
  si_lease_owner : option WorkerId;
  si_lease_until : option Z;
  si_idempotency_key : option bytes;
  si_last_error_code : option bytes;
  si_commit_sequence : Z
}.

Inductive ScheduleCompletion : Type :=
| SC_Succeeded
| SC_Retry (execute_at : Z) (error_code : bytes)
| SC_Failed (error_code : bytes).

Inductive ScheduleCancelResult : Type :=
| CR_Cancelled | CR_AlreadyCancelled | CR_Running | CR_Terminal.

Record DocumentRevisionResult : Type := mkDocumentRevisionResult {
  rr_table_id : TableId;
  rr_document_id : DocumentId;
  rr_revision : option Z
}.

Record CommitResult : Type := mkCommitResult {
  cr_commit_sequence : Z;
  cr_documents : list DocumentRevisionResult;
  cr_replayed : bool
}.

(** ** What a valid range means *)

Definition above_lower (b : KeyBound) (k : bytes) : bool :=
  match b with
  | KB_Unbounded => true
  | KB_Inclusive lo => bytes_leb lo k
  | KB_Exclusive lo => bytes_ltb lo k
  end.
Definition below_upper (b : KeyBound) (k : bytes) : bool :=
  match b with
  | KB_Unbounded => true
  | KB_Inclusive hi => bytes_leb k hi
  | KB_Exclusive hi => bytes_ltb k hi
  end.
Definition in_bounds (r : IndexRange) (k : bytes) : bool :=
  above_lower (lower r) k && below_upper (upper r) k.

Lemma bytes_leb_refl k : bytes_leb k k = true.
Proof. unfold bytes_leb. by rewrite bytes_cmp_refl. Qed.
Lemma bytes_ltb_leb l k : bytes_ltb l k = true -> bytes_leb l k = true.
Proof. unfold bytes_ltb, bytes_leb. by destruct (bytes_cmp l k). Qed.
Lemma bytes_leb_ltb_cases l k : bytes_leb l k = true -> bytes_ltb l k = true \/ l = k.
Proof.
  unfold bytes_ltb, bytes_leb. destruct (bytes_cmp l k) eqn:E; [|by left|done].
  apply bytes_cmp_eq in E. by right.
Qed.
Lemma bytes_ltb_not_leb l k : bytes_ltb l k = negb (bytes_leb k l).
Proof. unfold bytes_ltb, bytes_leb. rewrite (bytes_cmp_antisym l k). by destruct (bytes_cmp l k). Qed.

Lemma bytes_leb_trans l k m : bytes_leb l k = true -> bytes_leb k m = true -> bytes_leb l m = true.
Proof.
  intros [H1| ->]%bytes_leb_ltb_cases; [|done]. intros [H2| <-]%bytes_leb_ltb_cases.
  - apply bytes_ltb_leb. rewrite bytes_ltb_spec in *. by etransitivity.
  - by apply bytes_ltb_leb.
Qed.

(** A range is only refused when it is useless: with a limit within 1 to 1000, the bounds that
    [IndexRange::validate] rejects select no key at all. *)
Theorem rejected_range_empty r limit k :
  IndexRange_validate r limit = Err SE_InvalidRange -> 1 <= limit <= 1000 -> in_bounds r k = false.
Proof.
  unfold IndexRange_validate, in_bounds. intros H Hl.
  destruct (Z.eqb_spec limit 0); [lia|]. destruct (Z.ltb_spec 1000 limit); [lia|].
  cbn [orb] in H. destruct (above_lower (lower r) k && below_upper (upper r) k) eqn:E; [|done].
  exfalso. bool_facts. destruct r as [lo hi]. cbn [lower upper] in *.
  destruct lo as [|lo|lo], hi as [|hi|hi]; cbn [KeyBound_bytes above_lower below_upper] in *;
    try done; destruct (bytes_ltb hi lo) eqn:E2; cbn [orb] in H;
    try (rewrite bytes_ltb_not_leb in E2; bool_facts;
         assert (bytes_leb lo hi = true) by (eapply bytes_leb_trans; eauto using bytes_ltb_leb);
         congruence);
    case_bool_decide as Heq; try done; subst hi;
    repeat match goal with
      | H : bytes_ltb ?a ?b = true |- _ =>
          pose proof (bytes_ltb_leb _ _ H); rewrite bytes_ltb_not_leb in H; bool_facts
      end; congruence.
Qed.

Lemma rejected_range_empty_witness :
  in_bounds (between (KB_Inclusive [x02]) (KB_Exclusive [x02])) [x02] = false.
Proof.
  apply (rejected_range_empty (between (KB_Inclusive [x02]) (KB_Exclusive [x02])) 10 [x02]);
    [reflexivity|split; discriminate].
Defined.
