(* ===== verification/Batch.v ===== *)
(** * Commit batches: [crates/runku-data/src/batch.rs]

    The declarative unit of work, its validation, and the canonical preimage of the idempotency
    digest.  [Sha256] is a function argument of [digest]: [update] appends to the preimage and
    [finalize] applies the function. *)

From Stdlib Require Import Strings.Byte ZArith Lia.
From stdpp Require Import prelude strings list.
From S2P Require Import Prelude Ulid Value StoredValue IndexKey Core StoreModel.

Definition MAX_INTENT_CONTEXT_BYTES : Z := 1024.

Record CommitLimits : Type := mkCommitLimits {
  limit_reads : Z;
  limit_documents : Z;
  limit_indexes : Z;
  limit_outbox : Z;
  limit_schedules : Z;
  limit_payload_bytes : Z
}.

Definition V1 : CommitLimits :=
  mkCommitLimits 10000 1000 10000 100 100 (8 * 1024 * 1024).

Record DocumentReadAssertion : Type := mkDocumentReadAssertion {
  ra_table_id : TableId;
  ra_document_id : DocumentId;
  ra_observed_revision : option Z
}.

Inductive ExpectedRevision : Type := ER_Absent | ER_Exact (revision : Z).

Inductive DocumentMutation : Type :=
| DM_Upsert (table_id : TableId) (document_id : DocumentId) (expected : ExpectedRevision)
    (value : CanonicalValue)
| DM_Delete (table_id : TableId) (document_id : DocumentId) (expected_revision : Z).

Definition dm_table_id (m : DocumentMutation) : TableId :=
  match m with DM_Upsert t _ _ _ | DM_Delete t _ _ => t end.
Definition dm_document_id (m : DocumentMutation) : DocumentId :=
  match m with DM_Upsert _ d _ _ | DM_Delete _ d _ => d end.

Inductive IndexMutation : Type :=
| IM_Put (index_id : IndexId) (key : IndexKey) (table_id : TableId) (document_id : DocumentId)
    (document_revision : Z)
| IM_Delete (index_id : IndexId) (key : IndexKey) (document_id : DocumentId).

Definition im_identity (m : IndexMutation) : IndexId * bytes * DocumentId :=
  match m with
  | IM_Put index_id key _ document_id _ | IM_Delete index_id key document_id =>
      (index_id, encoded key, document_id)
  end.

Record OutboxAppend : Type := mkOutboxAppend { oa_event_id : OutboxEventId; oa_payload : CanonicalValue }.

Record ScheduledInvocationInsert : Type := mkScheduledInvocationInsert {
  sn_id : ScheduledInvocationId;
  sn_pinned_code : PinnedCode;
  sn_function : FunctionName;
  sn_args : CanonicalValue;
  sn_execute_at : Z;
  sn_idempotency_key : option bytes
}.

Record CommitBatch : Type := mkCommitBatch {
  b_scope : EnvironmentScope;
  b_operation_id : OperationId;
  b_reads : list DocumentReadAssertion;
  b_documents : list DocumentMutation;
  b_indexes : list IndexMutation;
  b_outbox : list OutboxAppend;
  b_schedules : list ScheduledInvocationInsert;
  b_intent_context : option bytes
}.

Definition CommitBatch_new (scope : EnvironmentScope) (operation_id : OperationId) : CommitBatch :=
  mkCommitBatch scope operation_id [] [] [] [] [] None.

Definition push_read (a : DocumentReadAssertion) (b : CommitBatch) : CommitBatch :=
  mkCommitBatch (b_scope b) (b_operation_id b) (b_reads b ++ [a]) (b_documents b) (b_indexes b)
    (b_outbox b) (b_schedules b) (b_intent_context b).
Definition push_document (m : DocumentMutation) (b : CommitBatch) : CommitBatch :=
  mkCommitBatch (b_scope b) (b_operation_id b) (b_reads b) (b_documents b ++ [m]) (b_indexes b)
    (b_outbox b) (b_schedules b) (b_intent_context b).
Definition push_index (m : IndexMutation) (b : CommitBatch) : CommitBatch :=
  mkCommitBatch (b_scope b) (b_operation_id b) (b_reads b) (b_documents b) (b_indexes b ++ [m])
    (b_outbox b) (b_schedules b) (b_intent_context b).
Definition push_outbox (a : OutboxAppend) (b : CommitBatch) : CommitBatch :=
  mkCommitBatch (b_scope b) (b_operation_id b) (b_reads b) (b_documents b) (b_indexes b)
    (b_outbox b ++ [a]) (b_schedules b) (b_intent_context b).
Definition push_schedule (s : ScheduledInvocationInsert) (b : CommitBatch) : CommitBatch :=
  mkCommitBatch (b_scope b) (b_operation_id b) (b_reads b) (b_documents b) (b_indexes b)
    (b_outbox b) (b_schedules b ++ [s]) (b_intent_context b).
Definition set_intent_context (context : bytes) (b : CommitBatch) : CommitBatch :=
  mkCommitBatch (b_scope b) (b_operation_id b) (b_reads b) (b_documents b) (b_indexes b)
    (b_outbox b) (b_schedules b) (Some context).

Section validate.
Context {UL : UlidLib}.

Definition encode_value (value : CanonicalValue) : result StoreError bytes :=
  map_err (fun _ => SE_LimitExceeded) (encode_stored_value value).

Definition add_payload (total amount : Z) : result StoreError Z :=
  ok_or SE_LimitExceeded
    (value ← checked_add usize_max total amount;
     if value <=? limit_payload_bytes V1 then Some value else None).

(** What one entry of each list adds to the payload. *)
Definition document_payload (total : Z) (m : DocumentMutation) : result StoreError Z :=
  match m with
  | DM_Upsert _ _ _ value => let? e := encode_value value in add_payload total (len e)
  | DM_Delete _ _ _ => Ok total
  end.
Definition index_payload (total : Z) (m : IndexMutation) : result StoreError Z :=
  let '(_, key, _) := im_identity m in add_payload total (len key).
Definition outbox_payload (total : Z) (e : OutboxAppend) : result StoreError Z :=
  let? p := encode_value (oa_payload e) in add_payload total (len p).
Definition schedule_payload (total : Z) (s : ScheduledInvocationInsert) : result StoreError Z :=
  let? p := encode_value (sn_args s) in add_payload total (len p).

Definition payload_bytes (b : CommitBatch) : result StoreError Z :=
  let? total := try_fold document_payload 0 (b_documents b) in
  let? total := try_fold index_payload total (b_indexes b) in
  let? total := try_fold outbox_payload total (b_outbox b) in
  try_fold schedule_payload total (b_schedules b).

Definition check_read (seen : list (TableId * DocumentId)) (a : DocumentReadAssertion)
  : result StoreError (list (TableId * DocumentId)) :=
  if bool_decide (ra_observed_revision a = Some 0) then Err SE_MutationConflict
  else ok_or SE_DuplicateMutation (set_insert (ra_table_id a, ra_document_id a) seen).

Definition check_document (seen : list (TableId * DocumentId)) (m : DocumentMutation)
  : result StoreError (list (TableId * DocumentId)) :=
  let? seen := ok_or SE_DuplicateMutation (set_insert (dm_table_id m, dm_document_id m) seen) in
  match m with
  | DM_Upsert _ _ (ER_Exact 0) _ | DM_Delete _ _ 0 => Err SE_MutationConflict
  | _ => Ok seen
  end.

Definition check_index (seen : list (IndexId * bytes * DocumentId)) (m : IndexMutation)
  : result StoreError (list (IndexId * bytes * DocumentId)) :=
  let? seen := ok_or SE_DuplicateMutation (set_insert (im_identity m) seen) in
  match m with
  | IM_Put _ _ _ _ 0 => Err SE_MutationConflict
  | _ => Ok seen
  end.

Definition check_outbox (seen : list OutboxEventId) (e : OutboxAppend)
  : result StoreError (list OutboxEventId) :=
  ok_or SE_DuplicateMutation (set_insert (oa_event_id e) seen).

Definition check_schedule (seen : list ScheduledInvocationId * list bytes)
  (s : ScheduledInvocationInsert) : result StoreError (list ScheduledInvocationId * list bytes) :=
  let? ids := ok_or SE_DuplicateMutation (set_insert (sn_id s) (fst seen)) in
  match sn_idempotency_key s with
  | Some key =>
      if bool_decide (key = []) || (128 <? len key) then Err SE_DuplicateMutation else
      let? keys := ok_or SE_DuplicateMutation (set_insert key (snd seen)) in
      Ok (ids, keys)
  | None => Ok (ids, snd seen)
  end.

Definition validate (b : CommitBatch) : result StoreError unit :=
  if bool_decide (b_documents b = []) && bool_decide (b_indexes b = [])
     && bool_decide (b_outbox b = []) && bool_decide (b_schedules b = [])
  then Err SE_EmptyBatch else
  if (limit_reads V1 <? len (b_reads b)) || (limit_documents V1 <? len (b_documents b))
     || (limit_indexes V1 <? len (b_indexes b)) || (limit_outbox V1 <? len (b_outbox b))
     || (limit_schedules V1 <? len (b_schedules b))
     || match b_intent_context b with
        | Some context => bool_decide (context = []) || (MAX_INTENT_CONTEXT_BYTES <? len context)
        | None => false
        end
  then Err SE_LimitExceeded else
  let? _ := try_fold check_read [] (b_reads b) in
  let? _ := try_fold check_document [] (b_documents b) in
  let? _ := try_fold check_index [] (b_indexes b) in
  let? _ := try_fold check_outbox [] (b_outbox b) in
  let? _ := try_fold check_schedule ([], []) (b_schedules b) in
  let? payload := payload_bytes b in
  if limit_payload_bytes V1 <? payload then Err SE_LimitExceeded else Ok tt.

(** ** The digest preimage *)

Definition hash_count (count : Z) : result StoreError bytes :=
  let? n := ok_or SE_LimitExceeded (try_from_u u32_max count) in Ok (to_be 4 n).
Definition hash_bytes (value : bytes) : result StoreError bytes :=
  let? n := ok_or SE_LimitExceeded (try_from_u u32_max (len value)) in Ok (to_be 4 n ++ value).
Definition hash_text (value : bytes) : result StoreError bytes := hash_bytes value.

Definition hash_expected (expected : ExpectedRevision) : bytes :=
  match expected with
  | ER_Absent => [x00]
  | ER_Exact value => x01 :: to_be 8 value
  end.

Definition hash_read (a : DocumentReadAssertion) : result StoreError bytes :=
  let? t := hash_text (id_to_string (ra_table_id a)) in
  let? d := hash_text (id_to_string (ra_document_id a)) in
  Ok (t ++ d ++ match ra_observed_revision a with
                | Some revision => x01 :: to_be 8 revision
                | None => [x00]
                end).

Definition hash_document (m : DocumentMutation) : result StoreError bytes :=
  match m with
  | DM_Upsert table_id document_id expected value =>
      let? t := hash_text (id_to_string table_id) in
      let? d := hash_text (id_to_string document_id) in
      let? e := encode_value value in
      let? v := hash_bytes e in
      Ok ([x00] ++ t ++ d ++ hash_expected expected ++ v)
  | DM_Delete table_id document_id expected_revision =>
      let? t := hash_text (id_to_string table_id) in
      let? d := hash_text (id_to_string document_id) in
      Ok ([x01] ++ t ++ d ++ to_be 8 expected_revision)
  end.

Definition hash_index (m : IndexMutation) : result StoreError bytes :=
  match m with
  | IM_Put index_id key table_id document_id document_revision =>
      let? i := hash_text (id_to_string index_id) in
      let? k := hash_bytes (encoded key) in
      let? t := hash_text (id_to_string table_id) in
      let? d := hash_text (id_to_string document_id) in
      Ok ([x00] ++ i ++ k ++ t ++ d ++ to_be 8 document_revision)
  | IM_Delete index_id key document_id =>
      let? i := hash_text (id_to_string index_id) in
      let? k := hash_bytes (encoded key) in
      let? d := hash_text (id_to_string document_id) in
      Ok ([x01] ++ i ++ k ++ d)
  end.

Definition hash_outbox (e : OutboxAppend) : result StoreError bytes :=
  let? i := hash_text (id_to_string (oa_event_id e)) in
  let? p := encode_value (oa_payload e) in
  let? p := hash_bytes p in
  Ok (i ++ p).

Definition hash_schedule (s : ScheduledInvocationInsert) : result StoreError bytes :=
  let? i := hash_text (id_to_string (sn_id s)) in
  let? p := hash_text (PinnedCode_to_string (sn_pinned_code s)) in
  let? f := hash_text (function_str (sn_function s)) in
  let? a := encode_value (sn_args s) in
  let? a := hash_bytes a in
  let? k := match sn_idempotency_key s with
            | Some value => let? k := hash_text value in Ok (x01 :: k)
            | None => Ok [x00]
            end in
  Ok (i ++ p ++ f ++ a ++ to_be 8 (cast_unsigned (sn_execute_at s)) ++ k).

Definition hash_list {A} (f : A -> result StoreError bytes) (l : list A) : result StoreError bytes :=
  let? n := hash_count (len l) in
  let? items := try_map f l in
  Ok (n ++ concat items).

Definition digest_preimage (b : CommitBatch) : result StoreError bytes :=
  let? project := hash_text (id_to_string (project_id (b_scope b))) in
  let? environment := hash_text (id_to_string (environment_id (b_scope b))) in
  let? reads := hash_list hash_read (b_reads b) in
  let? documents := hash_list hash_document (b_documents b) in
  let? indexes := hash_list hash_index (b_indexes b) in
  let? outbox := hash_list hash_outbox (b_outbox b) in
  let? schedules := hash_list hash_schedule (b_schedules b) in
  let? context :=
    match b_intent_context b with
    | Some context =>
        let? m := hash_bytes (text "RUNKU_COMMIT_INTENT_CONTEXT_V1") in
        let? c := hash_bytes context in
        Ok (m ++ c)
    | None => Ok []
    end in
  Ok (text "RUNKU_COMMIT_BATCH_V1" ++ project ++ environment ++ reads ++ documents ++ indexes
      ++ outbox ++ schedules ++ context).

Definition digest (sha256 : bytes -> bytes) (b : CommitBatch) : result StoreError bytes :=
  let? _ := validate b in
  let? preimage := digest_preimage b in
  Ok (sha256 preimage).
End validate.

(** ** What [validate] accepts *)

Definition read_key (a : DocumentReadAssertion) : TableId * DocumentId :=
  (ra_table_id a, ra_document_id a).
Definition document_key (m : DocumentMutation) : TableId * DocumentId :=
  (dm_table_id m, dm_document_id m).

(** The revision a mutation expects to find. *)
Definition expected_revision (m : DocumentMutation) : option Z :=
  match m with
  | DM_Upsert _ _ ER_Absent _ => None
  | DM_Upsert _ _ (ER_Exact n) _ | DM_Delete _ _ n => Some n
  end.

(** No assertion or mutation names revision zero. *)
Definition read_positive (a : DocumentReadAssertion) : bool :=
  negb (bool_decide (ra_observed_revision a = Some 0)).
Definition document_positive (m : DocumentMutation) : bool :=
  match m with
  | DM_Upsert _ _ (ER_Exact r) _ | DM_Delete _ _ r => negb (r =? 0)
  | DM_Upsert _ _ ER_Absent _ => true
  end.
Definition index_positive (m : IndexMutation) : bool :=
  match m with IM_Put _ _ _ _ r => negb (r =? 0) | IM_Delete _ _ _ => true end.
Definition idempotency_key_ok (s : ScheduledInvocationInsert) : bool :=
  match sn_idempotency_key s with
  | Some key => negb (bool_decide (key = [])) && (len key <=? 128)
  | None => true
  end.



Lemma check_read_Ok seen a seen' : check_read seen a = Ok seen' <->
  read_positive a = true /\ read_key a ∉ seen /\ seen' = read_key a :: seen.
Proof.
  unfold check_read, read_positive. case_bool_decide; cbn [negb]; [naive_solver|].
  rewrite set_insert_Ok. unfold read_key. naive_solver.
Qed.

Lemma check_document_Ok seen m seen' : check_document seen m = Ok seen' <->
  document_positive m = true /\ document_key m ∉ seen /\ seen' = document_key m :: seen.
Proof.
  unfold check_document. rewrite rbind_Ok. setoid_rewrite set_insert_Ok. unfold document_key.
  destruct m as [t d [|[]] v|t d []]; cbn [document_positive dm_table_id dm_document_id];
    cbn; naive_solver.
Qed.

Lemma check_index_Ok seen m seen' : check_index seen m = Ok seen' <->
  index_positive m = true /\ im_identity m ∉ seen /\ seen' = im_identity m :: seen.
Proof.
  unfold check_index. rewrite rbind_Ok. setoid_rewrite set_insert_Ok.
  destruct m as [i k t d []|i k d]; cbn; naive_solver.
Qed.

Lemma check_outbox_Ok seen e seen' : check_outbox seen e = Ok seen' <->
  true = true /\ oa_event_id e ∉ seen /\ seen' = oa_event_id e :: seen.
Proof. unfold check_outbox. rewrite set_insert_Ok. naive_solver. Qed.

Definition idempotency_keys (l : list ScheduledInvocationInsert) : list bytes :=
  omap sn_idempotency_key l.

Lemma check_schedule_Ok seen s seen' : check_schedule seen s = Ok seen' <->
  idempotency_key_ok s = true /\ sn_id s ∉ fst seen
  /\ (forall k, sn_idempotency_key s = Some k -> k ∉ snd seen)
  /\ seen' = (sn_id s :: fst seen,
              match sn_idempotency_key s with Some k => k :: snd seen | None => snd seen end).
Proof.
  unfold check_schedule, idempotency_key_ok. rewrite rbind_Ok. setoid_rewrite set_insert_Ok.
  destruct (sn_idempotency_key s) as [key|]; [|naive_solver].
  case_bool_decide; cbn [negb orb andb]; [naive_solver|].
  destruct (Z.ltb_spec 128 (len key)), (Z.leb_spec (len key) 128); try lia; [naive_solver|].
  setoid_rewrite rbind_Ok. setoid_rewrite set_insert_Ok. naive_solver.
Qed.

Lemma try_fold_schedules l seen :
  is_ok (try_fold check_schedule seen l) = true <->
  forallb idempotency_key_ok l = true /\ NoDup (map sn_id l) /\ NoDup (idempotency_keys l)
  /\ (forall i, i ∈ fst seen -> i ∉ map sn_id l)
  /\ (forall k, k ∈ snd seen -> k ∉ idempotency_keys l).
Proof.
  revert seen; induction l as [|s l IH]; intros seen; cbn [try_fold map forallb].
  { split; [|done]. intros _. split_and!; [done|constructor|constructor|set_solver|set_solver]. }
  rewrite andb_true_iff, NoDup_cons. unfold idempotency_keys. cbn [omap list_omap].
  destruct (check_schedule seen s) as [seen'|e] eqn:E; cbn [rbind].
  - apply check_schedule_Ok in E as (Hg & Hi & Hk & ->). rewrite IH. cbn [fst snd].
    unfold idempotency_keys. destruct (sn_idempotency_key s) as [k|];
      [rewrite NoDup_cons; specialize (Hk k eq_refl)|]; set_solver.
  - split; [done|]. intros ([Hg _] & _ & _ & Hi & Hk).
    assert (exists s', check_schedule seen s = Ok s') as [s' ?]; [|congruence].
    eexists. apply check_schedule_Ok. split_and!; [done|set_solver| |done].
    intros k Ek. rewrite Ek in Hk. set_solver.
Qed.

Section validate_facts.
Context {UL : UlidLib}.

Lemma encode_value_Ok v e : encode_value v = Ok e <-> encode_stored_value v = Ok e.
Proof. unfold encode_value. apply map_err_Ok. Qed.

Lemma encode_value_storable v :
  storable v = true -> exists e, encode_value v = Ok e /\ len e = 3 + body_size v.
Proof.
  intros Hs. assert (Hs' := Hs). apply andb_true_iff in Hs' as [Hsh Hn%Z.leb_le].
  destruct (encode_body_Ok v 0 Hsh) as (b & Hb & Hl); [lia|].
  exists (stored_header ++ b). rewrite len_app, Hl, encode_value_Ok, encode_stored_value_Ok.
  split; [|done]. eauto.
Qed.

Lemma encode_value_len v e : encode_value v = Ok e -> storable v = true /\ len e = 3 + body_size v.
Proof.
  rewrite encode_value_Ok, encode_stored_value_Ok. intros (Hs & b & Hb & ->). split; [done|].
  by rewrite len_app, (encode_body_len v b Hb).
Qed.

Lemma add_payload_Ok s n t :
  add_payload s n = Ok t <-> t = s + n /\ t <= limit_payload_bytes V1.
Proof.
  unfold add_payload. rewrite ok_or_Ok, bind_Some. setoid_rewrite checked_add_Some. split.
  - intros (x & [-> _] & H). destruct (Z.leb_spec (s + n) (limit_payload_bytes V1)); naive_solver.
  - intros [-> H]. exists (s + n). destruct (Z.leb_spec (s + n) (limit_payload_bytes V1)); [|lia].
    split; [|done]. split; [done|]. unfold usize_max, u64_max. cbn in H. lia.
Qed.

Lemma value_payload_Ok v s t :
  (let? e := encode_value v in add_payload s (len e)) = Ok t <->
  storable v = true /\ t = s + (3 + body_size v) /\ t <= limit_payload_bytes V1.
Proof.
  rewrite rbind_Ok. setoid_rewrite add_payload_Ok. split.
  - intros (e & [Hs Hl]%encode_value_len & -> & Ht). rewrite Hl in *. done.
  - intros (Hs & -> & Ht). destruct (encode_value_storable v Hs) as (e & He & Hl).
    exists e. by rewrite Hl.
Qed.

Definition document_storable (m : DocumentMutation) : bool :=
  match m with DM_Upsert _ _ _ v => storable v | DM_Delete _ _ _ => true end.
Definition document_cost (m : DocumentMutation) : Z :=
  match m with DM_Upsert _ _ _ v => 3 + body_size v | DM_Delete _ _ _ => 0 end.
Definition index_cost (m : IndexMutation) : Z := let '(_, key, _) := im_identity m in len key.

Definition payload_total (b : CommitBatch) : Z :=
  sumZ (map document_cost (b_documents b)) + sumZ (map index_cost (b_indexes b))
  + sumZ (map (fun e => 3 + body_size (oa_payload e)) (b_outbox b))
  + sumZ (map (fun s => 3 + body_size (sn_args s)) (b_schedules b)).

Definition batch_storable (b : CommitBatch) : bool :=
  forallb document_storable (b_documents b)
  && forallb (fun e => storable (oa_payload e)) (b_outbox b)
  && forallb (fun s => storable (sn_args s)) (b_schedules b).

Lemma document_cost_nonneg m : 0 <= document_cost m.
Proof. destruct m as [? ? ? v|]; cbn; [pose proof (body_size_pos v)|]; lia. Qed.
Lemma index_cost_nonneg m : 0 <= index_cost m.
Proof. destruct m; cbn; auto with runku. Qed.
Lemma value_cost_nonneg v : 0 <= 3 + body_size v.
Proof. pose proof (body_size_pos v). lia. Qed.

(** Each of the four payload loops, as a bounded sum. *)
Lemma payload_loops s t : 0 <= s <= limit_payload_bytes V1 ->
  (forall l, try_fold document_payload s l = Ok t <->
     forallb document_storable l = true /\ t = s + sumZ (map document_cost l)
     /\ t <= limit_payload_bytes V1)
  /\ (forall l, try_fold index_payload s l = Ok t <->
     t = s + sumZ (map index_cost l) /\ t <= limit_payload_bytes V1)
  /\ (forall l, try_fold outbox_payload s l = Ok t <->
     forallb (fun e => storable (oa_payload e)) l = true
     /\ t = s + sumZ (map (fun e => 3 + body_size (oa_payload e)) l)
     /\ t <= limit_payload_bytes V1)
  /\ (forall l, try_fold schedule_payload s l = Ok t <->
     forallb (fun x => storable (sn_args x)) l = true
     /\ t = s + sumZ (map (fun x => 3 + body_size (sn_args x)) l)
     /\ t <= limit_payload_bytes V1).
Proof.
  intros Hs. split_and!; intros l.
  - apply try_fold_cost; [|intros; apply document_cost_nonneg|done].
    intros s' [? ? ? v|] t' _ Hs'; cbn [document_payload document_storable document_cost].
    + apply value_payload_Ok.
    + split; [intros [= ->]; split_and!; (done || lia)|intros (_ & -> & _); f_equal; lia].
  - rewrite (try_fold_cost (limit_payload_bytes V1) _ (fun _ => true) index_cost);
      [|intros s' m t' _ _|intros; apply index_cost_nonneg|done].
    + rewrite forallb_forall. naive_solver.
    + unfold index_payload, index_cost. destruct (im_identity m) as [[i k] d].
      rewrite add_payload_Ok. naive_solver.
  - apply try_fold_cost; [|intros; apply value_cost_nonneg|done].
    intros. apply value_payload_Ok.
  - apply try_fold_cost; [|intros; apply value_cost_nonneg|done].
    intros. apply value_payload_Ok.
Qed.

Lemma payload_bytes_Ok b t : payload_bytes b = Ok t <->
  batch_storable b = true /\ t = payload_total b /\ t <= limit_payload_bytes V1.
Proof.
  unfold payload_bytes, batch_storable, payload_total. rewrite !andb_true_iff.
  pose proof (sumZ_map_nonneg document_cost (b_documents b) (fun m _ => document_cost_nonneg m)).
  pose proof (sumZ_map_nonneg index_cost (b_indexes b) (fun m _ => index_cost_nonneg m)).
  pose proof (sumZ_map_nonneg _ (b_outbox b) (fun e _ => value_cost_nonneg (oa_payload e))).
  pose proof (sumZ_map_nonneg _ (b_schedules b) (fun s _ => value_cost_nonneg (sn_args s))).
  split.
  - intros Hp. apply rbind_Ok in Hp as (t1 & P1 & Hp). apply rbind_Ok in Hp as (t2 & P2 & Hp).
    apply rbind_Ok in Hp as (t3 & P3 & P4).
    apply payload_loops in P1 as (? & -> & ?); [|cbn; lia].
    apply payload_loops in P2 as (-> & ?); [|lia].
    apply payload_loops in P3 as (? & -> & ?); [|lia].
    apply payload_loops in P4 as (? & -> & ?); [|lia]. split_and!; (done || lia).
  - intros (((Hd & Ho) & Hs) & -> & Ht).
    apply rbind_Ok. eexists. split; [apply payload_loops; [cbn; lia|];
      split_and!; [done|reflexivity|lia]|].
    apply rbind_Ok. eexists. split; [apply payload_loops; [lia|]; split_and!; [reflexivity|lia]|].
    apply rbind_Ok. eexists. split; [apply payload_loops; [lia|];
      split_and!; [done|reflexivity|lia]|].
    apply payload_loops; [lia|]. split_and!; [done|lia|lia].
Qed.

(** The declarative content of [validate]. *)
Definition intent_context_ok (b : CommitBatch) : Prop :=
  match b_intent_context b with Some c => 1 <= len c <= MAX_INTENT_CONTEXT_BYTES | None => True end.

Record batch_valid (b : CommitBatch) : Prop := {
  bv_nonempty : ~ (b_documents b = [] /\ b_indexes b = [] /\ b_outbox b = [] /\ b_schedules b = []);
  bv_counts : len (b_reads b) <= limit_reads V1 /\ len (b_documents b) <= limit_documents V1
    /\ len (b_indexes b) <= limit_indexes V1 /\ len (b_outbox b) <= limit_outbox V1
    /\ len (b_schedules b) <= limit_schedules V1;
  bv_context : intent_context_ok b;
  bv_reads : NoDup (map read_key (b_reads b)) /\ forallb read_positive (b_reads b) = true;
  bv_documents : NoDup (map document_key (b_documents b))
    /\ forallb document_positive (b_documents b) = true;
  bv_indexes : NoDup (map im_identity (b_indexes b)) /\ forallb index_positive (b_indexes b) = true;
  bv_outbox : NoDup (map oa_event_id (b_outbox b));
  bv_schedules : NoDup (map sn_id (b_schedules b)) /\ NoDup (idempotency_keys (b_schedules b))
    /\ forallb idempotency_key_ok (b_schedules b) = true;
  bv_payload : batch_storable b = true /\ payload_total b <= limit_payload_bytes V1
}.

Lemma rbind_ok_unit {A} (r : result StoreError A) (k : result StoreError unit) :
  (let? _ := r in k) = Ok tt <-> is_ok r = true /\ k = Ok tt.
Proof. rewrite rbind_Ok. destruct r as [a|]; cbn [is_ok]; naive_solver. Qed.

Lemma if_err_Ok (b : bool) (e : StoreError) (r : result StoreError unit) :
  (if b then Err e else r) = Ok tt <-> b = false /\ r = Ok tt.
Proof. destruct b; naive_solver. Qed.

Lemma intent_context_check b :
  match b_intent_context b with
  | Some context => bool_decide (context = []) || (MAX_INTENT_CONTEXT_BYTES <? len context)
  | None => false
  end = false <-> intent_context_ok b.
Proof.
  unfold intent_context_ok. destruct (b_intent_context b) as [c|]; [|done].
  rewrite orb_false_iff, bool_decide_eq_false, Z.ltb_ge.
  destruct c as [|x c]; [split; [by intros [? ?]|rewrite len_nil; lia]|].
  rewrite len_cons. pose proof (len_nonneg c). split; [lia|]. intros. split; [done|lia].
Qed.

Lemma validate_spec b : validate b = Ok tt <-> batch_valid b.
Proof.
  unfold validate. rewrite !if_err_Ok, !rbind_ok_unit.
  rewrite (try_fold_keys check_read read_positive read_key _ _ check_read_Ok).
  rewrite (try_fold_keys check_document document_positive document_key _ _ check_document_Ok).
  rewrite (try_fold_keys check_index index_positive im_identity _ _ check_index_Ok).
  rewrite (try_fold_keys check_outbox (fun _ => true) oa_event_id _ _ check_outbox_Ok).
  rewrite try_fold_schedules, rbind_Ok. setoid_rewrite payload_bytes_Ok.
  rewrite !orb_false_iff, !Z.ltb_ge, intent_context_check, !andb_false_iff, !bool_decide_eq_false.
  split.
  - intros (Hne & (((((? & ?) & ?) & ?) & ?) & ?) & (? & ? & _) & (? & ? & _) & (? & ? & _)
      & (_ & ? & _) & (? & ? & ? & _) & t & (? & -> & ?) & _).
    split; tauto.
  - intros []. split.
    { destruct (decide (b_documents b = [])), (decide (b_indexes b = [])),
        (decide (b_outbox b = [])); tauto. }
    split; [tauto|].
    assert (forallb (fun _ => true) (b_outbox b) = true) by (by apply forallb_forall).
    split_and!; try tauto; try (intros; set_solver).
    exists (payload_total b). split; [tauto|]. apply if_err_Ok. split; [|done].
    apply Z.ltb_ge. tauto.
Qed.
End validate_facts.

(** ** The digest preimage determines the batch *)

#[local] Opaque to_be.

(** [f] is a self-delimiting encoding of the values satisfying [P]. *)
Definition self_delimiting {A} (P : A -> Prop) (f : A -> result StoreError bytes) : Prop :=
  forall x y bx by' r s, P x -> P y -> f x = Ok bx -> f y = Ok by' ->
    bx ++ r = by' ++ s -> x = y /\ r = s.

Lemma to_be_sd n x y r s : 0 <= x < 256 ^ Z.of_nat n -> 0 <= y < 256 ^ Z.of_nat n ->
  to_be n x ++ r = to_be n y ++ s -> x = y /\ r = s.
Proof.
  intros Hx Hy E. apply app_inj_1 in E as [E ->]; [|by rewrite !length_to_be].
  split; [|done]. by eapply to_be_inj.
Qed.

Lemma u64_sd x y r s : is_u64 x = true -> is_u64 y = true ->
  to_be 8 x ++ r = to_be 8 y ++ s -> x = y /\ r = s.
Proof.
  rewrite !is_u64_spec. unfold u64_max. intros Hx Hy.
  apply to_be_sd; change (256 ^ Z.of_nat 8) with (2 ^ 64); lia.
Qed.

Lemma hash_count_sd : self_delimiting (fun _ => True) hash_count.
Proof.
  intros x y bx b r s _ _ Hx Hy. unfold hash_count in *.
  apply rbind_Ok in Hx as (n & [-> Hn]%ok_or_Ok%try_from_u_Some & [= <-]).
  apply rbind_Ok in Hy as (m & [-> Hm]%ok_or_Ok%try_from_u_Some & [= <-]).
  apply to_be_sd; change (256 ^ Z.of_nat 4) with (2 ^ 32); unfold u32_max in *; lia.
Qed.

Lemma hash_bytes_Ok x b : hash_bytes x = Ok b <-> b = to_be 4 (len x) ++ x /\ len x <= u32_max.
Proof.
  unfold hash_bytes. rewrite rbind_Ok. setoid_rewrite ok_or_Ok. setoid_rewrite try_from_u_Some.
  pose proof (len_nonneg x). split.
  - intros (n & [-> Hn] & [= <-]). split; [done|lia].
  - intros [-> Hn]. exists (len x). split; [split; [done|lia]|done].
Qed.

Lemma hash_bytes_sd : self_delimiting (fun _ => True) hash_bytes.
Proof.
  intros x y bx b r s _ _ [-> Hx]%hash_bytes_Ok [-> Hy]%hash_bytes_Ok E.
  rewrite <-!app_assoc in E. pose proof (len_nonneg x). pose proof (len_nonneg y).
  apply to_be_sd in E as [El E]; [|change (256 ^ Z.of_nat 4) with (2 ^ 32); unfold u32_max in *; lia..].
  apply app_inj_1 in E as [-> ->]; [done|]. unfold len in El. lia.
Qed.

Section digest_facts.
Context {UL : UlidLib} {ULL : UlidLaws}.

Lemma hash_id_sd k : self_delimiting id_ok (fun id : ResourceId k => hash_text (id_to_string id)).
Proof.
  intros x y bx b r s Hx Hy Ex Ey E. apply (hash_bytes_sd _ _ _ _ _ _ I I Ex Ey) in E as [E ->].
  split; [|done]. by apply id_to_string_inj.
Qed.

Lemma hash_value_sd : self_delimiting (fun v => value_ok v = true)
  (fun v => let? e := encode_value v in hash_bytes e).
Proof.
  intros x y bx b r s Hx Hy Ex Ey E.
  apply rbind_Ok in Ex as (ex & Ex%encode_value_Ok & Hbx).
  apply rbind_Ok in Ey as (ey & Ey%encode_value_Ok & Hby).
  apply (hash_bytes_sd _ _ _ _ _ _ I I Hbx Hby) in E as [-> ->]. split; [|done].
  apply stored_decode_encode in Ex, Ey; [|done..]. congruence.
Qed.

(** The invariant of an [IndexKey]. *)
Definition key_ok (k : IndexKey) : Prop :=
  forallb iv_ok (components k) = true /\ IndexKey_encode (components k) = Ok k.

Lemma key_ok_inj k l : key_ok k -> key_ok l -> encoded k = encoded l -> k = l.
Proof.
  intros [Hk Ek] [Hl El] E.
  assert (forall m, forallb iv_ok (components m) = true -> IndexKey_encode (components m) = Ok m ->
    decode_components (encoded m) = Ok (components m)) as Hdec.
  { intros m Hm (Em & Hne & Hc & Hs)%IndexKey_encode_Ok. apply decode_components_Ok.
    rewrite Em at 1. cbn [encoded]. done. }
  apply Hdec in Hk; [|done]. apply Hdec in Hl; [|done]. rewrite E in Hk. congruence.
Qed.

Lemma hash_key_sd : self_delimiting key_ok (fun k => hash_bytes (encoded k)).
Proof.
  intros x y bx b r s Hx Hy Ex Ey E. apply (hash_bytes_sd _ _ _ _ _ _ I I Ex Ey) in E as [E ->].
  split; [|done]. by apply key_ok_inj.
Qed.

Lemma hash_list_sd {A} (P : A -> Prop) f : self_delimiting P f ->
  self_delimiting (Forall P) (hash_list f).
Proof.
  intros Hf x y bx b r s Hx Hy Ex Ey E. unfold hash_list in *.
  apply rbind_Ok in Ex as (nx & Hnx & Ex). apply rbind_Ok in Ex as (ix & Hix%try_map_Ok & [= <-]).
  apply rbind_Ok in Ey as (ny & Hny & Ey). apply rbind_Ok in Ey as (iy & Hiy%try_map_Ok & [= <-]).
  rewrite <-!app_assoc in E. apply (hash_count_sd _ _ _ _ _ _ I I Hnx Hny) in E as [El E].
  assert (length x = length y) as Hl by (unfold len in El; lia).
  clear nx ny Hnx Hny El. revert y iy r s Hy Hiy E Hl.
  induction Hix as [|a ba x ix Ha _ IH]; intros [|c y] iy r s Hy Hiy E Hl; try done.
  { inversion Hiy; subst. done. }
  inversion Hiy as [|? bc ? iy' Hc Hiy']; subst. cbn [concat] in E. rewrite <-!app_assoc in E.
  apply Forall_cons in Hx as [? ?]. apply Forall_cons in Hy as [? ?].
  eapply Hf in E as [-> E]; [|done..]. cbn [length] in Hl.
  edestruct IH as [-> ->]; [..|done]; eauto.
Qed.

(** The invariants of the Rust types a batch is made of. *)
Definition read_ok (a : DocumentReadAssertion) : Prop :=
  id_ok (ra_table_id a) /\ id_ok (ra_document_id a)
  /\ (forall r, ra_observed_revision a = Some r -> is_u64 r = true).
Definition expected_ok (e : ExpectedRevision) : Prop :=
  match e with ER_Absent => True | ER_Exact r => is_u64 r = true end.
Definition document_ok (m : DocumentMutation) : Prop :=
  match m with
  | DM_Upsert t d e v => id_ok t /\ id_ok d /\ expected_ok e /\ value_ok v = true
  | DM_Delete t d r => id_ok t /\ id_ok d /\ is_u64 r = true
  end.
Lemma document_ids_ok m : document_ok m -> id_ok (dm_table_id m) /\ id_ok (dm_document_id m).
Proof. destruct m; cbn; tauto. Qed.
Definition index_ok (m : IndexMutation) : Prop :=
  match m with
  | IM_Put i k t d r => id_ok i /\ key_ok k /\ id_ok t /\ id_ok d /\ is_u64 r = true
  | IM_Delete i k d => id_ok i /\ key_ok k /\ id_ok d
  end.
Definition outbox_ok (e : OutboxAppend) : Prop := id_ok (oa_event_id e) /\ value_ok (oa_payload e) = true.
Definition schedule_ok (s : ScheduledInvocationInsert) : Prop :=
  id_ok (sn_id s) /\ pinned_ok (sn_pinned_code s) /\ function_ok (sn_function s) = true
  /\ value_ok (sn_args s) = true /\ is_i64 (sn_execute_at s) = true.
Definition scope_ok (sc : EnvironmentScope) : Prop :=
  id_ok (project_id sc) /\ id_ok (environment_id sc).

Record batch_wf (b : CommitBatch) : Prop := {
  wf_scope : scope_ok (b_scope b);
  wf_operation : id_ok (b_operation_id b);
  wf_reads : Forall read_ok (b_reads b);
  wf_documents : Forall document_ok (b_documents b);
  wf_indexes : Forall index_ok (b_indexes b);
  wf_outbox : Forall outbox_ok (b_outbox b);
  wf_schedules : Forall schedule_ok (b_schedules b)
}.

(** Peels one self-delimiting field off both sides of [E]. *)
Local Ltac peel lem Hx Hy E :=
  rewrite <-?app_assoc in E;
  let E' := fresh "E" in
  edestruct (fun P Q => lem _ _ _ _ _ _ P Q Hx Hy E) as [? E'];
  [assumption || exact I|assumption || exact I|clear E; rename E' into E].

Local Ltac tail_eq E := apply (f_equal (@tl byte)) in E; cbn [tl app] in E.

Lemma hash_read_sd : self_delimiting read_ok hash_read.
Proof.
  intros [t d o] [t' d' o'] bx b r s (?&?&Ho) (?&?&Ho') Hx Hy E. unfold hash_read in *. simpl in *.
  apply rbind_Ok in Hx as (? & Hx1 & Hx). apply rbind_Ok in Hx as (? & Hx2 & [= <-]).
  apply rbind_Ok in Hy as (? & Hy1 & Hy). apply rbind_Ok in Hy as (? & Hy2 & [= <-]).
  peel (hash_id_sd TableK) Hx1 Hy1 E. peel (hash_id_sd DocumentK) Hx2 Hy2 E. subst.
  destruct o as [o|], o' as [o'|]; cbn [app] in E; try discriminate.
  - tail_eq E. apply u64_sd in E as [-> ->]; auto.
  - tail_eq E. by subst.
Qed.

Lemma hash_expected_sd x y r s : expected_ok x -> expected_ok y ->
  hash_expected x ++ r = hash_expected y ++ s -> x = y /\ r = s.
Proof.
  destruct x as [|x], y as [|y]; cbn [expected_ok hash_expected app]; intros Hx Hy E;
    try discriminate.
  - tail_eq E; by subst.
  - tail_eq E. by apply u64_sd in E as [-> ->].
Qed.

Lemma hash_value_join v e b : encode_value v = Ok e -> hash_bytes e = Ok b ->
  (let? e := encode_value v in hash_bytes e) = Ok b.
Proof. by intros ->. Qed.

Lemma hash_document_sd : self_delimiting document_ok hash_document.
Proof.
  intros [t d e v|t d n] [t' d' e' v'|t' d' n'] bx b r s Px Py Hx Hy E; simpl in *;
    destruct_and?;
    apply rbind_Ok in Hx as (? & Hx1 & Hx); apply rbind_Ok in Hx as (? & Hx2 & Hx);
    apply rbind_Ok in Hy as (? & Hy1 & Hy); apply rbind_Ok in Hy as (? & Hy2 & Hy).
  - apply rbind_Ok in Hx as (? & Hx3 & Hx). apply rbind_Ok in Hx as (? & Hx4 & [= <-]).
    apply rbind_Ok in Hy as (? & Hy3 & Hy). apply rbind_Ok in Hy as (? & Hy4 & [= <-]).
    tail_eq E. peel (hash_id_sd TableK) Hx1 Hy1 E. peel (hash_id_sd DocumentK) Hx2 Hy2 E.
    subst. rewrite <-?app_assoc in E. apply hash_expected_sd in E as [-> E]; [|done..].
    peel hash_value_sd (hash_value_join _ _ _ Hx3 Hx4) (hash_value_join _ _ _ Hy3 Hy4) E. by subst.
  - apply rbind_Ok in Hx as (? & Hx3 & Hx). apply rbind_Ok in Hx as (? & Hx4 & [= <-]).
    injection Hy as <-. discriminate.
  - apply rbind_Ok in Hy as (? & Hy3 & Hy). apply rbind_Ok in Hy as (? & Hy4 & [= <-]).
    injection Hx as <-. discriminate.
  - injection Hx as <-. injection Hy as <-. tail_eq E.
    peel (hash_id_sd TableK) Hx1 Hy1 E. peel (hash_id_sd DocumentK) Hx2 Hy2 E. subst.
    by apply u64_sd in E as [-> ->].
Qed.

Lemma hash_index_sd : self_delimiting index_ok hash_index.
Proof.
  intros [i k t d n|i k d] [i' k' t' d' n'|i' k' d'] bx b r s Px Py Hx Hy E; simpl in *;
    destruct_and?;
    apply rbind_Ok in Hx as (? & Hx1 & Hx); apply rbind_Ok in Hx as (? & Hx2 & Hx);
    apply rbind_Ok in Hx as (? & Hx3 & Hx);
    apply rbind_Ok in Hy as (? & Hy1 & Hy); apply rbind_Ok in Hy as (? & Hy2 & Hy);
    apply rbind_Ok in Hy as (? & Hy3 & Hy).
  - apply rbind_Ok in Hx as (? & Hx4 & [= <-]). apply rbind_Ok in Hy as (? & Hy4 & [= <-]).
    tail_eq E. peel (hash_id_sd IndexK) Hx1 Hy1 E. peel hash_key_sd Hx2 Hy2 E.
    peel (hash_id_sd TableK) Hx3 Hy3 E. peel (hash_id_sd DocumentK) Hx4 Hy4 E. subst.
    by apply u64_sd in E as [-> ->].
  - apply rbind_Ok in Hx as (? & Hx4 & [= <-]). injection Hy as <-. discriminate.
  - apply rbind_Ok in Hy as (? & Hy4 & [= <-]). injection Hx as <-. discriminate.
  - injection Hx as <-. injection Hy as <-. tail_eq E.
    peel (hash_id_sd IndexK) Hx1 Hy1 E. peel hash_key_sd Hx2 Hy2 E.
    peel (hash_id_sd DocumentK) Hx3 Hy3 E. by subst.
Qed.

Lemma hash_outbox_sd : self_delimiting outbox_ok hash_outbox.
Proof.
  intros [i v] [i' v'] bx b r s [? ?] [? ?] Hx Hy E. unfold hash_outbox in *. simpl in *.
  apply rbind_Ok in Hx as (? & Hx1 & Hx). apply rbind_Ok in Hx as (? & Hx2 & Hx).
  apply rbind_Ok in Hx as (? & Hx3 & [= <-]).
  apply rbind_Ok in Hy as (? & Hy1 & Hy). apply rbind_Ok in Hy as (? & Hy2 & Hy).
  apply rbind_Ok in Hy as (? & Hy3 & [= <-]).
  peel (hash_id_sd OutboxEventK) Hx1 Hy1 E.
  peel hash_value_sd (hash_value_join _ _ _ Hx2 Hx3) (hash_value_join _ _ _ Hy2 Hy3) E. by subst.
Qed.

Lemma hash_pinned_sd : self_delimiting pinned_ok (fun p => hash_text (PinnedCode_to_string p)).
Proof.
  intros x y bx b r s Hx Hy Ex Ey E. apply (hash_bytes_sd _ _ _ _ _ _ I I Ex Ey) in E as [E ->].
  split; [|done]. assert (PinnedCode_from_str (PinnedCode_to_string x) = Ok x) as Px
    by (by apply PinnedCode_from_str_Ok).
  assert (PinnedCode_from_str (PinnedCode_to_string y) = Ok y) as Py
    by (by apply PinnedCode_from_str_Ok).
  congruence.
Qed.

Definition hash_idempotency (o : option bytes) : result StoreError bytes :=
  match o with
  | Some value => let? k := hash_text value in Ok (x01 :: k)
  | None => Ok [x00]
  end.

Lemma hash_idempotency_sd : self_delimiting (fun _ => True) hash_idempotency.
Proof.
  intros [x|] [y|] bx b r s _ _ Hx Hy E; cbn [hash_idempotency] in *.
  - apply rbind_Ok in Hx as (? & Hx1 & [= <-]). apply rbind_Ok in Hy as (? & Hy1 & [= <-]).
    tail_eq E. peel hash_bytes_sd Hx1 Hy1 E. by subst.
  - apply rbind_Ok in Hx as (? & Hx1 & [= <-]). injection Hy as <-. discriminate.
  - apply rbind_Ok in Hy as (? & Hy1 & [= <-]). injection Hx as <-. discriminate.
  - injection Hx as <-. injection Hy as <-. tail_eq E. by subst.
Qed.

Lemma cast_unsigned_inj x y : is_i64 x = true -> is_i64 y = true ->
  cast_unsigned x = cast_unsigned y -> x = y.
Proof. intros Hx Hy E. by rewrite <-(cast_signed_unsigned x), E, cast_signed_unsigned. Qed.

Lemma hash_schedule_sd : self_delimiting schedule_ok hash_schedule.
Proof.
  intros [i p [f] v at' k] [i' p' [f'] v' at'' k'] bx b r s (?&?&?&?&Ht) (?&?&?&?&Ht') Hx Hy E.
  unfold hash_schedule in *. simpl in *.
  apply rbind_Ok in Hx as (? & Hx1 & Hx). apply rbind_Ok in Hx as (? & Hx2 & Hx).
  apply rbind_Ok in Hx as (? & Hx3 & Hx). apply rbind_Ok in Hx as (? & Hx4 & Hx).
  apply rbind_Ok in Hx as (? & Hx5 & Hx). apply rbind_Ok in Hx as (? & Hx6 & [= <-]).
  apply rbind_Ok in Hy as (? & Hy1 & Hy). apply rbind_Ok in Hy as (? & Hy2 & Hy).
  apply rbind_Ok in Hy as (? & Hy3 & Hy). apply rbind_Ok in Hy as (? & Hy4 & Hy).
  apply rbind_Ok in Hy as (? & Hy5 & Hy). apply rbind_Ok in Hy as (? & Hy6 & [= <-]).
  peel (hash_id_sd ScheduledInvocationK) Hx1 Hy1 E. peel hash_pinned_sd Hx2 Hy2 E.
  peel hash_bytes_sd Hx3 Hy3 E.
  peel hash_value_sd (hash_value_join _ _ _ Hx4 Hx5) (hash_value_join _ _ _ Hy4 Hy5) E.
  rewrite <-?app_assoc in E. apply u64_sd in E as [Et E]; [|auto with runku..].
  apply cast_unsigned_inj in Et; [|done..].
  peel hash_idempotency_sd Hx6 Hy6 E. by subst.
Qed.

(** Everything of a batch but its operation identifier. *)
Definition same_content (a b : CommitBatch) : Prop :=
  b_scope a = b_scope b /\ b_reads a = b_reads b /\ b_documents a = b_documents b
  /\ b_indexes a = b_indexes b /\ b_outbox a = b_outbox b /\ b_schedules a = b_schedules b
  /\ b_intent_context a = b_intent_context b.

Definition hash_context (o : option bytes) : result StoreError bytes :=
  match o with
  | Some context =>
      let? m := hash_bytes (text "RUNKU_COMMIT_INTENT_CONTEXT_V1") in
      let? c := hash_bytes context in
      Ok (m ++ c)
  | None => Ok []
  end.

Lemma hash_context_inj o o' b : hash_context o = Ok b -> hash_context o' = Ok b -> o = o'.
Proof.
  assert (forall m (c : bytes), hash_bytes (text "RUNKU_COMMIT_INTENT_CONTEXT_V1") = Ok m ->
    m ++ c = [] -> False) as Hne.
  { intros m c [-> _]%hash_bytes_Ok E%(f_equal len). rewrite !len_app, len_to_be, len_nil in E.
    pose proof (len_nonneg c).
    pose proof (len_nonneg (text "RUNKU_COMMIT_INTENT_CONTEXT_V1")). lia. }
  destruct o as [x|], o' as [y|]; cbn [hash_context]; intros Hx Hy; [..|done].
  - apply rbind_Ok in Hx as (mx & Hmx & Hx). apply rbind_Ok in Hx as (cx & Hcx & [= <-]).
    apply rbind_Ok in Hy as (my & Hmy & Hy). apply rbind_Ok in Hy as (cy & Hcy & Hy).
    injection Hy as E. peel hash_bytes_sd Hmy Hmx E. rewrite <-(app_nil_r cx), <-(app_nil_r cy) in E.
    peel hash_bytes_sd Hcy Hcx E. by subst.
  - injection Hy as <-. apply rbind_Ok in Hx as (mx & Hmx & Hx).
    apply rbind_Ok in Hx as (cx & Hcx & Hx). injection Hx as E. by apply Hne in E.
  - injection Hx as <-. apply rbind_Ok in Hy as (mx & Hmx & Hy).
    apply rbind_Ok in Hy as (cx & Hcx & Hy). injection Hy as E. by apply Hne in E.
Qed.

Lemma digest_preimage_inj x y p : batch_wf x -> batch_wf y ->
  digest_preimage x = Ok p -> digest_preimage y = Ok p -> same_content x y.
Proof.
  intros [[Hxp Hxe]] [[Hyp Hye]] Hx Hy. unfold digest_preimage in *.
  apply rbind_Ok in Hx as (? & Hx1 & Hx). apply rbind_Ok in Hx as (? & Hx2 & Hx).
  apply rbind_Ok in Hx as (? & Hx3 & Hx). apply rbind_Ok in Hx as (? & Hx4 & Hx).
  apply rbind_Ok in Hx as (? & Hx5 & Hx). apply rbind_Ok in Hx as (? & Hx6 & Hx).
  apply rbind_Ok in Hx as (? & Hx7 & Hx). apply rbind_Ok in Hx as (? & Hx8 & [= <-]).
  apply rbind_Ok in Hy as (? & Hy1 & Hy). apply rbind_Ok in Hy as (? & Hy2 & Hy).
  apply rbind_Ok in Hy as (? & Hy3 & Hy). apply rbind_Ok in Hy as (? & Hy4 & Hy).
  apply rbind_Ok in Hy as (? & Hy5 & Hy). apply rbind_Ok in Hy as (? & Hy6 & Hy).
  apply rbind_Ok in Hy as (? & Hy7 & Hy). apply rbind_Ok in Hy as (? & Hy8 & Hy).
  injection Hy as E. symmetry in E.
  peel (hash_id_sd ProjectK) Hx1 Hy1 E. peel (hash_id_sd EnvironmentK) Hx2 Hy2 E.
  peel (hash_list_sd _ _ hash_read_sd) Hx3 Hy3 E.
  peel (hash_list_sd _ _ hash_document_sd) Hx4 Hy4 E.
  peel (hash_list_sd _ _ hash_index_sd) Hx5 Hy5 E.
  peel (hash_list_sd _ _ hash_outbox_sd) Hx6 Hy6 E.
  peel (hash_list_sd _ _ hash_schedule_sd) Hx7 Hy7 E. subst.
  unfold same_content. split_and!; try done.
  - destruct (b_scope x), (b_scope y). simpl in *. by subst.
  - by eapply hash_context_inj.
Qed.
End digest_facts.

(** ** Properties *)

(** [CommitBatch::validate] accepts a batch exactly when it is non-empty, within every v1 count
    and byte limit, names no revision zero, has no duplicate read, document, index, outbox or
    schedule identity and no duplicate or out-of-range idempotency key, and all its values are
    storable within the aggregate payload limit. *)
Theorem commit_batch_validate {UL : UlidLib} (b : CommitBatch) :
  validate b = Ok tt <-> batch_valid b.
Proof. apply validate_spec. Qed.

(** The idempotency digest binds the whole content of a batch: two batches have the same digest
    if they agree on everything but the operation identifier, and only then unless two distinct
    preimages collide under the hash function. *)
Theorem digest_binds_content {UL : UlidLib} {ULL : UlidLaws} (sha256 : bytes -> bytes)
  (x y : CommitBatch) (d : bytes) :
  batch_wf x -> batch_wf y -> digest sha256 x = Ok d ->
  (same_content x y -> digest sha256 y = Ok d)
  /\ (digest sha256 y = Ok d ->
      same_content x y \/ exists p q, p <> q /\ sha256 p = sha256 q).
Proof.
  intros Wx Wy Hx. split.
  - intros (Hs & Hr & Hd & Hi & Ho & Hc & Hcx). rewrite <-Hx. destruct x, y. simpl in *. by subst.
  - intros Hy. unfold digest in *. apply rbind_Ok in Hx as (_ & _ & Hx).
    apply rbind_Ok in Hx as (p & Hp & [= <-]). apply rbind_Ok in Hy as (_ & _ & Hy).
    apply rbind_Ok in Hy as (q & Hq & Hy). injection Hy as E.
    destruct (decide (p = q)) as [->|Hne]; [left; by eapply digest_preimage_inj|].
    right. exists q, p. naive_solver.
Qed.

Definition sample_scope : EnvironmentScope := mkScope (from_ulid 1) (from_ulid 2).
Definition sample_batch (op : Z) : CommitBatch :=
  push_outbox (mkOutboxAppend (from_ulid 4) (CV_Int64 1))
    (push_document (DM_Upsert (from_ulid 5) (from_ulid 6) ER_Absent (CV_Boolean true))
       (CommitBatch_new sample_scope (from_ulid op))).

Lemma sample_batch_wf op : ulid_range op -> batch_wf (sample_batch op).
Proof.
  intros Hop. split; cbn; repeat (apply List.Forall_cons || apply List.Forall_nil);
    unfold scope_ok, outbox_ok; cbn; unfold id_ok, ulid_range in *; cbn; split_and?; done || lia.
Qed.

Lemma digest_binds_content_witness :
  exists d, digest (fun p => p) (sample_batch 7) = Ok d /\ digest (fun p => p) (sample_batch 8) = Ok d.
Proof.
  destruct (digest (fun p => p) (sample_batch 7)) as [d|] eqn:Hd; [|vm_compute in Hd; discriminate].
  exists d. split; [reflexivity|].
  apply (digest_binds_content (fun p => p) (sample_batch 7) (sample_batch 8) d);
    [apply sample_batch_wf; split; reflexivity || discriminate
    |apply sample_batch_wf; split; reflexivity || discriminate|exact Hd|].
  repeat split.
Defined.
