(* ===== verification/Execution.v ===== *)
(** * Function execution: errors, requests and the store interface

    The error enums and request types of runku-runtime/src/{error,data,scheduling}.rs and the public
    error of runku-execution/src/mutation.rs; and [LogicalStore], what the execution coordinators use
    of a store.  Its laws describe a store by what its documents and index entries look like to a
    reader, independently of how an adapter stores them; the coordinators' theorems are proved from
    the laws. *)

From Stdlib Require Import Strings.Byte ZArith Lia.
From stdpp Require Import prelude strings list gmap.
From S2P Require Import Prelude Order Ulid Value StoredValue IndexKey Core Schema StoreModel Batch.

(** ** Errors *)

Inductive RuntimeError : Type :=
| RT_InvalidConfiguration | RT_InvalidInvocation | RT_InvalidArguments | RT_UnsupportedRuntime
| RT_InvalidArtifact | RT_FunctionNotFound | RT_Busy | RT_Unavailable | RT_DeadlineExceeded
| RT_Cancelled | RT_HeapLimitExceeded | RT_JavaScript | RT_InvalidResult | RT_Internal.

Definition RuntimeError_code (e : RuntimeError) : bytes :=
  text match e with
  | RT_InvalidConfiguration => "RUNTIME_CONFIGURATION_INVALID"
  | RT_InvalidInvocation => "RUNTIME_INVOCATION_INVALID"
  | RT_InvalidArguments => "RUNTIME_ARGUMENTS_INVALID"
  | RT_UnsupportedRuntime => "RUNTIME_VERSION_UNSUPPORTED"
  | RT_InvalidArtifact => "RUNTIME_ARTIFACT_INVALID"
  | RT_FunctionNotFound => "RUNTIME_FUNCTION_NOT_FOUND"
  | RT_Busy => "RUNTIME_BUSY"
  | RT_Unavailable => "RUNTIME_UNAVAILABLE"
  | RT_DeadlineExceeded => "RUNTIME_DEADLINE_EXCEEDED"
  | RT_Cancelled => "RUNTIME_CANCELLED"
  | RT_HeapLimitExceeded => "RUNTIME_HEAP_LIMIT_EXCEEDED"
  | RT_JavaScript => "RUNTIME_JAVASCRIPT_ERROR"
  | RT_InvalidResult => "RUNTIME_RESULT_INVALID"
  | RT_Internal => "RUNTIME_INTERNAL_ERROR"
  end.
Definition RuntimeError_retryable (e : RuntimeError) : bool :=
  match e with RT_Busy | RT_Unavailable => true | _ => false end.

Inductive DataReadError : Type :=
| DE_InvalidRequest | DE_Unavailable | DE_Storage | DE_Timeout | DE_Cancelled | DE_LimitExceeded.

Definition DataReadError_code (e : DataReadError) : bytes :=
  text match e with
  | DE_InvalidRequest => "DATA_READ_INVALID"
  | DE_Unavailable => "DATA_READ_UNAVAILABLE"
  | DE_Storage => "DATA_READ_STORAGE_FAILED"
  | DE_Timeout => "DATA_READ_TIMEOUT"
  | DE_Cancelled => "DATA_READ_CANCELLED"
  | DE_LimitExceeded => "DATA_READ_LIMIT_EXCEEDED"
  end.

Inductive ScheduleError : Type :=
| SH_InvalidRequest | SH_LimitExceeded | SH_Storage | SH_Unavailable | SH_Timeout
| SH_ResultUncertain | SH_Cancelled.

Definition ScheduleError_code (e : ScheduleError) : bytes :=
  text match e with
  | SH_InvalidRequest => "SCHEDULE_REQUEST_INVALID"
  | SH_LimitExceeded => "SCHEDULE_LIMIT_EXCEEDED"
  | SH_Storage => "SCHEDULE_STORAGE_FAILED"
  | SH_Unavailable => "SCHEDULE_UNAVAILABLE"
  | SH_Timeout => "SCHEDULE_TIMEOUT"
  | SH_ResultUncertain => "SCHEDULE_RESULT_UNCERTAIN"
  | SH_Cancelled => "SCHEDULE_CANCELLED"
  end.

Inductive MutationExecutionError : Type :=
| ME_Runtime (e : RuntimeError)
| ME_Storage (e : StoreError)
| ME_Data (e : DataReadError)
| ME_Schema (e : SchemaError)
| ME_Schedule (e : ScheduleError).

Definition MutationExecutionError_code (e : MutationExecutionError) : bytes :=
  match e with
  | ME_Runtime e => RuntimeError_code e
  | ME_Storage e => StoreError_code e
  | ME_Data e => DataReadError_code e
  | ME_Schema e => SchemaError_code e
  | ME_Schedule e => ScheduleError_code e
  end.

(** [SchemaError::retryable] is constantly false. *)
Definition MutationExecutionError_retryable (e : MutationExecutionError) : bool :=
  match e with
  | ME_Runtime e => RuntimeError_retryable e
  | ME_Storage e => StoreError_retryable e
  | ME_Data DE_Unavailable | ME_Data DE_Timeout => true
  | ME_Data _ => false
  | ME_Schema _ => false
  | ME_Schedule SH_Unavailable | ME_Schedule SH_Storage | ME_Schedule SH_Timeout
  | ME_Schedule SH_ResultUncertain => true
  | ME_Schedule _ => false
  end.

(** ** Requests and answers *)

Inductive ScheduleTime : Type := ST_AfterMicros (delay : Z) | ST_At (timestamp : Z).

Record ScheduleRequest : Type := mkScheduleRequest {
  sq_function : FunctionName;
  sq_arguments : CanonicalValue;
  sq_time : ScheduleTime;
  sq_idempotency_key : option bytes
}.

Record DataDocument : Type := mkDataDocument {
  dd_table_id : TableId;
  dd_document_id : DocumentId;
  dd_revision : Z;
  dd_commit_sequence : Z;
  dd_created_at : Z;
  dd_updated_at : Z;
  dd_value : CanonicalValue
}.

#[export] Instance DataDocument_eq_dec : EqDecision DataDocument.
Proof. solve_decision. Defined.

Definition data_document (r : DocumentRecord) : DataDocument :=
  mkDataDocument (dr_table_id r) (dr_document_id r) (dr_revision r) (dr_commit_sequence r)
    (dr_created_at r) (dr_updated_at r) (dr_value r).

(** Range requests and their answers. *)
Inductive DataBoundKind : Type := BK_Inclusive | BK_Exclusive.

Record DataKeyBound : Type := mkDataKeyBound { kb_kind : DataBoundKind; kb_key : bytes }.

Record DataScanRequest : Type := mkDataScanRequest {
  sr_index_id : IndexId;
  sr_lower : option DataKeyBound;
  sr_upper : option DataKeyBound;
  sr_limit : Z
}.

Record DataIndexEntry : Type := mkDataIndexEntry {
  di_index_id : IndexId;
  di_key : bytes;
  di_table_id : TableId;
  di_document_id : DocumentId;
  di_document_revision : Z;
  di_commit_sequence : Z
}.

Definition data_index_entry (e : IndexEntry) : DataIndexEntry :=
  mkDataIndexEntry (ie_index_id e) (encoded (ie_key e)) (ie_table_id e) (ie_document_id e)
    (ie_document_revision e) (ie_commit_sequence e).

(** ** Stores *)

(** The identity of a document, ordered as [BTreeMap<(TableId, DocumentId), _>] orders it. *)
Definition doc_key : Type := TableId * DocumentId.
Definition doc_key_cmp : doc_key -> doc_key -> comparison :=
  cmp_lex (cmp_on (fun k => as_ulid (fst k)) Z.compare) (cmp_on (fun k => as_ulid (snd k)) Z.compare).

(** The operations of the [LogicalStore] and [ReadSnapshot] traits the coordinators use.  [Weather] is
    what decides how a commit's transaction ends. *)
Class LogicalStore (Store Snapshot Weather : Type) := {
  ls_begin_read : EnvironmentScope -> Store -> result StoreError Snapshot;
  ls_commit_sequence : Snapshot -> Z;
  ls_get_document : Snapshot -> TableId -> DocumentId -> result StoreError (option DocumentRecord);
  ls_scan_index : Snapshot -> IndexId -> IndexRange -> Z -> result StoreError (list IndexEntry);
  ls_commit : Weather -> CommitBatch -> Store -> result StoreError CommitResult * Store
}.

(** ** What a store promises *)

Definition doc_key_ok (k : doc_key) : Prop := id_ok (fst k) /\ id_ok (snd k).

(** A store as its readers see it: the documents and index entries of each Environment, and the
    operations that have been recorded. *)
Record StoreView (Store : Type) : Type := mkStoreView {
  store_ok : Store -> Prop;
  document : Store -> EnvironmentScope -> doc_key -> option DocumentRecord;
  entry : Store -> EnvironmentScope -> IndexId -> bytes -> DocumentId -> option (TableId * Z);
  recorded : Store -> EnvironmentScope -> OperationId -> Prop
}.
Arguments store_ok {Store} _ _.
Arguments document {Store} _ _ _ _.
Arguments entry {Store} _ _ _ _ _ _.
Arguments recorded {Store} _ _ _ _.

Section laws.
Context {Store : Type} (V : StoreView Store).

(** A batch takes effect: it was not recorded before, every read assertion and expected revision is
    current, documents and index entries change as the batch says, and nothing else changes. *)
Record applied (b : CommitBatch) (st st' : Store) : Prop := {
  ap_new : ~ recorded V st (b_scope b) (b_operation_id b);
  ap_recorded : recorded V st' (b_scope b) (b_operation_id b);
  ap_reads a : a ∈ b_reads b ->
    dr_revision <$> document V st (b_scope b) (read_key a) = ra_observed_revision a;
  ap_expected m : m ∈ b_documents b ->
    dr_revision <$> document V st (b_scope b) (document_key m) = expected_revision m;
  ap_upsert t d e v : DM_Upsert t d e v ∈ b_documents b ->
    exists r, document V st' (b_scope b) (t, d) = Some r /\ dr_value r = v
      /\ dr_revision r = default 0 (expected_revision (DM_Upsert t d e v)) + 1;
  ap_delete t d n : DM_Delete t d n ∈ b_documents b -> document V st' (b_scope b) (t, d) = None;
  ap_documents_frame k : doc_key_ok k -> k ∉ map document_key (b_documents b) ->
    document V st' (b_scope b) k = document V st (b_scope b) k;
  ap_put i k t d n : IM_Put i k t d n ∈ b_indexes b ->
    entry V st' (b_scope b) i (encoded k) d = Some (t, n);
  ap_remove i k d : IM_Delete i k d ∈ b_indexes b -> entry V st' (b_scope b) i (encoded k) d = None;
  ap_entries_frame i k d : id_ok i -> id_ok d -> (i, k, d) ∉ map im_identity (b_indexes b) ->
    entry V st' (b_scope b) i k d = entry V st (b_scope b) i k d
}.

(** How a commit can end: it is answered from the journal, takes effect, is refused, or takes effect
    without the caller being told.  A recorded operation is never refused as a conflict. *)
Inductive commit_effect (b : CommitBatch) (st : Store) : result StoreError CommitResult -> Store -> Prop :=
| effect_replayed res : cr_replayed res = true -> recorded V st (b_scope b) (b_operation_id b) ->
    commit_effect b st (Ok res) st
| effect_applied res st' : cr_replayed res = false -> applied b st st' -> commit_effect b st (Ok res) st'
| effect_refused e : (recorded V st (b_scope b) (b_operation_id b) -> e <> SE_MutationConflict) ->
    commit_effect b st (Err e) st
| effect_uncertain st' : applied b st st' -> commit_effect b st (Err SE_ResultUncertain) st'.
End laws.

Class StoreLaws {UL : UlidLib} {Store Snapshot Weather} {LS : LogicalStore Store Snapshot Weather} (V : StoreView Store)
  : Prop := {
  law_begin sc st : store_ok V st -> scope_ok sc -> exists s, ls_begin_read sc st = Ok s;
  law_get sc st s k : store_ok V st -> scope_ok sc -> doc_key_ok k -> ls_begin_read sc st = Ok s ->
    ls_get_document s (fst k) (snd k) = Ok (document V st sc k);
  law_record sc st s k r : store_ok V st -> scope_ok sc -> doc_key_ok k -> ls_begin_read sc st = Ok s ->
    document V st sc k = Some r ->
    (dr_table_id r, dr_document_id r) = k /\ 0 < dr_revision r <= i64_max
    /\ dr_commit_sequence r <= ls_commit_sequence s /\ value_ok (dr_value r) = true;
  law_commit w b st : store_ok V st -> batch_wf b -> batch_valid b ->
    store_ok V (snd (ls_commit w b st))
    /\ commit_effect V b st (fst (ls_commit w b st)) (snd (ls_commit w b st))
}.
