(* ===== verification/Mutation.v ===== *)
(** * Mutations: [crates/runku-execution/src/mutation.rs]

    The buffered session a Mutation's handler works against, the planning of index changes, the
    commit batch and its retries, and the execution loop.

    The handler is application code: here it is the tree of the calls it makes on the session and of
    what it does with the answers.  Nested Queries and Mutations work on the same session, so their
    calls are part of the tree.  What the environment does to each awaited call (cancellation, a
    deadline, a driver error) is an argument. *)

From Stdlib Require Import Strings.Byte ZArith Lia.
From stdpp Require Import prelude strings list gmap.
From S2P Require Import Prelude Order Ulid Value StoredValue IndexKey Core Schema Release Manifest Bundle StoreModel.
From S2P Require Import Batch Execution.

Definition MAX_ATTEMPTS : Z := 3.
Definition MAX_DOCUMENT_READS : Z := 10000.
Definition MAX_DOCUMENT_WRITES : Z := 1000.
Definition MAX_SCHEDULES : Z := 100.
Definition MAX_SCHEDULE_DELAY_MICROS : Z := 10 * 365 * 24 * 60 * 60 * 1000000.

(** ** Session state *)

Inductive SessionFailure : Type :=
| SF_Store (e : StoreError) | SF_Data (e : DataReadError) | SF_Schedule (e : ScheduleError).

Definition SessionFailure_public (f : SessionFailure) : MutationExecutionError :=
  match f with SF_Store e => ME_Storage e | SF_Data e => ME_Data e | SF_Schedule e => ME_Schedule e end.

Record MutationState (Snapshot : Type) : Type := mkMutationState {
  ms_snapshot : option Snapshot;
  ms_reads : gmap doc_key (option DataDocument);
  ms_writes : gmap doc_key DocumentMutation;
  ms_schedules : list ScheduledInvocationInsert;
  ms_schedule_keys : gset bytes;
  ms_failure : option SessionFailure;
  ms_closed : bool
}.
Arguments mkMutationState {Snapshot} _ _ _ _ _ _ _.
Arguments ms_snapshot {Snapshot} _.
Arguments ms_reads {Snapshot} _.
Arguments ms_writes {Snapshot} _.
Arguments ms_schedules {Snapshot} _.
Arguments ms_schedule_keys {Snapshot} _.
Arguments ms_failure {Snapshot} _.
Arguments ms_closed {Snapshot} _.

(** The immutable part of [MutationSession]. *)
Record MutationSession : Type := mkMutationSession {
  sn_scope : EnvironmentScope;
  sn_operation_id : OperationId;
  sn_schedule_base : Z;
  sn_session_code : PinnedCode;
  sn_allowed_schedules : list FunctionName
}.

Inductive BufferedRead : Type := BR_NotBuffered | BR_Missing | BR_Document (d : DataDocument).

Record BufferedMutation : Type := mkBufferedMutation {
  bm_reads : list DocumentReadAssertion;
  bm_old_values : gmap doc_key (option CanonicalValue);
  bm_writes : list DocumentMutation;
  bm_schedules : list ScheduledInvocationInsert
}.

(** Iteration over a [BTreeMap<(TableId, DocumentId), V>]. *)
Definition doc_entries {V} (m : gmap doc_key V) : list (doc_key * V) :=
  order_by (cmp_on fst doc_key_cmp) (map_to_list m).

(** What happens to an awaited store call, and to one raced against cancellation. *)
Inductive Wait : Type := W_Ready | W_Failed (e : StoreError) | W_Timeout.
Inductive Race : Type := R_Waited (w : Wait) | R_Cancelled.

(** ** Time and identifiers of schedules *)

Definition schedule_time (base : Z) (requested : ScheduleTime) : result ScheduleError Z :=
  let? maximum_delay := ok_or SH_LimitExceeded
    (try_from_u i64_max MAX_SCHEDULE_DELAY_MICROS) in
  let? maximum := ok_or SH_LimitExceeded (checked_i64 (base + maximum_delay)) in
  match requested with
  | ST_AfterMicros delay =>
      if MAX_SCHEDULE_DELAY_MICROS <? delay then Err SH_LimitExceeded else
      let? delay := ok_or SH_LimitExceeded (try_from_u i64_max delay) in
      ok_or SH_LimitExceeded (checked_i64 (base + delay))
  | ST_At timestamp => if timestamp <=? maximum then Ok timestamp else Err SH_LimitExceeded
  end.

Section mutation.
Context {UL : UlidLib}.
Variable sha256 : bytes -> bytes.

Definition schedule_preimage (operation_id : OperationId) (ordinal : Z) : bytes :=
  text "RUNKU_MUTATION_SCHEDULE_V1" ++ id_to_string operation_id ++ to_be 8 ordinal.
Definition derived_schedule_id (operation_id : OperationId) (ordinal : Z) : ScheduledInvocationId :=
  from_ulid (from_be (take 16 (sha256 (schedule_preimage operation_id ordinal)))).

(** [Ulid::timestamp_ms] is an argument. *)
Definition operation_time_micros (timestamp_ms : Z -> Z) (operation_id : OperationId)
  : result MutationExecutionError Z :=
  ok_or (ME_Storage SE_Internal)
    (value ← checked_mul u64_max (timestamp_ms (as_ulid operation_id)) 1000;
     try_from_u i64_max value).

(** ** Session operations *)

Section session.
Context {Store Snapshot Weather : Type} {LS : LogicalStore Store Snapshot Weather}.
Abbreviation state := (MutationState Snapshot).

Definition initial_state : state := mkMutationState None ∅ ∅ [] ∅ None false.

Definition set_snapshot (s : option Snapshot) (st : state) : state :=
  mkMutationState s (ms_reads st) (ms_writes st) (ms_schedules st) (ms_schedule_keys st) (ms_failure st)
    (ms_closed st).
Definition set_reads (r : gmap doc_key (option DataDocument)) (st : state) : state :=
  mkMutationState (ms_snapshot st) r (ms_writes st) (ms_schedules st) (ms_schedule_keys st)
    (ms_failure st) (ms_closed st).
Definition set_writes (w : gmap doc_key DocumentMutation) (st : state) : state :=
  mkMutationState (ms_snapshot st) (ms_reads st) w (ms_schedules st) (ms_schedule_keys st)
    (ms_failure st) (ms_closed st).
Definition set_failure (f : SessionFailure) (st : state) : state :=
  mkMutationState (ms_snapshot st) (ms_reads st) (ms_writes st) (ms_schedules st)
    (ms_schedule_keys st) (Some f) (ms_closed st).

(** [state.closed || state.failure.is_some()] *)
Definition unusable (st : state) : bool :=
  ms_closed st || match ms_failure st with Some _ => true | None => false end.

Definition encode_mutation_value (m : DocumentMutation) : bool :=
  match m with DM_Upsert _ _ _ value => is_ok (encode_stored_value value) | DM_Delete _ _ _ => true end.

Definition buffer (m : DocumentMutation) (st : state) : result DataReadError unit * state :=
  if unusable st then (Err DE_Unavailable, st) else
  if (MAX_DOCUMENT_WRITES <=? Z.of_nat (size (ms_writes st))) || negb (encode_mutation_value m) then
    (Err DE_LimitExceeded, set_failure (SF_Data DE_LimitExceeded) st) else
  match ms_writes st !! document_key m with
  | Some _ => (Err DE_InvalidRequest, set_failure (SF_Data DE_InvalidRequest) st)
  | None => (Ok tt, set_writes (<[document_key m := m]> (ms_writes st)) st)
  end.

Definition data_insert (t : TableId) (d : DocumentId) (value : CanonicalValue) (st : state)
  : result DataReadError unit * state := buffer (DM_Upsert t d ER_Absent value) st.

Definition data_replace (t : TableId) (d : DocumentId) (expected_revision : Z) (value : CanonicalValue)
  (st : state) : result DataReadError unit * state :=
  if (expected_revision =? 0) || (expected_revision =? u64_max)
  then (Err DE_InvalidRequest, set_failure (SF_Data DE_InvalidRequest) st)
  else buffer (DM_Upsert t d (ER_Exact expected_revision) value) st.

Definition data_delete (t : TableId) (d : DocumentId) (expected_revision : Z) (st : state)
  : result DataReadError unit * state :=
  if expected_revision =? 0
  then (Err DE_InvalidRequest, set_failure (SF_Data DE_InvalidRequest) st)
  else buffer (DM_Delete t d expected_revision) st.

Definition latch_schedule_error {A} (e : ScheduleError) (st : state) : result ScheduleError A * state :=
  (Err e, set_failure (SF_Schedule e) st).

(** The schedule a request asks for, numbered by its position in the session. *)
Definition planned_schedule (self : MutationSession) (request : ScheduleRequest) (execute_at ordinal : Z)
  : ScheduledInvocationInsert :=
  mkScheduledInvocationInsert (derived_schedule_id (sn_operation_id self) ordinal)
    (sn_session_code self) (sq_function request) (sq_arguments request) execute_at
    (sq_idempotency_key request).

Definition key_rejected (key : option bytes) (used : gset bytes) : bool :=
  match key with
  | Some key => bool_decide (key = []) || (128 <? len key) || bool_decide (key ∈ used)
  | None => false
  end.

Definition schedule_create (self : MutationSession) (cancelled expired : bool) (request : ScheduleRequest)
  (st : state) : result ScheduleError ScheduledInvocationId * state :=
  if cancelled then latch_schedule_error SH_Cancelled st else
  if expired then latch_schedule_error SH_Timeout st else
  if negb (bool_decide (sq_function request ∈ sn_allowed_schedules self))
     || negb (is_ok (encode_stored_value (sq_arguments request)))
  then latch_schedule_error SH_InvalidRequest st else
  match schedule_time (sn_schedule_base self) (sq_time request) with
  | Err e => latch_schedule_error e st
  | Ok execute_at =>
      if unusable st then (Err SH_Unavailable, st) else
      if MAX_SCHEDULES <=? len (ms_schedules st) then latch_schedule_error SH_LimitExceeded st else
      if key_rejected (sq_idempotency_key request) (ms_schedule_keys st)
      then latch_schedule_error SH_InvalidRequest st else
      let s := planned_schedule self request execute_at (len (ms_schedules st)) in
      (Ok (sn_id s),
       mkMutationState (ms_snapshot st) (ms_reads st) (ms_writes st) (ms_schedules st ++ [s])
         (match sq_idempotency_key request with
          | Some key => {[key]} ∪ ms_schedule_keys st | None => ms_schedule_keys st end)
         (ms_failure st) (ms_closed st))
  end.

Definition buffered_read (self : MutationSession) (k : doc_key) (st : state)
  : result DataReadError BufferedRead :=
  match ms_writes st !! k with
  | None => Ok BR_NotBuffered
  | Some (DM_Delete _ _ _) => Ok BR_Missing
  | Some (DM_Upsert _ _ expected value) =>
      let? revision :=
        match expected with
        | ER_Absent => Ok 1
        | ER_Exact revision => ok_or DE_LimitExceeded (checked_add u64_max revision 1)
        end in
      Ok (BR_Document (mkDataDocument (fst k) (snd k) revision 0 (sn_schedule_base self)
            (sn_schedule_base self) value))
  end.

(** The checks on a record returned by the store. *)
Definition record_corrupt (k : doc_key) (sequence : Z) (r : DocumentRecord) : bool :=
  negb (bool_decide (dr_table_id r = fst k)) || negb (bool_decide (dr_document_id r = snd k))
  || (dr_revision r =? 0) || (sequence <? dr_commit_sequence r) || (dr_updated_at r <? dr_created_at r).
Definition answer_corrupt (k : doc_key) (sequence : Z) (o : option DocumentRecord) : bool :=
  match o with Some r => record_corrupt k sequence r | None => false end.

(** The rest of [get] once a snapshot is open. *)
Definition get_from (snapshot : Snapshot) (read : Race) (k : doc_key) (st : state)
  : result DataReadError (option DataDocument) * state :=
  match read with
  | R_Cancelled => (Err DE_Cancelled, set_failure (SF_Data DE_Cancelled) st)
  | R_Waited W_Timeout => (Err DE_Timeout, set_failure (SF_Data DE_Timeout) st)
  | R_Waited (W_Failed e) => (Err DE_Storage, set_failure (SF_Store e) st)
  | R_Waited W_Ready =>
      match ls_get_document snapshot (fst k) (snd k) with
      | Err e => (Err DE_Storage, set_failure (SF_Store e) st)
      | Ok result =>
          if answer_corrupt k (ls_commit_sequence snapshot) result
          then (Err DE_Storage, set_failure (SF_Store SE_Corruption) st) else
          let observed := data_document <$> result in
          if bool_decide (ms_reads st !! k = None)
             && (MAX_DOCUMENT_READS <=? Z.of_nat (size (ms_reads st)))
          then (Err DE_LimitExceeded, set_failure (SF_Data DE_LimitExceeded) st) else
          let st' := set_reads (<[k := observed]> (ms_reads st)) st in
          match ms_reads st !! k with
          | Some prior =>
              if bool_decide (prior = observed) then (Ok observed, st')
              else (Err DE_Storage, set_failure (SF_Store SE_Corruption) st')
          | None => (Ok observed, st')
          end
      end
  end.

Definition data_get (self : MutationSession) (store : Store) (begin read : Race) (k : doc_key) (st : state)
  : result DataReadError (option DataDocument) * state :=
  if unusable st then (Err DE_Unavailable, st) else
  match buffered_read self k st with
  | Err e => (Err e, st)
  | Ok BR_Missing => (Ok None, st)
  | Ok (BR_Document d) => (Ok (Some d), st)
  | Ok BR_NotBuffered =>
      match ms_snapshot st with
      | Some s => get_from s read k st
      | None =>
          match begin with
          | R_Cancelled => (Err DE_Cancelled, set_failure (SF_Data DE_Cancelled) st)
          | R_Waited W_Timeout => (Err DE_Timeout, set_failure (SF_Data DE_Timeout) st)
          | R_Waited (W_Failed e) => (Err DE_Storage, set_failure (SF_Store e) st)
          | R_Waited W_Ready =>
              match ls_begin_read (sn_scope self) store with
              | Err e => (Err DE_Storage, set_failure (SF_Store e) st)
              | Ok s => get_from s read k (set_snapshot (Some s) st)
              end
          end
      end
  end.

(** A Mutation cannot scan an index. *)
Definition data_scan (st : state) : result DataReadError (list DataIndexEntry) * state := (Err DE_InvalidRequest, st).

(** ** Closing a session *)

(** The writes whose base document the index planner needs and the handler has not read. *)
Definition needs_base (st : state) (e : doc_key * DocumentMutation) : bool :=
  match snd e with
  | DM_Upsert _ _ (ER_Exact _) _ | DM_Delete _ _ _ => bool_decide (ms_reads st !! fst e = None)
  | DM_Upsert _ _ ER_Absent _ => false
  end.

Fixpoint load_bases (snapshot : Snapshot) (waits : nat -> Wait) (keys : list doc_key) (st : state)
  : result SessionFailure unit * state :=
  match keys with
  | [] => (Ok tt, st)
  | k :: keys =>
      match waits 0%nat with
      | W_Timeout => (Err (SF_Data DE_Timeout), st)
      | W_Failed e => (Err (SF_Store e), st)
      | W_Ready =>
          match ls_get_document snapshot (fst k) (snd k) with
          | Err e => (Err (SF_Store e), st)
          | Ok record =>
              if answer_corrupt k (ls_commit_sequence snapshot) record
              then (Err (SF_Store SE_Corruption), st)
              else load_bases snapshot (fun n => waits (S n)) keys
                     (set_reads (<[k := data_document <$> record]> (ms_reads st)) st)
          end
      end
  end.

Definition load_write_bases (self : MutationSession) (store : Store) (waits : nat -> Wait) (st : state)
  : result SessionFailure unit * state :=
  if unusable st then (Ok tt, st) else
  match map fst (List.filter (needs_base st) (doc_entries (ms_writes st))) with
  | [] => (Ok tt, st)
  | keys =>
      match ms_snapshot st with
      | Some s => load_bases s (fun n => waits (S n)) keys st
      | None =>
          match waits 0%nat with
          | W_Timeout => (Err (SF_Data DE_Timeout), st)
          | W_Failed e => (Err (SF_Store e), st)
          | W_Ready =>
              match ls_begin_read (sn_scope self) store with
              | Err e => (Err (SF_Store e), st)
              | Ok s => load_bases s (fun n => waits (S n)) keys (set_snapshot (Some s) st)
              end
          end
      end
  end.

Definition read_assertion (e : doc_key * option DataDocument) : DocumentReadAssertion :=
  mkDocumentReadAssertion (fst (fst e)) (snd (fst e)) (dd_revision <$> snd e).

(** What [finish] takes out of the state. *)
Definition buffered_of (st : state) : BufferedMutation :=
  mkBufferedMutation (map read_assertion (doc_entries (ms_reads st)))
    ((fun o : option DataDocument => dd_value <$> o) <$> ms_reads st) (map snd (doc_entries (ms_writes st))) (ms_schedules st).

Definition finish (self : MutationSession) (store : Store) (waits : nat -> Wait) (close : Wait) (st : state)
  : result SessionFailure BufferedMutation * state :=
  let '(preload, st) := load_write_bases self store waits st in
  let failure :=
    match ms_failure st, preload with
    | Some f, _ => Some f
    | None, Err f => Some f
    | None, Ok _ => None
    end in
  let outcome := match failure with Some f => Err f | None => Ok (buffered_of st) end in
  (match ms_snapshot st, close with
   | Some _, W_Timeout => Err (SF_Data DE_Timeout)
   | Some _, W_Failed e => Err (SF_Store e)
   | Some _, W_Ready => outcome
   | None, _ => outcome
   end, mkMutationState None ∅ ∅ [] (ms_schedule_keys st) failure true).

(** ** Handlers *)

Inductive Handler : Type :=
| H_Return (r : result RuntimeError CanonicalValue)
| H_Get (k : doc_key) (next : result DataReadError (option DataDocument) -> Handler)
| H_Scan (next : result DataReadError (list DataIndexEntry) -> Handler)
| H_Insert (t : TableId) (d : DocumentId) (v : CanonicalValue)
    (next : result DataReadError unit -> Handler)
| H_Replace (t : TableId) (d : DocumentId) (revision : Z) (v : CanonicalValue)
    (next : result DataReadError unit -> Handler)
| H_Delete (t : TableId) (d : DocumentId) (revision : Z) (next : result DataReadError unit -> Handler)
| H_Schedule (request : ScheduleRequest)
    (next : result ScheduleError ScheduledInvocationId -> Handler).

(** What the environment does to one call of the handler. *)
Record Faults : Type := mkFaults {
  f_begin : Race;
  f_read : Race;
  f_cancelled : bool;
  f_expired : bool
}.
Definition no_faults : Faults := mkFaults (R_Waited W_Ready) (R_Waited W_Ready) false false.

Fixpoint run (self : MutationSession) (store : Store) (faults : nat -> Faults) (h : Handler) (st : state)
  : result RuntimeError CanonicalValue * state :=
  let later := fun n => faults (S n) in
  match h with
  | H_Return r => (r, st)
  | H_Get k next =>
      let '(a, st) := data_get self store (f_begin (faults 0%nat)) (f_read (faults 0%nat)) k st in
      run self store later (next a) st
  | H_Scan next => let '(a, st) := data_scan st in run self store later (next a) st
  | H_Insert t d v next => let '(a, st) := data_insert t d v st in run self store later (next a) st
  | H_Replace t d n v next =>
      let '(a, st) := data_replace t d n v st in run self store later (next a) st
  | H_Delete t d n next => let '(a, st) := data_delete t d n st in run self store later (next a) st
  | H_Schedule request next =>
      let '(a, st) := schedule_create self (f_cancelled (faults 0%nat)) (f_expired (faults 0%nat))
                        request st in
      run self store later (next a) st
  end.
End session.

(** ** Index planning *)

Definition new_version (m : DocumentMutation) : result MutationExecutionError (option CanonicalValue * Z) :=
  match m with
  | DM_Upsert _ _ ER_Absent value => Ok (Some value, 1)
  | DM_Upsert _ _ (ER_Exact revision) value =>
      let? next := ok_or (ME_Storage SE_LimitExceeded) (checked_add u64_max revision 1) in
      Ok (Some value, next)
  | DM_Delete _ _ _ => Ok (None, 0)
  end.

(** [value.map(|value| extract_index_key(definition, value)).transpose()?.flatten()] *)
Definition key_of (definition : IndexDefinition) (value : option CanonicalValue)
  : result MutationExecutionError (option IndexKey) :=
  match value with
  | None => Ok None
  | Some value => map_err ME_Schema (extract_index_key definition value)
  end.

Definition entry_changes (m : DocumentMutation) (revision : Z) (definition : IndexDefinition)
  (old_key new_key : option IndexKey) : list IndexMutation :=
  match old_key with
  | Some k => if bool_decide (new_key <> Some k)
              then [IM_Delete (def_index_id definition) k (dm_document_id m)] else []
  | None => []
  end ++
  match new_key with
  | Some k => [IM_Put (def_index_id definition) k (dm_table_id m) (dm_document_id m) revision]
  | None => []
  end.

Definition plan_definition (m : DocumentMutation) (old_value new_value : option CanonicalValue)
  (revision : Z) (definition : IndexDefinition) : result MutationExecutionError (list IndexMutation) :=
  let? old_key := key_of definition old_value in
  let? new_key := key_of definition new_value in
  Ok (entry_changes m revision definition old_key new_key).

Definition plan_mutation (schema : SchemaCatalog) (old_values : gmap doc_key (option CanonicalValue))
  (m : DocumentMutation) : result MutationExecutionError (list IndexMutation) :=
  let old_value := mjoin (old_values !! document_key m) in
  let? (new_value, revision) := new_version m in
  let? changes := try_map (plan_definition m old_value new_value revision)
                    (indexes_for_table schema (dm_table_id m)) in
  Ok (concat changes).

Definition plan_document_index_mutations (schema : SchemaCatalog) (writes : list DocumentMutation)
  (old_values : gmap doc_key (option CanonicalValue)) : result MutationExecutionError (list IndexMutation) :=
  let? changes := try_map (plan_mutation schema old_values) writes in
  Ok (concat changes).

Definition plan_indexes (schema : SchemaCatalog) (buffered : BufferedMutation)
  : result MutationExecutionError (list IndexMutation) :=
  plan_document_index_mutations schema (bm_writes buffered) (bm_old_values buffered).

(** ** The batch *)

Definition text_value (s : bytes) : CanonicalValue := CV_String s.

Definition write_impact (m : DocumentMutation) : CanonicalValue :=
  let kind :=
    match m with
    | DM_Upsert _ _ ER_Absent _ => text "insert"
    | DM_Upsert _ _ (ER_Exact _) _ => text "replace"
    | DM_Delete _ _ _ => text "delete"
    end in
  CV_Object [(text "documentId", text_value (id_to_string (dm_document_id m)));
             (text "kind", text_value kind);
             (text "tableId", text_value (id_to_string (dm_table_id m)))].

Definition index_impact (m : IndexMutation) : CanonicalValue :=
  let '(kind, index_id, key, document_id) :=
    match m with
    | IM_Put index_id key _ document_id _ => (text "put", index_id, key, document_id)
    | IM_Delete index_id key document_id => (text "delete", index_id, key, document_id)
    end in
  CV_Object [(text "documentId", text_value (id_to_string document_id));
             (text "indexId", text_value (id_to_string index_id));
             (text "key", CV_Bytes (encoded key));
             (text "kind", text_value kind)].

Definition document_write_set_payload (documents : list DocumentMutation) (indexes : list IndexMutation)
  : CanonicalValue :=
  CV_Object [(text "indexes", CV_Array (map index_impact indexes));
             (text "type", text_value (text "document_write_set_v2"));
             (text "writes", CV_Array (map write_impact documents))].

Definition push_all {A} (push : A -> CommitBatch -> CommitBatch) (l : list A) (b : CommitBatch) : CommitBatch :=
  fold_left (fun b x => push x b) l b.

Definition mutation_batch (scope : EnvironmentScope) (operation_id : OperationId) (event_id : OutboxEventId)
  (reads : list DocumentReadAssertion) (documents : list DocumentMutation) (indexes : list IndexMutation)
  (schedules : list ScheduledInvocationInsert) : result MutationExecutionError CommitBatch :=
  let payload := document_write_set_payload documents indexes in
  let batch := push_all push_read reads (CommitBatch_new scope operation_id) in
  let batch := push_all push_document documents batch in
  let batch := push_all push_index indexes batch in
  let batch := if bool_decide (documents = []) then batch
               else push_outbox (mkOutboxAppend event_id payload) batch in
  let batch := push_all push_schedule schedules batch in
  let? _ := map_err ME_Storage (validate batch) in
  Ok batch.

(** ** Commit with exact retries, and the execution loop *)

Record MutationOutcome : Type := mkMutationOutcome {
  mo_value : CanonicalValue;
  mo_commit_sequence : option Z;
  mo_replayed : bool;
  mo_attempts : Z
}.
Definition outcome (value : CanonicalValue) (r : CommitResult) (attempts : Z) : MutationOutcome :=
  mkMutationOutcome value (Some (cr_commit_sequence r)) (cr_replayed r) attempts.

Definition transient (e : StoreError) : bool :=
  match e with SE_Busy | SE_SerializationFailure | SE_ResultUncertain | SE_Unavailable => true | _ => false end.

(** The capabilities handed to the runtime with a request. *)
Record Grants : Type := mkGrants {
  g_read : bool;
  g_write : bool;
  g_schedule : bool;
  g_functions : bool
}.

Definition has_capability (c : Capability) (f : FunctionManifest) : bool := bool_decide (c ∈ capabilities f).

(** The checks [with_data], [with_mutation_data] and their likes make again (the request's Function
    has the type and declares the capability) hold for the selected Function, which was found by
    its identifier in the request's own manifest. *)
Definition attach_mutation_capabilities (selected : FunctionManifest) : result RuntimeError Grants :=
  let functions := has_capability CA_FunctionQuery selected || has_capability CA_FunctionMutation selected in
  match function_type selected with
  | FT_Query => Ok (mkGrants (has_capability CA_DbRead selected) false false functions)
  | FT_Mutation =>
      Ok (mkGrants (has_capability CA_DbWrite selected || has_capability CA_DbRead selected)
            (has_capability CA_DbWrite selected) (has_capability CA_SchedulerCreate selected) functions)
  | FT_Action => Err RT_InvalidInvocation
  end.

(** What the coordinator uses of an [InvocationRequest]. *)
Record InvocationRequest : Type := mkInvocationRequest {
  rq_scope : EnvironmentScope;
  rq_pinned_code : PinnedCode;
  rq_function_id : FunctionId;
  rq_manifest : ReleaseManifestV1;
  rq_artifact_bytes : bytes
}.

Definition allowed_schedules (m : ReleaseManifestV1) : list FunctionName :=
  map fn_name (List.filter (fun f => bool_decide (visibility f = FV_Internal)
    && match function_type f with FT_Mutation | FT_Action => true | FT_Query => false end) (functions m)).

Section execute.
Context {Store Snapshot Weather : Type} {LS : LogicalStore Store Snapshot Weather}.

(** Everything outside the coordinator: what other clients do to the store before the snapshot of an
    attempt and before each commit call, how transactions end, and what happens to awaited calls. *)
Record World : Type := mkWorld {
  wd_faults : Z -> nat -> Faults;
  wd_load : Z -> nat -> Wait;
  wd_close : Z -> Wait;
  wd_before_read : Z -> Store -> Store;
  wd_before_commit : Z -> Z -> Store -> Store;
  wd_weather : Z -> Z -> Weather
}.

(** The calls of [commit_exact] from [retry] on, [fuel] of them. *)
Fixpoint commit_retries (before : Z -> Store -> Store) (weather : Z -> Weather) (b : CommitBatch)
  (fuel : nat) (retry : Z) (last : StoreError) (store : Store) : result StoreError CommitResult * Store :=
  match fuel with
  | O => (Err last, store)
  | S fuel =>
      match ls_commit (weather retry) b (before retry store) with
      | (Ok r, store) => (Ok r, store)
      | (Err e, store) =>
          if transient e && (retry + 1 <? MAX_ATTEMPTS)
          then commit_retries before weather b fuel (retry + 1) e store
          else (Err e, store)
      end
  end.

Definition commit_exact (before : Z -> Store -> Store) (weather : Z -> Weather) (b : CommitBatch)
  (store : Store) : result StoreError CommitResult * Store :=
  commit_retries before weather b (Z.to_nat MAX_ATTEMPTS) 0 SE_Internal store.

(** One attempt up to its batch: the handler's value, and the batch unless nothing was buffered. *)
Definition attempt_batch (self : MutationSession) (schema : option SchemaCatalog) (handler : Handler)
  (faults : nat -> Faults) (load : nat -> Wait) (close : Wait) (store : Store)
  : result MutationExecutionError (CanonicalValue * option CommitBatch) :=
  let '(runtime_result, st) := run self store faults handler initial_state in
  let? buffered := map_err SessionFailure_public (fst (finish self store load close st)) in
  let? value := map_err ME_Runtime runtime_result in
  if bool_decide (bm_writes buffered = []) && bool_decide (bm_schedules buffered = [])
  then Ok (value, None) else
  let? indexes := match schema with Some schema => plan_indexes schema buffered | None => Ok [] end in
  let? batch := mutation_batch (sn_scope self) (sn_operation_id self)
                  (from_ulid (as_ulid (sn_operation_id self)))
                  (bm_reads buffered) (bm_writes buffered) indexes (bm_schedules buffered) in
  Ok (value, Some batch).

(** The attempts from [attempt] on, [fuel] of them. *)
Fixpoint attempts (self : MutationSession) (schema : option SchemaCatalog) (grants : Grants)
  (invoke : Grants -> Z -> Handler) (wd : World) (fuel : nat) (attempt : Z) (store : Store)
  : result MutationExecutionError MutationOutcome * Store :=
  match fuel with
  | O => (Err (ME_Storage SE_MutationConflict), store)
  | S fuel =>
      let store := wd_before_read wd attempt store in
      match attempt_batch self schema (invoke grants attempt) (wd_faults wd attempt) (wd_load wd attempt)
              (wd_close wd attempt) store with
      | Err e => (Err e, store)
      | Ok (value, None) => (Ok (mkMutationOutcome value None false attempt), store)
      | Ok (value, Some batch) =>
          match commit_exact (wd_before_commit wd attempt) (wd_weather wd attempt) batch store with
          | (Ok r, store) => (Ok (outcome value r attempt), store)
          | (Err SE_MutationConflict, store) =>
              if attempt <? MAX_ATTEMPTS
              then attempts self schema grants invoke wd fuel (attempt + 1) store
              else (Err (ME_Storage SE_MutationConflict), store)
          | (Err e, store) => (Err (ME_Storage e), store)
          end
      end
  end.

(** The catalog the executor plans with: the attached one, or the one in the Release's bundle. *)
Definition active_schema (attached : option SchemaCatalog) (request : InvocationRequest)
  : result MutationExecutionError (option SchemaCatalog) :=
  let manifest := rq_manifest request in
  let? schema :=
    match attached with
    | Some schema => Ok (Some schema)
    | None =>
        if bool_decide (runtime_str (runtime_version manifest) ∈ contract_runtimes) then
          let? bundle := map_err (fun _ => ME_Schema CE_InvalidCatalog)
                           (decode_safe_esm_bundle sha256 (rq_artifact_bytes request)) in
          let? resource := ok_or (ME_Schema CE_InvalidCatalog) (resource bundle (index_contract_hash manifest)) in
          let? schema := map_err ME_Schema (decode_schema_catalog sha256 resource) in
          Ok (Some schema)
        else Ok None
    end in
  match schema with
  | Some s =>
      if bool_decide (cat_project_id s <> Core.project_id (rq_scope request))
         || bool_decide (cat_digest s <> index_contract_hash manifest)
      then Err (ME_Schema CE_InvalidCatalog) else Ok schema
  | None => Ok None
  end.

(** What [execute_inner] settles before the first attempt: the session's constants, the catalog and
    the capabilities.  The source attaches the capabilities in every attempt, with the same result. *)
Definition prepare (timestamp_ms : Z -> Z) (attached : option SchemaCatalog) (request : InvocationRequest)
  (operation_id : OperationId) : result MutationExecutionError (MutationSession * option SchemaCatalog * Grants) :=
  let? schema := active_schema attached request in
  let? schedule_base := operation_time_micros timestamp_ms operation_id in
  let? selected := ok_or (ME_Runtime RT_InvalidInvocation)
    (List.find (fun f => bool_decide (fn_id f = rq_function_id request)) (functions (rq_manifest request))) in
  let? _ := if bool_decide (function_type selected <> FT_Mutation)
            then Err (ME_Runtime RT_InvalidInvocation) else Ok tt in
  let? grants := map_err ME_Runtime (attach_mutation_capabilities selected) in
  Ok (mkMutationSession (rq_scope request) operation_id schedule_base (rq_pinned_code request)
        (allowed_schedules (rq_manifest request)), schema, grants).

Definition execute_inner (timestamp_ms : Z -> Z) (attached : option SchemaCatalog)
  (invoke : Grants -> Z -> Handler) (wd : World) (request : InvocationRequest) (operation_id : OperationId)
  (store : Store) : result MutationExecutionError MutationOutcome * Store :=
  match prepare timestamp_ms attached request operation_id with
  | Err e => (Err e, store)
  | Ok (self, schema, grants) => attempts self schema grants invoke wd (Z.to_nat MAX_ATTEMPTS) 1 store
  end.
End execute.
End mutation.
