(* ===== verification/MutationSession.v ===== *)
(** * Mutation sessions: what a handler sees and what it leaves

    The invariant of a session's state, that a failure once latched is never forgotten, and the
    simulation behind optimistic concurrency: a run that ended without failure is repeated, call by
    call, on any store that shows the same documents for the keys it read. *)

From Stdlib Require Import Strings.Byte ZArith Lia.
From stdpp Require Import prelude strings list gmap sorting.
From S2P Require Import Prelude Order Ulid Value StoredValue IndexKey Core Schema Release Manifest Bundle StoreModel.
From S2P Require Import Batch Execution Mutation.

(** ** Iteration *)

Lemma elem_of_doc_entries {A} (m : gmap doc_key A) k (v : A) : (k, v) ∈ doc_entries m <-> m !! k = Some v.
Proof. unfold doc_entries. rewrite elem_of_order_by, elem_of_map_to_list. done. Qed.

Lemma NoDup_doc_keys {A} (m : gmap doc_key A) : NoDup (map fst (doc_entries m)).
Proof.
  unfold doc_entries. rewrite order_by_perm. exact (NoDup_fst_map_to_list m).
Qed.

(** ** Handlers with well-typed requests *)

Definition request_ok (q : ScheduleRequest) : Prop :=
  function_ok (sq_function q) = true /\ value_ok (sq_arguments q) = true
  /\ match sq_time q with ST_AfterMicros n => 0 <= n | ST_At t => is_i64 t = true end.

(** A document as the runtime hands it to the handler, and a schedule identifier. *)
Definition answer_ok (a : result DataReadError (option DataDocument)) : Prop :=
  forall d, a = Ok (Some d) -> is_u64 (dd_revision d) = true /\ value_ok (dd_value d) = true.
Definition scheduled_ok (a : result ScheduleError ScheduledInvocationId) : Prop :=
  forall i, a = Ok i -> id_ok i.

(** A handler that makes well-typed requests as long as it gets well-typed answers. *)
Fixpoint handler_ok (h : Handler) : Prop :=
  match h with
  | H_Return _ => True
  | H_Get k next => doc_key_ok k /\ forall a, answer_ok a -> handler_ok (next a)
  | H_Scan next => forall a, handler_ok (next a)
  | H_Insert t d v next => document_ok (DM_Upsert t d ER_Absent v) /\ forall a, handler_ok (next a)
  | H_Replace t d n v next => document_ok (DM_Upsert t d (ER_Exact n) v) /\ forall a, handler_ok (next a)
  | H_Delete t d n next => document_ok (DM_Delete t d n) /\ forall a, handler_ok (next a)
  | H_Schedule q next => request_ok q /\ forall a, scheduled_ok a -> handler_ok (next a)
  end.

Definition session_ok (self : MutationSession) : Prop :=
  scope_ok (sn_scope self) /\ id_ok (sn_operation_id self) /\ pinned_ok (sn_session_code self)
  /\ is_i64 (sn_schedule_base self) = true.

Section session.
Context {UL : UlidLib} {Store Snapshot Weather : Type} {LS : LogicalStore Store Snapshot Weather}.
Variable (sha256 : bytes -> bytes) (V : StoreView Store).
Context {SL : StoreLaws V}.
Variable (self : MutationSession).
Hypothesis (self_ok : session_ok self).
Abbreviation scope := (sn_scope self).

(** The session's view of a document in a store. *)
Definition observed (store : Store) (k : doc_key) : option DataDocument :=
  data_document <$> document V store scope k.

(** ** The invariant of a session's state *)

Record state_ok (store : Store) (st : MutationState Snapshot) : Prop := {
  so_snapshot s : ms_snapshot st = Some s -> ls_begin_read scope store = Ok s;
  so_reads k o : ms_reads st !! k = Some o -> doc_key_ok k /\ o = observed store k;
  so_writes k m : ms_writes st !! k = Some m -> k = document_key m /\ document_ok m;
  so_schedules : Forall schedule_ok (ms_schedules st)
}.

Lemma initial_state_ok store : state_ok store initial_state.
Proof.
  split; cbn; [done|intros k o H; by rewrite lookup_empty in H|intros k m H; by rewrite lookup_empty in H|].
  constructor.
Qed.

Lemma set_failure_ok store f st : state_ok store st -> state_ok store (set_failure f st).
Proof. intros []; by split. Qed.

Lemma set_snapshot_ok store s st : ls_begin_read scope store = Ok s -> state_ok store st ->
  state_ok store (set_snapshot (Some s) st).
Proof. intros Hs []; split; [|done..]. by intros s' [= <-]. Qed.

Lemma set_reads_ok store k st : doc_key_ok k -> state_ok store st ->
  state_ok store (set_reads (<[k := observed store k]> (ms_reads st)) st).
Proof.
  intros Hk []. split; cbn; [done| |done..]. intros k' o [[<- <-]|[Hne H]]%lookup_insert_Some; [done|auto].
Qed.

Lemma buffer_ok store m st : document_ok m -> state_ok store st -> state_ok store (snd (buffer m st)).
Proof.
  intros Hm Hst. unfold buffer. destruct (unusable st); [done|].
  destruct (_ || _); [by apply set_failure_ok|]. destruct (ms_writes st !! _) eqn:El; [by apply set_failure_ok|].
  destruct Hst. split; cbn; [done|done| |done]. intros k' m' [[<- <-]|[Hne H]]%lookup_insert_Some; auto.
Qed.

(** ** The store answers *)

Section answers.
Variables (store : Store) (s : Snapshot).
Hypotheses (store_wf : store_ok V store) (Hs : ls_begin_read scope store = Ok s).

Lemma answer_document k : doc_key_ok k -> ls_get_document s (fst k) (snd k) = Ok (document V store scope k).
Proof. intros Hk. apply law_get; [done|apply self_ok|done|done]. Qed.

(** What a reader finds wrong with a document can only be its timestamps. *)
Lemma answer_corrupt_spec k : doc_key_ok k ->
  answer_corrupt k (ls_commit_sequence s) (document V store scope k)
  = match document V store scope k with Some r => dr_updated_at r <? dr_created_at r | None => false end.
Proof.
  intros Hk. destruct (document V store scope k) as [r|] eqn:E; [|done]. cbn [answer_corrupt].
  destruct (law_record scope store s k r store_wf (proj1 self_ok) Hk Hs E) as (<- & Hr & Hc & _).
  unfold record_corrupt. cbn [fst snd]. rewrite !bool_decide_eq_true_2 by done. cbn [negb orb].
  destruct (Z.eqb_spec (dr_revision r) 0), (Z.ltb_spec (ls_commit_sequence s) (dr_commit_sequence r)); lia || done.
Qed.
End answers.

(** ** Reads *)

(** A read that leaves no failure behind shows the store's document and records it. *)
Lemma get_from_healthy store s read k st a st' :
  store_ok V store -> ls_begin_read scope store = Ok s -> doc_key_ok k ->
  get_from s read k st = (a, st') -> ms_failure st' = None ->
  a = Ok (observed store k) /\ st' = set_reads (<[k := observed store k]> (ms_reads st)) st.
Proof.
  intros Hst Hs Hk. unfold get_from.
  destruct read as [[|e|]|]; try (intros [= <- <-]; done).
  rewrite (answer_document store s Hst Hs k Hk). cbn beta iota zeta.
  destruct (answer_corrupt _ _ _); [by intros [= <- <-]|]. destruct (_ && _); [by intros [= <- <-]|].
  fold (observed store k). destruct (ms_reads st !! k) as [prior|]; [|by intros [= <- <-]].
  destruct (bool_decide _); by intros [= <- <-].
Qed.

Lemma get_from_ok store s read k st : store_ok V store -> ls_begin_read scope store = Ok s -> doc_key_ok k ->
  state_ok store st -> state_ok store (snd (get_from s read k st)).
Proof.
  intros Hst Hs Hk H. unfold get_from. destruct read as [[|e|]|]; try by apply set_failure_ok.
  rewrite (answer_document store s Hst Hs k Hk). cbn beta iota zeta. fold (observed store k).
  destruct (answer_corrupt _ _ _); [by apply set_failure_ok|]. destruct (_ && _); [by apply set_failure_ok|].
  destruct (ms_reads st !! k) as [prior|]; [|by apply set_reads_ok].
  destruct (bool_decide _); [by apply set_reads_ok|]. by apply set_failure_ok, set_reads_ok.
Qed.

Lemma data_get_ok store begin read k st : store_ok V store -> doc_key_ok k ->
  state_ok store st -> state_ok store (snd (data_get self store begin read k st)).
Proof.
  intros Hst Hk H. unfold data_get. destruct (unusable st); [done|].
  destruct (buffered_read _ _ _) as [[]|]; try done. destruct (ms_snapshot st) as [s|] eqn:Es.
  - apply get_from_ok; try done. by apply (so_snapshot _ _ H).
  - destruct begin as [[|e|]|]; try by apply set_failure_ok.
    destruct (ls_begin_read scope store) as [s|e] eqn:Eb; [|by apply set_failure_ok].
    apply get_from_ok; try done. by apply set_snapshot_ok.
Qed.

(** ** Answers are well typed *)

Lemma observed_typed store k : store_ok V store -> doc_key_ok k -> answer_ok (Ok (observed store k)).
Proof.
  intros Hst Hk d [= E]. destruct (law_begin scope store Hst (proj1 self_ok)) as [s Hs].
  unfold observed in E. destruct (document V store scope k) as [r|] eqn:Er; [|done]. injection E as <-.
  destruct (law_record scope store s k r Hst (proj1 self_ok) Hk Hs Er) as (_ & Hr & _ & Hv).
  split; [|done]. apply is_u64_spec. cbn. unfold i64_max, u64_max in *. lia.
Qed.

Lemma get_from_typed store s read k st : store_ok V store -> ls_begin_read scope store = Ok s -> doc_key_ok k ->
  answer_ok (fst (get_from s read k st)).
Proof.
  intros Hst Hs Hk. unfold get_from. destruct read as [[|e|]|]; try done.
  rewrite (answer_document store s Hst Hs k Hk). cbn beta iota zeta. fold (observed store k).
  destruct (answer_corrupt _ _ _); [done|]. destruct (_ && _); [done|].
  destruct (ms_reads st !! k) as [prior|]; [|by apply observed_typed].
  destruct (bool_decide _); [by apply observed_typed|done].
Qed.

Lemma buffered_read_typed store k (st : MutationState Snapshot) d : state_ok store st ->
  buffered_read self k st = Ok (BR_Document d) -> answer_ok (Ok (Some d)).
Proof.
  intros Hok. unfold buffered_read. destruct (ms_writes st !! k) as [[t x e v|]|] eqn:Ew; [|done|done].
  intros (n & Hn & [= <-])%rbind_Ok d' [= <-]. destruct (so_writes _ _ Hok _ _ Ew) as [_ (_ & _ & He & Hv)].
  split; [|done]. apply is_u64_spec. cbn [dd_revision]. destruct e as [|r].
  - injection Hn as <-. unfold u64_max. lia.
  - apply ok_or_Ok, checked_add_Some in Hn as [-> Hle]. apply is_u64_spec in He. lia.
Qed.

Lemma data_get_typed store begin read k st : store_ok V store -> doc_key_ok k -> state_ok store st ->
  answer_ok (fst (data_get self store begin read k st)).
Proof.
  intros Hst Hk Hok. unfold data_get. destruct (unusable st); [done|].
  destruct (buffered_read self k st) as [[| |d]|] eqn:Eb; [|done|by eapply buffered_read_typed|done].
  destruct (ms_snapshot st) as [s|] eqn:Es.
  - apply (get_from_typed store); [done| |done]. by apply (so_snapshot _ _ Hok).
  - destruct begin as [[|e|]|]; try done. destruct (ls_begin_read scope store) as [s|e] eqn:Eo; [|done].
    by apply (get_from_typed store).
Qed.

(** ** The same read on another store *)

Definition with_snapshot_of (store : Store) (st st' : MutationState Snapshot) : Prop :=
  exists o, st' = set_snapshot o st /\ forall s, o = Some s -> ls_begin_read scope store = Ok s.

Lemma get_from_repeats store store' s s' read k o st a st1 :
  store_ok V store -> store_ok V store' -> ls_begin_read scope store = Ok s ->
  ls_begin_read scope store' = Ok s' -> doc_key_ok k ->
  document V store' scope k = document V store scope k ->
  get_from s read k st = (a, st1) -> ms_failure st1 = None ->
  get_from s' (R_Waited W_Ready) k (set_snapshot o st) = (a, set_snapshot o st1).
Proof.
  intros Hst Hst' Hs Hs' Hk Hd. unfold get_from.
  destruct read as [[|e|]|]; try (intros [= <- <-]; done).
  rewrite (answer_document store s Hst Hs k Hk), (answer_document store' s' Hst' Hs' k Hk). cbn beta iota zeta.
  rewrite (answer_corrupt_spec store s Hst Hs k Hk), (answer_corrupt_spec store' s' Hst' Hs' k Hk), Hd.
  destruct (match document V store scope k with Some r => _ | None => _ end); [by intros [= <- <-]|].
  cbn [ms_reads set_snapshot]. destruct (_ && _); [by intros [= <- <-]|].
  destruct (ms_reads st !! k) as [prior|]; [|by intros [= <- <-]].
  destruct (bool_decide _); by intros [= <- <-].
Qed.

Lemma data_get_repeats store store' begin read k st st' a st1 :
  store_ok V store -> store_ok V store' -> doc_key_ok k -> state_ok store st -> with_snapshot_of store' st st' ->
  data_get self store begin read k st = (a, st1) -> ms_failure st1 = None ->
  (k ∈ dom (ms_reads st1) -> document V store' scope k = document V store scope k) ->
  exists st1', data_get self store' (R_Waited W_Ready) (R_Waited W_Ready) k st' = (a, st1')
    /\ with_snapshot_of store' st1 st1'.
Proof.
  intros Hst Hst' Hk Hok (o & -> & Ho). unfold data_get.
  change (unusable (set_snapshot o st)) with (unusable st).
  change (buffered_read self k (set_snapshot o st)) with (buffered_read self k st).
  destruct (unusable st); [intros [= <- <-] _ _; eexists; split; [done|by exists o]|].
  destruct (buffered_read self k st) as [[]|];
    try (intros [= <- <-] _ _; eexists; split; [done|by exists o]).
  assert (forall s st0, ls_begin_read scope store = Ok s -> get_from s read k st0 = (a, st1) ->
    set_snapshot o st0 = set_snapshot o st -> ms_failure st1 = None ->
    (k ∈ dom (ms_reads st1) -> document V store' scope k = document V store scope k) ->
    exists st1', match o with
      | Some s => get_from s (R_Waited W_Ready) k (set_snapshot o st)
      | None => match ls_begin_read scope store' with
                | Err e => (Err DE_Storage, set_failure (SF_Store e) (set_snapshot o st))
                | Ok s => get_from s (R_Waited W_Ready) k (set_snapshot (Some s) (set_snapshot o st))
                end
      end = (a, st1') /\ with_snapshot_of store' st1 st1') as Hread.
  { intros s st0 Hs Hg Heq Hf Hd.
    assert (document V store' scope k = document V store scope k) as Hdoc.
    { apply Hd. destruct (get_from_healthy store s read k st0 a st1 Hst Hs Hk Hg Hf) as [_ ->].
      cbn. rewrite dom_insert. set_solver. }
    rewrite <- Heq. destruct o as [s'|].
    - exists (set_snapshot (Some s') st1). split; [|by exists (Some s')].
      exact (get_from_repeats store store' s s' read k _ st0 a st1 Hst Hst' Hs (Ho s' eq_refl) Hk Hdoc Hg Hf).
    - destruct (law_begin scope store' Hst' (proj1 self_ok)) as [s' Hs']. rewrite Hs'.
      exists (set_snapshot (Some s') st1). split.
      + change (set_snapshot (Some s') (set_snapshot None st0)) with (set_snapshot (Some s') st0).
        exact (get_from_repeats store store' s s' read k _ st0 a st1 Hst Hst' Hs Hs' Hk Hdoc Hg Hf).
      + exists (Some s'). split; [done|]. by intros ? [= <-]. }
  cbn [ms_snapshot set_snapshot]. destruct (ms_snapshot st) as [s|] eqn:Es.
  - intros Hg Hf Hd. eapply Hread; eauto. by apply (so_snapshot _ _ Hok).
  - destruct begin as [[|e|]|]; try (intros [= <- <-]; done).
    destruct (ls_begin_read scope store) as [s|e] eqn:Eb; [|by intros [= <- <-]].
    intros Hg Hf Hd. by eapply (Hread s).
Qed.

(** ** What every call keeps *)

(** A latched failure stays, no read is forgotten, and the session stays open. *)
Definition grows (st st' : MutationState Snapshot) : Prop :=
  (ms_failure st' = None -> ms_failure st = None) /\ dom (ms_reads st) ⊆ dom (ms_reads st')
  /\ ms_closed st' = ms_closed st.

#[local] Instance grows_preorder : PreOrder grows.
Proof. split; [done|]. intros x y z (F1 & R1 & C1) (F2 & R2 & C2). split_and!; [auto|set_solver|congruence]. Qed.

Lemma set_failure_grows f st : grows st (set_failure f st).
Proof. by split. Qed.

Lemma buffer_grows m st : grows st (snd (buffer m st)).
Proof.
  unfold buffer. destruct (unusable st); [done|]. destruct (_ || _); [apply set_failure_grows|].
  by destruct (ms_writes st !! _); [apply set_failure_grows|].
Qed.

Lemma get_from_grows s read k st : grows st (snd (get_from s read k st)).
Proof.
  unfold get_from. destruct read as [[|e|]|]; try apply set_failure_grows.
  destruct (ls_get_document _ _ _); [|apply set_failure_grows].
  destruct (answer_corrupt _ _ _); [apply set_failure_grows|].
  destruct (_ && _); [apply set_failure_grows|].
  destruct (ms_reads st !! k); [destruct (bool_decide _)|]; (split_and!; [done|cbn; set_solver|done]).
Qed.

Lemma data_get_grows store begin read k st : grows st (snd (data_get self store begin read k st)).
Proof.
  unfold data_get. destruct (unusable st); [done|]. destruct (buffered_read _ _ _) as [[]|]; try done.
  destruct (ms_snapshot st); [apply get_from_grows|].
  destruct begin as [[|e|]|]; try apply set_failure_grows.
  destruct (ls_begin_read _ _); [|apply set_failure_grows]. exact (get_from_grows _ _ _ (set_snapshot _ st)).
Qed.

Lemma schedule_create_grows c x q st : grows st (snd (schedule_create sha256 self c x q st)).
Proof.
  unfold schedule_create, latch_schedule_error. destruct c, x; try apply set_failure_grows.
  destruct (_ || _); [apply set_failure_grows|]. destruct (schedule_time _ _); [|apply set_failure_grows].
  destruct (unusable st); [done|]. destruct (_ <=? _); [apply set_failure_grows|].
  by destruct (key_rejected _ _); [apply set_failure_grows|].
Qed.

Lemma run_grows store faults h st : grows st (snd (run sha256 self store faults h st)).
Proof.
  revert faults st; induction h as [r|k next IH|next IH|t d v next IH|t d n v next IH|t d n next IH|q next IH];
    intros faults st; cbn [run].
  - done.
  - pose proof (data_get_grows store (f_begin (faults 0%nat)) (f_read (faults 0%nat)) k st) as Hg.
    destruct (data_get _ _ _ _ _ _) as [a st1]. etrans; [exact Hg|apply IH].
  - apply IH.
  - pose proof (buffer_grows (DM_Upsert t d ER_Absent v) st) as Hg. unfold data_insert.
    destruct (buffer _ _) as [a st1]. etrans; [exact Hg|apply IH].
  - unfold data_replace. destruct (_ || _); [etrans; [apply set_failure_grows|apply IH]|].
    pose proof (buffer_grows (DM_Upsert t d (ER_Exact n) v) st) as Hg.
    destruct (buffer _ _) as [a st1]. etrans; [exact Hg|apply IH].
  - unfold data_delete. destruct (_ =? _); [etrans; [apply set_failure_grows|apply IH]|].
    pose proof (buffer_grows (DM_Delete t d n) st) as Hg.
    destruct (buffer _ _) as [a st1]. etrans; [exact Hg|apply IH].
  - pose proof (schedule_create_grows (f_cancelled (faults 0%nat)) (f_expired (faults 0%nat)) q st) as Hg.
    destruct (schedule_create _ _ _ _ _ _) as [a st1]. etrans; [exact Hg|apply IH].
Qed.

(** ** Runs *)

Lemma schedule_time_i64 base q t : schedule_time base q = Ok t ->
  match q with ST_AfterMicros n => 0 <= n | ST_At t => is_i64 t = true end -> is_i64 t = true.
Proof.
  unfold schedule_time. intros H Hq. apply rbind_Ok in H as (m & _ & H). apply rbind_Ok in H as (mx & _ & H).
  destruct q as [n|t'].
  - destruct (_ <? _); [done|]. apply rbind_Ok in H as (n' & _ & H%ok_or_Ok). unfold checked_i64 in H.
    destruct (is_i64 (base + n')) eqn:E; [|done]. by injection H as <-.
  - destruct (_ <=? _); [|done]. by injection H as <-.
Qed.

Lemma derived_schedule_id_ok op n : id_ok (derived_schedule_id sha256 op n).
Proof.
  unfold id_ok, derived_schedule_id, ulid_range. cbn [as_ulid].
  pose proof (from_be_range (take 16 (sha256 (schedule_preimage op n)))) as H.
  unfold len in H. rewrite length_take in H. split; [lia|]. eapply Z.lt_le_trans; [apply H|].
  change (2 ^ 128) with (256 ^ 16). apply Z.pow_le_mono_r; lia.
Qed.

Lemma schedule_create_ok store c x q st : request_ok q -> state_ok store st ->
  state_ok store (snd (schedule_create sha256 self c x q st)).
Proof.
  intros (Hf & Hv & Ht) H. unfold schedule_create, latch_schedule_error.
  destruct c, x; try by apply set_failure_ok.
  destruct (_ || _); [by apply set_failure_ok|].
  destruct (schedule_time _ _) as [at_|] eqn:Et; [|by apply set_failure_ok].
  destruct (unusable st); [done|]. destruct (_ <=? _); [by apply set_failure_ok|].
  destruct (key_rejected _ _); [by apply set_failure_ok|]. destruct H. split; cbn; try done.
  apply Forall_app_2; [done|]. apply Forall_singleton. unfold planned_schedule, schedule_ok. cbn.
  split_and!; [apply derived_schedule_id_ok|apply self_ok|done|done|by eapply schedule_time_i64].
Qed.

Lemma schedule_create_typed c x q (st : MutationState Snapshot) : scheduled_ok (fst (schedule_create sha256 self c x q st)).
Proof.
  intros i. unfold schedule_create, latch_schedule_error. destruct c, x; try done. destruct (_ || _); [done|].
  destruct (schedule_time _ _); [|done]. destruct (unusable st); [done|]. destruct (_ <=? _); [done|].
  destruct (key_rejected _ _); [done|]. intros [= <-]. apply derived_schedule_id_ok.
Qed.

Lemma run_ok store faults h st : store_ok V store -> handler_ok h -> state_ok store st ->
  state_ok store (snd (run sha256 self store faults h st)).
Proof.
  intros Hst. revert faults st;
  induction h as [r|k next IH|next IH|t d v next IH|t d n v next IH|t d n next IH|q next IH];
    intros faults st; cbn [run handler_ok].
  - done.
  - intros [Hk Hn] H. pose proof (data_get_ok store (f_begin (faults 0%nat)) (f_read (faults 0%nat)) k st Hst Hk H).
    pose proof (data_get_typed store (f_begin (faults 0%nat)) (f_read (faults 0%nat)) k st Hst Hk H).
    destruct (data_get _ _ _ _ _ _) as [a st1]. by apply IH; [apply Hn|].
  - intros Hn H. by apply IH.
  - intros [Hm Hn] H. pose proof (buffer_ok store _ st Hm H). unfold data_insert.
    destruct (buffer _ _) as [a st1]. by apply IH.
  - intros [Hm Hn] H. unfold data_replace. destruct (_ || _); [by apply IH, set_failure_ok|].
    pose proof (buffer_ok store _ st Hm H). destruct (buffer _ _) as [a st1]. by apply IH.
  - intros [Hm Hn] H. unfold data_delete. destruct (_ =? _); [by apply IH, set_failure_ok|].
    pose proof (buffer_ok store _ st Hm H). destruct (buffer _ _) as [a st1]. by apply IH.
  - intros [Hq Hn] H.
    pose proof (schedule_create_ok store (f_cancelled (faults 0%nat)) (f_expired (faults 0%nat)) q st Hq H).
    pose proof (schedule_create_typed (f_cancelled (faults 0%nat)) (f_expired (faults 0%nat)) q st).
    destruct (schedule_create _ _ _ _ _ _) as [a st1]. by apply IH; [apply Hn|].
Qed.

(** A call that does not touch the snapshot gives the same answer under another one. *)
Lemma buffer_snapshot m o (st : MutationState Snapshot) :
  buffer m (set_snapshot o st) = (fst (buffer m st), set_snapshot o (snd (buffer m st))).
Proof.
  unfold buffer. change (unusable (set_snapshot o st)) with (unusable st). cbn [ms_writes set_snapshot].
  destruct (unusable st); [done|]. destruct (_ || _); [done|]. by destruct (ms_writes st !! _).
Qed.

Lemma schedule_create_snapshot q o (st : MutationState Snapshot) a st1 c x : schedule_create sha256 self c x q st = (a, st1) ->
  ms_failure st1 = None ->
  schedule_create sha256 self false false q (set_snapshot o st) = (a, set_snapshot o st1).
Proof.
  unfold schedule_create, latch_schedule_error. destruct c, x; try (intros [= <- <-]; done).
  destruct (_ || _); [by intros [= <- <-]|]. destruct (schedule_time _ _); [|by intros [= <- <-]].
  change (unusable (set_snapshot o st)) with (unusable st). cbn [ms_schedules ms_schedule_keys set_snapshot].
  destruct (unusable st); [by intros [= <- <-]|]. destruct (_ <=? _); [by intros [= <- <-]|].
  destruct (key_rejected _ _); by intros [= <- <-].
Qed.

(** A run that ends without failure is repeated, without faults, on every store that shows the same
    documents for the keys it has read. *)
Lemma run_repeats store store' faults h st st' r st1 :
  store_ok V store -> store_ok V store' -> handler_ok h -> state_ok store st -> with_snapshot_of store' st st' ->
  run sha256 self store faults h st = (r, st1) -> ms_failure st1 = None ->
  (forall k, k ∈ dom (ms_reads st1) -> document V store' scope k = document V store scope k) ->
  exists st1', run sha256 self store' (fun _ => no_faults) h st' = (r, st1') /\ with_snapshot_of store' st1 st1'.
Proof.
  intros Hst Hst'. revert faults st st';
  induction h as [x|k next IH|next IH|t d v next IH|t d n v next IH|t d n next IH|q next IH];
    intros faults st st'; cbn [run handler_ok no_faults f_begin f_read f_cancelled f_expired].
  - intros _ Hok Hw [= <- <-]. eauto.
  - intros [Hk Hn] Hok Hw. pose proof (data_get_ok store (f_begin (faults 0%nat)) (f_read (faults 0%nat)) k st Hst Hk Hok) as Hok1.
    pose proof (data_get_typed store (f_begin (faults 0%nat)) (f_read (faults 0%nat)) k st Hst Hk Hok) as Hans.
    destruct (data_get self store _ _ k st) as [a st2] eqn:Eg. intros Hr Hf Hd. cbn [snd] in Hok1.
    pose proof (run_grows store (fun n => faults (S n)) (next a) st2) as (Gf & Gr & _). rewrite Hr in Gf, Gr. cbn [snd] in Gf, Gr.
    destruct (data_get_repeats store store' _ _ k st st' a st2 Hst Hst' Hk Hok Hw Eg (Gf Hf)) as (st2' & Eg' & Hw').
    { intros Hin. apply Hd. set_solver. }
    rewrite Eg'. eapply IH; eauto.
  - intros Hn Hok Hw. by apply IH.
  - intros [Hm Hn] Hok Hw. destruct Hw as (o & -> & Ho). unfold data_insert.
    pose proof (buffer_ok store _ st Hm Hok) as Hok1.
    rewrite buffer_snapshot. destruct (buffer _ st) as [a st2]. cbn [fst snd] in *.
    apply IH; [done..|by exists o].
  - intros [Hm Hn] Hok Hw. destruct Hw as (o & -> & Ho). unfold data_replace.
    destruct (_ || _); [apply IH; [done|by apply set_failure_ok|by exists o]|].
    pose proof (buffer_ok store _ st Hm Hok) as Hok1.
    rewrite buffer_snapshot. destruct (buffer _ st) as [a st2]. cbn [fst snd] in *.
    apply IH; [done..|by exists o].
  - intros [Hm Hn] Hok Hw. destruct Hw as (o & -> & Ho). unfold data_delete.
    destruct (_ =? _); [apply IH; [done|by apply set_failure_ok|by exists o]|].
    pose proof (buffer_ok store _ st Hm Hok) as Hok1.
    rewrite buffer_snapshot. destruct (buffer _ st) as [a st2]. cbn [fst snd] in *.
    apply IH; [done..|by exists o].
  - intros [Hq Hn] Hok Hw. destruct Hw as (o & -> & Ho).
    pose proof (schedule_create_ok store (f_cancelled (faults 0%nat)) (f_expired (faults 0%nat)) q st Hq Hok) as Hok1.
    pose proof (schedule_create_typed (f_cancelled (faults 0%nat)) (f_expired (faults 0%nat)) q st) as Hans.
    destruct (schedule_create sha256 self _ _ q st) as [a st2] eqn:Ec. intros Hr Hf Hd. cbn [snd] in Hok1.
    pose proof (run_grows store (fun n => faults (S n)) (next a) st2) as (Gf & _). rewrite Hr in Gf. cbn [snd] in Gf.
    rewrite (schedule_create_snapshot q o st a st2 _ _ Ec (Gf Hf)). eapply IH; eauto. by exists o.
Qed.

(** ** Closing *)

(** The keys loaded at the end are read like any other. *)
Lemma load_bases_healthy store s waits keys st st1 :
  store_ok V store -> ls_begin_read scope store = Ok s -> Forall doc_key_ok keys -> state_ok store st ->
  load_bases s waits keys st = (Ok tt, st1) ->
  state_ok store st1 /\ (exists r, st1 = set_reads r st)
  /\ dom (ms_reads st1) = dom (ms_reads st) ∪ list_to_set keys.
Proof.
  intros Hst Hs Hk. revert waits st; induction Hk as [|k keys Hk _ IH]; intros waits st Hok; cbn [load_bases].
  { intros [= <-]. split; [done|]. split; [by exists (ms_reads st); destruct st|set_solver]. }
  destruct (waits 0%nat); try done. rewrite (answer_document store s Hst Hs k Hk). cbn beta iota zeta.
  destruct (answer_corrupt _ _ _); [done|]. fold (observed store k).
  intros (Hok1 & (r & ->) & Hd)%IH; [|by apply set_reads_ok]. split; [done|]. split; [by exists r|].
  rewrite Hd. cbn [ms_reads set_reads]. rewrite dom_insert_L. set_solver.
Qed.

Lemma load_bases_repeats store store' s s' waits keys o st st1 :
  store_ok V store -> store_ok V store' -> ls_begin_read scope store = Ok s ->
  ls_begin_read scope store' = Ok s' -> Forall doc_key_ok keys ->
  Forall (fun k => document V store' scope k = document V store scope k) keys ->
  load_bases s waits keys st = (Ok tt, st1) ->
  load_bases s' (fun _ => W_Ready) keys (set_snapshot o st) = (Ok tt, set_snapshot o st1).
Proof.
  intros Hst Hst' Hs Hs' Hk. revert waits st; induction Hk as [|k keys Hk _ IH]; intros waits st Hd; cbn [load_bases].
  { by intros [= <-]. }
  apply Forall_cons in Hd as [Hd Hds]. destruct (waits 0%nat); try done.
  rewrite (answer_document store s Hst Hs k Hk), (answer_document store' s' Hst' Hs' k Hk). cbn beta iota zeta.
  rewrite (answer_corrupt_spec store s Hst Hs k Hk), (answer_corrupt_spec store' s' Hst' Hs' k Hk), Hd.
  destruct (match document V store scope k with Some r => _ | None => _ end); [done|].
  intros H. change (set_reads (<[k:=data_document <$> document V store scope k]> (ms_reads (set_snapshot o st)))
    (set_snapshot o st)) with (set_snapshot o (set_reads (<[k:=data_document <$> document V store scope k]> (ms_reads st)) st)).
  by eapply IH.
Qed.

(** The keys [load_write_bases] has to read. *)
Definition base_keys (st : MutationState Snapshot) : list doc_key :=
  map fst (List.filter (needs_base st) (doc_entries (ms_writes st))).

Lemma elem_of_base_keys st k : k ∈ base_keys st <->
  exists m, ms_writes st !! k = Some m /\ expected_revision m <> None /\ ms_reads st !! k = None.
Proof.
  unfold base_keys. rewrite list_elem_of_In, in_map_iff. split.
  - intros ([k' m] & <- & [Hin Hn]%List.filter_In). apply list_elem_of_In, elem_of_doc_entries in Hin.
    exists m. unfold needs_base in Hn. cbn [fst snd] in Hn. destruct m as [? ? [] ?|]; try done; bool_facts; done.
  - intros (m & Hm & He & Hr). exists (k, m). split; [done|]. apply List.filter_In. split.
    + by apply list_elem_of_In, elem_of_doc_entries.
    + unfold needs_base. cbn [fst snd]. destruct m as [? ? [] ?|]; try done; by apply bool_decide_eq_true.
Qed.

Lemma base_keys_ok store st : state_ok store st -> Forall doc_key_ok (base_keys st).
Proof.
  intros Hok. apply Forall_forall. intros k (m & Hm & _)%elem_of_base_keys.
  destruct (so_writes _ _ Hok k m Hm) as [-> Hd]. by destruct m; cbn in *; destruct Hd as (? & ? & _).
Qed.

(** A session that closes well has read the base of every write that needs one. *)
Record closed_well (store : Store) (st : MutationState Snapshot) : Prop := {
  cw_ok : state_ok store st;
  cw_failure : ms_failure st = None;
  cw_bases k m : ms_writes st !! k = Some m -> expected_revision m <> None -> k ∈ dom (ms_reads st)
}.

Lemma load_write_bases_healthy store waits st st1 :
  store_ok V store -> state_ok store st -> unusable st = false ->
  load_write_bases self store waits st = (Ok tt, st1) -> ms_failure st1 = None ->
  closed_well store st1 /\ ms_writes st1 = ms_writes st /\ ms_schedules st1 = ms_schedules st
  /\ dom (ms_reads st1) = dom (ms_reads st) ∪ list_to_set (base_keys st).
Proof.
  intros Hst Hok Hu. unfold load_write_bases. rewrite Hu. fold (base_keys st).
  pose proof (elem_of_base_keys st) as Hin. pose proof (base_keys_ok store st Hok) as Hkeys.
  assert (forall st2 : MutationState Snapshot, ms_writes st2 = ms_writes st -> dom (ms_reads st2) = dom (ms_reads st) ∪ (list_to_set (base_keys st) : gset doc_key) ->
    forall k m, ms_writes st2 !! k = Some m -> expected_revision m <> None -> k ∈ dom (ms_reads st2)) as Hbases.
  { intros st2 Ew Ed k m Hm He. rewrite Ew in Hm. rewrite Ed, elem_of_union, elem_of_list_to_set, Hin.
    destruct (ms_reads st !! k) eqn:Er; [left; by apply elem_of_dom_2 in Er|right; eauto]. }
  assert (forall s st0, ls_begin_read scope store = Ok s -> state_ok store st0 -> ms_writes st0 = ms_writes st ->
    ms_schedules st0 = ms_schedules st -> ms_reads st0 = ms_reads st ->
    load_bases s (fun n => waits (S n)) (base_keys st) st0 = (Ok tt, st1) -> ms_failure st1 = None ->
    closed_well store st1 /\ ms_writes st1 = ms_writes st /\ ms_schedules st1 = ms_schedules st
    /\ dom (ms_reads st1) = dom (ms_reads st) ∪ list_to_set (base_keys st)) as Hload.
  { intros s st0 Hs Hok0 Ew Es Er Hl Hf.
    apply (load_bases_healthy store) in Hl as (Hok1 & (r & ->) & Hd); [|done..]. rewrite Er in Hd.
    split; [split; [done..|by apply Hbases]|done]. }
  destruct (base_keys st) as [|k0 keys] eqn:Ek.
  { intros [= <-] Hf. split; [|split_and!; [done..|set_solver]]. split; [done..|]. apply Hbases; [done|set_solver]. }
  destruct (ms_snapshot st) as [s|] eqn:Es.
  - intros Hl Hf. eapply (Hload s st); eauto. by apply (so_snapshot _ _ Hok).
  - destruct (waits 0%nat); try done. destruct (ls_begin_read scope store) as [s|] eqn:Eb; [|done].
    intros Hl Hf. eapply (Hload s (set_snapshot (Some s) st)); eauto. by apply set_snapshot_ok.
Qed.

Lemma load_write_bases_repeats store store' waits st st' st1 :
  store_ok V store -> store_ok V store' -> state_ok store st -> unusable st = false ->
  with_snapshot_of store' st st' -> load_write_bases self store waits st = (Ok tt, st1) -> ms_failure st1 = None ->
  (forall k, k ∈ dom (ms_reads st1) -> document V store' scope k = document V store scope k) ->
  exists st1', load_write_bases self store' (fun _ => W_Ready) st' = (Ok tt, st1') /\ with_snapshot_of store' st1 st1'.
Proof.
  intros Hst Hst' Hok Hu (o & -> & Ho) Hl Hf Hd.
  destruct (load_write_bases_healthy store waits st st1 Hst Hok Hu Hl Hf) as (_ & _ & _ & Hdom).
  assert (Forall (fun k => document V store' scope k = document V store scope k) (base_keys st)) as Hagree.
  { apply Forall_forall. intros k Hk. apply Hd. rewrite Hdom. set_solver. }
  revert Hl. unfold load_write_bases. change (unusable (set_snapshot o st)) with (unusable st). rewrite Hu.
  change (map fst (List.filter (needs_base (set_snapshot o st)) (doc_entries (ms_writes (set_snapshot o st)))))
    with (base_keys st). fold (base_keys st).
  pose proof (base_keys_ok store st Hok) as Hkeys. destruct (law_begin scope store' Hst' (proj1 self_ok)) as [s1 Hs1].
  destruct (base_keys st) as [|k0 keys]; [intros [= <-]; eexists; split; [done|by exists o]|].
  assert (forall s st0, ls_begin_read scope store = Ok s -> set_snapshot o st0 = set_snapshot o st ->
    set_snapshot (Some s1) st0 = set_snapshot (Some s1) st ->
    load_bases s (fun n => waits (S n)) (k0 :: keys) st0 = (Ok tt, st1) ->
    exists st1', match o with
      | Some s => load_bases s (fun _ => W_Ready) (k0 :: keys) (set_snapshot o st)
      | None => load_bases s1 (fun _ => W_Ready) (k0 :: keys) (set_snapshot (Some s1) st)
      end = (Ok tt, st1') /\ with_snapshot_of store' st1 st1') as Hload.
  { intros s st0 Hs E1 E2 Hl. destruct o as [s'|].
    - rewrite <- E1. exists (set_snapshot (Some s') st1). split; [|by exists (Some s')].
      exact (load_bases_repeats store store' s s' _ _ _ _ _ Hst Hst' Hs (Ho s' eq_refl) Hkeys Hagree Hl).
    - rewrite <- E2. exists (set_snapshot (Some s1) st1). split; [|exists (Some s1); split; [done|by intros ? [= <-]]].
      exact (load_bases_repeats store store' s s1 _ _ _ _ _ Hst Hst' Hs Hs1 Hkeys Hagree Hl). }
  cbn [ms_snapshot set_snapshot]. rewrite Hs1.
  change (set_snapshot (Some s1) (set_snapshot o st)) with (set_snapshot (Some s1) st).
  destruct (ms_snapshot st) as [s|] eqn:Es.
  - intros Hl. eapply (Hload s st); [by apply (so_snapshot _ _ Hok)|done|done|exact Hl].
  - destruct (waits 0%nat); try done. destruct (ls_begin_read scope store) as [s|] eqn:Eb; [|done].
    intros Hl. by eapply (Hload s (set_snapshot (Some s) st)).
Qed.

Lemma finish_Ok store waits close st b : fst (finish self store waits close st) = Ok b ->
  exists st1, load_write_bases self store waits st = (Ok tt, st1) /\ ms_failure st1 = None /\ b = buffered_of st1.
Proof.
  unfold finish. destruct (load_write_bases self store waits st) as [[[]|f] st1].
  - cbn [fst]. destruct (ms_failure st1) as [f|] eqn:Ef; [by destruct (ms_snapshot st1), close|].
    intros H. exists st1. split_and!; [done|done|]. destruct (ms_snapshot st1), close; by inversion H.
  - cbn [fst]. by destruct (ms_failure st1), (ms_snapshot st1), close.
Qed.

Lemma finish_load store waits st st1 : load_write_bases self store waits st = (Ok tt, st1) ->
  ms_failure st1 = None -> fst (finish self store waits W_Ready st) = Ok (buffered_of st1).
Proof. intros Hl Hf. unfold finish. rewrite Hl, Hf. cbn [fst]. by destruct (ms_snapshot st1). Qed.

(** ** Whole attempts *)

(** What an attempt leaves: its final state, closed well. *)
Lemma run_finish_healthy store faults load close h r st b :
  store_ok V store -> handler_ok h -> run sha256 self store faults h initial_state = (r, st) ->
  fst (finish self store load close st) = Ok b ->
  exists st1, closed_well store st1 /\ b = buffered_of st1
    /\ load_write_bases self store load st = (Ok tt, st1) /\ unusable st = false /\ state_ok store st.
Proof.
  intros Hst Hh Hr (st1 & Hl & Hf & ->)%finish_Ok.
  pose proof (run_ok store faults h _ Hst Hh (initial_state_ok store)) as Hok. rewrite Hr in Hok.
  pose proof (run_grows store faults h initial_state) as (_ & _ & Hc). rewrite Hr in Hc. cbn [snd initial_state ms_closed] in *.
  assert (ms_failure st = None) as Hf0.
  { destruct (ms_failure st) eqn:E; [|done]. unfold load_write_bases, unusable in Hl. rewrite Hc, E in Hl.
    injection Hl as <-. congruence. }
  assert (unusable st = false) as Hu by (unfold unusable; by rewrite Hc, Hf0).
  exists st1. split_and!; [|done..].
  by apply (load_write_bases_healthy store load st st1 Hst Hok Hu Hl Hf).
Qed.

Lemma run_finish_repeats store store' faults load close h r st b :
  store_ok V store -> store_ok V store' -> handler_ok h ->
  run sha256 self store faults h initial_state = (r, st) -> fst (finish self store load close st) = Ok b ->
  (forall k, k ∈ dom (bm_old_values b) -> document V store' scope k = document V store scope k) ->
  exists st', run sha256 self store' (fun _ => no_faults) h initial_state = (r, st')
    /\ fst (finish self store' (fun _ => W_Ready) W_Ready st') = Ok b.
Proof.
  intros Hst Hst' Hh Hr Hfin Hd.
  destruct (run_finish_healthy store faults load close h r st b Hst Hh Hr Hfin) as (st1 & [Hok1 Hf1 _] & -> & Hl & Hu & Hok).
  cbn [buffered_of bm_old_values] in Hd. rewrite dom_fmap_L in Hd.
  destruct (load_write_bases_healthy store load st st1 Hst Hok Hu Hl Hf1) as (_ & _ & _ & Hdom).
  assert (ms_failure st = None) as Hf by (unfold unusable in Hu; destruct (ms_failure st); [by rewrite orb_true_r in Hu|done]).
  destruct (run_repeats store store' faults h initial_state initial_state r st Hst Hst' Hh (initial_state_ok store)) as (st' & Hr' & Hw).
  { exists None. split; [done|]. by intros s. }
  { done. } { done. }
  { intros k Hk. apply Hd. rewrite Hdom. set_solver. }
  exists st'. split; [done|].
  destruct (load_write_bases_repeats store store' load st st' st1 Hst Hst' Hok Hu Hw Hl Hf1 Hd) as (st1' & Hl' & (o & -> & _)).
  by apply (finish_load store' _ _ _ Hl').
Qed.
End session.

(** ** A session sees its own writes *)

(** What a session shows of a document it has written. *)
Definition own_document (self : MutationSession) (m : DocumentMutation) : option DataDocument :=
  match m with
  | DM_Upsert t d e v => Some (mkDataDocument t d (default 0 (expected_revision m) + 1) 0 (sn_schedule_base self) (sn_schedule_base self) v)
  | DM_Delete _ _ _ => None
  end.

(** C22: A session sees its own writes, once each.  After a write was accepted, reading the document
    shows the written value at the revision the commit will give it, or nothing after a delete,
    whatever the store holds and however its calls fare, and adds nothing to the reads the commit
    depends on.  A second write of the document is refused and makes the session fail, and so does
    its execution. *)
Theorem session_reads_own_writes {UL : UlidLib} {Store Snapshot Weather} {LS : LogicalStore Store Snapshot Weather} self (store : Store) m
  (st st1 : MutationState Snapshot) : document_ok m -> expected_revision m <> Some u64_max -> buffer m st = (Ok tt, st1) ->
  (forall begin read, data_get self store begin read (document_key m) st1 = (Ok (own_document self m), st1))
  /\ ms_reads st1 = ms_reads st
  /\ forall m', document_key m' = document_key m -> exists st2,
       (buffer m' st1 = (Err DE_InvalidRequest, st2) \/ buffer m' st1 = (Err DE_LimitExceeded, st2))
       /\ forall waits close, exists e, fst (finish self store waits close st2) = Err e.
Proof.
  intros Hm Hmax. unfold buffer at 1. destruct (unusable st) eqn:Hu; [done|]. destruct (_ || _); [done|].
  destruct (ms_writes st !! document_key m) eqn:Ew; [done|]. intros [= <-].
  set (st1 := set_writes _ st). assert (unusable st1 = false) as Hu1 by exact Hu.
  assert (ms_writes st1 !! document_key m = Some m) as Hw by apply lookup_insert_eq.
  assert (ms_reads st1 = ms_reads st) as Hr by done. clearbody st1. split; [|split; [exact Hr|]].
  - intros begin read. unfold data_get, buffered_read. rewrite Hu1.
    change (ms_writes st1 !! (document_key m : doc_key) = Some m) in Hw. rewrite Hw. destruct m as [t d e v|]; [|done].
    destruct e as [|n]; [done|]. cbn [expected_ok expected_revision document_ok] in *. destruct Hm as (_ & _ & Hn%is_u64_spec & _).
    rewrite (proj2 (checked_add_Some u64_max n 1 (n + 1))); [done|]. split; [done|]. assert (n <> u64_max) by congruence. lia.
  - intros m' Ek. unfold buffer. rewrite Hu1, Ek, Hw.
    assert (forall f waits close, exists e, fst (finish self store waits close (set_failure f st1)) = Err e) as Hfin.
    { intros f waits close. unfold finish, load_write_bases, unusable. cbn [set_failure ms_failure ms_closed].
      rewrite orb_true_r. cbn [ms_failure set_failure ms_snapshot]. destruct (ms_snapshot st1); [destruct close|]; eauto. }
    destruct (_ || _); eexists; (split; [|apply Hfin]); [right; reflexivity|left; reflexivity].
Qed.

(** A store that is never reached. *)
#[local] Instance no_store : LogicalStore unit unit unit := {
  ls_begin_read := fun _ _ => Err SE_Unavailable;
  ls_commit_sequence := fun _ => 0;
  ls_get_document := fun _ _ _ => Err SE_Unavailable;
  ls_scan_index := fun _ _ _ _ => Err SE_Unavailable;
  ls_commit := fun _ _ _ => (Err SE_Unavailable, tt)
}.

Lemma session_reads_own_writes_witness :
  let self := mkMutationSession sample_scope (from_ulid 7) 1000 (PC_Release (from_ulid 8)) [] in
  let m := DM_Upsert (from_ulid 2) (from_ulid 9) (ER_Exact 4) (CV_Int64 1) in
  exists st1 : MutationState unit, buffer m initial_state = (Ok tt, st1)
    /\ fst (data_get self tt R_Cancelled R_Cancelled (document_key m) st1)
       = Ok (Some (mkDataDocument (from_ulid 2) (from_ulid 9) 5 0 1000 1000 (CV_Int64 1))).
Proof.
  intros self m. destruct (buffer m initial_state) as [[[]|e] st1] eqn:E; [|vm_compute in E; discriminate E].
  exists st1. split; [reflexivity|].
  assert (document_ok m) as Hm by (unfold document_ok, id_ok, ulid_range; cbn; split_and!; done || lia).
  destruct (session_reads_own_writes self tt m initial_state st1 Hm ltac:(discriminate) E) as [Hg _]. by rewrite Hg.
Defined.
