(* ===== verification/MutationCommit.v ===== *)
(** * Mutations at commit: serializability and derived indexes

    Proved from the store's laws: the batch of an attempt is what running the handler alone at the
    moment of the commit would produce, and committing it keeps every index equal to what its
    definition derives from the documents. *)

From Stdlib Require Import Strings.Byte ZArith Lia.
From stdpp Require Import prelude strings list gmap sorting.
From S2P Require Import Prelude Order BTreeMap Ulid Value StoredValue IndexKey Core Schema Release Manifest Bundle StoreModel.
From S2P Require Import Batch Execution Mutation MutationSession.

(** ** Planned index changes *)

Section plan.
Context {UL : UlidLib}.

(** Where one planned change comes from. *)
Definition planned_by (old : gmap doc_key (option CanonicalValue)) (m : DocumentMutation)
  (def : IndexDefinition) (l : list IndexMutation) : Prop :=
  exists v revision ko kn, new_version m = Ok (v, revision)
    /\ key_of def (mjoin (old !! document_key m)) = Ok ko /\ key_of def v = Ok kn
    /\ l = entry_changes m revision def ko kn.

Lemma elem_of_concat_Forall2 {A B} (R : A -> list B -> Prop) l ls x :
  Forall2 R l ls -> x ∈ concat ls <-> exists a y, a ∈ l /\ y ∈ ls /\ R a y /\ x ∈ y.
Proof.
  intros H. induction H as [|a y l ls HR H IH]; cbn [concat].
  - split; [by intros ?%elem_of_nil|]. by intros (a & y & ?%elem_of_nil & _).
  - rewrite elem_of_app, IH. split.
    + intros [Hx|(a' & y' & Ha & Hy & HR' & Hx)]; [exists a, y|exists a', y'];
        rewrite !elem_of_cons; split_and!; auto.
    + intros (a' & y' & Ha & Hy & HR' & Hx). apply elem_of_cons in Hy as [->|Hy]; [by left|right].
      apply list_elem_of_lookup in Hy as [i Hi].
      destruct (Forall2_lookup_r _ _ _ _ _ H Hi) as (a2 & Ha2 & HR2).
      exists a2, y'. split_and!; [by eapply list_elem_of_lookup_2|by eapply list_elem_of_lookup_2|done|done].
Qed.

Lemma plan_definition_planned old m def l v revision : new_version m = Ok (v, revision) ->
  plan_definition m (mjoin (old !! document_key m)) v revision def = Ok l -> planned_by old m def l.
Proof.
  intros Hv H. unfold plan_definition in H. apply rbind_Ok in H as (ko & Hko & H).
  apply rbind_Ok in H as (kn & Hkn & [= <-]). by exists v, revision, ko, kn.
Qed.

(** The plan consists of the changes of every written document in every index of its table. *)
Lemma plan_spec schema writes old l : plan_document_index_mutations schema writes old = Ok l ->
  (forall m def, m ∈ writes -> def ∈ indexes_for_table schema (dm_table_id m) ->
     exists y, planned_by old m def y /\ forall x, x ∈ y -> x ∈ l)
  /\ (forall x, x ∈ l -> exists m def y, m ∈ writes /\ def ∈ indexes_for_table schema (dm_table_id m)
        /\ planned_by old m def y /\ x ∈ y).
Proof.
  unfold plan_document_index_mutations. intros (ls & Hls%try_map_Ok & [= <-])%rbind_Ok.
  assert (forall m y, plan_mutation schema old m = Ok y -> exists ys, y = concat ys
    /\ Forall2 (fun def z => planned_by old m def z) (indexes_for_table schema (dm_table_id m)) ys) as Hm.
  { unfold plan_mutation. intros m y ([v revision] & Hv & H)%rbind_Ok.
    apply rbind_Ok in H as (ys & Hys%try_map_Ok & [= <-]). exists ys. split; [done|].
    eapply Forall2_impl; [exact Hys|]. intros def z Hz. by eapply plan_definition_planned. }
  split.
  - intros m def Hin Hdef. apply list_elem_of_lookup in Hin as [i Hi].
    destruct (Forall2_lookup_l _ _ _ _ _ Hls Hi) as (y & Hy & Hp).
    destruct (Hm m y Hp) as (ys & -> & Hys). apply list_elem_of_lookup in Hdef as [j Hj].
    destruct (Forall2_lookup_l _ _ _ _ _ Hys Hj) as (z & Hz & Hpz). exists z. split; [done|].
    intros x Hx. apply (elem_of_concat_Forall2 _ _ _ x Hls). exists m, (concat ys).
    split_and!; [by eapply list_elem_of_lookup_2|by eapply list_elem_of_lookup_2|done|].
    apply (elem_of_concat_Forall2 _ _ _ x Hys). exists def, z.
    split_and!; [by eapply list_elem_of_lookup_2|by eapply list_elem_of_lookup_2|done|done].
  - intros x (m & y & Hin & _ & Hp & Hx)%(elem_of_concat_Forall2 _ _ _ x Hls).
    destruct (Hm m y Hp) as (ys & -> & Hys).
    apply (elem_of_concat_Forall2 _ _ _ x Hys) in Hx as (def & z & Hdef & _ & Hpz & Hx).
    by exists m, def, z.
Qed.

(** A planned change names the definition's index and the written document. *)
Lemma entry_changes_identity m revision def ko kn x : x ∈ entry_changes m revision def ko kn ->
  exists k, im_identity x = (def_index_id def, encoded k, dm_document_id m) /\ (ko = Some k \/ kn = Some k).
Proof.
  unfold entry_changes. rewrite elem_of_app. intros [H|H].
  - destruct ko as [k|]; [|by apply elem_of_nil in H]. destruct (bool_decide _); [|by apply elem_of_nil in H].
    apply list_elem_of_singleton in H as ->. exists k. auto.
  - destruct kn as [k|]; [|by apply elem_of_nil in H]. apply list_elem_of_singleton in H as ->. exists k. auto.
Qed.
End plan.

(** ** Indexes stay derived *)

Section indexes.
Context {UL : UlidLib} {Store : Type} (V : StoreView Store) (sha256 : bytes -> bytes).
Variables (catalog : SchemaCatalog) (scope : EnvironmentScope).
Hypothesis (catalog_ok : catalog_built sha256 catalog).

(** The document's value has this key in the index. *)
Definition indexed_as (def : IndexDefinition) (v : CanonicalValue) (key : bytes) : Prop :=
  exists k, extract_index_key def v = Ok (Some k) /\ encoded k = key.

(** Every index of the catalog holds exactly the entries its definition derives from the documents,
    each with the document's current revision. *)
Record indexes_match (st : Store) : Prop := {
  im_total def d r : def ∈ cat_indexes catalog -> id_ok d ->
    document V st scope (def_table_id def, d) = Some r -> is_ok (extract_index_key def (dr_value r)) = true;
  im_entries def key d t n : def ∈ cat_indexes catalog -> id_ok d ->
    entry V st scope (def_index_id def) key d = Some (t, n) <->
    t = def_table_id def /\ exists r, document V st scope (t, d) = Some r /\ dr_revision r = n
      /\ indexed_as def (dr_value r) key
}.

Lemma catalog_definitions :
  NoDup (map def_index_id (cat_indexes catalog)) /\ (forall def, def ∈ cat_indexes catalog -> definition_ok def)
  /\ forall t def, def ∈ indexes_for_table catalog t <-> def ∈ cat_indexes catalog /\ def_table_id def = t.
Proof.
  destruct catalog_ok as (p & ds & _ & Hds & (_ & Ei & _ & Hnd & _ & Ht & _)%SchemaCatalog_new_Ok). split_and!.
  - done.
  - intros def. rewrite Ei, elem_of_order_by. rewrite Forall_forall in Hds. apply Hds.
  - intros t def. rewrite Ht, list_elem_of_filter. tauto.
Qed.

Lemma definition_unique def def' : def ∈ cat_indexes catalog -> def' ∈ cat_indexes catalog ->
  def_index_id def = def_index_id def' -> def = def'.
Proof.
  intros Hd Hd' E. apply (by_index_id_inj (cat_indexes catalog)); [apply catalog_definitions|done|done|].
  unfold by_index_id, cmp_on. rewrite E. apply Z.compare_refl.
Qed.

Section commit.
Variables (b : CommitBatch) (st st' : Store) (old : gmap doc_key (option CanonicalValue)).
Hypotheses (Hscope : b_scope b = scope)
  (Hdocs : Forall document_ok (b_documents b))
  (Hnd : NoDup (map document_key (b_documents b)))
  (Hplan : plan_document_index_mutations catalog (b_documents b) old = Ok (b_indexes b))
  (Hold : forall m, m ∈ b_documents b -> dr_value <$> document V st scope (document_key m) = mjoin (old !! document_key m))
  (Happ : applied V b st st').

(** An index change of the batch belongs to the document it names. *)
Lemma planned_identity def key d : def ∈ cat_indexes catalog ->
  (def_index_id def, key, d) ∈ map im_identity (b_indexes b) ->
  exists m y, m ∈ b_documents b /\ document_key m = (def_table_id def, d) /\ planned_by old m def y
    /\ exists x, x ∈ y /\ im_identity x = (def_index_id def, key, d).
Proof.
  intros Hdef (x & E & Hx)%list_elem_of_In%in_map_iff. apply list_elem_of_In in Hx.
  destruct (proj2 (plan_spec catalog (b_documents b) old _ Hplan) x Hx) as (m & def' & y & Hm & Hd' & Hp & Hxy).
  apply catalog_definitions in Hd' as [Hd' Et]. pose proof Hp as (v & revision & ko & kn & _ & _ & _ & ->).
  destruct (entry_changes_identity _ _ _ _ _ _ Hxy) as (k & E' & _). rewrite E in E'. injection E' as Ei _ Ed.
  apply definition_unique in Ei; [|done|done]. subst def'.
  exists m, (entry_changes m revision def ko kn). split_and!; [done| |done|by exists x].
  unfold document_key. congruence.
Qed.

Lemma written_unique m m' : m ∈ b_documents b -> m' ∈ b_documents b -> document_key m = document_key m' -> m = m'.
Proof.
  intros Hm Hm' E. apply list_elem_of_lookup in Hm as [i Hi], Hm' as [j Hj].
  assert (i = j) as ->; [|congruence]. apply (proj1 (NoDup_alt _) Hnd i j (document_key m)).
  - by rewrite list_lookup_fmap, Hi.
  - by rewrite list_lookup_fmap, Hj, E.
Qed.

(** What the written document looks like afterwards. *)
Lemma written_document m v revision : m ∈ b_documents b -> new_version m = Ok (v, revision) ->
  match v with
  | Some v => exists r, document V st' scope (document_key m) = Some r /\ dr_value r = v /\ dr_revision r = revision
  | None => document V st' scope (document_key m) = None
  end.
Proof.
  intros Hm Hv. rewrite <- Hscope. destruct m as [t d [|n] w|t d n]; cbn [new_version] in Hv.
  - injection Hv as <- <-. destruct (ap_upsert _ _ _ _ Happ _ _ _ _ Hm) as (r & ? & ? & ?). by exists r.
  - apply rbind_Ok in Hv as (n' & [-> _]%ok_or_Ok%checked_add_Some & [= <- <-]).
    destruct (ap_upsert _ _ _ _ Happ _ _ _ _ Hm) as (r & ? & ? & ?). by exists r.
  - injection Hv as <- <-. by apply (ap_delete _ _ _ _ Happ _ _ _ Hm).
Qed.

(** The entry of a written document under one key, after the commit. *)
Lemma written_entry m def key : m ∈ b_documents b -> def ∈ indexes_for_table catalog (dm_table_id m) ->
  indexes_match st ->
  exists v revision kn, new_version m = Ok (v, revision) /\ key_of def v = Ok kn
    /\ entry V st' scope (def_index_id def) key (dm_document_id m)
       = match kn with
         | Some k => if bool_decide (encoded k = key) then Some (dm_table_id m, revision) else None
         | None => None
         end.
Proof.
  intros Hm Hdef Hmatch. pose proof Hdef as [Hin Ht]%catalog_definitions.
  destruct (proj1 (plan_spec _ _ _ _ Hplan) m def Hm Hdef) as (y & Hp & Hy).
  destruct Hp as (v & revision & ko & kn & Hv & Hko & Hkn & ->). exists v, revision, kn. split_and!; [done|done|].
  assert (forall k, kn = Some k -> entry V st' scope (def_index_id def) (encoded k) (dm_document_id m)
    = Some (dm_table_id m, revision)) as Hput.
  { intros k ->. rewrite <- Hscope. apply (ap_put _ _ _ _ Happ). apply Hy. unfold entry_changes.
    apply elem_of_app. right. by apply list_elem_of_singleton. }
  destruct (match kn with Some k => bool_decide (encoded k = key) | None => false end) eqn:Ekn.
  { destruct kn as [k|]; [|done]. bool_facts. rewrite bool_decide_eq_true_2 by done. subst key. by apply Hput. }
  assert (entry V st' scope (def_index_id def) key (dm_document_id m) = None) as ->; [|by destruct kn as [k|]; [rewrite Ekn|]].
  destruct (decide (encoded <$> ko = Some key)) as [(k & -> & Ek)%fmap_Some|Hno].
  - rewrite <- Hscope, Ek. apply (ap_remove _ _ _ _ Happ). apply Hy. unfold entry_changes. apply elem_of_app. left.
    rewrite bool_decide_eq_true_2; [by apply list_elem_of_singleton|]. intros ->. by rewrite bool_decide_eq_true_2 in Ekn.
  - destruct (document_ids_ok m (proj1 (Forall_forall _ _) Hdocs m Hm)) as [_ Hid]. rewrite <- Hscope.
    rewrite (ap_entries_frame _ _ _ _ Happ); [|by apply catalog_definitions|done|].
    + rewrite Hscope. destruct (entry V st scope _ _ _) as [[t n]|] eqn:He; [|done].
      apply (im_entries _ Hmatch) in He as (-> & r & Hr & _ & k & Hk & Ek); [|done..]. destruct Hno.
      assert (document_key m = (def_table_id def, dm_document_id m)) as Edk
        by (unfold document_key; by rewrite Ht).
      pose proof (Hold m Hm) as Ho. rewrite Edk, Hr in Ho. cbn in Ho. rewrite Edk, <- Ho in Hko. cbn in Hko.
      rewrite Hk in Hko. injection Hko as <-. cbn. by rewrite Ek.
    + intros (m' & y' & Hm' & Ekey & Hp' & x & Hx & Ex)%planned_identity; [|done].
      assert (m' = m) as ->.
      { apply written_unique; [done|done|]. rewrite Ekey. unfold document_key. rewrite Ht. done. }
      destruct Hp' as (v' & revision' & ko' & kn' & Hv' & Hko' & Hkn' & ->).
      rewrite Hv in Hv'. injection Hv' as <- <-. rewrite Hko in Hko'. injection Hko' as <-.
      rewrite Hkn in Hkn'. injection Hkn' as <-.
      apply entry_changes_identity in Hx as (k & Ei & Hk). rewrite Ex in Ei. injection Ei as ->.
      destruct Hk as [-> | ->]; [by destruct Hno|]. by rewrite bool_decide_eq_true_2 in Ekn.
Qed.

Lemma indexes_kept : indexes_match st -> indexes_match st'.
Proof.
  intros Hmatch.
  assert (forall def d, def ∈ cat_indexes catalog -> id_ok d ->
    (exists m, m ∈ b_documents b /\ document_key m = (def_table_id def, d))
    \/ (document V st' scope (def_table_id def, d) = document V st scope (def_table_id def, d)
        /\ forall key, entry V st' scope (def_index_id def) key d = entry V st scope (def_index_id def) key d)) as Hcases.
  { intros def d Hdef Hd. destruct (proj1 (proj2 catalog_definitions) def Hdef) as (Hi & Ht & _).
    destruct (decide ((def_table_id def, d) ∈ map document_key (b_documents b))) as [Hin|Hout].
    - left. apply list_elem_of_In, in_map_iff in Hin as (m & E & Hm%list_elem_of_In). eauto.
    - right. rewrite <- Hscope. split; [by apply (ap_documents_frame _ _ _ _ Happ)|]. intros key.
      apply (ap_entries_frame _ _ _ _ Happ); [done|done|].
      intros (m & y & Hm & E & _)%planned_identity; [|done]. apply Hout, list_elem_of_In, in_map_iff.
      exists m. split; [done|by apply list_elem_of_In]. }
  assert (forall def m, def ∈ cat_indexes catalog -> dm_table_id m = def_table_id def ->
    def ∈ indexes_for_table catalog (dm_table_id m)) as Htable by (intros; by apply catalog_definitions).
  split.
  - intros def d r Hdef Hd Hr. destruct (Hcases def d Hdef Hd) as [(m & Hm & E)|[Ed _]].
    2:{ rewrite Ed in Hr. by apply (im_total _ Hmatch _ _ _ Hdef Hd). }
    pose proof E as [Et Ei]%pair_equal_spec.
    destruct (written_entry m def [] Hm (Htable def m Hdef Et) Hmatch) as (v & n & kn & Hv & Hk & _).
    pose proof (written_document m v n Hm Hv) as Hw. rewrite E, Hr in Hw. destruct v as [v|]; [|done].
    destruct Hw as (r' & [= <-] & -> & _). cbn in Hk. by destruct (extract_index_key def v).
  - intros def key d t n Hdef Hd. destruct (Hcases def d Hdef Hd) as [(m & Hm & E)|[Ed Ee]].
    2:{ rewrite Ee, (im_entries _ Hmatch _ _ _ _ _ Hdef Hd). split; intros (-> & Hr); (split; [done|]).
        - by rewrite Ed.
        - by rewrite Ed in Hr. }
    pose proof E as [Et Ei]%pair_equal_spec.
    destruct (written_entry m def key Hm (Htable def m Hdef Et) Hmatch) as (v & rev & kn & Hv & Hk & He).
    pose proof (written_document m v rev Hm Hv) as Hw. rewrite E in Hw. rewrite Ei, Et in He. rewrite He. split.
    + destruct kn as [k|]; [|done]. case_bool_decide as Ek; [|done]. intros [= <- <-]. split; [done|].
      destruct v as [v|]; [|done]. destruct Hw as (r & Hr & Hval & Hrev). exists r. split_and!; [done|done|].
      exists k. split; [|done]. rewrite Hval. cbn in Hk. by destruct (extract_index_key def v); [injection Hk as ->|].
    + intros (-> & r & Hr & <- & k & Hx & <-). rewrite Hr in Hw. destruct v as [v|]; [|done].
      destruct Hw as (r' & [= <-] & Hval & Hrev). cbn in Hk. rewrite Hval in Hx. rewrite Hx in Hk.
      injection Hk as <-. by rewrite bool_decide_eq_true_2, Hrev.
Qed.
End commit.
End indexes.

(** ** Extracted keys are well formed *)

Section keys.
Context {UL : UlidLib}.

Lemma resolve_ok path v w : value_ok v = true -> resolve v path = Ok (Some w) -> value_ok w = true.
Proof.
  revert v; induction path as [|x path IH]; intros v Hv; cbn [resolve]; [by intros [= <-]|].
  destruct v as [| | | | | | | | |fs]; try done. destruct (btree_get x fs) as [u|] eqn:E; [|done].
  apply IH. cbn [value_ok] in Hv. bool_facts. apply btree_get_In in E.
  rewrite forallb_forall in H0. apply (H0 (x, u)). by apply list_elem_of_In.
Qed.

Lemma try_from_ok v iv : value_ok v = true -> IndexValue_try_from v = Ok iv -> iv_ok iv = true.
Proof. intros Hv. destruct v; cbn; intros E; inversion E; subst; done. Qed.

Lemma extract_values_ok fields v l : value_ok v = true -> extract_values fields v = Ok (Some l) ->
  forallb iv_ok l = true.
Proof.
  intros Hv. revert l; induction fields as [|path fields IH]; intros l; cbn [extract_values]; [by intros [= <-]|].
  intros ([w|] & Hw & H)%rbind_Ok; [|done]. apply rbind_Ok in H as (iv & Hiv%map_err_Ok & H).
  apply rbind_Ok in H as ([ivs|] & Hivs & H); [|done]. injection H as <-. cbn [forallb].
  apply andb_true_iff. split; [|by apply IH]. eapply try_from_ok; [|done]. by eapply resolve_ok.
Qed.

Lemma extract_index_key_ok def v k : value_ok v = true -> extract_index_key def v = Ok (Some k) -> key_ok k.
Proof.
  intros Hv ([l|] & Hl & H)%rbind_Ok; [|done]. apply rbind_Ok in H as (k' & Hk%map_err_Ok & [= ->]).
  pose proof Hk as (-> & _)%IndexKey_encode_Ok. split; [|done]. cbn. by eapply extract_values_ok.
Qed.

Lemma new_version_ok m v revision : document_ok m -> new_version m = Ok (v, revision) ->
  is_u64 revision = true /\ forall x, v = Some x -> value_ok x = true.
Proof.
  destruct m as [t d [|n] x|t d n]; cbn [document_ok expected_ok new_version].
  - intros (_ & _ & _ & Hv) [= <- <-]. split; [done|]. by intros ? [= <-].
  - intros (_ & _ & Hn%is_u64_spec & Hv) (n' & [-> Hle]%ok_or_Ok%checked_add_Some & [= <- <-])%rbind_Ok.
    split; [apply is_u64_spec; lia|]. by intros ? [= <-].
  - intros _ [= <- <-]. by split.
Qed.

Lemma key_of_ok def v k : (forall x, v = Some x -> value_ok x = true) -> key_of def v = Ok (Some k) -> key_ok k.
Proof. intros Hv. destruct v as [x|]; [|done]. intros H%map_err_Ok. by eapply extract_index_key_ok, H; apply Hv. Qed.

(** Planned changes are well formed when the catalog, the writes and the old values are. *)
Lemma planned_index_ok old m def y x : document_ok m -> definition_ok def -> planned_by old m def y ->
  (forall v, mjoin (old !! document_key m) = Some v -> value_ok v = true) -> x ∈ y -> index_ok x.
Proof.
  intros Hm (Hi & _) (v & revision & ko & kn & Hv & Hko & Hkn & ->) Hold.
  destruct (new_version_ok m v revision Hm Hv) as [Hr Hval]. destruct (document_ids_ok m Hm) as [Ht Hd].
  unfold entry_changes. rewrite elem_of_app. intros [H|H].
  - destruct ko as [k|]; [|by apply elem_of_nil in H]. destruct (bool_decide _); [|by apply elem_of_nil in H].
    apply list_elem_of_singleton in H as ->. cbn. split_and!; [done| |done]. by apply (key_of_ok def _ k Hold).
  - destruct kn as [k|]; [|by apply elem_of_nil in H]. apply list_elem_of_singleton in H as ->.
    cbn. split_and!; try done. by apply (key_of_ok def v k Hval).
Qed.

(** ** Batches *)

Lemma push_all_fields {A} (push : A -> CommitBatch -> CommitBatch) (get : CommitBatch -> list A) l b :
  (forall x b, get (push x b) = get b ++ [x]) -> get (push_all push l b) = get b ++ l.
Proof.
  intros H. unfold push_all. revert b; induction l as [|x l IH]; intros b; cbn; [by rewrite app_nil_r|].
  by rewrite IH, H, <- app_assoc.
Qed.

Lemma push_all_other {A B} (push : A -> CommitBatch -> CommitBatch) (get : CommitBatch -> B) l b :
  (forall x b, get (push x b) = get b) -> get (push_all push l b) = get b.
Proof. intros H. unfold push_all. revert b; induction l as [|x l IH]; intros b; cbn; [done|]. by rewrite IH, H. Qed.

(** The batch holds what was buffered and one event naming the writes, and is valid. *)
Record batch_of (scope : EnvironmentScope) (op : OperationId) (event : OutboxEventId)
  (reads : list DocumentReadAssertion) (documents : list DocumentMutation) (indexes : list IndexMutation)
  (schedules : list ScheduledInvocationInsert) (b : CommitBatch) : Prop := {
  bo_scope : b_scope b = scope;
  bo_operation : b_operation_id b = op;
  bo_reads : b_reads b = reads;
  bo_documents : b_documents b = documents;
  bo_indexes : b_indexes b = indexes;
  bo_outbox : b_outbox b = if bool_decide (documents = []) then []
    else [mkOutboxAppend event (document_write_set_payload documents indexes)];
  bo_schedules : b_schedules b = schedules;
  bo_valid : batch_valid b
}.

Lemma mutation_batch_Ok scope op event reads documents indexes schedules b :
  mutation_batch scope op event reads documents indexes schedules = Ok b ->
  batch_of scope op event reads documents indexes schedules b.
Proof.
  unfold mutation_batch. intros ([] & Hv%map_err_Ok & [= <-])%rbind_Ok. apply validate_spec in Hv.
  split; [..|done]; clear Hv; destruct (bool_decide (documents = []));
    repeat first
      [rewrite (push_all_fields push_schedule b_schedules) by done|rewrite (push_all_other push_schedule) by done
      |rewrite (push_all_fields push_index b_indexes) by done|rewrite (push_all_other push_index) by done
      |rewrite (push_all_fields push_document b_documents) by done|rewrite (push_all_other push_document) by done
      |rewrite (push_all_fields push_read b_reads) by done|rewrite (push_all_other push_read) by done
      |progress cbn [b_scope b_operation_id b_reads b_documents b_indexes b_outbox b_schedules push_outbox
         CommitBatch_new app]]; done.
Qed.
End keys.

(** ** The event payload *)

Section payload.
Context {UL : UlidLib} {ULL : UlidLaws}.

Lemma id_text_ok {k} (i : ResourceId k) : id_ok i -> utf8_valid (id_to_string i) = true.
Proof. intros Hi. by apply ascii_utf8_valid, id_to_string_ascii. Qed.

Lemma write_impact_ok m : document_ok m -> value_ok (write_impact m) = true.
Proof.
  intros [Ht Hd]%document_ids_ok. unfold write_impact. cbn [value_ok map fst snd forallb text_value].
  rewrite !id_text_ok by done. by destruct m as [? ? [] ?|].
Qed.

Lemma index_impact_ok x : index_ok x -> value_ok (index_impact x) = true.
Proof.
  destruct x as [i k t d r|i k d]; cbn [index_ok index_impact].
  - intros (Hi & _ & _ & Hd & _). cbn [value_ok map fst snd forallb text_value]. by rewrite !id_text_ok.
  - intros (Hi & _ & Hd). cbn [value_ok map fst snd forallb text_value]. by rewrite !id_text_ok.
Qed.

Lemma payload_ok documents indexes : Forall document_ok documents -> Forall index_ok indexes ->
  value_ok (document_write_set_payload documents indexes) = true.
Proof.
  intros Hd Hi. unfold document_write_set_payload. cbn [value_ok map fst snd forallb text_value].
  assert (forallb value_ok (map index_impact indexes) = true) as ->.
  { apply forallb_forall. intros v (x & <- & Hx)%in_map_iff. rewrite Forall_forall in Hi.
    apply index_impact_ok, Hi. by apply list_elem_of_In. }
  assert (forallb value_ok (map write_impact documents) = true) as ->; [|done].
  apply forallb_forall. intros v (x & <- & Hx)%in_map_iff. rewrite Forall_forall in Hd.
  apply write_impact_ok, Hd. by apply list_elem_of_In.
Qed.
End payload.

(** ** Attempts *)

Section attempts.
Context {UL : UlidLib} {ULL : UlidLaws} {Store Snapshot Weather : Type} {LS : LogicalStore Store Snapshot Weather}.
Variable (sha256 : bytes -> bytes) (V : StoreView Store).
Context {SL : StoreLaws V}.
Variables (self : MutationSession) (schema : option SchemaCatalog).
Hypotheses (self_ok : session_ok self) (schema_ok : forall c, schema = Some c -> catalog_built sha256 c).
Abbreviation scope := (sn_scope self).

Definition old_values (st : MutationState Snapshot) : gmap doc_key (option CanonicalValue) :=
  (fun o : option DataDocument => dd_value <$> o) <$> ms_reads st.

Definition planned (b : CommitBatch) (st : MutationState Snapshot) : Prop :=
  match schema with
  | Some c => plan_document_index_mutations c (b_documents b) (old_values st) = Ok (b_indexes b)
  | None => b_indexes b = []
  end.

(** What the batch of an attempt is made of. *)
Record attempt_facts (store : Store) (b : CommitBatch) (st : MutationState Snapshot) : Prop := {
  af_closed : closed_well V self store st;
  af_batch : batch_of scope (sn_operation_id self) (from_ulid (as_ulid (sn_operation_id self)))
    (map read_assertion (doc_entries (ms_reads st))) (map snd (doc_entries (ms_writes st))) (b_indexes b)
    (ms_schedules st) b;
  af_planned : planned b st
}.

Lemma attempt_batch_facts handler faults load close store v b : store_ok V store -> handler_ok handler ->
  attempt_batch sha256 self schema handler faults load close store = Ok (v, Some b) ->
  exists st, attempt_facts store b st.
Proof.
  intros Hst Hh. unfold attempt_batch. destruct (run _ _ _ _ _ _) as [r st0] eqn:Er.
  intros (buf & Hfin%map_err_Ok & H)%rbind_Ok. apply rbind_Ok in H as (value & _ & H).
  destruct (run_finish_healthy sha256 V self self_ok store faults load close handler r st0 buf Hst Hh Er Hfin)
    as (st & Hcw & -> & _). exists st.
  destruct (_ && _); [done|]. apply rbind_Ok in H as (idx & Hidx & H).
  apply rbind_Ok in H as (b' & Hb%mutation_batch_Ok & [= <- <-]). destruct (bo_indexes _ _ _ _ _ _ _ _ Hb).
  split; [done|done|]. unfold planned. rewrite (bo_documents _ _ _ _ _ _ _ _ Hb).
  destruct schema; [exact Hidx|]. by injection Hidx as <-.
Qed.

Lemma elem_of_reads st a : a ∈ map read_assertion (doc_entries (ms_reads st)) <->
  exists k o, ms_reads (Snapshot := Snapshot) st !! k = Some o /\ a = read_assertion (k, o).
Proof.
  rewrite list_elem_of_In, in_map_iff. split.
  - intros ([k o] & <- & Hin%list_elem_of_In%elem_of_doc_entries). eauto.
  - intros (k & o & Hk & ->). exists (k, o). split; [done|]. by apply list_elem_of_In, elem_of_doc_entries.
Qed.

Lemma elem_of_writes st m : m ∈ map snd (doc_entries (ms_writes st)) <->
  exists k, ms_writes (Snapshot := Snapshot) st !! k = Some m.
Proof.
  rewrite list_elem_of_In, in_map_iff. split.
  - intros ([k o] & <- & Hin%list_elem_of_In%elem_of_doc_entries). eauto.
  - intros (k & Hk). exists (k, m). split; [done|]. by apply list_elem_of_In, elem_of_doc_entries.
Qed.

Lemma observed_ok store k : store_ok V store -> doc_key_ok k ->
  (forall n, dd_revision <$> observed V self store k = Some n -> is_u64 n = true)
  /\ forall v, dd_value <$> observed V self store k = Some v -> value_ok v = true.
Proof.
  intros Hst Hk. pose proof (observed_typed V self self_ok store k Hst Hk) as H.
  destruct (observed V self store k) as [d|]; [|done]. destruct (H d eq_refl). by split; intros ? [= <-].
Qed.

Lemma attempt_indexes_ok store b st : store_ok V store -> attempt_facts store b st -> Forall index_ok (b_indexes b).
Proof.
  intros Hst [Hcw Hb Hp]. unfold planned in Hp. destruct schema as [c|] eqn:Es; [|rewrite Hp; constructor].
  destruct (catalog_definitions sha256 c (schema_ok c eq_refl)) as (_ & Hdef & Htab).
  apply Forall_forall. intros x Hx. apply (proj2 (plan_spec _ _ _ _ Hp)) in Hx as (m & def & y & Hm & [Hd _]%Htab & Hy & Hx).
  rewrite (bo_documents _ _ _ _ _ _ _ _ Hb) in Hm. apply elem_of_writes in Hm as [k Hk].
  eapply planned_index_ok; [by eapply (so_writes _ _ _ _ (cw_ok _ _ _ _ Hcw))|by apply Hdef|done| |done].
  intros v. unfold old_values. rewrite lookup_fmap. destruct (ms_reads st !! document_key m) as [o|] eqn:Er; [|done].
  destruct (so_reads _ _ _ _ (cw_ok _ _ _ _ Hcw) _ _ Er) as [Hkey ->]. cbn. by apply observed_ok.
Qed.

(** The batch of an attempt is one the store accepts. *)
Lemma attempt_batch_wf store b st : store_ok V store -> attempt_facts store b st -> batch_wf b.
Proof.
  intros Hst Haf. pose proof Haf as [Hcw Hb _]. pose proof self_ok as (Hsc & Hop & _).
  assert (Forall document_ok (b_documents b)) as Hdocs.
  { rewrite (bo_documents _ _ _ _ _ _ _ _ Hb). apply Forall_forall. intros m [k Hk]%elem_of_writes.
    by apply (so_writes _ _ _ _ (cw_ok _ _ _ _ Hcw)) in Hk as [_ ?]. }
  pose proof (attempt_indexes_ok store b st Hst Haf) as Hidx. split; [..|done|done| |].
  - by rewrite (bo_scope _ _ _ _ _ _ _ _ Hb).
  - by rewrite (bo_operation _ _ _ _ _ _ _ _ Hb).
  - rewrite (bo_reads _ _ _ _ _ _ _ _ Hb). apply Forall_forall. intros a (k & o & Hk & ->)%elem_of_reads.
    destruct (so_reads _ _ _ _ (cw_ok _ _ _ _ Hcw) _ _ Hk) as [[Ht Hd] ->]. split; [done|]. split; [done|].
    by apply observed_ok.
  - rewrite (bo_outbox _ _ _ _ _ _ _ _ Hb). rewrite <- (bo_documents _ _ _ _ _ _ _ _ Hb).
    destruct (bool_decide _); constructor; [|constructor]. split; [done|]. by apply payload_ok.
  - rewrite (bo_schedules _ _ _ _ _ _ _ _ Hb). apply (cw_ok _ _ _ _ Hcw).
Qed.

(** The store shows the same document whenever it shows the same revision of it. *)
Definition same_versions (store store' : Store) (b : CommitBatch) : Prop :=
  forall a, a ∈ b_reads b ->
    dr_revision <$> document V store' scope (read_key a) = dr_revision <$> document V store scope (read_key a) ->
    document V store' scope (read_key a) = document V store scope (read_key a).

(** Under that condition a commit finds every document the attempt has read as it was. *)
Lemma reads_current store store' store'' b st k : attempt_facts store b st ->
  same_versions store store' b -> applied V b store' store'' -> k ∈ dom (ms_reads st) ->
  document V store' scope k = document V store scope k.
Proof.
  intros [Hcw Hb _] Hsame Happ [o Hk]%elem_of_dom.
  destruct (so_reads _ _ _ _ (cw_ok _ _ _ _ Hcw) k o Hk) as [_ ->].
  assert (read_assertion (k, observed V self store k) ∈ b_reads b) as Hin.
  { rewrite (bo_reads _ _ _ _ _ _ _ _ Hb). apply elem_of_reads. eauto. }
  pose proof (Hsame _ Hin) as Hd. unfold read_key, read_assertion in Hd. cbn [ra_table_id ra_document_id fst snd] in Hd.
  destruct k as [t d]. apply Hd. cbn [fst snd] in *.
  pose proof (ap_reads _ _ _ _ Happ _ Hin) as Hr. rewrite (bo_scope _ _ _ _ _ _ _ _ Hb) in Hr.
  unfold read_key, read_assertion in Hr. cbn [ra_table_id ra_document_id ra_observed_revision fst snd] in Hr.
  rewrite Hr. unfold observed. by destruct (document V store scope (t, d)).
Qed.

(** Serializability: the attempt is what running the handler alone on the store at the time of the
    commit produces. *)
Lemma attempt_serializable handler faults load close store store' store'' v b :
  store_ok V store -> store_ok V store' -> handler_ok handler ->
  attempt_batch sha256 self schema handler faults load close store = Ok (v, Some b) ->
  same_versions store store' b -> applied V b store' store'' ->
  attempt_batch sha256 self schema handler (fun _ => no_faults) (fun _ => W_Ready) W_Ready store' = Ok (v, Some b).
Proof.
  intros Hst Hst' Hh Ha Hsame Happ.
  destruct (attempt_batch_facts _ _ _ _ _ _ _ Hst Hh Ha) as (st & Haf). revert Ha.
  unfold attempt_batch. destruct (run _ _ store _ _ _) as [r st0] eqn:Er.
  intros (buf & Hfin%map_err_Ok & H)%rbind_Ok.
  assert (forall k, k ∈ dom (bm_old_values buf) -> document V store' scope k = document V store scope k) as Hagree.
  { intros k Hk. eapply reads_current; [exact Haf|done|done|].
    destruct (run_finish_healthy sha256 V self self_ok store faults load close handler r st0 buf Hst Hh Er Hfin)
      as (st' & _ & -> & _). cbn [buffered_of bm_old_values] in Hk. rewrite dom_fmap_L in Hk.
    apply rbind_Ok in H as (value & _ & H). destruct (_ && _); [done|]. apply rbind_Ok in H as (idx & _ & H).
    apply rbind_Ok in H as (b' & Hb%mutation_batch_Ok & [= _ <-]).
    pose proof (bo_reads _ _ _ _ _ _ _ _ Hb) as E1. rewrite (bo_reads _ _ _ _ _ _ _ _ (af_batch _ _ _ Haf)) in E1.
    cbn [buffered_of bm_reads] in E1. apply elem_of_dom in Hk as [o Hk].
    assert (read_assertion (k, o) ∈ map read_assertion (doc_entries (ms_reads st))) as Hin.
    { rewrite E1. apply elem_of_reads. eauto. }
    apply elem_of_reads in Hin as (k' & o' & Hk' & E2). unfold read_assertion in E2. cbn [fst snd] in E2.
    injection E2 as Et Ed _. assert (k = k') as <- by (destruct k, k'; cbn in *; congruence).
    by apply elem_of_dom_2 in Hk'. }
  destruct (run_finish_repeats sha256 V self self_ok store store' faults load close handler r st0 buf Hst Hst' Hh Er Hfin Hagree)
    as (st1 & -> & ->). exact H.
Qed.

(** The values the indexes were planned from are the stored ones at the commit. *)
Lemma old_values_current store store' store'' b st m : attempt_facts store b st ->
  same_versions store store' b -> applied V b store' store'' -> m ∈ b_documents b ->
  dr_value <$> document V store' scope (document_key m) = mjoin (old_values st !! document_key m).
Proof.
  intros Haf Hsame Happ Hm. pose proof Haf as [Hcw Hb _]. unfold old_values. rewrite lookup_fmap.
  destruct (ms_reads st !! document_key m) as [o|] eqn:Er; cbn.
  - rewrite (reads_current store store' store'' b st) by (try done; by apply elem_of_dom_2 in Er).
    destruct (so_reads _ _ _ _ (cw_ok _ _ _ _ Hcw) _ _ Er) as [_ ->]. unfold observed.
    by destruct (document V store scope (document_key m)).
  - pose proof (ap_expected _ _ _ _ Happ m Hm) as He. rewrite (bo_scope _ _ _ _ _ _ _ _ Hb) in He.
    rewrite (bo_documents _ _ _ _ _ _ _ _ Hb) in Hm. apply elem_of_writes in Hm as [k Hk].
    destruct (so_writes _ _ _ _ (cw_ok _ _ _ _ Hcw) k m Hk) as [-> _].
    destruct (expected_revision m) eqn:Ee.
    + apply not_elem_of_dom in Er. destruct Er. apply (cw_bases _ _ _ _ Hcw _ m Hk). by rewrite Ee.
    + by destruct (document V store' scope (document_key m)).
Qed.

(** A commit of an attempt's batch keeps the indexes of the catalog equal to what they derive from. *)
Lemma attempt_indexes_kept catalog store store' store'' b st : schema = Some catalog ->
  attempt_facts store b st -> same_versions store store' b -> applied V b store' store'' ->
  indexes_match V catalog scope store' -> indexes_match V catalog scope store''.
Proof.
  intros Es Haf Hsame Happ. pose proof Haf as [Hcw Hb Hp]. unfold planned in Hp. rewrite Es in Hp.
  apply (indexes_kept V sha256 catalog scope (schema_ok catalog Es) b store' store'' (old_values st)).
  - by apply (bo_scope _ _ _ _ _ _ _ _ Hb).
  - rewrite (bo_documents _ _ _ _ _ _ _ _ Hb). apply Forall_forall. intros m [k Hk]%elem_of_writes.
    by apply (so_writes _ _ _ _ (cw_ok _ _ _ _ Hcw)) in Hk as [_ ?].
  - apply (bo_valid _ _ _ _ _ _ _ _ Hb).
  - done.
  - intros m Hm. by eapply old_values_current.
  - done.
Qed.
End attempts.
