(* ===== verification/MutationExecute.v ===== *)
(** * Executing a Mutation among other clients

    [commit_exact] and [execute_inner] of runku-execution/src/mutation.rs over any store that keeps
    its laws, while other clients change the store between the calls: the execution takes effect at
    most once, only as a whole, and a successful outcome is the one of running the handler alone. *)

From Stdlib Require Import Strings.Byte ZArith Lia.
From stdpp Require Import prelude strings list gmap sorting relations.
From S2P Require Import Prelude Order BTreeMap Ulid Value StoredValue IndexKey Core Schema Release Manifest Bundle StoreModel.
From S2P Require Import Batch Execution Mutation MutationSession MutationCommit.

Section execution.
Context {UL : UlidLib} {ULL : UlidLaws} {Store Snapshot Weather : Type} {LS : LogicalStore Store Snapshot Weather}.
Variable (sha256 : bytes -> bytes) (V : StoreView Store).
Context {SL : StoreLaws V}.

(** What other clients do to the store keeps its invariant and the journal of the Environment. *)
Variables (home : EnvironmentScope) (others : Store -> Store -> Prop).
Hypothesis (others_ok : forall st st', store_ok V st -> others st st' -> store_ok V st').
Hypothesis (others_recorded : forall st st' op,
  others st st' -> recorded V st home op -> recorded V st' home op).

Lemma others_ok_rtc st st' : store_ok V st -> rtc others st st' -> store_ok V st'.
Proof. intros H. induction 1; eauto. Qed.

Lemma others_recorded_rtc st st' op : rtc others st st' -> recorded V st home op -> recorded V st' home op.
Proof. induction 1; eauto. Qed.

(** ** One batch *)

(** How the calls for one batch end: it never takes effect, and success is a replay; or it takes
    effect once, and the outcome is not a conflict. *)
Inductive committed (b : CommitBatch) (store : Store) : result StoreError CommitResult -> Store -> Prop :=
| committed_nothing r store' : rtc others store store' ->
    (forall res, r = Ok res -> cr_replayed res = true /\ recorded V store' (b_scope b) (b_operation_id b)) ->
    committed b store r store'
| committed_once r w st1 st2 store' : rtc others store st1 -> st2 = snd (ls_commit w b st1) -> applied V b st1 st2 ->
    rtc others st2 store' -> r <> Err SE_MutationConflict -> committed b store r store'.

(** After the batch took effect, every further call leaves the store alone. *)
Lemma commit_recorded_call w b st : store_ok V st -> batch_wf b -> batch_valid b ->
  recorded V st (b_scope b) (b_operation_id b) ->
  snd (ls_commit w b st) = st /\ fst (ls_commit w b st) <> Err SE_MutationConflict.
Proof.
  intros Hst Hb Hv Hrec. destruct (law_commit w b st Hst Hb Hv) as [_ [res _ _|res st' _ Ha|e He|st' Ha]].
  - done.
  - by destruct (ap_new _ _ _ _ Ha).
  - split; [done|]. intros [= ->]. by apply (He Hrec).
  - by destruct (ap_new _ _ _ _ Ha).
Qed.

Section batch.
Variables (before : Z -> Store -> Store) (weather : Z -> Weather) (b : CommitBatch).
Hypothesis (before_others : forall n st, store_ok V st -> rtc others st (before n st)).
Hypotheses (b_home : b_scope b = home) (b_wf : batch_wf b) (b_valid : batch_valid b).

Lemma retries_recorded fuel retry last store :
  store_ok V store -> recorded V store (b_scope b) (b_operation_id b) -> last <> SE_MutationConflict ->
  rtc others store (snd (commit_retries before weather b fuel retry last store))
  /\ fst (commit_retries before weather b fuel retry last store) <> Err SE_MutationConflict.
Proof.
  revert retry last store; induction fuel as [|fuel IH]; intros retry last store Hst Hrec Hl; cbn [commit_retries].
  { split; [done|]. intros [= ->]. done. }
  pose proof (before_others retry store Hst) as Hb.
  pose proof (others_ok_rtc _ _ Hst Hb) as Hst1. pose proof Hrec as Hrec1.
  rewrite b_home in Hrec1. apply (others_recorded_rtc _ _ _ Hb) in Hrec1. rewrite <- b_home in Hrec1.
  destruct (commit_recorded_call (weather retry) b _ Hst1 b_wf b_valid Hrec1) as [E Hn].
  destruct (ls_commit _ _ _) as [[r|e] st1]; cbn [fst snd] in *; subst st1; [done|].
  destruct (transient e && _); [|done]. destruct (IH (retry + 1) e (before retry store) Hst1 Hrec1) as [IH1 IH2]; [congruence|].
  split; [by etrans|done].
Qed.

Lemma retries_committed fuel retry last store : store_ok V store -> last <> SE_MutationConflict ->
  committed b store (fst (commit_retries before weather b fuel retry last store))
    (snd (commit_retries before weather b fuel retry last store)).
Proof.
  revert retry last store; induction fuel as [|fuel IH]; intros retry last store Hst Hl; cbn [commit_retries].
  { by apply committed_nothing. }
  pose proof (before_others retry store Hst) as Hb. pose proof (others_ok_rtc _ _ Hst Hb) as Hst1.
  destruct (law_commit (weather retry) b _ Hst1 b_wf b_valid) as [Hst2 Heff].
  destruct (ls_commit _ _ _) as [r st2] eqn:Ec. cbn [fst snd] in *. apply (f_equal snd) in Ec. cbn [snd] in Ec.
  destruct Heff as [res Hrep Hrec|res st' Hrep Ha|e He|st' Ha]; cbn [fst snd].
  - apply committed_nothing; [done|]. by intros ? [= <-].
  - by eapply committed_once.
  - destruct (transient e && _) eqn:Et; [|by apply committed_nothing].
    destruct (IH (retry + 1) e (before retry store) Hst1) as [r st' Hr Hres|r w st1 st2 st' H1 Hw Ha H2 Hn].
    + intros ->. done.
    + apply committed_nothing; [by etrans|done].
    + eapply committed_once; [by etrans|done..].
  - destruct (transient SE_ResultUncertain && _); [|by eapply committed_once].
    destruct (retries_recorded fuel (retry + 1) SE_ResultUncertain st' Hst2 (ap_recorded _ _ _ _ Ha)) as [H1 H2]; [done|].
    by eapply committed_once.
Qed.

Lemma commit_exact_committed store : store_ok V store ->
  committed b store (fst (commit_exact before weather b store)) (snd (commit_exact before weather b store)).
Proof. intros H. by apply retries_committed. Qed.
End batch.

(** ** The whole execution *)

Section attempts.
Variables (self : MutationSession) (schema : option SchemaCatalog) (grants : Grants).
Variables (invoke : Grants -> Z -> Handler) (wd : World (Store := Store) (Weather := Weather)).
Hypotheses (self_home : sn_scope self = home) (self_ok : session_ok self) (schema_ok : forall c, schema = Some c -> catalog_built sha256 c).
Hypothesis (invoke_ok : forall n, handler_ok (invoke grants n)).
Hypothesis (read_others : forall n st, store_ok V st -> rtc others st (wd_before_read wd n st)).
Hypothesis (commit_others : forall n k st, store_ok V st -> rtc others st (wd_before_commit wd n k st)).

(** Attempt [n] as it ran, from the store its snapshot was taken of. *)
Definition attempt_at (n : Z) (st : Store) : result MutationExecutionError (CanonicalValue * option CommitBatch) :=
  attempt_batch sha256 self schema (invoke grants n) (wd_faults wd n) (wd_load wd n) (wd_close wd n) st.

(** Attempt [n] alone on the store: nothing fails and nobody interferes. *)
Definition alone_at (n : Z) (st : Store) : result MutationExecutionError (CanonicalValue * option CommitBatch) :=
  attempt_batch sha256 self schema (invoke grants n) (fun _ => no_faults) (fun _ => W_Ready) W_Ready st.

(** How an execution ends.  Either it changes nothing, and a success is a replay or the outcome of a
    handler that wrote nothing; or the batch of one attempt takes effect once, and a success reports
    that attempt's value. *)
Inductive executed (store : Store) : result MutationExecutionError MutationOutcome -> Store -> Prop :=
| executed_nothing r store' : rtc others store store' ->
    (forall out, r = Ok out -> mo_replayed out = true) -> executed store r store'
| executed_pure n v st0 : rtc others store st0 -> attempt_at n st0 = Ok (v, None) ->
    executed store (Ok (mkMutationOutcome v None false n)) st0
| executed_applied n v b w st0 st1 st2 r store' : rtc others store st0 -> attempt_at n st0 = Ok (v, Some b) ->
    rtc others st0 st1 -> st2 = snd (ls_commit w b st1) -> applied V b st1 st2 -> rtc others st2 store' ->
    (forall out, r = Ok out -> mo_value out = v /\ mo_attempts out = n) ->
    r <> Err (ME_Storage SE_MutationConflict) ->
    executed store r store'.

Lemma executed_after store store1 r store' : rtc others store store1 -> executed store1 r store' -> executed store r store'.
Proof.
  intros H [r1 st Ho Hr|n v st Ho Ha|n v b w st0 st1 st2 r1 st Ho Ha H1 Hw Happ H2 Hv Hn].
  - apply executed_nothing; [by etrans|done].
  - apply executed_pure; [by etrans|done].
  - eapply executed_applied; [by etrans|done..].
Qed.

Lemma attempt_at_wf n st v b : store_ok V st -> attempt_at n st = Ok (v, Some b) -> b_scope b = home /\ batch_wf b /\ batch_valid b.
Proof.
  intros Hst H. destruct (attempt_batch_facts sha256 V self schema self_ok schema_ok _ _ _ _ _ _ _ Hst (invoke_ok n) H) as [s Hs].
  split; [rewrite <- self_home; apply (af_batch _ _ _ _ _ _ Hs)|].
  split; [by eapply (attempt_batch_wf sha256 V self schema)|apply (af_batch _ _ _ _ _ _ Hs)].
Qed.

Lemma attempts_executed fuel n store : store_ok V store ->
  executed store (fst (attempts sha256 self schema grants invoke wd fuel n store))
    (snd (attempts sha256 self schema grants invoke wd fuel n store)).
Proof.
  revert n store; induction fuel as [|fuel IH]; intros n store Hst; cbn [attempts]; [by apply executed_nothing|].
  pose proof (read_others n store Hst) as Hb. pose proof (others_ok_rtc _ _ Hst Hb) as Hst0.
  apply (executed_after _ _ _ _ Hb). generalize dependent (wd_before_read wd n store). intros st0 Hb Hst0.
  fold (attempt_at n st0). destruct (attempt_at n st0) as [[v [b|]]|e] eqn:Ea; [|by apply executed_pure|by apply executed_nothing].
  destruct (attempt_at_wf n st0 v b Hst0 Ea) as (Hhome & Hwf & Hval).
  pose proof (commit_exact_committed (wd_before_commit wd n) (wd_weather wd n) b (commit_others n) Hhome Hwf Hval st0 Hst0) as Hc.
  destruct (commit_exact _ _ _ _) as [r st']. cbn [fst snd] in Hc.
  destruct Hc as [r st' Ho Hr|r w st1 st2 st' H1 Hw Ha H2 Hn].
  - destruct r as [res|[]]; try by apply executed_nothing.
    + apply executed_nothing; [done|]. intros out [= <-]. by apply (Hr res).
    + destruct (n <? MAX_ATTEMPTS); [|by apply executed_nothing].
      eapply executed_after; [exact Ho|]. apply IH. by eapply others_ok_rtc.
  - destruct r as [res|[]]; try done; apply (executed_applied _ n v b w st0 st1 st2); try done.
    by intros out [= <-].
Qed.

(** A handler that wrote nothing has the outcome it has alone on the store it read. *)
Lemma executed_pure_alone n st v : store_ok V st -> attempt_at n st = Ok (v, None) -> alone_at n st = Ok (v, None).
Proof.
  intros Hst. unfold attempt_at, alone_at, attempt_batch. destruct (run _ _ _ (wd_faults wd n) _ _) as [r st0] eqn:Er.
  intros (buf & Hfin%map_err_Ok & H)%rbind_Ok.
  destruct (run_finish_repeats sha256 V self self_ok st st _ _ _ _ r st0 buf Hst Hst (invoke_ok n) Er Hfin) as (st1 & -> & ->); [done|].
  exact H.
Qed.

(** What took effect is what the handler, run alone at the moment of the commit, would have done. *)
Lemma executed_serial n st0 st1 st2 v b : store_ok V st0 -> rtc others st0 st1 ->
  attempt_at n st0 = Ok (v, Some b) -> applied V b st1 st2 -> same_versions V self st0 st1 b ->
  alone_at n st1 = Ok (v, Some b).
Proof.
  intros Hst0 Ho Ha Happ Hs. pose proof (others_ok_rtc _ _ Hst0 Ho) as Hst1.
  exact (attempt_serializable sha256 V self schema self_ok schema_ok _ _ _ _ st0 st1 st2 v b Hst0 Hst1 (invoke_ok n) Ha Hs Happ).
Qed.

(** And the indexes of the catalog still hold exactly what they derive from the documents. *)
Lemma executed_indexes catalog n st0 st1 st2 v b : schema = Some catalog -> store_ok V st0 ->
  attempt_at n st0 = Ok (v, Some b) -> applied V b st1 st2 -> same_versions V self st0 st1 b ->
  indexes_match V catalog (sn_scope self) st1 -> indexes_match V catalog (sn_scope self) st2.
Proof.
  intros Es Hst0 Ha Happ Hs.
  destruct (attempt_batch_facts sha256 V self schema self_ok schema_ok _ _ _ _ _ _ _ Hst0 (invoke_ok n) Ha) as [s Hf].
  exact (attempt_indexes_kept sha256 V self schema schema_ok catalog st0 st1 st2 b s Es Hf Hs Happ).
Qed.
End attempts.

(** ** Preparation *)

(** The parts of a request the types of the source guarantee. *)
Definition request_wf (request : InvocationRequest) : Prop :=
  scope_ok (rq_scope request) /\ pinned_ok (rq_pinned_code request).

Lemma active_schema_built attached request c : (forall c, attached = Some c -> catalog_built sha256 c) ->
  active_schema sha256 attached request = Ok (Some c) -> catalog_built sha256 c.
Proof.
  intros Hat (o & Ho & H)%rbind_Ok. destruct o as [c'|]; [|done]. destruct (_ || _); [done|]. injection H as ->.
  destruct attached as [c''|]; [injection Ho as ->; by apply Hat|]. destruct (bool_decide _); [|done].
  apply rbind_Ok in Ho as (bundle & _ & Ho). apply rbind_Ok in Ho as (w & _ & Ho).
  apply rbind_Ok in Ho as (c' & Hc%map_err_Ok & [= ->]).
  apply decode_schema_catalog_Ok in Hc as (p & ds & Hp & Hds & _ & Hn & _). by exists p, ds.
Qed.

Lemma prepare_ok timestamp_ms attached request op self schema grants :
  (forall c, attached = Some c -> catalog_built sha256 c) -> request_wf request -> id_ok op ->
  prepare sha256 timestamp_ms attached request op = Ok (self, schema, grants) ->
  session_ok self /\ sn_scope self = rq_scope request /\ forall c, schema = Some c -> catalog_built sha256 c.
Proof.
  intros Hat [Hsc Hp] Hop (schema' & Hs & H)%rbind_Ok. apply rbind_Ok in H as (base & Hb%ok_or_Ok & H).
  apply rbind_Ok in H as (f & _ & H). apply rbind_Ok in H as (_ & _ & H). apply rbind_Ok in H as (g & _ & [= <- <- <-]).
  split; [|split; [done|]].
  - split_and!; [done|done|done|]. cbn. destruct (checked_mul _ _ _) as [z|]; [|done].
    apply try_from_u_Some in Hb as [-> ?]. apply is_i64_spec. unfold i64_min, i64_max in *. lia.
  - intros c ->. by eapply active_schema_built.
Qed.
End execution.

(** ** An execution as a trace of the store *)

Section traces.
Context {UL : UlidLib} {Store Snapshot Weather : Type} {LS : LogicalStore Store Snapshot Weather}.
Variable sha256 : bytes -> bytes.
Variables (ok : Store -> Prop) (step : Store -> Store -> Prop).
Hypothesis step_ok : forall st st', ok st -> step st st' -> ok st'.

Lemma trace_ok st st' : ok st -> rtc step st st' -> ok st'.
Proof. intros Hst. induction 1; eauto. Qed.

Lemma retries_trace before weather b fuel retry last st :
  (forall n st, ok st -> rtc step st (before n st)) -> (forall w st, ok st -> step st (snd (ls_commit w b st))) ->
  ok st -> rtc step st (snd (commit_retries before weather b fuel retry last st)).
Proof.
  intros Hb Hc. revert retry last st; induction fuel as [|fuel IH]; intros retry last st Hst; cbn [commit_retries]; [done|].
  pose proof (Hb retry st Hst) as H0. pose proof (trace_ok _ _ Hst H0) as Hst0.
  pose proof (Hc (weather retry) _ Hst0) as H1. pose proof (step_ok _ _ Hst0 H1) as Hst1.
  destruct (ls_commit _ _ _) as [[r|e] st1]; cbn [snd] in *; [by eapply rtc_r|].
  destruct (transient e && _); cbn [snd]; [|by eapply rtc_r]. etrans; [by eapply rtc_r|]. by apply IH.
Qed.

Lemma attempts_trace self schema grants invoke wd fuel n st :
  (forall n st, ok st -> rtc step st (wd_before_read wd n st)) ->
  (forall n k st, ok st -> rtc step st (wd_before_commit wd n k st)) ->
  (forall n st v b w st', ok st -> attempt_at sha256 self schema grants invoke wd n st = Ok (v, Some b) -> ok st' ->
     step st' (snd (ls_commit w b st'))) ->
  ok st -> rtc step st (snd (attempts sha256 self schema grants invoke wd fuel n st)).
Proof.
  intros Hr Hc Ha. revert n st; induction fuel as [|fuel IH]; intros n st Hst; cbn [attempts]; [done|].
  etrans; [by apply (Hr n)|]. pose proof (trace_ok _ _ Hst (Hr n st Hst)) as Hst0.
  generalize dependent (wd_before_read wd n st). intros st0 Hst0.
  fold (attempt_at sha256 self schema grants invoke wd n st0).
  destruct (attempt_at _ _ _ _ _ _ _ _) as [[v [b|]]|e] eqn:Ea; [|done|done].
  pose proof (retries_trace (wd_before_commit wd n) (wd_weather wd n) b (Z.to_nat MAX_ATTEMPTS) 0 SE_Internal st0 (Hc n)
    (fun w st' => Ha n st0 v b w st' Hst0 Ea) Hst0) as H1.
  fold (commit_exact (wd_before_commit wd n) (wd_weather wd n) b st0) in H1. pose proof (trace_ok _ _ Hst0 H1) as Hst1.
  destruct (commit_exact _ _ _ _) as [[r|e] st1]; cbn [snd] in *; [done|]. destruct e; try done.
  destruct (n <? MAX_ATTEMPTS); [|done]. etrans; [exact H1|]. by apply IH.
Qed.
End traces.
