(* ===== verification/Query.v ===== *)
(** * Queries: [crates/runku-execution/src/query.rs]

    The read-only session a Query's handler works against: one snapshot for all reads, the recorded
    dependencies, the limits, and the composition with the runtime.

    As for Mutations, the handler is the tree of the reads it asks for and of what it does with the
    answers; nested Queries read through the same session, so their reads are part of the tree.
    Telemetry is left out. *)

From Stdlib Require Import Strings.Byte ZArith Lia.
From stdpp Require Import prelude strings list gmap.
From S2P Require Import Prelude Order Ulid Value StoredValue IndexKey Core Schema Release Manifest StoreModel.
From S2P Require Import Batch Execution Mutation.

Definition MAX_DEPENDENCIES : Z := 10000.
Definition MAX_SCAN_ROWS : Z := 10000.

(** ** Dependencies *)

Inductive DependencyBound : Type :=
| DB_Unbounded | DB_Inclusive (key : bytes) | DB_Exclusive (key : bytes).

Inductive ReadDependency : Type :=
| RD_Point (table_id : TableId) (document_id : DocumentId) (observed_revision : option Z)
    (snapshot_sequence : Z)
| RD_Range (index_id : IndexId) (lower upper : DependencyBound) (snapshot_sequence : Z).

#[export] Instance DependencyBound_eq_dec : EqDecision DependencyBound.
Proof. solve_decision. Defined.
#[export] Instance ReadDependency_eq_dec : EqDecision ReadDependency.
Proof. solve_decision. Defined.

(** [derive(Ord)]: variants in the order of their declaration, then the fields. *)
Definition option_cmp {A} (cmp : A -> A -> comparison) (x y : option A) : comparison :=
  match x, y with
  | None, None => Eq | None, Some _ => Lt | Some _, None => Gt | Some x, Some y => cmp x y
  end.

Definition DependencyBound_cmp (x y : DependencyBound) : comparison :=
  match x, y with
  | DB_Unbounded, DB_Unbounded => Eq
  | DB_Unbounded, _ => Lt
  | DB_Inclusive _, DB_Unbounded => Gt
  | DB_Inclusive k, DB_Inclusive l => bytes_cmp k l
  | DB_Inclusive _, DB_Exclusive _ => Lt
  | DB_Exclusive k, DB_Exclusive l => bytes_cmp k l
  | DB_Exclusive _, _ => Gt
  end.

Definition ReadDependency_cmp (x y : ReadDependency) : comparison :=
  match x, y with
  | RD_Point t d r s, RD_Point t' d' r' s' =>
      cmp_then (as_ulid t ?= as_ulid t') (cmp_then (as_ulid d ?= as_ulid d')
        (cmp_then (option_cmp Z.compare r r') (s ?= s')))
  | RD_Point _ _ _ _, RD_Range _ _ _ _ => Lt
  | RD_Range i l u s, RD_Range i' l' u' s' =>
      cmp_then (as_ulid i ?= as_ulid i') (cmp_then (DependencyBound_cmp l l')
        (cmp_then (DependencyBound_cmp u u') (s ?= s')))
  | RD_Range _ _ _ _, RD_Point _ _ _ _ => Gt
  end.

(** [BTreeSet<ReadDependency>]: its elements in increasing order. *)
Fixpoint dependency_insert (x : ReadDependency) (set : list ReadDependency) : list ReadDependency :=
  match set with
  | [] => [x]
  | y :: set' =>
      match ReadDependency_cmp x y with
      | Lt => x :: set
      | Eq => set
      | Gt => y :: dependency_insert x set'
      end
  end.

Record QueryOutcome : Type := mkQueryOutcome {
  qo_value : CanonicalValue;
  qo_snapshot_sequence : option Z;
  qo_dependencies : list ReadDependency
}.

(** ** Errors *)

Inductive ExecutionError : Type :=
| EE_Runtime (e : RuntimeError) | EE_Storage (e : StoreError) | EE_Data (e : DataReadError).

Definition ExecutionError_code (e : ExecutionError) : bytes :=
  match e with
  | EE_Runtime e => RuntimeError_code e
  | EE_Storage e => StoreError_code e
  | EE_Data e => DataReadError_code e
  end.

Definition ExecutionError_retryable (e : ExecutionError) : bool :=
  match e with
  | EE_Runtime e => RuntimeError_retryable e
  | EE_Storage e => StoreError_retryable e
  | EE_Data DE_Unavailable | EE_Data DE_Timeout => true
  | EE_Data _ => false
  end.

(** [SessionFailure] of the Query session. *)
Inductive ReadFailure : Type := RF_Store (e : StoreError) | RF_Data (e : DataReadError).

Definition into_execution (f : ReadFailure) : ExecutionError :=
  match f with RF_Store e => EE_Storage e | RF_Data e => EE_Data e end.

(** ** Ranges *)

Definition convert_bound {UL : UlidLib} (value : option DataKeyBound) : result DataReadError (KeyBound * DependencyBound) :=
  match value with
  | None => Ok (KB_Unbounded, DB_Unbounded)
  | Some value =>
      let? canonical := map_err (fun _ => DE_InvalidRequest) (IndexKey_decode (kb_key value)) in
      let bytes := encoded canonical in
      Ok match kb_kind value with
         | BK_Inclusive => (KB_Inclusive bytes, DB_Inclusive bytes)
         | BK_Exclusive => (KB_Exclusive bytes, DB_Exclusive bytes)
         end
  end.

Definition key_in_range (key : bytes) (range : IndexRange) : bool :=
  let lower :=
    match lower range with
    | KB_Unbounded => true
    | KB_Inclusive value => bytes_leb value key
    | KB_Exclusive value => bytes_ltb value key
    end in
  let upper :=
    match upper range with
    | KB_Unbounded => true
    | KB_Inclusive value => bytes_leb key value
    | KB_Exclusive value => bytes_ltb key value
    end in
  lower && upper.

(** [previous >= (key, document)] *)
Definition not_after (previous : option (bytes * DocumentId)) (key : bytes) (document : DocumentId) : bool :=
  match previous with
  | None => false
  | Some (k, d) =>
      match cmp_then (bytes_cmp k key) (as_ulid d ?= as_ulid document) with Lt => false | _ => true end
  end.

Fixpoint valid_from (previous : option (bytes * DocumentId)) (entries : list IndexEntry) (index_id : IndexId)
  (range : IndexRange) (snapshot_sequence : Z) : bool :=
  match entries with
  | [] => true
  | entry :: entries =>
      let key := encoded (ie_key entry) in
      if negb (bool_decide (ie_index_id entry = index_id)) || (ie_document_revision entry =? 0)
         || (snapshot_sequence <? ie_commit_sequence entry) || negb (key_in_range key range)
         || not_after previous key (ie_document_id entry)
      then false
      else valid_from (Some (key, ie_document_id entry)) entries index_id range snapshot_sequence
  end.

Definition valid_entries (entries : list IndexEntry) (index_id : IndexId) (range : IndexRange)
  (limit snapshot_sequence : Z) : bool :=
  if limit <? len entries then false else valid_from None entries index_id range snapshot_sequence.

(** ** The session *)

Record SessionState (Snapshot : Type) : Type := mkSessionState {
  qs_snapshot : option Snapshot;
  qs_snapshot_sequence : option Z;
  qs_dependencies : list ReadDependency;
  qs_scan_rows : Z;
  qs_failure : option ReadFailure;
  qs_closed : bool;
  qs_active_operations : Z
}.
Arguments mkSessionState {Snapshot} _ _ _ _ _ _ _.
Arguments qs_snapshot {Snapshot} _.
Arguments qs_snapshot_sequence {Snapshot} _.
Arguments qs_dependencies {Snapshot} _.
Arguments qs_scan_rows {Snapshot} _.
Arguments qs_failure {Snapshot} _.
Arguments qs_closed {Snapshot} _.
Arguments qs_active_operations {Snapshot} _.

Record SessionSummary : Type := mkSessionSummary {
  sm_snapshot_sequence : option Z;
  sm_dependencies : list ReadDependency
}.

(** ** Handlers *)

Inductive QueryHandler : Type :=
| Q_Return (r : result RuntimeError CanonicalValue)
| Q_Get (k : doc_key) (next : result DataReadError (option DataDocument) -> QueryHandler)
| Q_Scan (request : DataScanRequest) (next : result DataReadError (list DataIndexEntry) -> QueryHandler)
(** An operation whose future is dropped in flight when the runtime terminates the handler. *)
| Q_Drop (next : QueryHandler).

Section session.
Context {UL : UlidLib} {Store Snapshot Weather : Type} {LS : LogicalStore Store Snapshot Weather}.
Abbreviation state := (SessionState Snapshot).

Definition session_new : state := mkSessionState None None [] 0 None false 0.

Definition latch (f : ReadFailure) (st : state) : state :=
  mkSessionState (qs_snapshot st) (qs_snapshot_sequence st) (qs_dependencies st) (qs_scan_rows st) (Some f)
    (qs_closed st) (qs_active_operations st).
Definition latch_store {A} (e : StoreError) (st : state) : result DataReadError A * state :=
  (Err DE_Storage, latch (RF_Store e) st).
Definition latch_data {A} (e : DataReadError) (st : state) : result DataReadError A * state :=
  (Err e, latch (RF_Data e) st).

Definition open_snapshot (s : Snapshot) (st : state) : state :=
  mkSessionState (Some s) (Some (ls_commit_sequence s)) (qs_dependencies st) (qs_scan_rows st) (qs_failure st)
    (qs_closed st) (qs_active_operations st).
Definition with_dependency (d : ReadDependency) (st : state) : state :=
  mkSessionState (qs_snapshot st) (qs_snapshot_sequence st) (dependency_insert d (qs_dependencies st))
    (qs_scan_rows st) (qs_failure st) (qs_closed st) (qs_active_operations st).
Definition with_rows (n : Z) (st : state) : state :=
  mkSessionState (qs_snapshot st) (qs_snapshot_sequence st) (qs_dependencies st) n (qs_failure st)
    (qs_closed st) (qs_active_operations st).
Definition with_active (n : Z) (st : state) : state :=
  mkSessionState (qs_snapshot st) (qs_snapshot_sequence st) (qs_dependencies st) (qs_scan_rows st)
    (qs_failure st) (qs_closed st) n.

Definition ensure_snapshot (scope : EnvironmentScope) (store : Store) (begin : Race) (st : state)
  : result DataReadError Snapshot * state :=
  if qs_closed st || match qs_failure st with Some _ => true | None => false end
  then (Err DE_Unavailable, st) else
  match qs_snapshot st with
  | Some s => (Ok s, st)
  | None =>
      match begin with
      | R_Cancelled => latch_data DE_Cancelled st
      | R_Waited W_Timeout => latch_data DE_Timeout st
      | R_Waited (W_Failed e) => latch_store e st
      | R_Waited W_Ready =>
          match ls_begin_read scope store with
          | Err e => latch_store e st
          | Ok s => (Ok s, open_snapshot s st)
          end
      end
  end.

(** What becomes of an awaited read. *)
Definition awaited {A} (read : Race) (answer : result StoreError A) : result ReadFailure A :=
  match read with
  | R_Cancelled => Err (RF_Data DE_Cancelled)
  | R_Waited W_Timeout => Err (RF_Data DE_Timeout)
  | R_Waited (W_Failed e) => Err (RF_Store e)
  | R_Waited W_Ready => map_err RF_Store answer
  end.

Definition latch_failure {A} (f : ReadFailure) (st : state) : result DataReadError A * state :=
  match f with RF_Store e => latch_store e st | RF_Data e => latch_data e st end.

(** The end of both reads: the dependency is recorded unless there are too many. *)
Definition depend {A} (d : ReadDependency) (answer : A) (st : state) : result DataReadError A * state :=
  if negb (bool_decide (d ∈ qs_dependencies st)) && (MAX_DEPENDENCIES <=? len (qs_dependencies st))
  then latch_data DE_LimitExceeded st
  else (Ok answer, with_dependency d st).

Definition get_inner (scope : EnvironmentScope) (store : Store) (begin read : Race) (k : doc_key) (st : state)
  : result DataReadError (option DataDocument) * state :=
  match ensure_snapshot scope store begin st with
  | (Err e, st) => (Err e, st)
  | (Ok snapshot, st) =>
      match awaited read (ls_get_document snapshot (fst k) (snd k)) with
      | Err f => latch_failure f st
      | Ok document =>
          match qs_snapshot_sequence st with
          | None => (Err DE_Unavailable, st)
          | Some sequence =>
              if answer_corrupt k sequence document then latch_store SE_Corruption st else
              depend (RD_Point (fst k) (snd k) (dr_revision <$> document) sequence)
                (data_document <$> document) st
          end
      end
  end.

Definition scan_inner (scope : EnvironmentScope) (store : Store) (begin read : Race) (request : DataScanRequest)
  (st : state) : result DataReadError (list DataIndexEntry) * state :=
  let bounds :=
    let? (lower, lower_dependency) := convert_bound (sr_lower request) in
    let? (upper, upper_dependency) := convert_bound (sr_upper request) in
    let range := between lower upper in
    let? _ := map_err (fun _ => DE_InvalidRequest) (IndexRange_validate range (sr_limit request)) in
    Ok (range, lower_dependency, upper_dependency) in
  match bounds with
  | Err e => (Err e, st)
  | Ok (range, lower_dependency, upper_dependency) =>
      match ensure_snapshot scope store begin st with
      | (Err e, st) => (Err e, st)
      | (Ok snapshot, st) =>
          match awaited read (ls_scan_index snapshot (sr_index_id request) range (sr_limit request)) with
          | Err f => latch_failure f st
          | Ok entries =>
              match qs_snapshot_sequence st with
              | None => (Err DE_Unavailable, st)
              | Some sequence =>
                  if negb (valid_entries entries (sr_index_id request) range (sr_limit request) sequence)
                  then latch_store SE_Corruption st else
                  match checked_add u64_max (qs_scan_rows st) (len entries) with
                  | None => latch_data DE_LimitExceeded st
                  | Some next_rows =>
                      if MAX_SCAN_ROWS <? next_rows then latch_data DE_LimitExceeded st else
                      depend (RD_Range (sr_index_id request) lower_dependency upper_dependency sequence)
                        (map data_index_entry entries) (with_rows next_rows st)
                  end
              end
          end
      end
  end.

(** [get] and [scan] count the operation while it runs; so does one that never returns. *)
Definition counted {A} (operation : state -> result DataReadError A * state) (st : state)
  : result DataReadError A * state :=
  let '(a, st) := operation (with_active (qs_active_operations st + 1) st) in
  (a, with_active (qs_active_operations st - 1) st).

Definition query_get (scope : EnvironmentScope) (store : Store) (begin read : Race) (k : doc_key)
  : state -> result DataReadError (option DataDocument) * state :=
  counted (get_inner scope store begin read k).

Definition query_scan (scope : EnvironmentScope) (store : Store) (begin read : Race) (request : DataScanRequest)
  : state -> result DataReadError (list DataIndexEntry) * state :=
  counted (scan_inner scope store begin read request).

(** A dropped operation may have opened the snapshot. *)
Definition query_drop (scope : EnvironmentScope) (store : Store) (begin : Race) (st : state) : state :=
  snd (ensure_snapshot scope store begin (with_active (qs_active_operations st + 1) st)).

(** The failure [finish] reports: the latched one, or what an abandoned operation means. *)
Definition final_failure (runtime_failure : option RuntimeError) (st : state) : option ReadFailure :=
  match qs_failure st with
  | Some f => Some f
  | None =>
      if qs_active_operations st =? 0 then None else
      match runtime_failure with
      | Some RT_DeadlineExceeded => Some (RF_Data DE_Timeout)
      | Some RT_Cancelled => Some (RF_Data DE_Cancelled)
      | None => Some (RF_Data DE_Unavailable)
      | Some _ => None
      end
  end.

Definition query_finish (runtime_failure : option RuntimeError) (close : Wait) (st : state)
  : result ReadFailure SessionSummary :=
  let summary := mkSessionSummary (qs_snapshot_sequence st) (qs_dependencies st) in
  let? _ :=
    match qs_snapshot st with
    | None => Ok tt
    | Some _ =>
        match close with
        | W_Timeout => Err (RF_Data DE_Timeout)
        | W_Failed e => Err (RF_Store e)
        | W_Ready => Ok tt
        end
    end in
  match final_failure runtime_failure st with Some f => Err f | None => Ok summary end.

(** What the environment does to each operation of the handler: the races of opening the snapshot and
    of the read. *)
Definition ReadFaults : Type := nat -> Race * Race.
Definition no_read_faults : ReadFaults := fun _ => (R_Waited W_Ready, R_Waited W_Ready).

Fixpoint query_run (scope : EnvironmentScope) (store : Store) (faults : ReadFaults) (h : QueryHandler) (st : state)
  : result RuntimeError CanonicalValue * state :=
  let later := fun n => faults (S n) in
  let '(begin, read) := faults 0%nat in
  match h with
  | Q_Return r => (r, st)
  | Q_Get k next => let '(a, st) := query_get scope store begin read k st in query_run scope store later (next a) st
  | Q_Scan request next =>
      let '(a, st) := query_scan scope store begin read request st in query_run scope store later (next a) st
  | Q_Drop next => query_run scope store later next (query_drop scope store begin st)
  end.

(** ** Execution *)

Definition selected_query (request : InvocationRequest) : result RuntimeError FunctionManifest :=
  let? selected := ok_or RT_InvalidInvocation
    (List.find (fun f => bool_decide (fn_id f = rq_function_id request)) (functions (rq_manifest request))) in
  if bool_decide (function_type selected <> FT_Query) then Err RT_InvalidInvocation else Ok selected.

(** Whether data reads and calls of other Queries are granted; the checks of [with_data] and
    [with_functions] hold for the selected Function. *)
Definition attach_query_capabilities (selected : FunctionManifest) : bool * bool :=
  (has_capability CA_DbRead selected, has_capability CA_FunctionQuery selected).

(** The runtime's part of an execution: the handler run to its result against a session. *)
Definition query_session (scope : EnvironmentScope) (store : Store) (faults : ReadFaults) (close : Wait)
  (h : QueryHandler) : result ExecutionError QueryOutcome :=
  let '(runtime_result, st) := query_run scope store faults h session_new in
  let failure := match runtime_result with Err e => Some e | Ok _ => None end in
  let? summary := map_err into_execution (query_finish failure close st) in
  let? value := map_err EE_Runtime runtime_result in
  Ok (mkQueryOutcome value (sm_snapshot_sequence summary) (sm_dependencies summary)).

Definition execute (request : InvocationRequest) (invoke : bool * bool -> QueryHandler) (faults : ReadFaults)
  (close : Wait) (store : Store) : result ExecutionError QueryOutcome :=
  let? selected := map_err EE_Runtime (selected_query request) in
  query_session (rq_scope request) store faults close (invoke (attach_query_capabilities selected)).
End session.
