(* ===== verification/QueryStable.v ===== *)
(** * Queries depend only on what they record

    A Query that succeeded is repeated, read by read, on any later snapshot that answers the recorded
    dependencies in the same way.  This is what lets a subscription keep its result until a commit
    touches one of them. *)

From Stdlib Require Import Strings.Byte ZArith Lia.
From stdpp Require Import prelude strings list gmap.
From S2P Require Import Prelude Order Ulid Value StoredValue IndexKey Core Schema Release Manifest StoreModel.
From S2P Require Import Batch Execution Mutation Query.

(** ** Dependencies of one snapshot *)

Definition dependency_sequence (d : ReadDependency) : Z :=
  match d with RD_Point _ _ _ s | RD_Range _ _ _ s => s end.

Definition restamp (n : Z) (d : ReadDependency) : ReadDependency :=
  match d with RD_Point t d r _ => RD_Point t d r n | RD_Range i l u _ => RD_Range i l u n end.

Definition bound_of (b : DependencyBound) : KeyBound :=
  match b with DB_Unbounded => KB_Unbounded | DB_Inclusive k => KB_Inclusive k | DB_Exclusive k => KB_Exclusive k end.

Lemma restamp_inj n m x y : dependency_sequence x = n -> dependency_sequence y = n ->
  restamp m x = restamp m y -> x = y.
Proof. destruct x, y; cbn; intros; simplify_eq; congruence. Qed.

Lemma restamp_cmp n m x y : dependency_sequence x = n -> dependency_sequence y = n ->
  ReadDependency_cmp (restamp m x) (restamp m y) = ReadDependency_cmp x y.
Proof. destruct x, y; cbn; intros -> ->; by rewrite ?Z.compare_refl. Qed.

Lemma elem_of_dependency_insert x y l : x ∈ dependency_insert y l -> x = y \/ x ∈ l.
Proof.
  induction l as [|z l IH]; cbn; [set_solver|]. destruct (ReadDependency_cmp y z); set_solver.
Qed.

Lemma option_cmp_eq {A} (cmp : A -> A -> comparison) x y : (forall x y, cmp x y = Eq -> x = y) ->
  option_cmp cmp x y = Eq -> x = y.
Proof. intros H. destruct x, y; cbn; try done. by intros ->%H. Qed.

Lemma as_ulid_eq {k} (x y : ResourceId k) : (as_ulid x ?= as_ulid y) = Eq -> x = y.
Proof. destruct x, y; cbn. by intros ->%Z.compare_eq. Qed.

Lemma ReadDependency_cmp_eq x y : ReadDependency_cmp x y = Eq -> x = y.
Proof.
  assert (forall a b, DependencyBound_cmp a b = Eq -> a = b) as Hb.
  { intros [] []; cbn; try done; by intros ->%bytes_cmp_eq. }
  assert (forall c d, cmp_then c d = Eq -> c = Eq /\ d = Eq) as Ht by (by intros [] []).
  destruct x, y; cbn; try done; intros (H1 & (H2 & (H3 & H4)%Ht)%Ht)%Ht.
  - apply as_ulid_eq in H1, H2. apply Z.compare_eq in H4. apply option_cmp_eq in H3; [congruence|]. apply Z.compare_eq.
  - apply as_ulid_eq in H1. apply Hb in H2, H3. apply Z.compare_eq in H4. congruence.
Qed.

Lemma dependency_insert_new x l : x ∈ dependency_insert x l.
Proof.
  induction l as [|z l IH]; cbn; [set_solver|]. destruct (ReadDependency_cmp x z) eqn:E; [|set_solver..].
  apply ReadDependency_cmp_eq in E. set_solver.
Qed.

Lemma dependency_insert_mono x y l : x ∈ l -> x ∈ dependency_insert y l.
Proof. induction l as [|z l IH]; cbn; [set_solver|]. destruct (ReadDependency_cmp y z); set_solver. Qed.

Lemma restamp_insert n m x l : dependency_sequence x = n -> Forall (fun y => dependency_sequence y = n) l ->
  map (restamp m) (dependency_insert x l) = dependency_insert (restamp m x) (map (restamp m) l).
Proof.
  intros Hx. induction 1 as [|y l Hy _ IH]; cbn; [done|]. rewrite (restamp_cmp n) by done.
  destruct (ReadDependency_cmp x y); cbn; by rewrite ?IH.
Qed.

Lemma restamp_elem n m x l : dependency_sequence x = n -> Forall (fun y => dependency_sequence y = n) l ->
  (restamp m x ∈ map (restamp m) l <-> x ∈ l).
Proof.
  intros Hx Hl. rewrite list_elem_of_In, in_map_iff. setoid_rewrite <- list_elem_of_In.
  rewrite Forall_forall in Hl. split; [|naive_solver].
  intros (y & E & Hy). apply (restamp_inj n) in E; naive_solver.
Qed.

(** ** Sessions *)

Section runs.
Context {UL : UlidLib} {Store Snapshot Weather : Type} {LS : LogicalStore Store Snapshot Weather}.
Abbreviation state := (SessionState Snapshot).
Variables (scope : EnvironmentScope).

(** A session that will report a failure whatever the handler does. *)
Definition doomed (st : state) : Prop := qs_failure st <> None \/ 0 < qs_active_operations st.

(** A session of the snapshot [s] in which nothing went wrong: reads record what they depended on. *)
Definition session_of (s : Snapshot) (opened : bool) (dependencies : list ReadDependency) (rows : Z) : state :=
  mkSessionState (if opened then Some s else None) (if opened then Some (ls_commit_sequence s) else None)
    dependencies rows None false 0.

Lemma session_new_of s : session_new = session_of s false [] 0.
Proof. done. Qed.

Lemma ensure_of store begin s opened ds rows : ls_begin_read scope store = Ok s ->
  match ensure_snapshot scope store begin (with_active 1 (session_of s opened ds rows)) with
  | (Ok s', st) => s' = s /\ st = with_active 1 (session_of s true ds rows)
  | (Err _, st) => qs_failure st <> None
  end.
Proof. intros Hs. destruct opened; cbn; [done|]. destruct begin as [[|e|]|]; cbn; try done. by rewrite Hs. Qed.

Lemma ensure_calm store s opened ds rows : ls_begin_read scope store = Ok s ->
  ensure_snapshot scope store (R_Waited W_Ready) (with_active 1 (session_of s opened ds rows))
  = (Ok s, with_active 1 (session_of s true ds rows)).
Proof. intros Hs. destruct opened; cbn; [done|]. by rewrite Hs. Qed.

(** ** What no operation undoes *)

Record grows (st st' : state) : Prop := {
  gr_active : qs_active_operations st <= qs_active_operations st';
  gr_failure : qs_failure st <> None -> qs_failure st' <> None;
  gr_dependencies d : d ∈ qs_dependencies st -> d ∈ qs_dependencies st'
}.

#[export] Instance grows_preorder : PreOrder grows.
Proof. split; [by split|]. intros x y z [] []. split; [lia|naive_solver..]. Qed.

Lemma grows_doomed st st' : grows st st' -> doomed st -> doomed st'.
Proof. intros [] [|]; [left; auto|right; lia]. Qed.

Lemma grows_latch {A} f st : grows st (snd (latch_failure (A := A) f st)).
Proof. by destruct f. Qed.
Lemma grows_store {A} e st : grows st (snd (latch_store (A := A) e st)).
Proof. done. Qed.
Lemma grows_data {A} e st : grows st (snd (latch_data (A := A) e st)).
Proof. done. Qed.
Lemma grows_ensure store begin st : grows st (snd (ensure_snapshot scope store begin st)).
Proof.
  unfold ensure_snapshot. destruct (_ || _); [done|]. destruct (qs_snapshot st); [done|].
  destruct begin as [[|e|]|]; try done. by destruct (ls_begin_read scope store).
Qed.
Lemma grows_depend {A} d (a : A) st : grows st (snd (depend d a st)).
Proof. unfold depend. destruct (_ && _); [done|]. split; [done|done|]. intros x. apply dependency_insert_mono. Qed.

Lemma grows_get store begin read k st : grows st (snd (get_inner scope store begin read k st)).
Proof.
  unfold get_inner. pose proof (grows_ensure store begin st) as He.
  destruct (ensure_snapshot _ _ _ _) as [[s|e] st1]; cbn [snd] in *; [|done]. etrans; [exact He|].
  destruct (awaited _ _); [|apply grows_latch]. destruct (qs_snapshot_sequence st1); [|done].
  destruct (answer_corrupt _ _ _); [done|apply grows_depend].
Qed.

Lemma grows_scan store begin read rq st : grows st (snd (scan_inner scope store begin read rq st)).
Proof.
  unfold scan_inner. destruct (rbind (convert_bound _) _) as [[[range l] u]|]; [|done].
  pose proof (grows_ensure store begin st) as He.
  destruct (ensure_snapshot _ _ _ _) as [[s|e] st1]; cbn [snd] in *; [|done]. etrans; [exact He|].
  destruct (awaited _ _); [|apply grows_latch]. destruct (qs_snapshot_sequence st1); [|done].
  destruct (negb _); [done|]. destruct (checked_add _ _ _) as [n|]; [|done].
  destruct (_ <? _); [done|]. etrans; [|apply grows_depend]. done.
Qed.

Lemma grows_counted {A} (op : state -> result DataReadError A * state) st :
  (forall st, grows st (snd (op st))) -> grows st (snd (counted op st)).
Proof.
  intros H. unfold counted. specialize (H (with_active (qs_active_operations st + 1) st)).
  destruct (op _) as [a st1]; cbn in *. destruct H; cbn in *. split; [cbn; lia|done..].
Qed.

Lemma grows_run store h : forall faults st, grows st (snd (query_run scope store faults h st)).
Proof.
  induction h as [r|k next IH|rq next IH|next IH]; intros faults st; cbn [query_run];
    destruct (faults 0%nat) as [begin read].
  - done.
  - pose proof (grows_counted _ st (grows_get store begin read k)) as H. unfold query_get.
    destruct (counted _ _) as [a st1]. etrans; [exact H|apply IH].
  - pose proof (grows_counted _ st (grows_scan store begin read rq)) as H. unfold query_scan.
    destruct (counted _ _) as [a st1]. etrans; [exact H|apply IH].
  - etrans; [|apply IH]. etrans; [|apply grows_ensure]. split; [cbn; lia|done..].
Qed.

(** ** Repeating a run *)

Variables (store store' : Store) (s s' : Snapshot).
Hypothesis begins : ls_begin_read scope store = Ok s.
Hypothesis begins' : ls_begin_read scope store' = Ok s'.
Hypothesis later : ls_commit_sequence s <= ls_commit_sequence s'.
Abbreviation stamp := (ls_commit_sequence s).
Abbreviation stamp' := (ls_commit_sequence s').

(** Both snapshots answer a recorded read in the same way. *)
Definition same_answer (d : ReadDependency) : Prop :=
  match d with
  | RD_Point t d _ _ => ls_get_document s' t d = ls_get_document s t d
  | RD_Range i l u _ => forall limit, ls_scan_index s' i (between (bound_of l) (bound_of u)) limit
      = ls_scan_index s i (between (bound_of l) (bound_of u)) limit
  end.

Definition stamped (ds : list ReadDependency) : Prop := Forall (fun d => dependency_sequence d = stamp) ds.

(** The dependencies of a session of [s]; there are none before it is opened. *)
Definition collected (opened : bool) (ds : list ReadDependency) : Prop := stamped ds /\ (opened = false -> ds = []).

(** An operation in a session of [s] dooms it, or is repeated in the matching session of [s']. *)
Definition repeats {A} (op op' : state -> result DataReadError A * state) : Prop :=
  forall opened ds rows, collected opened ds ->
  match op (session_of s opened ds rows) with
  | (a, st) => doomed st \/ exists opened' ds' rows', st = session_of s opened' ds' rows' /\ collected opened' ds' /\
      (Forall same_answer ds' ->
       op' (session_of s' opened (map (restamp stamp') ds) rows)
       = (a, session_of s' opened' (map (restamp stamp') ds') rows'))
  end.

Lemma depend_repeats {A} d (a : A) ds rows : dependency_sequence d = stamp -> stamped ds ->
  match depend d a (with_active 1 (session_of s true ds rows)) with
  | (r, st) => qs_failure st <> None \/ r = Ok a /\ st = with_active 1 (session_of s true (dependency_insert d ds) rows)
      /\ stamped (dependency_insert d ds)
      /\ depend (restamp stamp' d) a (with_active 1 (session_of s' true (map (restamp stamp') ds) rows))
         = (Ok a, with_active 1 (session_of s' true (map (restamp stamp') (dependency_insert d ds)) rows))
  end.
Proof.
  intros Hd Hds. unfold depend. cbn [qs_dependencies with_active session_of].
  rewrite (restamp_insert stamp) by done. unfold len. rewrite length_map.
  rewrite (bool_decide_ext (restamp stamp' d ∈ _) (d ∈ ds)) by (by apply (restamp_elem stamp)).
  destruct (_ && _); [by left|right]. split_and!; [done|done| |done].
  apply Forall_forall. intros x [->|Hx]%elem_of_dependency_insert; [done|]. by apply (proj1 (Forall_forall _ _) Hds).
Qed.

Lemma answer_corrupt_later k o : answer_corrupt k stamp o = false -> answer_corrupt k stamp' o = false.
Proof.
  destruct o as [r|]; [|done]. cbn. unfold record_corrupt. rewrite !orb_false_iff, !Z.ltb_ge. intuition lia.
Qed.

Lemma valid_from_later previous es i range : valid_from previous es i range stamp = true ->
  valid_from previous es i range stamp' = true.
Proof.
  revert previous. induction es as [|e es IH]; intros previous; cbn; [done|].
  destruct (_ || _) eqn:E; [done|]. rewrite !orb_false_iff in E. destruct E as [[[[E1 E2] E3%Z.ltb_ge] E4] E5].
  rewrite E1, E2, E4, E5, (proj2 (Z.ltb_ge _ _)) by lia. apply IH.
Qed.

Lemma valid_entries_later es i range limit : valid_entries es i range limit stamp = true ->
  valid_entries es i range limit stamp' = true.
Proof. unfold valid_entries. destruct (_ <? _); [done|]. apply valid_from_later. Qed.

Lemma doomed_done (st : state) : qs_failure st <> None -> doomed (with_active (qs_active_operations st - 1) st).
Proof. by left. Qed.

Lemma get_repeats begin read k :
  repeats (query_get scope store begin read k) (query_get scope store' (R_Waited W_Ready) (R_Waited W_Ready) k).
Proof.
  intros opened ds rows [Hds Hop]. unfold query_get, counted, get_inner.
  change (with_active (qs_active_operations ?st + 1) ?st) with (with_active 1 st).
  pose proof (ensure_of store begin s opened ds rows begins) as He.
  rewrite (ensure_calm store' s' opened _ rows begins').
  destruct (ensure_snapshot _ _ _ _) as [[s1|e] st1]; [|left; by apply doomed_done].
  destruct He as [-> ->]. cbn [qs_snapshot_sequence with_active session_of].
  destruct (awaited read _) as [o|f] eqn:Ho; [|destruct f; left; by apply doomed_done].
  destruct (answer_corrupt k stamp o) eqn:Hc; [by left; left|].
  pose proof (depend_repeats (RD_Point (fst k) (snd k) (dr_revision <$> o) stamp) (data_document <$> o) ds rows eq_refl Hds) as H.
  destruct (depend _ _ _) as [r st]. destruct H as [H|(-> & -> & Hs & H)]; [left; by apply doomed_done|].
  right. exists true, (dependency_insert (RD_Point (fst k) (snd k) (dr_revision <$> o) stamp) ds), rows. split_and!; [done|by split|]. intros Hsame.
  pose proof (proj1 (Forall_forall _ _) Hsame _ (dependency_insert_new _ _)) as Ha. cbn in Ha. rewrite Ha.
  assert (ls_get_document s (fst k) (snd k) = Ok o) as -> by (destruct read as [[]|]; try done; by apply map_err_Ok in Ho).
  cbn [awaited map_err]. rewrite (answer_corrupt_later _ _ Hc). cbn [restamp] in H. by rewrite H.
Qed.

Lemma convert_bound_of b l d : convert_bound b = Ok (l, d) -> bound_of d = l.
Proof.
  destruct b as [b|]; cbn; [|by intros [= <- <-]]. destruct (IndexKey_decode _); [|done]. cbn.
  destruct (kb_kind b); by intros [= <- <-].
Qed.

Lemma scan_repeats begin read rq :
  repeats (query_scan scope store begin read rq) (query_scan scope store' (R_Waited W_Ready) (R_Waited W_Ready) rq).
Proof.
  intros opened ds rows [Hds Hop]. unfold query_scan, counted, scan_inner.
  change (with_active (qs_active_operations ?st + 1) ?st) with (with_active 1 st).
  destruct (rbind (convert_bound (sr_lower rq)) _) as [[[range l] u]|e] eqn:Hb.
  2: { right. by exists opened, ds, rows. }
  assert (range = between (bound_of l) (bound_of u)) as Hr.
  { invert_ok. match goal with H : convert_bound _ = Ok _ , H' : convert_bound _ = Ok _ |- _ =>
      apply convert_bound_of in H; apply convert_bound_of in H' end. congruence. }
  pose proof (ensure_of store begin s opened ds rows begins) as He.
  rewrite (ensure_calm store' s' opened _ rows begins').
  destruct (ensure_snapshot _ _ _ _) as [[s1|e] st1]; [|left; by apply doomed_done].
  destruct He as [-> ->]. cbn [qs_snapshot_sequence with_active session_of].
  destruct (awaited read _) as [es|f] eqn:Ho; [|destruct f; left; by apply doomed_done].
  destruct (valid_entries es (sr_index_id rq) range (sr_limit rq) stamp) eqn:Hv; cbn [negb]; [|by left; left].
  change (qs_scan_rows (with_active 1 (session_of ?s true ?ds rows))) with rows.
  destruct (checked_add u64_max rows (len es)) as [n|] eqn:Hn; [|by left; left].
  destruct (MAX_SCAN_ROWS <? n) eqn:Hm; [by left; left|].
  change (with_rows ?n (with_active 1 (session_of ?s true ?ds rows))) with (with_active 1 (session_of s true ds n)).
  pose proof (depend_repeats (RD_Range (sr_index_id rq) l u stamp) (map data_index_entry es) ds n eq_refl Hds) as H.
  destruct (depend _ _ _) as [r st]. destruct H as [H|(-> & -> & Hs & H)]; [left; by apply doomed_done|].
  right. exists true, (dependency_insert (RD_Range (sr_index_id rq) l u stamp) ds), n. split_and!; [done|by split|]. intros Hsame.
  pose proof (proj1 (Forall_forall _ _) Hsame _ (dependency_insert_new _ _)) as Ha. cbn in Ha. rewrite <- Hr in Ha. rewrite Ha.
  assert (ls_scan_index s (sr_index_id rq) range (sr_limit rq) = Ok es) as ->
    by (destruct read as [[]|]; try done; by apply map_err_Ok in Ho).
  cbn [awaited map_err]. rewrite (valid_entries_later _ _ _ _ Hv). cbn [negb]. rewrite Hn, Hm.
  cbn [restamp] in H. by rewrite H.
Qed.

Lemma repeats_bind {A} (op op' : state -> result DataReadError A * state) (next : result DataReadError A -> QueryHandler) :
  repeats op op' ->
  (forall a faults opened ds rows r st, collected opened ds ->
     query_run scope store faults (next a) (session_of s opened ds rows) = (r, st) -> ~ doomed st ->
     exists opened' ds' rows', st = session_of s opened' ds' rows' /\ collected opened' ds' /\
       (Forall same_answer ds' ->
        query_run scope store' no_read_faults (next a) (session_of s' opened (map (restamp stamp') ds) rows)
        = (r, session_of s' opened' (map (restamp stamp') ds') rows'))) ->
  forall faults opened ds rows r st, collected opened ds ->
  (let '(a, st) := op (session_of s opened ds rows) in query_run scope store faults (next a) st) = (r, st) -> ~ doomed st ->
  exists opened' ds' rows', st = session_of s opened' ds' rows' /\ collected opened' ds' /\
    (Forall same_answer ds' ->
     (let '(a, st) := op' (session_of s' opened (map (restamp stamp') ds) rows) in
      query_run scope store' no_read_faults (next a) st)
     = (r, session_of s' opened' (map (restamp stamp') ds') rows')).
Proof.
  intros Hop IH faults opened ds rows r st Hds. specialize (Hop opened ds rows Hds).
  destruct (op _) as [a st1]. intros E Hn. pose proof (grows_run store (next a) faults st1) as Hg. rewrite E in Hg.
  destruct Hop as [Hd|(o1 & ds1 & rows1 & -> & Hds1 & H)]; [by destruct Hn; eapply grows_doomed|].
  destruct (IH a _ o1 ds1 rows1 r st Hds1 E Hn) as (o2 & ds2 & rows2 & -> & Hds2 & H2).
  exists o2, ds2, rows2. split; [done|]. split; [done|]. intros Hsame. rewrite H; [by apply H2|].
  rewrite Forall_forall in Hsame |- *. intros d Hd. apply Hsame, (gr_dependencies _ _ Hg d Hd).
Qed.

Lemma query_run_repeats h : forall faults opened ds rows r st, collected opened ds ->
  query_run scope store faults h (session_of s opened ds rows) = (r, st) -> ~ doomed st ->
  exists opened' ds' rows', st = session_of s opened' ds' rows' /\ collected opened' ds' /\
    (Forall same_answer ds' ->
     query_run scope store' no_read_faults h (session_of s' opened (map (restamp stamp') ds) rows)
     = (r, session_of s' opened' (map (restamp stamp') ds') rows')).
Proof.
  induction h as [v|k next IH|rq next IH|next IH]; intros faults opened ds rows r st Hds; cbn [query_run];
    destruct (faults 0%nat) as [begin read].
  - intros [= <- <-] _. by exists opened, ds, rows.
  - by apply (repeats_bind _ _ next (get_repeats begin read k) IH).
  - by apply (repeats_bind _ _ next (scan_repeats begin read rq) IH).
  - intros E []. pose proof (grows_run store next (fun n => faults (S n)) (query_drop scope store begin (session_of s opened ds rows))) as Hg.
    rewrite E in Hg. eapply grows_doomed; [exact Hg|]. eapply grows_doomed; [apply grows_ensure|]. right. cbn. lia.
Qed.

(** What a session that succeeded has read, and the same session later. *)
Lemma session_repeats faults close h out : query_session scope store faults close h = Ok out ->
  (qo_snapshot_sequence out = Some stamp \/ qo_snapshot_sequence out = None /\ qo_dependencies out = [])
  /\ stamped (qo_dependencies out)
  /\ (Forall same_answer (qo_dependencies out) ->
      query_session scope store' no_read_faults W_Ready h
      = Ok (mkQueryOutcome (qo_value out) ((fun _ => stamp') <$> qo_snapshot_sequence out)
              (map (restamp stamp') (qo_dependencies out)))).
Proof.
  unfold query_session. destruct (query_run scope store faults h _) as [r st] eqn:E.
  rewrite (session_new_of s) in E. rewrite (session_new_of s').
  destruct r as [v|e]; [|by destruct (query_finish _ _ _)]. cbn [map_err rbind].
  destruct (query_finish None close st) as [summary|] eqn:Hq; [|done]. intros [= <-].
  apply rbind_Ok in Hq as (? & _ & Hq). destruct (final_failure None st) eqn:Hf; simplify_eq/=.
  assert (~ doomed st) as Hn.
  { unfold final_failure in Hf. intros [H|H]; destruct (qs_failure st); try done. by destruct (Z.eqb_spec (qs_active_operations st) 0); [lia|]. }
  destruct (query_run_repeats h faults false [] 0 _ st ltac:(by split; [constructor|]) E Hn) as (o & ds & rows & -> & [Hds Ho] & H2).
  cbn in *. split; [destruct o; auto|]. split; [done|]. intros Hsame. rewrite (H2 Hsame). cbn. by destruct o.
Qed.
End runs.
