(* ===== verification/Impact.v ===== *)
(** * Change impacts: [crates/runku-realtime/src/lib.rs]

    The strict decoder of the write set a Mutation publishes in its outbox event, and the matching of
    such an impact against the dependencies of a Query. *)

From Stdlib Require Import Strings.Byte ZArith Lia.
From stdpp Require Import prelude strings list gmap.
From S2P Require Import Prelude Order BTreeMap Ulid Value StoredValue IndexKey Core StoreModel Batch.
From S2P Require Import Execution Mutation Query.

Definition MAX_DOCUMENT_IMPACTS : Z := 1000.
Definition MAX_INDEX_IMPACTS : Z := 10000.

Inductive RealtimeError : Type :=
| RE_InvalidImpact | RE_LimitExceeded | RE_InvalidConfiguration | RE_InvalidOutcome | RE_AlreadyExists
| RE_NotFound | RE_StaleTicket | RE_Internal | RE_PendingWork.

Definition RealtimeError_code (e : RealtimeError) : bytes :=
  text match e with
  | RE_InvalidImpact => "REALTIME_IMPACT_INVALID"
  | RE_LimitExceeded => "REALTIME_IMPACT_LIMIT_EXCEEDED"
  | RE_InvalidConfiguration => "REALTIME_CONFIGURATION_INVALID"
  | RE_InvalidOutcome => "REALTIME_OUTCOME_INVALID"
  | RE_AlreadyExists => "REALTIME_SUBSCRIPTION_EXISTS"
  | RE_NotFound => "REALTIME_SUBSCRIPTION_NOT_FOUND"
  | RE_StaleTicket => "REALTIME_RERUN_STALE"
  | RE_Internal => "REALTIME_INTERNAL_ERROR"
  | RE_PendingWork => "REALTIME_PENDING_WORK"
  end.

Definition RealtimeError_retryable (e : RealtimeError) : bool :=
  match e with RE_Internal | RE_PendingWork => true | _ => false end.

(** ** Impacts *)

Inductive DocumentImpactKind : Type := DI_Insert | DI_Replace | DI_Delete.

Record DocumentImpact : Type := mkDocumentImpact {
  dp_table_id : TableId;
  dp_document_id : DocumentId;
  dp_kind : DocumentImpactKind
}.

Inductive IndexImpactKind : Type := II_Delete | II_Put.

#[export] Instance IndexImpactKind_eq_dec : EqDecision IndexImpactKind.
Proof. solve_decision. Defined.

Record IndexImpact : Type := mkIndexImpact {
  ip_index_id : IndexId;
  ip_key : IndexKey;
  ip_document_id : DocumentId;
  ip_kind : IndexImpactKind
}.

Record ChangeImpact : Type := mkChangeImpact {
  ci_documents : list DocumentImpact;
  ci_indexes : list IndexImpact
}.

(** ** Strict access to objects *)

Definition exact_object (value : CanonicalValue) (keys : list bytes)
  : result RealtimeError (list (bytes * CanonicalValue)) :=
  match value with
  | CV_Object object =>
      if negb (len object =? len keys) || existsb (fun key => negb (btree_contains key object)) keys
      then Err RE_InvalidImpact else Ok object
  | _ => Err RE_InvalidImpact
  end.

Definition string_of (value : option CanonicalValue) : result RealtimeError bytes :=
  match value with Some (CV_String value) => Ok value | _ => Err RE_InvalidImpact end.
Definition bytes_of (value : option CanonicalValue) : result RealtimeError bytes :=
  match value with Some (CV_Bytes value) => Ok value | _ => Err RE_InvalidImpact end.
Definition array_of (value : option CanonicalValue) : result RealtimeError (list CanonicalValue) :=
  match value with Some (CV_Array value) => Ok value | _ => Err RE_InvalidImpact end.

Section decode.
Context {UL : UlidLib}.

Definition impact_id (k : ResourceKind) (value : bytes) : result RealtimeError (ResourceId k) :=
  map_err (fun _ => RE_InvalidImpact) (id_from_str k value).

Definition document_kind (value : bytes) : result RealtimeError DocumentImpactKind :=
  if bool_decide (value = text "insert") then Ok DI_Insert else
  if bool_decide (value = text "replace") then Ok DI_Replace else
  if bool_decide (value = text "delete") then Ok DI_Delete else Err RE_InvalidImpact.

Definition index_kind (value : bytes) : result RealtimeError IndexImpactKind :=
  if bool_decide (value = text "delete") then Ok II_Delete else
  if bool_decide (value = text "put") then Ok II_Put else Err RE_InvalidImpact.

(** One turn of the loop over the writes; the accumulators are the impacts so far, in order, and the
    set of documents seen. *)
Definition decode_write (acc : list DocumentImpact * list doc_key) (value : CanonicalValue)
  : result RealtimeError (list DocumentImpact * list doc_key) :=
  let? raw := exact_object value [text "documentId"; text "kind"; text "tableId"] in
  let? table_id := (let? s := string_of (btree_get (text "tableId") raw) in impact_id TableK s) in
  let? document_id := (let? s := string_of (btree_get (text "documentId") raw) in impact_id DocumentK s) in
  let? kind := (let? s := string_of (btree_get (text "kind") raw) in document_kind s) in
  let? seen := ok_or RE_InvalidImpact (set_insert (table_id, document_id) (snd acc)) in
  Ok (fst acc ++ [mkDocumentImpact table_id document_id kind], seen).

Definition index_identity : Type := IndexId * bytes * DocumentId * IndexImpactKind.

Definition decode_index (acc : list IndexImpact * list index_identity) (value : CanonicalValue)
  : result RealtimeError (list IndexImpact * list index_identity) :=
  let? raw := exact_object value [text "documentId"; text "indexId"; text "key"; text "kind"] in
  let? index_id := (let? s := string_of (btree_get (text "indexId") raw) in impact_id IndexK s) in
  let? document_id := (let? s := string_of (btree_get (text "documentId") raw) in impact_id DocumentK s) in
  let? key := (let? b := bytes_of (btree_get (text "key") raw) in
               map_err (fun _ => RE_InvalidImpact) (IndexKey_decode b)) in
  let? kind := (let? s := string_of (btree_get (text "kind") raw) in index_kind s) in
  let? seen := ok_or RE_InvalidImpact (set_insert (index_id, encoded key, document_id, kind) (snd acc)) in
  Ok (fst acc ++ [mkIndexImpact index_id key document_id kind], seen).

Definition decode (value : CanonicalValue) : result RealtimeError ChangeImpact :=
  let? object := exact_object value [text "indexes"; text "type"; text "writes"] in
  let? type := string_of (btree_get (text "type") object) in
  if negb (bool_decide (type = text "document_write_set_v2")) then Err RE_InvalidImpact else
  let? writes := array_of (btree_get (text "writes") object) in
  let? index_values := array_of (btree_get (text "indexes") object) in
  if (MAX_DOCUMENT_IMPACTS <? len writes) || (MAX_INDEX_IMPACTS <? len index_values)
  then Err RE_LimitExceeded else
  let? (documents, _) := try_fold decode_write ([], []) writes in
  let? (indexes, _) := try_fold decode_index ([], []) index_values in
  Ok (mkChangeImpact documents indexes).
End decode.

(** ** Matching *)

Definition key_in_bounds (key : bytes) (lower upper : DependencyBound) : bool :=
  let above_lower :=
    match lower with
    | DB_Unbounded => true
    | DB_Inclusive value => bytes_leb value key
    | DB_Exclusive value => bytes_ltb value key
    end in
  let below_upper :=
    match upper with
    | DB_Unbounded => true
    | DB_Inclusive value => bytes_leb key value
    | DB_Exclusive value => bytes_ltb key value
    end in
  above_lower && below_upper.

Definition invalidates_one (self : ChangeImpact) (dependency : ReadDependency) : bool :=
  match dependency with
  | RD_Point table_id document_id _ _ =>
      existsb (fun impact => bool_decide (dp_table_id impact = table_id)
                             && bool_decide (dp_document_id impact = document_id)) (ci_documents self)
  | RD_Range index_id lower upper _ =>
      existsb (fun impact => bool_decide (ip_index_id impact = index_id)
                             && key_in_bounds (encoded (ip_key impact)) lower upper) (ci_indexes self)
  end.

Definition invalidates (self : ChangeImpact) (dependencies : list ReadDependency) : bool :=
  existsb (invalidates_one self) dependencies.

(** ** What a Mutation's payload means *)

Definition document_impact_of (m : DocumentMutation) : DocumentImpact :=
  mkDocumentImpact (dm_table_id m) (dm_document_id m)
    match m with
    | DM_Upsert _ _ ER_Absent _ => DI_Insert
    | DM_Upsert _ _ (ER_Exact _) _ => DI_Replace
    | DM_Delete _ _ _ => DI_Delete
    end.

Definition index_impact_of (m : IndexMutation) : IndexImpact :=
  match m with
  | IM_Put i k _ d _ => mkIndexImpact i k d II_Put
  | IM_Delete i k d => mkIndexImpact i k d II_Delete
  end.

Definition impact_of (documents : list DocumentMutation) (indexes : list IndexMutation) : ChangeImpact :=
  mkChangeImpact (map document_impact_of documents) (map index_impact_of indexes).

Section payload.
Context {UL : UlidLib} {ULL : UlidLaws}.

Lemma impact_id_render {k} (id : ResourceId k) : id_ok id -> impact_id k (id_to_string id) = Ok id.
Proof. intros H. unfold impact_id. by rewrite id_from_to_string. Qed.

Lemma decode_write_impact m acc seen : document_ok m -> document_key m ∉ seen ->
  decode_write (acc, seen) (write_impact m) = Ok (acc ++ [document_impact_of m], document_key m :: seen).
Proof.
  intros [Ht Hd]%document_ids_ok Hn. unfold decode_write.
  change (exact_object (write_impact m) _) with (@Ok RealtimeError _ match write_impact m with CV_Object o => o | _ => [] end).
  cbn [rbind]. unfold write_impact. change (btree_get (text "tableId") _) with (Some (text_value (id_to_string (dm_table_id m)))).
  cbn [string_of text_value rbind]. rewrite impact_id_render by done. cbn [rbind].
  change (btree_get (text "documentId") _) with (Some (text_value (id_to_string (dm_document_id m)))).
  cbn [string_of text_value rbind]. rewrite impact_id_render by done. cbn [rbind].
  change (dm_table_id m, dm_document_id m) with (document_key m). cbn [fst snd]. unfold set_insert. rewrite bool_decide_false by done.
  unfold document_impact_of. destruct m as [t d [|n] v|t d n]; reflexivity.
Qed.

Lemma decode_writes ms acc seen : Forall document_ok ms -> NoDup (map document_key ms) ->
  (forall k, k ∈ map document_key ms -> k ∉ seen) ->
  exists seen', try_fold decode_write (acc, seen) (map write_impact ms) = Ok (acc ++ map document_impact_of ms, seen').
Proof.
  intros Hok. revert acc seen. induction Hok as [|m ms Hm _ IH]; intros acc seen Hnd Hs; cbn [map].
  - exists seen. cbn. by rewrite app_nil_r.
  - change (try_fold ?f ?s (?x :: ?l)) with (rbind (f s x) (fun acc => try_fold f acc l)).
    rewrite decode_write_impact by (try done; apply Hs; cbn; set_solver). cbn [rbind].
    inversion Hnd as [|? ? Hn Hnd']; subst.
    destruct (IH (acc ++ [document_impact_of m]) (document_key m :: seen)) as [seen' E]; [done| |].
    { intros k Hk. apply not_elem_of_cons. split; [congruence|]. apply Hs. cbn. set_solver. }
    exists seen'. etrans; [exact E|]. by rewrite <- app_assoc.
Qed.

Lemma decode_key k : key_ok k -> IndexKey_decode (encoded k) = Ok k.
Proof. intros [? ?]. by apply IndexKey_decode_Ok. Qed.

Definition impact_identity (p : IndexImpact) : index_identity :=
  (ip_index_id p, encoded (ip_key p), ip_document_id p, ip_kind p).

Lemma decode_index_impact m acc seen : index_ok m -> impact_identity (index_impact_of m) ∉ seen ->
  decode_index (acc, seen) (index_impact m)
  = Ok (acc ++ [index_impact_of m], impact_identity (index_impact_of m) :: seen).
Proof.
  intros Hm Hn. unfold decode_index, index_impact.
  destruct m as [i k t d n|i k d]; cbn [index_ok] in Hm;
    (change (exact_object (CV_Object ?o) _) with (@Ok RealtimeError _ o); cbn [rbind];
     change (btree_get (text "indexId") _) with (Some (text_value (id_to_string i))); cbn [string_of text_value rbind];
     rewrite impact_id_render by tauto; cbn [rbind];
     change (btree_get (text "documentId") _) with (Some (text_value (id_to_string d))); cbn [string_of text_value rbind];
     rewrite impact_id_render by tauto; cbn [rbind];
     change (btree_get (text "key") _) with (Some (CV_Bytes (encoded k))); cbn [bytes_of rbind];
     rewrite decode_key by tauto; cbn [rbind map_err fst snd]).
  - change (btree_get (text "kind") _) with (Some (text_value (text "put"))). cbn [string_of text_value rbind].
    change (index_kind (text "put")) with (@Ok RealtimeError _ II_Put). cbn [rbind]. unfold set_insert.
    by rewrite bool_decide_false.
  - change (btree_get (text "kind") _) with (Some (text_value (text "delete"))). cbn [string_of text_value rbind].
    change (index_kind (text "delete")) with (@Ok RealtimeError _ II_Delete). cbn [rbind]. unfold set_insert.
    by rewrite bool_decide_false.
Qed.

Lemma impact_identity_of m m' : impact_identity (index_impact_of m) = impact_identity (index_impact_of m') ->
  im_identity m = im_identity m'.
Proof. destruct m, m'; cbn; intros [=]; congruence. Qed.

Lemma decode_indexes ms acc seen : Forall index_ok ms -> NoDup (map im_identity ms) ->
  (forall m, m ∈ ms -> impact_identity (index_impact_of m) ∉ seen) ->
  exists seen', try_fold decode_index (acc, seen) (map index_impact ms) = Ok (acc ++ map index_impact_of ms, seen').
Proof.
  intros Hok. revert acc seen. induction Hok as [|m ms Hm _ IH]; intros acc seen Hnd Hs; cbn [map].
  - exists seen. cbn. by rewrite app_nil_r.
  - change (try_fold ?f ?s (?x :: ?l)) with (rbind (f s x) (fun acc => try_fold f acc l)).
    rewrite decode_index_impact by (try done; apply Hs; set_solver). cbn [rbind].
    inversion Hnd as [|? ? Hn Hnd']; subst.
    destruct (IH (acc ++ [index_impact_of m]) (impact_identity (index_impact_of m) :: seen)) as [seen' E]; [done| |].
    { intros m' Hm'. apply not_elem_of_cons. split; [|apply Hs; set_solver].
      intros E%impact_identity_of. destruct Hn. rewrite <- E. apply list_elem_of_In, in_map, list_elem_of_In, Hm'. }
    exists seen'. etrans; [exact E|]. by rewrite <- app_assoc.
Qed.

Lemma decode_payload documents indexes : Forall document_ok documents -> NoDup (map document_key documents) ->
  Forall index_ok indexes -> NoDup (map im_identity indexes) ->
  len documents <= MAX_DOCUMENT_IMPACTS -> len indexes <= MAX_INDEX_IMPACTS ->
  decode (document_write_set_payload documents indexes) = Ok (impact_of documents indexes).
Proof.
  intros Hd Hdn Hi Hin Hld Hli. unfold decode, document_write_set_payload.
  change (exact_object (CV_Object ?o) _) with (@Ok RealtimeError _ o). cbn [rbind].
  change (btree_get (text "type") _) with (Some (text_value (text "document_write_set_v2"))). cbn [string_of text_value rbind].
  rewrite bool_decide_true by done. cbn [negb].
  change (btree_get (text "writes") _) with (Some (CV_Array (map write_impact documents))).
  change (btree_get (text "indexes") _) with (Some (CV_Array (map index_impact indexes))). cbn [array_of rbind].
  unfold len in *. rewrite !length_map, !(proj2 (Z.ltb_ge _ _)) by done. cbn [orb].
  destruct (decode_writes documents [] [] Hd Hdn) as [s1 ->]; [set_solver|]. cbn [rbind].
  destruct (decode_indexes indexes [] [] Hi Hin) as [s2 ->]; [set_solver|]. done.
Qed.

(** The dependencies an impact leaves alone are the documents it does not write and the ranges none of
    its index keys lie in. *)
Lemma invalidates_point documents indexes t d r n :
  invalidates_one (impact_of documents indexes) (RD_Point t d r n) = true <-> (t, d) ∈ map document_key documents.
Proof.
  cbn. rewrite existsb_exists, list_elem_of_In, in_map_iff. setoid_rewrite in_map_iff. split.
  - intros (p & (m & <- & Hm) & [H1%bool_decide_eq_true H2%bool_decide_eq_true]%andb_true_iff).
    exists m. split; [|done]. cbn in H1, H2. unfold document_key. by subst.
  - intros (m & E & Hm). eexists. split; [by exists m|]. unfold document_key in E. injection E as <- <-.
    by rewrite !bool_decide_true.
Qed.

Lemma invalidates_range documents indexes i l u n :
  invalidates_one (impact_of documents indexes) (RD_Range i l u n) = true <->
  exists m k d, m ∈ indexes /\ im_identity m = (i, k, d) /\ key_in_bounds k l u = true.
Proof.
  cbn. rewrite existsb_exists. setoid_rewrite in_map_iff. setoid_rewrite list_elem_of_In. split.
  - intros (p & (m & <- & Hm) & [H1%bool_decide_eq_true H2]%andb_true_iff).
    exists m. destruct m as [i' k t d r|i' k d]; cbn in *; subst; eauto.
  - intros (m & k & d & Hm & E & Hk). eexists. split; [by exists m|].
    destruct m as [i' k' t d' r|i' k' d']; cbn in *; simplify_eq; by rewrite bool_decide_true.
Qed.
End payload.
