(* ===== verification/Registry.v ===== *)
(** * Subscriptions: [crates/runku-realtime/src/registry.rs]

    The process-local table of live subscriptions: registration, marking by impacts, fenced reruns,
    retries with backoff, suspension and the question whether work is owed at a cursor.

    The table is the list of its entries in key order, as [BTreeMap] iterates over it; operations are
    functions from the entries to a result and the entries left behind, also when they fail half way,
    since the source updates them in place.  The broadcast channel of an entry is the list of events
    sent on it; an [Arc<RequestIdentity>] is a reference the registry carries and never follows.  A
    poisoned lock and telemetry are left out. *)

From Stdlib Require Import Strings.Byte ZArith Lia.
From stdpp Require Import prelude strings list gmap.
From S2P Require Import Prelude Order Ulid Value StoredValue IndexKey Core Release StoreModel.
From S2P Require Import Batch Execution Mutation Query Impact.

(** ** Configuration *)

Record RegistryConfig : Type := mkRegistryConfig {
  rg_max_subscriptions : Z;
  rg_max_dependencies : Z;
  rg_max_result_bytes : Z;
  rg_delivery_buffer : Z;
  rg_retry_base_micros : Z;
  rg_retry_max_micros : Z;
  rg_max_consecutive_failures : Z
}.

Definition REGISTRY_PRODUCTION : RegistryConfig :=
  mkRegistryConfig 100000 10000 (4 * 1024 * 1024) 64 100000 30000000 10.

Definition RegistryConfig_validate (self : RegistryConfig) : result RealtimeError RegistryConfig :=
  if (rg_max_subscriptions self =? 0) || (rg_max_dependencies self =? 0) || (rg_max_result_bytes self =? 0)
     || (rg_delivery_buffer self =? 0) || (rg_retry_base_micros self =? 0)
     || (rg_retry_max_micros self <? rg_retry_base_micros self) || (rg_max_consecutive_failures self =? 0)
  then Err RE_InvalidConfiguration else Ok self.

(** ** Subscriptions *)

Definition SharedIdentity : Type := positive.

Record SubscriptionSpec : Type := mkSubscriptionSpec {
  sp_id : SubscriptionId;
  sp_scope : EnvironmentScope;
  sp_release_id : ReleaseId;
  sp_pinned_code : PinnedCode;
  sp_function : FunctionName;
  sp_arguments : CanonicalValue;
  sp_identity : SharedIdentity;
  sp_authorized_until : Z
}.

Record SubscriptionSnapshot : Type := mkSubscriptionSnapshot {
  sb_spec : SubscriptionSpec;
  sb_value : CanonicalValue;
  sb_result_hash : Sha256Digest;
  sb_snapshot_sequence : option Z;
  sb_dependencies : list ReadDependency;
  sb_delivery_revision : Z;
  sb_processed_through : option OutboxCursor;
  sb_suspended : bool
}.

Inductive DeliveryEvent : Type :=
| DV_State (subscription_id : SubscriptionId) (delivery_revision : Z) (value : CanonicalValue)
    (result_hash : Sha256Digest) (snapshot_sequence : option Z)
| DV_Error (subscription_id : SubscriptionId) (delivery_revision : Z) (code : bytes) (retryable suspended : bool).

Record RerunTicket : Type := mkRerunTicket {
  rt_spec : SubscriptionSpec;
  rt_generation : Z
}.

Record Entry : Type := mkEntry {
  en_snapshot : SubscriptionSnapshot;
  en_delivery : list DeliveryEvent;
  en_running_generation : option Z;
  en_next_generation : Z;
  en_running_through : option OutboxCursor;
  en_dirty_through : option OutboxCursor;
  en_retry_not_before : option Z;
  en_consecutive_failures : Z
}.

Definition Entries : Type := list (SubscriptionId * Entry).

(** ** [BTreeMap<SubscriptionId, Entry>] *)

Definition entry_get (id : SubscriptionId) (entries : Entries) : option Entry :=
  snd <$> List.find (fun p => bool_decide (fst p = id)) entries.

Fixpoint entry_insert (id : SubscriptionId) (e : Entry) (entries : Entries) : Entries :=
  match entries with
  | [] => [(id, e)]
  | p :: rest =>
      match as_ulid id ?= as_ulid (fst p) with
      | Lt => (id, e) :: entries
      | Eq => (id, e) :: rest
      | Gt => p :: entry_insert id e rest
      end
  end.

Definition entry_remove (id : SubscriptionId) (entries : Entries) : Entries :=
  List.filter (fun p => negb (bool_decide (fst p = id))) entries.

(** [get_mut] followed by changes of the entry. *)
Definition entry_update (id : SubscriptionId) (e : Entry) (entries : Entries) : Entries :=
  map (fun p => if bool_decide (fst p = id) then (id, e) else p) entries.

(** [for entry in entries.values_mut()] with an early return. *)
Fixpoint visit (f : Entry -> result RealtimeError (option RerunTicket) * Entry) (entries : Entries)
  : result RealtimeError (list RerunTicket) * Entries :=
  match entries with
  | [] => (Ok [], [])
  | (id, e) :: rest =>
      match f e with
      | (Err x, e) => (Err x, (id, e) :: rest)
      | (Ok ticket, e) =>
          let '(r, rest) := visit f rest in
          (let? tickets := r in Ok (match ticket with Some t => t :: tickets | None => tickets end), (id, e) :: rest)
      end
  end.

(** ** Helpers *)

Definition cursor_leb (a b : OutboxCursor) : bool :=
  match OutboxCursor_cmp a b with Gt => false | _ => true end.

Definition max_cursor (current : option OutboxCursor) (candidate : OutboxCursor) : OutboxCursor :=
  match current with
  | None => candidate
  | Some value => if cursor_leb value candidate then candidate else value
  end.

(** [seen.is_some_and(|seen| seen >= cursor)] *)
Definition seen_through (seen : option OutboxCursor) (cursor : OutboxCursor) : bool :=
  match seen with Some seen => cursor_leb cursor seen | None => false end.

Definition validate_outcome (outcome : QueryOutcome) (config : RegistryConfig) : result RealtimeError unit :=
  if rg_max_dependencies config <? len (qo_dependencies outcome) then Err RE_LimitExceeded else
  let? encoded := map_err (fun _ => RE_InvalidOutcome) (encode_stored_value (qo_value outcome)) in
  if rg_max_result_bytes config <? len encoded then Err RE_LimitExceeded else Ok tt.

Definition result_hash (sha256 : bytes -> bytes) (value : CanonicalValue) : result RealtimeError Sha256Digest :=
  let? encoded := map_err (fun _ => RE_InvalidOutcome) (encode_stored_value value) in
  Ok (sha256 encoded).

Definition start_rerun (entry : Entry) (through : OutboxCursor) : result RealtimeError RerunTicket * Entry :=
  match checked_add u64_max (en_next_generation entry) 1 with
  | None => (Err RE_Internal, entry)
  | Some generation =>
      (Ok (mkRerunTicket (sb_spec (en_snapshot entry)) generation),
       mkEntry (en_snapshot entry) (en_delivery entry) (Some generation) generation (Some through)
         (en_dirty_through entry) None (en_consecutive_failures entry))
  end.

Definition require_generation (entry : Entry) (generation : Z) : result RealtimeError unit :=
  if bool_decide (en_running_generation entry = Some generation) then Ok tt else Err RE_StaleTicket.

Definition registry_retry_delay (config : RegistryConfig) (failures : Z) : Z :=
  let shift := Z.min (Z.max 0 (failures - 1)) 63 in
  Z.min (Z.min u64_max (rg_retry_base_micros config * Z.shiftl 1 shift)) (rg_retry_max_micros config).

(** ** Operations *)

Section registry.
Variable sha256 : bytes -> bytes.
Variable config : RegistryConfig.

Definition new_snapshot (spec : SubscriptionSpec) (outcome : QueryOutcome) (hash : Sha256Digest) : SubscriptionSnapshot :=
  mkSubscriptionSnapshot spec (qo_value outcome) hash (qo_snapshot_sequence outcome) (qo_dependencies outcome) 1
    None false.

Definition register (spec : SubscriptionSpec) (outcome : QueryOutcome) (entries : Entries)
  : result RealtimeError SubscriptionSnapshot * Entries :=
  match (let? _ := validate_outcome outcome config in result_hash sha256 (qo_value outcome)) with
  | Err e => (Err e, entries)
  | Ok hash =>
      let snapshot := new_snapshot spec outcome hash in
      match entry_get (sp_id spec) entries with
      | Some _ => (Err RE_AlreadyExists, entries)
      | None =>
          if rg_max_subscriptions config <=? len entries then (Err RE_LimitExceeded, entries) else
          (Ok snapshot,
           entry_insert (sp_id spec)
             (mkEntry snapshot [DV_State (sp_id spec) 1 (qo_value outcome) hash (qo_snapshot_sequence outcome)]
                None 0 None None None 0) entries)
      end
  end.

Definition subscribe (id : SubscriptionId) (entries : Entries) : result RealtimeError SubscriptionSnapshot :=
  let? entry := ok_or RE_NotFound (entry_get id entries) in Ok (en_snapshot entry).

Definition remove (id : SubscriptionId) (entries : Entries) : result RealtimeError unit * Entries :=
  match entry_get id entries with
  | None => (Err RE_NotFound, entries)
  | Some _ => (Ok tt, entry_remove id entries)
  end.

Definition set_dirty (dirty : option OutboxCursor) (entry : Entry) : Entry :=
  mkEntry (en_snapshot entry) (en_delivery entry) (en_running_generation entry) (en_next_generation entry)
    (en_running_through entry) dirty (en_retry_not_before entry) (en_consecutive_failures entry).

(** [retry_not_before.is_some_and(|deadline| deadline > now)] *)
Definition backed_off (now : Z) (entry : Entry) : bool :=
  match en_retry_not_before entry with Some deadline => now <? deadline | None => false end.

Definition mark_one (scope : EnvironmentScope) (cursor : OutboxCursor) (impact : ChangeImpact) (now : Z) (entry : Entry)
  : result RealtimeError (option RerunTicket) * Entry :=
  if negb (bool_decide (sp_scope (sb_spec (en_snapshot entry)) = scope))
     || seen_through (sb_processed_through (en_snapshot entry)) cursor
     || negb (invalidates impact (sb_dependencies (en_snapshot entry)))
  then (Ok None, entry) else
  if match en_running_generation entry with Some _ => true | None => false end
     || sb_suspended (en_snapshot entry) || backed_off now entry
  then (Ok None, set_dirty (Some (max_cursor (en_dirty_through entry) cursor)) entry) else
  let '(r, entry) := start_rerun entry cursor in (let? t := r in Ok (Some t), entry).

Definition mark_impacted (scope : EnvironmentScope) (cursor : OutboxCursor) (impact : ChangeImpact) (now : Z)
  : Entries -> result RealtimeError (list RerunTicket) * Entries :=
  visit (mark_one scope cursor impact now).

Definition retry_one (now : Z) (entry : Entry) : result RealtimeError (option RerunTicket) * Entry :=
  if match en_running_generation entry with Some _ => true | None => false end
     || sb_suspended (en_snapshot entry) || backed_off now entry
  then (Ok None, entry) else
  match en_dirty_through entry with
  | None => (Ok None, entry)
  | Some cursor =>
      let '(r, entry) := start_rerun (set_dirty None entry) cursor in (let? t := r in Ok (Some t), entry)
  end.

Definition ready_retries (now : Z) : Entries -> result RealtimeError (list RerunTicket) * Entries :=
  visit (retry_one now).

(** The result of a rerun stored in a snapshot. *)
Definition with_outcome (outcome : QueryOutcome) (hash : Sha256Digest) (s : SubscriptionSnapshot) : SubscriptionSnapshot :=
  mkSubscriptionSnapshot (sb_spec s) (qo_value outcome) hash (qo_snapshot_sequence outcome) (qo_dependencies outcome)
    (sb_delivery_revision s) (sb_processed_through s) (sb_suspended s).
Definition with_snapshot (s : SubscriptionSnapshot) (entry : Entry) : Entry :=
  mkEntry s (en_delivery entry) (en_running_generation entry) (en_next_generation entry) (en_running_through entry)
    (en_dirty_through entry) (en_retry_not_before entry) (en_consecutive_failures entry).
Definition with_progress (revision : Z) (processed : option OutboxCursor) (suspended : bool) (s : SubscriptionSnapshot)
  : SubscriptionSnapshot :=
  mkSubscriptionSnapshot (sb_spec s) (sb_value s) (sb_result_hash s) (sb_snapshot_sequence s) (sb_dependencies s)
    revision processed suspended.

(** [complete_success] on the entry of the ticket. *)
Definition succeed_rerun (ticket : RerunTicket) (outcome : QueryOutcome) (hash : Sha256Digest) (entry : Entry)
  : result RealtimeError (option RerunTicket) * Entry :=
  match require_generation entry (rt_generation ticket) with
  | Err e => (Err e, entry)
  | Ok _ =>
      match en_running_through entry with
      | None => (Err RE_StaleTicket, entry)
      | Some through =>
          let snapshot := with_outcome outcome hash (en_snapshot entry) in
          match checked_add u64_max (sb_delivery_revision snapshot) 1 with
          | None => (Err RE_Internal, with_snapshot snapshot entry)
          | Some revision =>
              let processed := max_cursor (sb_processed_through snapshot) through in
              let event := DV_State (sp_id (rt_spec ticket)) revision (qo_value outcome) hash (qo_snapshot_sequence outcome) in
              let entry' := mkEntry (with_progress revision (Some processed) false snapshot) (en_delivery entry ++ [event])
                              None (en_next_generation entry) None None None 0 in
              match en_dirty_through entry with
              | None => (Ok None, entry')
              | Some dirty =>
                  if cursor_leb dirty processed then (Ok None, entry') else
                  let '(r, entry') := start_rerun entry' dirty in (let? t := r in Ok (Some t), entry')
              end
          end
      end
  end.

Definition complete_success (ticket : RerunTicket) (outcome : QueryOutcome) (entries : Entries)
  : result RealtimeError (option RerunTicket) * Entries :=
  match (let? _ := validate_outcome outcome config in result_hash sha256 (qo_value outcome)) with
  | Err e => (Err e, entries)
  | Ok hash =>
      match entry_get (sp_id (rt_spec ticket)) entries with
      | None => (Err RE_NotFound, entries)
      | Some entry =>
          let '(r, entry) := succeed_rerun ticket outcome hash entry in
          (r, entry_update (sp_id (rt_spec ticket)) entry entries)
      end
  end.

(** [complete_failure] on the entry of the ticket. *)
Definition fail_rerun (ticket : RerunTicket) (code : bytes) (retryable : bool) (now : Z) (entry : Entry)
  : result RealtimeError unit * Entry :=
  match require_generation entry (rt_generation ticket) with
  | Err e => (Err e, entry)
  | Ok _ =>
      match en_running_through entry with
      | None => (Err RE_StaleTicket, entry)
      | Some through =>
          let failures := Z.min u32_max (en_consecutive_failures entry + 1) in
          let budget_exhausted := rg_max_consecutive_failures config <=? failures in
          let suspended := negb retryable || budget_exhausted in
          let s := en_snapshot entry in
          let stopped (retry_not_before : option Z) (processed : option OutboxCursor) :=
            mkEntry (with_progress (sb_delivery_revision s) processed suspended s) (en_delivery entry) None
              (en_next_generation entry) None (Some (max_cursor (en_dirty_through entry) through)) retry_not_before failures in
          let scheduled :=
            if retryable && negb budget_exhausted then
              match (let? delay := ok_or RE_Internal (try_from_u i64_max (registry_retry_delay config failures)) in
                     ok_or RE_Internal (checked_i64 (now + delay))) with
              | Ok deadline => Ok (stopped (Some deadline) (sb_processed_through s))
              | Err e => Err (e, stopped (en_retry_not_before entry) (sb_processed_through s))
              end
            else Ok (stopped None (Some (max_cursor (sb_processed_through s) through))) in
          match scheduled with
          | Err (e, entry) => (Err e, entry)
          | Ok entry =>
              let s := en_snapshot entry in
              match checked_add u64_max (sb_delivery_revision s) 1 with
              | None => (Err RE_Internal, entry)
              | Some revision =>
                  let event := DV_Error (sp_id (rt_spec ticket)) revision code retryable suspended in
                  (Ok tt, mkEntry (with_progress revision (sb_processed_through s) (sb_suspended s) s)
                            (en_delivery entry ++ [event]) (en_running_generation entry) (en_next_generation entry)
                            (en_running_through entry) (en_dirty_through entry) (en_retry_not_before entry)
                            (en_consecutive_failures entry))
              end
          end
      end
  end.

Definition complete_failure (ticket : RerunTicket) (code : bytes) (retryable : bool) (now : Z) (entries : Entries)
  : result RealtimeError unit * Entries :=
  match entry_get (sp_id (rt_spec ticket)) entries with
  | None => (Err RE_NotFound, entries)
  | Some entry =>
      let '(r, entry) := fail_rerun ticket code retryable now entry in
      (r, entry_update (sp_id (rt_spec ticket)) entry entries)
  end.

(** [cursor <= through] for one of the cursors an entry owes. *)
Definition owed_through (cursor : option OutboxCursor) (through : OutboxCursor) : bool :=
  match cursor with Some cursor => cursor_leb cursor through | None => false end.

Definition has_pending_through (scope : EnvironmentScope) (through : OutboxCursor) (entries : Entries) : bool :=
  existsb (fun p =>
    bool_decide (sp_scope (sb_spec (en_snapshot (snd p))) = scope) && negb (sb_suspended (en_snapshot (snd p)))
    && (owed_through (en_running_through (snd p)) through || owed_through (en_dirty_through (snd p)) through)) entries.

Definition resume (id : SubscriptionId) (entries : Entries) : result RealtimeError unit * Entries :=
  match entry_get id entries with
  | None => (Err RE_NotFound, entries)
  | Some entry =>
      let s := en_snapshot entry in
      (Ok tt, entry_update id
         (mkEntry (with_progress (sb_delivery_revision s) (sb_processed_through s) false s) (en_delivery entry)
            (en_running_generation entry) (en_next_generation entry) (en_running_through entry)
            (en_dirty_through entry) None 0) entries)
  end.
End registry.

(** [SubscriptionRegistry::new] *)
Definition registry_new (config : RegistryConfig) : result RealtimeError Entries :=
  let? _ := RegistryConfig_validate config in Ok [].

(** ** Facts *)

Definition each (P : SubscriptionId -> Entry -> Prop) (entries : Entries) : Prop :=
  Forall (fun p => P (fst p) (snd p)) entries.

Lemma each_elem P entries id e : each P entries -> (id, e) ∈ entries -> P id e.
Proof. intros H Hin. exact (proj1 (Forall_forall _ _) H _ Hin). Qed.

Lemma each_intro P entries : (forall id e, (id, e) ∈ entries -> P id e) -> each P entries.
Proof. intros H. apply Forall_forall. intros [id e] Hin. by apply H. Qed.

Lemma each_impl (P Q : SubscriptionId -> Entry -> Prop) entries : (forall id e, P id e -> Q id e) -> each P entries -> each Q entries.
Proof. intros H Ha. eapply Forall_impl; [exact Ha|]. auto. Qed.

Lemma entry_get_elem id entries e : entry_get id entries = Some e -> (id, e) ∈ entries.
Proof.
  unfold entry_get. destruct (List.find _ _) as [[id' e']|] eqn:E; [|done]. intros [= <-].
  apply find_some in E as [Hin%list_elem_of_In Hid%bool_decide_eq_true]. cbn in *. by subst.
Qed.

Lemma entry_get_None id entries e : entry_get id entries = None -> (id, e) ∉ entries.
Proof.
  unfold entry_get. destruct (List.find _ _) eqn:E; [done|]. intros _ Hin%list_elem_of_In.
  apply (find_none _ _ E) in Hin. cbn in Hin. by rewrite bool_decide_true in Hin.
Qed.

Lemma elem_of_entry_insert id e entries p : p ∈ entry_insert id e entries -> p = (id, e) \/ p ∈ entries.
Proof.
  induction entries as [|q entries IH]; cbn; [by intros ->%list_elem_of_singleton; left|].
  destruct (_ ?= _); set_solver.
Qed.

Lemma elem_of_entry_remove id entries p : p ∈ entry_remove id entries <-> p ∈ entries /\ fst p <> id.
Proof.
  unfold entry_remove. rewrite !list_elem_of_In, filter_In. split; intros [H1 H2]; (split; [done|]).
  - by apply negb_true_iff, bool_decide_eq_false in H2.
  - by apply negb_true_iff, bool_decide_eq_false.
Qed.

Lemma elem_of_entry_update id e entries p : p ∈ entry_update id e entries ->
  p = (id, e) /\ id ∈ map fst entries \/ p ∈ entries /\ fst p <> id.
Proof.
  unfold entry_update. intros (q & <- & Hq%list_elem_of_In)%list_elem_of_In%in_map_iff.
  case_bool_decide as E; [left; split; [done|]|by right]. rewrite <- E. apply list_elem_of_In, in_map, list_elem_of_In, Hq.
Qed.

Lemma each_insert P id e entries : P id e -> each P entries -> each P (entry_insert id e entries).
Proof. intros He H. apply each_intro. intros id' e' [[= -> ->]|Hin]%elem_of_entry_insert; [done|by eapply each_elem]. Qed.
Lemma each_remove P id entries : each P entries -> each P (entry_remove id entries).
Proof. intros H. apply each_intro. intros id' e' [Hin _]%elem_of_entry_remove. by eapply each_elem. Qed.
Lemma each_update P id e entries : P id e -> each P entries -> each P (entry_update id e entries).
Proof.
  intros He H. apply each_intro. intros id' e' [[[= -> ->] _]|[Hin _]]%elem_of_entry_update; [done|by eapply each_elem].
Qed.

(** The keys. *)
Lemma entry_get_key id entries : id ∈ map fst entries -> is_Some (entry_get id entries).
Proof.
  intros ([id' e] & -> & Hin%list_elem_of_In)%list_elem_of_fmap. destruct (entry_get _ entries) eqn:E; [done|].
  by apply entry_get_None with (e := e) in E; destruct E; apply list_elem_of_In.
Qed.

Lemma entry_insert_self id e entries : id ∈ map fst (entry_insert id e entries).
Proof.
  induction entries as [|[k x] entries IH]; cbn [map fst entry_insert]; [left|]. destruct (_ ?= _); cbn [map fst]; set_solver.
Qed.

Lemma entry_insert_keys id e entries id' : id' ∈ map fst entries -> id' ∈ map fst (entry_insert id e entries).
Proof.
  induction entries as [|[k x] entries IH]; cbn [map fst entry_insert]; [by intros ?%not_elem_of_nil|].
  destruct (_ ?= _) eqn:E; cbn [map fst]; [|set_solver..]. apply Z.compare_eq in E.
  assert (id = k) as -> by (destruct id, k; cbn in E; congruence). done.
Qed.

Lemma entry_remove_keys id entries id' : id' <> id -> id' ∈ map fst entries -> id' ∈ map fst (entry_remove id entries).
Proof.
  intros Hne ([k x] & -> & Hin)%list_elem_of_fmap. apply list_elem_of_fmap. exists (k, x). split; [done|].
  by apply elem_of_entry_remove.
Qed.

Lemma entry_update_keys id e entries : map fst (entry_update id e entries) = map fst entries.
Proof.
  unfold entry_update. rewrite map_map. apply map_ext. intros [k x]. by case_bool_decide.
Qed.

Lemma visit_keys f entries : map fst (snd (visit f entries)) = map fst entries.
Proof.
  induction entries as [|[k x] entries IH]; [done|]. cbn [visit]. destruct (f x) as [[t|er] x']; [|done].
  destruct (visit f entries). cbn [snd map fst] in *. by rewrite IH.
Qed.

(** A loop over the entries that establishes [Q], or fails and leaves [P]. *)
Lemma visit_each (P Q : SubscriptionId -> Entry -> Prop) (T : RerunTicket -> Prop) f entries r entries' :
  (forall id e t e', P id e -> f e = (Ok t, e') -> Q id e' /\ forall x, t = Some x -> T x) ->
  (forall id e x e', P id e -> f e = (Err x, e') -> P id e') ->
  (forall id e, Q id e -> P id e) ->
  each P entries -> visit f entries = (r, entries') ->
  each P entries' /\ forall tickets, r = Ok tickets -> each Q entries' /\ Forall T tickets.
Proof.
  intros Hok Herr HQP. revert r entries'. induction entries as [|[id e] rest IH]; intros r entries' Hall; cbn [visit].
  { intros [= <- <-]. split; [done|]. intros tickets [= <-]. split; constructor. }
  apply Forall_cons in Hall as [He Hall]. cbn [fst snd] in He.
  destruct (f e) as [[t|x] e'] eqn:Ef.
  - destruct (Hok id e t e' He Ef) as [HQ HT]. destruct (visit f rest) as [r1 rest'] eqn:Ev.
    destruct (IH r1 rest' Hall eq_refl) as [H1 H2]. intros [= <- <-].
    split; [constructor; [by apply HQP|done]|]. intros tickets Hr. apply rbind_Ok in Hr as (ts & -> & [= <-]).
    destruct (H2 ts eq_refl) as [H3 H4]. split; [by constructor|]. destruct t; [constructor; auto|done].
  - intros [= <- <-]. split; [|done]. constructor; [by eapply Herr|done].
Qed.

Lemma seen_through_sequence seen x : seen_through seen x = true ->
  exists y, seen = Some y /\ oc_commit_sequence x <= oc_commit_sequence y.
Proof.
  destruct seen as [y|]; [|done]. cbn. unfold cursor_leb, OutboxCursor_cmp. intros H. exists y. split; [done|].
  destruct (Z.compare_spec (oc_commit_sequence x) (oc_commit_sequence y)); cbn in H; [lia|lia|done].
Qed.

Lemma max_cursor_either current x : max_cursor current x = x \/ Some (max_cursor current x) = current.
Proof. destruct current as [y|]; cbn; [destruct (cursor_leb y x)|]; auto. Qed.

(** What an operation leaves of the dependencies, the result and the debts of an entry. *)
Record same_result (s s' : SubscriptionSnapshot) : Prop := {
  sr_spec : sb_spec s' = sb_spec s;
  sr_value : sb_value s' = sb_value s;
  sr_dependencies : sb_dependencies s' = sb_dependencies s
}.
Record same_work (e e' : Entry) : Prop := {
  sw_running : en_running_generation e' = en_running_generation e;
  sw_through : en_running_through e' = en_running_through e;
  sw_dirty : en_dirty_through e' = en_dirty_through e;
  sw_processed : sb_processed_through (en_snapshot e') = sb_processed_through (en_snapshot e)
}.

Lemma start_rerun_cases entry x r entry' : start_rerun entry x = (r, entry') ->
  (exists e, r = Err e) /\ entry' = entry /\ u64_max <= en_next_generation entry
  \/ exists g, r = Ok (mkRerunTicket (sb_spec (en_snapshot entry)) g) /\ en_next_generation entry < g
       /\ en_snapshot entry' = en_snapshot entry /\ en_delivery entry' = en_delivery entry
       /\ en_running_generation entry' = Some g /\ en_running_through entry' = Some x
       /\ en_dirty_through entry' = en_dirty_through entry.
Proof.
  unfold start_rerun, checked_add. destruct (Z.leb_spec (en_next_generation entry + 1) u64_max); intros [= <- <-].
  - right. eexists. split; [done|]. split; [lia|done].
  - left. split; [by eexists|]. split; [done|lia].
Qed.

(** No operation changes what an entry is a subscription to, and tickets are for the entry they are
    issued at. *)
Definition keeps_spec {A} (spec_of : A -> option SubscriptionSpec) (e : Entry) (o : result RealtimeError A * Entry) : Prop :=
  sb_spec (en_snapshot (snd o)) = sb_spec (en_snapshot e)
  /\ forall a spec, fst o = Ok a -> spec_of a = Some spec -> spec = sb_spec (en_snapshot e).
Abbreviation ticket_spec := (fun t : option RerunTicket => rt_spec <$> t).

Lemma start_rerun_spec e x : keeps_spec (fun t => Some (rt_spec t)) e (start_rerun e x).
Proof. unfold start_rerun. destruct (checked_add _ _ _); (split; [done|]); [by intros a spec [= <-] [= <-]|done]. Qed.

Lemma issue_spec e x :
  keeps_spec ticket_spec e (let '(r, e') := start_rerun e x in (let? t := r in Ok (Some t), e')).
Proof.
  destruct (start_rerun_spec e x) as [H1 H2]. destruct (start_rerun e x) as [[t|er] e']; (split; [done|]); [|done].
  intros a spec [= <-] [= <-]. by apply (H2 t).
Qed.

#[local] Ltac same_spec := split; [done|by intros ? ? [= <-]].

Lemma mark_one_spec scope x impact now e : keeps_spec ticket_spec e (mark_one scope x impact now e).
Proof. unfold mark_one. destruct (_ || _ || _); [same_spec|]. destruct (_ || _ || _); [same_spec|]. apply issue_spec. Qed.

Lemma retry_one_spec now e : keeps_spec ticket_spec e (retry_one now e).
Proof.
  unfold retry_one. destruct (_ || _ || _); [same_spec|]. destruct (en_dirty_through e) as [x|]; [|same_spec].
  apply (issue_spec (set_dirty None e)).
Qed.

Lemma succeed_rerun_spec ticket out hash e : keeps_spec ticket_spec e (succeed_rerun ticket out hash e).
Proof.
  unfold succeed_rerun. destruct (require_generation _ _); [|same_spec]. destruct (en_running_through e); [|same_spec].
  destruct (checked_add _ _ _); [|same_spec]. destruct (en_dirty_through e); [|same_spec]. destruct (cursor_leb _ _); [same_spec|].
  match goal with |- keeps_spec _ _ (let '(r, e') := start_rerun ?e1 ?x in _) => exact (issue_spec e1 x) end.
Qed.

Lemma fail_rerun_spec config ticket code retryable now e : keeps_spec (fun _ => None) e (fail_rerun config ticket code retryable now e).
Proof.
  unfold fail_rerun. destruct (require_generation _ _); [|same_spec]. destruct (en_running_through e); [|same_spec].
  destruct (_ && _); [destruct (rbind _ _); [|same_spec]|]; destruct (checked_add _ _ _); same_spec.
Qed.

(** ** Delivery *)

Definition dv_revision (d : DeliveryEvent) : Z :=
  match d with DV_State _ r _ _ _ => r | DV_Error _ r _ _ _ => r end.

(** The last state sent. *)
Definition last_state (ds : list DeliveryEvent) : option (CanonicalValue * Sha256Digest * option Z) :=
  fold_left (fun s d => match d with DV_State _ _ v h n => Some (v, h, n) | DV_Error _ _ _ _ _ => s end) ds None.

Lemma last_state_app ds d : last_state (ds ++ [d])
  = match d with DV_State _ _ v h n => Some (v, h, n) | DV_Error _ _ _ _ _ => last_state ds end.
Proof. unfold last_state. by rewrite fold_left_app. Qed.

Record delivers (e : Entry) : Prop := {
  dl_revisions : map dv_revision (en_delivery e) = map Z.of_nat (seq 1 (length (en_delivery e)));
  dl_revision : sb_delivery_revision (en_snapshot e) = len (en_delivery e);
  dl_state : sb_delivery_revision (en_snapshot e) < u64_max ->
    last_state (en_delivery e)
    = Some (sb_value (en_snapshot e), sb_result_hash (en_snapshot e), sb_snapshot_sequence (en_snapshot e))
}.

Lemma delivers_same e e' : delivers e -> en_delivery e' = en_delivery e ->
  sb_delivery_revision (en_snapshot e') = sb_delivery_revision (en_snapshot e) ->
  (sb_delivery_revision (en_snapshot e) < u64_max -> sb_value (en_snapshot e') = sb_value (en_snapshot e)
    /\ sb_result_hash (en_snapshot e') = sb_result_hash (en_snapshot e)
    /\ sb_snapshot_sequence (en_snapshot e') = sb_snapshot_sequence (en_snapshot e)) -> delivers e'.
Proof.
  intros [H1 H2 H3] Ed Er Es. split; rewrite Ed, ?Er; [done|done|]. intros Hlt. destruct (Es Hlt) as (-> & -> & ->). auto.
Qed.

Lemma delivers_next e e' d revision : delivers e -> checked_add u64_max (sb_delivery_revision (en_snapshot e)) 1 = Some revision ->
  en_delivery e' = en_delivery e ++ [d] -> dv_revision d = revision -> sb_delivery_revision (en_snapshot e') = revision ->
  match d with
  | DV_State _ _ v h n => (sb_value (en_snapshot e'), sb_result_hash (en_snapshot e'), sb_snapshot_sequence (en_snapshot e')) = (v, h, n)
  | DV_Error _ _ _ _ _ => (sb_value (en_snapshot e'), sb_result_hash (en_snapshot e'), sb_snapshot_sequence (en_snapshot e'))
      = (sb_value (en_snapshot e), sb_result_hash (en_snapshot e), sb_snapshot_sequence (en_snapshot e))
  end -> delivers e'.
Proof.
  intros [H1 H2 H3] Hc Ed Edv Er Es. unfold checked_add in Hc. destruct (Z.leb_spec (sb_delivery_revision (en_snapshot e) + 1) u64_max); [|done].
  injection Hc as Hc. split; rewrite Ed.
  - rewrite length_app, seq_app, !map_app, H1. cbn [map length seq]. do 2 f_equal. rewrite Edv, <- Hc, H2. unfold len. lia.
  - rewrite Er, <- Hc, H2, len_app. done.
  - rewrite last_state_app, Er. intros Hlt. destruct d; [by rewrite Es|]. rewrite H3 by lia. by rewrite Es.
Qed.

Lemma start_delivers e x : delivers e -> delivers (snd (start_rerun e x)).
Proof. intros H. unfold start_rerun. destruct (checked_add _ _ _); [|done]. by eapply delivers_same. Qed.

Lemma issue_delivers e x : delivers e ->
  delivers (snd (let '(r, e') := start_rerun e x in (let? t := r in Ok (Some t), e') : result RealtimeError (option RerunTicket) * Entry)).
Proof. intros H. apply (start_delivers e x) in H. by destruct (start_rerun e x). Qed.

Lemma mark_delivers scope x impact now e : delivers e -> delivers (snd (mark_one scope x impact now e)).
Proof.
  intros H. unfold mark_one. destruct (_ || _ || _); [done|]. destruct (_ || _ || _); [by eapply delivers_same|]. by apply issue_delivers.
Qed.

Lemma retry_delivers now e : delivers e -> delivers (snd (retry_one now e)).
Proof.
  intros H. unfold retry_one. destruct (_ || _ || _); [done|]. destruct (en_dirty_through e); [|done].
  apply issue_delivers. by eapply delivers_same.
Qed.

Lemma succeed_delivers ticket out hash e : delivers e -> delivers (snd (succeed_rerun ticket out hash e)).
Proof.
  intros H. unfold succeed_rerun. destruct (require_generation _ _); [|done]. destruct (en_running_through e) as [through|]; [|done].
  destruct (checked_add _ _ _) as [revision|] eqn:Ec.
  2:{ eapply delivers_same; [exact H|done|done|]. cbn [snd with_snapshot en_snapshot with_outcome sb_delivery_revision] in *.
      intros Hlt. unfold checked_add in Ec. by rewrite (proj2 (Z.leb_le _ _)) in Ec by lia. }
  set (e1 := mkEntry _ _ _ _ _ _ _ _). assert (delivers e1) as H1 by (by eapply (delivers_next e e1)).
  destruct (en_dirty_through e) as [dirty|]; [|done]. destruct (cursor_leb _ _); [done|]. by apply issue_delivers.
Qed.

Lemma fail_delivers config ticket code retryable now e : delivers e -> delivers (snd (fail_rerun config ticket code retryable now e)).
Proof.
  intros H. unfold fail_rerun. destruct (require_generation _ _); [|done]. destruct (en_running_through e) as [through|]; [|done].
  destruct (_ && _); [destruct (rbind _ _) as [deadline|]; [|by eapply delivers_same]|];
    (destruct (checked_add _ _ _) as [revision|] eqn:Ec; [by eapply (delivers_next e)|by eapply delivers_same]).
Qed.

Section operations.
Variables (sha256 : bytes -> bytes) (config : RegistryConfig).

(** The operations that change the table. *)
Inductive registry_step (es : Entries) : Entries -> Prop :=
| reg_register spec outcome : registry_step es (snd (register sha256 config spec outcome es))
| reg_remove id : registry_step es (snd (remove id es))
| reg_mark scope x impact now : registry_step es (snd (mark_impacted scope x impact now es))
| reg_retry now : registry_step es (snd (ready_retries now es))
| reg_success ticket outcome : registry_step es (snd (complete_success sha256 config ticket outcome es))
| reg_failure ticket code retryable now : registry_step es (snd (complete_failure config ticket code retryable now es))
| reg_resume id : registry_step es (snd (resume id es)).

Lemma visit_delivers f es : (forall e, delivers e -> delivers (snd (f e))) -> each (fun _ => delivers) es ->
  each (fun _ => delivers) (snd (visit f es)).
Proof.
  intros Hf Hes. destruct (visit f es) as [r es'] eqn:E.
  destruct (fun A B => visit_each (fun _ => delivers) (fun _ => delivers) (fun _ => True) f es r es' A B (fun _ _ H => H) Hes E) as [H _]; [..|exact H].
  - intros _ e t e' He Ee. apply Hf in He. by rewrite Ee in He.
  - intros _ e x e' He Ee. apply Hf in He. by rewrite Ee in He.
Qed.

Lemma registry_step_delivers es es' : each (fun _ => delivers) es -> registry_step es es' -> each (fun _ => delivers) es'.
Proof.
  intros He [spec outcome|id|scope x impact now|now|ticket outcome|ticket code retryable now|id].
  - unfold register. destruct (rbind _ _) as [hash|]; [|done]. destruct (entry_get _ _); [done|]. destruct (_ <=? _); [done|].
    apply each_insert; [|done]. by split.
  - unfold remove. destruct (entry_get _ _); [|done]. by apply each_remove.
  - apply visit_delivers; [|done]. intros e. apply mark_delivers.
  - apply visit_delivers; [|done]. intros e. apply retry_delivers.
  - unfold complete_success. destruct (rbind _ _) as [hash|]; [|done]. destruct (entry_get _ _) as [e|] eqn:Eg; [|done].
    pose proof (succeed_delivers ticket outcome hash e (each_elem _ _ _ _ He (entry_get_elem _ _ _ Eg))) as Hd.
    destruct (succeed_rerun _ _ _ _). by apply each_update.
  - unfold complete_failure. destruct (entry_get _ _) as [e|] eqn:Eg; [|done].
    pose proof (fail_delivers config ticket code retryable now e (each_elem _ _ _ _ He (entry_get_elem _ _ _ Eg))) as Hd.
    destruct (fail_rerun _ _ _ _ _ _). by apply each_update.
  - unfold resume. destruct (entry_get _ _) as [e|] eqn:Eg; [|done]. apply each_update; [|done].
    eapply delivers_same; [exact (each_elem _ _ _ _ He (entry_get_elem _ _ _ Eg))|done..].
Qed.

(** C17: Subscribers see every revision once and in order.  Whatever sequence of registrations,
    removals, marks, retries, successful and failed reruns and resumptions a registry goes through, the
    events sent to a subscription carry the revisions 1, 2, 3, ... without gap or repetition, the last
    one is the revision the registry reports, and, short of the end of the 64-bit range, the last
    state sent is the value, hash and snapshot sequence the registry holds. *)
Theorem delivery_consecutive es id e : rtc registry_step [] es -> entry_get id es = Some e -> delivers e.
Proof.
  intros Hr Hg. assert (each (fun _ => delivers) es) as He.
  { assert (forall es0, rtc registry_step es0 es -> each (fun _ => delivers) es0 -> each (fun _ => delivers) es) as H.
    { intros es0. induction 1 as [|x y z Hs _ IH]; [done|]. intros Hx. by eapply IH, registry_step_delivers. }
    apply (H []); [done|constructor]. }
  exact (each_elem _ _ _ _ He (entry_get_elem _ _ _ Hg)).
Qed.
End operations.

(** ** An example *)

Definition demo_spec : SubscriptionSpec :=
  mkSubscriptionSpec (from_ulid 1) (mkScope (from_ulid 2) (from_ulid 3)) (from_ulid 4) (PC_Release (from_ulid 4))
    (mkFunctionName (text "list")) CV_Null 1%positive 100.
Definition demo_outcome (n revision : Z) : QueryOutcome :=
  mkQueryOutcome (CV_Int64 n) (Some revision) [RD_Point (from_ulid 5) (from_ulid 6) (Some revision) revision].
Definition demo_impact : ChangeImpact :=
  mkChangeImpact [mkDocumentImpact (from_ulid 5) (from_ulid 6) DI_Replace] [].

(** Registered, marked by a change, rerun, and failed to rerun after another change. *)
Definition demo_registered : Entries := snd (register id REGISTRY_PRODUCTION demo_spec (demo_outcome 7 1) []).
Definition demo_marked : Entries :=
  snd (mark_impacted (sp_scope demo_spec) (mkOutboxCursor 2 (from_ulid 8)) demo_impact 10 demo_registered).
Definition demo_rerun : Entries :=
  snd (complete_success id REGISTRY_PRODUCTION (mkRerunTicket demo_spec 1) (demo_outcome 9 2) demo_marked).
Definition demo_dirty : Entries :=
  snd (mark_impacted (sp_scope demo_spec) (mkOutboxCursor 3 (from_ulid 9)) demo_impact 20 demo_rerun).
Definition demo_failed : Entries :=
  snd (complete_failure REGISTRY_PRODUCTION (mkRerunTicket demo_spec 2) (text "BUSY") true 30 demo_dirty).

Lemma demo_failed_steps : rtc (registry_step id REGISTRY_PRODUCTION) [] demo_failed.
Proof.
  eapply rtc_l; [exact (reg_register id REGISTRY_PRODUCTION [] demo_spec (demo_outcome 7 1))|].
  eapply rtc_l; [exact (reg_mark id REGISTRY_PRODUCTION demo_registered (sp_scope demo_spec) (mkOutboxCursor 2 (from_ulid 8)) demo_impact 10)|].
  eapply rtc_l; [exact (reg_success id REGISTRY_PRODUCTION demo_marked (mkRerunTicket demo_spec 1) (demo_outcome 9 2))|].
  eapply rtc_l; [exact (reg_mark id REGISTRY_PRODUCTION demo_rerun (sp_scope demo_spec) (mkOutboxCursor 3 (from_ulid 9)) demo_impact 20)|].
  apply rtc_once. exact (reg_failure id REGISTRY_PRODUCTION demo_dirty (mkRerunTicket demo_spec 2) (text "BUSY") true 30).
Qed.

Lemma delivery_consecutive_witness : exists e, entry_get (from_ulid 1) demo_failed = Some e
  /\ map dv_revision (en_delivery e) = [1; 2; 3] /\ delivers e.
Proof.
  destruct (entry_get (from_ulid 1) demo_failed) as [e|] eqn:E; [|vm_compute in E; discriminate E].
  exists e. split; [reflexivity|]. split; [|exact (delivery_consecutive id REGISTRY_PRODUCTION demo_failed (from_ulid 1) e demo_failed_steps E)].
  vm_compute in E. injection E as <-. reflexivity.
Defined.
