(* ===== verification/Sql.v ===== *)
(** * Relational storage

    What the SQLite adapter ([crates/runku-data-sqlite/src/adapter.rs]) uses of the database: tables
    as finite maps from primary keys to rows, 64-bit integer columns, transactions
    with rollback, and the driver's errors.  A transaction is a function of the database; an error
    discards its writes, as dropping or rolling back a transaction does.  Commit may fail after
    the point of no return: [TxnOutcome] says what the environment does. *)

From Stdlib Require Import Strings.Byte ZArith Lia.
From stdpp Require Import prelude strings gmap sorting list.
From S2P Require Import Prelude Order StoreModel.

(** ** Integer columns: the conversions of the adapter *)

Definition positive_i64 (value : Z) : result StoreError Z :=
  if value =? 0 then Err SE_MutationConflict
  else if value <=? i64_max then Ok value else Err SE_LimitExceeded.
Definition nonnegative_i64 (value : Z) : result StoreError Z :=
  if value <=? i64_max then Ok value else Err SE_LimitExceeded.
Definition positive_u64 (value : Z) : result StoreError Z :=
  if value <=? 0 then Err SE_Corruption
  else ok_or SE_Corruption (try_from_u u64_max value).
Definition positive_or_zero_u64 (value : Z) : result StoreError Z :=
  ok_or SE_Corruption (try_from_u u64_max value).
Definition positive_or_zero_u32 (value : Z) : result StoreError Z :=
  ok_or SE_Corruption (try_from_u u32_max value).

(** [now_micros]: the clock is the time since the epoch in microseconds, if it is after it. *)
Definition now_micros (clock : option Z) : result StoreError Z :=
  let? micros := ok_or SE_Internal clock in
  if micros <=? i64_max then Ok micros else Err SE_Internal.

(** [column + 1] in a [STRICT] integer column: an overflowing sum is a real number, which the
    column refuses. *)
Definition sql_succ (n : Z) : result StoreError Z :=
  if n + 1 <=? i64_max then Ok (n + 1) else Err SE_Internal.

(** ** Driver errors *)

Inductive SqlxError : Type :=
| SQ_PoolTimedOut | SQ_PoolClosed | SQ_Io | SQ_Tls | SQ_DatabaseBusy | SQ_Other.

Definition map_sqlx_error (error : SqlxError) : StoreError :=
  match error with
  | SQ_PoolTimedOut => SE_Busy
  | SQ_PoolClosed | SQ_Io | SQ_Tls => SE_Unavailable
  | SQ_DatabaseBusy => SE_Busy
  | SQ_Other => SE_Internal
  end.

Definition map_commit_error (error : SqlxError) : StoreError :=
  match map_sqlx_error error with
  | SE_Busy => SE_Busy
  | SE_Unavailable | SE_Internal => SE_ResultUncertain
  | other => other
  end.

(** ** Transactions *)

(** What the environment does to one transaction: everything works, a statement (or [BEGIN]) fails,
    or [COMMIT] reports an error, having taken effect or not.  A busy [COMMIT] has no effect. *)
Inductive TxnOutcome : Type :=
| TO_Commit
| TO_StatementFailed (error : SqlxError)
| TO_CommitFailed (error : SqlxError) (applied : bool).

Definition commit_applied (error : SqlxError) (applied : bool) : bool :=
  match map_sqlx_error error with SE_Busy => false | _ => applied end.

Section txn.
Context {Db : Type}.

Definition txn (A : Type) : Type := Db -> result StoreError (A * Db).

Definition tret {A} (a : A) : txn A := fun db => Ok (a, db).
Definition tfail {A} (e : StoreError) : txn A := fun _ => Err e.
Definition tlift {A} (r : result StoreError A) : txn A := fun db => let? a := r in Ok (a, db).
Definition tbind {A B} (m : txn A) (k : A -> txn B) : txn B :=
  fun db => let? (a, db) := m db in k a db.
Definition tread {A} (f : Db -> A) : txn A := fun db => Ok (f db, db).
Definition twrite (f : Db -> Db) : txn unit := fun db => Ok (tt, f db).

(** [for x in l { .. }] collecting the results. *)
Fixpoint teach {A B} (f : A -> txn B) (l : list A) : txn (list B) :=
  match l with
  | [] => tret []
  | x :: l => tbind (f x) (fun b => tbind (teach f l) (fun bs => tret (b :: bs)))
  end.

(** Begin, run the body, commit; any error rolls back. *)
Definition run_txn {A} (o : TxnOutcome) (body : txn A) (db : Db) : result StoreError A * Db :=
  match o with
  | TO_StatementFailed e => (Err (map_sqlx_error e), db)
  | TO_Commit =>
      match body db with Ok (a, db') => (Ok a, db') | Err e => (Err e, db) end
  | TO_CommitFailed e applied =>
      match body db with
      | Ok (a, db') => (Err (map_commit_error e), if commit_applied e applied then db' else db)
      | Err e => (Err e, db)
      end
  end.
End txn.
Arguments txn : clear implicits.

Notation "'let!' x := m 'in' k" := (tbind m (fun x => k))
  (at level 10, x name, m at level 200, k at level 200) : runku_scope.

(** ** Facts *)

Lemma tbind_Ok {Db A B} (m : txn Db A) (k : A -> txn Db B) db r :
  tbind m k db = Ok r <-> exists a db', m db = Ok (a, db') /\ k a db' = Ok r.
Proof.
  unfold tbind. rewrite rbind_Ok. split.
  - intros ([a db'] & ? & ?). eauto.
  - intros (a & db' & ? & ?). exists (a, db'). eauto.
Qed.

Lemma tlift_Ok {Db A} (r : result StoreError A) (db : Db) a db' :
  tlift r db = Ok (a, db') <-> r = Ok a /\ db' = db.
Proof. unfold tlift. destruct r; cbn; naive_solver. Qed.

(** A transaction either has no effect or the whole effect of its body; it reports success only
    in the second case, and an effect with an error only as [ResultUncertain]. *)
Lemma run_txn_cases {Db A} o (body : txn Db A) db r db' :
  run_txn o body db = (r, db') ->
  (exists a, r = Ok a /\ body db = Ok (a, db'))
  \/ (exists e, r = Err e /\ db' = db)
  \/ (exists a, r = Err SE_ResultUncertain /\ body db = Ok (a, db')).
Proof.
  destruct o as [|e|e ap]; cbn [run_txn].
  - destruct (body db) as [[a db1]|e] eqn:E; intros [= <- <-]; [left|right; left]; eauto.
  - intros [= <- <-]. eauto.
  - destruct (body db) as [[a db1]|e1] eqn:E; [|intros [= <- <-]; eauto].
    destruct (commit_applied e ap) eqn:Ea; intros [= <- <-]; [|eauto].
    right; right. exists a. split; [|done]. unfold commit_applied, map_commit_error in *.
    destruct e; done.
Qed.

Lemma positive_i64_Ok v n : positive_i64 v = Ok n <-> n = v /\ v <> 0 /\ v <= i64_max.
Proof.
  unfold positive_i64. destruct (Z.eqb_spec v 0), (Z.leb_spec v i64_max); naive_solver lia.
Qed.

Lemma positive_i64_eq v : 0 < v <= i64_max -> positive_i64 v = Ok v.
Proof. intros. apply positive_i64_Ok. split; [done|]. lia. Qed.

Lemma positive_u64_Ok v n : positive_u64 v = Ok n <-> n = v /\ 0 < v <= u64_max.
Proof.
  unfold positive_u64. destruct (Z.leb_spec v 0); [naive_solver lia|].
  rewrite ok_or_Ok, try_from_u_Some. naive_solver lia.
Qed.

Lemma positive_or_zero_u64_Ok v n : positive_or_zero_u64 v = Ok n <-> n = v /\ 0 <= v <= u64_max.
Proof. unfold positive_or_zero_u64. by rewrite ok_or_Ok, try_from_u_Some. Qed.

Lemma positive_or_zero_u32_Ok v n : positive_or_zero_u32 v = Ok n <-> n = v /\ 0 <= v <= u32_max.
Proof. unfold positive_or_zero_u32. by rewrite ok_or_Ok, try_from_u_Some. Qed.

Lemma sql_succ_Ok n m : sql_succ n = Ok m <-> m = n + 1 /\ n + 1 <= i64_max.
Proof. unfold sql_succ. destruct (Z.leb_spec (n + 1) i64_max); naive_solver lia. Qed.
