(* ===== verification/SqliteStore.v ===== *)
(** * The SQLite adapter: [crates/runku-data-sqlite/src/{migration,adapter}.rs]

    The tables of the v1 and v2 schemas and every operation of the [LogicalStore] and
    [ReadSnapshot] traits, with the local export, seed, import and reset workflows.  Text and blob
    columns hold the bytes the code binds, so identifiers are stored rendered and parsed when a row
    is decoded.  Rows of an Environment are keyed by [skey], its two rendered scope columns.
    [clock] is what [SystemTime::now] returns during the operation. *)

From Stdlib Require Import Strings.Byte ZArith Lia.
From stdpp Require Import prelude strings gmap sorting list.
From S2P Require Import Prelude Ulid Value StoredValue IndexKey Core StoreModel Batch Order Sql.

(** ** Tables *)

Definition skey : Type := bytes * bytes.

Record OperationRow : Type := mkOperationRow {
  op_batch_digest : bytes; op_commit_sequence : Z; op_created_at : Z
}.
Record ResultRow : Type := mkResultRow {
  rs_table_id : bytes; rs_document_id : bytes; rs_revision : option Z
}.
Record DocumentRow : Type := mkDocumentRow {
  d_revision : Z; d_commit_sequence : Z; d_created_at : Z; d_updated_at : Z; d_value : bytes
}.
Record IndexRow : Type := mkIndexRow {
  i_table_id : bytes; i_document_revision : Z; i_commit_sequence : Z
}.
Record OutboxRow : Type := mkOutboxRow {
  o_commit_sequence : Z; o_payload : bytes; o_created_at : Z
}.
Record ScheduleRow : Type := mkScheduleRow {
  s_pinned_code : bytes; s_function : bytes; s_args : bytes; s_execute_at : Z; s_status : bytes;
  s_attempts : Z; s_lease_generation : Z; s_lease_owner : option bytes; s_lease_until : option Z;
  s_idempotency_key : option bytes; s_last_error : option bytes; s_commit_sequence : Z;
  s_created_at : Z; s_updated_at : Z
}.
Record ConsumerRow : Type := mkConsumerRow {
  c_cursor_sequence : Z; c_cursor_event : option bytes;
  c_lease_owner : option bytes; c_lease_until : option Z; c_lease_generation : Z;
  c_claimed_sequence : option Z; c_claimed_event : option bytes; c_updated_at : Z
}.

Record Db : Type := mkDb {
  sequences : gmap skey Z;
  operations : gmap (skey * bytes) OperationRow;
  results : gmap (skey * bytes * Z) ResultRow;
  documents : gmap (skey * (bytes * bytes)) DocumentRow;
  indexes : gmap (skey * (bytes * bytes * bytes)) IndexRow;
  outbox : gmap (skey * bytes) OutboxRow;
  schedules : gmap (skey * bytes) ScheduleRow;
  consumers : gmap (skey * bytes) ConsumerRow
}.

(** The database after the migrations. *)
Definition empty_db : Db := mkDb ∅ ∅ ∅ ∅ ∅ ∅ ∅ ∅.

Definition set_sequences x db := mkDb x (operations db) (results db) (documents db) (indexes db)
  (outbox db) (schedules db) (consumers db).
Definition set_operations x db := mkDb (sequences db) x (results db) (documents db) (indexes db)
  (outbox db) (schedules db) (consumers db).
Definition set_results x db := mkDb (sequences db) (operations db) x (documents db) (indexes db)
  (outbox db) (schedules db) (consumers db).
Definition set_documents x db := mkDb (sequences db) (operations db) (results db) x (indexes db)
  (outbox db) (schedules db) (consumers db).
Definition set_indexes x db := mkDb (sequences db) (operations db) (results db) (documents db) x
  (outbox db) (schedules db) (consumers db).
Definition set_outbox x db := mkDb (sequences db) (operations db) (results db) (documents db)
  (indexes db) x (schedules db) (consumers db).
Definition set_schedules x db := mkDb (sequences db) (operations db) (results db) (documents db)
  (indexes db) (outbox db) x (consumers db).
Definition set_consumers x db := mkDb (sequences db) (operations db) (results db) (documents db)
  (indexes db) (outbox db) (schedules db) x.

Section store.
Context {UL : UlidLib}.

Definition scope_key (scope : EnvironmentScope) : skey :=
  (id_to_string (project_id scope), id_to_string (environment_id scope)).

(** ** Row decoding *)

Definition parse_id (k : ResourceKind) (value : bytes) : result StoreError (ResourceId k) :=
  map_err (fun _ => SE_Corruption) (id_from_str k value).

Definition decode_value (value : bytes) : result StoreError CanonicalValue :=
  map_err (fun _ => SE_Corruption) (decode_stored_value value).

Definition opt_map {A B} (f : A -> result StoreError B) (o : option A) : result StoreError (option B) :=
  match o with Some a => let? b := f a in Ok (Some b) | None => Ok None end.

Definition decode_document_row (t d : bytes) (row : DocumentRow) : result StoreError DocumentRecord :=
  let? table_id := parse_id TableK t in
  let? document_id := parse_id DocumentK d in
  let? revision := positive_u64 (d_revision row) in
  let? commit_sequence := positive_u64 (d_commit_sequence row) in
  let? value := decode_value (d_value row) in
  Ok (mkDocumentRecord table_id document_id revision commit_sequence (d_created_at row)
        (d_updated_at row) value).

Definition decode_index_row (i key d : bytes) (row : IndexRow) : result StoreError IndexEntry :=
  let? index_id := parse_id IndexK i in
  let? k := map_err (fun _ => SE_Corruption) (IndexKey_decode key) in
  let? table_id := parse_id TableK (i_table_id row) in
  let? document_id := parse_id DocumentK d in
  let? document_revision := positive_u64 (i_document_revision row) in
  let? commit_sequence := positive_u64 (i_commit_sequence row) in
  Ok (mkIndexEntry index_id k table_id document_id document_revision commit_sequence).

Definition decode_outbox_event (event : bytes) (row : OutboxRow)
  : result StoreError OutboxEventRecord :=
  let? event_id := parse_id OutboxEventK event in
  let? commit_sequence := positive_u64 (o_commit_sequence row) in
  let? payload := decode_value (o_payload row) in
  Ok (mkOutboxEventRecord event_id commit_sequence payload).

Definition decode_optional_cursor (sequence : Z) (event_id : option bytes)
  : result StoreError (option OutboxCursor) :=
  match event_id with
  | None => if sequence =? 0 then Ok None else Err SE_Corruption
  | Some event_id =>
      if sequence =? 0 then Err SE_Corruption else
      let? event := parse_id OutboxEventK event_id in
      Ok (Some (mkOutboxCursor sequence event))
  end.

Definition status_text (value : ScheduleStatus) : bytes :=
  text match value with
  | SS_Pending => "pending" | SS_Running => "running" | SS_Succeeded => "succeeded"
  | SS_Failed => "failed" | SS_Cancelled => "cancelled"
  end.

Definition parse_status (value : bytes) : result StoreError ScheduleStatus :=
  if decide (value = text "pending") then Ok SS_Pending
  else if decide (value = text "running") then Ok SS_Running
  else if decide (value = text "succeeded") then Ok SS_Succeeded
  else if decide (value = text "failed") then Ok SS_Failed
  else if decide (value = text "cancelled") then Ok SS_Cancelled
  else Err SE_Corruption.

Definition cancel_result (value : bytes) : result StoreError ScheduleCancelResult :=
  let? status := parse_status value in
  match status with
  | SS_Pending => Err SE_Corruption
  | SS_Running => Ok CR_Running
  | SS_Cancelled => Ok CR_AlreadyCancelled
  | SS_Succeeded | SS_Failed => Ok CR_Terminal
  end.

Definition decode_schedule_row (id : bytes) (row : ScheduleRow)
  : result StoreError ScheduledInvocationRecord :=
  let? lease_owner := opt_map (parse_id WorkerK) (s_lease_owner row) in
  let? id := parse_id ScheduledInvocationK id in
  let? pinned_code := map_err (fun _ => SE_Corruption) (PinnedCode_from_str (s_pinned_code row)) in
  let? function := map_err (fun _ => SE_Corruption) (FunctionName_from_str (s_function row)) in
  let? args := decode_value (s_args row) in
  let? status := parse_status (s_status row) in
  let? attempts := positive_or_zero_u32 (s_attempts row) in
  let? lease_generation := positive_or_zero_u64 (s_lease_generation row) in
  let? commit_sequence := positive_u64 (s_commit_sequence row) in
  Ok (mkScheduledInvocationRecord id pinned_code function args (s_execute_at row) status attempts
        lease_generation lease_owner (s_lease_until row) (s_idempotency_key row)
        (s_last_error row) commit_sequence).

(** ** Commit *)

Definition decode_result_row (row : ResultRow) : result StoreError DocumentRevisionResult :=
  let? table_id := parse_id TableK (rs_table_id row) in
  let? document_id := parse_id DocumentK (rs_document_id row) in
  let? revision := opt_map positive_u64 (rs_revision row) in
  Ok (mkDocumentRevisionResult table_id document_id revision).

(** The result rows of one operation, [ORDER BY ordinal]. *)
Definition operation_results (sk : skey) (op : bytes) (db : Db) : list ((skey * bytes * Z) * ResultRow) :=
  order_by (cmp_on (fun r => snd (fst r)) Z.compare)
    (filter (fun r => fst (fst r) = (sk, op)) (map_to_list (results db))).

Definition load_operation (batch : CommitBatch) (digest : bytes) (db : Db)
  : result StoreError (option CommitResult) :=
  let sk := scope_key (b_scope batch) in
  let op := id_to_string (b_operation_id batch) in
  match operations db !! (sk, op) with
  | None => Ok None
  | Some row =>
      if bool_decide (op_batch_digest row <> digest) then Err SE_OperationIdReused else
      let? sequence := positive_u64 (op_commit_sequence row) in
      let? documents := try_map (fun r => decode_result_row (snd r)) (operation_results sk op db) in
      if negb (len documents =? len (b_documents batch)) then Err SE_Corruption else
      Ok (Some (mkCommitResult sequence documents true))
  end.

Definition check_document_read (sk : skey) (db : Db) (a : DocumentReadAssertion)
  : result StoreError unit :=
  let? revision :=
    opt_map (fun row => positive_u64 (d_revision row))
      (documents db !! (sk, (id_to_string (ra_table_id a), id_to_string (ra_document_id a)))) in
  if bool_decide (revision <> ra_observed_revision a) then Err SE_MutationConflict else Ok tt.

Definition validate_document_reads (sk : skey) (assertions : list DocumentReadAssertion) (db : Db)
  : result StoreError unit :=
  let? _ := try_map (check_document_read sk db) assertions in Ok tt.

(** The sequence upsert, [RETURNING commit_sequence]. *)
Definition next_sequence (sk : skey) : txn Db Z := fun db =>
  match sequences db !! sk with
  | None => Ok (1, set_sequences (<[sk := 1]> (sequences db)) db)
  | Some n => let? n := sql_succ n in Ok (n, set_sequences (<[sk := n]> (sequences db)) db)
  end.

(** A plain [INSERT]: a primary key violation, or a digest that is not 32 bytes long, is an internal
    error. *)
Definition insert_operation (sk : skey) (op : bytes) (row : OperationRow) : txn Db unit := fun db =>
  if negb (len (op_batch_digest row) =? 32) then Err SE_Internal else
  match operations db !! (sk, op) with
  | Some _ => Err SE_Internal
  | None => Ok (tt, set_operations (<[(sk, op) := row]> (operations db)) db)
  end.
Definition insert_result (sk : skey) (op : bytes) (ordinal : Z) (row : ResultRow) : txn Db unit :=
  fun db =>
  match results db !! (sk, op, ordinal) with
  | Some _ => Err SE_Internal
  | None => Ok (tt, set_results (<[(sk, op, ordinal) := row]> (results db)) db)
  end.

Definition apply_document (sk : skey) (sequence now : Z) (mutation : DocumentMutation)
  : txn Db DocumentRevisionResult := fun db =>
  match mutation with
  | DM_Upsert table_id document_id expected value =>
      let key := (sk, (id_to_string table_id, id_to_string document_id)) in
      let? encoded := map_err (fun _ => SE_LimitExceeded) (encode_stored_value value) in
      match expected with
      | ER_Absent =>
          match documents db !! key with
          | Some _ => Err SE_MutationConflict
          | None =>
              Ok (mkDocumentRevisionResult table_id document_id (Some 1),
                  set_documents
                    (<[key := mkDocumentRow 1 sequence now now encoded]> (documents db)) db)
          end
      | ER_Exact expected =>
          let? expected_db := positive_i64 expected in
          let? next := ok_or SE_LimitExceeded (checked_add u64_max expected 1) in
          let? next_db := positive_i64 next in
          match documents db !! key with
          | Some row =>
              if d_revision row =? expected_db then
                Ok (mkDocumentRevisionResult table_id document_id (Some next),
                    set_documents
                      (<[key := mkDocumentRow next_db sequence (d_created_at row) now encoded]>
                         (documents db)) db)
              else Err SE_MutationConflict
          | None => Err SE_MutationConflict
          end
      end
  | DM_Delete table_id document_id expected_revision =>
      let key := (sk, (id_to_string table_id, id_to_string document_id)) in
      let? expected_db := positive_i64 expected_revision in
      match documents db !! key with
      | Some row =>
          if d_revision row =? expected_db then
            Ok (mkDocumentRevisionResult table_id document_id None,
                set_documents (delete key (documents db)) db)
          else Err SE_MutationConflict
      | None => Err SE_MutationConflict
      end
  end.

(** One iteration of the document loop: apply, then record the result at its ordinal. *)
Definition commit_document (sk : skey) (op : bytes) (sequence now : Z)
  (item : nat * DocumentMutation) : txn Db DocumentRevisionResult :=
  let! result := apply_document sk sequence now (snd item) in
  let! ordinal := tlift (nonnegative_i64 (Z.of_nat (fst item))) in
  let! revision := tlift (opt_map positive_i64 (rr_revision result)) in
  let! _ := insert_result sk op ordinal
    (mkResultRow (id_to_string (rr_table_id result)) (id_to_string (rr_document_id result))
       revision) in
  tret result.

Definition apply_index (sk : skey) (sequence : Z) (mutation : IndexMutation) : txn Db unit :=
  fun db =>
  match mutation with
  | IM_Put index_id key table_id document_id document_revision =>
      let? revision := positive_i64 document_revision in
      match documents db !! (sk, (id_to_string table_id, id_to_string document_id)) with
      | Some row =>
          if d_revision row =? revision then
            Ok (tt, set_indexes
              (<[(sk, (id_to_string index_id, encoded key, id_to_string document_id)) :=
                   mkIndexRow (id_to_string table_id) revision sequence]> (indexes db)) db)
          else Err SE_MutationConflict
      | None => Err SE_MutationConflict
      end
  | IM_Delete index_id key document_id =>
      Ok (tt, set_indexes
        (delete (sk, (id_to_string index_id, encoded key, id_to_string document_id)) (indexes db)) db)
  end.

Definition append_outbox (sk : skey) (sequence now : Z) (event : OutboxAppend) : txn Db unit :=
  fun db =>
  let? payload := map_err (fun _ => SE_LimitExceeded) (encode_stored_value (oa_payload event)) in
  match outbox db !! (sk, id_to_string (oa_event_id event)) with
  | Some _ => Err SE_MutationConflict
  | None =>
      Ok (tt, set_outbox (<[(sk, id_to_string (oa_event_id event)) :=
                              mkOutboxRow sequence payload now]> (outbox db)) db)
  end.

(** The unique index [runku_schedule_idempotency]. *)
Definition idempotency_key_used (sk : skey) (key : option bytes) (db : Db) : bool :=
  match key with
  | None => false
  | Some _ => existsb (fun r => bool_decide (fst (fst r) = sk)
                                && bool_decide (s_idempotency_key (snd r) = key))
                (map_to_list (schedules db))
  end.

Definition insert_schedule (sk : skey) (sequence now : Z) (s : ScheduledInvocationInsert)
  : txn Db unit := fun db =>
  let? args := map_err (fun _ => SE_LimitExceeded) (encode_stored_value (sn_args s)) in
  match schedules db !! (sk, id_to_string (sn_id s)) with
  | Some _ => Err SE_MutationConflict
  | None =>
      if idempotency_key_used sk (sn_idempotency_key s) db then Err SE_MutationConflict else
      Ok (tt, set_schedules
        (<[(sk, id_to_string (sn_id s)) :=
             mkScheduleRow (PinnedCode_to_string (sn_pinned_code s)) (function_str (sn_function s))
               args (sn_execute_at s) (status_text SS_Pending) 0 0 None None
               (sn_idempotency_key s) None sequence now now]> (schedules db)) db)
  end.

Definition apply_commit (clock : option Z) (batch : CommitBatch) (digest : bytes)
  : txn Db CommitResult := fun db =>
  let? loaded := load_operation batch digest db in
  match loaded with
  | Some result => Ok (result, db)
  | None =>
      let sk := scope_key (b_scope batch) in
      let op := id_to_string (b_operation_id batch) in
      let? _ := validate_document_reads sk (b_reads batch) db in
      (let! sequence := next_sequence sk in
       let! sequence_u64 := tlift (positive_u64 sequence) in
       let! now := tlift (now_micros clock) in
       let! _ := insert_operation sk op (mkOperationRow digest sequence now) in
       let! docs := teach (commit_document sk op sequence now)
                      (enumerate (b_documents batch)) in
       let! _ := teach (apply_index sk sequence) (b_indexes batch) in
       let! _ := teach (append_outbox sk sequence now) (b_outbox batch) in
       let! _ := teach (insert_schedule sk sequence now) (b_schedules batch) in
       tret (mkCommitResult sequence_u64 docs false)) db
  end.

Definition commit (sha256 : bytes -> bytes) (o : TxnOutcome) (clock : option Z)
  (batch : CommitBatch) (db : Db) : result StoreError CommitResult * Db :=
  match digest sha256 batch with
  | Err e => (Err e, db)
  | Ok d => run_txn o (apply_commit clock batch d) db
  end.

(** ** Outbox consumers *)

(** [INSERT .. ON CONFLICT DO NOTHING] of the sequence row and the consumer row. *)
Definition ensure_sequence (sk : skey) : txn Db unit := twrite (fun db =>
  match sequences db !! sk with
  | Some _ => db
  | None => set_sequences (<[sk := 0]> (sequences db)) db
  end).
Definition ensure_consumer (sk : skey) (consumer : bytes) (now : Z) : txn Db unit :=
  twrite (fun db =>
  match consumers db !! (sk, consumer) with
  | Some _ => db
  | None => set_consumers
      (<[(sk, consumer) := mkConsumerRow 0 None None None 0 None None now]> (consumers db)) db
  end).

(** The lease [UPDATE .. RETURNING]; no row matches while another worker's lease is live. *)
Definition lease_available (worker : bytes) (now : Z) (row : ConsumerRow) : bool :=
  match c_lease_owner row with
  | None => true
  | Some owner =>
      bool_decide (owner = worker)
      || match c_lease_until row with Some t => t <=? now | None => false end
  end.

Definition acquire_consumer_lease (sk : skey) (consumer worker : bytes) (now lease_until : Z)
  : txn Db ConsumerRow := fun db =>
  match consumers db !! (sk, consumer) with
  | Some row =>
      if lease_available worker now row then
        let? generation := sql_succ (c_lease_generation row) in
        let row := mkConsumerRow (c_cursor_sequence row) (c_cursor_event row) (Some worker)
                     (Some lease_until) generation (c_claimed_sequence row) (c_claimed_event row) now in
        Ok (row, set_consumers (<[(sk, consumer) := row]> (consumers db)) db)
      else Err SE_Busy
  | None => Err SE_Busy
  end.

(** [commit_sequence > ? OR (commit_sequence = ? AND event_id > COALESCE(?, ''))]. *)
Definition after_cursor (sequence : Z) (event : bytes) (r : (skey * bytes) * OutboxRow) : bool :=
  (sequence <? o_commit_sequence (snd r))
  || ((o_commit_sequence (snd r) =? sequence) && bytes_ltb event (snd (fst r))).

Definition outbox_order : (skey * bytes) * OutboxRow -> (skey * bytes) * OutboxRow -> comparison :=
  cmp_lex (cmp_on (fun r => o_commit_sequence (snd r)) Z.compare)
          (cmp_on (fun r => snd (fst r)) bytes_cmp).

Definition outbox_after (sk : skey) (sequence : Z) (event : bytes) (db : Db)
  : list ((skey * bytes) * OutboxRow) :=
  order_by outbox_order
    (filter (fun r => fst (fst r) = sk /\ after_cursor sequence event r = true)
       (map_to_list (outbox db))).

Definition update_consumer (sk : skey) (consumer : bytes) (f : ConsumerRow -> ConsumerRow)
  : txn Db unit := twrite (fun db => set_consumers (alter f (sk, consumer) (consumers db)) db).

Definition claim_outbox_body (sk : skey) (consumer worker : bytes) (now lease_until limit : Z)
  : txn Db ClaimedOutboxBatch :=
  let! _ := ensure_sequence sk in
  let! _ := ensure_consumer sk consumer now in
  let! lease := acquire_consumer_lease sk consumer worker now lease_until in
  let! cursor_sequence := tlift (positive_or_zero_u64 (c_cursor_sequence lease)) in
  let! acknowledged := tlift (decode_optional_cursor cursor_sequence (c_cursor_event lease)) in
  let! bound := tlift (nonnegative_i64 cursor_sequence) in
  let event := match acknowledged with
               | Some cursor => id_to_string (oc_event_id cursor)
               | None => []
               end in
  let! rows := tread (fun db => take (Z.to_nat limit) (outbox_after sk bound event db)) in
  let! events := tlift (try_map (fun r => decode_outbox_event (snd (fst r)) (snd r)) rows) in
  let! _ := match last events with
            | Some e =>
                let! seq := tlift (positive_i64 (oe_commit_sequence e)) in
                update_consumer sk consumer (fun r =>
                  mkConsumerRow (c_cursor_sequence r) (c_cursor_event r) (c_lease_owner r)
                    (c_lease_until r) (c_lease_generation r) (Some seq)
                    (Some (id_to_string (oe_event_id e))) now)
            | None =>
                update_consumer sk consumer (fun r =>
                  mkConsumerRow (c_cursor_sequence r) (c_cursor_event r) None None
                    (c_lease_generation r) (c_claimed_sequence r) (c_claimed_event r) now)
            end in
  let! generation := tlift (positive_u64 (c_lease_generation lease)) in
  tret (mkClaimedOutboxBatch generation acknowledged events).

Definition claim_outbox (o : TxnOutcome) (scope : EnvironmentScope) (consumer : OutboxConsumerName)
  (worker_id : WorkerId) (now lease_until limit : Z) (db : Db)
  : result StoreError ClaimedOutboxBatch * Db :=
  if (limit =? 0) || (1000 <? limit) || (lease_until <=? now) then (Err SE_LimitExceeded, db) else
  run_txn o (claim_outbox_body (scope_key scope) (consumer_str consumer) (id_to_string worker_id)
               now lease_until limit) db.

Definition ack_outbox_body (sk : skey) (consumer worker : bytes) (clock : option Z)
  (lease_generation : Z) (through : OutboxCursor) : txn Db unit := fun db =>
  let? seq := positive_i64 (oc_commit_sequence through) in
  let? now := now_micros clock in
  let? generation := positive_i64 lease_generation in
  let event := id_to_string (oc_event_id through) in
  match consumers db !! (sk, consumer) with
  | Some row =>
      if bool_decide (c_lease_owner row = Some worker) && (c_lease_generation row =? generation)
         && bool_decide (c_claimed_sequence row = Some seq)
         && bool_decide (c_claimed_event row = Some event)
      then
        Ok (tt, set_consumers
          (<[(sk, consumer) := mkConsumerRow seq (Some event) None None (c_lease_generation row)
                                 None None now]> (consumers db)) db)
      else Err SE_OutboxLeaseLost
  | None => Err SE_OutboxLeaseLost
  end.

Definition ack_outbox (o : TxnOutcome) (clock : option Z) (scope : EnvironmentScope)
  (consumer : OutboxConsumerName) (worker_id : WorkerId) (lease_generation : Z)
  (through : OutboxCursor) (db : Db) : result StoreError unit * Db :=
  if (lease_generation =? 0) || (oc_commit_sequence through =? 0)
  then (Err SE_OutboxLeaseLost, db) else
  run_txn o (ack_outbox_body (scope_key scope) (consumer_str consumer) (id_to_string worker_id)
               clock lease_generation through) db.

(** ** Scheduled invocations *)

Definition schedule_due (now : Z) (row : ScheduleRow) : bool :=
  (s_execute_at row <=? now)
  && (bool_decide (s_status row = text "pending")
      || (bool_decide (s_status row = text "running")
          && match s_lease_until row with Some t => t <=? now | None => false end)).

Definition due_order : (skey * bytes) * ScheduleRow -> (skey * bytes) * ScheduleRow -> comparison :=
  cmp_lex (cmp_on (fun r => s_execute_at (snd r)) Z.compare)
          (cmp_on (fun r => snd (fst r)) bytes_cmp).

Definition due_schedules (sk : skey) (now : Z) (db : Db) : list ((skey * bytes) * ScheduleRow) :=
  order_by due_order
    (filter (fun r => fst (fst r) = sk /\ schedule_due now (snd r) = true)
       (map_to_list (schedules db))).

Definition fetch_schedule_row (sk : skey) (id : bytes) (db : Db) : option ScheduleRow :=
  schedules db !! (sk, id).

(** The claim [UPDATE] of one row, then its re-read. *)
Definition claim_one (sk : skey) (worker : bytes) (now lease_until : Z) (id : bytes)
  : txn Db ScheduledInvocationRecord :=
  let! _ := fun db =>
    match schedules db !! (sk, id) with
    | None => Ok (tt, db)
    | Some row =>
        let? attempts := sql_succ (s_attempts row) in
        let? generation := sql_succ (s_lease_generation row) in
        Ok (tt, set_schedules
          (<[(sk, id) := mkScheduleRow (s_pinned_code row) (s_function row) (s_args row)
               (s_execute_at row) (text "running") attempts generation (Some worker)
               (Some lease_until) (s_idempotency_key row) (s_last_error row)
               (s_commit_sequence row) (s_created_at row) now]> (schedules db)) db)
    end in
  let! row := tread (fetch_schedule_row sk id) in
  let! row := tlift (ok_or SE_Corruption row) in
  tlift (decode_schedule_row id row).

Definition claim_due_body (sk : skey) (worker : bytes) (now lease_until limit : Z)
  : txn Db (list ScheduledInvocationRecord) :=
  let! ids := tread (fun db => map (fun r => snd (fst r))
                       (take (Z.to_nat limit) (due_schedules sk now db))) in
  teach (claim_one sk worker now lease_until) ids.

Definition claim_due_scheduled (o : TxnOutcome) (scope : EnvironmentScope) (worker_id : WorkerId)
  (now lease_until limit : Z) (db : Db)
  : result StoreError (list ScheduledInvocationRecord) * Db :=
  if (limit =? 0) || (100 <? limit) || (lease_until <=? now) then (Err SE_LimitExceeded, db) else
  run_txn o (claim_due_body (scope_key scope) (id_to_string worker_id) now lease_until limit) db.

Definition validate_error_code (error : bytes) : result StoreError unit :=
  if bool_decide (error = []) || (64 <? len error)
     || negb (forallb (fun b => is_ascii_uppercase b || is_ascii_digit b || bool_decide (b = x5f))
                error)
  then Err SE_LimitExceeded else Ok tt.

Definition validate_completion (completion : ScheduleCompletion) : result StoreError unit :=
  match completion with
  | SC_Succeeded => Ok tt
  | SC_Retry _ error_code | SC_Failed error_code => validate_error_code error_code
  end.

(** The columns a completion sets on the row it owns. *)
Definition completed_row (completion : ScheduleCompletion) (now : Z) (row : ScheduleRow)
  : ScheduleRow :=
  let set status execute_at error :=
    mkScheduleRow (s_pinned_code row) (s_function row) (s_args row) execute_at status
      (s_attempts row) (s_lease_generation row) None None (s_idempotency_key row) error
      (s_commit_sequence row) (s_created_at row) now in
  match completion with
  | SC_Succeeded => set (text "succeeded") (s_execute_at row) None
  | SC_Retry execute_at error_code => set (text "pending") execute_at (Some error_code)
  | SC_Failed error_code => set (text "failed") (s_execute_at row) (Some error_code)
  end.

(** The [UPDATE]s of [complete_schedule_update]; the result is the number of affected rows. *)
Definition complete_schedule_update (sk : skey) (id worker : bytes) (generation : Z)
  (completion : ScheduleCompletion) (now : Z) : txn Db Z := fun db =>
  match schedules db !! (sk, id) with
  | Some row =>
      if bool_decide (s_status row = text "running") && bool_decide (s_lease_owner row = Some worker)
         && (s_lease_generation row =? generation)
      then Ok (1, set_schedules (<[(sk, id) := completed_row completion now row]> (schedules db)) db)
      else Ok (0, db)
  | None => Ok (0, db)
  end.

Definition complete_scheduled (o : TxnOutcome) (clock : option Z) (scope : EnvironmentScope)
  (id : ScheduledInvocationId) (worker_id : WorkerId) (lease_generation : Z)
  (completion : ScheduleCompletion) (db : Db) : result StoreError unit * Db :=
  match (let? _ := validate_completion completion in
         let? generation := positive_i64 lease_generation in
         let? now := now_micros clock in
         Ok (generation, now)) with
  | Err e => (Err e, db)
  | Ok (generation, now) =>
      run_txn o
        (let! n := complete_schedule_update (scope_key scope) (id_to_string id)
                     (id_to_string worker_id) generation completion now in
         if n =? 1 then tret tt else tfail SE_LeaseLost) db
  end.

Definition cancel_scheduled_body (sk : skey) (id : bytes) (clock : option Z)
  : txn Db ScheduleCancelResult := fun db =>
  let? now := now_micros clock in
  match schedules db !! (sk, id) with
  | Some row =>
      if decide (s_status row = text "pending") then
        Ok (CR_Cancelled, set_schedules
          (<[(sk, id) := mkScheduleRow (s_pinned_code row) (s_function row) (s_args row)
               (s_execute_at row) (text "cancelled") (s_attempts row) (s_lease_generation row)
               (s_lease_owner row) (s_lease_until row) (s_idempotency_key row) (s_last_error row)
               (s_commit_sequence row) (s_created_at row) now]> (schedules db)) db)
      else let? outcome := cancel_result (s_status row) in Ok (outcome, db)
  | None => Err SE_NotFound
  end.

Definition cancel_scheduled (o : TxnOutcome) (clock : option Z) (scope : EnvironmentScope)
  (id : ScheduledInvocationId) (db : Db) : result StoreError ScheduleCancelResult * Db :=
  run_txn o (cancel_scheduled_body (scope_key scope) (id_to_string id) clock) db.

(** ** Read snapshots *)

Record SqliteSnapshot : Type := mkSqliteSnapshot {
  snap_db : Db; snap_scope : EnvironmentScope; snap_sequence : Z
}.

(** The read transaction sees the database as it is when the snapshot is opened. *)
Definition begin_read (scope : EnvironmentScope) (db : Db) : result StoreError SqliteSnapshot :=
  let sequence := default 0 (sequences db !! scope_key scope) in
  let? sequence := positive_or_zero_u64 sequence in
  Ok (mkSqliteSnapshot db scope sequence).

Definition get_document (s : SqliteSnapshot) (table_id : TableId) (document_id : DocumentId)
  : result StoreError (option DocumentRecord) :=
  let t := id_to_string table_id in
  let d := id_to_string document_id in
  opt_map (decode_document_row t d) (documents (snap_db s) !! (scope_key (snap_scope s), (t, d))).

(** The conditions [push_range] adds to the query. *)
Definition push_range (range : IndexRange) (key : bytes) : bool :=
  match lower range with
  | KB_Unbounded => true
  | KB_Inclusive value => bytes_leb value key
  | KB_Exclusive value => bytes_ltb value key
  end
  && match upper range with
     | KB_Unbounded => true
     | KB_Inclusive value => bytes_leb key value
     | KB_Exclusive value => bytes_ltb key value
     end.

Definition index_row : Type := (skey * (bytes * bytes * bytes)) * IndexRow.
Definition row_index (r : index_row) : bytes := fst (fst (snd (fst r))).
Definition row_key (r : index_row) : bytes := snd (fst (snd (fst r))).
Definition row_document (r : index_row) : bytes := snd (snd (fst r)).
Definition scan_order : index_row -> index_row -> comparison :=
  cmp_lex (cmp_on row_key bytes_cmp) (cmp_on row_document bytes_cmp).

Definition scan_rows (sk : skey) (index : bytes) (range : IndexRange) (db : Db) : list index_row :=
  order_by scan_order
    (filter (fun r => fst (fst r) = sk /\ row_index r = index /\ push_range range (row_key r) = true)
       (map_to_list (indexes db))).

Definition scan_index (s : SqliteSnapshot) (index_id : IndexId) (range : IndexRange) (limit : Z)
  : result StoreError (list IndexEntry) :=
  let? _ := IndexRange_validate range limit in
  try_map (fun r => decode_index_row (row_index r) (row_key r) (row_document r) (snd r))
    (take (Z.to_nat limit)
       (scan_rows (scope_key (snap_scope s)) (id_to_string index_id) range (snap_db s))).

Definition get_outbox (s : SqliteSnapshot) (event_id : OutboxEventId)
  : result StoreError (option CanonicalValue) :=
  opt_map (fun row => decode_value (o_payload row))
    (outbox (snap_db s) !! (scope_key (snap_scope s), id_to_string event_id)).

Definition get_scheduled (s : SqliteSnapshot) (id : ScheduledInvocationId)
  : result StoreError (option ScheduledInvocationRecord) :=
  opt_map (decode_schedule_row (id_to_string id))
    (fetch_schedule_row (scope_key (snap_scope s)) (id_to_string id) (snap_db s)).

Definition list_scheduled (s : SqliteSnapshot) (after : option ScheduledInvocationId) (limit : Z)
  : result StoreError (list ScheduledInvocationRecord) :=
  if (limit =? 0) || (201 <? limit) then Err SE_InvalidRange else
  try_map (fun r => decode_schedule_row (snd (fst r)) (snd r))
    (take (Z.to_nat limit)
       (order_by (cmp_on (fun r => snd (fst r)) bytes_cmp)
          (filter (fun r => fst (fst r) = scope_key (snap_scope s)
                     /\ match after with
                        | Some after => bytes_ltb (id_to_string after) (snd (fst r))
                        | None => true
                        end = true)
             (map_to_list (schedules (snap_db s)))))).

(** ** Export, seed, import and reset *)

Record ExportedOutboxRecord : Type := mkExportedOutboxRecord {
  xo_event_id : OutboxEventId; xo_commit_sequence : Z; xo_created_at : Z;
  xo_payload : CanonicalValue
}.

Record EnvironmentExportV1 : Type := mkEnvironmentExportV1 {
  x_format_version : Z;
  x_scope : EnvironmentScope;
  x_commit_sequence : Z;
  x_documents : list DocumentRecord;
  x_indexes : list IndexEntry;
  x_outbox : list ExportedOutboxRecord;
  x_schedules : list ScheduledInvocationRecord
}.

Definition decode_exported_outbox (event : bytes) (row : OutboxRow)
  : result StoreError ExportedOutboxRecord :=
  let? event_id := parse_id OutboxEventK event in
  let? commit_sequence := positive_u64 (o_commit_sequence row) in
  let? payload := decode_value (o_payload row) in
  Ok (mkExportedOutboxRecord event_id commit_sequence (o_created_at row) payload).

Definition MAX_EXPORT_ROWS_PER_KIND : Z := 1000000.

Definition sequence_invalid (sequence : Z) (x : EnvironmentExportV1) : bool :=
  (sequence =? 0) || (x_commit_sequence x <? sequence).

Definition check_export_document (x : EnvironmentExportV1)
  (seen : list (TableId * DocumentId * Z)) (d : DocumentRecord)
  : result StoreError (list (TableId * DocumentId * Z)) :=
  if (dr_revision d =? 0) || sequence_invalid (dr_commit_sequence d) x then Err SE_Corruption else
  let? seen := ok_or SE_Corruption
    (set_insert (dr_table_id d, dr_document_id d, dr_revision d) seen) in
  let? _ := map_err (fun _ => SE_LimitExceeded) (encode_stored_value (dr_value d)) in
  Ok seen.

Definition check_export_index (x : EnvironmentExportV1) (docs : list (TableId * DocumentId * Z))
  (seen : list (IndexId * bytes * DocumentId)) (e : IndexEntry)
  : result StoreError (list (IndexId * bytes * DocumentId)) :=
  if (ie_document_revision e =? 0) || sequence_invalid (ie_commit_sequence e) x
     || negb (bool_decide ((ie_table_id e, ie_document_id e, ie_document_revision e) ∈ docs))
  then Err SE_Corruption else
  ok_or SE_Corruption (set_insert (ie_index_id e, encoded (ie_key e), ie_document_id e) seen).

Definition check_export_outbox (x : EnvironmentExportV1) (seen : list OutboxEventId)
  (e : ExportedOutboxRecord) : result StoreError (list OutboxEventId) :=
  if sequence_invalid (xo_commit_sequence e) x then Err SE_Corruption else
  let? seen := ok_or SE_Corruption (set_insert (xo_event_id e) seen) in
  let? _ := map_err (fun _ => SE_LimitExceeded) (encode_stored_value (xo_payload e)) in
  Ok seen.

(** [Running] exactly when the lease columns are set. *)
Definition lease_mismatch (r : ScheduledInvocationRecord) : bool :=
  (bool_decide (si_status r = SS_Running)
   && (negb (bool_decide (is_Some (si_lease_owner r))) || negb (bool_decide (is_Some (si_lease_until r)))))
  || (bool_decide (si_status r <> SS_Running)
      && (bool_decide (is_Some (si_lease_owner r)) || bool_decide (is_Some (si_lease_until r)))).

Definition check_export_schedule (x : EnvironmentExportV1)
  (seen : list ScheduledInvocationId * list bytes) (r : ScheduledInvocationRecord)
  : result StoreError (list ScheduledInvocationId * list bytes) :=
  if sequence_invalid (si_commit_sequence r) x then Err SE_Corruption else
  let? ids := ok_or SE_Corruption (set_insert (si_id r) (fst seen)) in
  let? keys :=
    match si_idempotency_key r with
    | Some key =>
        if bool_decide (key = []) || (128 <? len key) then Err SE_Corruption
        else ok_or SE_Corruption (set_insert key (snd seen))
    | None => Ok (snd seen)
    end in
  if lease_mismatch r then Err SE_Corruption else
  let? _ := match si_last_error_code r with
            | Some error => validate_error_code error
            | None => Ok tt
            end in
  let? _ := map_err (fun _ => SE_LimitExceeded) (encode_stored_value (si_args r)) in
  Ok (ids, keys).

Definition validate_export (x : EnvironmentExportV1) : result StoreError unit :=
  if negb (x_format_version x =? 1) || (MAX_EXPORT_ROWS_PER_KIND <? len (x_documents x))
     || (MAX_EXPORT_ROWS_PER_KIND <? len (x_indexes x))
     || (MAX_EXPORT_ROWS_PER_KIND <? len (x_outbox x))
     || (MAX_EXPORT_ROWS_PER_KIND <? len (x_schedules x))
  then Err SE_LimitExceeded else
  let? docs := try_fold (check_export_document x) [] (x_documents x) in
  let? _ := try_fold (check_export_index x docs) [] (x_indexes x) in
  let? _ := try_fold (check_export_outbox x) [] (x_outbox x) in
  let? _ := try_fold (check_export_schedule x) ([], []) (x_schedules x) in
  Ok tt.

Definition export_environment (scope : EnvironmentScope) (db : Db)
  : result StoreError EnvironmentExportV1 :=
  let sk := scope_key scope in
  let sequence := default 0 (sequences db !! sk) in
  let? docs := try_map (fun r => decode_document_row (fst (snd (fst r))) (snd (snd (fst r))) (snd r))
    (order_by (cmp_lex (cmp_on (fun r => fst (snd (fst r))) bytes_cmp)
                       (cmp_on (fun r => snd (snd (fst r))) bytes_cmp))
       (filter (fun r => fst (fst r) = sk) (map_to_list (documents db)))) in
  let? idx := try_map (fun r => decode_index_row (row_index r) (row_key r) (row_document r) (snd r))
    (order_by (cmp_lex (cmp_on row_index bytes_cmp) scan_order)
       (filter (fun r => fst (fst r) = sk) (map_to_list (indexes db)))) in
  let? events := try_map (fun r => decode_exported_outbox (snd (fst r)) (snd r))
    (order_by outbox_order (filter (fun r => fst (fst r) = sk) (map_to_list (outbox db)))) in
  let? scheds := try_map (fun r => decode_schedule_row (snd (fst r)) (snd r))
    (order_by (cmp_on (fun r => snd (fst r)) bytes_cmp)
       (filter (fun r => fst (fst r) = sk) (map_to_list (schedules db)))) in
  let? sequence := positive_or_zero_u64 sequence in
  let x := mkEnvironmentExportV1 1 scope sequence docs idx events scheds in
  let? _ := validate_export x in
  Ok x.

(** [DELETE FROM runku_environment_sequences], cascading to every table of the scope. *)
Definition delete_environment (sk : skey) (db : Db) : Db :=
  if decide (is_Some (sequences db !! sk)) then
    mkDb (delete sk (sequences db))
      (filter (fun r => fst (fst r) <> sk) (operations db))
      (filter (fun r => fst (fst (fst r)) <> sk) (results db))
      (filter (fun r => fst (fst r) <> sk) (documents db))
      (filter (fun r => fst (fst r) <> sk) (indexes db))
      (filter (fun r => fst (fst r) <> sk) (outbox db))
      (filter (fun r => fst (fst r) <> sk) (schedules db))
      (filter (fun r => fst (fst r) <> sk) (consumers db))
  else db.

Definition insert_sequence (sk : skey) (n : Z) : txn Db unit := fun db =>
  match sequences db !! sk with
  | Some _ => Err SE_Internal
  | None => Ok (tt, set_sequences (<[sk := n]> (sequences db)) db)
  end.

Definition import_document (sk : skey) (r : DocumentRecord) : txn Db unit := fun db =>
  let key := (sk, (id_to_string (dr_table_id r), id_to_string (dr_document_id r))) in
  let? revision := positive_i64 (dr_revision r) in
  let? sequence := positive_i64 (dr_commit_sequence r) in
  let? value := map_err (fun _ => SE_LimitExceeded) (encode_stored_value (dr_value r)) in
  match documents db !! key with
  | Some _ => Err SE_Internal
  | None => Ok (tt, set_documents
      (<[key := mkDocumentRow revision sequence (dr_created_at r) (dr_updated_at r) value]>
         (documents db)) db)
  end.

Definition import_index (sk : skey) (e : IndexEntry) : txn Db unit := fun db =>
  let key := (sk, (id_to_string (ie_index_id e), encoded (ie_key e), id_to_string (ie_document_id e))) in
  let? revision := positive_i64 (ie_document_revision e) in
  let? sequence := positive_i64 (ie_commit_sequence e) in
  match indexes db !! key with
  | Some _ => Err SE_Internal
  | None => Ok (tt, set_indexes
      (<[key := mkIndexRow (id_to_string (ie_table_id e)) revision sequence]> (indexes db)) db)
  end.

Definition import_outbox (sk : skey) (e : ExportedOutboxRecord) : txn Db unit := fun db =>
  let key := (sk, id_to_string (xo_event_id e)) in
  let? sequence := positive_i64 (xo_commit_sequence e) in
  let? payload := map_err (fun _ => SE_LimitExceeded) (encode_stored_value (xo_payload e)) in
  match outbox db !! key with
  | Some _ => Err SE_Internal
  | None => Ok (tt, set_outbox (<[key := mkOutboxRow sequence payload (xo_created_at e)]> (outbox db)) db)
  end.

Definition import_schedule (sk : skey) (now : Z) (r : ScheduledInvocationRecord) : txn Db unit :=
  fun db =>
  let key := (sk, id_to_string (si_id r)) in
  let? args := map_err (fun _ => SE_LimitExceeded) (encode_stored_value (si_args r)) in
  let? generation := nonnegative_i64 (si_lease_generation r) in
  let? sequence := positive_i64 (si_commit_sequence r) in
  match schedules db !! key with
  | Some _ => Err SE_Internal
  | None =>
      if idempotency_key_used sk (si_idempotency_key r) db then Err SE_Internal else
      Ok (tt, set_schedules
        (<[key := mkScheduleRow (PinnedCode_to_string (si_pinned_code r))
             (function_str (si_function r)) args (si_execute_at r) (status_text (si_status r))
             (si_attempts r) generation (option_map id_to_string (si_lease_owner r))
             (si_lease_until r) (si_idempotency_key r) (si_last_error_code r) sequence now now]>
           (schedules db)) db)
  end.

Definition insert_export_records (clock : option Z) (x : EnvironmentExportV1) : txn Db unit :=
  let sk := scope_key (x_scope x) in
  let! _ := teach (import_document sk) (x_documents x) in
  let! _ := teach (import_index sk) (x_indexes x) in
  let! _ := teach (import_outbox sk) (x_outbox x) in
  let! now := tlift (now_micros clock) in
  let! _ := teach (import_schedule sk now) (x_schedules x) in
  tret tt.

Definition import_environment_inner (o : TxnOutcome) (clock : option Z) (x : EnvironmentExportV1)
  (replace : bool) (db : Db) : result StoreError unit * Db :=
  match validate_export x with
  | Err e => (Err e, db)
  | Ok _ =>
      let sk := scope_key (x_scope x) in
      run_txn o (fun db =>
        let exists_ := bool_decide (is_Some (sequences db !! sk)) in
        if exists_ && negb replace then Err SE_MutationConflict else
        let db := if exists_ then delete_environment sk db else db in
        let? n := nonnegative_i64 (x_commit_sequence x) in
        (let! _ := insert_sequence sk n in insert_export_records clock x) db) db
  end.

Definition seed_environment (o : TxnOutcome) (clock : option Z) (x : EnvironmentExportV1) (db : Db)
  : result StoreError unit * Db := import_environment_inner o clock x false db.

Definition import_environment (o : TxnOutcome) (clock : option Z) (x : EnvironmentExportV1)
  (confirmation : EnvironmentId) (db : Db) : result StoreError unit * Db :=
  if bool_decide (environment_id (x_scope x) <> confirmation) then (Err SE_InvalidRange, db)
  else import_environment_inner o clock x true db.

(** [reset_environment] maps a failed [COMMIT] with [map_sqlx_error], not [map_commit_error]. *)
Definition reset_environment (o : TxnOutcome) (scope : EnvironmentScope)
  (confirmation : EnvironmentId) (db : Db) : result StoreError unit * Db :=
  if bool_decide (environment_id scope <> confirmation) then (Err SE_InvalidRange, db) else
  let db' := delete_environment (scope_key scope) db in
  match o with
  | TO_Commit => (Ok tt, db')
  | TO_StatementFailed e => (Err (map_sqlx_error e), db)
  | TO_CommitFailed e applied =>
      (Err (map_sqlx_error e), if commit_applied e applied then db' else db)
  end.
End store.
