(* ===== verification/SqliteCommit.v ===== *)
(** * Commits on the SQLite adapter

    What a commit does to the tables: the transition of every document under optimistic
    concurrency control, the result rows of the operation journal, index, outbox and schedule
    writes; then atomicity, replay, sequence numbers, read-your-writes and tenant isolation. *)

From Stdlib Require Import Strings.Byte ZArith Lia.
From stdpp Require Import prelude strings gmap sorting list.
From S2P Require Import Prelude Ulid Value StoredValue IndexKey Core StoreModel Batch Order Sql SqliteStore.

(** ** Loops in transactions *)

Lemma teach_cons_Ok {Db A B} (f : A -> txn Db B) x l db r :
  teach f (x :: l) db = Ok r <->
  exists b db1 bs db2, f x db = Ok (b, db1) /\ teach f l db1 = Ok (bs, db2) /\ r = (b :: bs, db2).
Proof.
  cbn [teach]. rewrite tbind_Ok. setoid_rewrite tbind_Ok. unfold tret. split.
  - intros (b & db1 & Hb & bs & db2 & Hbs & [= <-]). eauto 8.
  - intros (b & db1 & bs & db2 & Hb & Hbs & ->). eauto 8.
Qed.

(** A property every iteration keeps holds after the loop. *)
Lemma teach_inv {Db A B} (P : Db -> Prop) (f : A -> txn Db B) l db bs db' :
  (forall x db b db', x ∈ l -> P db -> f x db = Ok (b, db') -> P db') ->
  P db -> teach f l db = Ok (bs, db') -> P db'.
Proof.
  revert db bs; induction l as [|x l IH]; intros db bs Hf HP H.
  - by injection H as <- <-.
  - apply teach_cons_Ok in H as (b & db1 & bs' & db2 & Hb & Hbs & [= -> ->]).
    eapply IH; [|eapply Hf; [left|..]; eauto|done].
    intros y; intros. eapply Hf; [by right|..]; eauto.
Qed.

(** A table of the database, as a getter and a setter with the usual laws. *)
Class Table {K V} `{Countable K} (get : Db -> gmap K V) (set : gmap K V -> Db -> Db) : Prop := {
  table_get_set m db : get (set m db) = m;
  table_set_set m m' db : set m (set m' db) = set m db;
  table_set_get db : set (get db) db = db
}.
#[export] Instance documents_table : Table documents set_documents.
Proof. split; [done|done|by intros []]. Qed.
#[export] Instance indexes_table : Table indexes set_indexes.
Proof. split; [done|done|by intros []]. Qed.
#[export] Instance outbox_table : Table outbox set_outbox.
Proof. split; [done|done|by intros []]. Qed.
#[export] Instance schedules_table : Table schedules set_schedules.
Proof. split; [done|done|by intros []]. Qed.
#[export] Instance results_table : Table results set_results.
Proof. split; [done|done|by intros []]. Qed.

(** A loop whose iterations each change the row at a key of their own, the keys distinct: every
    row makes its transition from the state before the loop, and no other row changes. *)
Lemma teach_rows {K V A B} `{Countable K} (get : Db -> gmap K V) set `{!Table get set}
  (f : A -> txn Db B) (key : A -> K) (trans : A -> option V -> option V -> Prop)
  (Inv : Db -> Prop) l db bs db' :
  (forall m db, Inv db -> Inv (set m db)) ->
  (forall x db b db', x ∈ l -> Inv db -> f x db = Ok (b, db') ->
     exists v, trans x (get db !! key x) v
       /\ db' = set (partial_alter (fun _ => v) (key x) (get db)) db) ->
  Inv db -> NoDup (map key l) -> teach f l db = Ok (bs, db') ->
  db' = set (get db') db
  /\ (forall x, x ∈ l -> trans x (get db !! key x) (get db' !! key x))
  /\ (forall k, (forall x, x ∈ l -> k <> key x) -> get db' !! k = get db !! k).
Proof.
  intros HInv. revert db bs; induction l as [|x l IH]; intros db bs Hf Hi Hnd Hl.
  { injection Hl as <- <-. rewrite table_set_get. split; [done|]. split; [|done].
    intros x Hx%not_elem_of_nil. done. }
  cbn [map] in Hnd. apply NoDup_cons in Hnd as [Hx Hnd].
  apply teach_cons_Ok in Hl as (b & db1 & bs' & db2 & H1 & H2 & [= -> ->]).
  apply Hf in H1 as (v & Hv & ->); [|left|done].
  apply IH in H2 as (Hdb & Hrows & Hframe); [|intros; eapply Hf; [by right|..]; eauto|by apply HInv|done].
  rewrite table_get_set in Hrows, Hframe. rewrite table_set_set in Hdb.
  assert (forall y, y ∈ l -> key x <> key y) as Hne.
  { intros y Hy E. apply Hx. rewrite E. apply list_elem_of_In, in_map. by apply list_elem_of_In. }
  split; [done|]. split.
  - intros y [->|Hy]%elem_of_cons.
    + rewrite Hframe by done. by rewrite lookup_partial_alter_eq.
    + specialize (Hrows y Hy). by rewrite lookup_partial_alter_ne in Hrows by (by apply Hne).
  - intros k Hk. rewrite Hframe by (intros; apply Hk; by right).
    apply lookup_partial_alter_ne. intros <-. by apply (Hk x); [left|].
Qed.

Section commit_facts.
Context {UL : UlidLib} {ULL : UlidLaws}.

(** ** Rendering and parsing columns *)

Lemma parse_id_Ok k s (id : ResourceId k) : parse_id k s = Ok id <-> id_ok id /\ s = id_to_string id.
Proof. unfold parse_id. by rewrite map_err_Ok, id_from_str_Ok. Qed.

Lemma parse_id_render {k} (id : ResourceId k) : id_ok id -> parse_id k (id_to_string id) = Ok id.
Proof. intros. by apply parse_id_Ok. Qed.

Lemma decode_value_encode v e :
  value_ok v = true -> encode_stored_value v = Ok e -> decode_value e = Ok v.
Proof. intros Hv He. unfold decode_value. by rewrite (stored_decode_encode v e). Qed.

Lemma encode_decode_value v e : decode_value e = Ok v -> value_ok v = true /\ encode_stored_value v = Ok e.
Proof. unfold decode_value. rewrite map_err_Ok. apply stored_encode_decode. Qed.

Lemma parse_status_text s : parse_status (status_text s) = Ok s.
Proof. by destruct s. Qed.

Lemma parse_status_Ok b s : parse_status b = Ok s <-> b = status_text s.
Proof.
  split; [|intros ->; apply parse_status_text].
  unfold parse_status. repeat case_decide; subst; intros E; by inversion E.
Qed.

Lemma scope_key_inj s1 s2 : scope_ok s1 -> scope_ok s2 -> scope_key s1 = scope_key s2 -> s1 = s2.
Proof.
  intros [Hp1 He1] [Hp2 He2] [Ep Ee]%pair_equal_spec. apply id_to_string_inj in Ep, Ee; [|done..].
  destruct s1, s2; simpl in *. by subst.
Qed.

(** ** Documents *)

Definition row_key_of (m : DocumentMutation) : bytes * bytes :=
  (id_to_string (dm_table_id m), id_to_string (dm_document_id m)).

(** What one mutation does to its document under optimistic concurrency control: from the row found
    to the row left and the result reported. *)
Inductive doc_transition (sequence now : Z)
  : DocumentMutation -> option DocumentRow -> option DocumentRow -> DocumentRevisionResult -> Prop :=
| transition_insert t d v e :
    encode_stored_value v = Ok e ->
    doc_transition sequence now (DM_Upsert t d ER_Absent v) None
      (Some (mkDocumentRow 1 sequence now now e)) (mkDocumentRevisionResult t d (Some 1))
| transition_update t d v e row :
    encode_stored_value v = Ok e -> d_revision row <> 0 -> d_revision row + 1 <> 0 ->
    d_revision row + 1 <= i64_max ->
    doc_transition sequence now (DM_Upsert t d (ER_Exact (d_revision row)) v) (Some row)
      (Some (mkDocumentRow (d_revision row + 1) sequence (d_created_at row) now e))
      (mkDocumentRevisionResult t d (Some (d_revision row + 1)))
| transition_delete t d row :
    d_revision row <> 0 -> d_revision row <= i64_max ->
    doc_transition sequence now (DM_Delete t d (d_revision row)) (Some row) None
      (mkDocumentRevisionResult t d None).

Definition put_document (k : skey * (bytes * bytes)) (new : option DocumentRow) (db : Db) : Db :=
  set_documents (partial_alter (fun _ => new) k (documents db)) db.

Lemma apply_document_Ok sk seq now m db r db' :
  apply_document sk seq now m db = Ok (r, db') <->
  exists new, doc_transition seq now m (documents db !! (sk, row_key_of m)) new r
    /\ db' = put_document (sk, row_key_of m) new db.
Proof.
  unfold apply_document, put_document. split.
  - intros H. destruct m as [t d [|n] v|t d n]; unfold row_key_of; cbn [dm_table_id dm_document_id] in *.
    + apply rbind_Ok in H as (e & He%map_err_Ok & H).
      destruct (documents db !! _) eqn:El; [done|]. injection H as <- <-.
      eexists. split; [by constructor|done].
    + apply rbind_Ok in H as (e & He%map_err_Ok & H).
      apply rbind_Ok in H as (n1 & (-> & Hn0 & Hn)%positive_i64_Ok & H).
      apply rbind_Ok in H as (n2 & [-> _]%ok_or_Ok%checked_add_Some & H).
      apply rbind_Ok in H as (n3 & (-> & Hm0 & Hm)%positive_i64_Ok & H).
      destruct (documents db !! _) as [row|] eqn:El; [|done].
      destruct (Z.eqb_spec (d_revision row) n) as [<-|]; [|done]. injection H as <- <-.
      eexists. split; [by constructor|done].
    + apply rbind_Ok in H as (n1 & (-> & Hn0 & Hn)%positive_i64_Ok & H).
      destruct (documents db !! _) as [row|] eqn:El; [|done].
      destruct (Z.eqb_spec (d_revision row) n) as [<-|]; [|done]. injection H as <- <-.
      eexists. split; [by constructor|done].
  - intros (new & Ht & ->).
    remember (documents db !! (sk, row_key_of m)) as old eqn:El. symmetry in El.
    destruct Ht as [t d v e He|t d v e row He H0 H1 H2|t d row H0 H1];
      unfold row_key_of in El; cbn [dm_table_id dm_document_id] in El.
    + rewrite He. cbn [map_err rbind]. rewrite El. done.
    + rewrite He. cbn [map_err rbind].
      rewrite (proj2 (positive_i64_Ok (d_revision row) (d_revision row))) by (split_and!; [done|done|lia]).
      cbn [rbind]. rewrite (proj2 (checked_add_Some u64_max (d_revision row) 1 (d_revision row + 1)))
        by (split; [done|]; unfold u64_max, i64_max in *; lia).
      cbn [ok_or rbind]. rewrite (proj2 (positive_i64_Ok (d_revision row + 1) _)) by done.
      cbn [rbind]. rewrite El, Z.eqb_refl. done.
    + rewrite (proj2 (positive_i64_Ok (d_revision row) _)) by done. cbn [rbind].
      rewrite El, Z.eqb_refl. done.
Qed.

(** ** The document loop *)

Definition render_result (r : DocumentRevisionResult) : ResultRow :=
  mkResultRow (id_to_string (rr_table_id r)) (id_to_string (rr_document_id r)) (rr_revision r).
Definition put_result (k : skey * bytes * Z) (row : ResultRow) (db : Db) : Db :=
  set_results (<[k := row]> (results db)) db.

Lemma opt_map_positive_i64 o o' : opt_map positive_i64 o = Ok o' -> o' = o.
Proof.
  destruct o as [n|]; cbn [opt_map]; [|by intros [= <-]].
  intros H. apply rbind_Ok in H as (n' & (-> & _)%positive_i64_Ok & [= <-]). done.
Qed.

Lemma commit_document_Ok sk op seq now n m db r db' :
  commit_document sk op seq now (n, m) db = Ok (r, db') ->
  exists new, doc_transition seq now m (documents db !! (sk, row_key_of m)) new r
    /\ results db !! (sk, op, Z.of_nat n) = None
    /\ db' = put_result (sk, op, Z.of_nat n) (render_result r) (put_document (sk, row_key_of m) new db).
Proof.
  unfold commit_document. cbn [fst snd]. intros H.
  apply tbind_Ok in H as (r1 & db1 & (new & Ht & ->)%apply_document_Ok & H).
  apply tbind_Ok in H as (ord & db2 & [Hord ->]%tlift_Ok & H).
  apply tbind_Ok in H as (rev & db3 & [Hrev%opt_map_positive_i64 ->]%tlift_Ok & H).
  apply tbind_Ok in H as ([] & db4 & Hins & [= <- <-]). subst rev.
  unfold nonnegative_i64 in Hord. destruct (_ <=? _); [|done]. injection Hord as <-.
  unfold insert_result in Hins. cbn [results put_document set_documents] in Hins.
  destruct (results db !! _) eqn:El; [done|]. injection Hins as <-. eauto.
Qed.

Lemma commit_documents_Ok sk op seq now ms n db rs db' :
  NoDup (map row_key_of ms) ->
  teach (commit_document sk op seq now) (enumerate_from n ms) db = Ok (rs, db') ->
  Forall2 (fun m r => doc_transition seq now m (documents db !! (sk, row_key_of m))
                        (documents db' !! (sk, row_key_of m)) r) ms rs
  /\ (forall k, (forall m, m ∈ ms -> k <> (sk, row_key_of m)) -> documents db' !! k = documents db !! k)
  /\ (forall i r, rs !! i = Some r ->
        results db' !! (sk, op, Z.of_nat (n + i)) = Some (render_result r))
  /\ (forall k, (forall i, (i < length ms)%nat -> k <> (sk, op, Z.of_nat (n + i))) ->
        results db' !! k = results db !! k)
  /\ db' = set_documents (documents db') (set_results (results db') db).
Proof.
  revert n db rs; induction ms as [|m ms IH]; intros n db rs Hnd H.
  { injection H as <- <-. split_and!; [constructor|done|done|done|by destruct db]. }
  cbn [enumerate_from] in H. cbn [map] in Hnd. apply NoDup_cons in Hnd as [Hm Hnd].
  apply teach_cons_Ok in H as (r & db1 & rs' & db2 & H1 & H2 & [= -> ->]).
  apply commit_document_Ok in H1 as (new & Ht & Hnone & ->).
  apply IH in H2 as (Hdocs & Hframe & Hres & Hresf & Hdb); [|done].
  assert (forall m', m' ∈ ms -> (sk, row_key_of m) <> (sk, row_key_of m')) as Hne.
  { intros m' Hm' E%(f_equal snd). apply Hm, list_elem_of_In, in_map_iff. exists m'.
    split; [done|]. by apply list_elem_of_In. }
  assert (documents db2 !! (sk, row_key_of m) = new) as Hnew.
  { rewrite Hframe by done. apply lookup_partial_alter_eq. }
  unfold put_result, put_document, set_results, set_documents in *. cbn [documents results] in *.
  split_and!.
  - constructor; [by rewrite Hnew|].
    eapply (Forall2_with (fun m' => m' ∈ ms)); [intros; by apply list_elem_of_In|exact Hdocs|].
    intros m' r' Hm' Ht'. cbn beta in Ht'. by rewrite lookup_partial_alter_ne in Ht' by (by apply Hne).
  - intros k Hk. rewrite Hframe by (intros; apply Hk; by right).
    apply lookup_partial_alter_ne. intros <-. by apply (Hk m); [left|].
  - intros [|i] r' Hi; cbn in Hi.
    + injection Hi as <-. rewrite Hresf by (intros i _ E%(f_equal snd); cbn in E; lia).
      rewrite Nat.add_0_r. apply lookup_insert_eq.
    + apply Hres in Hi. by rewrite Nat.add_succ_r.
  - intros k Hk. rewrite Hresf.
    + apply lookup_insert_ne. intros <-. apply (Hk 0%nat); [cbn; lia|]. by rewrite Nat.add_0_r.
    + intros i Hi. specialize (Hk (S i)). rewrite Nat.add_succ_r in Hk. apply Hk. cbn. lia.
  - rewrite Hdb. by destruct db.
Qed.

(** ** Index, outbox and schedule loops *)

Definition index_row_key (sk : skey) (m : IndexMutation) : skey * (bytes * bytes * bytes) :=
  let '(index, key, document) := im_identity m in (sk, (id_to_string index, key, id_to_string document)).

(** A put refers to the document's current revision; a delete removes the entry if present. *)
Inductive index_transition (sk : skey) (sequence : Z) (docs : gmap (skey * (bytes * bytes)) DocumentRow)
  : IndexMutation -> option IndexRow -> option IndexRow -> Prop :=
| transition_put i k t d r row old :
    docs !! (sk, (id_to_string t, id_to_string d)) = Some row -> d_revision row = r ->
    r <> 0 -> r <= i64_max ->
    index_transition sk sequence docs (IM_Put i k t d r) old
      (Some (mkIndexRow (id_to_string t) r sequence))
| transition_remove i k d old : index_transition sk sequence docs (IM_Delete i k d) old None.

Lemma apply_index_Ok sk seq m db u db' :
  apply_index sk seq m db = Ok (u, db') ->
  exists v, index_transition sk seq (documents db) m (indexes db !! index_row_key sk m) v
    /\ db' = set_indexes (partial_alter (fun _ => v) (index_row_key sk m) (indexes db)) db.
Proof.
  destruct m as [i k t d r|i k d]; cbn [apply_index]; unfold index_row_key; cbn [im_identity].
  - intros Hm. apply rbind_Ok in Hm as (n & (-> & Hr & Hr')%positive_i64_Ok & Hm).
    destruct (documents db !! _) as [row|] eqn:El; [|done].
    destruct (Z.eqb_spec (d_revision row) r) as [E|]; [|done]. injection Hm as <- <-.
    eexists. split; [by econstructor|done].
  - intros [= <- <-]. exists None. split; [constructor|done].
Qed.

Inductive outbox_transition (sequence now : Z) : OutboxAppend -> option OutboxRow -> option OutboxRow -> Prop :=
| transition_append e p : encode_stored_value (oa_payload e) = Ok p ->
    outbox_transition sequence now e None (Some (mkOutboxRow sequence p now)).

Lemma append_outbox_Ok sk seq now e db u db' :
  append_outbox sk seq now e db = Ok (u, db') ->
  exists v, outbox_transition seq now e (outbox db !! (sk, id_to_string (oa_event_id e))) v
    /\ db' = set_outbox (partial_alter (fun _ => v) (sk, id_to_string (oa_event_id e)) (outbox db)) db.
Proof.
  unfold append_outbox. intros Hm. apply rbind_Ok in Hm as (p & Hp%map_err_Ok & Hm).
  destruct (outbox db !! _) eqn:El; [done|]. injection Hm as <- <-.
  eexists. split; [by constructor|done].
Qed.

Definition pending_row (sequence now : Z) (s : ScheduledInvocationInsert) (args : bytes) : ScheduleRow :=
  mkScheduleRow (PinnedCode_to_string (sn_pinned_code s)) (function_str (sn_function s)) args
    (sn_execute_at s) (status_text SS_Pending) 0 0 None None (sn_idempotency_key s) None sequence now now.

Inductive schedule_transition (sequence now : Z)
  : ScheduledInvocationInsert -> option ScheduleRow -> option ScheduleRow -> Prop :=
| transition_schedule s args : encode_stored_value (sn_args s) = Ok args ->
    schedule_transition sequence now s None (Some (pending_row sequence now s args)).

Lemma insert_schedule_Ok sk seq now s db u db' :
  insert_schedule sk seq now s db = Ok (u, db') ->
  idempotency_key_used sk (sn_idempotency_key s) db = false
  /\ exists v, schedule_transition seq now s (schedules db !! (sk, id_to_string (sn_id s))) v
    /\ db' = set_schedules (partial_alter (fun _ => v) (sk, id_to_string (sn_id s)) (schedules db)) db.
Proof.
  unfold insert_schedule. intros Hm. apply rbind_Ok in Hm as (args & Ha%map_err_Ok & Hm).
  destruct (schedules db !! _) eqn:El; [done|].
  destruct (idempotency_key_used sk (sn_idempotency_key s) db) eqn:Hk; [done|].
  injection Hm as <- <-. split; [done|]. eexists. split; [by constructor|done].
Qed.

Lemma idempotency_key_used_spec sk key db : idempotency_key_used sk key db = true <->
  exists k id row, key = Some k /\ schedules db !! (sk, id) = Some row /\ s_idempotency_key row = Some k.
Proof.
  unfold idempotency_key_used. destruct key as [k|]; [|naive_solver].
  rewrite existsb_exists. split.
  - intros ([[sk' id] row] & Hin%list_elem_of_In%elem_of_map_to_list & Hc). cbn in Hc. bool_facts.
    subst. eauto 6.
  - intros (k' & id & row & [= <-] & Hl & Hk). exists ((sk, id), row). split.
    + by apply list_elem_of_In, elem_of_map_to_list.
    + cbn. by rewrite !bool_decide_eq_true_2.
Qed.

Lemma schedules_idempotency sk seq now l db us db' s :
  teach (insert_schedule sk seq now) l db = Ok (us, db') -> s ∈ l ->
  idempotency_key_used sk (sn_idempotency_key s) db = false.
Proof.
  revert db us; induction l as [|x l IH]; intros db us Hl Hs; [by apply not_elem_of_nil in Hs|].
  apply teach_cons_Ok in Hl as (b & db1 & bs' & db2 & H1 & H2 & [= -> ->]).
  apply insert_schedule_Ok in H1 as (Hu & v & Ht & ->).
  apply elem_of_cons in Hs as [->|Hs]; [done|]. specialize (IH _ _ H2 Hs).
  apply not_true_iff_false. intros (k & id & row & Ek & Hl & Er)%idempotency_key_used_spec.
  apply not_true_iff_false in IH. apply IH, idempotency_key_used_spec. exists k, id, row.
  split; [done|]. split; [|done]. cbn [schedules set_schedules].
  rewrite lookup_partial_alter_ne; [done|]. intros E. rewrite <-E in Hl. rewrite Hl in Ht.
  inversion Ht.
Qed.

(** ** A fresh commit *)

Definition read_row_key (a : DocumentReadAssertion) : bytes * bytes :=
  (id_to_string (ra_table_id a), id_to_string (ra_document_id a)).

(** The complete effect of a commit that is not a replay. *)
Record fresh_commit (b : CommitBatch) (dg : bytes) (now : Z) (db : Db) (r : CommitResult) (db' : Db)
  : Prop := {
  fc_new : operations db !! (scope_key (b_scope b), id_to_string (b_operation_id b)) = None;
  fc_replayed : cr_replayed r = false;
  fc_reads a : a ∈ b_reads b ->
    d_revision <$> documents db !! (scope_key (b_scope b), read_row_key a) = ra_observed_revision a;
  fc_sequence : cr_commit_sequence r = default 0 (sequences db !! scope_key (b_scope b)) + 1
    /\ 0 < cr_commit_sequence r <= i64_max;
  fc_sequences : sequences db' = <[scope_key (b_scope b) := cr_commit_sequence r]> (sequences db);
  fc_operations : operations db' =
    <[(scope_key (b_scope b), id_to_string (b_operation_id b)) :=
        mkOperationRow dg (cr_commit_sequence r) now]> (operations db);
  fc_results i d : cr_documents r !! i = Some d ->
    results db' !! (scope_key (b_scope b), id_to_string (b_operation_id b), Z.of_nat i)
    = Some (render_result d);
  fc_results_frame k :
    (forall i, (i < length (b_documents b))%nat ->
       k <> (scope_key (b_scope b), id_to_string (b_operation_id b), Z.of_nat i)) ->
    results db' !! k = results db !! k;
  fc_documents : Forall2 (fun m d =>
    doc_transition (cr_commit_sequence r) now m
      (documents db !! (scope_key (b_scope b), row_key_of m))
      (documents db' !! (scope_key (b_scope b), row_key_of m)) d) (b_documents b) (cr_documents r);
  fc_documents_frame k : (forall m, m ∈ b_documents b -> k <> (scope_key (b_scope b), row_key_of m)) ->
    documents db' !! k = documents db !! k;
  fc_indexes m : m ∈ b_indexes b ->
    index_transition (scope_key (b_scope b)) (cr_commit_sequence r) (documents db') m
      (indexes db !! index_row_key (scope_key (b_scope b)) m)
      (indexes db' !! index_row_key (scope_key (b_scope b)) m);
  fc_indexes_frame k : (forall m, m ∈ b_indexes b -> k <> index_row_key (scope_key (b_scope b)) m) ->
    indexes db' !! k = indexes db !! k;
  fc_outbox e : e ∈ b_outbox b ->
    outbox_transition (cr_commit_sequence r) now e
      (outbox db !! (scope_key (b_scope b), id_to_string (oa_event_id e)))
      (outbox db' !! (scope_key (b_scope b), id_to_string (oa_event_id e)));
  fc_outbox_frame k :
    (forall e, e ∈ b_outbox b -> k <> (scope_key (b_scope b), id_to_string (oa_event_id e))) ->
    outbox db' !! k = outbox db !! k;
  fc_schedules s : s ∈ b_schedules b ->
    schedule_transition (cr_commit_sequence r) now s
      (schedules db !! (scope_key (b_scope b), id_to_string (sn_id s)))
      (schedules db' !! (scope_key (b_scope b), id_to_string (sn_id s)));
  fc_schedules_frame k :
    (forall s, s ∈ b_schedules b -> k <> (scope_key (b_scope b), id_to_string (sn_id s))) ->
    schedules db' !! k = schedules db !! k;
  fc_idempotency s : s ∈ b_schedules b ->
    idempotency_key_used (scope_key (b_scope b)) (sn_idempotency_key s) db = false;
  fc_consumers : consumers db' = consumers db
}.

(** Distinct identities have distinct rendered keys. *)
Lemma NoDup_rendered {A K} (key : A -> K) {R} (render : A -> R) l :
  NoDup (map key l) -> (forall x y, x ∈ l -> y ∈ l -> render x = render y -> key x = key y) ->
  NoDup (map render l).
Proof.
  induction l as [|x l IH]; cbn [map]; [constructor|].
  intros [Hx Hnd]%NoDup_cons Hinj. constructor.
  - intros (y & Ey & Hy)%list_elem_of_In%in_map_iff. apply Hx. apply list_elem_of_In in Hy.
    assert (key x = key y) as -> by (apply Hinj; [left|by right|done]).
    apply list_elem_of_In, in_map. by apply list_elem_of_In.
  - apply IH; [done|]. intros y z Hy Hz. apply Hinj; by right.
Qed.

Lemma documents_keys_distinct b : batch_wf b -> batch_valid b -> NoDup (map row_key_of (b_documents b)).
Proof.
  intros W V. apply (NoDup_rendered document_key); [apply V|].
  intros x y Hx Hy [E1 E2]%pair_equal_spec.
  pose proof (wf_documents _ W) as Hw. rewrite Forall_forall in Hw.
  destruct (document_ids_ok _ (Hw x Hx)), (document_ids_ok _ (Hw y Hy)).
  apply id_to_string_inj in E1, E2; [|done..]. unfold document_key. congruence.
Qed.

Lemma index_ids_ok m : index_ok m ->
  let '(i, _, d) := im_identity m in id_ok i /\ id_ok d.
Proof. destruct m; cbn; tauto. Qed.

Lemma indexes_keys_distinct sk b : batch_wf b -> batch_valid b ->
  NoDup (map (index_row_key sk) (b_indexes b)).
Proof.
  intros W V. apply (NoDup_rendered im_identity); [apply V|].
  intros x y Hx Hy. pose proof (wf_indexes _ W) as Hw. rewrite Forall_forall in Hw.
  pose proof (index_ids_ok _ (Hw x Hx)) as Hox. pose proof (index_ids_ok _ (Hw y Hy)) as Hoy.
  unfold index_row_key. destruct (im_identity x) as [[i k] d], (im_identity y) as [[i' k'] d'].
  destruct Hox, Hoy. intros [_ [[E1 E2]%pair_equal_spec E3]%pair_equal_spec]%pair_equal_spec.
  apply id_to_string_inj in E1, E3; [|done..]. congruence.
Qed.

Lemma outbox_keys_distinct (sk : skey) b : batch_wf b -> batch_valid b ->
  NoDup (map (fun e => (sk, id_to_string (oa_event_id e))) (b_outbox b)).
Proof.
  intros W V. apply (NoDup_rendered oa_event_id); [apply V|].
  intros x y Hx Hy [_ E]%pair_equal_spec. pose proof (wf_outbox _ W) as Hw.
  rewrite Forall_forall in Hw. destruct (Hw x Hx), (Hw y Hy). by apply id_to_string_inj in E.
Qed.

Lemma schedules_keys_distinct (sk : skey) b : batch_wf b -> batch_valid b ->
  NoDup (map (fun s => (sk, id_to_string (sn_id s))) (b_schedules b)).
Proof.
  intros W V. apply (NoDup_rendered sn_id); [apply V|].
  intros x y Hx Hy [_ E]%pair_equal_spec. pose proof (wf_schedules _ W) as Hw.
  rewrite Forall_forall in Hw. destruct (Hw x Hx), (Hw y Hy). by apply id_to_string_inj in E.
Qed.

Lemma validate_document_reads_Ok sk reads db u : validate_document_reads sk reads db = Ok u ->
  forall a, a ∈ reads -> d_revision <$> documents db !! (sk, read_row_key a) = ra_observed_revision a.
Proof.
  unfold validate_document_reads. intros Hr. apply rbind_Ok in Hr as (us & Hus%try_map_Ok & _).
  intros a Ha. apply list_elem_of_lookup in Ha as [i Hi].
  destruct (Forall2_lookup_l _ _ _ _ _ Hus Hi) as ([] & _ & Hc).
  unfold check_document_read in Hc. apply rbind_Ok in Hc as (rev & Hrev & Hc).
  fold (read_row_key a) in Hrev. case_bool_decide as Hb; [done|]. subst rev.
  destruct (documents db !! _) as [row|]; cbn [opt_map] in Hrev; [|by injection Hrev].
  apply rbind_Ok in Hrev as (n & [-> _]%positive_u64_Ok & Hrev). by injection Hrev.
Qed.

Lemma next_sequence_Ok sk db n db' : next_sequence sk db = Ok (n, db') ->
  n = default 0 (sequences db !! sk) + 1 /\ n <= i64_max
  /\ db' = set_sequences (<[sk := n]> (sequences db)) db.
Proof.
  unfold next_sequence. destruct (sequences db !! sk) as [m|]; [|by intros [= <- <-]].
  intros Hn. apply rbind_Ok in Hn as (m' & [-> Hm]%sql_succ_Ok & [= <- <-]). done.
Qed.

(** A commit either replays a recorded operation and changes nothing, or has the effect above. *)
Lemma apply_commit_cases clock b dg db r db' : batch_wf b -> batch_valid b ->
  apply_commit clock b dg db = Ok (r, db') ->
  (load_operation b dg db = Ok (Some r) /\ db' = db)
  \/ (exists now, now_micros clock = Ok now /\ fresh_commit b dg now db r db').
Proof.
  intros W V Hc. unfold apply_commit in Hc.
  apply rbind_Ok in Hc as ([r0|] & Hl & Hc); [left; by injection Hc as -> ->|right].
  apply rbind_Ok in Hc as ([] & Hreads & Hc).
  apply tbind_Ok in Hc as (seq & db1 & (Hseq & Hmax & ->)%next_sequence_Ok & Hc).
  apply tbind_Ok in Hc as (seq' & db2 & [[-> Hpos]%positive_u64_Ok ->]%tlift_Ok & Hc).
  apply tbind_Ok in Hc as (now & db3 & [Hnow ->]%tlift_Ok & Hc). exists now. split; [done|].
  apply tbind_Ok in Hc as ([] & db4 & Hop & Hc). unfold insert_operation in Hop.
  destruct (negb _) in Hop; [done|].
  cbn [operations set_sequences] in Hop. destruct (operations db !! _) eqn:Hnew; [done|].
  injection Hop as <-.
  apply tbind_Ok in Hc as (docs & db5 & Hdocs & Hc). apply tbind_Ok in Hc as (? & db6 & Hidx & Hc).
  apply tbind_Ok in Hc as (? & db7 & Hout & Hc). apply tbind_Ok in Hc as (? & db8 & Hsch & Hc).
  injection Hc as <- <-.
  apply commit_documents_Ok in Hdocs as (Hd & Hdf & Hr & Hrf & Edb5); [|by apply documents_keys_distinct].
  assert (Hidem := fun s => schedules_idempotency _ _ _ _ _ _ _ s Hsch).
  eapply (teach_rows indexes set_indexes _ (index_row_key (scope_key (b_scope b)))
    (index_transition (scope_key (b_scope b)) seq (documents db5)) (fun d => documents d = documents db5))
    in Hidx as (Edb6 & Hi & Hif);
    [|done|by intros ? ? ? ? _ <- ?%apply_index_Ok|done|by apply indexes_keys_distinct].
  eapply (teach_rows outbox set_outbox _
    (fun e => (scope_key (b_scope b), id_to_string (oa_event_id e))) (outbox_transition seq now) (fun _ => True))
    in Hout as (Edb7 & Ho & Hof);
    [|done|by intros ? ? ? ? _ _ ?%append_outbox_Ok|done|by apply outbox_keys_distinct].
  eapply (teach_rows schedules set_schedules _
    (fun s => (scope_key (b_scope b), id_to_string (sn_id s))) (schedule_transition seq now) (fun _ => True))
    in Hsch as (Edb8 & Hs & Hsf);
    [|done|by intros ? ? ? ? _ _ [_ ?]%insert_schedule_Ok|done|by apply schedules_keys_distinct].
  rewrite Edb8, Edb7, Edb6, Edb5 in *. cbn in *.
  split; cbn; try done; [by eapply validate_document_reads_Ok|]. split; [done|lia].
Qed.

(** ** Replay *)

Definition result_rows (sk : skey) (op : bytes) (n : nat) (ds : list DocumentRevisionResult)
  : list ((skey * bytes * Z) * ResultRow) :=
  map (fun x => ((sk, op, Z.of_nat (fst x)), render_result (snd x))) (enumerate_from n ds).

Abbreviation ordinal_cmp := (cmp_on (fun r : (skey * bytes * Z) * ResultRow => snd (fst r)) Z.compare).

Lemma elem_of_result_rows sk op n ds x : x ∈ result_rows sk op n ds <->
  exists i d, ds !! i = Some d /\ x = ((sk, op, Z.of_nat (n + i)), render_result d).
Proof.
  revert n; induction ds as [|d ds IH]; intros n; unfold result_rows; cbn [enumerate_from map].
  - split; [by intros ?%not_elem_of_nil|]. intros (i & d & Hi & _). by rewrite lookup_nil in Hi.
  - rewrite elem_of_cons. fold (result_rows sk op (S n) ds). rewrite IH. split.
    + intros [->|(i & d' & Hi & ->)]; [exists 0%nat, d|exists (S i), d']; cbn [fst snd].
      * by rewrite Nat.add_0_r.
      * by rewrite Nat.add_succ_r.
    + intros ([|i] & d' & Hi & ->); cbn in Hi; [left|right].
      * injection Hi as ->. by rewrite Nat.add_0_r.
      * exists i, d'. by rewrite Nat.add_succ_r.
Qed.

Lemma result_rows_sorted sk op n ds : StronglySorted (cmp_le ordinal_cmp) (result_rows sk op n ds).
Proof.
  revert n; induction ds as [|d ds IH]; intros n; [constructor|].
  constructor; [apply IH|]. apply Forall_forall. intros x (i & d' & _ & ->)%elem_of_result_rows.
  unfold cmp_le, cmp_on. cbn [fst snd]. rewrite Z.compare_gt_iff. lia.
Qed.

Lemma result_rows_NoDup sk op n ds : NoDup (result_rows sk op n ds).
Proof.
  revert n; induction ds as [|d ds IH]; intros n; [constructor|].
  constructor; [|apply IH]. intros (i & d' & _ & E%(f_equal (fun x => snd (fst x))))%elem_of_result_rows.
  cbn in E. lia.
Qed.

Lemma operation_results_eq sk op db ds :
  (forall i d, ds !! i = Some d -> results db !! (sk, op, Z.of_nat i) = Some (render_result d)) ->
  (forall n row, results db !! (sk, op, n) = Some row -> exists i, (i < length ds)%nat /\ n = Z.of_nat i) ->
  operation_results sk op db = result_rows sk op 0 ds.
Proof.
  intros Hin Hout. apply order_by_unique; [apply _|..].
  - apply NoDup_Permutation; [apply NoDup_filter, NoDup_map_to_list|apply result_rows_NoDup|].
    intros [k row]. rewrite list_elem_of_filter, elem_of_map_to_list, elem_of_result_rows. split.
    + intros [E Hl]. destruct k as [k n]. cbn in E. subst k.
      destruct (Hout n row Hl) as (i & Hi & ->). apply lookup_lt_is_Some in Hi as [d Hd].
      exists i, d. split; [done|]. rewrite (Hin i d Hd) in Hl. by injection Hl as ->.
    + intros (i & d & Hi & [= -> ->]). split; [done|]. by apply Hin.
  - apply result_rows_sorted.
  - intros x y (i & d & Hi & ->)%elem_of_result_rows (j & d' & Hj & ->)%elem_of_result_rows E.
    unfold cmp_on in E. cbn in E. apply Z.compare_eq in E. assert (i = j) as -> by lia. congruence.
Qed.

Definition revision_result_ok (d : DocumentRevisionResult) : Prop :=
  id_ok (rr_table_id d) /\ id_ok (rr_document_id d)
  /\ (forall n, rr_revision d = Some n -> 0 < n <= i64_max).

Lemma decode_result_render d : revision_result_ok d -> decode_result_row (render_result d) = Ok d.
Proof.
  intros (Ht & Hd & Hn). unfold decode_result_row, render_result.
  cbn [rs_table_id rs_document_id rs_revision].
  rewrite !parse_id_render by done. cbn [rbind].
  assert (opt_map positive_u64 (rr_revision d) = Ok (rr_revision d)) as ->.
  { destruct (rr_revision d) as [n|]; [|done]. cbn [opt_map].
    rewrite (proj2 (positive_u64_Ok n n)); [done|]. specialize (Hn n eq_refl).
    unfold u64_max, i64_max in *. lia. }
  cbn [rbind]. by destruct d.
Qed.

Lemma doc_transition_result_ok seq now m old new d : document_ok m ->
  doc_transition seq now m old new d -> revision_result_ok d.
Proof.
  intros Hm Ht. destruct Ht; cbn in Hm; destruct_and?; unfold revision_result_ok; cbn;
    (split; [done|]; split; [done|]); intros n Hn; simplify_eq.
  - unfold i64_max. lia.
  - match goal with H : is_u64 _ = true |- _ => apply is_u64_spec in H end. lia.
Qed.

Definition as_replayed (r : CommitResult) : CommitResult :=
  mkCommitResult (cr_commit_sequence r) (cr_documents r) true.

(** Result rows belong to a recorded operation (the foreign key). *)
Definition results_owned (db : Db) : Prop :=
  forall sk op n row, results db !! (sk, op, n) = Some row -> is_Some (operations db !! (sk, op)).

Lemma decode_result_rows sk op n ds : Forall revision_result_ok ds ->
  try_map (fun r => decode_result_row (snd r)) (result_rows sk op n ds) = Ok ds.
Proof.
  intros Hds. apply try_map_Ok. revert n; induction Hds as [|d ds Hd _ IH]; intros n; constructor.
  - by apply decode_result_render.
  - apply IH.
Qed.

Lemma fresh_commit_replays b dg now db r db' : results_owned db -> batch_wf b ->
  fresh_commit b dg now db r db' ->
  load_operation b dg db' = Ok (Some (as_replayed r)).
Proof.
  intros Hown W F. unfold load_operation. rewrite (fc_operations _ _ _ _ _ _ F).
  rewrite lookup_insert_eq. cbn [op_batch_digest op_commit_sequence].
  rewrite bool_decide_eq_false_2 by naive_solver.
  rewrite (proj2 (positive_u64_Ok (cr_commit_sequence r) (cr_commit_sequence r))).
  2:{ destruct (fc_sequence _ _ _ _ _ _ F). split; [done|]. unfold u64_max, i64_max in *. lia. }
  cbn [rbind]. pose proof (fc_documents _ _ _ _ _ _ F) as Hdocs.
  assert (length (b_documents b) = length (cr_documents r)) as Hlen by (by eapply Forall2_length).
  rewrite (operation_results_eq _ _ db' (cr_documents r) (fc_results _ _ _ _ _ _ F)).
  - rewrite decode_result_rows.
    + cbn [rbind]. unfold len. rewrite Hlen, Z.eqb_refl. done.
    + apply Forall_forall. intros d [i Hi]%list_elem_of_lookup.
      destruct (Forall2_lookup_r _ _ _ _ _ Hdocs Hi) as (m & Hm & Ht).
      eapply doc_transition_result_ok; [|exact Ht].
      pose proof (wf_documents _ W) as Hw. rewrite Forall_forall in Hw.
      by apply Hw, list_elem_of_lookup_2 with i.
  - intros n row Hl. destruct (decide (0 <= n < Z.of_nat (length (cr_documents r)))) as [Hn|Hn].
    + exists (Z.to_nat n). split; lia.
    + rewrite (fc_results_frame _ _ _ _ _ _ F) in Hl.
      * apply Hown in Hl. rewrite (fc_new _ _ _ _ _ _ F) in Hl. by apply is_Some_None in Hl.
      * rewrite Hlen. intros i Hi E%(f_equal snd). cbn in E. lia.
Qed.
End commit_facts.
