(* ===== verification/SqliteInvariant.v ===== *)
(** * The invariant of the SQLite adapter

    [db_ok] collects the schema's [CHECK], foreign key and unique constraints together with what
    decoding relies on: every row decodes, sequence numbers stay below the Environment's, leases
    and consumer cursors are consistent.  Every operation of the adapter preserves it, whatever the
    environment does to the transaction, so it holds in every reachable database. *)

From Stdlib Require Import Strings.Byte ZArith Lia.
From stdpp Require Import prelude strings gmap sorting list.
From S2P Require Import Prelude Ulid Value StoredValue IndexKey Core StoreModel Batch Order Sql SqliteStore.
From S2P Require Import SqliteCommit.

Section invariant.
Context {UL : UlidLib}.

(** [n] is a commit sequence the Environment has reached. *)
Definition bounded (seqs : gmap skey Z) (sk : skey) (n : Z) : Prop :=
  exists m, seqs !! sk = Some m /\ 0 < n <= m.

Definition operation_inv (seqs : gmap skey Z) (k : skey * bytes) (row : OperationRow) : Prop :=
  bounded seqs (fst k) (op_commit_sequence row).

Definition document_inv (seqs : gmap skey Z) (k : skey * (bytes * bytes)) (row : DocumentRow) : Prop :=
  bounded seqs (fst k) (d_commit_sequence row) /\ d_revision row <= i64_max
  /\ is_ok (decode_document_row (fst (snd k)) (snd (snd k)) row) = true.

Definition index_inv (seqs : gmap skey Z) (k : skey * (bytes * bytes * bytes)) (row : IndexRow) : Prop :=
  bounded seqs (fst k) (i_commit_sequence row)
  /\ is_ok (decode_index_row (fst (fst (snd k))) (snd (fst (snd k))) (snd (snd k)) row) = true
  /\ i_document_revision row <= i64_max.

Definition outbox_inv (seqs : gmap skey Z) (k : skey * bytes) (row : OutboxRow) : Prop :=
  bounded seqs (fst k) (o_commit_sequence row) /\ is_ok (decode_outbox_event (snd k) row) = true.

(** A row is leased exactly while it is running. *)
Definition lease_consistent (row : ScheduleRow) : Prop :=
  if decide (s_status row = text "running")
  then is_Some (s_lease_owner row) /\ is_Some (s_lease_until row)
  else s_lease_owner row = None /\ s_lease_until row = None.

Definition schedule_inv (seqs : gmap skey Z) (k : skey * bytes) (row : ScheduleRow) : Prop :=
  bounded seqs (fst k) (s_commit_sequence row) /\ lease_consistent row
  /\ is_ok (decode_schedule_row (snd k) row) = true /\ s_lease_generation row <= i64_max.

(** A stored position: a reached sequence and a rendered event identifier, both or neither. *)
Definition position_inv (seqs : gmap skey Z) (sk : skey) (n : option Z) (e : option bytes) : Prop :=
  match n, e with
  | None, None => True
  | Some n, Some e => bounded seqs sk n /\ exists id : OutboxEventId, id_ok id /\ e = id_to_string id
  | _, _ => False
  end.

Definition consumer_inv (seqs : gmap skey Z) (k : skey * bytes) (row : ConsumerRow) : Prop :=
  is_Some (seqs !! fst k)
  /\ position_inv seqs (fst k)
       (if c_cursor_sequence row =? 0 then None else Some (c_cursor_sequence row)) (c_cursor_event row)
  /\ position_inv seqs (fst k) (c_claimed_sequence row) (c_claimed_event row)
  /\ (is_Some (c_lease_owner row) <-> is_Some (c_lease_until row))
  /\ 0 <= c_lease_generation row <= i64_max.

Definition table_inv {K V} `{Countable K} (P : K -> V -> Prop) (m : gmap K V) : Prop :=
  forall k row, m !! k = Some row -> P k row.

(** The partial unique index on idempotency keys. *)
Definition idempotency_unique (m : gmap (skey * bytes) ScheduleRow) : Prop :=
  forall sk id id' row row' k, m !! (sk, id) = Some row -> m !! (sk, id') = Some row' ->
    s_idempotency_key row = Some k -> s_idempotency_key row' = Some k -> id = id'.

Record db_ok (db : Db) : Prop := {
  inv_sequences : table_inv (fun _ n => 0 <= n <= i64_max) (sequences db);
  inv_operations : table_inv (operation_inv (sequences db)) (operations db);
  inv_results : results_owned db;
  inv_documents : table_inv (document_inv (sequences db)) (documents db);
  inv_indexes : table_inv (index_inv (sequences db)) (indexes db);
  inv_outbox : table_inv (outbox_inv (sequences db)) (outbox db);
  inv_schedules : table_inv (schedule_inv (sequences db)) (schedules db);
  inv_idempotency : idempotency_unique (schedules db);
  inv_consumers : table_inv (consumer_inv (sequences db)) (consumers db)
}.

Lemma db_ok_empty : db_ok empty_db.
Proof.
  split; unfold table_inv, results_owned, idempotency_unique, empty_db; simpl; intros;
    by match goal with H : ∅ !! _ = Some _ |- _ => rewrite lookup_empty in H end.
Qed.

(** ** Sequences only grow *)

Definition seqs_le (s s' : gmap skey Z) : Prop :=
  forall sk m, s !! sk = Some m -> exists m', s' !! sk = Some m' /\ m <= m'.

Lemma bounded_mono s s' sk n : seqs_le s s' -> bounded s sk n -> bounded s' sk n.
Proof. intros Hle (m & Hm & Hn). destruct (Hle sk m Hm) as (m' & Hm' & ?). exists m'. split; [done|lia]. Qed.

Lemma operation_inv_mono s s' k row : seqs_le s s' -> operation_inv s k row -> operation_inv s' k row.
Proof. unfold operation_inv. eauto using bounded_mono. Qed.
Lemma document_inv_mono s s' k row : seqs_le s s' -> document_inv s k row -> document_inv s' k row.
Proof. unfold document_inv. intros ? [? ?]. eauto using bounded_mono. Qed.
Lemma index_inv_mono s s' k row : seqs_le s s' -> index_inv s k row -> index_inv s' k row.
Proof. unfold index_inv. intros ? [? ?]. eauto using bounded_mono. Qed.
Lemma outbox_inv_mono s s' k row : seqs_le s s' -> outbox_inv s k row -> outbox_inv s' k row.
Proof. unfold outbox_inv. intros ? [? ?]. eauto using bounded_mono. Qed.
Lemma schedule_inv_mono s s' k row : seqs_le s s' -> schedule_inv s k row -> schedule_inv s' k row.
Proof. unfold schedule_inv. intros ? [? ?]. eauto using bounded_mono. Qed.
Lemma position_inv_mono s s' sk n e : seqs_le s s' -> position_inv s sk n e -> position_inv s' sk n e.
Proof. destruct n, e; cbn; try done. intros ? [? ?]. eauto using bounded_mono. Qed.
Lemma consumer_inv_mono s s' k row : seqs_le s s' -> consumer_inv s k row -> consumer_inv s' k row.
Proof.
  intros Hle ([m Hm] & ? & ? & ?). destruct (Hle _ _ Hm) as (m' & Hm' & _).
  split; [by exists m'|]. split_and!; eauto using position_inv_mono; tauto.
Qed.

Lemma table_inv_mono {K V} `{Countable K} (P Q : K -> V -> Prop) m :
  (forall k row, P k row -> Q k row) -> table_inv P m -> table_inv Q m.
Proof. unfold table_inv. eauto. Qed.

Lemma table_inv_insert {K V} `{Countable K} (P : K -> V -> Prop) m k row :
  table_inv P m -> P k row -> table_inv P (<[k := row]> m).
Proof.
  intros Hm Hk k' row'. destruct (decide (k = k')) as [<-|].
  - rewrite lookup_insert_eq. by intros [= <-].
  - rewrite lookup_insert_ne by done. apply Hm.
Qed.

(** ** Transactions *)

Lemma run_txn_inv {A} (P : Db -> Prop) o (body : txn Db A) db :
  P db -> (forall a db', body db = Ok (a, db') -> P db') -> P (snd (run_txn o body db)).
Proof.
  intros HP Hb. destruct (run_txn o body db) as [r db'] eqn:E. cbn.
  apply run_txn_cases in E as [(a & _ & H)|[(e & _ & ->)|(a & _ & H)]]; eauto.
Qed.

(** A key written by a loop, or none of its keys. *)
Lemma key_cases {A K} `{EqDecision K} (key : A -> K) (l : list A) k :
  (exists x, x ∈ l /\ k = key x) \/ (forall x, x ∈ l -> k <> key x).
Proof.
  destruct (decide (k ∈ map key l)) as [Hk|Hk]; [left|right].
  - apply list_elem_of_In, in_map_iff in Hk as (x & <- & Hx). exists x.
    split; [by apply list_elem_of_In|done].
  - intros x Hx ->. apply Hk, list_elem_of_In, in_map. by apply list_elem_of_In.
Qed.
End invariant.

(** Two members of a list with the same defined key, the defined keys distinct, are equal. *)
Lemma NoDup_omap_inj {A K} (f : A -> option K) l x y k :
  NoDup (omap f l) -> x ∈ l -> y ∈ l -> f x = Some k -> f y = Some k -> x = y.
Proof.
  induction l as [|z l IH]; [by intros _ ?%not_elem_of_nil|]. cbn [omap list_omap].
  intros Hnd Hx Hy Ex Ey.
  assert (forall w, w ∈ l -> f w = Some k -> k ∈ omap f l) as Hin
    by (intros; apply list_elem_of_omap; eauto).
  apply elem_of_cons in Hx as [->|Hx], Hy as [->|Hy]; [done|..].
  - rewrite Ex in Hnd. apply NoDup_cons in Hnd as [Hn _]. destruct Hn. eauto.
  - rewrite Ey in Hnd. apply NoDup_cons in Hnd as [Hn _]. destruct Hn. eauto.
  - destruct (f z); [apply NoDup_cons in Hnd as [_ Hnd]|]; auto.
Qed.

Section commit_inv.
Context {UL : UlidLib} {ULL : UlidLaws}.

(** ** Rows a commit writes decode *)

Lemma positive_u64_eq n : 0 < n <= i64_max -> positive_u64 n = Ok n.
Proof. intros. apply positive_u64_Ok. split; [done|]. unfold u64_max, i64_max in *. lia. Qed.

Lemma decode_written_document t d rev seq c u v e :
  id_ok t -> id_ok d -> 0 < rev <= i64_max -> 0 < seq <= i64_max -> value_ok v = true ->
  encode_stored_value v = Ok e ->
  decode_document_row (id_to_string t) (id_to_string d) (mkDocumentRow rev seq c u e)
  = Ok (mkDocumentRecord t d rev seq c u v).
Proof.
  intros Ht Hd Hr Hs Hv He. unfold decode_document_row.
  cbn [d_revision d_commit_sequence d_created_at d_updated_at d_value].
  rewrite !parse_id_render by done. cbn [rbind].
  rewrite !positive_u64_eq by done. cbn [rbind]. by rewrite (decode_value_encode v e).
Qed.

Lemma decode_written_index i k t d rev seq :
  id_ok i -> key_ok k -> id_ok t -> id_ok d -> 0 < rev <= i64_max -> 0 < seq <= i64_max ->
  decode_index_row (id_to_string i) (encoded k) (id_to_string d) (mkIndexRow (id_to_string t) rev seq)
  = Ok (mkIndexEntry i k t d rev seq).
Proof.
  intros Hi [Hk1 Hk2] Ht Hd Hr Hs. unfold decode_index_row.
  cbn [i_table_id i_document_revision i_commit_sequence].
  rewrite parse_id_render by done. cbn [rbind].
  rewrite (proj2 (IndexKey_decode_Ok (encoded k) k)) by done. cbn [map_err rbind].
  rewrite !parse_id_render by done. cbn [rbind]. by rewrite !positive_u64_eq by done.
Qed.

Lemma decode_written_outbox i seq p now v :
  id_ok i -> 0 < seq <= i64_max -> value_ok v = true -> encode_stored_value v = Ok p ->
  decode_outbox_event (id_to_string i) (mkOutboxRow seq p now) = Ok (mkOutboxEventRecord i seq v).
Proof.
  intros Hi Hs Hv Hp. unfold decode_outbox_event. cbn [o_commit_sequence o_payload].
  rewrite parse_id_render by done. cbn [rbind]. rewrite positive_u64_eq by done. cbn [rbind].
  by rewrite (decode_value_encode v p).
Qed.

Lemma decode_written_schedule s args seq now :
  schedule_ok s -> 0 < seq <= i64_max -> encode_stored_value (sn_args s) = Ok args ->
  decode_schedule_row (id_to_string (sn_id s)) (pending_row seq now s args)
  = Ok (mkScheduledInvocationRecord (sn_id s) (sn_pinned_code s) (sn_function s) (sn_args s)
          (sn_execute_at s) SS_Pending 0 0 None None (sn_idempotency_key s) None seq).
Proof.
  intros (Hi & Hp & Hf & Ha & Ht) Hs He. unfold decode_schedule_row, pending_row.
  cbn [s_pinned_code s_function s_args s_execute_at s_status s_attempts s_lease_generation
    s_lease_owner s_lease_until s_idempotency_key s_last_error s_commit_sequence opt_map rbind].
  rewrite parse_id_render by done. cbn [rbind].
  rewrite (proj2 (PinnedCode_from_str_Ok _ (sn_pinned_code s))) by done. cbn [map_err rbind].
  rewrite (proj2 (FunctionName_from_str_Ok _ (sn_function s))) by done. cbn [map_err rbind].
  rewrite (decode_value_encode (sn_args s) args) by done. cbn [rbind].
  rewrite parse_status_text. cbn [rbind].
  change (positive_or_zero_u32 0) with (@Ok StoreError Z 0).
  change (positive_or_zero_u64 0) with (@Ok StoreError Z 0). cbn [rbind].
  by rewrite positive_u64_eq.
Qed.

(** ** Commits preserve the invariant *)

Section fresh.
Context (b : CommitBatch) (dg : bytes) (now : Z) (db : Db) (r : CommitResult) (db' : Db).
Hypothesis Hdb : db_ok db.
Hypothesis W : batch_wf b.
Hypothesis F : fresh_commit b dg now db r db'.

Local Lemma fresh_seqs_le : seqs_le (sequences db) (sequences db').
Proof.
  intros sk m Hm. rewrite (fc_sequences _ _ _ _ _ _ F).
  destruct (decide (scope_key (b_scope b) = sk)) as [<-|].
  - rewrite lookup_insert_eq. eexists. split; [done|].
    destruct (fc_sequence _ _ _ _ _ _ F) as [-> _]. rewrite Hm. cbn. lia.
  - rewrite lookup_insert_ne by done. eauto with lia.
Qed.

Local Lemma fresh_bounded : bounded (sequences db') (scope_key (b_scope b)) (cr_commit_sequence r).
Proof.
  eexists. rewrite (fc_sequences _ _ _ _ _ _ F), lookup_insert_eq. split; [done|].
  pose proof (fc_sequence _ _ _ _ _ _ F). lia.
Qed.

Local Lemma fresh_seq_range : 0 < cr_commit_sequence r <= i64_max.
Proof. apply F. Qed.

Local Lemma fresh_documents : table_inv (document_inv (sequences db')) (documents db').
Proof.
  intros k row Hl.
  destruct (key_cases (fun m => (scope_key (b_scope b), row_key_of m)) (b_documents b) k)
    as [(m & Hm & ->)|Hk].
  2:{ rewrite (fc_documents_frame _ _ _ _ _ _ F) in Hl by done.
      eapply document_inv_mono; [apply fresh_seqs_le|]. by apply (inv_documents _ Hdb). }
  pose proof (wf_documents _ W) as Hw. rewrite Forall_forall in Hw. specialize (Hw m Hm).
  apply list_elem_of_lookup in Hm as [i Hi].
  destruct (Forall2_lookup_l _ _ _ _ _ (fc_documents _ _ _ _ _ _ F) Hi) as (d & _ & Ht).
  rewrite Hl in Ht. split; [|split]; inversion Ht; subst; cbn [d_commit_sequence d_revision].
  1,2: apply fresh_bounded.
  1: unfold i64_max; lia.
  1: lia.
  all: cbn [row_key_of fst snd dm_table_id dm_document_id document_ok] in *; destruct_and?;
    unfold row_key_of; cbn [fst snd dm_table_id dm_document_id];
    erewrite decode_written_document; try done; try apply fresh_seq_range.
  match goal with H : expected_ok _ |- _ => apply is_u64_spec in H end. lia.
Qed.

Local Lemma fresh_indexes : table_inv (index_inv (sequences db')) (indexes db').
Proof.
  intros k row Hl.
  destruct (key_cases (index_row_key (scope_key (b_scope b))) (b_indexes b) k) as [(m & Hm & ->)|Hk].
  2:{ rewrite (fc_indexes_frame _ _ _ _ _ _ F) in Hl by done.
      eapply index_inv_mono; [apply fresh_seqs_le|]. by apply (inv_indexes _ Hdb). }
  pose proof (wf_indexes _ W) as Hw. rewrite Forall_forall in Hw. specialize (Hw m Hm).
  pose proof (fc_indexes _ _ _ _ _ _ F m Hm) as Ht. rewrite Hl in Ht.
  inversion Ht as [i k t d n drow old Hd Hn Hn0 Hn1|]; subst. cbn [index_ok] in Hw. destruct_and?.
  split; [apply fresh_bounded|]. split; [|done]. unfold index_row_key. cbn [im_identity fst snd].
  rewrite decode_written_index; try done; [|apply fresh_seq_range].
  match goal with H : is_u64 _ = true |- _ => apply is_u64_spec in H end. lia.
Qed.

Local Lemma fresh_outbox : table_inv (outbox_inv (sequences db')) (outbox db').
Proof.
  intros k row Hl.
  destruct (key_cases (fun e => (scope_key (b_scope b), id_to_string (oa_event_id e))) (b_outbox b) k)
    as [(e & He & ->)|Hk].
  2:{ rewrite (fc_outbox_frame _ _ _ _ _ _ F) in Hl by done.
      eapply outbox_inv_mono; [apply fresh_seqs_le|]. by apply (inv_outbox _ Hdb). }
  pose proof (wf_outbox _ W) as Hw. rewrite Forall_forall in Hw. destruct (Hw e He) as [Hid Hv].
  pose proof (fc_outbox _ _ _ _ _ _ F e He) as Ht. rewrite Hl in Ht. inversion Ht; subst.
  split; [apply fresh_bounded|]. cbn [snd].
  erewrite decode_written_outbox; try done. apply fresh_seq_range.
Qed.

Local Lemma fresh_schedules : table_inv (schedule_inv (sequences db')) (schedules db').
Proof.
  intros k row Hl.
  destruct (key_cases (fun s => (scope_key (b_scope b), id_to_string (sn_id s))) (b_schedules b) k)
    as [(s & Hs & ->)|Hk].
  2:{ rewrite (fc_schedules_frame _ _ _ _ _ _ F) in Hl by done.
      eapply schedule_inv_mono; [apply fresh_seqs_le|]. by apply (inv_schedules _ Hdb). }
  pose proof (wf_schedules _ W) as Hw. rewrite Forall_forall in Hw. specialize (Hw s Hs).
  pose proof (fc_schedules _ _ _ _ _ _ F s Hs) as Ht. rewrite Hl in Ht. inversion Ht; subst.
  split; [apply fresh_bounded|]. split; [done|]. split; [|done]. cbn [snd].
  rewrite decode_written_schedule; try done. apply fresh_seq_range.
Qed.

Local Lemma fresh_idempotency (V : batch_valid b) : idempotency_unique (schedules db').
Proof.
  set (key s := (scope_key (b_scope b), id_to_string (sn_id s))).
  assert (forall sk id row k, schedules db' !! (sk, id) = Some row -> s_idempotency_key row = Some k ->
    (exists s, s ∈ b_schedules b /\ (sk, id) = key s /\ sn_idempotency_key s = Some k)
    \/ schedules db !! (sk, id) = Some row) as Hrow.
  { intros sk id row k Hl Hk. destruct (key_cases key (b_schedules b) (sk, id)) as [(s & Hs & E)|Hn].
    - left. exists s. split; [done|]. split; [done|].
      pose proof (fc_schedules _ _ _ _ _ _ F s Hs) as Ht. fold (key s) in Ht.
      rewrite <-E, Hl in Ht. by inversion Ht; subst.
    - right. by rewrite (fc_schedules_frame _ _ _ _ _ _ F) in Hl. }
  assert (forall s id row k, s ∈ b_schedules b -> sn_idempotency_key s = Some k ->
    schedules db !! (scope_key (b_scope b), id) = Some row -> s_idempotency_key row = Some k -> False) as Hold.
  { intros s id row k Hs Hk Hl Hr. pose proof (fc_idempotency _ _ _ _ _ _ F s Hs) as Hu.
    apply not_true_iff_false in Hu. apply Hu, idempotency_key_used_spec. eauto 6. }
  intros sk id id' row row' k Hl Hl' Hk Hk'.
  destruct (Hrow _ _ _ _ Hl Hk) as [(s & Hs & [-> ->]%pair_equal_spec & Es)|Ho];
    destruct (Hrow _ _ _ _ Hl' Hk') as [(s' & Hs' & [E ->]%pair_equal_spec & Es')|Ho'].
  - assert (s = s') as ->; [|done]. destruct (bv_schedules _ V) as (_ & Hnd & _).
    unfold idempotency_keys in Hnd. by eapply (NoDup_omap_inj sn_idempotency_key).
  - exfalso. by eapply (Hold s).
  - exfalso. subst sk. by eapply (Hold s').
  - by eapply (inv_idempotency _ Hdb).
Qed.
End fresh.

Lemma fresh_commit_ok b dg now db r db' : db_ok db -> batch_wf b -> batch_valid b ->
  fresh_commit b dg now db r db' -> db_ok db'.
Proof.
  intros Hdb W V F. pose proof (fresh_seqs_le _ _ _ _ _ _ F) as Hle. split.
  - rewrite (fc_sequences _ _ _ _ _ _ F). apply table_inv_insert; [apply Hdb|].
    pose proof (fc_sequence _ _ _ _ _ _ F). lia.
  - rewrite (fc_operations _ _ _ _ _ _ F). apply table_inv_insert.
    + eapply table_inv_mono; [intros; by eapply operation_inv_mono|]. apply Hdb.
    + by eapply fresh_bounded.
  - intros sk op n row Hl. rewrite (fc_operations _ _ _ _ _ _ F). apply lookup_insert_is_Some'.
    destruct (decide ((scope_key (b_scope b), id_to_string (b_operation_id b)) = (sk, op))) as [|Hne];
      [by left|right].
    rewrite (fc_results_frame _ _ _ _ _ _ F) in Hl by (intros i _ [E _]%pair_equal_spec; done).
    by eapply (inv_results _ Hdb).
  - by eapply fresh_documents.
  - by eapply fresh_indexes.
  - by eapply fresh_outbox.
  - by eapply fresh_schedules.
  - by eapply fresh_idempotency.
  - rewrite (fc_consumers _ _ _ _ _ _ F).
    eapply table_inv_mono; [intros; by eapply consumer_inv_mono|]. apply Hdb.
Qed.

Lemma digest_valid sha b d : digest sha b = Ok d -> batch_valid b.
Proof. unfold digest. intros H. apply rbind_Ok in H as ([] & H%validate_spec & _). done. Qed.

Lemma apply_commit_ok clock b dg db r db' : db_ok db -> batch_wf b -> batch_valid b ->
  apply_commit clock b dg db = Ok (r, db') -> db_ok db'.
Proof.
  intros Hdb W V [[_ ->]|(now & _ & F)]%apply_commit_cases; [done|by eapply fresh_commit_ok|done..].
Qed.

Lemma commit_ok sha o clock b db : db_ok db -> batch_wf b -> db_ok (snd (commit sha o clock b db)).
Proof.
  intros Hdb W. unfold commit. destruct (digest sha b) as [d|e] eqn:Hd; [|done].
  apply digest_valid in Hd. apply run_txn_inv; [done|]. intros. by eapply apply_commit_ok.
Qed.

(** ** Schedule rows *)

Lemma decode_schedule_is_ok id row : is_ok (decode_schedule_row id row) = true <->
  is_ok (opt_map (parse_id WorkerK) (s_lease_owner row)) = true
  /\ is_ok (parse_id ScheduledInvocationK id) = true
  /\ is_ok (PinnedCode_from_str (s_pinned_code row)) = true
  /\ is_ok (FunctionName_from_str (s_function row)) = true
  /\ is_ok (decode_value (s_args row)) = true
  /\ is_ok (parse_status (s_status row)) = true
  /\ 0 <= s_attempts row <= u32_max
  /\ 0 <= s_lease_generation row <= u64_max
  /\ 0 < s_commit_sequence row <= u64_max.
Proof.
  unfold decode_schedule_row, positive_or_zero_u32, positive_or_zero_u64, positive_u64, try_from_u.
  destruct (opt_map _ _); cbn [rbind is_ok]; [|naive_solver].
  destruct (parse_id _ _); cbn [rbind is_ok]; [|naive_solver].
  destruct (PinnedCode_from_str _); cbn [rbind map_err is_ok]; [|naive_solver].
  destruct (FunctionName_from_str _); cbn [rbind map_err is_ok]; [|naive_solver].
  destruct (decode_value _); cbn [rbind is_ok]; [|naive_solver].
  destruct (parse_status _); cbn [rbind is_ok]; [|naive_solver].
  destruct (Z.leb_spec 0 (s_attempts row)), (Z.leb_spec (s_attempts row) u32_max); cbn;
    try (split; [done|lia]).
  destruct (Z.leb_spec 0 (s_lease_generation row)), (Z.leb_spec (s_lease_generation row) u64_max); cbn;
    try (split; [done|lia]).
  destruct (Z.leb_spec (s_commit_sequence row) 0), (Z.leb_spec 0 (s_commit_sequence row)),
    (Z.leb_spec (s_commit_sequence row) u64_max); cbn; try (split; [done|lia]); lia.
Qed.

(** Replacing one schedule row by another of the same key and idempotency key. *)
Lemma db_ok_set_schedule db sk id row row' : db_ok db -> schedules db !! (sk, id) = Some row ->
  s_idempotency_key row' = s_idempotency_key row ->
  s_commit_sequence row' = s_commit_sequence row -> lease_consistent row' ->
  is_ok (decode_schedule_row id row') = true -> s_lease_generation row' <= i64_max ->
  db_ok (set_schedules (<[(sk, id) := row']> (schedules db)) db).
Proof.
  intros Hdb Hl Hk Hs Hle Hd Hg. destruct Hdb. split; cbn; try done.
  - apply table_inv_insert; [done|]. split; [|done]. rewrite Hs. by apply inv_schedules0 in Hl as [? _].
  - assert (forall sk' id' r k, <[(sk, id) := row']> (schedules db) !! (sk', id') = Some r ->
      s_idempotency_key r = Some k ->
      exists r', schedules db !! (sk', id') = Some r' /\ s_idempotency_key r' = Some k) as Hold.
    { intros sk' id' r k Hr Er. destruct (decide ((sk, id) = (sk', id'))) as [E|Hne].
      - rewrite E, lookup_insert_eq in Hr. injection Hr as <-. rewrite E in Hl. exists row.
        split; [done|congruence].
      - rewrite lookup_insert_ne in Hr by done. eauto. }
    intros sk' i j r r' k Hi Hj Ei Ej.
    destruct (Hold _ _ _ _ Hi Ei) as (ri & ? & ?), (Hold _ _ _ _ Hj Ej) as (rj & ? & ?).
    by eapply inv_idempotency0.
Qed.

(** ** Scheduler operations *)

(** The row after a claim. *)
Definition claimed_row (worker : bytes) (now until : Z) (row : ScheduleRow) : ScheduleRow :=
  mkScheduleRow (s_pinned_code row) (s_function row) (s_args row) (s_execute_at row) (text "running")
    (s_attempts row + 1) (s_lease_generation row + 1) (Some worker) (Some until)
    (s_idempotency_key row) (s_last_error row) (s_commit_sequence row) (s_created_at row) now.

Lemma claim_one_Ok sk worker now until id db rec db' :
  claim_one sk worker now until id db = Ok (rec, db') ->
  exists row, schedules db !! (sk, id) = Some row /\ s_lease_generation row + 1 <= i64_max
    /\ decode_schedule_row id (claimed_row worker now until row) = Ok rec
    /\ db' = set_schedules (<[(sk, id) := claimed_row worker now until row]> (schedules db)) db.
Proof.
  unfold claim_one. intros Hc. apply tbind_Ok in Hc as ([] & db1 & H1 & Hc).
  apply tbind_Ok in Hc as (o & db2 & [= <- <-] & Hc).
  apply tbind_Ok in Hc as (row' & db3 & [Hrow%ok_or_Ok ->]%tlift_Ok & Hc).
  apply tlift_Ok in Hc as [Hdec ->]. unfold fetch_schedule_row in Hrow.
  destruct (schedules db !! (sk, id)) as [row|] eqn:El.
  2:{ injection H1 as <-. congruence. }
  apply rbind_Ok in H1 as (a & [-> _]%sql_succ_Ok & H1).
  apply rbind_Ok in H1 as (g & [-> Hg]%sql_succ_Ok & H1). injection H1 as <-.
  cbn [schedules set_schedules] in Hrow. rewrite lookup_insert_eq in Hrow. injection Hrow as <-.
  exists row. done.
Qed.

Lemma claim_one_preserves sk worker now until id db rec db' : db_ok db ->
  claim_one sk worker now until id db = Ok (rec, db') -> db_ok db'.
Proof.
  intros Hdb (row & Hl & Hg & Hd & ->)%claim_one_Ok.
  eapply db_ok_set_schedule; [done|exact Hl|done..| |by rewrite Hd|done]. by split.
Qed.

Lemma claim_due_preserves o sc w now until limit db : db_ok db ->
  db_ok (snd (claim_due_scheduled o sc w now until limit db)).
Proof.
  intros Hdb. unfold claim_due_scheduled. destruct (_ || _); [done|]. apply run_txn_inv; [done|].
  intros recs db' Hc. apply tbind_Ok in Hc as (ids & db1 & [= <- <-] & Hc).
  eapply teach_inv; [|exact Hdb|exact Hc]. intros. by eapply claim_one_preserves.
Qed.

Lemma completed_row_ok id c now row : lease_consistent (completed_row c now row)
  /\ (is_ok (decode_schedule_row id row) = true ->
      is_ok (decode_schedule_row id (completed_row c now row)) = true).
Proof.
  split; [by destruct c|]. rewrite !decode_schedule_is_ok.
  destruct c; cbn; intros (_ & ? & ? & ? & ? & _ & ? & ? & ?); split_and!; done || lia.
Qed.

Lemma complete_preserves o clock sc id w g c db : db_ok db ->
  db_ok (snd (complete_scheduled o clock sc id w g c db)).
Proof.
  intros Hdb. unfold complete_scheduled.
  match goal with |- context [match ?x with Ok _ => _ | Err _ => _ end] =>
    destruct x as [[gen now]|err] end;
    [|done].
  apply run_txn_inv; [done|]. intros [] db' Hc. apply tbind_Ok in Hc as (n & db1 & Hu & Hc).
  unfold complete_schedule_update in Hu.
  destruct (schedules db !! _) as [row|] eqn:El; [|by injection Hu as <- <-].
  destruct (_ && _); [|by injection Hu as <- <-]. injection Hu as <- <-.
  injection Hc as <-. destruct (completed_row_ok (id_to_string id) c now row) as [Hle Hd].
  apply (inv_schedules _ Hdb) in El as Hrow. destruct Hrow as (_ & _ & Hok & Hg).
  eapply db_ok_set_schedule; [done|exact El|by destruct c|by destruct c|done|by apply Hd|by destruct c].
Qed.

Lemma cancel_preserves o clock sc id db : db_ok db -> db_ok (snd (cancel_scheduled o clock sc id db)).
Proof.
  intros Hdb. unfold cancel_scheduled. apply run_txn_inv; [done|].
  intros r db' Hc. unfold cancel_scheduled_body in Hc.
  apply rbind_Ok in Hc as (now & _ & Hc). destruct (schedules db !! _) as [row|] eqn:El; [|done].
  case_decide as Hp; [|by apply rbind_Ok in Hc as (out & _ & [= <- <-])]. injection Hc as <- <-.
  pose proof (inv_schedules _ Hdb _ _ El) as (_ & Hlease & Hdec & Hg).
  eapply db_ok_set_schedule; [done|exact El|done|done| | |done].
  - unfold lease_consistent in *. rewrite decide_False in Hlease by (by rewrite Hp). done.
  - rewrite decode_schedule_is_ok in *. cbn. destruct_and?. split_and!; done.
Qed.

(** ** Outbox operations *)

Lemma db_ok_set_consumer db sk c row : db_ok db -> consumer_inv (sequences db) (sk, c) row ->
  db_ok (set_consumers (<[(sk, c) := row]> (consumers db)) db).
Proof. intros [] Hrow. split; cbn; try done. by apply table_inv_insert. Qed.

Lemma db_ok_new_sequence db sk n : db_ok db -> sequences db !! sk = None -> 0 <= n <= i64_max ->
  db_ok (set_sequences (<[sk := n]> (sequences db)) db).
Proof.
  intros Hdb El Hn. assert (seqs_le (sequences db) (<[sk := n]> (sequences db))) as Hle.
  { intros sk' m Hm. destruct (decide (sk = sk')) as [<-|]; [congruence|].
    rewrite lookup_insert_ne by done. eauto with lia. }
  destruct Hdb. split; cbn; try done;
    try (eapply table_inv_mono; [intros ? ?|eassumption]);
    eauto using operation_inv_mono, document_inv_mono, index_inv_mono, outbox_inv_mono,
      schedule_inv_mono, consumer_inv_mono.
  by apply table_inv_insert.
Qed.

Lemma db_ok_ensure_sequence db sk u db' : db_ok db -> ensure_sequence sk db = Ok (u, db') ->
  db_ok db' /\ is_Some (sequences db' !! sk) /\ consumers db' = consumers db /\ outbox db' = outbox db.
Proof.
  unfold ensure_sequence, twrite. intros Hdb [= <- <-].
  destruct (sequences db !! sk) as [n|] eqn:El; [split; [done|]; split; [by exists n|done]|].
  split; [|cbn; rewrite lookup_insert_eq; split; [by eexists|done]].
  apply db_ok_new_sequence; [done|done|]. unfold i64_max. lia.
Qed.

Lemma db_ok_ensure_consumer db sk c now u db' : db_ok db -> is_Some (sequences db !! sk) ->
  ensure_consumer sk c now db = Ok (u, db') ->
  db_ok db' /\ sequences db' = sequences db /\ outbox db' = outbox db.
Proof.
  unfold ensure_consumer, twrite. intros Hdb Hs [= <- <-].
  destruct (consumers db !! _) eqn:El; [done|]. split; [|done]. apply db_ok_set_consumer; [done|].
  split; [done|]. split_and!; cbn; done.
Qed.

Lemma acquire_lease_Ok sk c w now until db row' db' :
  acquire_consumer_lease sk c w now until db = Ok (row', db') ->
  exists row, consumers db !! (sk, c) = Some row /\ lease_available w now row = true
    /\ c_lease_generation row + 1 <= i64_max
    /\ row' = mkConsumerRow (c_cursor_sequence row) (c_cursor_event row) (Some w) (Some until)
                (c_lease_generation row + 1) (c_claimed_sequence row) (c_claimed_event row) now
    /\ db' = set_consumers (<[(sk, c) := row']> (consumers db)) db.
Proof.
  unfold acquire_consumer_lease. destruct (consumers db !! _) as [row|]; [|done].
  destruct (lease_available w now row) eqn:Ha; [|done]. intros H.
  apply rbind_Ok in H as (g & [-> Hg]%sql_succ_Ok & [= <- <-]). eauto 8.
Qed.

Lemma decode_outbox_event_Ok e row rec : decode_outbox_event e row = Ok rec ->
  id_ok (oe_event_id rec) /\ e = id_to_string (oe_event_id rec)
  /\ oe_commit_sequence rec = o_commit_sequence row /\ 0 < oe_commit_sequence rec.
Proof.
  unfold decode_outbox_event. intros H.
  apply rbind_Ok in H as (id & [Hid ->]%parse_id_Ok & H).
  apply rbind_Ok in H as (n & [-> Hn]%positive_u64_Ok & H).
  apply rbind_Ok in H as (v & _ & [= <-]). cbn. split_and!; [done|done|done|lia].
Qed.

Lemma elem_of_outbox_after sk n e db r : r ∈ outbox_after sk n e db <->
  fst (fst r) = sk /\ after_cursor n e r = true /\ outbox db !! fst r = Some (snd r).
Proof.
  unfold outbox_after. rewrite elem_of_order_by, list_elem_of_filter by apply _.
  destruct r as [k row]. rewrite elem_of_map_to_list. cbn. tauto.
Qed.

Lemma last_claimed_position sk n e db limit events ev : db_ok db ->
  try_map (fun r => decode_outbox_event (snd (fst r)) (snd r)) (take limit (outbox_after sk n e db))
    = Ok events ->
  last events = Some ev ->
  bounded (sequences db) sk (oe_commit_sequence ev) /\ id_ok (oe_event_id ev).
Proof.
  intros Hdb Hm%try_map_Ok Hl. apply last_Some in Hl as [evs ->].
  apply Forall2_app_inv_r in Hm as (l1 & l2 & _ & H2 & Eq).
  inversion H2 as [|r ? l2' ? Hdec Hnil]; subst. inversion Hnil; subst.
  apply decode_outbox_event_Ok in Hdec as (Hid & _ & Es & _). split; [|done].
  assert (r ∈ outbox_after sk n e db) as (<- & _ & Hlk)%elem_of_outbox_after.
  { rewrite <-(take_drop limit (outbox_after sk n e db)), Eq. set_solver. }
  rewrite Es. by apply (inv_outbox _ Hdb) in Hlk as [? _].
Qed.
End commit_inv.

(** ** A database with one commit, for examples *)

Definition demo_schedule : ScheduledInvocationInsert :=
  mkScheduledInvocationInsert (from_ulid 9) (PC_Release (from_ulid 10))
    (mkFunctionName (text "messages.send")) (CV_Int64 3) 100 (Some (text "once")).

Definition demo_batch : CommitBatch :=
  push_schedule demo_schedule (push_index (IM_Put (from_ulid 8) sample_key (from_ulid 5) (from_ulid 6) 1)
    (sample_batch 7)).

(** A hash with 32-byte digests. *)
Definition demo_sha (p : bytes) : bytes := to_be 32 (from_be p mod 2 ^ 256).

Definition demo_db : Db := snd (commit demo_sha TO_Commit (Some 50) demo_batch empty_db).

Lemma demo_batch_wf : batch_wf demo_batch.
Proof.
  split; cbn; repeat (apply List.Forall_cons || apply List.Forall_nil);
    unfold scope_ok, outbox_ok, schedule_ok, index_ok, key_ok; cbn; unfold id_ok, ulid_range in *; cbn;
    split_and?; done || lia.
Qed.

Lemma demo_db_ok : db_ok demo_db.
Proof. apply commit_ok; [apply db_ok_empty|apply demo_batch_wf]. Qed.

Lemma demo_committed : fst (commit demo_sha TO_Commit (Some 50) demo_batch empty_db)
  = Ok (mkCommitResult 1 [mkDocumentRevisionResult (from_ulid 5) (from_ulid 6) (Some 1)] false).
Proof. vm_compute. reflexivity. Qed.
