(* ===== verification/SqliteReads.v ===== *)
(** * Read snapshots of the SQLite adapter

    [get_document], [scan_index], [get_outbox], [get_scheduled] and [list_scheduled] of
    runku-data-sqlite/src/adapter.rs: reads of a well-formed database never report corruption, and
    scans and lists return exactly the rows asked for, in order, up to the limit. *)

From Stdlib Require Import Strings.Byte ZArith Lia.
From stdpp Require Import prelude strings gmap sorting list relations.
From S2P Require Import Prelude Ulid Value StoredValue IndexKey Core StoreModel Batch Order Sql SqliteStore.
From S2P Require Import SqliteCommit SqliteInvariant.

Section reads.
Context {UL : UlidLib} {ULL : UlidLaws}.

(** The inverse of row decoding on keys. *)
Lemma decode_index_row_Ok i key d row e : decode_index_row i key d row = Ok e ->
  i = id_to_string (ie_index_id e) /\ key = encoded (ie_key e) /\ d = id_to_string (ie_document_id e)
  /\ key_ok (ie_key e) /\ id_ok (ie_index_id e) /\ id_ok (ie_document_id e)
  /\ row = mkIndexRow (id_to_string (ie_table_id e)) (ie_document_revision e) (ie_commit_sequence e).
Proof.
  unfold decode_index_row. intros H. apply rbind_Ok in H as (i' & [Hi ->]%parse_id_Ok & H).
  apply rbind_Ok in H as (k & Hk%map_err_Ok & H). apply IndexKey_decode_Ok in Hk as [<- Hk].
  apply rbind_Ok in H as (t & [_ Ht]%parse_id_Ok & H).
  apply rbind_Ok in H as (d' & [Hd ->]%parse_id_Ok & H).
  apply rbind_Ok in H as (n & [-> _]%positive_u64_Ok & H).
  apply rbind_Ok in H as (m & [-> _]%positive_u64_Ok & [= <-]).
  destruct row. cbn in *. subst. done.
Qed.

(** ** Index scans *)

(** An entry of the index, as the snapshot stores it. *)
Definition stored_entry (s : SqliteSnapshot) (idx : IndexId) (e : IndexEntry) : Prop :=
  ie_index_id e = idx /\ key_ok (ie_key e) /\
  exists row, indexes (snap_db s) !! (scope_key (snap_scope s),
      (id_to_string idx, encoded (ie_key e), id_to_string (ie_document_id e))) = Some row
    /\ decode_index_row (id_to_string idx) (encoded (ie_key e)) (id_to_string (ie_document_id e)) row = Ok e.

(** Entries in the order of their component tuples, then of their documents. *)
Definition entry_cmp : IndexEntry -> IndexEntry -> comparison :=
  cmp_lex (cmp_on (fun e => components (ie_key e)) tuple_cmp)
          (cmp_on (fun e => as_ulid (ie_document_id e)) Z.compare).

Definition scan_row (sk : skey) (index : bytes) (range : IndexRange) (db : Db) (r : index_row) : Prop :=
  (fst (fst r) = sk /\ row_index r = index /\ push_range range (row_key r) = true)
  /\ indexes db !! fst r = Some (snd r).

Definition decodes_entry (r : index_row) (e : IndexEntry) : Prop :=
  decode_index_row (row_index r) (row_key r) (row_document r) (snd r) = Ok e.

Lemma scan_rows_query sk index range db n :
  limit_query scan_order (scan_row sk index range db) n (take n (scan_rows sk index range db)).
Proof.
  apply take_order_by; [apply _|apply NoDup_filter, NoDup_map_to_list|].
  intros [k row]. rewrite list_elem_of_filter. unfold scan_row, index_row. by rewrite elem_of_map_to_list.
Qed.

Lemma key_ok_encoded k : key_ok k -> encoded k = key_header ++ encode_all (components k).
Proof. intros [_ (E & _)%IndexKey_encode_Ok]. by rewrite E at 1. Qed.

Lemma key_ok_cmp k l : key_ok k -> key_ok l ->
  bytes_cmp (encoded k) (encoded l) = tuple_cmp (components k) (components l).
Proof.
  intros Hk Hl. rewrite (key_ok_encoded k Hk), (key_ok_encoded l Hl), bytes_cmp_app.
  destruct Hk, Hl. by apply encode_all_cmp.
Qed.

Lemma decodes_entry_cmp r r' e e' : decodes_entry r e -> decodes_entry r' e' ->
  entry_cmp e e' = scan_order r r'.
Proof.
  intros (_ & Ek & Ed & Hk & _ & Hd & _)%decode_index_row_Ok
    (_ & Ek' & Ed' & Hk' & _ & Hd' & _)%decode_index_row_Ok.
  unfold entry_cmp, scan_order, cmp_lex, cmp_on. rewrite Ek, Ek', Ed, Ed'.
  by rewrite key_ok_cmp, id_to_string_cmp.
Qed.

(** C24: An index scan of a well-formed database succeeds and returns exactly the entries of that index
    in that Environment whose key lies within the bounds: in the order of the keys' component tuples
    and then of the documents, without repetition, at most [limit] of them, and leaving entries out
    only after the first [limit]. *)
Theorem scan_index_spec s idx range limit :
  db_ok (snap_db s) -> id_ok idx -> IndexRange_validate range limit = Ok tt ->
  exists entries, scan_index s idx range limit = Ok entries
    /\ limit_query entry_cmp
         (fun e => stored_entry s idx e /\ in_bounds range (encoded (ie_key e)) = true)
         (Z.to_nat limit) entries.
Proof.
  intros Hdb Hidx Hv. unfold scan_index. rewrite Hv. cbn [rbind].
  pose proof (scan_rows_query (scope_key (snap_scope s)) (id_to_string idx) range (snap_db s)
    (Z.to_nat limit)) as Hq.
  destruct (try_map _ _) as [entries|e] eqn:Ht.
  - exists entries. split; [done|]. apply try_map_Ok in Ht.
    eapply (limit_query_map scan_order entry_cmp) with (R := decodes_entry); [..|exact Hq|exact Ht].
    + unfold decodes_entry. congruence.
    + intros [[sk1 [[i1 k1] d1]] r1] [[sk2 [[i2 k2] d2]] r2] y [(E1 & _) _] [(E2 & _) _]
        (H1 & H2 & H3 & _ & _ & _ & H4)%decode_index_row_Ok (G1 & G2 & G3 & _ & _ & _ & G4)%decode_index_row_Ok.
      unfold row_index, row_key, row_document in *. cbn [fst snd] in *. congruence.
    + intros x x' y y' _ _. apply decodes_entry_cmp.
    + intros [[sk1 [[i1 k1] d1]] r1] e [(E1 & E2 & E3) El] Hdec.
      pose proof (decode_index_row_Ok _ _ _ _ _ Hdec) as (H1 & H2 & H3 & Hk & Hi & _).
      unfold row_index, row_key, row_document in *. cbn [fst snd] in *. subst.
      apply id_to_string_inj in H1 as Ei; [|done..]. unfold decodes_entry in Hdec. cbn [fst snd] in Hdec.
      split; [|exact E3]. split; [by symmetry|]. split; [done|]. by exists r1.
    + intros e [(<- & Hk & row & El & Hdec) Hin].
      eexists ((_, (_, _, _)), row). split; [|exact Hdec]. split; [split; [done|]; split; [done|exact Hin]|].
      exact El.
  - exfalso. assert (is_ok (try_map (fun r : index_row =>
      decode_index_row (row_index r) (row_key r) (row_document r) (snd r))
      (take (Z.to_nat limit) (scan_rows (scope_key (snap_scope s)) (id_to_string idx) range (snap_db s))))
      = true) as Hok; [|by rewrite Ht in Hok].
    apply try_map_is_ok. intros r Hr. apply (lq_sound _ _ _ _ Hq) in Hr as [_ El].
    apply (inv_indexes _ Hdb) in El as (_ & Hd & _). exact Hd.
Qed.

(** ** Point reads and lists *)

Lemma decode_document_row_Ok t d row rec : decode_document_row t d row = Ok rec ->
  id_ok (dr_table_id rec) /\ t = id_to_string (dr_table_id rec)
  /\ id_ok (dr_document_id rec) /\ d = id_to_string (dr_document_id rec)
  /\ dr_revision rec = d_revision row /\ dr_commit_sequence rec = d_commit_sequence row
  /\ dr_created_at rec = d_created_at row /\ dr_updated_at rec = d_updated_at row
  /\ value_ok (dr_value rec) = true /\ encode_stored_value (dr_value rec) = Ok (d_value row).
Proof.
  unfold decode_document_row. intros H. apply rbind_Ok in H as (t' & [Ht ->]%parse_id_Ok & H).
  apply rbind_Ok in H as (d' & [Hd ->]%parse_id_Ok & H).
  apply rbind_Ok in H as (n & [-> _]%positive_u64_Ok & H).
  apply rbind_Ok in H as (m & [-> _]%positive_u64_Ok & H).
  apply rbind_Ok in H as (v & [Hv He]%encode_decode_value & [= <-]). done.
Qed.

(** The rows of a page of scheduled invocations. *)
Definition listed (s : SqliteSnapshot) (after : option ScheduledInvocationId)
  (r : (skey * bytes) * ScheduleRow) : Prop :=
  (fst (fst r) = scope_key (snap_scope s)
   /\ match after with
      | Some after => bytes_ltb (id_to_string after) (snd (fst r))
      | None => true
      end = true)
  /\ schedules (snap_db s) !! fst r = Some (snd r).

Lemma list_scheduled_Ok s after limit : db_ok (snap_db s) -> 0 < limit <= 201 ->
  exists rows recs, list_scheduled s after limit = Ok recs
    /\ limit_query (cmp_on (fun r => snd (fst r)) bytes_cmp) (listed s after) (Z.to_nat limit) rows
    /\ Forall2 (fun r rec => decode_schedule_row (snd (fst r)) (snd r) = Ok rec) rows recs.
Proof.
  intros Hdb Hl. unfold list_scheduled.
  destruct (Z.eqb_spec limit 0), (Z.ltb_spec 201 limit); try lia. cbn [orb].
  set (rows := take _ _). exists rows.
  assert (limit_query (cmp_on (fun r => snd (fst r)) bytes_cmp) (listed s after) (Z.to_nat limit) rows) as Hq.
  { apply take_order_by; [apply _|apply NoDup_filter, NoDup_map_to_list|].
    intros [k row]. by rewrite list_elem_of_filter, elem_of_map_to_list. }
  destruct (try_map _ rows) as [recs|e] eqn:Ht.
  - exists recs. split; [done|]. split; [done|]. by apply try_map_Ok.
  - exfalso. assert (is_ok (try_map (fun r : (skey * bytes) * ScheduleRow =>
      decode_schedule_row (snd (fst r)) (snd r)) rows) = true) as Hok; [|by rewrite Ht in Hok].
    apply try_map_is_ok. intros r Hr. apply (lq_sound _ _ _ _ Hq) in Hr as [_ El].
    by apply (inv_schedules _ Hdb) in El as (_ & _ & ? & _).
Qed.

(** Reading a well-formed database never fails with corruption.  A snapshot opens at the
    Environment's current commit sequence; a document read returns the document asked for, with a
    revision and commit sequence the Environment has reached; outbox and schedule reads decode; and
    a page of scheduled invocations is exactly the next [limit] of the Environment after the given
    identifier, in order. *)
Theorem reads_total sc db : db_ok db ->
  exists s, begin_read sc db = Ok s /\ snap_db s = db /\ snap_scope s = sc
    /\ snap_sequence s = default 0 (sequences db !! scope_key sc)
    /\ (forall t d, id_ok t -> id_ok d -> exists r, get_document s t d = Ok r /\
          forall rec, r = Some rec -> dr_table_id rec = t /\ dr_document_id rec = d
            /\ 0 < dr_revision rec /\ 0 < dr_commit_sequence rec <= snap_sequence s)
    /\ (forall e, is_ok (get_outbox s e) = true)
    /\ (forall i, is_ok (get_scheduled s i) = true)
    /\ (forall after limit, 0 < limit <= 201 ->
          exists rows recs, list_scheduled s after limit = Ok recs
            /\ limit_query (cmp_on (fun r => snd (fst r)) bytes_cmp) (listed s after) (Z.to_nat limit) rows
            /\ Forall2 (fun r rec => decode_schedule_row (snd (fst r)) (snd r) = Ok rec) rows recs).
Proof.
  intros Hdb. assert (0 <= default 0 (sequences db !! scope_key sc) <= i64_max) as Hs.
  { destruct (sequences db !! scope_key sc) as [n|] eqn:El; cbn.
    - exact (inv_sequences _ Hdb _ _ El).
    - unfold i64_max. lia. }
  eexists (mkSqliteSnapshot db sc (default 0 (sequences db !! scope_key sc))).
  unfold begin_read. rewrite (proj2 (positive_or_zero_u64_Ok _ (default 0 (sequences db !! scope_key sc))))
    by (unfold i64_max, u64_max in *; split; [done|lia]).
  split_and!; try done; cbn [snap_sequence snap_db].
  - intros t d Ht Hd. unfold get_document. cbn [snap_db snap_scope].
    destruct (documents db !! _) as [row|] eqn:El; [|by exists None].
    pose proof (inv_documents _ Hdb _ _ El) as ((m & Hm & Hn) & _ & Hdec). cbn [fst snd] in Hdec, Hm.
    cbn [opt_map]. destruct (decode_document_row _ _ row) as [rec|] eqn:Hrec; [|done].
    exists (Some rec). split; [done|]. intros rec' [= <-].
    assert (0 < d_revision row) as Hrev.
    { unfold decode_document_row in Hrec. apply rbind_Ok in Hrec as (? & _ & Hrec).
      apply rbind_Ok in Hrec as (? & _ & Hrec).
      apply rbind_Ok in Hrec as (? & [_ Hp]%positive_u64_Ok & Hrec). lia. }
    apply decode_document_row_Ok in Hrec as (H1 & E1 & H2 & E2 & E3 & E4 & _).
    apply id_to_string_inj in E1, E2; [|done..]. rewrite E3, E4, Hm. cbn. split_and!; done || lia.
  - intros e. unfold get_outbox. cbn [snap_db snap_scope].
    destruct (outbox db !! _) as [row|] eqn:El; [|done]. cbn [opt_map].
    pose proof (inv_outbox _ Hdb _ _ El) as (_ & Hdec). unfold decode_outbox_event in Hdec.
    destruct (parse_id _ _), (positive_u64 _), (decode_value _); done.
  - intros id. unfold get_scheduled, fetch_schedule_row. cbn [snap_db snap_scope].
    destruct (schedules db !! _) as [row|] eqn:El; [|done]. cbn [opt_map].
    pose proof (inv_schedules _ Hdb _ _ El) as (_ & _ & Hdec & _). cbn [snd] in Hdec.
    by destruct (decode_schedule_row _ row).
  - intros after limit. by apply list_scheduled_Ok.
Qed.
End reads.

(** ** Examples on the demonstration database *)

Definition demo_snapshot : SqliteSnapshot := mkSqliteSnapshot demo_db sample_scope 1.

Lemma scan_index_spec_witness :
  exists entries, scan_index demo_snapshot (from_ulid 8) IndexRange_all 10 = Ok entries
    /\ limit_query entry_cmp
         (fun e => stored_entry demo_snapshot (from_ulid 8) e
            /\ in_bounds IndexRange_all (encoded (ie_key e)) = true) 10 entries.
Proof.
  apply (scan_index_spec demo_snapshot (from_ulid 8) IndexRange_all 10);
    [exact demo_db_ok|split; [done|reflexivity]|reflexivity].
Defined.

Lemma reads_total_witness : exists s, begin_read sample_scope demo_db = Ok s /\ snap_sequence s = 1.
Proof.
  destruct (reads_total sample_scope demo_db demo_db_ok) as (s & Hs & _ & _ & Hn & _).
  exists s. split; [exact Hs|]. rewrite Hn. vm_compute. reflexivity.
Defined.
