(* ===== verification/SqliteOutbox.v ===== *)
(** * Outbox consumers of the SQLite adapter

    What [claim_outbox] and [ack_outbox] of runku-data-sqlite/src/adapter.rs do to the consumer row
    and which events they hand out: functional specifications, lease fencing, and the order and
    completeness of delivery. *)

From Stdlib Require Import Strings.Byte ZArith Lia.
From stdpp Require Import prelude strings gmap sorting list.
From S2P Require Import Prelude Ulid Value StoredValue IndexKey Core StoreModel Batch Order Sql SqliteStore.
From S2P Require Import SqliteCommit SqliteInvariant.

Section outbox_ops.
Context {UL : UlidLib} {ULL : UlidLaws}.

(** The consumer row a claim starts from, and the row it leaves. *)
Definition consumer_row (sk : skey) (c : bytes) (now : Z) (db : Db) : ConsumerRow :=
  default (mkConsumerRow 0 None None None 0 None None now) (consumers db !! (sk, c)).

Definition claimed_consumer (row : ConsumerRow) (w : bytes) (now until : Z)
  (events : list OutboxEventRecord) : ConsumerRow :=
  match last events with
  | Some e => mkConsumerRow (c_cursor_sequence row) (c_cursor_event row) (Some w) (Some until)
                (c_lease_generation row + 1) (Some (oe_commit_sequence e))
                (Some (id_to_string (oe_event_id e))) now
  | None => mkConsumerRow (c_cursor_sequence row) (c_cursor_event row) None None
                (c_lease_generation row + 1) (c_claimed_sequence row) (c_claimed_event row) now
  end.

Record outbox_claim (sk : skey) (c w : bytes) (now until limit : Z) (db : Db)
  (b : ClaimedOutboxBatch) (db' : Db) : Prop := {
  oc_available : lease_available w now (consumer_row sk c now db) = true;
  oc_generation : co_lease_generation b = c_lease_generation (consumer_row sk c now db) + 1
    /\ co_lease_generation b <= i64_max;
  oc_cursor : decode_optional_cursor (c_cursor_sequence (consumer_row sk c now db))
    (c_cursor_event (consumer_row sk c now db)) = Ok (co_acknowledged_through b);
  oc_events : try_map (fun r => decode_outbox_event (snd (fst r)) (snd r))
    (take (Z.to_nat limit) (outbox_after sk (c_cursor_sequence (consumer_row sk c now db))
       (default [] (c_cursor_event (consumer_row sk c now db))) db)) = Ok (co_events b);
  oc_sequences : sequences db' = match sequences db !! sk with
                                 | Some _ => sequences db | None => <[sk := 0]> (sequences db) end;
  oc_db : db' = set_consumers
    (<[(sk, c) := claimed_consumer (consumer_row sk c now db) w now until (co_events b)]> (consumers db))
    (set_sequences (sequences db') db)
}.

Lemma decode_optional_cursor_event n e o : decode_optional_cursor n e = Ok o ->
  match o with Some cursor => id_to_string (oc_event_id cursor) | None => [] end = default [] e.
Proof.
  unfold decode_optional_cursor. destruct e as [e|], (n =? 0); try done; intros H.
  - apply rbind_Ok in H as (id & [_ ->]%parse_id_Ok & [= <-]). done.
  - by injection H as <-.
Qed.

Lemma ensure_rows_Ok sk c now db u1 db1 u2 db2 :
  ensure_sequence sk db = Ok (u1, db1) -> ensure_consumer sk c now db1 = Ok (u2, db2) ->
  db2 = set_consumers (<[(sk, c) := consumer_row sk c now db]> (consumers db))
          (set_sequences (match sequences db !! sk with
                          | Some _ => sequences db | None => <[sk := 0]> (sequences db) end) db).
Proof.
  unfold ensure_sequence, ensure_consumer, twrite. intros [= <- <-] [= <- <-].
  assert (consumers (match sequences db !! sk with
                     | Some _ => db | None => set_sequences (<[sk := 0]> (sequences db)) db end)
          = consumers db) as -> by (by destruct (sequences db !! sk)).
  unfold consumer_row. destruct (consumers db !! (sk, c)) as [row|] eqn:El; cbn [default].
  - rewrite (insert_id (consumers db)) by done. by destruct (sequences db !! sk), db.
  - by destruct (sequences db !! sk), db.
Qed.

Lemma claim_outbox_body_Ok sk c w now until limit db b db' :
  claim_outbox_body sk c w now until limit db = Ok (b, db') ->
  outbox_claim sk c w now until limit db b db'.
Proof.
  unfold claim_outbox_body. intros H. apply tbind_Ok in H as (u1 & db1 & H1 & H).
  apply tbind_Ok in H as (u2 & db2 & H2 & H).
  pose proof (ensure_rows_Ok _ _ _ _ _ _ _ _ H1 H2) as ->. clear H1 H2 u1 u2 db1.
  apply tbind_Ok in H as (lease & db3 & (row & Hrow & Hav & Hg & -> & ->)%acquire_lease_Ok & H).
  cbn [consumers set_consumers] in Hrow. rewrite lookup_insert_eq in Hrow. injection Hrow as <-.
  set (row := consumer_row sk c now db) in *.
  cbn [c_cursor_sequence c_cursor_event c_lease_generation] in H.
  apply tbind_Ok in H as (n & db4 & [[-> Hn]%positive_or_zero_u64_Ok ->]%tlift_Ok & H).
  apply tbind_Ok in H as (ack & db5 & [Hack ->]%tlift_Ok & H).
  apply tbind_Ok in H as (n & db6 & [Hn' ->]%tlift_Ok & H).
  assert (n = c_cursor_sequence row) as ->.
  { unfold nonnegative_i64 in Hn'. destruct (_ <=? _); [|done]. by injection Hn' as <-. }
  apply tbind_Ok in H as (rows & db7 & [= <- <-] & H).
  apply tbind_Ok in H as (events & db8 & [Hev ->]%tlift_Ok & H).
  rewrite (decode_optional_cursor_event _ _ _ Hack) in Hev.
  apply tbind_Ok in H as (u & db9 & Hupd & H).
  apply tbind_Ok in H as (g & db10 & [[-> Hg']%positive_u64_Ok ->]%tlift_Ok & [= <- <-]).
  cbn [set_consumers set_sequences consumers outbox sequences] in *.
  assert (db9 = set_consumers (<[(sk, c) := claimed_consumer row w now until events]> (consumers db))
    (set_sequences (match sequences db !! sk with
                    | Some _ => sequences db | None => <[sk := 0]> (sequences db) end) db)) as ->.
  { unfold claimed_consumer. destruct (last events) as [e|].
    - apply tbind_Ok in Hupd as (m & db11 & [(-> & _)%positive_i64_Ok ->]%tlift_Ok & Hupd).
      unfold update_consumer, twrite in Hupd. injection Hupd as <- <-. cbn.
      by rewrite insert_insert_eq, alter_insert_eq.
    - unfold update_consumer, twrite in Hupd. injection Hupd as <- <-. cbn.
      by rewrite insert_insert_eq, alter_insert_eq. }
  split; fold row; cbn [co_lease_generation co_acknowledged_through co_events]; done.
Qed.

(** ** The invariant *)

Lemma seqs_le_ensure (m : gmap skey Z) sk :
  seqs_le m (match m !! sk with Some _ => m | None => <[sk := 0]> m end).
Proof.
  intros sk' n Hn. destruct (m !! sk) eqn:El; [eauto with lia|].
  rewrite lookup_insert_ne by congruence. eauto with lia.
Qed.

Lemma db_ok_outbox_claim sk c w now until limit db b db' : db_ok db ->
  outbox_claim sk c w now until limit db b db' -> db_ok db'.
Proof.
  intros Hdb Hc. destruct (ensure_sequence sk db) as [[u db1]|] eqn:H1; [|done].
  destruct (db_ok_ensure_sequence _ _ _ _ Hdb H1) as (Hdb1 & Hs & Ec & Eo).
  assert (sequences db' = sequences db1 /\ set_sequences (sequences db') db = db1) as [Es E1].
  { rewrite (oc_sequences _ _ _ _ _ _ _ _ _ Hc). unfold ensure_sequence, twrite in H1.
    injection H1 as _ <-. by destruct (sequences db !! sk), db. }
  rewrite (oc_db _ _ _ _ _ _ _ _ _ Hc), E1, <- Ec. apply db_ok_set_consumer; [done|].
  assert (consumer_inv (sequences db1) (sk, c) (consumer_row sk c now db)) as Hrow.
  { unfold consumer_row. rewrite <- Ec. destruct (consumers db1 !! (sk, c)) as [row|] eqn:El; cbn.
    - exact (inv_consumers _ Hdb1 _ _ El).
    - split; [done|]. split_and!; cbn; done. }
  destruct (oc_generation _ _ _ _ _ _ _ _ _ Hc) as [Hg1 Hg2].
  destruct Hrow as (Hsq & Hcur & Hcl & Hlease & Hgen). unfold claimed_consumer.
  destruct (last (co_events b)) as [ev|] eqn:El; (split; [done|]); cbn in *; split_and!;
    try done; try lia; try naive_solver;
    destruct (last_claimed_position sk _ _ db _ _ _ Hdb (oc_events _ _ _ _ _ _ _ _ _ Hc) El) as [Hb Hid];
    [|by exists (oe_event_id ev)].
  eapply bounded_mono; [|exact Hb].
  rewrite <- Es, (oc_sequences _ _ _ _ _ _ _ _ _ Hc). apply seqs_le_ensure.
Qed.

Lemma claim_outbox_Ok o sc c w now until limit db b db' : claim_outbox o sc c w now until limit db = (Ok b, db') ->
  outbox_claim (scope_key sc) (consumer_str c) (id_to_string w) now until limit db b db'.
Proof.
  unfold claim_outbox. destruct (_ || _ || _); [done|].
  intros [(a & [= <-] & H)|[(e & [=] & _)|(a & [=] & _)]]%run_txn_cases. by apply claim_outbox_body_Ok in H.
Qed.

Lemma claim_outbox_preserves o sc c w now until limit db :
  db_ok db -> db_ok (snd (claim_outbox o sc c w now until limit db)).
Proof.
  intros Hdb. unfold claim_outbox. destruct (_ || _ || _); [done|]. apply run_txn_inv; [done|].
  intros b db' H%claim_outbox_body_Ok. by eapply db_ok_outbox_claim.
Qed.

(** What a successful acknowledgement found and left. *)
Record outbox_ack (sk : skey) (c w : bytes) (g : Z) (through : OutboxCursor) (db db' : Db) : Prop := {
  oa_row : exists row now, consumers db !! (sk, c) = Some row
    /\ c_lease_owner row = Some w /\ c_lease_generation row = g
    /\ c_claimed_sequence row = Some (oc_commit_sequence through)
    /\ c_claimed_event row = Some (id_to_string (oc_event_id through))
    /\ db' = set_consumers (<[(sk, c) := mkConsumerRow (oc_commit_sequence through)
         (Some (id_to_string (oc_event_id through))) None None g None None now]> (consumers db)) db
}.

Lemma ack_outbox_body_Ok sk c w clock g through db u db' :
  ack_outbox_body sk c w clock g through db = Ok (u, db') -> outbox_ack sk c w g through db db'.
Proof.
  unfold ack_outbox_body. intros H.
  apply rbind_Ok in H as (n & (-> & _)%positive_i64_Ok & H).
  apply rbind_Ok in H as (now & _ & H). apply rbind_Ok in H as (g' & (-> & _)%positive_i64_Ok & H).
  destruct (consumers db !! (sk, c)) as [row|] eqn:El; [|done].
  destruct (_ && _ && _ && _) eqn:Eg in H; [|done]. injection H as <- <-.
  apply andb_true_iff in Eg as [[[Ho%bool_decide_eq_true Hg%Z.eqb_eq]%andb_true_iff
    Hs%bool_decide_eq_true]%andb_true_iff He%bool_decide_eq_true].
  split. exists row, now. rewrite <- Hg. done.
Qed.

Lemma ack_outbox_preserves o clock sc c w g through db :
  db_ok db -> db_ok (snd (ack_outbox o clock sc c w g through db)).
Proof.
  intros Hdb. unfold ack_outbox. destruct (_ || _); [done|]. apply run_txn_inv; [done|].
  intros u db' [(row & now & El & Ho & Hg & Hs & He & ->)]%ack_outbox_body_Ok.
  apply db_ok_set_consumer; [done|].
  destruct (inv_consumers _ Hdb _ _ El) as (Hsq & Hcur & Hcl & Hlease & Hgen).
  rewrite Hs, He in Hcl. cbn [position_inv] in Hcl. split; [done|].
  cbn [c_cursor_sequence c_cursor_event c_claimed_sequence c_claimed_event c_lease_owner c_lease_until
       c_lease_generation fst].
  split_and!; try done; try lia. destruct (Z.eqb_spec (oc_commit_sequence through) 0) as [E0|]; [|done].
  destruct Hcl as [(m & _ & Hm) _]. lia.
Qed.

(** ** Delivery *)

(** An event of the Environment's outbox. *)
Definition stored_event (sk : skey) (db : Db) (e : OutboxEventRecord) : Prop :=
  id_ok (oe_event_id e) /\
  exists row, outbox db !! (sk, id_to_string (oe_event_id e)) = Some row
    /\ decode_outbox_event (id_to_string (oe_event_id e)) row = Ok e.

(** Commit order: by commit sequence, then by event identifier. *)
Definition cursor_cmp (x y : OutboxCursor) : comparison :=
  cmp_then (oc_commit_sequence x ?= oc_commit_sequence y)
           (as_ulid (oc_event_id x) ?= as_ulid (oc_event_id y)).
Definition event_cmp : OutboxEventRecord -> OutboxEventRecord -> comparison :=
  cmp_on OutboxEventRecord_cursor cursor_cmp.

(** After the acknowledged position, which may be none. *)
Definition after (position : option OutboxCursor) (e : OutboxEventRecord) : Prop :=
  match position with
  | None => True
  | Some p => cursor_cmp p (OutboxEventRecord_cursor e) = Lt
  end.

Definition decodes_event (r : (skey * bytes) * OutboxRow) (e : OutboxEventRecord) : Prop :=
  decode_outbox_event (snd (fst r)) (snd r) = Ok e.

Definition outbox_row_after (sk : skey) (n : Z) (ev : bytes) (db : Db) (r : (skey * bytes) * OutboxRow)
  : Prop :=
  (fst (fst r) = sk /\ after_cursor n ev r = true) /\ outbox db !! fst r = Some (snd r).

Lemma outbox_after_query sk n ev db limit :
  limit_query outbox_order (outbox_row_after sk n ev db) limit (take limit (outbox_after sk n ev db)).
Proof.
  apply take_order_by; [apply _|apply NoDup_filter, NoDup_map_to_list|].
  intros [k row]. by rewrite list_elem_of_filter, elem_of_map_to_list.
Qed.

Lemma decodes_event_cmp r r' e e' : decodes_event r e -> decodes_event r' e' ->
  event_cmp e e' = outbox_order r r'.
Proof.
  intros (Hi & Ei & Es & _)%decode_outbox_event_Ok (Hi' & Ei' & Es' & _)%decode_outbox_event_Ok.
  unfold event_cmp, cursor_cmp, outbox_order, cmp_lex, cmp_on. cbn [oc_commit_sequence oc_event_id
    OutboxEventRecord_cursor]. rewrite Es, Es', Ei, Ei'. by rewrite id_to_string_cmp.
Qed.

(** The condition on the columns is the condition on positions. *)
Lemma after_cursor_spec n ev position r e :
  decode_optional_cursor n ev = Ok position -> decodes_event r e ->
  after_cursor n (default [] ev) r = true <-> after position e.
Proof.
  intros Hp (Hi & Ei & Es & Hpos)%decode_outbox_event_Ok. unfold after_cursor. rewrite Ei, <- Es.
  unfold decode_optional_cursor in Hp. destruct ev as [ev|]; cbn [default].
  - destruct (Z.eqb_spec n 0) as [->|Hn]; [done|].
    apply rbind_Ok in Hp as (id & [Hid ->]%parse_id_Ok & [= <-]). cbn [after].
    unfold cursor_cmp. cbn [oc_commit_sequence oc_event_id OutboxEventRecord_cursor].
    unfold bytes_ltb, Datatypes.id. rewrite id_to_string_cmp by done.
    destruct (Z.compare_spec n (oe_commit_sequence e)) as [->|Hlt|Hgt]; cbn [cmp_then].
    + rewrite Z.ltb_irrefl, Z.eqb_refl. cbn [orb andb]. by destruct (as_ulid id ?= _).
    + rewrite (proj2 (Z.ltb_lt _ _) Hlt). done.
    + rewrite (proj2 (Z.ltb_ge _ _)) by lia. rewrite (proj2 (Z.eqb_neq _ _)) by lia. done.
  - destruct (Z.eqb_spec n 0) as [->|Hn]; [|done]. injection Hp as <-. cbn [after].
    by rewrite (proj2 (Z.ltb_lt 0 (oe_commit_sequence e))) by lia.
Qed.

(** The events of a claim are the first ones after the acknowledged position. *)
Lemma outbox_events_query sk n ev position db limit events :
  decode_optional_cursor n ev = Ok position ->
  try_map (fun r => decode_outbox_event (snd (fst r)) (snd r))
    (take limit (outbox_after sk n (default [] ev) db)) = Ok events ->
  limit_query event_cmp (fun e => stored_event sk db e /\ after position e) limit events.
Proof.
  intros Hp Ht%try_map_Ok.
  eapply (limit_query_map outbox_order event_cmp) with (R := decodes_event);
    [..|apply (outbox_after_query sk n (default [] ev) db)|exact Ht].
  - unfold decodes_event. congruence.
  - intros [[s1 i1] r1] [[s2 i2] r2] e [(E1 & _) L1] [(E2 & _) L2] (_ & H1 & _)%decode_outbox_event_Ok
      (_ & H2 & _)%decode_outbox_event_Ok. cbn [fst snd] in *. subst. congruence.
  - intros x x' y y' _ _. apply decodes_event_cmp.
  - intros [[s1 i1] r1] e [(E1 & Ha) L1] Hd. split; [|by eapply after_cursor_spec].
    unfold decodes_event in Hd. cbn [fst snd] in *. subst s1.
    pose proof (decode_outbox_event_Ok _ _ _ Hd) as (Hi & Ei & _). subst i1. split; [done|]. by exists r1.
  - intros e [(Hi & row & El & Hd) Ha]. exists ((sk, id_to_string (oe_event_id e)), row).
    split; [|exact Hd]. split; [|done]. split; [done|]. by eapply after_cursor_spec.
Qed.

Lemma decode_optional_cursor_ok seqs sk n ev :
  position_inv seqs sk (if n =? 0 then None else Some n) ev ->
  exists position, decode_optional_cursor n ev = Ok position.
Proof.
  unfold decode_optional_cursor. destruct (n =? 0), ev as [ev|]; cbn [position_inv]; try done; [by eexists|].
  intros [_ (id & Hid & ->)]. rewrite parse_id_render by done. by eexists.
Qed.

Lemma consumer_row_inv sk c now db : db_ok db ->
  0 <= c_cursor_sequence (consumer_row sk c now db) <= i64_max
  /\ 0 <= c_lease_generation (consumer_row sk c now db) <= i64_max
  /\ exists position, decode_optional_cursor (c_cursor_sequence (consumer_row sk c now db))
       (c_cursor_event (consumer_row sk c now db)) = Ok position.
Proof.
  intros Hdb. unfold consumer_row. destruct (consumers db !! (sk, c)) as [row|] eqn:El; cbn [default].
  2:{ unfold i64_max. cbn. split_and!; try lia. by eexists. }
  pose proof (inv_consumers _ Hdb _ _ El) as (_ & Hcur & _ & _ & Hgen). cbn [fst] in Hcur. unfold id.
  split_and!; try apply Hgen; [| |by eapply decode_optional_cursor_ok];
    (destruct (Z.eqb_spec (c_cursor_sequence row) 0) as [->|]; [unfold i64_max; lia|]);
    destruct (c_cursor_event row); try done; destruct Hcur as [(m & Hm & ?) _];
    pose proof (inv_sequences _ Hdb _ _ Hm) as Hmx; cbn beta in Hmx; lia.
Qed.

Lemma claim_outbox_progress sk c w now until limit db : db_ok db ->
  lease_available w now (consumer_row sk c now db) = true ->
  c_lease_generation (consumer_row sk c now db) + 1 <= i64_max ->
  exists b db', claim_outbox_body sk c w now until limit db = Ok (b, db').
Proof.
  intros Hdb Hav Hg. destruct (consumer_row_inv sk c now db Hdb) as (Hn & Hg0 & position & Hp).
  unfold claim_outbox_body, tbind. destruct (ensure_sequence sk db) as [[u1 db1]|] eqn:H1; [|done].
  cbn [rbind]. destruct (ensure_consumer sk c now db1) as [[u2 db2]|] eqn:H2; [|done]. cbn [rbind].
  pose proof (ensure_rows_Ok _ _ _ _ _ _ _ _ H1 H2) as ->. clear H1 H2 u1 u2 db1.
  set (row := consumer_row sk c now db) in *. unfold acquire_consumer_lease.
  cbn [consumers set_consumers]. rewrite lookup_insert_eq, Hav.
  rewrite (proj2 (sql_succ_Ok _ (c_lease_generation row + 1))) by done. cbn [rbind].
  cbn [c_cursor_sequence c_cursor_event c_lease_generation]. unfold tlift, tread, tret.
  rewrite (proj2 (positive_or_zero_u64_Ok _ (c_cursor_sequence row)))
    by (unfold i64_max, u64_max in *; split; [done|lia]). cbn [rbind]. rewrite Hp. cbn [rbind].
  unfold nonnegative_i64. rewrite (proj2 (Z.leb_le _ _)) by lia. cbn [rbind].
  rewrite (decode_optional_cursor_event _ _ _ Hp).
  destruct (try_map _ _) as [events|e] eqn:Ht; cbn [rbind].
  - rewrite positive_u64_eq by lia. destruct (last events) as [ev|] eqn:El; [|by do 2 eexists].
    destruct (last_claimed_position sk _ _ db _ _ _ Hdb Ht El) as [(m & Hm & Hs) _].
    pose proof (inv_sequences _ Hdb _ _ Hm) as Hmx. cbn beta in Hmx. unfold tbind, tlift, update_consumer, twrite.
    rewrite (proj2 (positive_i64_Ok (oe_commit_sequence ev) _)) by (split; [done|lia]). cbn. by do 2 eexists.
  - exfalso. assert (is_ok (@Err StoreError (list OutboxEventRecord) e) = true) as Hok; [|done].
    rewrite <- Ht. apply try_map_is_ok. intros r Hr.
    apply (lq_sound _ _ _ _ (outbox_after_query _ _ _ _ _)) in Hr as [_ El].
    by apply (inv_outbox _ Hdb) in El as [_ ?].
Qed.

(** Claiming outbox events.  While another worker's lease on the consumer is live the claim
    answers [Busy] and changes nothing.  Otherwise it succeeds and hands out exactly the first
    [limit] events of the Environment after the consumer's acknowledged position, in commit order;
    the lease generation is the next one; the lease and the last event handed out are recorded when
    there is one, and the lease is released when there is none; no table but the consumer's (and a
    new Environment's sequence row) changes. *)
Theorem claim_outbox_spec sc c w now until limit db :
  db_ok db -> 0 < limit <= 1000 -> now < until ->
  c_lease_generation (consumer_row (scope_key sc) (consumer_str c) now db) + 1 <= i64_max ->
  let row := consumer_row (scope_key sc) (consumer_str c) now db in
  if lease_available (id_to_string w) now row
  then exists b db', claim_outbox TO_Commit sc c w now until limit db = (Ok b, db')
    /\ limit_query event_cmp
         (fun e => stored_event (scope_key sc) db e /\ after (co_acknowledged_through b) e)
         (Z.to_nat limit) (co_events b)
    /\ co_lease_generation b = c_lease_generation row + 1
    /\ consumers db' = <[(scope_key sc, consumer_str c) :=
         claimed_consumer row (id_to_string w) now until (co_events b)]> (consumers db)
    /\ db' = set_consumers (consumers db') (set_sequences (sequences db') db)
    /\ default 0 (sequences db' !! scope_key sc) = default 0 (sequences db !! scope_key sc)
  else claim_outbox TO_Commit sc c w now until limit db = (Err SE_Busy, db).
Proof.
  intros Hdb Hl Hnu Hg row. assert (forall r, claim_outbox TO_Commit sc c w now until limit db = r <->
    run_txn TO_Commit (claim_outbox_body (scope_key sc) (consumer_str c) (id_to_string w) now until limit) db
    = r) as Hopen.
  { intros r. unfold claim_outbox.
    destruct (Z.eqb_spec limit 0), (Z.ltb_spec 1000 limit), (Z.leb_spec until now); try lia. done. }
  destruct (lease_available _ _ _) eqn:Hav.
  - destruct (claim_outbox_progress (scope_key sc) (consumer_str c) (id_to_string w) now until limit db
      Hdb Hav Hg) as (b & db' & H).
    exists b, db'. split; [apply Hopen; cbn [run_txn]; by rewrite H|]. apply claim_outbox_body_Ok in H.
    pose proof (oc_db _ _ _ _ _ _ _ _ _ H) as Edb. pose proof (oc_sequences _ _ _ _ _ _ _ _ _ H) as Es.
    pose proof (f_equal consumers Edb) as Ec. cbn [consumers set_consumers set_sequences] in Ec.
    split_and!; [..|by rewrite Ec|].
    + eapply outbox_events_query; [apply (oc_cursor _ _ _ _ _ _ _ _ _ H)|apply H].
    + apply H.
    + exact Ec.
    + rewrite Es. destruct (sequences db !! scope_key sc) eqn:E; [by rewrite E|by rewrite lookup_insert_eq].
  - apply Hopen. cbn [run_txn]. unfold claim_outbox_body, tbind.
    destruct (ensure_sequence _ db) as [[u1 db1]|] eqn:H1; [|done]. cbn [rbind].
    destruct (ensure_consumer _ _ now db1) as [[u2 db2]|] eqn:H2; [|done]. cbn [rbind].
    pose proof (ensure_rows_Ok _ _ _ _ _ _ _ _ H1 H2) as ->. unfold acquire_consumer_lease.
    cbn [consumers set_consumers]. rewrite lookup_insert_eq. fold row. by rewrite Hav.
Qed.

(** The lease and position an acknowledgement must name. *)
Definition holds_claim (w : WorkerId) (g : Z) (through : OutboxCursor) (row : ConsumerRow) : Prop :=
  c_lease_owner row = Some (id_to_string w) /\ c_lease_generation row = g
  /\ c_claimed_sequence row = Some (oc_commit_sequence through)
  /\ c_claimed_event row = Some (id_to_string (oc_event_id through)).

#[export] Instance holds_claim_dec w g through row : Decision (holds_claim w g through row).
Proof. repeat apply and_dec; apply _. Defined.

Definition acknowledged_row (g : Z) (through : OutboxCursor) (now : Z) : ConsumerRow :=
  mkConsumerRow (oc_commit_sequence through) (Some (id_to_string (oc_event_id through))) None None g
    None None now.

Lemma ack_outbox_eq clock now sc c w g through db :
  0 < g <= i64_max -> 0 < oc_commit_sequence through <= i64_max -> now_micros clock = Ok now ->
  ack_outbox TO_Commit clock sc c w g through db =
  match consumers db !! (scope_key sc, consumer_str c) with
  | Some row =>
      if decide (holds_claim w g through row)
      then (Ok tt, set_consumers (<[(scope_key sc, consumer_str c) := acknowledged_row g through now]>
                     (consumers db)) db)
      else (Err SE_OutboxLeaseLost, db)
  | None => (Err SE_OutboxLeaseLost, db)
  end.
Proof.
  intros Hg Hs Hn. unfold ack_outbox. destruct (Z.eqb_spec g 0), (Z.eqb_spec (oc_commit_sequence through) 0);
    try lia. cbn [orb run_txn]. unfold ack_outbox_body.
  rewrite (proj2 (positive_i64_Ok _ (oc_commit_sequence through))) by (split; [done|lia]). cbn [rbind].
  rewrite Hn. cbn [rbind]. rewrite (proj2 (positive_i64_Ok _ g)) by (split; [done|lia]). cbn [rbind].
  destruct (consumers db !! _) as [row|]; [|done]. unfold holds_claim.
  case_decide as Hh.
  - destruct Hh as (-> & <- & -> & ->). by rewrite !bool_decide_eq_true_2, Z.eqb_refl.
  - destruct (_ && _ && _ && _) eqn:E; [|done]. destruct Hh.
    apply andb_true_iff in E as [[[?%bool_decide_eq_true ?%Z.eqb_eq]%andb_true_iff
      ?%bool_decide_eq_true]%andb_true_iff ?%bool_decide_eq_true]. done.
Qed.

(** Acknowledgements are fenced.  An acknowledgement succeeds exactly when the consumer is leased
    by this worker with this generation and the position named is the last event of that claim; it
    then moves the consumer's position there and releases the lease, so that repeating it is
    refused.  Otherwise it answers [OutboxLeaseLost] and changes nothing. *)
Theorem ack_outbox_fenced clock now sc c w g through db :
  0 < g <= i64_max -> 0 < oc_commit_sequence through <= i64_max -> now_micros clock = Ok now ->
  ((exists row, consumers db !! (scope_key sc, consumer_str c) = Some row /\ holds_claim w g through row)
   /\ exists db', ack_outbox TO_Commit clock sc c w g through db = (Ok tt, db')
     /\ consumers db' = <[(scope_key sc, consumer_str c) := acknowledged_row g through now]> (consumers db)
     /\ db' = set_consumers (consumers db') db
     /\ ack_outbox TO_Commit clock sc c w g through db' = (Err SE_OutboxLeaseLost, db'))
  \/ ((forall row, consumers db !! (scope_key sc, consumer_str c) = Some row ->
        ~ holds_claim w g through row)
      /\ ack_outbox TO_Commit clock sc c w g through db = (Err SE_OutboxLeaseLost, db)).
Proof.
  intros Hg Hs Hn. rewrite (ack_outbox_eq clock now) by done.
  destruct (consumers db !! (scope_key sc, consumer_str c)) as [row|]; [|by right].
  case_decide as Hh; [left|right].
  - split; [by exists row|]. eexists. split; [done|]. split; [done|]. split; [done|].
    rewrite (ack_outbox_eq clock now) by done. cbn [consumers set_consumers].
    rewrite lookup_insert_eq, decide_False; [done|]. by intros [? _].
  - split; [|done]. by intros row' [= <-].
Qed.
End outbox_ops.

(** ** Examples on the demonstration database *)

Definition demo_consumer : OutboxConsumerName := mkOutboxConsumerName (text "deliver").
Definition demo_event : OutboxEventRecord := mkOutboxEventRecord (from_ulid 4) 1 (CV_Int64 1).

(** The consumer's only event, claimed by worker 11 and not yet acknowledged. *)
Definition demo_claimed : Db :=
  snd (claim_outbox TO_Commit sample_scope demo_consumer (from_ulid 11) 60 70 10 demo_db).

Lemma claim_outbox_spec_witness : exists b db',
  claim_outbox TO_Commit sample_scope demo_consumer (from_ulid 11) 60 70 10 demo_db = (Ok b, db')
  /\ co_lease_generation b = 1.
Proof.
  assert (Hrow : consumer_row (scope_key sample_scope) (consumer_str demo_consumer) 60 demo_db
    = mkConsumerRow 0 None None None 0 None None 60) by (vm_compute; reflexivity).
  pose proof (claim_outbox_spec sample_scope demo_consumer (from_ulid 11) 60 70 10 demo_db demo_db_ok) as H.
  rewrite Hrow in H. cbv zeta in H.
  change (lease_available _ _ _) with true in H. cbv iota in H.
  destruct H as (b & db' & Hb & _ & Hg & _);
    [split; reflexivity || discriminate|reflexivity|discriminate|].
  exists b, db'. split; [exact Hb|exact Hg].
Defined.

Lemma ack_outbox_fenced_witness : exists db',
  ack_outbox TO_Commit (Some 65) sample_scope demo_consumer (from_ulid 11) 1
    (OutboxEventRecord_cursor demo_event) demo_claimed = (Ok tt, db')
  /\ ack_outbox TO_Commit (Some 65) sample_scope demo_consumer (from_ulid 11) 1
       (OutboxEventRecord_cursor demo_event) db' = (Err SE_OutboxLeaseLost, db').
Proof.
  destruct (ack_outbox_fenced (Some 65) 65 sample_scope demo_consumer (from_ulid 11) 1
    (OutboxEventRecord_cursor demo_event) demo_claimed) as [[_ (db' & Ha & _ & _ & Hb)]|[_ Hno]];
    [unfold i64_max; lia|cbn; unfold i64_max; lia|reflexivity| |].
  - exists db'. split; [exact Ha|exact Hb].
  - apply (f_equal (fun r => is_ok (fst r))) in Hno. vm_compute in Hno. discriminate.
Defined.
