(* ===== verification/SqliteExport.v ===== *)
(** * Export, seed, import and reset

    The local data workflows of runku-data-sqlite/src/adapter.rs: resetting and importing keep the
    invariant of SqliteInvariant, touch one Environment only, and an import of an export restores
    the exported tables row by row. *)

From Stdlib Require Import Strings.Byte ZArith Lia.
From stdpp Require Import prelude strings gmap sorting list.
From S2P Require Import Prelude Ulid Value StoredValue IndexKey Core StoreModel Batch Order Sql SqliteStore.
From S2P Require Import SqliteCommit SqliteInvariant SqliteOutbox.

Section export.
Context {UL : UlidLib} {ULL : UlidLaws}.

(** ** Reset *)

Lemma bounded_delete s sk sk' n : sk' <> sk -> bounded s sk' n -> bounded (delete sk s) sk' n.
Proof. intros Hne (m & Hm & Hn). exists m. by rewrite lookup_delete_ne. Qed.

Lemma position_inv_delete s sk sk' n e :
  sk' <> sk -> position_inv s sk' n e -> position_inv (delete sk s) sk' n e.
Proof. intros Hne. destruct n, e; cbn; try done. intros [? ?]. eauto using bounded_delete. Qed.

Lemma table_inv_filter {K V} `{Countable K} (P Q : K -> V -> Prop) (R : K * V -> Prop)
  `{!forall x, Decision (R x)} (m : gmap K V) :
  (forall k row, R (k, row) -> P k row -> Q k row) -> table_inv P m -> table_inv Q (filter R m).
Proof. intros HPQ Hm k row [Hl HR]%map_lookup_filter_Some. eauto. Qed.

Lemma delete_environment_preserves sk db : db_ok db -> db_ok (delete_environment sk db).
Proof.
  intros Hdb. unfold delete_environment. case_decide as Hs; [|done]. destruct Hdb.
  split; cbn [sequences operations results documents indexes outbox schedules consumers].
  - intros k n Hl. apply lookup_delete_Some in Hl as [_ Hl]. eauto.
  - eapply table_inv_filter; [|eassumption]. intros [sk' op] row Hne. by apply bounded_delete.
  - intros sk' op n row [Hl Hne]%map_lookup_filter_Some. destruct (inv_results _ _ _ _ Hl) as [r Hr].
    exists r. by apply map_lookup_filter_Some.
  - eapply table_inv_filter; [|eassumption]. intros [sk' k] row Hne [? ?]. split; [|done].
    by apply bounded_delete.
  - eapply table_inv_filter; [|eassumption]. intros [sk' k] row Hne [? ?]. split; [|done].
    by apply bounded_delete.
  - eapply table_inv_filter; [|eassumption]. intros [sk' k] row Hne [? ?]. split; [|done].
    by apply bounded_delete.
  - eapply table_inv_filter; [|eassumption]. intros [sk' k] row Hne [? ?]. split; [|done].
    by apply bounded_delete.
  - intros sk' id id' row row' k [Hl _]%map_lookup_filter_Some [Hl' _]%map_lookup_filter_Some. eauto.
  - eapply table_inv_filter; [|eassumption]. intros [sk' k] row Hne (? & ? & ? & ?). cbn in *.
    split; cbn; [by rewrite lookup_delete_ne|]. eauto using position_inv_delete.
Qed.

(** An Environment without a sequence row has no rows: the tables reference it. *)
Lemma no_sequence_no_rows db sk : db_ok db -> sequences db !! sk = None ->
  (forall k, operations db !! (sk, k) = None) /\ (forall k n, results db !! (sk, k, n) = None)
  /\ (forall k, documents db !! (sk, k) = None) /\ (forall k, indexes db !! (sk, k) = None)
  /\ (forall k, outbox db !! (sk, k) = None) /\ (forall k, schedules db !! (sk, k) = None)
  /\ (forall k, consumers db !! (sk, k) = None).
Proof.
  intros [] Hs. assert (forall n, bounded (sequences db) sk n -> False) as Hb
    by (intros n (m & Hm & _); congruence).
  assert (forall k, operations db !! (sk, k) = None) as Hop
    by (intros k; apply eq_None_not_Some; intros [row H%inv_operations]; by apply Hb in H).
  split_and!; [done|..]; intros k; intros; apply eq_None_not_Some; intros [row H].
  - apply inv_results in H as [r Hr]. by rewrite Hop in Hr.
  - apply inv_documents in H as [H _]. by apply Hb in H.
  - apply inv_indexes in H as [H _]. by apply Hb in H.
  - apply inv_outbox in H as [H _]. by apply Hb in H.
  - apply inv_schedules in H as [H _]. by apply Hb in H.
  - apply inv_consumers in H as [[n H] _]. cbn in H. congruence.
Qed.

Lemma reset_preserves o sc c db : db_ok db -> db_ok (snd (reset_environment o sc c db)).
Proof.
  intros Hdb. unfold reset_environment. destruct (bool_decide _); [done|].
  pose proof (delete_environment_preserves (scope_key sc) db Hdb).
  destruct o as [|e|e ap]; cbn; [done|done|by destruct (commit_applied e ap)].
Qed.

(** ** Well-typed exports: what the types of the record fields guarantee *)

Definition document_record_ok (r : DocumentRecord) : Prop :=
  id_ok (dr_table_id r) /\ id_ok (dr_document_id r) /\ value_ok (dr_value r) = true
  /\ 0 <= dr_revision r /\ 0 <= dr_commit_sequence r.

Definition index_entry_ok (e : IndexEntry) : Prop :=
  id_ok (ie_index_id e) /\ key_ok (ie_key e) /\ id_ok (ie_table_id e) /\ id_ok (ie_document_id e)
  /\ 0 <= ie_document_revision e /\ 0 <= ie_commit_sequence e.

Definition outbox_record_ok (e : ExportedOutboxRecord) : Prop :=
  id_ok (xo_event_id e) /\ value_ok (xo_payload e) = true /\ 0 <= xo_commit_sequence e.

Definition schedule_record_ok (r : ScheduledInvocationRecord) : Prop :=
  id_ok (si_id r) /\ pinned_ok (si_pinned_code r) /\ function_ok (si_function r) = true
  /\ value_ok (si_args r) = true /\ 0 <= si_attempts r <= u32_max /\ 0 <= si_lease_generation r
  /\ (forall w, si_lease_owner r = Some w -> id_ok w) /\ 0 <= si_commit_sequence r.

Record export_wf (x : EnvironmentExportV1) : Prop := {
  xw_scope : scope_ok (x_scope x);
  xw_sequence : 0 <= x_commit_sequence x;
  xw_documents : Forall document_record_ok (x_documents x);
  xw_indexes : Forall index_entry_ok (x_indexes x);
  xw_outbox : Forall outbox_record_ok (x_outbox x);
  xw_schedules : Forall schedule_record_ok (x_schedules x)
}.

(** ** Validation of an export *)

Lemma try_fold_Forall {E A S} (P : A -> Prop) (f : S -> A -> result E S) l s s' :
  (forall s x s', f s x = Ok s' -> P x) -> try_fold f s l = Ok s' -> Forall P l.
Proof.
  intros Hf. revert s; induction l as [|x l IH]; intros s H; [constructor|].
  cbn [try_fold] in H. apply rbind_Ok in H as (s1 & Hx & H). constructor; eauto.
Qed.

Definition sequence_valid (x : EnvironmentExportV1) (n : Z) : Prop := n <> 0 /\ n <= x_commit_sequence x.

Lemma sequence_invalid_false n x : sequence_invalid n x = false <-> sequence_valid x n.
Proof.
  unfold sequence_invalid, sequence_valid. rewrite orb_false_iff, Z.eqb_neq, Z.ltb_ge. done.
Qed.

Lemma lease_mismatch_false r : lease_mismatch r = false <->
  (si_status r = SS_Running -> is_Some (si_lease_owner r) /\ is_Some (si_lease_until r))
  /\ (si_status r <> SS_Running -> si_lease_owner r = None /\ si_lease_until r = None).
Proof.
  unfold lease_mismatch. rewrite orb_false_iff, !andb_false_iff, !orb_false_iff, !negb_false_iff.
  rewrite !bool_decide_eq_true, !bool_decide_eq_false, <- !eq_None_not_Some.
  destruct (decide (si_status r = SS_Running)); naive_solver.
Qed.

(** The facts about single records a valid export gives. *)
Lemma validate_export_records x : validate_export x = Ok tt ->
  Forall (fun r => dr_revision r <> 0 /\ sequence_valid x (dr_commit_sequence r)) (x_documents x)
  /\ Forall (fun e => ie_document_revision e <> 0 /\ sequence_valid x (ie_commit_sequence e)) (x_indexes x)
  /\ Forall (fun e => sequence_valid x (xo_commit_sequence e)) (x_outbox x)
  /\ Forall (fun r => sequence_valid x (si_commit_sequence r) /\ lease_mismatch r = false) (x_schedules x).
Proof.
  unfold validate_export. destruct (_ || _ || _ || _ || _); [done|]. intros H.
  apply rbind_Ok in H as (docs & Hd & H). apply rbind_Ok in H as (ix & Hi & H).
  apply rbind_Ok in H as (ob & Ho & H). apply rbind_Ok in H as (sc & Hs & _).
  split_and!; (eapply try_fold_Forall; [|eassumption]); intros seen r seen'.
  - unfold check_export_document. destruct (_ || _) eqn:E; [done|]. intros _.
    apply orb_false_iff in E as [?%Z.eqb_neq ?%sequence_invalid_false]. done.
  - unfold check_export_index. destruct (_ || _ || _) eqn:E; [done|]. intros _.
    apply orb_false_iff in E as [[?%Z.eqb_neq ?%sequence_invalid_false]%orb_false_iff _]. done.
  - unfold check_export_outbox. destruct (sequence_invalid _ _) eqn:E; [done|]. intros _.
    by apply sequence_invalid_false.
  - unfold check_export_schedule. destruct (sequence_invalid _ _) eqn:E; [done|]. intros Hr.
    apply rbind_Ok in Hr as (ids & _ & Hr). apply rbind_Ok in Hr as (keys & _ & Hr).
    split; [by apply sequence_invalid_false|]. by destruct (lease_mismatch r).
Qed.

(** ** Rows written by an import *)

Definition document_row (r : DocumentRecord) : result StoreError DocumentRow :=
  let? revision := positive_i64 (dr_revision r) in
  let? sequence := positive_i64 (dr_commit_sequence r) in
  let? value := map_err (fun _ => SE_LimitExceeded) (encode_stored_value (dr_value r)) in
  Ok (mkDocumentRow revision sequence (dr_created_at r) (dr_updated_at r) value).
Definition document_row_key (sk : skey) (r : DocumentRecord) : skey * (bytes * bytes) :=
  (sk, (id_to_string (dr_table_id r), id_to_string (dr_document_id r))).

Definition index_entry_row (e : IndexEntry) : result StoreError IndexRow :=
  let? revision := positive_i64 (ie_document_revision e) in
  let? sequence := positive_i64 (ie_commit_sequence e) in
  Ok (mkIndexRow (id_to_string (ie_table_id e)) revision sequence).
Definition index_entry_key (sk : skey) (e : IndexEntry) : skey * (bytes * bytes * bytes) :=
  (sk, (id_to_string (ie_index_id e), encoded (ie_key e), id_to_string (ie_document_id e))).

Definition outbox_record_row (e : ExportedOutboxRecord) : result StoreError OutboxRow :=
  let? sequence := positive_i64 (xo_commit_sequence e) in
  let? payload := map_err (fun _ => SE_LimitExceeded) (encode_stored_value (xo_payload e)) in
  Ok (mkOutboxRow sequence payload (xo_created_at e)).
Definition outbox_record_key (sk : skey) (e : ExportedOutboxRecord) : skey * bytes :=
  (sk, id_to_string (xo_event_id e)).

Definition schedule_record_row (now : Z) (r : ScheduledInvocationRecord) : result StoreError ScheduleRow :=
  let? args := map_err (fun _ => SE_LimitExceeded) (encode_stored_value (si_args r)) in
  let? generation := nonnegative_i64 (si_lease_generation r) in
  let? sequence := positive_i64 (si_commit_sequence r) in
  Ok (mkScheduleRow (PinnedCode_to_string (si_pinned_code r)) (function_str (si_function r)) args
        (si_execute_at r) (status_text (si_status r)) (si_attempts r) generation
        (option_map id_to_string (si_lease_owner r)) (si_lease_until r) (si_idempotency_key r)
        (si_last_error_code r) sequence now now).
Definition schedule_record_key (sk : skey) (r : ScheduledInvocationRecord) : skey * bytes :=
  (sk, id_to_string (si_id r)).

(** [INSERT] of a row whose primary key must be new. *)
Definition insert_row {K V A} `{Countable K} (get : Db -> gmap K V) (set : gmap K V -> Db -> Db)
  (key : A -> K) (rowf : A -> result StoreError V) (x : A) : txn Db unit := fun db =>
  let? row := rowf x in
  match get db !! key x with
  | Some _ => Err SE_Internal
  | None => Ok (tt, set (<[key x := row]> (get db)) db)
  end.

Lemma import_document_insert sk r db : import_document sk r db
  = insert_row documents set_documents (document_row_key sk) document_row r db.
Proof.
  unfold import_document, insert_row, document_row.
  by destruct (positive_i64 _), (positive_i64 _), (map_err _ _).
Qed.
Lemma import_index_insert sk e db : import_index sk e db
  = insert_row indexes set_indexes (index_entry_key sk) index_entry_row e db.
Proof.
  unfold import_index, insert_row, index_entry_row. by destruct (positive_i64 _), (positive_i64 _).
Qed.
Lemma import_outbox_insert sk e db : import_outbox sk e db
  = insert_row outbox set_outbox (outbox_record_key sk) outbox_record_row e db.
Proof.
  unfold import_outbox, insert_row, outbox_record_row. by destruct (positive_i64 _), (map_err _ _).
Qed.
Lemma import_schedule_insert sk now r db : import_schedule sk now r db
  = if is_ok (schedule_record_row now r) && idempotency_key_used sk (si_idempotency_key r) db
    then Err SE_Internal
    else insert_row schedules set_schedules (schedule_record_key sk) (schedule_record_row now) r db.
Proof.
  unfold import_schedule, insert_row, schedule_record_row, schedule_record_key.
  destruct (map_err _ _), (nonnegative_i64 _), (positive_i64 _); cbn [rbind is_ok andb]; try done.
  by destruct (schedules db !! _), (idempotency_key_used _ _ _).
Qed.

Lemma insert_row_Ok {K V A} `{Countable K} (get : Db -> gmap K V) set key
  (rowf : A -> result StoreError V) x db u db' :
  insert_row get set key rowf x db = Ok (u, db') <->
  exists row, rowf x = Ok row /\ get db !! key x = None /\ db' = set (<[key x := row]> (get db)) db.
Proof.
  unfold insert_row. rewrite rbind_Ok. destruct u, (get db !! key x); naive_solver.
Qed.

(** ** Decoding inverts the rows of an import *)

Lemma document_row_decodes sk r row : document_record_ok r -> document_row r = Ok row ->
  decode_document_row (fst (snd (document_row_key sk r))) (snd (snd (document_row_key sk r))) row = Ok r
  /\ d_commit_sequence row = dr_commit_sequence r /\ d_revision row <= i64_max.
Proof.
  intros (Ht & Hd & Hv & Hr & Hs) H. unfold document_row in H.
  apply rbind_Ok in H as (rev & (-> & ?Hnz & ?Hmx)%positive_i64_Ok & H).
  apply rbind_Ok in H as (seq & (-> & ?Hnz & ?Hmx)%positive_i64_Ok & H).
  apply rbind_Ok in H as (v & Hev%map_err_Ok & [= <-]).
  cbn [document_row_key fst snd d_commit_sequence d_revision]. split; [|done].
  destruct r. cbn in *. apply decode_written_document; done || lia.
Qed.

Lemma index_row_decodes sk e row : index_entry_ok e -> index_entry_row e = Ok row ->
  decode_index_row (fst (fst (snd (index_entry_key sk e)))) (snd (fst (snd (index_entry_key sk e))))
    (snd (snd (index_entry_key sk e))) row = Ok e
  /\ i_commit_sequence row = ie_commit_sequence e /\ i_document_revision row <= i64_max.
Proof.
  intros (Hi & Hk & Ht & Hd & Hr & Hs) H. unfold index_entry_row in H.
  apply rbind_Ok in H as (rev & (-> & ?Hnz & ?Hmx)%positive_i64_Ok & H).
  apply rbind_Ok in H as (seq & (-> & ?Hnz & ?Hmx)%positive_i64_Ok & [= <-]).
  cbn [index_entry_key fst snd i_commit_sequence]. split; [|done].
  destruct e. cbn in *. apply decode_written_index; done || lia.
Qed.

Lemma outbox_row_decodes sk e row : outbox_record_ok e -> outbox_record_row e = Ok row ->
  decode_exported_outbox (snd (outbox_record_key sk e)) row = Ok e
  /\ is_ok (decode_outbox_event (snd (outbox_record_key sk e)) row) = true
  /\ o_commit_sequence row = xo_commit_sequence e.
Proof.
  intros (Hi & Hv & Hs) H. unfold outbox_record_row in H.
  apply rbind_Ok in H as (seq & (-> & ?Hnz & ?Hmx)%positive_i64_Ok & H).
  apply rbind_Ok in H as (p & Hp%map_err_Ok & [= <-]).
  cbn [outbox_record_key fst snd o_commit_sequence]. split_and!; [| |done].
  - unfold decode_exported_outbox. cbn [o_commit_sequence o_payload o_created_at].
    rewrite parse_id_render by done. cbn [rbind]. rewrite positive_u64_eq by lia. cbn [rbind].
    rewrite (decode_value_encode (xo_payload e) p) by done. by destruct e.
  - by rewrite (decode_written_outbox _ _ _ _ (xo_payload e)) by (done || lia).
Qed.

Lemma schedule_row_decodes sk now r row : schedule_record_ok r -> schedule_record_row now r = Ok row ->
  decode_schedule_row (snd (schedule_record_key sk r)) row = Ok r
  /\ s_commit_sequence row = si_commit_sequence r /\ s_idempotency_key row = si_idempotency_key r
  /\ s_lease_generation row <= i64_max
  /\ (lease_mismatch r = false -> lease_consistent row).
Proof.
  intros (Hi & Hp & Hf & Ha & Hat & Hg & Hw & Hs) H. unfold schedule_record_row in H.
  apply rbind_Ok in H as (args & He%map_err_Ok & H). apply rbind_Ok in H as (g & Hg' & H).
  assert (g = si_lease_generation r /\ si_lease_generation r <= i64_max) as [-> Hgm].
  { unfold nonnegative_i64 in Hg'. destruct (Z.leb_spec (si_lease_generation r) i64_max); [|done].
    by injection Hg' as <-. }
  apply rbind_Ok in H as (seq & (-> & ?Hnz & ?Hmx)%positive_i64_Ok & [= <-]).
  cbn [schedule_record_key snd s_commit_sequence s_idempotency_key s_lease_generation].
  split_and!; [|done|done|done|].
  - unfold decode_schedule_row.
    cbn [s_pinned_code s_function s_args s_execute_at s_status s_attempts s_lease_generation
      s_lease_owner s_lease_until s_idempotency_key s_last_error s_commit_sequence].
    assert (opt_map (parse_id WorkerK) (option_map id_to_string (si_lease_owner r))
            = Ok (si_lease_owner r)) as ->.
    { destruct (si_lease_owner r) as [w|]; [|done]. cbn [option_map opt_map].
      by rewrite parse_id_render by auto. }
    cbn [rbind]. rewrite parse_id_render by done. cbn [rbind].
    rewrite (proj2 (PinnedCode_from_str_Ok _ (si_pinned_code r))) by done. cbn [map_err rbind].
    rewrite (proj2 (FunctionName_from_str_Ok _ (si_function r))) by done. cbn [map_err rbind].
    rewrite (decode_value_encode (si_args r) args) by done. cbn [rbind].
    rewrite parse_status_text. cbn [rbind].
    rewrite (proj2 (positive_or_zero_u32_Ok _ (si_attempts r))) by done. cbn [rbind].
    rewrite (proj2 (positive_or_zero_u64_Ok _ (si_lease_generation r)))
      by (unfold i64_max, u64_max in *; split; [done|lia]). cbn [rbind].
    rewrite positive_u64_eq by lia. by destruct r.
  - intros Hl%lease_mismatch_false. unfold lease_consistent.
    cbn [s_status s_lease_owner s_lease_until].
    destruct (si_status r); cbn; destruct Hl as [Hl1 Hl2];
      try (destruct Hl2 as [-> ->]; done). destruct Hl1 as [[w ->] [t ->]]; [done|]. split; by eexists.
Qed.

(** ** Imports preserve the invariant *)

Section import_inv.
Variables (sk : skey) (N : Z).
Hypothesis N_pos : 0 <= N.

(** During an import the Environment's sequence is already the exported one. *)
Definition importing (db : Db) : Prop := db_ok db /\ sequences db !! sk = Some N.

Lemma bounded_importing db n : importing db -> 0 <= n -> n <> 0 -> n <= N -> bounded (sequences db) sk n.
Proof. intros [_ Hs] ? ? ?. exists N. split; [done|lia]. Qed.

Lemma import_document_preserves r db u db' : document_record_ok r -> dr_revision r <> 0 ->
  dr_commit_sequence r <> 0 -> dr_commit_sequence r <= N ->
  importing db -> import_document sk r db = Ok (u, db') -> importing db'.
Proof.
  intros Hr Hrev Hs HsN Hi H. rewrite import_document_insert in H.
  apply insert_row_Ok in H as (row & Hrow & El & ->).
  destruct (document_row_decodes sk r row Hr Hrow) as (Hdec & Hseq & Hmax).
  pose proof Hr as (_ & _ & _ & _ & Hs0).
  pose proof (bounded_importing db (dr_commit_sequence r) Hi Hs0 Hs HsN) as Hb.
  destruct Hi as [[] HN]. split; [|done]. split; cbn; try done. apply table_inv_insert; [done|].
  split; [by rewrite Hseq|]. split; [done|]. by rewrite Hdec.
Qed.

Lemma import_index_preserves e db u db' : index_entry_ok e ->
  ie_commit_sequence e <> 0 -> ie_commit_sequence e <= N ->
  importing db -> import_index sk e db = Ok (u, db') -> importing db'.
Proof.
  intros He Hs HsN Hi H. rewrite import_index_insert in H.
  apply insert_row_Ok in H as (row & Hrow & El & ->).
  destruct (index_row_decodes sk e row He Hrow) as (Hdec & Hseq & Hmax).
  pose proof He as (_ & _ & _ & _ & _ & Hs0).
  pose proof (bounded_importing db (ie_commit_sequence e) Hi Hs0 Hs HsN) as Hb.
  destruct Hi as [[] HN]. split; [|done]. split; cbn; try done. apply table_inv_insert; [done|].
  split; [by rewrite Hseq|]. split; [by rewrite Hdec|done].
Qed.

Lemma import_outbox_preserves e db u db' : outbox_record_ok e ->
  xo_commit_sequence e <> 0 -> xo_commit_sequence e <= N ->
  importing db -> import_outbox sk e db = Ok (u, db') -> importing db'.
Proof.
  intros He Hs HsN Hi H. rewrite import_outbox_insert in H.
  apply insert_row_Ok in H as (row & Hrow & El & ->).
  destruct (outbox_row_decodes sk e row He Hrow) as (_ & Hdec & Hseq).
  pose proof He as (_ & _ & Hs0).
  pose proof (bounded_importing db (xo_commit_sequence e) Hi Hs0 Hs HsN) as Hb.
  destruct Hi as [[] HN]. split; [|done]. split; cbn; try done. apply table_inv_insert; [done|].
  split; [by rewrite Hseq|done].
Qed.

Lemma idempotency_unique_insert m id row : idempotency_unique m ->
  (forall k id' row', s_idempotency_key row = Some k -> m !! (sk, id') = Some row' ->
     s_idempotency_key row' <> Some k) ->
  idempotency_unique (<[(sk, id) := row]> m).
Proof.
  intros Hu Hnew sk' i1 i2 r1 r2 k H1 H2 K1 K2.
  destruct (decide ((sk, id) = (sk', i1))) as [E1|N1], (decide ((sk, id) = (sk', i2))) as [E2|N2].
  - congruence.
  - rewrite E1, lookup_insert_eq in H1. rewrite lookup_insert_ne in H2 by done.
    injection H1 as <-. injection E1 as <- <-. by destruct (Hnew k i2 r2 K1 H2).
  - rewrite E2, lookup_insert_eq in H2. rewrite lookup_insert_ne in H1 by done.
    injection H2 as <-. injection E2 as <- <-. by destruct (Hnew k i1 r1 K2 H1).
  - rewrite lookup_insert_ne in H1, H2 by done. eauto.
Qed.

Lemma import_schedule_preserves now r db u db' : schedule_record_ok r ->
  si_commit_sequence r <> 0 -> si_commit_sequence r <= N -> lease_mismatch r = false ->
  importing db -> import_schedule sk now r db = Ok (u, db') -> importing db'.
Proof.
  intros Hr Hs HsN Hlm Hi H. rewrite import_schedule_insert in H.
  destruct (_ && _) eqn:Ek; [done|]. apply insert_row_Ok in H as (row & Hrow & El & ->).
  rewrite Hrow in Ek. cbn [is_ok andb] in Ek.
  destruct (schedule_row_decodes sk now r row Hr Hrow) as (Hdec & Hseq & Hk & Hgm & Hl).
  pose proof Hr as (_ & _ & _ & _ & _ & _ & _ & Hs0).
  pose proof (bounded_importing db (si_commit_sequence r) Hi Hs0 Hs HsN) as Hb.
  destruct Hi as [[] HN]. split; [|done]. split; cbn; try done.
  - apply table_inv_insert; [done|]. split; [by rewrite Hseq|]. split; [auto|].
    split; [by rewrite Hdec|done].
  - apply idempotency_unique_insert; [done|]. intros k id' row' Kk Hl' Kk'.
    apply not_true_iff_false in Ek. apply Ek, idempotency_key_used_spec.
    exists k, id', row'. rewrite <- Hk. done.
Qed.
End import_inv.

Lemma insert_export_records_preserves x clock db u db' : export_wf x -> validate_export x = Ok tt ->
  importing (scope_key (x_scope x)) (x_commit_sequence x) db ->
  insert_export_records clock x db = Ok (u, db') ->
  importing (scope_key (x_scope x)) (x_commit_sequence x) db'.
Proof.
  intros [] (Vd & Vi & Vo & Vs)%validate_export_records Hi H. unfold insert_export_records in H.
  rewrite !Forall_forall in *.
  apply tbind_Ok in H as (u1 & db1 & H1 & H). apply tbind_Ok in H as (u2 & db2 & H2 & H).
  apply tbind_Ok in H as (u3 & db3 & H3 & H). apply tbind_Ok in H as (now & db4 & [_ ->]%tlift_Ok & H).
  apply tbind_Ok in H as (u4 & db5 & H4 & [= _ <-]).
  eapply teach_inv in H1; [|intros r ? ? ? Hr; destruct (Vd r Hr) as (? & ? & ?);
    eapply import_document_preserves; eauto|exact Hi].
  eapply teach_inv in H2; [|intros r ? ? ? Hr; destruct (Vi r Hr) as (? & ? & ?);
    eapply import_index_preserves; eauto|exact H1].
  eapply teach_inv in H3; [|intros r ? ? ? Hr; destruct (Vo r Hr) as (? & ?);
    eapply import_outbox_preserves; eauto|exact H2].
  eapply teach_inv in H4; [|intros r ? ? ? Hr; destruct (Vs r Hr) as ((? & ?) & ?);
    eapply import_schedule_preserves; eauto|exact H3].
  done.
Qed.

Lemma delete_environment_sequence sk db : sequences (delete_environment sk db) !! sk = None.
Proof.
  unfold delete_environment. case_decide as Hs; cbn; [apply lookup_delete_eq|by apply eq_None_not_Some].
Qed.

Lemma import_inner_preserves o clock x replace db : export_wf x -> db_ok db ->
  db_ok (snd (import_environment_inner o clock x replace db)).
Proof.
  intros Hx Hdb. unfold import_environment_inner.
  destruct (validate_export x) as [[]|] eqn:Hv; [|done]. apply run_txn_inv; [done|].
  intros u db' H. destruct (_ && _); [done|].
  apply rbind_Ok in H as (n & Hn & H). unfold nonnegative_i64 in Hn.
  destruct (Z.leb_spec (x_commit_sequence x) i64_max); [|done]. injection Hn as <-.
  apply tbind_Ok in H as ([] & db1 & Hins & H).
  eapply insert_export_records_preserves in H as [? _]; [done|done|done|].
  unfold insert_sequence in Hins.
  assert (db_ok (if bool_decide (is_Some (sequences db !! scope_key (x_scope x)))
                 then delete_environment (scope_key (x_scope x)) db else db)) as Hdb1
    by (destruct (bool_decide _); [by apply delete_environment_preserves|done]).
  destruct (sequences _ !! _) eqn:El in Hins; [done|]. injection Hins as <-.
  split; [apply db_ok_new_sequence; [done|done|]; destruct Hx; lia|cbn; apply lookup_insert_eq].
Qed.

Lemma import_preserves o clock x c db : export_wf x -> db_ok db ->
  db_ok (snd (import_environment o clock x c db)).
Proof.
  intros Hx Hdb. unfold import_environment. destruct (bool_decide _); [done|].
  by apply import_inner_preserves.
Qed.
End export.
