(* ===== verification/SqliteRestore.v ===== *)
(** * Importing an export restores the Environment

    [export_environment] followed by [import_environment] of runku-data-sqlite/src/adapter.rs: the
    import of an export succeeds on any well-formed database and leaves the Environment with the
    exported documents, index entries, outbox events and scheduled invocations, row by row. *)

From Stdlib Require Import Strings.Byte ZArith Lia.
From stdpp Require Import prelude strings gmap sorting list relations.
From S2P Require Import Prelude Ulid Value StoredValue IndexKey Core StoreModel Batch Order Sql SqliteStore.
From S2P Require Import SqliteCommit SqliteInvariant SqliteReads SqliteOutbox SqliteExport.

(** ** Loops of insertions *)

Section insert_rows.
Context {K V A : Type} `{Countable K} (get : Db -> gmap K V) (set : gmap K V -> Db -> Db) `{!Table get set}.
Context (key : A -> K) (rowf : A -> result StoreError V).

Lemma insert_rows_progress l d :
  (forall x, x ∈ l -> is_ok (rowf x) = true) -> NoDup (map key l) ->
  (forall x, x ∈ l -> get d !! key x = None) ->
  exists us d', teach (insert_row get set key rowf) l d = Ok (us, d').
Proof.
  revert d; induction l as [|x l IH]; intros d Hrow Hnd Hnew; [by do 2 eexists|].
  cbn [map] in Hnd. apply NoDup_cons in Hnd as [Hx Hnd].
  assert (is_ok (rowf x) = true) as Hok by (apply Hrow; left). destruct (rowf x) as [row|] eqn:Er; [|done].
  edestruct (IH (set (<[key x := row]> (get d)) d)) as (us & d' & Hl).
  - intros y Hy. apply Hrow. by right.
  - done.
  - intros y Hy. rewrite table_get_set, lookup_insert_ne; [apply Hnew; by right|].
    intros E. apply Hx. rewrite E. apply list_elem_of_In, in_map. by apply list_elem_of_In.
  - exists (tt :: us), d'. apply teach_cons_Ok. do 4 eexists. split; [|by split].
    apply insert_row_Ok. exists row. split; [done|]. split; [apply Hnew; left|done].
Qed.

Lemma insert_rows_effect l d us d' : NoDup (map key l) ->
  teach (insert_row get set key rowf) l d = Ok (us, d') ->
  d' = set (get d') d
  /\ (forall x, x ∈ l -> exists row, rowf x = Ok row /\ get d' !! key x = Some row)
  /\ (forall k, (forall x, x ∈ l -> k <> key x) -> get d' !! k = get d !! k).
Proof.
  intros Hnd Hl.
  destruct (teach_rows get set (insert_row get set key rowf) key
    (fun x _ new => exists row, rowf x = Ok row /\ new = Some row) (fun _ => True) l d us d')
    as (E & Hrows & Hframe); try done.
  intros x db b db' _ _ (row & Hr & _ & ->)%insert_row_Ok. exists (Some row). split; [by exists row|done].
Qed.
End insert_rows.

Lemma teach_ext {A B} (f g : A -> txn Db B) l d : (forall x db, f x db = g x db) -> teach f l d = teach g l d.
Proof.
  intros Hfg. revert d; induction l as [|x l IH]; intros d; [done|]. cbn [teach]. unfold tbind.
  rewrite Hfg. destruct (g x d) as [[b d']|]; [|done]. cbn [rbind]. by rewrite IH.
Qed.

Section restore.
Context {UL : UlidLib} {ULL : UlidLaws}.

(** ** Records determine the rows they were decoded from *)

Lemma document_row_of sk t d row r : decode_document_row t d row = Ok r ->
  0 < d_revision row <= i64_max -> 0 < d_commit_sequence row <= i64_max ->
  document_row r = Ok row /\ document_row_key sk r = (sk, (t, d)) /\ document_record_ok r.
Proof.
  intros (Ht & -> & Hd & -> & Er & Es & Ec & Eu & Hv & He)%decode_document_row_Ok Hr Hs.
  split; [|split; [done|split_and!; done || lia]]. unfold document_row. rewrite Er, Es.
  rewrite !positive_i64_eq by done. cbn [rbind].
  rewrite He. cbn [map_err rbind]. rewrite Ec, Eu. by destruct row.
Qed.

Lemma index_row_of sk i k d row e : decode_index_row i k d row = Ok e ->
  0 < i_document_revision row <= i64_max -> 0 < i_commit_sequence row <= i64_max ->
  index_entry_row e = Ok row /\ index_entry_key sk e = (sk, (i, k, d)) /\ index_entry_ok e.
Proof.
  intros Hdec Hr Hs. assert (id_ok (ie_table_id e)) as Ht.
  { unfold decode_index_row in Hdec. do 2 (apply rbind_Ok in Hdec as (? & _ & Hdec)).
    apply rbind_Ok in Hdec as (t & [Ht _]%parse_id_Ok & Hdec).
    do 3 (apply rbind_Ok in Hdec as (? & _ & Hdec)). by injection Hdec as <-. }
  apply decode_index_row_Ok in Hdec as (-> & -> & -> & Hk & Hi & Hd & ->). cbn in Hr, Hs.
  split; [|split; [done|]].
  - unfold index_entry_row. by rewrite !positive_i64_eq by done.
  - split; [done|]. split; [done|]. split; [done|]. split; [done|]. lia.
Qed.

Lemma outbox_row_of sk ev row e : decode_exported_outbox ev row = Ok e ->
  0 < o_commit_sequence row <= i64_max ->
  outbox_record_row e = Ok row /\ outbox_record_key sk e = (sk, ev) /\ outbox_record_ok e.
Proof.
  unfold decode_exported_outbox. intros H Hs. apply rbind_Ok in H as (i & [Hi ->]%parse_id_Ok & H).
  apply rbind_Ok in H as (n & [-> _]%positive_u64_Ok & H).
  apply rbind_Ok in H as (v & [Hv He]%encode_decode_value & [= <-]).
  split; [|split; [done|split_and!; cbn; done || lia]]. unfold outbox_record_row.
  cbn [xo_commit_sequence xo_payload xo_created_at].
  rewrite positive_i64_eq by done. cbn [rbind]. rewrite He.
  cbn [map_err rbind]. by destruct row.
Qed.

(** An import stamps scheduled invocations with its own time. *)
Definition restamp (now : Z) (row : ScheduleRow) : ScheduleRow :=
  mkScheduleRow (s_pinned_code row) (s_function row) (s_args row) (s_execute_at row) (s_status row)
    (s_attempts row) (s_lease_generation row) (s_lease_owner row) (s_lease_until row)
    (s_idempotency_key row) (s_last_error row) (s_commit_sequence row) now now.

Lemma schedule_row_of sk now id row r : decode_schedule_row id row = Ok r ->
  s_lease_generation row <= i64_max -> 0 < s_commit_sequence row <= i64_max ->
  schedule_record_row now r = Ok (restamp now row) /\ schedule_record_key sk r = (sk, id)
  /\ schedule_record_ok r /\ si_idempotency_key r = s_idempotency_key row.
Proof.
  unfold decode_schedule_row. intros H Hg Hs. apply rbind_Ok in H as (owner & Ho & H).
  apply rbind_Ok in H as (i & [Hi ->]%parse_id_Ok & H).
  apply rbind_Ok in H as (p & Hp%map_err_Ok & H). apply PinnedCode_from_str_Ok in Hp as [Hp Ep].
  apply rbind_Ok in H as (f & Hf%map_err_Ok & H). apply FunctionName_from_str_Ok in Hf as [Hf Ef].
  apply rbind_Ok in H as (v & [Hv He]%encode_decode_value & H).
  apply rbind_Ok in H as (st & Hst%parse_status_Ok & H).
  apply rbind_Ok in H as (a & [-> Ha]%positive_or_zero_u32_Ok & H).
  apply rbind_Ok in H as (g & [-> Hg0]%positive_or_zero_u64_Ok & H).
  apply rbind_Ok in H as (n & [-> Hn]%positive_u64_Ok & [= <-]).
  assert (option_map id_to_string owner = s_lease_owner row /\ (forall w, owner = Some w -> id_ok w)) as [Eo Hw].
  { destruct (s_lease_owner row) as [ow|]; cbn [opt_map] in Ho; [|by injection Ho as <-].
    apply rbind_Ok in Ho as (w & [Hw ->]%parse_id_Ok & [= <-]). split; [done|]. by intros w' [= <-]. }
  split; [|split; [done|split; [|done]]].
  - unfold schedule_record_row. cbn [si_args si_lease_generation si_commit_sequence si_pinned_code
      si_function si_execute_at si_status si_attempts si_lease_owner si_lease_until si_idempotency_key
      si_last_error_code]. rewrite He. cbn [map_err rbind]. unfold nonnegative_i64.
    rewrite (proj2 (Z.leb_le _ _)) by done. cbn [rbind].
    rewrite positive_i64_eq by done. cbn [rbind].
    rewrite Eo, <- Hst. unfold restamp. by rewrite Ep, Ef.
  - unfold schedule_record_ok. cbn. split_and!; done || lia.
Qed.

(** ** Whole tables *)

(** [rows] are the rows of one Environment in a table. *)
Definition rows_of {K V} `{Countable K} (m : gmap (skey * K) V) (sk : skey)
  (rows : list ((skey * K) * V)) : Prop :=
  NoDup (map fst rows) /\ forall k v, (k, v) ∈ rows <-> fst k = sk /\ m !! k = Some v.

Lemma ordered_rows_of {K V} `{Countable K} (m : gmap (skey * K) V) sk cmp `{!TotalCmp cmp} :
  rows_of m sk (order_by cmp (filter (fun r => fst (fst r) = sk) (map_to_list m))).
Proof.
  assert (forall k v, (k, v) ∈ order_by cmp (filter (fun r => fst (fst r) = sk) (map_to_list m))
            <-> fst k = sk /\ m !! k = Some v) as Hin.
  { intros k v. by rewrite elem_of_order_by, list_elem_of_filter, elem_of_map_to_list. }
  split; [|done]. apply (NoDup_rendered (fun r => r)).
  - rewrite map_id, order_by_perm. apply NoDup_filter, NoDup_map_to_list.
  - intros [k v] [k' v'] [_ Hl]%Hin [_ Hl']%Hin E. cbn in E. subst. congruence.
Qed.

Section restored_table.
Context {K V A : Type} `{Countable K} (get : Db -> gmap (skey * K) V).
Context (key : A -> skey * K) (rowf : A -> result StoreError V) (f : V -> V).
Context (m : gmap (skey * K) V) (sk : skey) (rows : list ((skey * K) * V)) (recs : list A).
Hypothesis Hrows : rows_of m sk rows.
Hypothesis Hrecs : Forall2 (fun r rec => rowf rec = Ok (f (snd r)) /\ key rec = fst r) rows recs.

Lemma restored_keys : map key recs = map fst rows.
Proof using Hrecs.
  pose proof Hrecs as Hall. clear Hrows Hrecs.
  induction Hall as [|r rec l l' [_ E] _ IH]; [done|]. cbn [map]. by rewrite E, IH.
Qed.

Lemma restored_ok x : x ∈ recs -> is_ok (rowf x) = true /\ fst (key x) = sk.
Proof using Hrows Hrecs.
  intros Hx. destruct (Forall2_elem_r _ _ _ _ Hrecs Hx) as ([k v] & Hr & -> & E).
  split; [done|]. rewrite E. by apply Hrows in Hr as [? _].
Qed.

Lemma restored_table d d' :
  (forall x, x ∈ recs -> exists row, rowf x = Ok row /\ get d' !! key x = Some row) ->
  (forall k, (forall x, x ∈ recs -> k <> key x) -> get d' !! k = get d !! k) ->
  (forall k, get d !! (sk, k) = None) ->
  forall k, get d' !! (sk, k) = f <$> m !! (sk, k).
Proof using Hrows Hrecs.
  intros Hset Hframe Hempty k. destruct (m !! (sk, k)) as [v|] eqn:El.
  - assert ((sk, k, v) ∈ rows) as Hr by (by apply Hrows).
    destruct (Forall2_elem_l _ _ _ _ Hrecs Hr) as (x & Hx & Er & Ek). cbn in Er, Ek.
    destruct (Hset x Hx) as (row & Er' & Hl). rewrite Ek in Hl. cbn. congruence.
  - rewrite Hframe; [by rewrite Hempty|]. intros x Hx E.
    destruct (Forall2_elem_r _ _ _ _ Hrecs Hx) as ([k' v] & Hr & _ & Ek).
    apply Hrows in Hr as [_ Hl]. cbn in Ek. congruence.
Qed.

Lemma restored_new d x : (forall k, get d !! (sk, k) = None) -> x ∈ recs -> get d !! key x = None.
Proof using Hrows Hrecs.
  intros Hempty Hx. destruct (restored_ok x Hx) as [_ E]. destruct (key x) as [s k]. cbn in E. by rewrite E.
Qed.

Lemma restored_effect (set : gmap (skey * K) V -> Db -> Db) `{!Table get set} us d d' :
  (forall k, get d !! (sk, k) = None) ->
  teach (insert_row get set key rowf) recs d = Ok (us, d') ->
  d' = set (get d') d /\ forall k, get d' !! (sk, k) = f <$> m !! (sk, k).
Proof using Hrows Hrecs.
  intros Hempty Hl. apply insert_rows_effect in Hl as (E & Hset & Hframe); [|apply _|].
  - split; [done|]. by eapply restored_table.
  - rewrite restored_keys. apply Hrows.
Qed.

Lemma restored_import (set : gmap (skey * K) V -> Db -> Db) `{!Table get set} d :
  (forall k, get d !! (sk, k) = None) ->
  exists us d', teach (insert_row get set key rowf) recs d = Ok (us, d').
Proof using Hrows Hrecs.
  intros Hempty. apply insert_rows_progress; [apply _|..].
  - intros x Hx. by apply restored_ok.
  - rewrite restored_keys. apply Hrows.
  - intros x Hx. by apply restored_new.
Qed.
End restored_table.

(** The guard of the unique index on idempotency keys never fires on an export. *)
Lemma import_schedules_progress sk now l d :
  (forall x, x ∈ l -> is_ok (schedule_record_row now x) = true) ->
  NoDup (map (schedule_record_key sk) l) -> NoDup (omap si_idempotency_key l) ->
  (forall x, x ∈ l -> schedules d !! schedule_record_key sk x = None) ->
  (forall x k id row, x ∈ l -> si_idempotency_key x = Some k -> schedules d !! (sk, id) = Some row ->
     s_idempotency_key row <> Some k) ->
  exists us d', teach (import_schedule sk now) l d = Ok (us, d')
    /\ teach (insert_row schedules set_schedules (schedule_record_key sk) (schedule_record_row now)) l d
       = Ok (us, d').
Proof.
  revert d; induction l as [|x l IH]; intros d Hrow Hnd Hidem Hnew Hkeys; [by do 2 eexists|].
  cbn [map] in Hnd. apply NoDup_cons in Hnd as [Hx Hnd].
  assert (is_ok (schedule_record_row now x) = true) as Hok by (apply Hrow; left).
  destruct (schedule_record_row now x) as [row|] eqn:Er; [|done].
  assert (s_idempotency_key row = si_idempotency_key x) as Ek.
  { unfold schedule_record_row in Er. do 3 (apply rbind_Ok in Er as (? & _ & Er)). by injection Er as <-. }
  assert (insert_row schedules set_schedules (schedule_record_key sk) (schedule_record_row now) x d
    = Ok (tt, set_schedules (<[schedule_record_key sk x := row]> (schedules d)) d)) as Hins.
  { apply insert_row_Ok. exists row. split; [done|]. split; [apply Hnew; left|done]. }
  assert (import_schedule sk now x d = insert_row schedules set_schedules (schedule_record_key sk)
    (schedule_record_row now) x d) as Himp.
  { rewrite import_schedule_insert, Er. cbn [is_ok andb].
    destruct (idempotency_key_used _ _ _) eqn:Eu; [|done].
    apply idempotency_key_used_spec in Eu as (k & id & r & E1 & E2 & E3).
    destruct (Hkeys x k id r) as []; try done. left. }
  edestruct (IH (set_schedules (<[schedule_record_key sk x := row]> (schedules d)) d))
    as (us & d' & H1 & H2); [..|exists (tt :: us), d'; rewrite !teach_cons_Ok, Himp, Hins;
      split; do 4 eexists; (split; [done|]); (split; [eassumption|done])].
  - intros y Hy. apply Hrow. by right.
  - done.
  - cbn [omap list_omap] in Hidem. destruct (si_idempotency_key x); [by apply NoDup_cons in Hidem as [_ ?]|done].
  - intros y Hy. cbn [schedules set_schedules]. rewrite lookup_insert_ne; [apply Hnew; by right|].
    intros E. apply Hx. rewrite E. apply list_elem_of_In, in_map. by apply list_elem_of_In.
  - intros y k id r Hy Hyk. cbn [schedules set_schedules].
    destruct (decide (schedule_record_key sk x = (sk, id))) as [E|Hne].
    + rewrite E, lookup_insert_eq. intros [= <-] Hr. rewrite Ek in Hr. cbn [omap list_omap] in Hidem.
      rewrite Hr in Hidem. apply NoDup_cons in Hidem as [Hn _]. apply Hn, list_elem_of_omap. eauto.
    + rewrite lookup_insert_ne by done. apply (Hkeys y k id r); [by right|done].
Qed.

Lemma exported_table {K V A : Type} `{Countable K} (m : gmap (skey * K) V) sk cmp `{!TotalCmp cmp}
  (decodes Q : (skey * K) * V -> A -> Prop) recs :
  Forall2 decodes (order_by cmp (filter (fun r => fst (fst r) = sk) (map_to_list m))) recs ->
  (forall k v rec, m !! (sk, k) = Some v -> decodes ((sk, k), v) rec -> Q ((sk, k), v) rec) ->
  exists rows, rows_of m sk rows /\ Forall2 Q rows recs.
Proof.
  intros Hall HQ. pose proof (ordered_rows_of m sk cmp) as Hrows. eexists. split; [exact Hrows|].
  eapply (Forall2_with (fun r => r ∈ order_by cmp _)); [by intros ? ?%list_elem_of_In|exact Hall|].
  intros [[sk' k] v] rec Hin Hd. apply Hrows in Hin as [E Hl]. cbn in E. subst sk'. by apply HQ.
Qed.

(** What an export of a well-formed database contains. *)
Lemma export_contents sc db x : db_ok db -> export_environment sc db = Ok x ->
  x_scope x = sc /\ x_commit_sequence x = default 0 (sequences db !! scope_key sc)
  /\ validate_export x = Ok tt
  /\ (exists rows, rows_of (documents db) (scope_key sc) rows /\ Forall2 (fun r rec =>
        document_row rec = Ok (snd r) /\ document_row_key (scope_key sc) rec = fst r) rows (x_documents x))
  /\ (exists rows, rows_of (indexes db) (scope_key sc) rows /\ Forall2 (fun r rec =>
        index_entry_row rec = Ok (snd r) /\ index_entry_key (scope_key sc) rec = fst r) rows (x_indexes x))
  /\ (exists rows, rows_of (outbox db) (scope_key sc) rows /\ Forall2 (fun r rec =>
        outbox_record_row rec = Ok (snd r) /\ outbox_record_key (scope_key sc) rec = fst r) rows (x_outbox x))
  /\ (exists rows, rows_of (schedules db) (scope_key sc) rows /\ Forall2 (fun r rec =>
        forall now, schedule_record_row now rec = Ok (restamp now (snd r))
          /\ schedule_record_key (scope_key sc) rec = fst r
          /\ si_idempotency_key rec = s_idempotency_key (snd r)) rows (x_schedules x)).
Proof.
  intros Hdb H. unfold export_environment in H.
  apply rbind_Ok in H as (docs & Hd%try_map_Ok & H). apply rbind_Ok in H as (idx & Hi%try_map_Ok & H).
  apply rbind_Ok in H as (evs & Ho%try_map_Ok & H). apply rbind_Ok in H as (scs & Hs%try_map_Ok & H).
  apply rbind_Ok in H as (n & [-> _]%positive_or_zero_u64_Ok & H).
  apply rbind_Ok in H as ([] & Hv & [= <-]).
  cbn [x_scope x_commit_sequence x_documents x_indexes x_outbox x_schedules].
  assert (forall n, bounded (sequences db) (scope_key sc) n -> 0 < n <= i64_max) as Hb.
  { intros m (k & Hk & ?). pose proof (inv_sequences _ Hdb _ _ Hk) as Hmx. cbn beta in Hmx. lia. }
  split; [done|]. split; [done|]. split; [done|]. split_and!.
  - apply (exported_table _ _ _ _ _ _ Hd). intros [t d] row rec El Hdec. cbn [fst snd] in *.
    pose proof (inv_documents _ Hdb _ _ El) as (Hbd & Hmx & _).
    assert (0 < d_revision row) as Hrev.
    { unfold decode_document_row in Hdec. do 2 (apply rbind_Ok in Hdec as (? & _ & Hdec)).
      apply rbind_Ok in Hdec as (? & [_ Hp]%positive_u64_Ok & Hdec). lia. }
    destruct (document_row_of (scope_key sc) t d row rec Hdec) as (? & ? & _); [lia|by apply Hb|done].
  - apply (exported_table _ _ _ _ _ _ Hi). intros [[i k] d] row rec El Hdec.
    unfold row_index, row_key, row_document in Hdec. cbn [fst snd] in *.
    pose proof (inv_indexes _ Hdb _ _ El) as (Hbd & _ & Hmx).
    assert (0 < i_document_revision row) as Hrev.
    { unfold decode_index_row in Hdec. do 4 (apply rbind_Ok in Hdec as (? & _ & Hdec)).
      apply rbind_Ok in Hdec as (? & [_ Hp]%positive_u64_Ok & Hdec). lia. }
    destruct (index_row_of (scope_key sc) i k d row rec Hdec) as (? & ? & _); [lia|by apply Hb|done].
  - apply (exported_table _ _ _ _ _ _ Ho). intros e row rec El Hdec. cbn [fst snd] in *.
    pose proof (inv_outbox _ Hdb _ _ El) as (Hbd & _).
    destruct (outbox_row_of (scope_key sc) e row rec Hdec) as (? & ? & _); [by apply Hb|done].
  - apply (exported_table _ _ _ _ _ _ Hs). intros e row rec El Hdec now. cbn [fst snd] in *.
    pose proof (inv_schedules _ Hdb _ _ El) as (Hbd & _ & _ & Hg).
    destruct (schedule_row_of (scope_key sc) now e row rec Hdec) as (? & ? & _ & ?); [done|by apply Hb|done].
Qed.

Lemma exported_keys_distinct m sk rows recs : idempotency_unique m -> rows_of m sk rows ->
  Forall2 (fun r rec => si_idempotency_key rec = s_idempotency_key (snd r)) rows recs ->
  NoDup (omap si_idempotency_key recs).
Proof.
  intros Hu [Hnd Hin] Hall. assert (forall r, r ∈ rows -> fst (fst r) = sk /\ m !! fst r = Some (snd r)) as Hr
    by (intros [k v] Hr; by apply Hin).
  clear Hin. induction Hall as [|[[s i] r] rec rows recs E Hall IH]; [constructor|].
  cbn [map fst] in Hnd. apply NoDup_cons in Hnd as [Hk Hnd]. cbn [omap list_omap].
  assert (NoDup (omap si_idempotency_key recs)) as Hrest by (apply IH; [done|intros; apply Hr; by right]).
  destruct (si_idempotency_key rec) as [k|] eqn:Ek; [|done]. constructor; [|done].
  intros (rec' & Hrec' & Ek')%list_elem_of_omap.
  destruct (Forall2_elem_r _ _ _ _ Hall Hrec') as ([[s' i'] r'] & Hr' & E').
  destruct (Hr ((s, i), r)) as [Es El]; [left|]. destruct (Hr ((s', i'), r')) as [Es' El']; [by right|].
  cbn [fst snd] in *. subst s s'.
  assert (i = i') as -> by (eapply (Hu sk i i' r r' k); [done|done|congruence|congruence]).
  apply Hk, list_elem_of_In. apply (in_map fst) with (x := ((sk, i'), r')). by apply list_elem_of_In.
Qed.

(** Inserting the exported records into an Environment without rows. *)
Lemma insert_export_restores sc db x d clock now : db_ok db -> export_environment sc db = Ok x ->
  now_micros clock = Ok now ->
  (forall k, documents d !! (scope_key sc, k) = None) -> (forall k, indexes d !! (scope_key sc, k) = None) ->
  (forall k, outbox d !! (scope_key sc, k) = None) -> (forall k, schedules d !! (scope_key sc, k) = None) ->
  exists d', insert_export_records clock x d = Ok (tt, d')
    /\ (forall k, documents d' !! (scope_key sc, k) = documents db !! (scope_key sc, k))
    /\ (forall k, indexes d' !! (scope_key sc, k) = indexes db !! (scope_key sc, k))
    /\ (forall k, outbox d' !! (scope_key sc, k) = outbox db !! (scope_key sc, k))
    /\ (forall k, schedules d' !! (scope_key sc, k) = restamp now <$> schedules db !! (scope_key sc, k))
    /\ sequences d' = sequences d /\ operations d' = operations d /\ consumers d' = consumers d.
Proof.
  intros Hdb Hx Hn Nd Ni No Ns.
  destruct (export_contents sc db x Hdb Hx) as (<- & _ & _ & (rd & Rd & Fd) & (ri & Ri & Fi) & (ro & Ro & Fo)
    & (rs & Rs & Fs)).
  assert (Fs' : Forall2 (fun r rec => schedule_record_row now rec = Ok (restamp now (snd r))
    /\ schedule_record_key (scope_key (x_scope x)) rec = fst r) rs (x_schedules x))
    by (eapply Forall2_impl; [exact Fs|]; intros r rec H; destruct (H now) as (? & ? & _); done).
  destruct (restored_import documents _ _ (fun v => v) _ _ _ _ Rd Fd set_documents d Nd) as (u1 & d1 & H1).
  destruct (restored_effect documents _ _ (fun v => v) _ _ _ _ Rd Fd set_documents _ _ _ Nd H1) as [E1 L1].
  assert (forall k, indexes d1 !! (scope_key (x_scope x), k) = None) as Ni' by (by rewrite E1).
  destruct (restored_import indexes _ _ (fun v => v) _ _ _ _ Ri Fi set_indexes d1 Ni') as (u2 & d2 & H2).
  destruct (restored_effect indexes _ _ (fun v => v) _ _ _ _ Ri Fi set_indexes _ _ _ Ni' H2) as [E2 L2].
  assert (forall k, outbox d2 !! (scope_key (x_scope x), k) = None) as No' by (by rewrite E2, E1).
  destruct (restored_import outbox _ _ (fun v => v) _ _ _ _ Ro Fo set_outbox d2 No') as (u3 & d3 & H3).
  destruct (restored_effect outbox _ _ (fun v => v) _ _ _ _ Ro Fo set_outbox _ _ _ No' H3) as [E3 L3].
  assert (forall k, schedules d3 !! (scope_key (x_scope x), k) = None) as Ns' by (by rewrite E3, E2, E1).
  destruct (import_schedules_progress (scope_key (x_scope x)) now (x_schedules x) d3) as (u4 & d4 & H4 & H4').
  { intros y Hy. by eapply (restored_ok _ _ _ _ _ _ _ Rs Fs'). }
  { rewrite (restored_keys _ _ _ _ _ Fs'). apply Rs. }
  { eapply exported_keys_distinct; [apply Hdb|exact Rs|]. eapply Forall2_impl; [exact Fs|].
    intros r rec H. by destruct (H now) as (_ & _ & ?). }
  { intros y Hy. by eapply (restored_new schedules _ _ _ _ _ _ _ Rs Fs'). }
  { intros y k id row _ _ Hl. by rewrite Ns' in Hl. }
  destruct (restored_effect schedules _ _ _ _ _ _ _ Rs Fs' set_schedules _ _ _ Ns' H4') as [E4 L4].
  exists d4. split.
  - unfold insert_export_records. unfold tbind, tlift, tret.
    rewrite (teach_ext _ _ _ _ (import_document_insert _)), H1. cbn [rbind].
    rewrite (teach_ext _ _ _ _ (import_index_insert _)), H2. cbn [rbind].
    rewrite (teach_ext _ _ _ _ (import_outbox_insert _)), H3. cbn [rbind].
    rewrite Hn. cbn [rbind]. by rewrite H4.
  - rewrite E4. cbn [documents indexes outbox schedules sequences operations consumers set_schedules].
    rewrite E3. cbn [documents indexes outbox schedules sequences operations consumers set_outbox].
    rewrite E2. cbn [documents indexes outbox schedules sequences operations consumers set_indexes].
    rewrite E1. cbn [documents indexes outbox schedules sequences operations consumers set_documents].
    split_and!; try done; intros k; [rewrite L1|rewrite L2|rewrite L3]; by destruct (_ !! _).
Qed.

(** C25: Importing an export restores the Environment.  If an Environment of a well-formed database can
    be exported, importing that export under the matching confirmation succeeds on any well-formed
    database, and afterwards the Environment has the exported commit sequence, exactly the exported
    documents, index entries and outbox events, byte for byte, and the exported scheduled
    invocations with the import's timestamps; its operation journal and consumers start empty. *)
Theorem export_import_restores sc db x db0 clock now :
  db_ok db -> db_ok db0 -> export_environment sc db = Ok x -> now_micros clock = Ok now ->
  exists db1, import_environment TO_Commit clock x (environment_id sc) db0 = (Ok tt, db1)
    /\ sequences db1 !! scope_key sc = Some (default 0 (sequences db !! scope_key sc))
    /\ (forall k, documents db1 !! (scope_key sc, k) = documents db !! (scope_key sc, k))
    /\ (forall k, indexes db1 !! (scope_key sc, k) = indexes db !! (scope_key sc, k))
    /\ (forall k, outbox db1 !! (scope_key sc, k) = outbox db !! (scope_key sc, k))
    /\ (forall k, schedules db1 !! (scope_key sc, k) = restamp now <$> schedules db !! (scope_key sc, k))
    /\ (forall k, operations db1 !! (scope_key sc, k) = None)
    /\ (forall k, consumers db1 !! (scope_key sc, k) = None).
Proof.
  intros Hdb Hdb0 Hx Hn. destruct (export_contents sc db x Hdb Hx) as (Esc & Eseq & Hv & _).
  set (d0 := if bool_decide (is_Some (sequences db0 !! scope_key sc))
             then delete_environment (scope_key sc) db0 else db0).
  assert (db_ok d0 /\ sequences d0 !! scope_key sc = None) as [Hd0 Hs0].
  { unfold d0. case_bool_decide as Hs; [|by rewrite <- eq_None_not_Some in Hs].
    split; [by apply delete_environment_preserves|apply delete_environment_sequence]. }
  destruct (no_sequence_no_rows d0 (scope_key sc) Hd0 Hs0) as (Zo & _ & Zd & Zi & Zb & Zs & Zc).
  set (d1 := set_sequences (<[scope_key sc := x_commit_sequence x]> (sequences d0)) d0).
  destruct (insert_export_restores sc db x d1 clock now Hdb Hx Hn Zd Zi Zb Zs)
    as (db1 & Hins & Ld & Li & Lo & Ls & Es & Eo & Ec).
  exists db1. split_and!; try done.
  - unfold import_environment. rewrite Esc, bool_decide_eq_false_2 by naive_solver.
    unfold import_environment_inner. rewrite Hv, Esc. cbn [run_txn negb]. rewrite andb_false_r. fold d0.
    unfold nonnegative_i64. rewrite (proj2 (Z.leb_le _ _)).
    + cbn [rbind]. unfold tbind, insert_sequence. rewrite Hs0. cbn [rbind]. fold d1. by rewrite Hins.
    + rewrite Eseq. destruct (sequences db !! scope_key sc) eqn:El; cbn; [|done].
      pose proof (inv_sequences _ Hdb _ _ El) as Hb. cbn beta in Hb. unfold Datatypes.id. lia.
  - rewrite Es. unfold d1. cbn [sequences set_sequences]. by rewrite lookup_insert_eq, Eseq.
  - by rewrite Eo.
  - by rewrite Ec.
Qed.
End restore.

Lemma export_import_restores_witness :
  match export_environment sample_scope demo_db with
  | Ok x => exists db1, import_environment TO_Commit (Some 80) x (environment_id sample_scope) empty_db = (Ok tt, db1)
      /\ sequences db1 !! scope_key sample_scope = Some 1
  | Err _ => False
  end.
Proof.
  destruct (export_environment sample_scope demo_db) as [x|] eqn:Hx; [|vm_compute in Hx; discriminate].
  destruct (export_import_restores sample_scope demo_db x empty_db (Some 80) 80 demo_db_ok db_ok_empty Hx eq_refl)
    as (db1 & H & Hs & _).
  exists db1. split; [exact H|]. rewrite Hs. vm_compute. reflexivity.
Defined.
