(* ===== verification/SqliteSchedule.v ===== *)
(** * Scheduled invocations of the SQLite adapter

    The life of a scheduled invocation as a state machine on its row, and what
    [claim_due_scheduled], [complete_scheduled] and [cancel_scheduled] of
    runku-data-sqlite/src/adapter.rs do: which rows a claim takes, that a lease excludes other
    workers until it expires, that completion is fenced by owner and generation, and that terminal
    states are final. *)

From Stdlib Require Import Strings.Byte ZArith Lia.
From stdpp Require Import prelude strings gmap sorting list relations.
From S2P Require Import Prelude Ulid Value StoredValue IndexKey Core StoreModel Batch Order Sql SqliteStore.
From S2P Require Import SqliteCommit SqliteInvariant SqliteExport.

(** ** The state machine of a row *)

Definition cancelled_row (now : Z) (row : ScheduleRow) : ScheduleRow :=
  mkScheduleRow (s_pinned_code row) (s_function row) (s_args row) (s_execute_at row)
    (text "cancelled") (s_attempts row) (s_lease_generation row) (s_lease_owner row)
    (s_lease_until row) (s_idempotency_key row) (s_last_error row) (s_commit_sequence row)
    (s_created_at row) now.

Inductive row_step : ScheduleRow -> ScheduleRow -> Prop :=
| row_claim worker now until row :
    schedule_due now row = true -> row_step row (claimed_row worker now until row)
| row_complete completion now row :
    s_status row = text "running" -> row_step row (completed_row completion now row)
| row_cancel now row :
    s_status row = text "pending" -> row_step row (cancelled_row now row).

Definition terminal (row : ScheduleRow) : Prop :=
  s_status row = text "succeeded" \/ s_status row = text "failed" \/ s_status row = text "cancelled".

(** What every step keeps: the invocation itself; the lease generation never goes back. *)
Record row_evolves (row row' : ScheduleRow) : Prop := {
  re_code : s_pinned_code row' = s_pinned_code row;
  re_function : s_function row' = s_function row;
  re_args : s_args row' = s_args row;
  re_idempotency : s_idempotency_key row' = s_idempotency_key row;
  re_sequence : s_commit_sequence row' = s_commit_sequence row;
  re_generation : s_lease_generation row <= s_lease_generation row';
  re_attempts : s_attempts row <= s_attempts row';
  re_terminal : terminal row -> row' = row
}.

#[export] Instance row_evolves_preorder : PreOrder row_evolves.
Proof.
  split.
  - intros row. by split.
  - intros x y z [] []. split; try congruence; try lia.
    intros Ht. specialize (re_terminal0 Ht) as ->. auto.
Qed.

Lemma schedule_due_status now row : schedule_due now row = true ->
  s_status row = text "pending" \/ s_status row = text "running".
Proof.
  unfold schedule_due. rewrite andb_true_iff, orb_true_iff, andb_true_iff, !bool_decide_eq_true. tauto.
Qed.

Lemma not_terminal row : s_status row = text "pending" \/ s_status row = text "running" -> ~ terminal row.
Proof. unfold terminal. intros [-> | ->] [? | [? | ?]]; discriminate. Qed.

Lemma row_step_evolves row row' : row_step row row' -> row_evolves row row'.
Proof.
  destruct 1 as [w now until row Hd|c now row Hr|now row Hp].
  - apply schedule_due_status, not_terminal in Hd. split; cbn; try done; lia.
  - pose proof (not_terminal row (or_intror Hr)). destruct c; split; cbn; done || lia.
  - pose proof (not_terminal row (or_introl Hp)). split; cbn; done || lia.
Qed.

Section schedule_ops.
Context {UL : UlidLib} {ULL : UlidLaws}.

(** ** Claims *)

Definition schedule_entry : Type := (skey * bytes) * ScheduleRow.

(** A due row of an Environment. *)
Definition due_entry (sk : skey) (now : Z) (db : Db) (r : schedule_entry) : Prop :=
  fst (fst r) = sk /\ schedules db !! fst r = Some (snd r) /\ schedule_due now (snd r) = true.

Lemma due_schedules_query sk now db n :
  limit_query due_order (due_entry sk now db) n (take n (due_schedules sk now db)).
Proof.
  apply take_order_by; [apply _|apply NoDup_filter, NoDup_map_to_list|].
  intros [k row]. rewrite list_elem_of_filter, elem_of_map_to_list. unfold due_entry. cbn. tauto.
Qed.

(** The loop over distinct due identifiers claims each of them. *)
Lemma claim_loop_Ok sk w now until ids db recs db' : NoDup ids ->
  teach (claim_one sk w now until) ids db = Ok (recs, db') ->
  Forall2 (fun id rec => exists row, schedules db !! (sk, id) = Some row
    /\ decode_schedule_row id (claimed_row w now until row) = Ok rec
    /\ schedules db' !! (sk, id) = Some (claimed_row w now until row)) ids recs
  /\ (forall k, (forall id, id ∈ ids -> k <> (sk, id)) -> schedules db' !! k = schedules db !! k)
  /\ db' = set_schedules (schedules db') db.
Proof.
  revert db recs; induction ids as [|id ids IH]; intros db recs Hnd H.
  { injection H as <- <-. split; [constructor|]. split; [done|by destruct db]. }
  apply NoDup_cons in Hnd as [Hid Hnd].
  apply teach_cons_Ok in H as (rec & db1 & recs' & db2 & H1 & H2 & [= -> ->]).
  apply claim_one_Ok in H1 as (row & El & _ & Hdec & ->).
  apply IH in H2 as (Hall & Hframe & Edb); [|done]. cbn [schedules set_schedules] in *. split_and!.
  - constructor.
    + exists row. split_and!; [done|done|]. rewrite Hframe, lookup_insert_eq by congruence. done.
    + eapply (Forall2_with (fun i => i ∈ ids)); [by intros ? ?%list_elem_of_In|exact Hall|].
      cbn. intros id' rec' Hin (row' & El' & ? & ?). exists row'.
      rewrite lookup_insert_ne in El' by congruence. done.
  - intros k Hk. rewrite Hframe by (intros i Hi; apply Hk; by right).
    apply lookup_insert_ne. intros <-. by apply (Hk id); [left|].
  - rewrite Edb. done.
Qed.

(** What the claim returns for a row it found. *)
Definition claimed_record (w : WorkerId) (until : Z) (r : ScheduledInvocationRecord)
  : ScheduledInvocationRecord :=
  mkScheduledInvocationRecord (si_id r) (si_pinned_code r) (si_function r) (si_args r)
    (si_execute_at r) SS_Running (si_attempts r + 1) (si_lease_generation r + 1) (Some w)
    (Some until) (si_idempotency_key r) (si_last_error_code r) (si_commit_sequence r).

Lemma decode_claimed id row rec w now until : decode_schedule_row id row = Ok rec -> id_ok w ->
  s_attempts row + 1 <= u32_max -> s_lease_generation row + 1 <= i64_max ->
  decode_schedule_row id (claimed_row (id_to_string w) now until row) = Ok (claimed_record w until rec).
Proof.
  unfold decode_schedule_row, claimed_row.
  cbn [s_pinned_code s_function s_args s_execute_at s_status s_attempts s_lease_generation
    s_lease_owner s_lease_until s_idempotency_key s_last_error s_commit_sequence opt_map].
  intros H Hw Ha Hg. rewrite parse_id_render by done. cbn [rbind].
  apply rbind_Ok in H as (owner & _ & H).
  destruct (parse_id _ id) as [i|]; [|done]. cbn [rbind] in H |- *.
  destruct (map_err _ (PinnedCode_from_str _)) as [p|]; [|done]. cbn [rbind] in H |- *.
  destruct (map_err _ (FunctionName_from_str _)) as [f|]; [|done]. cbn [rbind] in H |- *.
  destruct (decode_value _) as [v|]; [|done]. cbn [rbind] in H |- *.
  apply rbind_Ok in H as (st & _ & H).
  change (parse_status (text "running")) with (@Ok StoreError _ SS_Running). cbn [rbind].
  apply rbind_Ok in H as (a & [-> Ha0]%positive_or_zero_u32_Ok & H).
  apply rbind_Ok in H as (g & [-> Hg0]%positive_or_zero_u64_Ok & H).
  rewrite (proj2 (positive_or_zero_u32_Ok _ (s_attempts row + 1))) by (split; [done|lia]). cbn [rbind].
  rewrite (proj2 (positive_or_zero_u64_Ok _ (s_lease_generation row + 1)))
    by (unfold u64_max, i64_max in *; split; [done|lia]). cbn [rbind].
  destruct (positive_u64 _); [|done]. cbn [rbind] in H |- *. by injection H as <-.
Qed.

Lemma claim_due_body_Ok sk w now until limit db recs db' :
  claim_due_body sk w now until limit db = Ok (recs, db') ->
  let rows := take (Z.to_nat limit) (due_schedules sk now db) in
  Forall2 (fun r rec => decode_schedule_row (snd (fst r)) (claimed_row w now until (snd r)) = Ok rec)
    rows recs
  /\ (forall r, r ∈ rows -> schedules db' !! fst r = Some (claimed_row w now until (snd r)))
  /\ (forall k, k ∉ map fst rows -> schedules db' !! k = schedules db !! k)
  /\ db' = set_schedules (schedules db') db.
Proof.
  intros H rows. unfold claim_due_body in H. apply tbind_Ok in H as (ids & db1 & [= <- <-] & H).
  fold rows in H. destruct (due_schedules_query sk now db (Z.to_nat limit)) as [Hnd _ Hin _ _].
  fold rows in Hnd, Hin.
  assert (forall r, r ∈ rows -> fst r = (sk, snd (fst r)) /\ schedules db !! fst r = Some (snd r)) as Hr.
  { intros [[sk' id] row] Hrow. destruct (Hin _ Hrow) as (E & El & _). cbn in E. by subst. }
  apply claim_loop_Ok in H as (Hall & Hframe & Edb).
  2:{ apply (NoDup_rendered (fun r => r)); [by rewrite map_id|]. intros x y Hx Hy E.
      destruct (Hr x Hx) as [Ex Lx], (Hr y Hy) as [Ey Ly], x as [kx rx], y as [ky ry]. cbn in *.
      rewrite E in Ex. congruence. }
  apply Forall2_fmap_l in Hall. split_and!; [| | |done].
  - eapply (Forall2_with (fun r => r ∈ rows)); [by intros ? ?%list_elem_of_In|exact Hall|]. cbn.
    intros r rec Hrow (row & El & Hd & _). destruct (Hr r Hrow) as [E El'].
    rewrite <- E, El' in El. by injection El as ->.
  - intros r Hrow. destruct (Hr r Hrow) as [E El].
    apply list_elem_of_lookup in Hrow as [i Hi].
    destruct (Forall2_lookup_l _ _ _ _ _ Hall Hi) as (rec & _ & row & El' & _ & Hn).
    rewrite <- E in El', Hn. rewrite El in El'. by injection El' as ->.
  - intros k Hk. apply Hframe. intros id (r & <- & Hrow)%list_elem_of_In%in_map_iff ->.
    apply list_elem_of_In in Hrow. destruct (Hr r Hrow) as [E _]. rewrite <- E in Hk.
    apply Hk, list_elem_of_In, in_map. by apply list_elem_of_In.
Qed.

(** A claim of rows below the counter bounds succeeds. *)
Definition claimable (id : bytes) (row : ScheduleRow) : Prop :=
  is_ok (decode_schedule_row id row) = true /\ s_attempts row + 1 <= u32_max
  /\ s_lease_generation row + 1 <= i64_max.

Lemma claim_one_progress sk (w : WorkerId) now until id db row : id_ok w ->
  schedules db !! (sk, id) = Some row -> claimable id row ->
  exists rec, claim_one sk (id_to_string w) now until id db
    = Ok (rec, set_schedules (<[(sk, id) := claimed_row (id_to_string w) now until row]> (schedules db)) db).
Proof.
  intros Hw El (Hd & Ha & Hg). destruct (decode_schedule_row id row) as [rec|] eqn:Hdec; [|done].
  exists (claimed_record w until rec). unfold claim_one, tbind, tread, tlift, fetch_schedule_row. rewrite El.
  rewrite (proj2 (sql_succ_Ok _ (s_attempts row + 1)))
    by (unfold u32_max, i64_max in *; split; [done|lia]). cbn [rbind].
  rewrite (proj2 (sql_succ_Ok _ (s_lease_generation row + 1))) by done. cbn [rbind].
  cbn [schedules set_schedules]. rewrite lookup_insert_eq. cbn [ok_or rbind].
  fold (claimed_row (id_to_string w) now until row). by rewrite (decode_claimed id row rec).
Qed.

Lemma claim_loop_progress sk (w : WorkerId) now until ids db : id_ok w -> NoDup ids ->
  (forall id, id ∈ ids -> exists row, schedules db !! (sk, id) = Some row /\ claimable id row) ->
  exists recs db', teach (claim_one sk (id_to_string w) now until) ids db = Ok (recs, db').
Proof.
  intros Hw. revert db; induction ids as [|id ids IH]; intros db Hnd Hrows; [by do 2 eexists|].
  apply NoDup_cons in Hnd as [Hid Hnd]. destruct (Hrows id) as (row & El & Hc); [left|].
  destruct (claim_one_progress sk w now until id db row Hw El Hc) as [rec Hrec].
  edestruct IH as (recs & db' & Hrest); [done| |exists (rec :: recs), db'; apply teach_cons_Ok; eauto 10].
  intros id' Hid'. destruct (Hrows id') as (row' & El' & Hc'); [by right|]. exists row'.
  cbn [schedules set_schedules]. rewrite lookup_insert_ne by congruence. done.
Qed.

Lemma claim_due_progress sk (w : WorkerId) now until limit db : id_ok w -> db_ok db ->
  (forall r, due_entry sk now db r -> s_attempts (snd r) + 1 <= u32_max
     /\ s_lease_generation (snd r) + 1 <= i64_max) ->
  exists recs db', claim_due_body sk (id_to_string w) now until limit db = Ok (recs, db').
Proof.
  intros Hw Hdb Hb. destruct (due_schedules_query sk now db (Z.to_nat limit)) as [Hnd _ Hin _ _].
  unfold claim_due_body, tbind, tread. cbn [rbind]. apply claim_loop_progress; [done|..].
  - apply (NoDup_rendered (fun r => r)); [by rewrite map_id|].
    intros [[sx x] rx] [[sy y] ry] (Ex & Lx & _)%Hin (Ey & Ly & _)%Hin E. cbn in *. subst. congruence.
  - intros id (r & <- & Hr%list_elem_of_In%Hin)%list_elem_of_In%in_map_iff.
    destruct (Hb r Hr) as [Ha Hg]. destruct r as [[sk' id'] row], Hr as (E & El & _). cbn in *. subst sk'.
    exists row. split; [done|]. split; [|done]. by apply (inv_schedules _ Hdb) in El as (_ & _ & ? & _).
Qed.

(** A claim whose transaction commits. *)
Lemma claim_due_commit sc w now until limit db :
  db_ok db -> id_ok w -> 0 < limit <= 100 -> now < until ->
  (forall r, due_entry (scope_key sc) now db r -> s_attempts (snd r) + 1 <= u32_max
     /\ s_lease_generation (snd r) + 1 <= i64_max) ->
  exists rows recs db',
    claim_due_scheduled TO_Commit sc w now until limit db = (Ok recs, db')
    /\ limit_query due_order (due_entry (scope_key sc) now db) (Z.to_nat limit) rows
    /\ Forall2 (fun r rec => exists before, decode_schedule_row (snd (fst r)) (snd r) = Ok before
         /\ rec = claimed_record w until before
         /\ schedules db' !! fst r = Some (claimed_row (id_to_string w) now until (snd r))) rows recs
    /\ (forall k, k ∉ map fst rows -> schedules db' !! k = schedules db !! k)
    /\ db' = set_schedules (schedules db') db.
Proof.
  intros Hdb Hw Hl Hnu Hb.
  destruct (claim_due_progress (scope_key sc) w now until limit db Hw Hdb Hb) as (recs & db' & H).
  exists (take (Z.to_nat limit) (due_schedules (scope_key sc) now db)), recs, db'.
  pose proof (claim_due_body_Ok _ _ _ _ _ _ _ _ H) as (Hall & Hset & Hframe & Edb).
  pose proof (due_schedules_query (scope_key sc) now db (Z.to_nat limit)) as Hq.
  split_and!; [|done| |done|done].
  - unfold claim_due_scheduled. destruct (Z.eqb_spec limit 0), (Z.ltb_spec 100 limit),
      (Z.leb_spec until now); try lia. cbn [orb run_txn]. by rewrite H.
  - eapply (Forall2_with (fun r => r ∈ take _ _)); [by intros ? ?%list_elem_of_In|exact Hall|]. cbn beta.
    intros r rec Hr Hdec. pose proof (lq_sound _ _ _ _ Hq r Hr) as Hdue.
    destruct (Hb r Hdue) as [Ha Hg]. destruct Hdue as (_ & El & _).
    pose proof (inv_schedules _ Hdb _ _ El) as (_ & _ & Hok & _).
    destruct (decode_schedule_row (snd (fst r)) (snd r)) as [before|] eqn:Hbef; [|done].
    exists before. rewrite (decode_claimed _ _ before) in Hdec by done. injection Hdec as <-. auto.
Qed.

(** A claim of due invocations succeeds and takes exactly the first [limit] rows of the
    Environment that are pending and due, or whose lease has expired, in the order of execution
    time and identifier.  It returns each of them as [Running], owned by the worker until
    [lease_until], with one more attempt and the next lease generation, stores just that, and
    changes nothing else in the database. *)
Theorem claim_due_spec sc w now until limit db :
  db_ok db -> id_ok w -> 0 < limit <= 100 -> now < until ->
  (forall r, due_entry (scope_key sc) now db r -> s_attempts (snd r) + 1 <= u32_max
     /\ s_lease_generation (snd r) + 1 <= i64_max) ->
  exists rows recs db',
    claim_due_scheduled TO_Commit sc w now until limit db = (Ok recs, db')
    /\ limit_query due_order (due_entry (scope_key sc) now db) (Z.to_nat limit) rows
    /\ Forall2 (fun r rec => exists before, decode_schedule_row (snd (fst r)) (snd r) = Ok before
         /\ rec = claimed_record w until before
         /\ schedules db' !! fst r = Some (claimed_row (id_to_string w) now until (snd r))) rows recs
    /\ (forall k, k ∉ map fst rows -> schedules db' !! k = schedules db !! k)
    /\ db' = set_schedules (schedules db') db.
Proof. apply claim_due_commit. Qed.

(** ** Completion and cancellation *)

(** The lease a worker must hold to complete an invocation. *)
Definition holds_lease (w : WorkerId) (g : Z) (row : ScheduleRow) : Prop :=
  s_status row = text "running" /\ s_lease_owner row = Some (id_to_string w) /\ s_lease_generation row = g.

#[export] Instance holds_lease_dec w g row : Decision (holds_lease w g row).
Proof. apply and_dec; [apply _|]. apply and_dec; apply _. Defined.

Lemma complete_update_Ok sk id w g c now db n db' :
  complete_schedule_update sk id (id_to_string w) g c now db = Ok (n, db') ->
  (exists row, schedules db !! (sk, id) = Some row /\ holds_lease w g row /\ n = 1
     /\ db' = set_schedules (<[(sk, id) := completed_row c now row]> (schedules db)) db)
  \/ ((forall row, schedules db !! (sk, id) = Some row -> ~ holds_lease w g row) /\ n = 0 /\ db' = db).
Proof.
  unfold complete_schedule_update, holds_lease.
  destruct (schedules db !! (sk, id)) as [row|]; [|intros [= <- <-]; right; naive_solver].
  case_bool_decide as Hs; [|intros [= <- <-]; right; naive_solver].
  case_bool_decide as Ho; [|intros [= <- <-]; right; naive_solver].
  destruct (Z.eqb_spec (s_lease_generation row) g); cbn [andb];
    [intros [= <- <-]; left; naive_solver|intros [= <- <-]; right; naive_solver].
Qed.

Lemma complete_scheduled_cases o clock sc id w g c db r db' :
  complete_scheduled o clock sc id w g c db = (r, db') ->
  db' = db \/ exists row now, schedules db !! (scope_key sc, id_to_string id) = Some row
    /\ holds_lease w g row
    /\ db' = set_schedules (<[(scope_key sc, id_to_string id) := completed_row c now row]> (schedules db)) db.
Proof.
  unfold complete_scheduled.
  destruct (rbind (validate_completion c) _) as [[g' now]|e] eqn:Ev; [|intros [= <- <-]; by left].
  apply rbind_Ok in Ev as (u & _ & Ev). apply rbind_Ok in Ev as (g1 & (-> & _)%positive_i64_Ok & Ev).
  apply rbind_Ok in Ev as (n1 & _ & [= <- <-]).
  intros [(a & -> & H)|[(e & _ & ->)|(a & _ & H)]]%run_txn_cases; [|by left|];
    apply tbind_Ok in H as (n & db1 & [(row & El & Hh & -> & ->)|(_ & -> & ->)]%complete_update_Ok & H);
    try done; injection H as _ <-; right; by exists row, n1.
Qed.

Lemma complete_not_held clock sc id w g c db now :
  validate_completion c = Ok tt -> 0 < g <= i64_max -> now_micros clock = Ok now ->
  (forall row, schedules db !! (scope_key sc, id_to_string id) = Some row -> ~ holds_lease w g row) ->
  complete_scheduled TO_Commit clock sc id w g c db = (Err SE_LeaseLost, db).
Proof.
  intros Hc Hg Hn Hno. unfold complete_scheduled. rewrite Hc. cbn [rbind].
  rewrite (proj2 (positive_i64_Ok g g)) by (split; [done|lia]). cbn [rbind]. rewrite Hn. cbn [rbind run_txn].
  unfold tbind. destruct (complete_schedule_update _ _ _ _ _ _ _) as [[n db']|e] eqn:Hu; cbn [rbind].
  - apply complete_update_Ok in Hu as [(row & El & Hh & _)|(_ & -> & ->)]; [by destruct (Hno row)|done].
  - unfold complete_schedule_update in Hu. destruct (schedules db !! _); [|done]. by destruct (_ && _ && _).
Qed.

Lemma complete_held clock sc id w g c db now row :
  validate_completion c = Ok tt -> 0 < g <= i64_max -> now_micros clock = Ok now ->
  schedules db !! (scope_key sc, id_to_string id) = Some row -> holds_lease w g row ->
  complete_scheduled TO_Commit clock sc id w g c db =
    (Ok tt, set_schedules (<[(scope_key sc, id_to_string id) := completed_row c now row]> (schedules db)) db).
Proof.
  intros Hc Hg Hn El (Hs & Ho & Hgen). unfold complete_scheduled. rewrite Hc. cbn [rbind].
  rewrite (proj2 (positive_i64_Ok g g)) by (split; [done|lia]). cbn [rbind]. rewrite Hn. cbn [rbind run_txn].
  unfold tbind, complete_schedule_update. rewrite El, Ho, Hs, !bool_decide_eq_true_2 by done.
  by rewrite Hgen, Z.eqb_refl.
Qed.

(** The outcome of a completion in the columns of the invocation. *)
Record outcome_stored (c : ScheduleCompletion) (now : Z) (row row' : ScheduleRow) : Prop := {
  os_status : s_status row' =
    text match c with SC_Succeeded => "succeeded" | SC_Retry _ _ => "pending" | SC_Failed _ => "failed" end;
  os_execute_at : s_execute_at row' = match c with SC_Retry at_ _ => at_ | _ => s_execute_at row end;
  os_error : s_last_error row' = match c with SC_Succeeded => None | SC_Retry _ code | SC_Failed code => Some code end;
  os_lease : s_lease_owner row' = None /\ s_lease_until row' = None /\ s_updated_at row' = now;
  os_counters : s_attempts row' = s_attempts row /\ s_lease_generation row' = s_lease_generation row;
  os_identity : s_pinned_code row' = s_pinned_code row /\ s_function row' = s_function row /\ s_args row' = s_args row
    /\ s_idempotency_key row' = s_idempotency_key row /\ s_commit_sequence row' = s_commit_sequence row
    /\ s_created_at row' = s_created_at row
}.

Lemma completed_row_stored c now row : outcome_stored c now row (completed_row c now row).
Proof. by destruct c. Qed.

(** C18: Completion is fenced.  A completion succeeds exactly when the invocation is running under a
    lease of this worker and this generation.  Then the stored status is succeeded, failed, or, for a
    retry, pending again with the retry's time as its time of execution; the error code of a failure or
    retry is stored and that of a success cleared; the lease is released, attempts, lease generation
    and everything the invocation was scheduled with are kept, and no other row changes; and a second
    completion with the same lease is refused.  In every other case it answers [LeaseLost] and leaves
    the database as it was. *)
Theorem completion_fenced clock now sc id w g c c' db :
  validate_completion c = Ok tt -> validate_completion c' = Ok tt -> 0 < g <= i64_max ->
  now_micros clock = Ok now ->
  match schedules db !! (scope_key sc, id_to_string id) with
  | Some row =>
      if decide (holds_lease w g row)
      then exists row' db',
        complete_scheduled TO_Commit clock sc id w g c db = (Ok tt, db')
        /\ db' = set_schedules (<[(scope_key sc, id_to_string id) := row']> (schedules db)) db
        /\ outcome_stored c now row row'
        /\ complete_scheduled TO_Commit clock sc id w g c' db' = (Err SE_LeaseLost, db')
      else complete_scheduled TO_Commit clock sc id w g c db = (Err SE_LeaseLost, db)
  | None => complete_scheduled TO_Commit clock sc id w g c db = (Err SE_LeaseLost, db)
  end.
Proof.
  intros Hc Hc' Hg Hn. destruct (schedules db !! _) as [row|] eqn:El.
  2:{ apply (complete_not_held _ _ _ _ _ _ _ now); try done. intros row. by rewrite El. }
  case_decide as Hh.
  2:{ apply (complete_not_held _ _ _ _ _ _ _ now); try done. intros row'. rewrite El. by intros [= <-]. }
  exists (completed_row c now row). eexists. split; [by apply complete_held|]. split; [done|].
  split; [apply completed_row_stored|]. apply (complete_not_held _ _ _ _ _ _ _ now); try done. cbn [schedules set_schedules].
  rewrite lookup_insert_eq. intros row' [= <-] (Hs & Ho & _). by destruct c.
Qed.

(** A claim never takes an invocation that another worker holds under an unexpired lease, one
    that is not yet due, or one that has ended, whatever happens to the claim's transaction: its row
    is untouched and no returned record carries its identifier. *)
Theorem claim_respects_leases o sc w now until limit db id row :
  id_ok id -> schedules db !! (scope_key sc, id_to_string id) = Some row ->
  (s_status row = text "running" /\ (exists t, s_lease_until row = Some t /\ now < t))
    \/ now < s_execute_at row \/ terminal row ->
  schedules (snd (claim_due_scheduled o sc w now until limit db)) !! (scope_key sc, id_to_string id)
    = Some row
  /\ (forall recs, fst (claim_due_scheduled o sc w now until limit db) = Ok recs ->
        forall rec, rec ∈ recs -> si_id rec <> id).
Proof.
  intros Hid El Hnot. assert (schedule_due now row = false) as Hnd.
  { apply not_true_iff_false. intros Hdue. pose proof (schedule_due_status _ _ Hdue) as Hst.
    unfold schedule_due in Hdue. apply andb_true_iff in Hdue as [Hat%Z.leb_le Hdue].
    destruct Hnot as [(Hr & t & Ht & Hlt)|[Hlt|Hter]]; [|lia|by apply not_terminal in Hst].
    rewrite Hr, Ht in Hdue. cbn in Hdue. apply Z.leb_le in Hdue. lia. }
  unfold claim_due_scheduled. destruct (_ || _ || _); [done|].
  destruct (run_txn _ _ _) as [res db'] eqn:E. cbn [fst snd].
  assert (forall recs db', claim_due_body (scope_key sc) (id_to_string w) now until limit db = Ok (recs, db') ->
    schedules db' !! (scope_key sc, id_to_string id) = Some row
    /\ forall rec, rec ∈ recs -> si_id rec <> id) as Hbody.
  { clear E. intros recs db1 (Hall & _ & Hframe & _)%claim_due_body_Ok.
    assert (forall r, r ∈ take (Z.to_nat limit) (due_schedules (scope_key sc) now db) ->
              fst (fst r) = scope_key sc /\ snd (fst r) <> id_to_string id) as Hne.
    { intros [[sk' id'] row'] Hr. apply (lq_sound _ _ _ _ (due_schedules_query _ _ _ _)) in Hr
        as (E1 & E2 & E3). cbn [fst snd] in *. split; [done|]. intros ->. subst sk'. congruence. }
    split.
    - rewrite Hframe; [done|]. intros (r & Ek & Hr)%list_elem_of_In%in_map_iff.
      apply list_elem_of_In in Hr. destruct (Hne r Hr) as [_ Hn]. by rewrite Ek in Hn.
    - intros rec Hrec Erec. apply list_elem_of_lookup in Hrec as [i Hi].
      destruct (Forall2_lookup_r _ _ _ _ _ Hall Hi) as (r & Hr & Hdec).
      apply list_elem_of_lookup_2 in Hr. destruct (Hne r Hr) as [_ Hn]. apply Hn.
      unfold decode_schedule_row in Hdec. apply rbind_Ok in Hdec as (o1 & _ & Hdec).
      apply rbind_Ok in Hdec as (i1 & [_ Hp]%parse_id_Ok & Hdec). rewrite Hp.
      do 7 (apply rbind_Ok in Hdec as (? & _ & Hdec)). injection Hdec as <-. by rewrite <- Erec. }
  apply run_txn_cases in E as [(a & -> & H)|[(e & -> & ->)|(a & -> & H)]]; [|done|].
  - apply Hbody in H as [? Hrec]. split; [done|]. by intros recs [= <-].
  - apply Hbody in H as [? _]. done.
Qed.

(** Cancellation answers for every state of the invocation: a pending one becomes cancelled, so
    that no claim takes it any more, and a running or ended one is reported and left alone, as is the
    whole database; an unknown identifier is [NotFound]. *)
Theorem cancel_spec clock now sc id db :
  db_ok db -> now_micros clock = Ok now ->
  match schedules db !! (scope_key sc, id_to_string id) with
  | None => cancel_scheduled TO_Commit clock sc id db = (Err SE_NotFound, db)
  | Some row => exists st, parse_status (s_status row) = Ok st /\
      match st with
      | SS_Pending => cancel_scheduled TO_Commit clock sc id db =
          (Ok CR_Cancelled, set_schedules
             (<[(scope_key sc, id_to_string id) := cancelled_row now row]> (schedules db)) db)
          /\ terminal (cancelled_row now row)
      | SS_Running => cancel_scheduled TO_Commit clock sc id db = (Ok CR_Running, db)
      | SS_Cancelled => cancel_scheduled TO_Commit clock sc id db = (Ok CR_AlreadyCancelled, db)
      | SS_Succeeded | SS_Failed =>
          cancel_scheduled TO_Commit clock sc id db = (Ok CR_Terminal, db) /\ terminal row
      end
  end.
Proof.
  intros Hdb Hn. unfold cancel_scheduled, run_txn, cancel_scheduled_body. rewrite Hn. cbn [rbind].
  destruct (schedules db !! _) as [row|] eqn:El; [|done].
  pose proof (inv_schedules _ Hdb _ _ El) as (_ & _ & Hok & _). apply decode_schedule_is_ok in Hok.
  destruct_and? Hok. destruct (parse_status (s_status row)) as [st|] eqn:Est; [|done].
  exists st. split; [done|]. apply parse_status_Ok in Est. unfold terminal. rewrite Est.
  destruct st; cbn; naive_solver.
Qed.

(** ** Rows only move along the state machine *)

(** Every row of [db] is still there in [db'], some steps of the state machine later. *)
Definition schedules_move (db db' : Db) : Prop :=
  forall k row, schedules db !! k = Some row ->
    exists row', schedules db' !! k = Some row' /\ rtc row_step row row'.

#[export] Instance schedules_move_preorder : PreOrder schedules_move.
Proof.
  split.
  - intros db k row Hl. by exists row.
  - intros x y z Hxy Hyz k row Hl. destruct (Hxy k row Hl) as (row' & Hl' & H1).
    destruct (Hyz k row' Hl') as (row'' & Hl'' & H2). exists row''. split; [done|]. by etrans.
Qed.

Lemma schedules_move_eq db db' : schedules db' = schedules db -> schedules_move db db'.
Proof. intros E k row. rewrite E. by exists row. Qed.

Lemma schedules_move_insert db k row row' :
  schedules db !! k = Some row -> row_step row row' ->
  schedules_move db (set_schedules (<[k := row']> (schedules db)) db).
Proof.
  intros Hl Hs k' r Hr. cbn [schedules set_schedules]. destruct (decide (k = k')) as [<-|Hne].
  - rewrite Hl in Hr. injection Hr as <-. exists row'. rewrite lookup_insert_eq. split; [done|].
    by apply rtc_once.
  - exists r. by rewrite lookup_insert_ne.
Qed.

Lemma claim_due_moves o sc w now until limit db :
  schedules_move db (snd (claim_due_scheduled o sc w now until limit db)).
Proof.
  unfold claim_due_scheduled. destruct (_ || _ || _); [done|]. apply run_txn_inv; [done|].
  intros recs db' (_ & Hset & Hframe & _)%claim_due_body_Ok k row Hl.
  destruct (decide (k ∈ map fst (take (Z.to_nat limit) (due_schedules (scope_key sc) now db)))) as [Hk|Hk].
  - apply list_elem_of_In, in_map_iff in Hk as (r & <- & Hr%list_elem_of_In).
    exists (claimed_row (id_to_string w) now until row).
    apply (lq_sound _ _ _ _ (due_schedules_query _ _ _ _)) in Hr as Hdue.
    destruct Hdue as (_ & El & Hdue). rewrite Hl in El. injection El as ->.
    split; [by apply Hset|]. by apply rtc_once, row_claim.
  - exists row. by rewrite Hframe.
Qed.

Lemma complete_moves o clock sc id w g c db :
  schedules_move db (snd (complete_scheduled o clock sc id w g c db)).
Proof.
  destruct (complete_scheduled _ _ _ _ _ _ _ _) as [r db'] eqn:E. cbn [snd].
  apply complete_scheduled_cases in E as [->|(row & now & El & (Hs & _) & ->)]; [done|].
  eapply schedules_move_insert; [done|by constructor].
Qed.

Lemma cancel_body_cases sk id clock db r db' : cancel_scheduled_body sk id clock db = Ok (r, db') ->
  db' = db \/ exists row now, schedules db !! (sk, id) = Some row /\ s_status row = text "pending"
    /\ db' = set_schedules (<[(sk, id) := cancelled_row now row]> (schedules db)) db.
Proof.
  unfold cancel_scheduled_body. intros H. apply rbind_Ok in H as (now & _ & H).
  destruct (schedules db !! _) as [row|] eqn:El; [|done]. case_decide as Hp.
  - injection H as <- <-. right. by exists row, now.
  - apply rbind_Ok in H as (out & _ & [= _ <-]). by left.
Qed.

Lemma cancel_moves o clock sc id db : schedules_move db (snd (cancel_scheduled o clock sc id db)).
Proof.
  unfold cancel_scheduled. apply run_txn_inv; [done|].
  intros r db' [->|(row & now & El & Hp & ->)]%cancel_body_cases; [done|].
  eapply schedules_move_insert; [done|by constructor].
Qed.

Lemma fresh_commit_moves b dg now db r db' : fresh_commit b dg now db r db' -> schedules_move db db'.
Proof.
  intros F k row Hl. exists row. split; [|done].
  destruct (key_cases (fun s => (scope_key (b_scope b), id_to_string (sn_id s))) (b_schedules b) k)
    as [(s & Hs & ->)|Hk].
  - pose proof (fc_schedules _ _ _ _ _ _ F s Hs) as Ht. rewrite Hl in Ht. inversion Ht.
  - by rewrite (fc_schedules_frame _ _ _ _ _ _ F).
Qed.
End schedule_ops.

(** ** Examples on the demonstration database *)

Definition demo_key : skey * bytes :=
  (scope_key sample_scope, id_to_string (from_ulid 9 : ScheduledInvocationId)).

(** The invocation leased by worker 11 until 200, and then again, by worker 12, until 400. *)
Definition demo_leased : Db :=
  snd (claim_due_scheduled TO_Commit sample_scope (from_ulid 11) 150 200 10 demo_db).
Definition demo_released : Db :=
  snd (claim_due_scheduled TO_Commit sample_scope (from_ulid 12) 300 400 10 demo_leased).

Lemma worker_ok n : 0 <= n < 1000 -> id_ok (from_ulid n : WorkerId).
Proof. intros. unfold id_ok, ulid_range. cbn. lia. Qed.

Lemma demo_leased_ok : db_ok demo_leased.
Proof. apply claim_due_preserves, demo_db_ok. Qed.

Lemma claim_due_spec_witness : exists rows recs db',
  claim_due_scheduled TO_Commit sample_scope (from_ulid 11) 150 200 10 demo_db = (Ok recs, db')
  /\ limit_query due_order (due_entry (scope_key sample_scope) 150 demo_db) 10 rows
  /\ length rows = length recs.
Proof.
  destruct (claim_due_spec sample_scope (from_ulid 11) 150 200 10 demo_db) as (rows & recs & db' & H & Hq & Hall & _).
  - exact demo_db_ok.
  - apply worker_ok. lia.
  - lia.
  - lia.
  - intros r (_ & El & _).
    assert (Hall : forallb (fun r => (s_attempts (snd r) =? 0) && (s_lease_generation (snd r) =? 0))
      (map_to_list (schedules demo_db)) = true) by (vm_compute; reflexivity).
    rewrite forallb_forall in Hall. specialize (Hall r).
    rewrite <- list_elem_of_In in Hall. destruct r as [k row]. rewrite elem_of_map_to_list in Hall.
    specialize (Hall El). apply andb_true_iff in Hall as [->%Z.eqb_eq ->%Z.eqb_eq].
    split; discriminate.
  - exists rows, recs, db'. split; [exact H|]. split; [exact Hq|]. exact (Forall2_length _ _ _ Hall).
Defined.

Lemma completion_fenced_witness : exists row' db',
  complete_scheduled TO_Commit (Some 160) sample_scope (from_ulid 9) (from_ulid 11) 1 SC_Succeeded demo_leased
    = (Ok tt, db')
  /\ schedules db' !! demo_key = Some row' /\ s_status row' = text "succeeded"
  /\ complete_scheduled TO_Commit (Some 160) sample_scope (from_ulid 9) (from_ulid 11) 1 SC_Succeeded db'
    = (Err SE_LeaseLost, db').
Proof.
  assert (Hg : 0 < 1 <= i64_max) by (split; [reflexivity|discriminate]).
  assert (Hrow : match schedules demo_leased !! demo_key with
                 | Some row => bool_decide (holds_lease (from_ulid 11) 1 row)
                 | None => false
                 end = true) by (vm_compute; reflexivity).
  pose proof (completion_fenced (Some 160) 160 sample_scope (from_ulid 9) (from_ulid 11) 1 SC_Succeeded
    SC_Succeeded demo_leased eq_refl eq_refl Hg eq_refl) as H.
  change (scope_key sample_scope, id_to_string (from_ulid 9)) with demo_key in H.
  generalize dependent demo_leased. intros d Hrow H.
  destruct (schedules d !! demo_key) as [row|]; [|discriminate].
  apply bool_decide_eq_true in Hrow. rewrite decide_True in H by exact Hrow.
  destruct H as (row' & db' & Ha & Hd & Ho & Hb). exists row', db'. split; [exact Ha|]. split; [|split; [exact (os_status _ _ _ _ Ho)|exact Hb]].
  rewrite Hd. apply lookup_insert_eq.
Defined.

Lemma claim_respects_leases_witness :
  schedules (snd (claim_due_scheduled TO_Commit sample_scope (from_ulid 12) 199 300 10 demo_leased)) !! demo_key
  = schedules demo_leased !! demo_key.
Proof.
  destruct (schedules demo_leased !! demo_key) as [row|] eqn:El; [|vm_compute in El; discriminate].
  apply (claim_respects_leases TO_Commit sample_scope (from_ulid 12) 199 300 10 demo_leased (from_ulid 9) row).
  - split; [discriminate|reflexivity].
  - exact El.
  - left. vm_compute in El. injection El as <-. split; [reflexivity|]. exists 200. split; reflexivity.
Defined.

Lemma cancel_spec_witness :
  fst (cancel_scheduled TO_Commit (Some 60) sample_scope (from_ulid 9) demo_db) = Ok CR_Cancelled.
Proof.
  assert (H := cancel_spec (Some 60) 60 sample_scope (from_ulid 9) demo_db demo_db_ok eq_refl).
  fold demo_key in H. destruct (schedules demo_db !! demo_key) as [row|] eqn:El;
    [|vm_compute in El; discriminate].
  destruct H as (st & Hst & H). vm_compute in El. injection El as <-. vm_compute in Hst. injection Hst as <-.
  destruct H as [H _]. rewrite H. reflexivity.
Defined.
