(* ===== verification/SqliteSystem.v ===== *)
(** * The SQLite store as a transition system

    Every operation of the adapter as a step between databases, with any outcome of its
    transaction; the invariant in every reachable database; the operation journal, which makes
    retried commits idempotent; and the isolation of Environments from each other. *)

From Stdlib Require Import Strings.Byte ZArith Lia.
From stdpp Require Import prelude strings gmap sorting list relations.
From S2P Require Import Prelude Ulid Value StoredValue IndexKey Core StoreModel Batch Order Sql SqliteStore.
From S2P Require Import SqliteCommit SqliteInvariant SqliteReads SqliteOutbox SqliteExport SqliteSchedule.

Section system.
Context {UL : UlidLib}.
Variable sha256 : bytes -> bytes.

(** ** Steps *)

(** The operations of the [LogicalStore] trait on one Environment, with well-typed arguments; the
    environment decides how each transaction ends. *)
Inductive store_step (sc : EnvironmentScope) (db : Db) : Db -> Prop :=
| step_commit o clock b : batch_wf b -> b_scope b = sc ->
    store_step sc db (snd (commit sha256 o clock b db))
| step_claim_outbox o consumer worker now until limit :
    store_step sc db (snd (claim_outbox o sc consumer worker now until limit db))
| step_ack_outbox o clock consumer worker generation through :
    store_step sc db (snd (ack_outbox o clock sc consumer worker generation through db))
| step_claim_due o worker now until limit : id_ok worker ->
    store_step sc db (snd (claim_due_scheduled o sc worker now until limit db))
| step_complete o clock id worker generation completion :
    store_step sc db (snd (complete_scheduled o clock sc id worker generation completion db))
| step_cancel o clock id :
    store_step sc db (snd (cancel_scheduled o clock sc id db)).

(** The local data workflows, which replace or erase an Environment. *)
Inductive admin_step (sc : EnvironmentScope) (db : Db) : Db -> Prop :=
| step_seed o clock x : export_wf x -> x_scope x = sc ->
    admin_step sc db (snd (seed_environment o clock x db))
| step_import o clock x confirmation : export_wf x -> x_scope x = sc ->
    admin_step sc db (snd (import_environment o clock x confirmation db))
| step_reset o confirmation :
    admin_step sc db (snd (reset_environment o sc confirmation db)).

Definition any_step (db db' : Db) : Prop :=
  exists sc, scope_ok sc /\ (store_step sc db db' \/ admin_step sc db db').
Definition reachable : Db -> Prop := rtc any_step empty_db.

(** Steps that keep the Environment [sc]: its own store operations, and anything elsewhere. *)
Definition keeps (sc : EnvironmentScope) (db db' : Db) : Prop :=
  exists sc', scope_ok sc' /\ (store_step sc' db db' \/ (sc' <> sc /\ admin_step sc' db db')).
End system.

Section system_facts.
Context {UL : UlidLib} {ULL : UlidLaws}.
Variable sha256 : bytes -> bytes.

Lemma store_step_ok sc db db' : db_ok db -> store_step sha256 sc db db' -> db_ok db'.
Proof.
  intros Hdb []; [by apply commit_ok|by apply claim_outbox_preserves|by apply ack_outbox_preserves
    |by apply claim_due_preserves|by apply complete_preserves|by apply cancel_preserves].
Qed.

Lemma admin_step_ok sc db db' : db_ok db -> admin_step sc db db' -> db_ok db'.
Proof.
  intros Hdb []; [by apply import_inner_preserves|by apply import_preserves|by apply reset_preserves].
Qed.

Lemma any_step_ok db db' : db_ok db -> any_step sha256 db db' -> db_ok db'.
Proof. intros Hdb (sc & _ & [H|H]); eauto using store_step_ok, admin_step_ok. Qed.

Lemma reachable_ok db : reachable sha256 db -> db_ok db.
Proof.
  unfold reachable. assert (forall x y, rtc (any_step sha256) x y -> db_ok x -> db_ok y) as Hr
    by (induction 1; eauto using any_step_ok).
  eauto using db_ok_empty.
Qed.

(** ** Isolation of Environments *)

(** Two databases hold the same rows of an Environment. *)
Record same_scope (sk : skey) (db db' : Db) : Prop := {
  ss_sequences : sequences db' !! sk = sequences db !! sk;
  ss_operations k : operations db' !! (sk, k) = operations db !! (sk, k);
  ss_results k n : results db' !! (sk, k, n) = results db !! (sk, k, n);
  ss_documents k : documents db' !! (sk, k) = documents db !! (sk, k);
  ss_indexes k : indexes db' !! (sk, k) = indexes db !! (sk, k);
  ss_outbox k : outbox db' !! (sk, k) = outbox db !! (sk, k);
  ss_schedules k : schedules db' !! (sk, k) = schedules db !! (sk, k);
  ss_consumers k : consumers db' !! (sk, k) = consumers db !! (sk, k)
}.

#[export] Instance same_scope_equiv sk : Equivalence (same_scope sk).
Proof.
  split.
  - by intros db.
  - intros x y []. split; intros; by symmetry.
  - intros x y z [] []. split; intros; etrans; eauto.
Qed.

Lemma fresh_commit_isolated sk b dg now db r db' : sk <> scope_key (b_scope b) ->
  fresh_commit b dg now db r db' -> same_scope sk db db'.
Proof.
  intros Hne []. split; intros.
  - by rewrite fc_sequences, lookup_insert_ne.
  - rewrite fc_operations, lookup_insert_ne; [done|]. congruence.
  - apply fc_results_frame. congruence.
  - apply fc_documents_frame. congruence.
  - apply fc_indexes_frame. intros m _. unfold index_row_key.
    destruct (im_identity m) as [[? ?] ?]. congruence.
  - apply fc_outbox_frame. congruence.
  - apply fc_schedules_frame. congruence.
  - by rewrite fc_consumers.
Qed.

Lemma commit_isolated sk o clock b db : sk <> scope_key (b_scope b) -> batch_wf b ->
  same_scope sk db (snd (commit sha256 o clock b db)).
Proof.
  intros Hne W. unfold commit. destruct (digest sha256 b) as [d|] eqn:Hd; [|done].
  apply digest_valid in Hd. apply run_txn_inv; [done|].
  intros r db' [[_ ->]|(now & _ & F)]%apply_commit_cases; [done|by eapply fresh_commit_isolated|done..].
Qed.

Lemma same_scope_consumer sk sk' c row db : sk <> sk' ->
  same_scope sk db (set_consumers (<[(sk', c) := row]> (consumers db)) db).
Proof. intros Hne. split; try done. intros k. cbn. apply lookup_insert_ne. congruence. Qed.

Lemma same_scope_schedule sk sk' c row db : sk <> sk' ->
  same_scope sk db (set_schedules (<[(sk', c) := row]> (schedules db)) db).
Proof. intros Hne. split; try done. intros k. cbn. apply lookup_insert_ne. congruence. Qed.

Lemma claim_outbox_isolated sk o sc c w now until limit db : sk <> scope_key sc ->
  same_scope sk db (snd (claim_outbox o sc c w now until limit db)).
Proof.
  intros Hne. unfold claim_outbox. destruct (_ || _ || _); [done|]. apply run_txn_inv; [done|].
  intros b db' H%claim_outbox_body_Ok. pose proof (oc_sequences _ _ _ _ _ _ _ _ _ H) as Hs.
  rewrite (oc_db _ _ _ _ _ _ _ _ _ H). transitivity (set_sequences (sequences db') db).
  - split; try done. cbn. rewrite Hs. destruct (sequences db !! scope_key sc); [done|].
    by rewrite lookup_insert_ne.
  - by apply (same_scope_consumer sk _ _ _ (set_sequences (sequences db') db)).
Qed.

Lemma ack_outbox_isolated sk o clock sc c w g through db : sk <> scope_key sc ->
  same_scope sk db (snd (ack_outbox o clock sc c w g through db)).
Proof.
  intros Hne. unfold ack_outbox. destruct (_ || _); [done|]. apply run_txn_inv; [done|].
  intros b db' [(row & t & _ & _ & _ & _ & _ & ->)]%ack_outbox_body_Ok. by apply same_scope_consumer.
Qed.

Lemma claim_due_isolated sk o sc w now until limit db : sk <> scope_key sc ->
  same_scope sk db (snd (claim_due_scheduled o sc w now until limit db)).
Proof.
  intros Hne. unfold claim_due_scheduled. destruct (_ || _ || _); [done|]. apply run_txn_inv; [done|].
  intros recs db' (_ & _ & Hframe & ->)%claim_due_body_Ok. split; try done. intros k. cbn.
  apply Hframe. intros (r & E & Hr)%list_elem_of_In%in_map_iff.
  apply list_elem_of_In, (lq_sound _ _ _ _ (due_schedules_query _ _ _ _)) in Hr as (Esk & _).
  rewrite E in Esk. by cbn in Esk.
Qed.

Lemma complete_isolated sk o clock sc id w g c db : sk <> scope_key sc ->
  same_scope sk db (snd (complete_scheduled o clock sc id w g c db)).
Proof.
  intros Hne. destruct (complete_scheduled _ _ _ _ _ _ _ _) as [r db'] eqn:E. cbn [snd].
  apply complete_scheduled_cases in E as [->|(row & now & _ & _ & ->)]; [done|].
  by apply same_scope_schedule.
Qed.

Lemma cancel_isolated sk o clock sc id db : sk <> scope_key sc ->
  same_scope sk db (snd (cancel_scheduled o clock sc id db)).
Proof.
  intros Hne. unfold cancel_scheduled. apply run_txn_inv; [done|].
  intros r db' [->|(row & now & _ & _ & ->)]%cancel_body_cases; [done|by apply same_scope_schedule].
Qed.

Lemma filter_other {V K} `{Countable K} (P : K * V -> Prop) `{!forall x, Decision (P x)} (m : gmap K V) k :
  (forall v, P (k, v)) -> filter P m !! k = m !! k.
Proof.
  intros HP. destruct (m !! k) as [v|] eqn:E.
  - apply map_lookup_filter_Some. auto.
  - apply map_lookup_filter_None. by left.
Qed.

Lemma delete_environment_isolated sk sk' db : sk <> sk' -> same_scope sk db (delete_environment sk' db).
Proof.
  intros Hne. unfold delete_environment. case_decide; [|done].
  split; cbn; [by apply lookup_delete_ne|..]; intros; by apply filter_other.
Qed.

Lemma reset_isolated sk o sc c db : sk <> scope_key sc ->
  same_scope sk db (snd (reset_environment o sc c db)).
Proof.
  intros Hne. unfold reset_environment. destruct (bool_decide _); [done|].
  pose proof (delete_environment_isolated sk (scope_key sc) db Hne).
  destruct o as [|e|e ap]; cbn; [done|done|by destruct (commit_applied e ap)].
Qed.

Lemma import_record_isolated sk sk' now : sk <> sk' ->
  (forall r db u db', import_document sk' r db = Ok (u, db') -> same_scope sk db db')
  /\ (forall e db u db', import_index sk' e db = Ok (u, db') -> same_scope sk db db')
  /\ (forall e db u db', import_outbox sk' e db = Ok (u, db') -> same_scope sk db db')
  /\ (forall r db u db', import_schedule sk' now r db = Ok (u, db') -> same_scope sk db db').
Proof.
  intros Hne. split_and!; intros x db u db' H.
  - rewrite import_document_insert in H. apply insert_row_Ok in H as (row & _ & _ & ->).
    split; try done. intros k. apply lookup_insert_ne. unfold document_row_key. congruence.
  - rewrite import_index_insert in H. apply insert_row_Ok in H as (row & _ & _ & ->).
    split; try done. intros k. apply lookup_insert_ne. unfold index_entry_key. congruence.
  - rewrite import_outbox_insert in H. apply insert_row_Ok in H as (row & _ & _ & ->).
    split; try done. intros k. apply lookup_insert_ne. unfold outbox_record_key. congruence.
  - rewrite import_schedule_insert in H. destruct (_ && _); [done|].
    apply insert_row_Ok in H as (row & _ & _ & ->).
    split; try done. intros k. apply lookup_insert_ne. unfold schedule_record_key. congruence.
Qed.

Lemma insert_export_records_isolated sk clock x db u db' : sk <> scope_key (x_scope x) ->
  insert_export_records clock x db = Ok (u, db') -> same_scope sk db db'.
Proof.
  intros Hne H. unfold insert_export_records in H.
  apply tbind_Ok in H as (u1 & d1 & H1 & H). apply tbind_Ok in H as (u2 & d2 & H2 & H).
  apply tbind_Ok in H as (u3 & d3 & H3 & H). apply tbind_Ok in H as (now & d4 & [_ ->]%tlift_Ok & H).
  apply tbind_Ok in H as (u4 & d5 & H4 & [= _ <-]).
  destruct (import_record_isolated sk _ now Hne) as (Id & Ii & Io & Is).
  assert (forall {A} (f : A -> txn Db unit) l a us c,
    (forall x d v d', f x d = Ok (v, d') -> same_scope sk d d') ->
    teach f l a = Ok (us, c) -> same_scope sk a c) as Hloop.
  { intros A f l a us c Hf Hl. eapply teach_inv; [|reflexivity|exact Hl].
    intros y d v d' _ Hd Hy. rewrite Hd. eauto. }
  rewrite (Hloop _ _ _ _ _ _ Id H1), (Hloop _ _ _ _ _ _ Ii H2), (Hloop _ _ _ _ _ _ Io H3).
  by eapply Hloop.
Qed.

Lemma import_inner_isolated sk o clock x replace db : sk <> scope_key (x_scope x) ->
  same_scope sk db (snd (import_environment_inner o clock x replace db)).
Proof.
  intros Hne. unfold import_environment_inner. destruct (validate_export x); [|done].
  apply run_txn_inv; [done|]. intros u db' H. destruct (_ && _); [done|].
  apply rbind_Ok in H as (n & _ & H). apply tbind_Ok in H as ([] & db1 & Hins & H).
  apply (insert_export_records_isolated sk) in H; [|done]. rewrite <- H. clear H.
  set (db0 := if bool_decide _ then _ else _) in Hins.
  assert (same_scope sk db db0) as Hd0
    by (unfold db0; destruct (bool_decide _); [by apply delete_environment_isolated|done]).
  etrans; [exact Hd0|]. unfold insert_sequence in Hins. destruct (sequences db0 !! _); [done|].
  injection Hins as <-. split; try done. cbn. by apply lookup_insert_ne.
Qed.

Lemma store_step_isolated sk sc db db' : sk <> scope_key sc ->
  store_step sha256 sc db db' -> same_scope sk db db'.
Proof.
  intros Hne Hs. destruct Hs as [o clock b W Eb| | | | |].
  - apply commit_isolated; [by rewrite Eb|done].
  - by apply claim_outbox_isolated.
  - by apply ack_outbox_isolated.
  - by apply claim_due_isolated.
  - by apply complete_isolated.
  - by apply cancel_isolated.
Qed.

Lemma admin_step_isolated sk sc db db' : sk <> scope_key sc -> admin_step sc db db' -> same_scope sk db db'.
Proof.
  intros Hne [o clock x W <-|o clock x c W <-|o c].
  - by apply import_inner_isolated.
  - unfold import_environment. destruct (bool_decide _); [done|]. by apply import_inner_isolated.
  - by apply reset_isolated.
Qed.

(** Reads of an Environment depend on its rows only. *)
Lemma same_scope_scan sc db db' idx range : same_scope (scope_key sc) db db' ->
  scan_rows (scope_key sc) idx range db' = scan_rows (scope_key sc) idx range db.
Proof.
  intros [_ _ _ _ Hi _ _ _]. unfold scan_rows. apply order_by_ext; [apply _|..].
  - intros [sk k] v (E & _). cbn in E. subst sk. by rewrite Hi.
  - intros [[sk [[i k] d]] v] [[sk' [[i' k'] d']] v'] (E1 & E2 & _) (E1' & E2' & _).
    unfold scan_order, cmp_lex, cmp_on, row_index, row_key, row_document in *. cbn [fst snd] in *.
    destruct (bytes_cmp k k') eqn:Ek; cbn [cmp_then]; try done. intros Ed.
    apply bytes_cmp_eq in Ek, Ed. congruence.
Qed.

Lemma same_scope_list sc db db' s s' after limit : same_scope (scope_key sc) db db' ->
  snap_db s = db -> snap_db s' = db' -> snap_scope s = sc -> snap_scope s' = sc ->
  list_scheduled s' after limit = list_scheduled s after limit.
Proof.
  intros [_ _ _ _ _ _ Hs _] <- <- <- E. unfold list_scheduled. rewrite E.
  destruct (_ || _); [done|]. do 2 f_equal. apply order_by_ext; [apply _|..].
  - intros [sk k] v (Esk & _). cbn in Esk. subst sk. by rewrite Hs.
  - intros [[sk k] v] [[sk' k'] v'] (E1 & _) (E1' & _) Ec%bytes_cmp_eq. cbn in *. congruence.
Qed.

(** The snapshot of an Environment in a database. *)
Definition snapshot_of (sc : EnvironmentScope) (db : Db) : SqliteSnapshot :=
  mkSqliteSnapshot db sc (default 0 (sequences db !! scope_key sc)).

(** C11: Environments are isolated: no operation on one Environment, be it a commit, an outbox or
    scheduler operation, an import or a reset, and however its transaction ends, changes a row of
    another Environment or the result of any read there. *)
Theorem environment_isolation sc sc' db db' :
  scope_ok sc -> scope_ok sc' -> sc' <> sc ->
  store_step sha256 sc db db' \/ admin_step sc db db' ->
  same_scope (scope_key sc') db db'
  /\ is_ok (begin_read sc' db') = is_ok (begin_read sc' db)
  /\ (forall t d, get_document (snapshot_of sc' db') t d = get_document (snapshot_of sc' db) t d)
  /\ (forall idx range limit, scan_index (snapshot_of sc' db') idx range limit
        = scan_index (snapshot_of sc' db) idx range limit)
  /\ (forall e, get_outbox (snapshot_of sc' db') e = get_outbox (snapshot_of sc' db) e)
  /\ (forall i, get_scheduled (snapshot_of sc' db') i = get_scheduled (snapshot_of sc' db) i)
  /\ (forall after limit, list_scheduled (snapshot_of sc' db') after limit
        = list_scheduled (snapshot_of sc' db) after limit).
Proof.
  intros Hsc Hsc' Hne Hstep.
  assert (scope_key sc' <> scope_key sc) as Hk by (intros E; by apply scope_key_inj in E).
  assert (same_scope (scope_key sc') db db') as Hs
    by (destruct Hstep; eauto using store_step_isolated, admin_step_isolated).
  split; [done|]. split_and!.
  - unfold begin_read. rewrite (ss_sequences _ _ _ Hs). by destruct (positive_or_zero_u64 _).
  - intros t d. unfold get_document. cbn [snapshot_of snap_db snap_scope]. by rewrite (ss_documents _ _ _ Hs).
  - intros idx range limit. unfold scan_index. cbn [snapshot_of snap_db snap_scope].
    by rewrite (same_scope_scan _ _ _ _ _ Hs).
  - intros e. unfold get_outbox. cbn [snapshot_of snap_db snap_scope]. by rewrite (ss_outbox _ _ _ Hs).
  - intros i. unfold get_scheduled, fetch_schedule_row. cbn [snapshot_of snap_db snap_scope].
    by rewrite (ss_schedules _ _ _ Hs).
  - intros after limit. by eapply same_scope_list.
Qed.

(** C6: The invariant [db_ok] holds in every database the adapter can produce: whatever sequence of
    commits, claims, acknowledgements, completions, cancellations, seeds, imports and resets runs on
    whatever Environments, and however their transactions end, every stored row decodes, every
    revision and sequence is within its 64-bit column and reached, result rows belong to recorded
    operations, idempotency keys are unique, rows are leased exactly while running, and consumer
    cursors and leases are consistent. *)
Theorem store_invariant db : reachable sha256 db -> db_ok db.
Proof. apply reachable_ok. Qed.
End system_facts.

(** ** Examples on the demonstration database *)

Definition other_scope : EnvironmentScope := mkScope (from_ulid 1) (from_ulid 3).

Lemma scopes_ok : scope_ok sample_scope /\ scope_ok other_scope.
Proof. unfold scope_ok, id_ok, ulid_range. cbn. lia. Qed.

Lemma demo_step : store_step demo_sha sample_scope empty_db demo_db.
Proof. apply (step_commit demo_sha sample_scope empty_db TO_Commit (Some 50) demo_batch); [apply demo_batch_wf|done]. Qed.

Lemma store_invariant_witness : db_ok demo_db.
Proof.
  apply (store_invariant demo_sha demo_db). apply rtc_once. exists sample_scope.
  split; [exact (proj1 scopes_ok)|left; exact demo_step].
Defined.

Lemma environment_isolation_witness :
  scan_index (snapshot_of other_scope demo_db) (from_ulid 8) IndexRange_all 10
  = scan_index (snapshot_of other_scope empty_db) (from_ulid 8) IndexRange_all 10.
Proof.
  apply (environment_isolation demo_sha sample_scope other_scope empty_db demo_db (proj1 scopes_ok)
    (proj2 scopes_ok)); [discriminate|left; exact demo_step].
Defined.
