(* ===== verification/SqliteJournal.v ===== *)
(** * Idempotent, conditional, atomic commits

    The properties of [commit] of runku-data-sqlite/src/adapter.rs over the transition system of
    SqliteSystem: a recorded operation is replayed forever, an operation identifier cannot be
    reused for other work, a commit is all or nothing, its writes are read back, and it succeeds
    only on the revisions it expects. *)

From Stdlib Require Import Strings.Byte ZArith Lia.
From stdpp Require Import prelude strings gmap sorting list relations.
From S2P Require Import Prelude Ulid Value StoredValue IndexKey Core StoreModel Batch Order Sql SqliteStore.
From S2P Require Import SqliteCommit SqliteInvariant SqliteReads SqliteOutbox SqliteExport SqliteSchedule SqliteSystem.

Section journal.
Context {UL : UlidLib} {ULL : UlidLaws}.
Variable sha256 : bytes -> bytes.

(** ** The operation journal is permanent *)

(** A recorded operation and its result rows are unchanged. *)
Definition journal_kept (sk : skey) (op : bytes) (db db' : Db) : Prop :=
  forall row, operations db !! (sk, op) = Some row ->
    operations db' !! (sk, op) = Some row
    /\ forall n, results db' !! (sk, op, n) = results db !! (sk, op, n).

#[export] Instance journal_kept_preorder sk op : PreOrder (journal_kept sk op).
Proof.
  split.
  - intros db row Hl. done.
  - intros x y z Hxy Hyz row Hl. destruct (Hxy row Hl) as [Hy Ry]. destruct (Hyz row Hy) as [Hz Rz].
    split; [done|]. intros n. by rewrite Rz, Ry.
Qed.

Lemma journal_kept_eq sk op db db' :
  operations db' = operations db -> results db' = results db -> journal_kept sk op db db'.
Proof. intros E1 E2 row. by rewrite E1, E2. Qed.

Lemma journal_kept_same sk op db db' : same_scope sk db db' -> journal_kept sk op db db'.
Proof. intros [] row Hl. by rewrite ss_operations. Qed.

Lemma fresh_commit_journal sk op b dg now db r db' :
  fresh_commit b dg now db r db' -> journal_kept sk op db db'.
Proof.
  intros F row Hl.
  assert ((sk, op) <> (scope_key (b_scope b), id_to_string (b_operation_id b))) as Hne
    by (intros E; rewrite E, (fc_new _ _ _ _ _ _ F) in Hl; done).
  split; [by rewrite (fc_operations _ _ _ _ _ _ F), lookup_insert_ne|].
  intros n. apply (fc_results_frame _ _ _ _ _ _ F). congruence.
Qed.

Lemma commit_journal sk op o clock b db : batch_wf b ->
  journal_kept sk op db (snd (commit sha256 o clock b db)).
Proof.
  intros W. unfold commit. destruct (digest sha256 b) as [d|] eqn:Hd; [|done].
  apply digest_valid in Hd. apply run_txn_inv; [done|].
  intros r db' [[_ ->]|(now & _ & F)]%apply_commit_cases; [done|by eapply fresh_commit_journal|done..].
Qed.

Lemma store_step_journal sk op sc db db' : store_step sha256 sc db db' -> journal_kept sk op db db'.
Proof.
  intros [o clock b W _| | | | |]; [by apply commit_journal|..].
  - unfold claim_outbox. destruct (_ || _ || _); [done|]. apply run_txn_inv; [done|].
    intros b db1 H%claim_outbox_body_Ok. rewrite (oc_db _ _ _ _ _ _ _ _ _ H). by apply journal_kept_eq.
  - unfold ack_outbox. destruct (_ || _); [done|]. apply run_txn_inv; [done|].
    intros b db1 [(row & t & _ & _ & _ & _ & _ & ->)]%ack_outbox_body_Ok. by apply journal_kept_eq.
  - unfold claim_due_scheduled. destruct (_ || _ || _); [done|]. apply run_txn_inv; [done|].
    intros recs db1 (_ & _ & _ & ->)%claim_due_body_Ok. by apply journal_kept_eq.
  - destruct (complete_scheduled _ _ _ _ _ _ _ _) as [r db1] eqn:E. cbn [snd].
    apply complete_scheduled_cases in E as [->|(row & t & _ & _ & ->)]; [done|by apply journal_kept_eq].
  - unfold cancel_scheduled. apply run_txn_inv; [done|].
    intros r db1 [->|(row & t & _ & _ & ->)]%cancel_body_cases; [done|by apply journal_kept_eq].
Qed.

Lemma keeps_journal sc op db db' : scope_ok sc -> rtc (keeps sha256 sc) db db' ->
  journal_kept (scope_key sc) op db db'.
Proof.
  intros Hsc. induction 1 as [|x y z (sc' & Hsc' & Hstep) _ IH]; [done|]. etrans; [|exact IH].
  destruct Hstep as [Hstep|[Hne Hstep]]; [by eapply store_step_journal|].
  apply journal_kept_same. eapply admin_step_isolated; [|done].
  intros E. apply scope_key_inj in E; [|done..]. congruence.
Qed.

Lemma load_operation_kept b dg db db' :
  journal_kept (scope_key (b_scope b)) (id_to_string (b_operation_id b)) db db' ->
  is_Some (operations db !! (scope_key (b_scope b), id_to_string (b_operation_id b))) ->
  load_operation b dg db' = load_operation b dg db.
Proof.
  intros Hk [row Hl]. destruct (Hk row Hl) as [Hl' Hr]. unfold load_operation. rewrite Hl, Hl'.
  assert (operation_results (scope_key (b_scope b)) (id_to_string (b_operation_id b)) db'
          = operation_results (scope_key (b_scope b)) (id_to_string (b_operation_id b)) db) as ->.
  { unfold operation_results. apply order_by_ext; [apply _|..].
    - intros [k n] v E. cbn [fst] in E. rewrite E, Hr. done.
    - intros [[k n] v] [[k' n'] v'] E E' Ec. cbn [fst] in E, E'. unfold cmp_on in Ec. cbn [fst snd] in *.
      apply Z.compare_eq in Ec. congruence. }
  done.
Qed.

(** A replay answers from the journal and changes nothing. *)
Lemma commit_replay clock b dg r db : digest sha256 b = Ok dg ->
  load_operation b dg db = Ok (Some r) -> commit sha256 TO_Commit clock b db = (Ok r, db).
Proof. intros Hd Hl. unfold commit. rewrite Hd. cbn [run_txn]. unfold apply_commit. by rewrite Hl. Qed.

Lemma load_operation_recorded b dg db r : load_operation b dg db = Ok (Some r) ->
  is_Some (operations db !! (scope_key (b_scope b), id_to_string (b_operation_id b)))
  /\ cr_replayed r = true.
Proof.
  unfold load_operation. destruct (operations db !! _) as [row|]; [|done]. intros H.
  split; [by exists row|]. destruct (bool_decide _); [done|].
  apply rbind_Ok in H as (n & _ & H). apply rbind_Ok in H as (ds & _ & H).
  destruct (negb _); [done|]. by injection H as <-.
Qed.

(** ** Commits *)

(** How a commit can end. *)
Inductive commit_outcome (b : CommitBatch) (db : Db) : result StoreError CommitResult -> Db -> Prop :=
| commit_replayed dg res : digest sha256 b = Ok dg -> load_operation b dg db = Ok (Some res) ->
    commit_outcome b db (Ok res) db
| commit_applied dg now res db' : digest sha256 b = Ok dg -> fresh_commit b dg now db res db' ->
    commit_outcome b db (Ok res) db'
| commit_refused e : commit_outcome b db (Err e) db
| commit_uncertain dg now res db' : digest sha256 b = Ok dg -> fresh_commit b dg now db res db' ->
    commit_outcome b db (Err SE_ResultUncertain) db'.

Lemma commit_cases o clock b db r db' : batch_wf b ->
  commit sha256 o clock b db = (r, db') -> commit_outcome b db r db'.
Proof.
  intros W. unfold commit. destruct (digest sha256 b) as [dg|e] eqn:Hd; [|intros [= <- <-]; constructor].
  pose proof (digest_valid _ _ _ Hd) as V.
  intros [(res & -> & H)|[(e & -> & ->)|(res & -> & H)]]%run_txn_cases; [|constructor|].
  - apply apply_commit_cases in H as [[Hl ->]|(now & _ & F)]; [..|done|done].
    + by eapply commit_replayed.
    + by eapply commit_applied.
  - apply apply_commit_cases in H as [[Hl ->]|(now & _ & F)]; [..|done|done].
    + constructor.
    + by eapply commit_uncertain.
Qed.

(** After a commit that took effect, the journal answers for it. *)
Lemma commit_recorded o clock b db r db1 : db_ok db -> batch_wf b ->
  commit sha256 o clock b db = (r, db1) -> is_ok r = true \/ db1 <> db ->
  exists dg res, digest sha256 b = Ok dg /\ load_operation b dg db1 = Ok (Some res)
    /\ cr_replayed res = true /\ forall res1, r = Ok res1 -> res = as_replayed res1.
Proof.
  intros Hdb W Hc%commit_cases Hr; [|done].
  destruct Hc as [dg res Hd Hl|dg now res db' Hd F|e|dg now res db' Hd F].
  - exists dg, res. destruct (load_operation_recorded _ _ _ _ Hl) as [_ Hrep].
    split; [done|]. split; [done|]. split; [done|].
    intros res1 [= <-]. destruct res. cbn in *. by subst.
  - exists dg, (as_replayed res). split; [done|]. split; [|split; [done|by intros res1 [= <-]]].
    eapply fresh_commit_replays; [apply Hdb|done|done].
  - by destruct Hr.
  - exists dg, (as_replayed res). split; [done|]. split; [|done].
    eapply fresh_commit_replays; [apply Hdb|done|done].
Qed.

(** C1: Commits are exactly-once.  Once a commit has taken effect, whether it was reported as
    successful or only as uncertain, retrying the same batch answers from the operation journal with
    the same commit sequence and document revisions, marked as replayed, and changes nothing; whatever
    operations ran on the store in between, on any Environments, except that this one must not have
    been seeded, imported or reset, which erases its journal. *)
Theorem commit_exactly_once o clock clock' b db r db1 db2 :
  db_ok db -> batch_wf b -> commit sha256 o clock b db = (r, db1) ->
  is_ok r = true \/ db1 <> db ->
  rtc (keeps sha256 (b_scope b)) db1 db2 ->
  exists res, commit sha256 TO_Commit clock' b db2 = (Ok res, db2) /\ cr_replayed res = true
    /\ forall res1, r = Ok res1 -> res = as_replayed res1.
Proof.
  intros Hdb W Hc Hr Hk. destruct (commit_recorded _ _ _ _ _ _ Hdb W Hc Hr) as (dg & res & Hd & Hl & Hrep & Hres).
  exists res. split; [|done]. eapply commit_replay; [done|].
  rewrite (load_operation_kept b dg db1 db2); [done|..].
  - apply keeps_journal; [apply W|done].
  - by apply load_operation_recorded in Hl as [? _].
Qed.

(** An operation identifier stands for one batch: after a commit has taken effect, a batch with
    the same scope and operation identifier but another digest is refused with
    [OperationIdReused] and changes nothing, at any later time. *)
Theorem operation_id_reuse o clock clock' b b' db r db1 db2 dg' :
  db_ok db -> batch_wf b -> commit sha256 o clock b db = (r, db1) ->
  is_ok r = true \/ db1 <> db ->
  rtc (keeps sha256 (b_scope b)) db1 db2 ->
  b_scope b' = b_scope b -> b_operation_id b' = b_operation_id b ->
  digest sha256 b' = Ok dg' -> digest sha256 b <> Ok dg' ->
  commit sha256 TO_Commit clock' b' db2 = (Err SE_OperationIdReused, db2).
Proof.
  intros Hdb W Hc Hr Hk Es Eo Hd' Hne.
  destruct (commit_recorded _ _ _ _ _ _ Hdb W Hc Hr) as (dg & res & Hd & Hl & _).
  unfold load_operation in Hl. destruct (operations db1 !! _) as [row|] eqn:El; [|done].
  case_bool_decide as Hdg; [done|].
  assert (op_batch_digest row = dg) as Edg by (by destruct (decide (op_batch_digest row = dg))).
  destruct (keeps_journal (b_scope b) (id_to_string (b_operation_id b)) db1 db2 (wf_scope _ W) Hk row El)
    as [El2 _].
  unfold commit. rewrite Hd'. cbn [run_txn]. unfold apply_commit, load_operation.
  rewrite Es, Eo, El2, bool_decide_eq_true_2; [done|]. congruence.
Qed.

(** ** What a commit reads and writes *)

(** What a snapshot shows of a document: its record, if it decodes. *)
Definition shown (s : SqliteSnapshot) (t : TableId) (d : DocumentId) (o : option DocumentRecord) : Prop :=
  get_document s t d = Ok o.

Lemma shown_row sc db t d : db_ok db -> id_ok t -> id_ok d ->
  exists o, shown (snapshot_of sc db) t d o
    /\ dr_revision <$> o = d_revision <$> documents db !! (scope_key sc, (id_to_string t, id_to_string d))
    /\ (documents db !! (scope_key sc, (id_to_string t, id_to_string d)) = None -> o = None).
Proof.
  intros Hdb Ht Hd. unfold shown, get_document. cbn [snapshot_of snap_db snap_scope].
  destruct (documents db !! _) as [row|] eqn:El; [|by exists None].
  pose proof (inv_documents _ Hdb _ _ El) as (_ & _ & Hok). cbn [fst snd] in Hok. cbn [opt_map].
  destruct (decode_document_row _ _ row) as [rec|] eqn:Hrec; [|done].
  exists (Some rec). split; [done|]. split; [|done]. cbn.
  by apply decode_document_row_Ok in Hrec as (_ & _ & _ & _ & -> & _).
Qed.

(** The effect of one mutation as the snapshots before and after show it. *)
Definition mutation_shown (before after : SqliteSnapshot) (seq : Z) (m : DocumentMutation)
  (res : DocumentRevisionResult) : Prop :=
  exists old, shown before (dm_table_id m) (dm_document_id m) old
    /\ dr_revision <$> old = expected_revision m
    /\ match m with
       | DM_Upsert t d _ v => exists rec, shown after t d (Some rec)
           /\ dr_value rec = v /\ dr_commit_sequence rec = seq
           /\ dr_revision rec = default 0 (expected_revision m) + 1
           /\ rr_revision res = Some (dr_revision rec)
           /\ (forall r, old = Some r -> dr_created_at rec = dr_created_at r)
       | DM_Delete t d _ => shown after t d None /\ rr_revision res = None
       end.

Lemma shown_written sc db t d row v : id_ok t -> id_ok d -> value_ok v = true ->
  encode_stored_value v = Ok (d_value row) -> 0 < d_revision row <= i64_max ->
  0 < d_commit_sequence row <= i64_max ->
  documents db !! (scope_key sc, (id_to_string t, id_to_string d)) = Some row ->
  shown (snapshot_of sc db) t d (Some (mkDocumentRecord t d (d_revision row) (d_commit_sequence row)
    (d_created_at row) (d_updated_at row) v)).
Proof.
  intros Ht Hd Hv He Hr Hs El. unfold shown, get_document. cbn [snapshot_of snap_db snap_scope].
  rewrite El. cbn [opt_map]. destruct row as [rev seq c u val]. cbn in Hr, Hs, He.
  by rewrite (decode_written_document t d rev seq c u v val).
Qed.

Lemma shown_created sc db t d row rec :
  documents db !! (scope_key sc, (id_to_string t, id_to_string d)) = Some row ->
  shown (snapshot_of sc db) t d (Some rec) -> dr_created_at rec = d_created_at row.
Proof.
  intros El H. unfold shown, get_document in H. cbn [snapshot_of snap_db snap_scope] in H.
  rewrite El in H. cbn [opt_map] in H. apply rbind_Ok in H as (r & Hr%decode_document_row_Ok & [= ->]).
  by destruct Hr as (_ & _ & _ & _ & _ & _ & -> & _).
Qed.

Lemma transition_shown sc db db' seq now m res : db_ok db -> document_ok m -> 0 < seq <= i64_max ->
  doc_transition seq now m (documents db !! (scope_key sc, row_key_of m))
    (documents db' !! (scope_key sc, row_key_of m)) res ->
  mutation_shown (snapshot_of sc db) (snapshot_of sc db') seq m res.
Proof.
  intros Hdb Hm Hseq Ht. destruct (document_ids_ok m Hm) as [Hti Hdi].
  destruct (shown_row sc db (dm_table_id m) (dm_document_id m) Hdb Hti Hdi) as (old & Hold & Hrev & Hnone).
  exists old. split; [done|]. rewrite Hrev. unfold row_key_of in Ht.
  destruct (documents db !! _) as [row|] eqn:El, (documents db' !! _) as [row'|] eqn:El' in Ht;
    inversion Ht as [t d v e He|t d v e ? He H0 H1 H2|t d ? H0 H1]; subst;
    cbn [dm_table_id dm_document_id expected_revision document_ok] in *.
  - split; [done|]. destruct Hm as (_ & _ & Hex%is_u64_spec & Hv). cbn in Hex.
    eexists. split; [eapply (shown_written sc db' t d _ v Hti Hdi Hv); [..|exact El']; cbn; done || lia|].
    cbn. split_and!; try done. intros r ->. by apply (shown_created sc db t d row r) in Hold.
  - split; [done|]. split; [|done]. unfold shown, get_document.
    cbn [snapshot_of snap_db snap_scope]. by rewrite El'.
  - split; [done|]. destruct Hm as (_ & _ & _ & Hv).
    eexists. split; [eapply (shown_written sc db' t d _ v Hti Hdi Hv); [..|exact El']; cbn; done|].
    cbn. by rewrite (Hnone eq_refl).
Qed.

Lemma fresh_commit_shown b dg now db res db' : db_ok db -> batch_wf b ->
  fresh_commit b dg now db res db' ->
  snap_sequence (snapshot_of (b_scope b) db') = snap_sequence (snapshot_of (b_scope b) db) + 1
  /\ cr_commit_sequence res = snap_sequence (snapshot_of (b_scope b) db')
  /\ (forall a, a ∈ b_reads b -> exists o,
        shown (snapshot_of (b_scope b) db) (ra_table_id a) (ra_document_id a) o
        /\ dr_revision <$> o = ra_observed_revision a)
  /\ Forall2 (mutation_shown (snapshot_of (b_scope b) db) (snapshot_of (b_scope b) db')
       (cr_commit_sequence res)) (b_documents b) (cr_documents res)
  /\ (forall t d, id_ok t -> id_ok d ->
        (forall m, m ∈ b_documents b -> (dm_table_id m, dm_document_id m) <> (t, d)) ->
        get_document (snapshot_of (b_scope b) db') t d = get_document (snapshot_of (b_scope b) db) t d).
Proof.
  intros Hdb W F. destruct (fc_sequence _ _ _ _ _ _ F) as [Es Hs].
  pose proof (wf_documents _ W) as Wd. pose proof (wf_reads _ W) as Wr. rewrite Forall_forall in Wd. rewrite Forall_forall in Wr.
  unfold snapshot_of at 1 2 3. cbn [snap_sequence].
  rewrite (fc_sequences _ _ _ _ _ _ F), lookup_insert_eq. cbn [default]. split_and!; [done|done|..].
  - intros a Ha. destruct (Wr a Ha) as (Ht & Hd & _).
    destruct (shown_row (b_scope b) db _ _ Hdb Ht Hd) as (o & Ho & Hrev & _).
    exists o. split; [done|]. rewrite Hrev. by apply (fc_reads _ _ _ _ _ _ F).
  - eapply (Forall2_with (fun m => m ∈ b_documents b)); [by intros ? ?%list_elem_of_In|apply F|].
    intros m d Hm Ht. eapply transition_shown; [done|by apply Wd|done|exact Ht].
  - intros t d Ht Hd Hno. unfold get_document. cbn [snapshot_of snap_db snap_scope].
    rewrite (fc_documents_frame _ _ _ _ _ _ F); [done|].
    intros m Hm [_ [E1 E2]%pair_equal_spec]%pair_equal_spec. apply (Hno m Hm).
    destruct (document_ids_ok m (Wd m Hm)). apply id_to_string_inj in E1, E2; [|done..]. congruence.
Qed.

(** C5: A commit that succeeds as new work is conditional and visible.  Before it, every read
    assertion and every expected revision was current; it takes the next commit sequence; after
    it, an upserted document reads back with the written value, the next revision (the one
    reported) and that commit sequence, keeping its creation time, a deleted document is gone,
    and every other document of the Environment reads as before. *)
Theorem commit_read_write o clock b db res db' :
  db_ok db -> batch_wf b -> commit sha256 o clock b db = (Ok res, db') -> cr_replayed res = false ->
  snap_sequence (snapshot_of (b_scope b) db') = snap_sequence (snapshot_of (b_scope b) db) + 1
  /\ cr_commit_sequence res = snap_sequence (snapshot_of (b_scope b) db')
  /\ (forall a, a ∈ b_reads b -> exists o,
        shown (snapshot_of (b_scope b) db) (ra_table_id a) (ra_document_id a) o
        /\ dr_revision <$> o = ra_observed_revision a)
  /\ Forall2 (mutation_shown (snapshot_of (b_scope b) db) (snapshot_of (b_scope b) db')
       (cr_commit_sequence res)) (b_documents b) (cr_documents res)
  /\ (forall t d, id_ok t -> id_ok d ->
        (forall m, m ∈ b_documents b -> (dm_table_id m, dm_document_id m) <> (t, d)) ->
        get_document (snapshot_of (b_scope b) db') t d = get_document (snapshot_of (b_scope b) db) t d).
Proof.
  intros Hdb W Hc Hr. apply commit_cases in Hc; [|done].
  inversion Hc as [dg r Hd Hl|dg now r d Hd F| |]; subst.
  - apply load_operation_recorded in Hl as [_ ?]. congruence.
  - by eapply fresh_commit_shown.
Qed.

(** The current revision of a document, as stored. *)
Definition current_revision (sc : EnvironmentScope) (db : Db) (t : TableId) (d : DocumentId) : option Z :=
  d_revision <$> documents db !! (scope_key sc, (id_to_string t, id_to_string d)).

Lemma transition_expected seq now m old new res :
  doc_transition seq now m old new res -> d_revision <$> old = expected_revision m.
Proof. by destruct 1. Qed.

Lemma stale_reads_conflict sk reads db a : db_ok db -> a ∈ reads ->
  d_revision <$> documents db !! (sk, (id_to_string (ra_table_id a), id_to_string (ra_document_id a)))
    <> ra_observed_revision a ->
  validate_document_reads sk reads db = Err SE_MutationConflict.
Proof.
  intros Hdb Ha Hne. unfold validate_document_reads.
  assert (forall a, check_document_read sk db a = Ok tt \/ check_document_read sk db a = Err SE_MutationConflict)
    as Hcheck.
  { clear Hne Ha a. intros a. unfold check_document_read. destruct (documents db !! _) as [row|] eqn:El; cbn [opt_map].
    - pose proof (inv_documents _ Hdb _ _ El) as (_ & _ & Hdec). unfold decode_document_row in Hdec.
      destruct (parse_id _ _), (parse_id _ _), (positive_u64 (d_revision row)); try done. cbn [rbind].
      destruct (bool_decide _); auto.
    - cbn [rbind]. destruct (bool_decide _); auto. }
  assert (check_document_read sk db a = Err SE_MutationConflict) as Hbad.
  { destruct (Hcheck a) as [Hok|]; [|done]. destruct Hne.
    assert (validate_document_reads sk [a] db = Ok tt) as Hv
      by (unfold validate_document_reads; cbn [try_map]; by rewrite Hok).
    apply (validate_document_reads_Ok _ _ _ _ Hv a). left. }
  clear Hne. induction reads as [|x reads IH]; [by apply not_elem_of_nil in Ha|]. cbn [try_map].
  destruct (Hcheck x) as [Hx|Hx]; rewrite Hx; cbn [rbind]; [|done].
  apply elem_of_cons in Ha as [->|Ha]; [congruence|]. specialize (IH Ha).
  by destruct (try_map _ reads).
Qed.

(** C14: Stale work is refused.  A new operation with a read assertion or an expected revision that
    does not match the document's current revision never succeeds and changes nothing, whatever the
    outcome of its transaction; with a stale read assertion it answers [MutationConflict]. *)
Theorem stale_commit_rejected o clock b db :
  db_ok db -> batch_wf b ->
  operations db !! (scope_key (b_scope b), id_to_string (b_operation_id b)) = None ->
  (exists a, a ∈ b_reads b
     /\ current_revision (b_scope b) db (ra_table_id a) (ra_document_id a) <> ra_observed_revision a)
  \/ (exists m, m ∈ b_documents b
     /\ current_revision (b_scope b) db (dm_table_id m) (dm_document_id m) <> expected_revision m) ->
  is_ok (fst (commit sha256 o clock b db)) = false /\ snd (commit sha256 o clock b db) = db
  /\ (is_ok (digest sha256 b) = true ->
      (exists a, a ∈ b_reads b
        /\ current_revision (b_scope b) db (ra_table_id a) (ra_document_id a) <> ra_observed_revision a) ->
      commit sha256 TO_Commit clock b db = (Err SE_MutationConflict, db)).
Proof.
  intros Hdb W Hnew Hstale. destruct (commit sha256 o clock b db) as [r db'] eqn:Hc. cbn [fst snd].
  assert (forall dg now res db', ~ fresh_commit b dg now db res db') as Hno.
  { intros dg now res db1 F. destruct Hstale as [(a & Ha & Hne)|(m & Hm & Hne)]; apply Hne.
    - by apply (fc_reads _ _ _ _ _ _ F).
    - apply list_elem_of_lookup in Hm as [i Hi].
      destruct (Forall2_lookup_l _ _ _ _ _ (fc_documents _ _ _ _ _ _ F) Hi) as (d & _ & Ht).
      by apply transition_expected in Ht. }
  apply commit_cases in Hc; [|done].
  inversion Hc as [dg res Hd Hl|dg now res d Hd F|e|dg now res d Hd F]; subst;
    try (by destruct (Hno _ _ _ _ F)).
  - apply load_operation_recorded in Hl as [[row Hl] _]. congruence.
  - split; [done|]. split; [done|]. intros Hok (a & Ha & Hne). unfold commit.
    destruct (digest sha256 b) as [dg|]; [|done]. cbn [run_txn]. unfold apply_commit, load_operation.
    rewrite Hnew. cbn [rbind]. by rewrite (stale_reads_conflict _ _ _ a).
Qed.
End journal.

(** ** Examples on the demonstration database *)

Definition demo_result : CommitResult :=
  mkCommitResult 1 [mkDocumentRevisionResult (from_ulid 5) (from_ulid 6) (Some 1)] false.

Lemma demo_commit : commit demo_sha TO_Commit (Some 50) demo_batch empty_db = (Ok demo_result, demo_db).
Proof.
  unfold demo_db. pose proof demo_committed as H.
  destruct (commit _ _ _ _ _) as [r db]. cbn [fst snd] in *. by rewrite H.
Qed.

Lemma demo_leased_keeps : rtc (keeps demo_sha (b_scope demo_batch)) demo_db demo_leased.
Proof.
  apply rtc_once. exists sample_scope. split; [apply scopes_ok|left].
  unfold demo_leased. constructor. apply worker_ok. lia.
Qed.

Lemma commit_exactly_once_witness :
  commit demo_sha TO_Commit (Some 500) demo_batch demo_leased = (Ok (as_replayed demo_result), demo_leased).
Proof.
  destruct (commit_exactly_once demo_sha TO_Commit (Some 50) (Some 500) demo_batch empty_db (Ok demo_result)
    demo_db demo_leased db_ok_empty demo_batch_wf demo_commit (or_introl eq_refl) demo_leased_keeps)
    as (res & H & _ & Hres).
  rewrite H. rewrite (Hres demo_result eq_refl). reflexivity.
Defined.

Lemma operation_id_reuse_witness :
  commit demo_sha TO_Commit (Some 500) (sample_batch 7) demo_leased = (Err SE_OperationIdReused, demo_leased).
Proof.
  destruct (digest demo_sha (sample_batch 7)) as [dg|] eqn:Hd; [|vm_compute in Hd; discriminate].
  apply (operation_id_reuse demo_sha TO_Commit (Some 50) (Some 500) demo_batch (sample_batch 7) empty_db
    (Ok demo_result) demo_db demo_leased dg db_ok_empty demo_batch_wf demo_commit (or_introl eq_refl)
    demo_leased_keeps eq_refl eq_refl Hd).
  rewrite <- Hd. vm_compute. discriminate.
Defined.

Lemma commit_read_write_witness :
  Forall2 (mutation_shown (snapshot_of sample_scope empty_db) (snapshot_of sample_scope demo_db) 1)
    (b_documents demo_batch) (cr_documents demo_result).
Proof.
  exact (proj1 (proj2 (proj2 (proj2 (commit_read_write demo_sha TO_Commit (Some 50) demo_batch empty_db
    demo_result demo_db db_ok_empty demo_batch_wf demo_commit eq_refl))))).
Defined.

Lemma stale_commit_rejected_witness :
  snd (commit demo_sha TO_Commit (Some 60) (sample_batch 13) demo_db) = demo_db.
Proof.
  apply (stale_commit_rejected demo_sha TO_Commit (Some 60) (sample_batch 13) demo_db demo_db_ok).
  - apply sample_batch_wf. unfold ulid_range. lia.
  - vm_compute. reflexivity.
  - right. exists (DM_Upsert (from_ulid 5) (from_ulid 6) ER_Absent (CV_Boolean true)).
    split; [left|]. vm_compute. discriminate.
Defined.
