(* ===== verification/SqliteTraces.v ===== *)
(** * Histories of the scheduler and the outbox

    Properties of whole runs of the store: a scheduled invocation moves along its state machine
    only, a lease that has been superseded never completes anything, and a consumer that
    acknowledges what it was handed skips no outbox event. *)

From Stdlib Require Import Strings.Byte ZArith Lia.
From stdpp Require Import prelude strings gmap sorting list relations.
From S2P Require Import Prelude Ulid Value StoredValue IndexKey Core StoreModel Batch Order Sql SqliteStore.
From S2P Require Import SqliteCommit SqliteInvariant SqliteReads SqliteOutbox SqliteExport SqliteSchedule SqliteSystem SqliteJournal.

Section schedule_history.
Context {UL : UlidLib} {ULL : UlidLaws}.
Variable sha256 : bytes -> bytes.

Lemma store_step_moves sc db db' : store_step sha256 sc db db' -> schedules_move db db'.
Proof.
  intros [o clock b W _| | | | |].
  - unfold commit. destruct (digest sha256 b) as [d|] eqn:Hd; [|done].
    apply digest_valid in Hd. apply run_txn_inv; [done|].
    intros r db1 [[_ ->]|(now & _ & F)]%apply_commit_cases; [done|by eapply fresh_commit_moves|done..].
  - unfold claim_outbox. destruct (_ || _ || _); [done|]. apply run_txn_inv; [done|].
    intros b db1 H%claim_outbox_body_Ok. rewrite (oc_db _ _ _ _ _ _ _ _ _ H). by apply schedules_move_eq.
  - unfold ack_outbox. destruct (_ || _); [done|]. apply run_txn_inv; [done|].
    intros b db1 [(row & t & _ & _ & _ & _ & _ & ->)]%ack_outbox_body_Ok. by apply schedules_move_eq.
  - by apply claim_due_moves.
  - by apply complete_moves.
  - by apply cancel_moves.
Qed.

Lemma keeps_moves sc db db' id row : scope_ok sc -> rtc (keeps sha256 sc) db db' ->
  schedules db !! (scope_key sc, id) = Some row ->
  exists row', schedules db' !! (scope_key sc, id) = Some row' /\ rtc row_step row row'.
Proof.
  intros Hsc Hk. revert row. induction Hk as [|x y z (sc' & Hsc' & Hstep) _ IH]; intros row Hl; [by exists row|].
  assert (exists row1, schedules y !! (scope_key sc, id) = Some row1 /\ rtc row_step row row1)
    as (row1 & Hl1 & Hs1).
  { destruct Hstep as [Hstep|[Hne Hstep]]; [by eapply store_step_moves|].
    exists row. split; [|done]. rewrite (ss_schedules (scope_key sc) x y); [done|].
    eapply admin_step_isolated; [|done]. intros E. apply scope_key_inj in E; [|done..]. congruence. }
  destruct (IH row1 Hl1) as (row' & Hl' & Hs'). exists row'. split; [done|]. by etrans.
Qed.

Lemma row_steps_evolve row row' : rtc row_step row row' -> row_evolves row row'.
Proof. induction 1; [done|]. etrans; [by apply row_step_evolves|done]. Qed.

(** C26: A scheduled invocation only moves along its state machine.  Whatever runs on the store, as
    long as this Environment is not seeded, imported or reset, the row stays, reaches its later state by claims of due rows,
    completions of running ones and cancellations of pending ones, keeps its code, function,
    arguments and idempotency key, never lowers its attempts or lease generation, and once it has
    succeeded, failed or been cancelled never changes again. *)
Theorem schedule_history sc db db' id row :
  scope_ok sc -> rtc (keeps sha256 sc) db db' ->
  schedules db !! (scope_key sc, id_to_string id) = Some row ->
  exists row', schedules db' !! (scope_key sc, id_to_string (k := ScheduledInvocationK) id) = Some row'
    /\ rtc row_step row row' /\ row_evolves row row'.
Proof.
  intros Hsc Hk Hl. destruct (keeps_moves _ _ _ _ _ Hsc Hk Hl) as (row' & Hl' & Hs).
  exists row'. split; [done|]. split; [done|]. by apply row_steps_evolve.
Qed.

(** A superseded lease is dead.  Once an invocation's lease generation has passed [g], a worker
    still holding generation [g] can never complete it: at any later time its completion answers
    [LeaseLost] and changes nothing. *)
Theorem stale_lease_rejected sc db db' id row w g c clock now :
  scope_ok sc -> rtc (keeps sha256 sc) db db' ->
  schedules db !! (scope_key sc, id_to_string id) = Some row -> g < s_lease_generation row ->
  0 < g <= i64_max -> validate_completion c = Ok tt -> now_micros clock = Ok now ->
  complete_scheduled TO_Commit clock sc id w g c db' = (Err SE_LeaseLost, db').
Proof.
  intros Hsc Hk Hl Hlt Hg Hc Hn. apply (complete_not_held clock sc id w g c db' now); try done.
  destruct (keeps_moves _ _ _ _ _ Hsc Hk Hl) as (row' & Hl' & Hs%row_steps_evolve).
  rewrite Hl'. intros r [= <-] (_ & _ & E). pose proof (re_generation _ _ Hs). lia.
Qed.
End schedule_history.

(** ** Delivery of outbox events *)

Section delivery.
Context {UL : UlidLib} {ULL : UlidLaws}.
Variable sha256 : bytes -> bytes.
Variables (sc : EnvironmentScope) (c : OutboxConsumerName).
Hypothesis sc_ok : scope_ok sc.

(** Everything that may happen besides the consumer's own claims and acknowledgements; a claim
    whose answer is lost is here too. *)
Inductive quiet_step (db : Db) : Db -> Prop :=
| quiet_commit o clock b : batch_wf b -> quiet_step db (snd (commit sha256 o clock b db))
| quiet_claim o sc' c' w now until limit : scope_ok sc' ->
    quiet_step db (snd (claim_outbox o sc' c' w now until limit db))
| quiet_ack o clock sc' c' w g through : scope_ok sc' -> sc' <> sc \/ c' <> c ->
    quiet_step db (snd (ack_outbox o clock sc' c' w g through db))
| quiet_claim_due o sc' w now until limit : id_ok w ->
    quiet_step db (snd (claim_due_scheduled o sc' w now until limit db))
| quiet_complete o clock sc' id w g completion :
    quiet_step db (snd (complete_scheduled o clock sc' id w g completion db))
| quiet_cancel o clock sc' id : quiet_step db (snd (cancel_scheduled o clock sc' id db))
| quiet_admin sc' db' : scope_ok sc' -> sc' <> sc -> admin_step sc' db db' -> quiet_step db db'.

(** A run of the store with the batches the consumer's workers have received.  Workers acknowledge any
    cursor, under lease generations they were handed with a batch; which cursors are accepted is up to
    the store. *)
Inductive delivery_step : Db * list ClaimedOutboxBatch -> Db * list ClaimedOutboxBatch -> Prop :=
| deliver db received o w now until limit b db' :
    claim_outbox o sc c w now until limit db = (Ok b, db') ->
    delivery_step (db, received) (db', b :: received)
| acknowledge db received o clock w b through :
    b ∈ received ->
    delivery_step (db, received) (snd (ack_outbox o clock sc c w (co_lease_generation b) through db), received)
| otherwise db received db' : quiet_step db db' -> delivery_step (db, received) (db', received).

Abbreviation sk := (scope_key sc).
Definition the_row (db : Db) : ConsumerRow := consumer_row sk (consumer_str c) 0 db.
Definition reached (db : Db) : Z := default 0 (sequences db !! sk).

Definition delivered (received : list ClaimedOutboxBatch) (e : OutboxEventRecord) : Prop :=
  exists b, b ∈ received /\ e ∈ co_events b.

(** The consumer's position stays, new events come after every reached sequence, and the consumer's
    lease stays or gets a new generation. *)
Record quiet (db db' : Db) : Prop := {
  q_position : c_cursor_sequence (the_row db') = c_cursor_sequence (the_row db)
    /\ c_cursor_event (the_row db') = c_cursor_event (the_row db);
  q_events e : stored_event sk db' e -> stored_event sk db e \/ reached db < oe_commit_sequence e;
  q_reached : reached db <= reached db';
  q_lease : consumers db' !! (sk, consumer_str c) = consumers db !! (sk, consumer_str c)
    \/ c_lease_generation (the_row db) < c_lease_generation (the_row db')
}.

Lemma quiet_refl db : quiet db db.
Proof. split; [done|by left|done|by left]. Qed.

Lemma quiet_tables db db' : consumers db' !! (sk, consumer_str c) = consumers db !! (sk, consumer_str c) ->
  (forall k, outbox db' !! (sk, k) = outbox db !! (sk, k)) ->
  sequences db' !! sk = sequences db !! sk -> quiet db db'.
Proof.
  intros Ec Eo Es. split.
  - unfold the_row, consumer_row. by rewrite Ec.
  - intros e (Hi & row & El & Hd). left. split; [done|]. exists row. by rewrite <- Eo.
  - unfold reached. by rewrite Es.
  - by left.
Qed.

Lemma quiet_same db db' : same_scope sk db db' -> quiet db db'.
Proof. intros []. by apply quiet_tables. Qed.

Lemma quiet_fresh b dg now db r db' : fresh_commit b dg now db r db' -> quiet db db'.
Proof.
  intros F. split.
  - unfold the_row, consumer_row. by rewrite (fc_consumers _ _ _ _ _ _ F).
  - intros e (Hi & row & El & Hd).
    destruct (key_cases (fun a => (scope_key (b_scope b), id_to_string (oa_event_id a))) (b_outbox b)
      (sk, id_to_string (oe_event_id e))) as [(a & Ha & E)|Hk].
    + right. pose proof (fc_outbox _ _ _ _ _ _ F a Ha) as Ht. rewrite <- E, El in Ht.
      apply decode_outbox_event_Ok in Hd as (_ & _ & -> & _).
      destruct (fc_sequence _ _ _ _ _ _ F) as [Es _].
      apply pair_equal_spec in E as [E _]. rewrite <- E in Es. unfold reached.
      inversion Ht; subst. cbn [o_commit_sequence]. lia.
    + left. split; [done|]. exists row. by rewrite <- (fc_outbox_frame _ _ _ _ _ _ F).
  - unfold reached. rewrite (fc_sequences _ _ _ _ _ _ F). destruct (fc_sequence _ _ _ _ _ _ F) as [Es _].
    destruct (decide (scope_key (b_scope b) = sk)) as [E|Hne].
    + rewrite E, lookup_insert_eq. rewrite E in Es.
      change (default 0 (Some (cr_commit_sequence r))) with (cr_commit_sequence r). lia.
    + by rewrite lookup_insert_ne.
  - left. by rewrite (fc_consumers _ _ _ _ _ _ F).
Qed.

Lemma claimed_consumer_cursor row w now until evs :
  c_cursor_sequence (claimed_consumer row w now until evs) = c_cursor_sequence row
  /\ c_cursor_event (claimed_consumer row w now until evs) = c_cursor_event row.
Proof. unfold claimed_consumer. by destruct (last evs). Qed.

Lemma claimed_consumer_generation row w now until evs :
  c_lease_generation (claimed_consumer row w now until evs) = c_lease_generation row + 1.
Proof. unfold claimed_consumer. by destruct (last evs). Qed.

Lemma consumer_row_cursor k c' now now' db :
  c_cursor_sequence (consumer_row k c' now db) = c_cursor_sequence (consumer_row k c' now' db)
  /\ c_cursor_event (consumer_row k c' now db) = c_cursor_event (consumer_row k c' now' db).
Proof. unfold consumer_row. by destruct (consumers db !! _). Qed.

Lemma quiet_outbox_claim c' w now until limit db b db' :
  outbox_claim sk c' w now until limit db b db' -> quiet db db'.
Proof.
  intros H. pose proof (oc_db _ _ _ _ _ _ _ _ _ H) as E. pose proof (oc_sequences _ _ _ _ _ _ _ _ _ H) as Es.
  split.
  - unfold the_row, consumer_row at 1 3. rewrite E. cbn [consumers set_consumers set_sequences].
    destruct (decide (c' = consumer_str c)) as [->|Hne].
    + rewrite lookup_insert_eq. cbn [default]. unfold id.
      destruct (claimed_consumer_cursor (consumer_row sk (consumer_str c) now db) w now until (co_events b))
        as [-> ->]. apply consumer_row_cursor.
    + rewrite lookup_insert_ne by congruence. done.
  - intros e (Hi & row & El & Hd). left. split; [done|]. exists row. rewrite E in El. done.
  - unfold reached. rewrite Es. destruct (sequences db !! sk) eqn:El; [by rewrite El|].
    rewrite lookup_insert_eq. done.
  - unfold the_row, consumer_row. rewrite E. cbn [consumers set_consumers set_sequences].
    destruct (decide (c' = consumer_str c)) as [->|Hne]; [right|left; by rewrite lookup_insert_ne by congruence].
    rewrite lookup_insert_eq. cbn [default]. unfold id. rewrite claimed_consumer_generation. unfold consumer_row.
    destruct (consumers db !! _); cbn; unfold id; lia.
Qed.

Lemma quiet_schedules db m : quiet db (set_schedules m db).
Proof. by apply quiet_tables. Qed.

Lemma scope_cases sc' : scope_ok sc' -> sc' = sc \/ sk <> scope_key sc'.
Proof.
  intros Hsc'. destruct (decide (sk = scope_key sc')) as [E|]; [left|by right].
  by apply scope_key_inj in E.
Qed.

Lemma quiet_step_quiet db db' : quiet_step db db' -> quiet db db'.
Proof.
  intros [o clock b W|o sc' c' w now until limit Hsc'|o clock sc' c' w g through Hsc' Hne
    |o sc' w now until limit Hw|o clock sc' id w g completion|o clock sc' id|sc' d Hsc' Hne Hs].
  - unfold commit. destruct (digest sha256 b) as [d|] eqn:Hd; [|apply quiet_refl].
    apply digest_valid in Hd. apply run_txn_inv; [apply quiet_refl|].
    intros r db1 [[_ ->]|(now & _ & F)]%apply_commit_cases; [apply quiet_refl|by eapply quiet_fresh|done..].
  - destruct (scope_cases sc' Hsc') as [->|Hne]; [|by apply quiet_same, claim_outbox_isolated].
    unfold claim_outbox. destruct (_ || _ || _); [apply quiet_refl|]. apply run_txn_inv; [apply quiet_refl|].
    intros b db1 H%claim_outbox_body_Ok. by eapply quiet_outbox_claim.
  - destruct (scope_cases sc' Hsc') as [->|Hk]; [|by apply quiet_same, ack_outbox_isolated].
    destruct Hne as [|Hne]; [done|].
    unfold ack_outbox. destruct (_ || _); [apply quiet_refl|]. apply run_txn_inv; [apply quiet_refl|].
    intros u db1 [(row & t & _ & _ & _ & _ & _ & ->)]%ack_outbox_body_Ok. apply quiet_tables; try done.
    cbn [consumers set_consumers]. apply lookup_insert_ne. intros [= E]. destruct c, c'. cbn in E. congruence.
  - unfold claim_due_scheduled. destruct (_ || _ || _); [apply quiet_refl|].
    apply run_txn_inv; [apply quiet_refl|]. intros recs db1 (_ & _ & _ & ->)%claim_due_body_Ok.
    apply quiet_schedules.
  - destruct (complete_scheduled _ _ _ _ _ _ _ _) as [r db1] eqn:E. cbn [snd].
    apply complete_scheduled_cases in E as [->|(row & t & _ & _ & ->)]; [apply quiet_refl|apply quiet_schedules].
  - unfold cancel_scheduled. apply run_txn_inv; [apply quiet_refl|].
    intros r db1 [->|(row & t & _ & _ & ->)]%cancel_body_cases; [apply quiet_refl|apply quiet_schedules].
  - apply quiet_same. eapply admin_step_isolated; [|done]. intros E. by apply scope_key_inj in E.
Qed.

Lemma quiet_step_ok db db' : db_ok db -> quiet_step db db' -> db_ok db'.
Proof.
  intros Hdb []; [by apply commit_ok|by apply claim_outbox_preserves|by apply ack_outbox_preserves
    |by apply claim_due_preserves|by apply complete_preserves|by apply cancel_preserves
    |by eapply admin_step_ok].
Qed.

(** Behind a position, at or before it. *)
Definition covered (position : option OutboxCursor) (e : OutboxEventRecord) : Prop := ~ after position e.

Definition position_of (db : Db) (position : option OutboxCursor) : Prop :=
  decode_optional_cursor (c_cursor_sequence (the_row db)) (c_cursor_event (the_row db)) = Ok position.

(** The consumer's lease is released, or the position it can acknowledge is the last event of the batch. *)
Definition claims_last (b : ClaimedOutboxBatch) (row : ConsumerRow) : Prop :=
  c_lease_owner row = None
  \/ exists ev, last (co_events b) = Some ev /\ c_claimed_sequence row = Some (oe_commit_sequence ev)
       /\ c_claimed_event row = Some (id_to_string (oe_event_id ev)).

(** What holds at every moment: events up to the acknowledged position, and events up to the last
    one of a received batch, have been handed out; and what can be acknowledged under the lease
    generation of a received batch is its last event. *)
Record delivery_inv (db : Db) (received : list ClaimedOutboxBatch) : Prop := {
  di_ok : db_ok db;
  di_acknowledged position e : position_of db position -> stored_event sk db e ->
    covered position e -> delivered received e;
  di_received b ev : b ∈ received -> last (co_events b) = Some ev ->
    oe_commit_sequence ev <= reached db /\ id_ok (oe_event_id ev)
    /\ forall e, stored_event sk db e -> covered (Some (OutboxEventRecord_cursor ev)) e -> delivered received e;
  di_generation b : b ∈ received -> co_lease_generation b <= c_lease_generation (the_row db);
  di_lease b row : b ∈ received -> consumers db !! (sk, consumer_str c) = Some row ->
    c_lease_generation row = co_lease_generation b -> claims_last b row
}.

Lemma covered_sequence n ev position e : decode_optional_cursor n ev = Ok position ->
  covered position e -> oe_commit_sequence e <= n.
Proof.
  unfold covered, decode_optional_cursor. destruct ev as [ev|].
  - destruct (Z.eqb_spec n 0); [done|]. intros H. apply rbind_Ok in H as (id & _ & [= <-]). cbn [after].
    unfold cursor_cmp. cbn [oc_commit_sequence OutboxEventRecord_cursor].
    destruct (Z.compare_spec n (oe_commit_sequence e)); cbn [cmp_then]; [lia| |lia]. by intros [].
  - destruct (n =? 0); [|done]. intros [= <-]. cbn [after]. by intros [].
Qed.

Lemma covered_event_sequence ev e :
  covered (Some (OutboxEventRecord_cursor ev)) e -> oe_commit_sequence e <= oe_commit_sequence ev.
Proof.
  unfold covered. cbn [after]. unfold cursor_cmp. cbn [oc_commit_sequence OutboxEventRecord_cursor].
  destruct (Z.compare_spec (oe_commit_sequence ev) (oe_commit_sequence e)); cbn [cmp_then]; [lia| |lia].
  by intros [].
Qed.

Lemma position_reached db : db_ok db -> c_cursor_sequence (the_row db) <= reached db.
Proof.
  intros Hdb. unfold the_row, consumer_row, reached.
  destruct (consumers db !! (sk, consumer_str c)) as [row|] eqn:El; cbn [default].
  - pose proof (inv_consumers _ Hdb _ _ El) as ([n Hn] & Hcur & _). cbn [fst] in *.
    pose proof (inv_sequences _ Hdb _ _ Hn) as Hb. cbn beta in Hb. rewrite Hn. cbn [default]. unfold Datatypes.id.
    destruct (Z.eqb_spec (c_cursor_sequence row) 0) as [->|]; [lia|].
    destruct (c_cursor_event row); [|done]. destruct Hcur as [(m & Hm & ?) _]. rewrite Hn in Hm.
    injection Hm as <-. lia.
  - destruct (sequences db !! sk) as [n|] eqn:Hn; cbn; [|done].
    pose proof (inv_sequences _ Hdb _ _ Hn) as Hb. cbn beta in Hb. unfold Datatypes.id. lia.
Qed.

(** Quiet steps keep the delivery invariant. *)
Lemma delivery_inv_quiet db db' received : delivery_inv db received -> db_ok db' -> quiet db db' ->
  delivery_inv db' received.
Proof.
  intros [Hdb Hack Hrec Hgen Hlease] Hdb' [[Hp1 Hp2] Hev Hre Hq]. split; [done|..].
  - intros position e Hpos He Hcov. unfold position_of in *. rewrite Hp1, Hp2 in Hpos.
    destruct (Hev e He) as [He'|Hlt]; [by eapply Hack|].
    pose proof (covered_sequence _ _ _ _ Hpos Hcov). pose proof (position_reached db Hdb). lia.
  - intros b ev Hb Hl. destruct (Hrec b ev Hb Hl) as (Hs & Hid & Hd). split; [lia|]. split; [done|].
    intros e He Hcov.
    destruct (Hev e He) as [He'|Hlt]; [by apply Hd|]. apply covered_event_sequence in Hcov. lia.
  - intros b Hb. pose proof (Hgen b Hb). destruct Hq as [E|]; [|lia]. unfold the_row, consumer_row in *. by rewrite E.
  - intros b row Hb Hr Eg. destruct Hq as [E|Hlt]; [apply (Hlease b row Hb); congruence|].
    pose proof (Hgen b Hb). assert (the_row db' = row) as Er by (unfold the_row, consumer_row; by rewrite Hr). rewrite Er in Hlt. lia.
Qed.

Lemma delivered_cons b received e : delivered received e -> delivered (b :: received) e.
Proof. intros (b' & Hb & He). exists b'. split; [by right|done]. Qed.

Lemma stored_event_unique db e e' : stored_event sk db e -> stored_event sk db e' ->
  event_cmp e e' = Eq -> e = e'.
Proof.
  intros (Hi & row & El & Hd) (Hi' & row' & El' & Hd') Hc.
  unfold event_cmp, cmp_on, cursor_cmp in Hc. cbn [oc_commit_sequence oc_event_id OutboxEventRecord_cursor] in Hc.
  destruct (_ ?= _) eqn:Es in Hc; cbn [cmp_then] in Hc; try done. apply Z.compare_eq in Hc.
  assert (oe_event_id e = oe_event_id e') as E
    by (destruct (oe_event_id e), (oe_event_id e'); cbn in Hc; congruence).
  rewrite E in *. congruence.
Qed.

Lemma cursor_cmp_antisym x y : cursor_cmp y x = CompOpp (cursor_cmp x y).
Proof.
  unfold cursor_cmp. rewrite (Z.compare_antisym (oc_commit_sequence x)), (Z.compare_antisym (as_ulid _)).
  by destruct (_ ?= _).
Qed.

(** A new batch covers what it hands out and what was acknowledged before it. *)
Lemma claimed_covered position db limit events ev e :
  limit_query event_cmp (fun e => stored_event sk db e /\ after position e) limit events ->
  last events = Some ev -> stored_event sk db e ->
  covered (Some (OutboxEventRecord_cursor ev)) e -> covered position e \/ e ∈ events.
Proof.
  intros Hq Hl He Hcov. assert (ev ∈ events) as Hev by (apply last_Some in Hl as [l ->]; set_solver).
  destruct (decide (Exists (fun x => event_cmp x e = Eq) events)) as [(x & Hx & Exe)%Exists_exists|Hno].
  { right. destruct (lq_sound _ _ _ _ Hq x Hx) as [Hsx _].
    apply (stored_event_unique db) in Exe; [|done..]. by subst. }
  assert (e ∉ events) as Hne.
  { intros Hin. apply Hno, Exists_exists. exists e. split; [done|].
    unfold event_cmp, cmp_on, cursor_cmp. by rewrite !Z.compare_refl. }
  left. intros Ha.
  destruct (lq_complete _ _ _ _ Hq e (conj He Ha) Hne) as [_ Hle]. specialize (Hle ev Hev).
  unfold covered in Hcov. cbn [after] in Hcov. unfold cmp_le, event_cmp, cmp_on in Hle.
  assert (event_cmp ev e = Eq) as E.
  { unfold event_cmp, cmp_on. by destruct (cursor_cmp _ _). }
  destruct (lq_sound _ _ _ _ Hq ev Hev) as [Hs _].
  apply (stored_event_unique db) in E; [|done..]. by subst.
Qed.

Lemma delivery_inv_claim db received o w now until limit b db' : delivery_inv db received ->
  claim_outbox o sc c w now until limit db = (Ok b, db') -> delivery_inv db' (b :: received).
Proof.
  intros Hinv Hc. assert (db_ok db') as Hdb'.
  { pose proof (claim_outbox_preserves o sc c w now until limit db (di_ok _ _ Hinv)) as H. by rewrite Hc in H. }
  pose proof (claim_outbox_Ok _ _ _ _ _ _ _ _ _ _ Hc) as H.
  pose proof (oc_cursor _ _ _ _ _ _ _ _ _ H) as Hpos.
  assert (position_of db (co_acknowledged_through b)) as Hp.
  { unfold position_of, the_row. destruct (consumer_row_cursor sk (consumer_str c) 0 now db) as [-> ->]. done. }
  pose proof (outbox_events_query _ _ _ _ _ _ _ Hpos (oc_events _ _ _ _ _ _ _ _ _ H)) as Hq.
  pose proof (delivery_inv_quiet db db' received Hinv Hdb' (quiet_outbox_claim _ _ _ _ _ _ _ _ H)) as [_ Hack Hrec Hgen Hlease].
  destruct (oc_generation _ _ _ _ _ _ _ _ _ H) as [Eg _].
  assert (consumers db' !! (sk, consumer_str c)
    = Some (claimed_consumer (consumer_row sk (consumer_str c) now db) (id_to_string w) now until (co_events b))) as Erow
    by (rewrite (oc_db _ _ _ _ _ _ _ _ _ H); apply lookup_insert_eq).
  assert (forall e, stored_event sk db' e <-> stored_event sk db e) as Hsame.
  { intros e. unfold stored_event. by rewrite (oc_db _ _ _ _ _ _ _ _ _ H). }
  split; [done|..].
  - intros position e ? ? ?. apply delivered_cons. by eapply Hack.
  - intros b' ev [->|Hb']%elem_of_cons Hl.
    + destruct (last_claimed_position sk _ _ db _ _ _ (di_ok _ _ Hinv) (oc_events _ _ _ _ _ _ _ _ _ H) Hl)
        as [(m & Hm & Hb) Hid].
      split; [unfold reached; rewrite (oc_sequences _ _ _ _ _ _ _ _ _ H), Hm, Hm; cbn; lia|]. split; [done|].
      intros e He Hcov. apply Hsame in He.
      destruct (claimed_covered _ _ _ _ _ _ Hq Hl He Hcov) as [Hpc|Hin].
      * apply delivered_cons. by eapply (di_acknowledged _ _ Hinv).
      * exists b. split; [left|done].
    + destruct (Hrec b' ev Hb' Hl) as (? & ? & Hd). split; [done|]. split; [done|].
      intros. by apply delivered_cons, Hd.
  - intros b' [->|Hb']%elem_of_cons; [|by apply Hgen]. unfold the_row, consumer_row. rewrite Erow. cbn [default]. unfold Datatypes.id.
    by rewrite claimed_consumer_generation, Eg.
  - intros b' row [->|Hb']%elem_of_cons Hr; [|by apply Hlease]. intros _. rewrite Erow in Hr. injection Hr as <-.
    unfold claims_last, claimed_consumer. destruct (last (co_events b)) as [ev|]; [right; by exists ev|by left].
Qed.

(** The position an acknowledgement leaves. *)
Lemma acknowledged_position db g t ev position : id_ok (oe_event_id ev) ->
  position_of (set_consumers (<[(sk, consumer_str c) := mkConsumerRow (oc_commit_sequence (OutboxEventRecord_cursor ev))
    (Some (id_to_string (oc_event_id (OutboxEventRecord_cursor ev)))) None None g None None t]> (consumers db)) db) position ->
  position = Some (OutboxEventRecord_cursor ev).
Proof.
  intros Hok. unfold position_of, the_row, consumer_row. cbn [consumers set_consumers]. rewrite lookup_insert_eq.
  cbn [default c_cursor_sequence c_cursor_event Datatypes.id from_option]. unfold decode_optional_cursor.
  destruct (_ =? 0); [done|]. intros (id & [Hid Eid]%parse_id_Ok & [= <-])%rbind_Ok.
  apply id_to_string_inj in Eid; [|done..]. cbn in Eid. by rewrite <- Eid.
Qed.

Lemma delivery_inv_ack db received o clock w b through : delivery_inv db received -> b ∈ received ->
  delivery_inv (snd (ack_outbox o clock sc c w (co_lease_generation b) through db)) received.
Proof.
  intros Hinv Hb. pose proof (ack_outbox_preserves o clock sc c w (co_lease_generation b) through db (di_ok _ _ Hinv)) as H.
  revert H. unfold ack_outbox. destruct (_ || _); [done|].
  apply run_txn_inv; [done|]. intros u db' [(row & t & El & Ho & Eg & Es & Ee & ->)]%ack_outbox_body_Ok Hdb'.
  destruct (di_lease _ _ Hinv b row Hb El Eg) as [|(ev & Hl & Es' & Ee')]; [congruence|].
  assert (oc_commit_sequence through = oe_commit_sequence ev) as Hseq by congruence.
  assert (id_to_string (oc_event_id through) = id_to_string (oe_event_id ev)) as Hid by congruence.
  destruct (di_received _ _ Hinv b ev Hb Hl) as (_ & Hok & Hd). split; [done|..].
  - intros position e' Hpos He' Hcov. rewrite Hseq, Hid in Hpos.
    apply (acknowledged_position db (co_lease_generation b) t ev) in Hpos; [|done]. subst position. by apply Hd.
  - intros b' ev' Hb' Hl'. by apply (di_received _ _ Hinv b' ev').
  - intros b' Hb'. pose proof (di_generation _ _ Hinv b' Hb') as Hg. unfold the_row, consumer_row in *.
    rewrite El in Hg. cbn [consumers set_consumers]. rewrite lookup_insert_eq. cbn in *. unfold Datatypes.id in *. lia.
  - intros b' row' Hb'. cbn [consumers set_consumers]. rewrite lookup_insert_eq. intros [= <-] _. by left.
Qed.

Lemma delivery_step_inv s s' : delivery_step s s' ->
  delivery_inv (fst s) (snd s) -> delivery_inv (fst s') (snd s').
Proof.
  destruct 1 as [db received o w now until limit b db' Hc|db received o clock w b through Hb|db received db' Hq];
    cbn [fst snd]; intros Hinv.
  - by eapply delivery_inv_claim.
  - by eapply delivery_inv_ack.
  - eapply delivery_inv_quiet; [done| |by apply quiet_step_quiet]. eapply quiet_step_ok; [|done]. apply Hinv.
Qed.

Lemma delivery_inv_start db : db_ok db -> consumers db !! (sk, consumer_str c) = None -> delivery_inv db [].
Proof.
  intros Hdb Hn. split; [done|..].
  - intros position e Hp _ Hcov. unfold position_of, the_row, consumer_row in Hp. rewrite Hn in Hp.
    cbn in Hp. injection Hp as <-. by destruct Hcov.
  - by intros b ev Hb%not_elem_of_nil.
  - by intros b Hb%not_elem_of_nil.
  - by intros b row Hb%not_elem_of_nil.
Qed.
End delivery.

Section delivery_claim.
Context {UL : UlidLib} {ULL : UlidLaws}.

(** C7: No outbox event is skipped.  Start a consumer that is not registered yet on any well-formed
    database and let operations interleave that neither seed, import nor reset this Environment:
    commits appending events, claims whose answers arrive or are lost, leases expiring and passing to
    other workers, other consumers, the scheduler, seeds, imports and resets of other Environments.
    The workers acknowledge any cursor, under any worker's name, but only under lease generations that
    came with a batch they were handed.  Then every event at or before the consumer's acknowledged
    position has been handed to one of its workers. *)
Theorem no_event_skipped sha256 sc c db0 db received position e :
  scope_ok sc -> db_ok db0 -> consumers db0 !! (scope_key sc, consumer_str c) = None ->
  rtc (delivery_step sha256 sc c) (db0, []) (db, received) ->
  position_of sc c db position -> stored_event (scope_key sc) db e -> ~ after position e ->
  exists b, b ∈ received /\ e ∈ co_events b.
Proof.
  intros Hsc Hdb Hn Hsteps Hp He Hcov.
  assert (forall s s', rtc (delivery_step sha256 sc c) s s' ->
            delivery_inv sc c (fst s) (snd s) -> delivery_inv sc c (fst s') (snd s')) as Hrun
    by (induction 1; eauto using delivery_step_inv).
  apply Hrun in Hsteps; [|by apply delivery_inv_start]. by eapply (di_acknowledged _ _ _ _ Hsteps).
Qed.
End delivery_claim.

(** ** Examples on the demonstration database *)

Lemma demo_released_keeps : keeps demo_sha sample_scope demo_leased demo_released.
Proof.
  exists sample_scope. split; [apply scopes_ok|left]. unfold demo_released. constructor.
  apply worker_ok. lia.
Qed.

Lemma schedule_history_witness :
  match schedules demo_db !! demo_key, schedules demo_leased !! demo_key with
  | Some row, Some row' => rtc row_step row row' /\ row_evolves row row'
  | _, _ => False
  end.
Proof.
  destruct (schedules demo_db !! demo_key) as [row|] eqn:El; [|vm_compute in El; discriminate].
  destruct (schedule_history demo_sha sample_scope demo_db demo_leased (from_ulid 9) row
    (proj1 scopes_ok) demo_leased_keeps El) as (row' & El' & Hsteps & Hev).
  change (scope_key sample_scope, id_to_string (from_ulid 9)) with demo_key in El'.
  rewrite El'. split; [exact Hsteps|exact Hev].
Defined.

Lemma stale_lease_rejected_witness :
  complete_scheduled TO_Commit (Some 350) sample_scope (from_ulid 9) (from_ulid 11) 1 SC_Succeeded demo_released
  = (Err SE_LeaseLost, demo_released).
Proof.
  destruct (schedules demo_released !! demo_key) as [row|] eqn:El; [|vm_compute in El; discriminate].
  apply (stale_lease_rejected demo_sha sample_scope demo_released demo_released (from_ulid 9) row
    (from_ulid 11) 1 SC_Succeeded (Some 350) 350 (proj1 scopes_ok) (rtc_refl _ _) El);
    [|split; [reflexivity|discriminate]|reflexivity|reflexivity].
  vm_compute in El. injection El as <-. reflexivity.
Defined.

(** The demonstration event claimed by worker 11 and acknowledged. *)
Definition demo_batch_claimed : ClaimedOutboxBatch := mkClaimedOutboxBatch 1 None [demo_event].
Definition demo_acknowledged : Db :=
  snd (ack_outbox TO_Commit (Some 65) sample_scope demo_consumer (from_ulid 11) 1
         (OutboxEventRecord_cursor demo_event) demo_claimed).

Lemma demo_claim :
  fst (claim_outbox TO_Commit sample_scope demo_consumer (from_ulid 11) 60 70 10 demo_db) = Ok demo_batch_claimed.
Proof. vm_compute. reflexivity. Qed.

Lemma demo_delivery : rtc (delivery_step demo_sha sample_scope demo_consumer) (demo_db, [])
  (demo_acknowledged, [demo_batch_claimed]).
Proof.
  eapply rtc_l.
  - eapply (deliver _ _ _ demo_db [] TO_Commit (from_ulid 11) 60 70 10 demo_batch_claimed demo_claimed).
    unfold demo_claimed. pose proof demo_claim as H.
    destruct (claim_outbox _ _ _ _ _ _ _ _) as [r db]. cbn [fst snd] in *. by rewrite H.
  - apply rtc_once. unfold demo_acknowledged. apply (acknowledge _ _ _ demo_claimed [demo_batch_claimed] TO_Commit (Some 65) (from_ulid 11) demo_batch_claimed). left.
Qed.

Lemma no_event_skipped_witness : exists b, b ∈ [demo_batch_claimed] /\ demo_event ∈ co_events b.
Proof.
  apply (no_event_skipped demo_sha sample_scope demo_consumer demo_db demo_acknowledged [demo_batch_claimed]
    (Some (OutboxEventRecord_cursor demo_event)) demo_event (proj1 scopes_ok) demo_db_ok).
  - vm_compute. reflexivity.
  - exact demo_delivery.
  - vm_compute. reflexivity.
  - split; [split; [discriminate|reflexivity]|].
    destruct (outbox demo_acknowledged !! (scope_key sample_scope, id_to_string (oe_event_id demo_event)))
      as [row|] eqn:El; [|vm_compute in El; discriminate].
    exists row. split; [reflexivity|]. vm_compute in El. injection El as <-. vm_compute. reflexivity.
  - vm_compute. discriminate.
Defined.
