(* ===== verification/MutationSqlite.v ===== *)
(** * Mutations on the SQLite store

    The SQLite adapter is a store in the sense of Execution: its commits, reads and journal discharge
    the laws the Mutation coordinator is proved against.  What follows is the behaviour of the two
    together: Mutations are serializable and keep the indexes exact as long as no document they
    read is removed meanwhile, and what happens when one is. *)

From Stdlib Require Import Strings.Byte ZArith Lia.
From stdpp Require Import prelude strings gmap sorting list relations.
From S2P Require Import Prelude Order BTreeMap Ulid Value StoredValue IndexKey Core Schema Release Manifest Bundle StoreModel.
From S2P Require Import Batch Execution Mutation MutationSession MutationCommit MutationExecute Sql SqliteStore.
From S2P Require Import SqliteCommit SqliteInvariant SqliteReads SqliteOutbox SqliteExport SqliteSchedule SqliteSystem SqliteJournal.

(** ** The instance *)

#[export] Instance sqlite_store (sha256 : bytes -> bytes) {UL : UlidLib}
  : LogicalStore Db SqliteSnapshot (TxnOutcome * option Z) := {
  ls_begin_read := begin_read;
  ls_commit_sequence := snap_sequence;
  ls_get_document := get_document;
  ls_scan_index := scan_index;
  ls_commit := fun w b db => commit sha256 (fst w) (snd w) b db
}.

Section view.
Context {UL : UlidLib}.

Definition sqlite_document (db : Db) (sc : EnvironmentScope) (k : doc_key) : option DocumentRecord :=
  match get_document (snapshot_of sc db) (fst k) (snd k) with Ok o => o | Err _ => None end.

Definition sqlite_entry (db : Db) (sc : EnvironmentScope) (i : IndexId) (key : bytes) (d : DocumentId)
  : option (TableId * Z) :=
  match indexes db !! (scope_key sc, (id_to_string i, key, id_to_string d)) with
  | Some row =>
      match decode_index_row (id_to_string i) key (id_to_string d) row with
      | Ok e => Some (ie_table_id e, ie_document_revision e)
      | Err _ => None
      end
  | None => None
  end.

Definition sqlite_view : StoreView Db :=
  mkStoreView Db db_ok sqlite_document sqlite_entry
    (fun db sc op => is_Some (operations db !! (scope_key sc, id_to_string op))).
End view.

(** ** Conflicts *)

(** A computation that never reports a conflict. *)
Definition conflict_free {A} (r : result StoreError A) : Prop := r <> Err SE_MutationConflict.

Create HintDb conflict_free.

Lemma conflict_free_Ok {A} (a : A) : conflict_free (Ok a).
Proof. done. Qed.
Lemma conflict_free_bind {A B} (m : result StoreError A) (k : A -> result StoreError B) :
  conflict_free m -> (forall a, conflict_free (k a)) -> conflict_free (rbind m k).
Proof. unfold conflict_free. intros Hm Hk. destruct m as [a|e]; cbn; [apply Hk|]. congruence. Qed.
Lemma conflict_free_map {A B} (f : A -> result StoreError B) l :
  (forall a, conflict_free (f a)) -> conflict_free (try_map f l).
Proof.
  intros Hf. induction l as [|x l IH]; cbn [try_map]; [done|].
  apply conflict_free_bind; [done|]. intros y. by apply conflict_free_bind.
Qed.
#[export] Hint Resolve conflict_free_Ok conflict_free_bind conflict_free_map : conflict_free.

Section digest.
Context {UL : UlidLib}.

Lemma hash_count_free n : conflict_free (hash_count n).
Proof. unfold hash_count. by destruct (try_from_u _ _). Qed.
Lemma hash_bytes_free w : conflict_free (hash_bytes w).
Proof. unfold hash_bytes. by destruct (try_from_u _ _). Qed.
Lemma encode_value_free v : conflict_free (encode_value v).
Proof. unfold encode_value. by destruct (encode_stored_value v) as [|[]]. Qed.
#[local] Hint Resolve hash_count_free hash_bytes_free encode_value_free : conflict_free.

Lemma hash_list_free {A} (f : A -> result StoreError bytes) l :
  (forall a, conflict_free (f a)) -> conflict_free (hash_list f l).
Proof. unfold hash_list. auto with conflict_free. Qed.
#[local] Hint Resolve hash_list_free : conflict_free.

Lemma hash_read_free a : conflict_free (hash_read a).
Proof. unfold hash_read, hash_text. auto with conflict_free. Qed.
Lemma hash_document_free m : conflict_free (hash_document m).
Proof. destruct m; unfold hash_document, hash_text; auto 8 with conflict_free. Qed.
Lemma hash_index_free m : conflict_free (hash_index m).
Proof. destruct m; unfold hash_index, hash_text; auto 8 with conflict_free. Qed.
Lemma hash_outbox_free e : conflict_free (hash_outbox e).
Proof. unfold hash_outbox, hash_text. auto with conflict_free. Qed.
Lemma hash_schedule_free s : conflict_free (hash_schedule s).
Proof. unfold hash_schedule, hash_text. destruct (sn_idempotency_key s); auto 10 with conflict_free. Qed.
#[local] Hint Resolve hash_read_free hash_document_free hash_index_free hash_outbox_free hash_schedule_free : conflict_free.

Lemma digest_free sha256 b : batch_valid b -> conflict_free (digest sha256 b).
Proof.
  intros Hv%validate_spec. unfold digest. rewrite Hv. cbn [rbind]. apply conflict_free_bind; [|auto with conflict_free].
  unfold digest_preimage, hash_text. destruct (b_intent_context b); auto 16 with conflict_free.
Qed.

Lemma positive_u64_free n : conflict_free (positive_u64 n).
Proof. unfold positive_u64. destruct (n <=? 0); [done|]. by destruct (try_from_u _ _). Qed.
Lemma parse_id_free k w : conflict_free (parse_id k w).
Proof. unfold parse_id. by destruct (id_from_str k w). Qed.
#[local] Hint Resolve positive_u64_free parse_id_free : conflict_free.

Lemma load_operation_free b dg db : conflict_free (load_operation b dg db).
Proof.
  unfold load_operation. destruct (operations db !! _) as [row|]; [|done]. destruct (bool_decide _); [done|].
  apply conflict_free_bind; [apply positive_u64_free|]. intros n. apply conflict_free_bind.
  - apply conflict_free_map. intros r. unfold decode_result_row. destruct (rs_revision (snd r)); cbn; auto 8 with conflict_free.
  - intros ds. by destruct (negb _).
Qed.

Lemma load_operation_None b dg db : load_operation b dg db = Ok None ->
  operations db !! (scope_key (b_scope b), id_to_string (b_operation_id b)) = None.
Proof.
  unfold load_operation. destruct (operations db !! _) as [row|]; [|done]. destruct (bool_decide _); [done|].
  intros (n & _ & H)%rbind_Ok. apply rbind_Ok in H as (ds & _ & H). by destruct (negb _).
Qed.

(** A recorded operation is answered, or refused for another reason than a conflict. *)
Lemma commit_recorded_free sha256 o clock b db : batch_valid b ->
  is_Some (operations db !! (scope_key (b_scope b), id_to_string (b_operation_id b))) ->
  conflict_free (fst (commit sha256 o clock b db)).
Proof.
  intros Hv [row Hl]. unfold commit. pose proof (digest_free sha256 b Hv) as Hf.
  destruct (digest sha256 b) as [dg|e]; [clear Hf|unfold conflict_free in *; cbn; congruence].
  assert (conflict_free (apply_commit clock b dg db)) as Hbody.
  { unfold apply_commit. pose proof (load_operation_free b dg db) as Hf.
    destruct (load_operation b dg db) as [[r|]|e] eqn:E; [done| |unfold conflict_free in *; cbn; congruence].
    apply load_operation_None in E. congruence. }
  unfold conflict_free in *. destruct o as [|[]|e ap]; cbn [run_txn]; try done;
    destruct (apply_commit _ _ _ _) as [[r db']|e']; cbn; try congruence. by destruct e.
Qed.
End digest.

(** ** The laws *)

Section laws.
Context {UL : UlidLib} {ULL : UlidLaws}.
Variable sha256 : bytes -> bytes.

Lemma sqlite_begin sc db : db_ok db -> begin_read sc db = Ok (snapshot_of sc db).
Proof.
  intros Hdb. unfold begin_read, snapshot_of.
  rewrite (proj2 (positive_or_zero_u64_Ok _ (default 0 (sequences db !! scope_key sc)))); [done|].
  destruct (sequences db !! _) eqn:E; cbn; [|done].
  apply (inv_sequences _ Hdb) in E. split; [done|]. unfold u64_max, i64_max in *. lia.
Qed.

Lemma sqlite_get sc db k : db_ok db -> doc_key_ok k ->
  get_document (snapshot_of sc db) (fst k) (snd k) = Ok (sqlite_document db sc k).
Proof.
  intros Hdb [Ht Hd]. unfold sqlite_document.
  destruct (shown_row sc db (fst k) (snd k) Hdb Ht Hd) as (o & Ho & _). unfold shown in Ho. by rewrite Ho.
Qed.

Lemma sqlite_document_shown sc db t d o : shown (snapshot_of sc db) t d o -> sqlite_document db sc (t, d) = o.
Proof. unfold shown, sqlite_document. cbn [fst snd]. by intros ->. Qed.

(** A document as the row it is stored in. *)
Lemma sqlite_document_row sc db k r : db_ok db -> doc_key_ok k -> sqlite_document db sc k = Some r ->
  exists row, documents db !! (scope_key sc, (id_to_string (fst k), id_to_string (snd k))) = Some row
    /\ decode_document_row (id_to_string (fst k)) (id_to_string (snd k)) row = Ok r.
Proof.
  intros Hdb Hk Hr. pose proof (sqlite_get sc db k Hdb Hk) as Hg. rewrite Hr in Hg. unfold get_document in Hg.
  cbn [snapshot_of snap_db snap_scope] in Hg. destruct (documents db !! _) as [row|]; [|done].
  cbn [opt_map] in Hg. apply rbind_Ok in Hg as (r' & Hr' & [= ->]). eauto.
Qed.

Lemma sqlite_record sc db k r : db_ok db -> doc_key_ok k -> sqlite_document db sc k = Some r ->
  (dr_table_id r, dr_document_id r) = k /\ 0 < dr_revision r <= i64_max
  /\ dr_commit_sequence r <= default 0 (sequences db !! scope_key sc) /\ value_ok (dr_value r) = true.
Proof.
  intros Hdb Hk Hr. destruct (sqlite_document_row _ _ _ _ Hdb Hk Hr) as (row & Hl & Hdec). destruct Hk as [Ht Hd].
  pose proof (inv_documents _ Hdb _ _ Hl) as (Hb & Hrev & _). cbn [fst] in Hb.
  assert (0 < d_revision row) as Hpos.
  { unfold decode_document_row in Hdec. do 2 apply rbind_Ok in Hdec as (? & _ & Hdec).
    apply rbind_Ok in Hdec as (? & [_ ?]%positive_u64_Ok & _). lia. }
  apply decode_document_row_Ok in Hdec as (Ht' & Et & Hd' & Ed & -> & -> & _ & _ & Hv & _).
  apply id_to_string_inj in Et, Ed; [|done..]. destruct k as [t d]. cbn [fst snd] in *. subst.
  split; [done|]. split; [lia|]. split; [|done].
  destruct Hb as (m & -> & Hm). cbn. lia.
Qed.

Section fresh.
Variables (b : CommitBatch) (dg : bytes) (now : Z) (db : Db) (res : CommitResult) (db' : Db).
Hypotheses (Hdb : db_ok db) (W : batch_wf b) (F : fresh_commit b dg now db res db').

Lemma fresh_mutation m : m ∈ b_documents b -> exists d, mutation_shown (snapshot_of (b_scope b) db)
  (snapshot_of (b_scope b) db') (cr_commit_sequence res) m d.
Proof.
  intros [i Hi]%list_elem_of_lookup.
  destruct (fresh_commit_shown b dg now db res db' Hdb W F) as (_ & _ & _ & Hm & _).
  destruct (Forall2_lookup_l _ _ _ _ _ Hm Hi) as (d & _ & Hd). eauto.
Qed.

Lemma fresh_put i k t d n : IM_Put i k t d n ∈ b_indexes b ->
  sqlite_entry db' (b_scope b) i (encoded k) d = Some (t, n).
Proof.
  intros Hin. pose proof (wf_indexes _ W) as Hw. rewrite Forall_forall in Hw.
  destruct (Hw _ Hin) as (Hi & Hk & Ht & Hd & Hn%is_u64_spec).
  pose proof (fc_indexes _ _ _ _ _ _ F _ Hin) as Htr. unfold index_row_key in Htr. cbn [im_identity] in Htr.
  unfold sqlite_entry. destruct (indexes db' !! _) as [e|]; inversion Htr; subst.
  rewrite decode_written_index; [done|done..|lia|apply (fc_sequence _ _ _ _ _ _ F)].
Qed.

Lemma fresh_remove i k d : IM_Delete i k d ∈ b_indexes b -> sqlite_entry db' (b_scope b) i (encoded k) d = None.
Proof.
  intros Hin. pose proof (fc_indexes _ _ _ _ _ _ F _ Hin) as Htr. unfold index_row_key in Htr. cbn [im_identity] in Htr.
  unfold sqlite_entry. by destruct (indexes db' !! _) as [e|]; inversion Htr.
Qed.

Lemma fresh_entries_frame i k d : id_ok i -> id_ok d -> (i, k, d) ∉ map im_identity (b_indexes b) ->
  sqlite_entry db' (b_scope b) i k d = sqlite_entry db (b_scope b) i k d.
Proof.
  intros Hi Hd Hno. unfold sqlite_entry. rewrite (fc_indexes_frame _ _ _ _ _ _ F); [done|].
  intros m Hm E. apply Hno. apply list_elem_of_In, in_map_iff. exists m. split; [|by apply list_elem_of_In].
  pose proof (wf_indexes _ W) as Hw. rewrite Forall_forall in Hw. pose proof (index_ids_ok m (Hw m Hm)) as Hids.
  unfold index_row_key in E. destruct (im_identity m) as [[i' k'] d']. destruct Hids.
  apply pair_equal_spec in E as [_ [[E1 E2]%pair_equal_spec E3]%pair_equal_spec]. apply id_to_string_inj in E1, E3; [|done..]. congruence.
Qed.

(** A fresh commit takes effect as the batch says. *)
Lemma fresh_applied : applied sqlite_view b db db'.
Proof.
  destruct (fresh_commit_shown b dg now db res db' Hdb W F) as (_ & _ & Hreads & _ & Hframe).
  pose proof (wf_documents _ W) as Wd. rewrite Forall_forall in Wd. split; cbn [recorded document entry sqlite_view].
  - rewrite (fc_new _ _ _ _ _ _ F). by intros [].
  - rewrite (fc_operations _ _ _ _ _ _ F), lookup_insert_eq. by eexists.
  - intros a Ha. destruct (Hreads a Ha) as (o & Ho%sqlite_document_shown & Hr). unfold read_key. by rewrite Ho.
  - intros m Hm. destruct (fresh_mutation m Hm) as (d & old & Hold%sqlite_document_shown & He & _).
    unfold document_key. by rewrite Hold.
  - intros t d e v Hm. destruct (fresh_mutation _ Hm) as (x & old & _ & _ & rec & Hrec%sqlite_document_shown & Hv & _ & Hr & _).
    by exists rec.
  - intros t d n Hm. by destruct (fresh_mutation _ Hm) as (x & old & _ & _ & Hrec%sqlite_document_shown & _).
  - intros [t d] [Ht Hd] Hno. unfold sqlite_document. cbn [fst snd] in *. rewrite Hframe; [done|done|done|].
    intros m Hm E. apply Hno. rewrite <- E. change (dm_table_id m, dm_document_id m) with (document_key m).
    apply list_elem_of_In, in_map. by apply list_elem_of_In.
  - apply fresh_put.
  - apply fresh_remove.
  - apply fresh_entries_frame.
Qed.
End fresh.

Lemma sqlite_commit w b db : db_ok db -> batch_wf b -> batch_valid b ->
  db_ok (snd (commit sha256 (fst w) (snd w) b db))
  /\ commit_effect sqlite_view b db (fst (commit sha256 (fst w) (snd w) b db)) (snd (commit sha256 (fst w) (snd w) b db)).
Proof.
  intros Hdb W Hv. split; [by apply commit_ok|].
  pose proof (commit_recorded_free sha256 (fst w) (snd w) b db Hv) as Hfree.
  destruct (commit sha256 (fst w) (snd w) b db) as [r db'] eqn:E. cbn [fst snd] in *.
  apply commit_cases in E; [|done]. destruct E as [dg res Hd Hl|dg now res db' Hd F|e|dg now res db' Hd F].
  - apply load_operation_recorded in Hl as [? ?]. by apply effect_replayed.
  - apply effect_applied; [apply F|]. by eapply fresh_applied.
  - apply effect_refused. intros Hrec ->. by apply (Hfree Hrec).
  - apply effect_uncertain. by eapply fresh_applied.
Qed.

#[export] Instance sqlite_laws : StoreLaws (LS := sqlite_store sha256) sqlite_view.
Proof.
  split; cbn [ls_begin_read ls_commit_sequence ls_get_document ls_commit sqlite_store store_ok document recorded sqlite_view].
  - intros sc db Hdb _. eexists. by apply sqlite_begin.
  - intros sc db s k Hdb _ Hk. rewrite sqlite_begin by done. intros [= <-]. by apply sqlite_get.
  - intros sc db s k r Hdb _ Hk. rewrite sqlite_begin by done. intros [= <-]. by apply sqlite_record.
  - intros w b db. apply sqlite_commit.
Qed.
End laws.

(** ** Versions of a document along a trace *)

Section versions.
Context {UL : UlidLib} {ULL : UlidLaws}.
Variables (sha256 : bytes -> bytes) (sc : EnvironmentScope).
Hypothesis (Hsc : scope_ok sc).

Lemma store_step_documents sc' db db' : store_step sha256 sc' db db' ->
  documents db' = documents db \/ exists b dg now r, fresh_commit b dg now db r db'.
Proof.
  intros [o clock b W _| | | | |].
  - destruct (commit sha256 o clock b db) as [r db1] eqn:E. cbn [snd]. apply commit_cases in E; [|done].
    destruct E as [| | |]; eauto 6.
  - left. unfold claim_outbox. destruct (_ || _ || _); [done|]. apply run_txn_inv; [done|].
    intros b db1 H%claim_outbox_body_Ok. by rewrite (oc_db _ _ _ _ _ _ _ _ _ H).
  - left. unfold ack_outbox. destruct (_ || _); [done|]. apply run_txn_inv; [done|].
    by intros b db1 [(row & t & _ & _ & _ & _ & _ & ->)]%ack_outbox_body_Ok.
  - left. unfold claim_due_scheduled. destruct (_ || _ || _); [done|]. apply run_txn_inv; [done|].
    by intros recs db1 (_ & _ & _ & ->)%claim_due_body_Ok.
  - left. destruct (complete_scheduled _ _ _ _ _ _ _ _) as [r db1] eqn:E. cbn [snd].
    by apply complete_scheduled_cases in E as [->|(row & t & _ & _ & ->)].
  - left. unfold cancel_scheduled. apply run_txn_inv; [done|].
    by intros r db1 [->|(row & t & _ & _ & ->)]%cancel_body_cases.
Qed.

(** The row is gone, the same, or of a higher revision. *)
Definition row_later (old new : option DocumentRow) : Prop :=
  forall row, old = Some row -> new = None \/ exists row', new = Some row' /\ (row' = row \/ d_revision row < d_revision row').

Lemma fresh_row_later b dg now db r db' k : fresh_commit b dg now db r db' ->
  row_later (documents db !! k) (documents db' !! k).
Proof.
  intros F. destruct (key_cases (fun m => (scope_key (b_scope b), row_key_of m)) (b_documents b) k) as [(m & Hm & ->)|Hno].
  - apply list_elem_of_lookup in Hm as [i Hi].
    destruct (Forall2_lookup_l _ _ _ _ _ (fc_documents _ _ _ _ _ _ F) Hi) as (d & _ & Ht).
    intros row E. rewrite E in Ht. inversion Ht; subst; [right|left; done]. eexists. split; [done|]. right. cbn. lia.
  - rewrite (fc_documents_frame _ _ _ _ _ _ F) by done. intros row ->. eauto.
Qed.

Lemma keeps_row_later db db' k : keeps sha256 sc db db' ->
  row_later (documents db !! (scope_key sc, k)) (documents db' !! (scope_key sc, k)).
Proof.
  intros (sc' & Hsc' & [H|[Hne H]]).
  - apply store_step_documents in H as [->|(b & dg & now & r & F)]; [intros row ->; eauto|by eapply fresh_row_later].
  - apply (admin_step_isolated (scope_key sc)) in H; [|intros E; apply scope_key_inj in E; congruence].
    rewrite (ss_documents _ _ _ H). intros row ->. eauto.
Qed.

(** A step that does not remove the document. *)
Definition retains (k : doc_key) (db db' : Db) : Prop :=
  keeps sha256 sc db db' /\ (is_Some (sqlite_document db sc k) -> is_Some (sqlite_document db' sc k)).

Lemma keeps_ok db db' : db_ok db -> keeps sha256 sc db db' -> db_ok db'.
Proof. intros Hdb (sc' & _ & [H|[_ H]]); [by eapply store_step_ok|by eapply admin_step_ok]. Qed.

Lemma document_present db k : db_ok db -> doc_key_ok k ->
  is_Some (documents db !! (scope_key sc, (id_to_string (fst k), id_to_string (snd k)))) <-> is_Some (sqlite_document db sc k).
Proof.
  intros Hdb [Ht Hd]. destruct (shown_row sc db (fst k) (snd k) Hdb Ht Hd) as (o & Ho & Hrev & _).
  unfold sqlite_document. unfold shown in Ho. rewrite Ho. rewrite <- (fmap_is_Some dr_revision), Hrev. symmetry. apply fmap_is_Some.
Qed.

Lemma retains_rows k db db' row : doc_key_ok k -> db_ok db -> rtc (retains k) db db' ->
  documents db !! (scope_key sc, (id_to_string (fst k), id_to_string (snd k))) = Some row ->
  exists row', documents db' !! (scope_key sc, (id_to_string (fst k), id_to_string (snd k))) = Some row'
    /\ (row' = row \/ d_revision row < d_revision row').
Proof.
  intros Hk Hdb H. revert row Hdb. induction H as [db|x y z [Hkeep Hret] _ IH]; intros row Hdb Hl; [eauto|].
  pose proof (keeps_ok _ _ Hdb Hkeep) as Hy.
  destruct (keeps_row_later x y _ Hkeep row Hl) as [E|(row1 & Hl1 & Hr1)].
  - destruct (proj2 (document_present y k Hy Hk)) as [? ?]; [|congruence].
    apply Hret, (document_present x k Hdb Hk). by eexists.
  - destruct (IH row1 Hy Hl1) as (row2 & Hl2 & Hr2). exists row2. split; [done|].
    destruct Hr1 as [->|?], Hr2 as [->|?]; auto; right; lia.
Qed.

(** Along such a trace, a document at the revision it had is the document it was. *)
Lemma retains_same_version k db db' : doc_key_ok k -> db_ok db -> db_ok db' -> rtc (retains k) db db' ->
  dr_revision <$> sqlite_document db' sc k = dr_revision <$> sqlite_document db sc k ->
  sqlite_document db' sc k = sqlite_document db sc k.
Proof.
  intros Hk Hdb Hdb' Htr. destruct (sqlite_document db sc k) as [r|] eqn:E; [|by destruct (sqlite_document db' sc k)].
  destruct (sqlite_document_row _ _ _ _ Hdb Hk E) as (row & Hl & Hdec).
  destruct (retains_rows k db db' row Hk Hdb Htr Hl) as (row' & Hl' & Hr).
  destruct (sqlite_document db' sc k) as [r'|] eqn:E'; [|done].
  destruct (sqlite_document_row _ _ _ _ Hdb' Hk E') as (row2 & Hl2 & Hdec'). rewrite Hl' in Hl2. injection Hl2 as <-.
  cbn. intros [= Hrev]. destruct Hr as [->|Hlt]; [congruence|].
  apply decode_document_row_Ok in Hdec as (_ & _ & _ & _ & Hd & _).
  apply decode_document_row_Ok in Hdec' as (_ & _ & _ & _ & Hd' & _). lia.
Qed.

(** Nothing removes a document the batch has read. *)
Definition reads_retained (b : CommitBatch) (db db' : Db) : Prop :=
  forall a, a ∈ b_reads b -> rtc (retains (read_key a)) db db'.

Lemma reads_retained_same self db db' b : sn_scope self = sc -> batch_wf b -> db_ok db -> db_ok db' ->
  reads_retained b db db' -> same_versions sqlite_view self db db' b.
Proof.
  intros Es W Hdb Hdb' Hr a Ha. rewrite Es. pose proof (wf_reads _ W) as Hw. rewrite Forall_forall in Hw.
  destruct (Hw a Ha) as (Ht & Hd & _). by apply retains_same_version; [|..|apply Hr].
Qed.
End versions.

(** ** Mutations on SQLite *)

Section mutations.
Context {UL : UlidLib} {ULL : UlidLaws}.
Variables (sha256 : bytes -> bytes) (timestamp_ms : Z -> Z) (attached : option SchemaCatalog).
Variables (invoke : Grants -> Z -> Handler) (wd : World (Store := Db) (Weather := TxnOutcome * option Z)).
Variables (request : InvocationRequest) (operation_id : OperationId).
Abbreviation scope := (rq_scope request).

(** A well-typed execution among clients that change the database by [others] steps. *)
Record scenario (others : Db -> Db -> Prop) : Prop := {
  sc_attached c : attached = Some c -> catalog_built sha256 c;
  sc_request : request_wf request;
  sc_operation : id_ok operation_id;
  sc_handler grants n : handler_ok (invoke grants n);
  sc_before_read n db : db_ok db -> rtc others db (wd_before_read wd n db);
  sc_before_commit n k db : db_ok db -> rtc others db (wd_before_commit wd n k db)
}.

(** One execution on SQLite. *)
Definition execute_on : Db -> result MutationExecutionError MutationOutcome * Db :=
  execute_inner (LS := sqlite_store sha256) sha256 timestamp_ms attached invoke wd request operation_id.

(** The handler alone on a database: its value and its batch. *)
Definition alone (self : MutationSession) (schema : option SchemaCatalog) (grants : Grants) (n : Z) (db : Db) :=
  alone_at (LS := sqlite_store sha256) sha256 self schema grants invoke n db.

Section steps.
Variable (others : Db -> Db -> Prop).
Hypothesis (others_keep : forall db db', others db db' -> keeps sha256 scope db db').

Lemma others_keep_rtc db db' : rtc others db db' -> rtc (keeps sha256 scope) db db'.
Proof. intros H. eapply rtc_subrel; [|exact H]. exact others_keep. Qed.

Lemma execute_on_executed self schema grants db r db' : scenario others -> db_ok db ->
  prepare sha256 timestamp_ms attached request operation_id = Ok (self, schema, grants) ->
  execute_on db = (r, db') ->
  executed (LS := sqlite_store sha256) sha256 sqlite_view others self schema grants invoke wd db r db'.
Proof.
  intros [Hat Hreq Hop Hh Hr Hc] Hdb Hp. unfold execute_on, execute_inner. rewrite Hp. intros E.
  destruct (prepare_ok sha256 _ _ _ _ _ _ _ Hat Hreq Hop Hp) as (Hself & Hs & Hschema).
  change r with (fst (r, db')). change db' with (snd (r, db')) at 2. rewrite <- E.
  apply (attempts_executed sha256 sqlite_view scope); try done.
  - intros st st' Hok Ho. eapply keeps_ok, others_keep, Ho. done.
  - intros st st' op Ho [row Hrow]. cbn [recorded sqlite_view] in *.
    pose proof (keeps_journal sha256 scope (id_to_string op) st st' (proj1 Hreq)) as Hj.
    apply Hj in Hrow as [-> _]; [by eexists|]. by apply rtc_once, others_keep.
Qed.

Lemma others_ok_trace db db' : db_ok db -> rtc others db db' -> db_ok db'.
Proof. intros Hdb. induction 1; eauto using keeps_ok. Qed.

(** An execution is itself a sequence of steps, of any kind its commits and the other clients' steps are
    of. *)
Lemma execute_on_trace (step : Db -> Db -> Prop) db : (forall db db', db_ok db -> step db db' -> db_ok db') ->
  scenario step -> db_ok db ->
  (forall self schema grants n db v b w db',
     prepare sha256 timestamp_ms attached request operation_id = Ok (self, schema, grants) -> db_ok db ->
     attempt_at (LS := sqlite_store sha256) sha256 self schema grants invoke wd n db = Ok (v, Some b) -> db_ok db' ->
     step db' (snd (commit sha256 (fst w) (snd w) b db'))) ->
  rtc step db (snd (execute_on db)).
Proof.
  intros Hok Hsc Hdb Hb. unfold execute_on, execute_inner.
  destruct (prepare _ _ _ _ _) as [[[self schema] grants]|e] eqn:Hp; [|done].
  apply (attempts_trace sha256 db_ok step Hok); [apply Hsc|apply Hsc| |done].
  intros n st v b w st' Hst Ha Hst'. by apply (Hb self schema grants n st v b w st' eq_refl).
Qed.

Lemma execute_on_keeps db : scenario others -> db_ok db -> rtc (keeps sha256 scope) db (snd (execute_on db)).
Proof.
  intros [Hat Hreq Hop Hh Hr Hc] Hdb. apply execute_on_trace; [apply keeps_ok| |done|].
  - split; try done; intros; apply others_keep_rtc; auto.
  - intros self schema grants n db0 v b w db' Hp Hdb0 Ha Hdb'.
    destruct (prepare_ok sha256 _ _ _ _ _ _ _ Hat Hreq Hop Hp) as (Hself & Hs & Hschema).
    destruct (attempt_at_wf sha256 sqlite_view scope self schema grants invoke wd Hs Hself Hschema (Hh grants) n db0 v b Hdb0 Ha)
      as (Eb & W & _).
    exists scope. split; [apply Hreq|]. left. by apply step_commit.
Qed.
End steps.

Lemma prepare_operation self schema grants :
  prepare sha256 timestamp_ms attached request operation_id = Ok (self, schema, grants) ->
  sn_operation_id self = operation_id.
Proof.
  unfold prepare. intros (? & _ & (? & _ & (? & _ & (? & _ & (? & _ & [= <- _ _])%rbind_Ok)%rbind_Ok)%rbind_Ok)%rbind_Ok)%rbind_Ok.
  done.
Qed.

(** C2: A Mutation on the SQLite store is atomic and serializable.  The other clients are any step
    relation [others] within what keeps this Environment from being seeded, imported or reset.
    However the calls of one execution fail or are retried, and whatever the other clients do in
    between, it ends in one of two ways.  All that happened to the database are steps of the other
    clients, and a success is either a replay or the outcome of a handler that wrote nothing, the one
    it has alone on the database it read.  Or there is exactly one step more: the commit of the batch
    of one attempt, under this Environment and operation, which was not recorded before and took
    effect; a success reports that attempt's value; and unless a document the attempt has read was
    removed meanwhile, value and batch are what the handler produces when run alone on the database
    at the moment of the commit.  Since [others] is arbitrary, an execution that wrote anything else,
    or wrote its batch twice, would have neither form. *)
Theorem mutation_serializable (others : Db -> Db -> Prop) self schema grants db r db' :
  (forall db db', others db db' -> keeps sha256 scope db db') -> scenario others -> db_ok db ->
  prepare sha256 timestamp_ms attached request operation_id = Ok (self, schema, grants) ->
  execute_on db = (r, db') ->
  (rtc others db db'
   /\ forall out, r = Ok out -> mo_replayed out = true
        \/ (mo_commit_sequence out = None /\ alone self schema grants (mo_attempts out) db' = Ok (mo_value out, None)))
  \/ exists n v b o clock db0 db1 db2,
       rtc others db db0 /\ rtc others db0 db1
       /\ b_scope b = scope /\ b_operation_id b = operation_id
       /\ db2 = snd (commit sha256 o clock b db1) /\ applied sqlite_view b db1 db2 /\ rtc others db2 db'
       /\ (forall out, r = Ok out -> mo_value out = v /\ mo_attempts out = n)
       /\ (reads_retained sha256 scope b db0 db1 -> alone self schema grants n db1 = Ok (v, Some b)).
Proof.
  intros Hk Hsc Hdb Hp E.
  pose proof (execute_on_executed _ Hk _ _ _ _ _ _ Hsc Hdb Hp E) as Hx.
  destruct Hsc as [Hat Hreq Hop Hh _ _].
  destruct (prepare_ok sha256 _ _ _ _ _ _ _ Hat Hreq Hop Hp) as (Hself & Hs & Hschema).
  destruct Hx as [r db' Ho Hr|n v db0 Ho Ha|n v b [o clock] db0 db1 db2 r db' H0 Ha H1 Hw Happ H2 Hv _].
  - left. split; [done|]. intros out Hout. left. by apply Hr.
  - left. split; [done|]. intros out [= <-]. right. split; [done|].
    apply (executed_pure_alone sha256 sqlite_view self schema grants invoke wd Hself (Hh grants) n db0 v); [|exact Ha].
    by eapply others_ok_trace.
  - right. exists n, v, b, o, clock, db0, db1, db2.
    pose proof (others_ok_trace _ Hk _ _ Hdb H0) as Hdb0. pose proof (others_ok_trace _ Hk _ _ Hdb0 H1) as Hdb1.
    destruct (attempt_batch_facts sha256 sqlite_view self schema Hself Hschema _ _ _ _ _ _ _ Hdb0 (Hh grants n) Ha) as [st Hf].
    pose proof (af_batch _ _ _ _ _ _ Hf) as Hb.
    split_and!; try done; [rewrite <- Hs; apply Hb|rewrite <- (prepare_operation _ _ _ Hp); apply Hb|]. intros Hret.
    apply (executed_serial sha256 sqlite_view others (fun x y Hx Hy => keeps_ok sha256 scope x y Hx (Hk x y Hy))
      self schema grants invoke wd Hself Hschema (Hh grants) n db0 db1 db2 v b); try done.
    eapply reads_retained_same; [apply Hreq|done| |done|done|exact Hret].
    exact (attempt_batch_wf sha256 sqlite_view self schema Hself Hschema db0 b st Hdb0 Hf).
Qed.

(** The batch of a Mutation is one the store can take.  A handler that makes well-typed requests
    as long as it gets well-typed answers gets well-typed answers from its session, and the batch
    built from what it asked for is well typed, accepted by [validate], and belongs to the session's
    Environment and operation; it carries one event, naming the writes, exactly when it writes. *)
Theorem mutation_batch_typed self schema handler faults load close db v b :
  session_ok self -> (forall c, schema = Some c -> catalog_built sha256 c) -> handler_ok handler -> db_ok db ->
  attempt_batch (LS := sqlite_store sha256) sha256 self schema handler faults load close db = Ok (v, Some b) ->
  batch_wf b /\ validate b = Ok tt /\ b_scope b = sn_scope self /\ b_operation_id b = sn_operation_id self
  /\ b_outbox b = (if bool_decide (b_documents b = []) then []
       else [mkOutboxAppend (from_ulid (as_ulid (sn_operation_id self))) (document_write_set_payload (b_documents b) (b_indexes b))]).
Proof.
  intros Hself Hschema Hh Hdb H.
  destruct (attempt_batch_facts sha256 sqlite_view self schema Hself Hschema _ _ _ _ _ _ _ Hdb Hh H) as [st Hf].
  pose proof (af_batch _ _ _ _ _ _ Hf) as Hb. split_and!.
  - exact (attempt_batch_wf sha256 sqlite_view self schema Hself Hschema db b st Hdb Hf).
  - apply validate_spec, Hb.
  - apply Hb.
  - apply Hb.
  - rewrite (bo_documents _ _ _ _ _ _ _ _ Hb). apply Hb.
Qed.

(** Other clients that remove no document of the Environment and keep its indexes exact. *)
Definition careful (catalog : SchemaCatalog) (db db' : Db) : Prop :=
  keeps sha256 scope db db'
  /\ (forall k, is_Some (sqlite_document db scope k) -> is_Some (sqlite_document db' scope k))
  /\ (indexes_match sqlite_view catalog scope db -> indexes_match sqlite_view catalog scope db').

Lemma careful_keeps catalog db db' : careful catalog db db' -> keeps sha256 scope db db'.
Proof. by intros []. Qed.

Lemma careful_indexes catalog db db' : rtc (careful catalog) db db' ->
  indexes_match sqlite_view catalog scope db -> indexes_match sqlite_view catalog scope db'.
Proof. induction 1 as [|x y z (_ & _ & H) _ IH]; auto. Qed.

Lemma careful_retains catalog b db db' : rtc (careful catalog) db db' -> reads_retained sha256 scope b db db'.
Proof.
  intros H a _. eapply rtc_subrel; [|exact H]. intros x y (Hk & Hd & _). split; [done|apply Hd].
Qed.

(** Shared by the theorem on exact indexes and the example below. *)
Lemma execute_on_indexes catalog self grants db r db' :
  scenario (careful catalog) -> db_ok db ->
  prepare sha256 timestamp_ms attached request operation_id = Ok (self, Some catalog, grants) ->
  execute_on db = (r, db') ->
  indexes_match sqlite_view catalog scope db -> indexes_match sqlite_view catalog scope db'.
Proof.
  intros Hsc Hdb Hp E Him. pose proof (careful_keeps catalog) as Hk.
  pose proof (execute_on_executed _ Hk _ _ _ _ _ _ Hsc Hdb Hp E) as Hx.
  destruct Hsc as [Hat Hreq Hop Hh _ _].
  destruct (prepare_ok sha256 _ _ _ _ _ _ _ Hat Hreq Hop Hp) as (Hself & Hs & Hschema).
  destruct Hx as [r db' Ho _|n v db0 Ho _|n v b w db0 db1 db2 r db' H0 Ha H1 _ Happ H2 _ _];
    [by eapply careful_indexes|by eapply careful_indexes|].
  pose proof (others_ok_trace _ Hk _ _ Hdb H0) as Hdb0. pose proof (others_ok_trace _ Hk _ _ Hdb0 H1) as Hdb1.
  eapply careful_indexes; [exact H2|]. rewrite <- Hs.
  apply (executed_indexes sha256 sqlite_view self (Some catalog) grants invoke wd Hself Hschema (Hh grants)
    catalog n db0 db1 db2 v b eq_refl Hdb0 Ha Happ).
  - eapply reads_retained_same; [apply Hreq|done| |done|done|by eapply careful_retains].
    apply (attempt_at_wf sha256 sqlite_view scope self (Some catalog) grants invoke wd Hs Hself Hschema (Hh grants) n db0 v b Hdb0 Ha).
  - rewrite Hs. eapply careful_indexes; [exact H1|]. by eapply careful_indexes.
Qed.

(** C8: Mutations keep the secondary indexes exact.  If, for every index of the catalog in use, the
    stored entries are exactly the ones its definition derives from the stored documents, each with
    the document's revision, then they still are after an execution, whatever its outcome, as long
    as the other clients keep them exact too and remove no document. *)
Theorem mutation_indexes_exact catalog self grants db r db' :
  scenario (careful catalog) -> db_ok db ->
  prepare sha256 timestamp_ms attached request operation_id = Ok (self, Some catalog, grants) ->
  execute_on db = (r, db') ->
  indexes_match sqlite_view catalog scope db -> indexes_match sqlite_view catalog scope db'.
Proof. apply execute_on_indexes. Qed.
End mutations.

(** ** Reading after the clock was set back *)

Section clock.
Context {UL : UlidLib} {ULL : UlidLaws}.
Variable sha256 : bytes -> bytes.

(** A replaced document keeps its creation time and takes the time of the commit. *)
Lemma replaced_times b dg now db res db' t d n v old : db_ok db -> batch_wf b -> fresh_commit b dg now db res db' ->
  DM_Upsert t d (ER_Exact n) v ∈ b_documents b -> sqlite_document db (b_scope b) (t, d) = Some old ->
  exists r, sqlite_document db' (b_scope b) (t, d) = Some r
    /\ dr_created_at r = dr_created_at old /\ dr_updated_at r = now.
Proof.
  intros Hdb W F Hin Hold. pose proof (wf_documents _ W) as Wd. rewrite Forall_forall in Wd.
  destruct (Wd _ Hin) as (Ht & Hd & _ & Hv).
  destruct (sqlite_document_row (b_scope b) db (t, d) old Hdb (conj Ht Hd) Hold) as (row & Hl & Hdec).
  cbn [fst snd] in Hl. apply decode_document_row_Ok in Hdec as (_ & _ & _ & _ & _ & _ & Hc & _).
  apply list_elem_of_lookup in Hin as [i Hi].
  destruct (Forall2_lookup_l _ _ _ _ _ (fc_documents _ _ _ _ _ _ F) Hi) as (x & _ & Htr).
  unfold row_key_of in Htr. cbn [dm_table_id dm_document_id] in Htr. rewrite Hl in Htr.
  destruct (documents db' !! _) as [row'|] eqn:El' in Htr; inversion Htr; subst.
  pose proof (proj2 (fc_sequence _ _ _ _ _ _ F)) as Hs.
  assert (0 < d_revision row) as Hpos.
  { apply (inv_documents _ Hdb) in Hl as (_ & _ & Hok). cbn [fst snd] in Hok. unfold decode_document_row in Hok.
    rewrite !parse_id_render in Hok by done. cbn [rbind] in Hok. unfold positive_u64 in Hok at 1.
    destruct (Z.leb_spec (d_revision row) 0); [done|lia]. }
  eexists. split; [eapply sqlite_document_shown, (shown_written (b_scope b) db' t d _ v Ht Hd Hv); [..|exact El']; cbn; done || lia|].
  by cbn.
Qed.

(** A document replaced while the clock reads an earlier time than when it was created can no
    longer be read.  The commit succeeds and stores the clock's time as the update time; every
    session opened afterwards takes the record for corrupt, reports a storage failure and latches
    it, so that its Mutation cannot commit. *)
Theorem clock_set_back_unreadable o clock now b db res db' t d n v old self :
  db_ok db -> batch_wf b -> commit sha256 o clock b db = (Ok res, db') -> cr_replayed res = false ->
  now_micros clock = Ok now -> DM_Upsert t d (ER_Exact n) v ∈ b_documents b ->
  sqlite_document db (b_scope b) (t, d) = Some old -> now < dr_created_at old ->
  session_ok self -> sn_scope self = b_scope b ->
  exists st, data_get (LS := sqlite_store sha256) self db' (R_Waited W_Ready) (R_Waited W_Ready) (t, d) initial_state
      = (Err DE_Storage, st)
    /\ ms_failure st = Some (SF_Store SE_Corruption)
    /\ fst (finish (LS := sqlite_store sha256) self db' (fun _ => W_Ready) W_Ready st) = Err (SF_Store SE_Corruption).
Proof.
  intros Hdb W Hc Hrep Hnow Hin Hold Hlt Hself Hsc.
  assert (exists dg, fresh_commit b dg now db res db') as [dg F].
  { unfold commit in Hc. destruct (digest sha256 b) as [dg|] eqn:Hd; [|done]. apply digest_valid in Hd. exists dg.
    apply run_txn_cases in Hc as [(a & [= <-] & H)|[(e & [=] & _)|(a & [=] & _)]].
    apply apply_commit_cases in H as [[Hl%load_operation_recorded _]|(now' & Hnow' & F)]; [|congruence|done|done].
    destruct Hl. congruence. }
  pose proof (wf_documents _ W) as Wd. rewrite Forall_forall in Wd. destruct (Wd _ Hin) as (Ht & Hd & _).
  destruct (replaced_times b dg now db res db' t d n v old Hdb W F Hin Hold) as (r & Hr & Hcr & Hup).
  pose proof (commit_ok sha256 o clock b db Hdb W) as Hdb'. rewrite Hc in Hdb'. cbn [snd] in Hdb'.
  assert (doc_key_ok (t, d)) as Hk by done.
  eexists. split.
  - unfold data_get. cbn [unusable initial_state ms_closed ms_failure orb]. unfold buffered_read. cbn [initial_state ms_writes ms_snapshot].
    rewrite lookup_empty. cbn [ls_begin_read sqlite_store]. rewrite sqlite_begin by done. unfold get_from.
    rewrite (answer_document (SL := sqlite_laws sha256) sqlite_view self Hself db' _ Hdb' (sqlite_begin _ _ Hdb') (t, d) Hk).
    rewrite (answer_corrupt_spec (SL := sqlite_laws sha256) sqlite_view self Hself db' _ Hdb' (sqlite_begin _ _ Hdb') (t, d) Hk).
    cbn [document sqlite_view]. rewrite Hsc, Hr. rewrite (proj2 (Z.ltb_lt _ _)) by lia. reflexivity.
  - split; [reflexivity|]. unfold finish. by cbn.
Qed.
End clock.

(** ** A document that is removed and inserted again *)

Section recreated.
Context {UL : UlidLib} {ULL : UlidLaws}.
Variable sha256 : bytes -> bytes.

(** A batch that has read revision 1 of a document and replaces it, with the event of the write. *)
Record replaces_first (sc : EnvironmentScope) (t : TableId) (d : DocumentId) (v : CanonicalValue) (event : OutboxAppend)
  (b : CommitBatch) : Prop := {
  rf_wf : batch_wf b;
  rf_scope : b_scope b = sc;
  rf_reads : b_reads b = [mkDocumentReadAssertion t d (Some 1)];
  rf_documents : b_documents b = [DM_Upsert t d (ER_Exact 1) v];
  rf_indexes : b_indexes b = [];
  rf_outbox : b_outbox b = [event];
  rf_schedules : b_schedules b = []
}.

Lemma replaces_first_encoded sc t d v event b dg : replaces_first sc t d v event b -> digest sha256 b = Ok dg ->
  (exists w, encode_stored_value v = Ok w) /\ exists w, encode_stored_value (oa_payload event) = Ok w.
Proof.
  intros Hb (_ & _ & (w & H & _)%rbind_Ok)%rbind_Ok. unfold digest_preimage in H.
  apply rbind_Ok in H as (? & _ & H). apply rbind_Ok in H as (? & _ & H). apply rbind_Ok in H as (? & _ & H).
  apply rbind_Ok in H as (? & Hd & H). apply rbind_Ok in H as (? & _ & H). apply rbind_Ok in H as (? & Ho & _).
  rewrite (rf_documents _ _ _ _ _ _ Hb) in Hd. rewrite (rf_outbox _ _ _ _ _ _ Hb) in Ho. unfold hash_list in *.
  apply rbind_Ok in Hd as (? & _ & Hd). apply rbind_Ok in Hd as (? & Hd & _). apply rbind_Ok in Ho as (? & _ & Ho). apply rbind_Ok in Ho as (? & Ho & _).
  cbn [try_map hash_document] in Hd. unfold hash_outbox in Ho. cbn [try_map] in Ho.
  unfold encode_value in *. split.
  - destruct (encode_stored_value v); [by eexists|]. by destruct (hash_text _), (hash_text _).
  - clear Hd. destruct (encode_stored_value (oa_payload event)); [by eexists|]. by destruct (hash_text _).
Qed.

Lemma commit_takes_effect o clock b db r db' : db_ok db -> batch_wf b -> commit sha256 o clock b db = (Ok r, db') ->
  cr_replayed r = false -> applied sqlite_view b db db' /\ db_ok db'.
Proof.
  intros Hdb W E N. split; [|by pose proof (commit_ok sha256 o clock b db Hdb W) as H; rewrite E in H].
  apply commit_cases in E; [|done]. inversion E as [dg res Hd Hl|dg now res d Hd F| |]; subst.
  - apply load_operation_recorded in Hl as [_ Hl]. congruence.
  - by eapply fresh_applied.
Qed.

Lemma replaced_document sk op seq now t d v w db row : encode_stored_value v = Ok w ->
  documents db !! (sk, (id_to_string t, id_to_string d)) = Some row -> d_revision row = 1 -> results db !! (sk, op, 0) = None ->
  exists r db', commit_document sk op seq now (O, DM_Upsert t d (ER_Exact 1) v) db = Ok (r, db') /\ outbox db' = outbox db.
Proof.
  intros Ev Hrow Hrev Hres. unfold commit_document, tbind, tlift, apply_document, insert_result. cbn [fst snd]. rewrite Ev. cbn [map_err rbind].
  change (positive_i64 1) with (@Ok StoreError Z 1). change (checked_add u64_max 1 1) with (Some 2). cbn [ok_or rbind].
  change (positive_i64 2) with (@Ok StoreError Z 2). cbn [rbind]. rewrite Hrow, Hrev. cbn [rbind Z.eqb Pos.eqb Z.of_nat].
  change (nonnegative_i64 (Z.of_nat 0)) with (@Ok StoreError Z 0). cbn [rbind opt_map rr_revision].
  change (positive_i64 2) with (@Ok StoreError Z 2). cbn [rbind results set_documents]. rewrite Hres. eexists _, _. by split.
Qed.

(** On a database that shows the document at revision 1, such a batch is accepted. *)
Lemma replaces_first_commits sc t d v event b dg db now row : db_ok db -> replaces_first sc t d v event b ->
  digest sha256 b = Ok dg -> len dg = 32 -> operations db !! (scope_key sc, id_to_string (b_operation_id b)) = None ->
  outbox db !! (scope_key sc, id_to_string (oa_event_id event)) = None ->
  0 <= default 0 (sequences db !! scope_key sc) < i64_max -> now <= i64_max ->
  documents db !! (scope_key sc, (id_to_string t, id_to_string d)) = Some row -> d_revision row = 1 ->
  exists res db', commit sha256 TO_Commit (Some now) b db = (Ok res, db') /\ cr_replayed res = false.
Proof.
  intros Hdb Hb Hdg Hlen Hop Hev Hseq Hnow Hrow Hrev.
  destruct (replaces_first_encoded _ _ _ _ _ _ _ Hb Hdg) as [[wv Ev] [wp Ep]]. destruct Hb as [W <- Er Ed Ei Eo Es].
  unfold commit. rewrite Hdg. cbn [run_txn]. unfold apply_commit, load_operation. rewrite Hop. cbn [rbind].
  unfold validate_document_reads. rewrite Er, Ed, Ei, Eo, Es. cbn [try_map]. unfold check_document_read. cbn [ra_table_id ra_document_id ra_observed_revision].
  rewrite Hrow. cbn [opt_map]. rewrite Hrev. change (positive_u64 1) with (@Ok StoreError Z 1). cbn [rbind]. rewrite bool_decide_false by by intros [].
  cbn [rbind]. unfold tbind at 1. 
  assert (exists n db1, next_sequence (scope_key (b_scope b)) db = Ok (n, db1) /\ 0 < n <= i64_max /\ operations db1 = operations db
    /\ results db1 = results db /\ documents db1 = documents db /\ outbox db1 = outbox db) as (n & db1 & -> & Hn & E1 & E2 & E3 & E4).
  { unfold next_sequence. destruct (sequences db !! _) as [m|]; cbn in Hseq; unfold Datatypes.id in *.
    - unfold sql_succ. rewrite (proj2 (Z.leb_le _ _)) by lia. cbn [rbind]. eexists _, _. split; [reflexivity|]. split; [lia|done].
    - eexists _, _. split; [reflexivity|]. split; [done|done]. }
  cbn [rbind]. unfold tbind at 1, tlift at 1. rewrite (proj2 (positive_u64_Ok n n)) by (split; [done|]; unfold i64_max, u64_max in *; lia). cbn [rbind]. unfold tbind at 1, tlift at 1, now_micros. cbn [ok_or rbind].
  rewrite (proj2 (Z.leb_le now i64_max)) by done. cbn [rbind]. unfold tbind at 1, insert_operation at 1. cbn [op_batch_digest].
  rewrite Hlen. cbn [Z.eqb Pos.eqb negb]. rewrite E1, Hop. cbn [rbind].
  set (db2 := set_operations _ db1).
  destruct (replaced_document (scope_key (b_scope b)) (id_to_string (b_operation_id b)) n now t d v wv db2 row Ev)
    as (r & db3 & Hd & Ho); [by cbn [documents set_operations db2]; rewrite E3|done| |].
  { cbn [results set_operations db2]. rewrite E2. destruct (results db !! _) eqn:Hr; [|done]. apply (inv_results _ Hdb) in Hr. rewrite Hop in Hr. by destruct Hr. }
  unfold enumerate. cbn [enumerate_from teach]. unfold tbind. rewrite Hd. cbn [rbind tret]. unfold append_outbox. rewrite Ep. cbn [map_err rbind].
  rewrite Ho. cbn [db2 set_operations outbox]. rewrite E4, Hev. cbn. eexists _, _. by split.
Qed.

(** C40: Inserting a document under the identifier of a removed one is not noticed.  A document at
    revision 1 is removed, other clients do anything, and another document is inserted under its
    identifier.  It is at revision 1 again, whatever it holds, so the optimistic check compares equal:
    a batch that has read the first document and replaces it is not refused as a conflict but commits
    over the second one.  This is why the serializability of Mutations needs that no document they
    have read is removed meanwhile. *)
Theorem recreated_document_undetected sc t d v v' event o1 c1 b1 r1 o2 c2 b2 r2 now b dg db db1 db2 db3 :
  db_ok db ->
  batch_wf b1 -> b_scope b1 = sc -> DM_Delete t d 1 ∈ b_documents b1 ->
  commit sha256 o1 c1 b1 db = (Ok r1, db1) -> cr_replayed r1 = false ->
  rtc (keeps sha256 sc) db1 db2 ->
  batch_wf b2 -> b_scope b2 = sc -> DM_Upsert t d ER_Absent v ∈ b_documents b2 ->
  commit sha256 o2 c2 b2 db2 = (Ok r2, db3) -> cr_replayed r2 = false ->
  replaces_first sc t d v' event b -> digest sha256 b = Ok dg -> len dg = 32 ->
  operations db3 !! (scope_key sc, id_to_string (b_operation_id b)) = None ->
  outbox db3 !! (scope_key sc, id_to_string (oa_event_id event)) = None ->
  default 0 (sequences db3 !! scope_key sc) < i64_max -> now <= i64_max ->
  (exists first, sqlite_document db sc (t, d) = Some first /\ dr_revision first = 1)
  /\ sqlite_document db1 sc (t, d) = None
  /\ (exists second, sqlite_document db3 sc (t, d) = Some second /\ dr_revision second = 1 /\ dr_value second = v)
  /\ exists res db4, commit sha256 TO_Commit (Some now) b db3 = (Ok res, db4) /\ cr_replayed res = false
       /\ exists third, sqlite_document db4 sc (t, d) = Some third /\ dr_revision third = 2 /\ dr_value third = v'.
Proof.
  intros Hdb W1 <- Hdel H1 N1 Hs W2 E2 Hins H2 N2 Hb Hdg Hlen Hop Hev Hseq Hnow.
  destruct (commit_takes_effect _ _ _ _ _ _ Hdb W1 H1 N1) as [A1 Hdb1].
  assert (db_ok db2) as Hdb2.
  { clear -Hs Hdb1 ULL. induction Hs as [|x y z H _ IH]; [done|]. apply IH. exact (keeps_ok sha256 (b_scope b1) x y Hdb1 H). }
  destruct (commit_takes_effect _ _ _ _ _ _ Hdb2 W2 H2 N2) as [A2 Hdb3].
  pose proof (wf_documents _ W2) as Wd. rewrite Forall_forall in Wd. destruct (Wd _ Hins) as (Ht & Hd & _). clear Wd.
  destruct (ap_upsert _ _ _ _ A2 _ _ _ _ Hins) as (second & Hd2 & Hv2 & Hr2). cbn in Hd2, Hr2. rewrite E2 in Hd2.
  destruct (sqlite_document_row _ db3 (t, d) second Hdb3 (conj Ht Hd) Hd2) as (row & Hl & Hdec).
  apply decode_document_row_Ok in Hdec as (_ & _ & _ & _ & Hrev & _).
  destruct (replaces_first_commits _ t d v' event b dg db3 now row Hdb3 Hb Hdg Hlen Hop Hev) as (res & db4 & H3 & N3); [|done|done|lia|].
  { split; [|done]. destruct (sequences db3 !! _) eqn:Es; [|done]. by apply (inv_sequences _ Hdb3) in Es as []. }
  destruct (commit_takes_effect _ _ _ _ _ _ Hdb3 (rf_wf _ _ _ _ _ _ Hb) H3 N3) as [A3 _].
  pose proof (ap_expected _ _ _ _ A1 _ Hdel) as Hd0. cbn in Hd0.
  split_and!.
  - destruct (sqlite_document db _ _) as [first|]; [|done]. exists first. split; [done|]. by injection Hd0.
  - exact (ap_delete _ _ _ _ A1 _ _ _ Hdel).
  - by exists second.
  - exists res, db4. split; [done|]. split; [done|]. destruct (ap_upsert _ _ _ _ A3 t d (ER_Exact 1) v') as (third & Hd3 & Hv3 & Hr3).
    { rewrite (rf_documents _ _ _ _ _ _ Hb). left. }
    exists third. split; [|done]. by rewrite <- (rf_scope _ _ _ _ _ _ Hb).
Qed.
End recreated.

(** ** An example *)

(** A hash that depends on every byte. *)
Definition team_sha (p : bytes) : bytes := to_be 32 (from_be p mod (2 ^ 256 - 189)).

(** Documents with a team, indexed by it. *)
Definition team (name : string) : CanonicalValue := CV_Object [(text "team", CV_String (text name))].
Definition team_table : TableId := from_ulid 2.
Definition member : DocumentId := from_ulid 9.

Definition team_catalog : SchemaCatalog :=
  match SchemaCatalog_new team_sha (from_ulid 1) [sample_definition] with
  | Ok c => c
  | Err _ => mkSchemaCatalog (from_ulid 1) [] ∅ []
  end.

Definition team_manifest : ReleaseManifestV1 :=
  mkReleaseManifestV1 (from_ulid 1) (from_ulid 1) (from_ulid 3) 1 (mkRuntimeVersion (text "runku-js"))
    (mkArtifactDescriptor AF_SafeEsmBundleV1 sample_digest 1) sample_digest sample_digest (cat_digest team_catalog)
    [sample_function 4 "move" FT_Mutation FV_Public [CA_DbRead; CA_DbWrite]] [].

Definition team_request : InvocationRequest :=
  mkInvocationRequest sample_scope (PC_Release (from_ulid 5)) (from_ulid 4) team_manifest [].

(** Handlers: a new member of a team, its removal, and its move to another team, which returns the
    value it found. *)
Definition join (name : string) : Handler :=
  H_Insert team_table member (team name) (fun _ => H_Return (Ok CV_Null)).
Definition leave (revision : Z) : Handler :=
  H_Delete team_table member revision (fun _ => H_Return (Ok CV_Null)).
Definition move (name : string) : Handler :=
  H_Get (team_table, member) (fun answer =>
    match answer with
    | Ok (Some d) =>
        H_Replace team_table member (dd_revision d) (team name) (fun _ => H_Return (Ok (dd_value d)))
    | _ => H_Return (Ok CV_Null)
    end).

(** A world in which nothing fails and other clients do [others] before the commits of an attempt. *)
Definition calm (others : Db -> Db) : World (Store := Db) (Weather := TxnOutcome * option Z) :=
  mkWorld (fun _ _ => no_faults) (fun _ _ => W_Ready) (fun _ => W_Ready) (fun _ db => db) (fun _ _ db => others db)
    (fun _ _ => (TO_Commit, Some 50)).

Definition team_execute (h : Handler) (others : Db -> Db) (op : Z) : Db -> result MutationExecutionError MutationOutcome * Db :=
  execute_on team_sha (fun _ => 1) (Some team_catalog) (fun _ _ => h) (calm others) team_request (from_ulid op).

Definition team_session (op : Z) : MutationSession :=
  mkMutationSession sample_scope (from_ulid op) 1000 (PC_Release (from_ulid 5)) [].
Definition team_grants : Grants := mkGrants true true false false.

Lemma team_catalog_built : catalog_built team_sha team_catalog.
Proof.
  exists (from_ulid 1), [sample_definition].
  split_and!; [by vm_compute|constructor; [apply sample_definition_ok|constructor]|].
  unfold team_catalog. destruct (SchemaCatalog_new _ _ _) eqn:E; [done|]. vm_compute in E. discriminate E.
Qed.

Lemma team_prepare op : prepare team_sha (fun _ => 1) (Some team_catalog) team_request (from_ulid op)
  = Ok (team_session op, Some team_catalog, team_grants).
Proof. by vm_compute. Qed.

Lemma team_scenario h others op (steps : Db -> Db -> Prop) : handler_ok h -> ulid_range op ->
  (forall db, db_ok db -> rtc steps db (others db)) ->
  scenario team_sha (Some team_catalog) (fun _ _ => h) (calm others) team_request (from_ulid op) steps.
Proof.
  intros Hh Hop Ho. split; try done.
  intros c [= <-]. apply team_catalog_built.
Qed.

Lemma join_ok name : utf8_valid (text name) = true -> handler_ok (join name).
Proof.
  intros Hn. split; [|done]. split; [done|]. split; [done|]. split; [done|].
  cbn [team value_ok map fst snd forallb]. by rewrite Hn.
Qed.
Lemma leave_ok n : is_u64 n = true -> handler_ok (leave n).
Proof. intros Hn. split; [|done]. split; [done|]. by split. Qed.

Lemma move_ok name : utf8_valid (text name) = true -> handler_ok (move name).
Proof.
  intros Hn. split; [done|]. intros [[d|]|] Ha; [|done|done]. destruct (Ha d eq_refl) as [Hr _].
  split; [|done]. split; [done|]. split; [done|]. split; [done|]. cbn [team value_ok map fst snd forallb]. by rewrite Hn.
Qed.

(** Another client commits an event. *)
Definition unrelated (db : Db) : Db := snd (commit team_sha TO_Commit (Some 50) (sample_batch 40) db).

(** Executions with nobody else around. *)
Lemma team_keeps h op db : handler_ok h -> ulid_range op -> db_ok db ->
  rtc (keeps team_sha sample_scope) db (snd (team_execute h id op db)).
Proof.
  intros Hh Hop Hdb. unfold team_execute. change sample_scope with (rq_scope team_request).
  refine (execute_on_keeps team_sha _ _ _ _ team_request _ (keeps team_sha sample_scope) (fun _ _ H => H) db _ Hdb).
  exact (team_scenario h id op _ Hh Hop (fun db _ => rtc_refl _ db)).
Qed.

Lemma team_ok h op db : handler_ok h -> ulid_range op -> db_ok db -> db_ok (snd (team_execute h id op db)).
Proof. intros Hh Hop Hdb. exact (others_ok_trace team_sha team_request _ (fun _ _ H => H) db _ Hdb (team_keeps h op db Hh Hop Hdb)). Qed.

Lemma team_indexes h op db : handler_ok h -> ulid_range op -> db_ok db ->
  indexes_match sqlite_view team_catalog sample_scope db ->
  indexes_match sqlite_view team_catalog sample_scope (snd (team_execute h id op db)).
Proof.
  intros Hh Hop Hdb. destruct (team_execute h id op db) as [r db'] eqn:E. cbn [snd]. unfold team_execute in E.
  change sample_scope with (rq_scope team_request).
  eapply (execute_on_indexes team_sha (fun _ => 1) (Some team_catalog) (fun _ _ => h) (calm id) team_request (from_ulid op));
    [exact (team_scenario h id op _ Hh Hop (fun db _ => rtc_refl _ db))|exact Hdb|apply team_prepare|exact E].
Qed.

Lemma empty_indexes catalog sc : indexes_match sqlite_view catalog sc empty_db.
Proof.
  assert (forall k, sqlite_document empty_db sc k = None) as Hd.
  { intros k. unfold sqlite_document, get_document. cbn [snapshot_of snap_db snap_scope empty_db documents].
    by rewrite lookup_empty. }
  split; cbn [document entry sqlite_view].
  - intros def d r _ _. by rewrite Hd.
  - intros def key d t n _ _. unfold sqlite_entry. cbn [empty_db indexes]. rewrite lookup_empty.
    split; [done|]. intros (_ & r & Hr & _). by rewrite Hd in Hr.
Qed.

Definition db_red : Db := snd (team_execute (join "red") id 20 empty_db).

(** Another client removes the member and lets a new one, of the same identifier, join another team. *)
Definition recreate (db : Db) : Db :=
  snd (team_execute (join "green") id 31 (snd (team_execute (leave 1) id 30 db))).

#[local] Ltac team_solve := first [apply join_ok|apply leave_ok|apply move_ok|idtac]; by vm_compute.

Lemma db_red_ok : db_ok db_red.
Proof. apply team_ok; [team_solve|team_solve|apply db_ok_empty]. Qed.
Lemma db_red_indexes : indexes_match sqlite_view team_catalog sample_scope db_red.
Proof. apply team_indexes; [team_solve|team_solve|apply db_ok_empty|apply empty_indexes]. Qed.

Lemma recreate_indexes db : db_ok db -> indexes_match sqlite_view team_catalog sample_scope db ->
  indexes_match sqlite_view team_catalog sample_scope (recreate db).
Proof.
  intros Hdb Hm. assert (handler_ok (leave 1)) as Hl by team_solve. assert (handler_ok (join "green")) as Hj by team_solve.
  apply team_indexes; [done|by vm_compute| |]; [by apply team_ok; [|by vm_compute|]|].
  by apply team_indexes; [|by vm_compute|..].
Qed.

Lemma recreate_keeps db : db_ok db -> rtc (keeps team_sha sample_scope) db (recreate db).
Proof.
  intros Hdb. assert (handler_ok (leave 1)) as Hl by team_solve. assert (handler_ok (join "green")) as Hj by team_solve.
  etrans; [apply (team_keeps (leave 1) 30); [done|by vm_compute|done]|].
  apply team_keeps; [done|by vm_compute|]. by apply team_ok; [|by vm_compute|].
Qed.

(** The key of the index entry of the green team. *)
Definition green_key : bytes :=
  match extract_index_key sample_definition (team "green") with Ok (Some k) => encoded k | _ => [] end.

(** After the move of the re-created member, the index still lists it under its former team. *)
Lemma stale_entry db : sqlite_document db sample_scope (team_table, member)
    = Some (mkDocumentRecord team_table member 2 4 50 50 (team "blue")) ->
  sqlite_entry db sample_scope (from_ulid 3) green_key member = Some (team_table, 1) ->
  ~ indexes_match sqlite_view team_catalog sample_scope db.
Proof.
  intros Hd He [_ Hm]. assert (sample_definition ∈ cat_indexes team_catalog) as Hin.
  { destruct team_catalog_built as (p & ds & _ & _ & _). vm_compute. left. }
  assert (id_ok member) as Hid by done.
  destruct (proj1 (Hm sample_definition green_key member team_table 1 Hin Hid) He) as (_ & r & Hr & Hrev & _).
  cbn [document sqlite_view] in Hr. rewrite Hd in Hr. injection Hr as <-. cbn in Hrev. discriminate Hrev.
Qed.

Lemma move_outcome : fst (team_execute (move "blue") recreate 21 db_red)
  = Ok (mkMutationOutcome (team "red") (Some 4) false 1).
Proof. vm_compute. reflexivity. Qed.
Lemma alone_outcome : match alone team_sha (fun _ _ => move "blue") (team_session 21) (Some team_catalog) team_grants 1
    (recreate db_red) with Ok (v, Some _) => Some v | _ => None end = Some (team "green").
Proof. vm_compute. reflexivity. Qed.
Lemma moved_document : sqlite_document (snd (team_execute (move "blue") recreate 21 db_red)) sample_scope (team_table, member)
  = Some (mkDocumentRecord team_table member 2 4 50 50 (team "blue")).
Proof. vm_compute. reflexivity. Qed.
Lemma moved_entry : sqlite_entry (snd (team_execute (move "blue") recreate 21 db_red)) sample_scope (from_ulid 3) green_key member
  = Some (team_table, 1).
Proof. vm_compute. reflexivity. Qed.

(** What this does to a Mutation.  A Mutation that read the first document commits over the second
    one.  Its result is not the one of any serial execution at the commit, and the entry of the second
    document stays in the index, which was exact before. *)
Example recreated_member : exists out db',
  scenario team_sha (Some team_catalog) (fun _ _ => move "blue") (calm recreate) team_request (from_ulid 21)
    (keeps team_sha sample_scope)
  /\ team_execute (move "blue") recreate 21 db_red = (Ok out, db')
  /\ mo_value out = team "red" /\ mo_replayed out = false
  /\ (exists b, alone team_sha (fun _ _ => move "blue") (team_session 21) (Some team_catalog) team_grants 1
        (recreate db_red) = Ok (team "green", Some b))
  /\ indexes_match sqlite_view team_catalog sample_scope (recreate db_red)
  /\ ~ indexes_match sqlite_view team_catalog sample_scope db'.
Proof.
  exists (mkMutationOutcome (team "red") (Some 4) false 1), (snd (team_execute (move "blue") recreate 21 db_red)).
  split; [apply team_scenario; [team_solve|by vm_compute|apply recreate_keeps]|].
  split; [rewrite <- move_outcome; exact (surjective_pairing (team_execute (move "blue") recreate 21 db_red))|]. split; [done|]. split; [done|]. split.
  - pose proof alone_outcome as E. destruct (alone _ _ _ _ _ _ _) as [[v [b|]]|]; [|discriminate E..].
    exists b. by injection E as ->.
  - split; [apply recreate_indexes; [apply db_red_ok|apply db_red_indexes]|]. apply stale_entry; [apply moved_document|apply moved_entry].
Qed.

(** The same in three batches: the member leaves, another joins, and a stale batch moves the first. *)
Definition leave_batch : CommitBatch := push_document (DM_Delete team_table member 1) (CommitBatch_new sample_scope (from_ulid 30)).
Definition join_batch : CommitBatch :=
  push_document (DM_Upsert team_table member ER_Absent (team "green")) (CommitBatch_new sample_scope (from_ulid 31)).
Definition stale_event : OutboxAppend := mkOutboxAppend (from_ulid 32) CV_Null.
Definition stale_batch : CommitBatch :=
  push_outbox stale_event (push_document (DM_Upsert team_table member (ER_Exact 1) (team "blue"))
    (push_read (mkDocumentReadAssertion team_table member (Some 1)) (CommitBatch_new sample_scope (from_ulid 32)))).
Definition db_left : Db := snd (commit team_sha TO_Commit (Some 60) leave_batch db_red).
Definition db_joined : Db := snd (commit team_sha TO_Commit (Some 70) join_batch db_left).

#[local] Ltac batch_wf_solve := split; cbn; repeat (apply List.Forall_cons || apply List.Forall_nil);
    unfold read_ok, scope_ok; cbn; unfold id_ok, ulid_range; cbn; split_and?; done || lia || naive_solver lia.

Lemma recreation_batches_wf : batch_wf leave_batch /\ batch_wf join_batch /\ batch_wf stale_batch.
Proof. split; [batch_wf_solve|]. split; batch_wf_solve. Qed.

Lemma stale_batch_replaces : replaces_first sample_scope team_table member (team "blue") stale_event stale_batch.
Proof. split; try reflexivity. apply recreation_batches_wf. Qed.

Lemma leave_outcome : fst (commit team_sha TO_Commit (Some 60) leave_batch db_red)
  = Ok (mkCommitResult 2 [mkDocumentRevisionResult team_table member None] false).
Proof. vm_compute. reflexivity. Qed.
Lemma join_outcome : fst (commit team_sha TO_Commit (Some 70) join_batch db_left)
  = Ok (mkCommitResult 3 [mkDocumentRevisionResult team_table member (Some 1)] false).
Proof. vm_compute. reflexivity. Qed.
Lemma leave_commit : commit team_sha TO_Commit (Some 60) leave_batch db_red
  = (Ok (mkCommitResult 2 [mkDocumentRevisionResult team_table member None] false), db_left).
Proof. rewrite <- leave_outcome. exact (surjective_pairing (commit team_sha TO_Commit (Some 60) leave_batch db_red)). Qed.
Lemma join_commit : commit team_sha TO_Commit (Some 70) join_batch db_left
  = (Ok (mkCommitResult 3 [mkDocumentRevisionResult team_table member (Some 1)] false), db_joined).
Proof. rewrite <- join_outcome. exact (surjective_pairing (commit team_sha TO_Commit (Some 70) join_batch db_left)). Qed.

Definition stale_digest : bytes := match digest team_sha stale_batch with Ok dg => dg | Err _ => [] end.
Lemma stale_digest_is : digest team_sha stale_batch = Ok stale_digest /\ len stale_digest = 32.
Proof. split; by vm_compute. Qed.

Lemma joined_fresh : operations db_joined !! (scope_key sample_scope, id_to_string (b_operation_id stale_batch)) = None
  /\ outbox db_joined !! (scope_key sample_scope, id_to_string (oa_event_id stale_event)) = None
  /\ (default 0 (sequences db_joined !! scope_key sample_scope) <? i64_max) = true.
Proof. split; [by vm_compute|]. split; by vm_compute. Qed.

Lemma recreated_document_undetected_witness : exists res db4 third,
  commit team_sha TO_Commit (Some 80) stale_batch db_joined = (Ok res, db4)
  /\ sqlite_document db4 sample_scope (team_table, member) = Some third /\ dr_value third = team "blue".
Proof.
  destruct recreation_batches_wf as (W1 & W2 & _). destruct stale_digest_is as [Hdg Hlen]. destruct joined_fresh as (Hop & Hev & Hseq).
  destruct (recreated_document_undetected team_sha sample_scope team_table member (team "green") (team "blue") stale_event
    TO_Commit (Some 60) leave_batch _ TO_Commit (Some 70) join_batch _ 80 stale_batch stale_digest db_red db_left db_left db_joined
    db_red_ok W1 eq_refl (list_elem_of_here _ _) leave_commit eq_refl (rtc_refl _ _) W2 eq_refl (list_elem_of_here _ _) join_commit eq_refl
    stale_batch_replaces Hdg Hlen Hop Hev (proj1 (Z.ltb_lt _ _) Hseq) ltac:(by vm_compute))
    as (_ & _ & _ & res & db4 & Hc & _ & third & Hd & _ & Hv).
  exists res, db4, third. split; [exact Hc|]. split; [exact Hd|exact Hv].
Defined.

Lemma red_move_outcome : fst (team_execute (move "blue") unrelated 21 db_red)
  = Ok (mkMutationOutcome (team "red") (Some 3) false 1).
Proof. vm_compute. reflexivity. Qed.

(** The only other client. *)
Definition only_unrelated (db db' : Db) : Prop := db' = unrelated db.

Lemma only_unrelated_keeps db db' : only_unrelated db db' -> keeps team_sha sample_scope db db'.
Proof.
  intros ->. exists sample_scope. split; [apply scopes_ok|]. left. unfold unrelated. apply step_commit; [|done].
  by apply sample_batch_wf.
Qed.

Lemma red_move_scenario : scenario team_sha (Some team_catalog) (fun _ _ => move "blue") (calm unrelated) team_request
  (from_ulid 21) only_unrelated.
Proof. apply team_scenario; [team_solve|by vm_compute|]. intros db _. by apply rtc_once. Qed.

Lemma mutation_serializable_witness : exists v b o clock db0 db1 db2,
  rtc only_unrelated db_red db0 /\ rtc only_unrelated db0 db1 /\ db2 = snd (commit team_sha o clock b db1)
  /\ applied sqlite_view b db1 db2 /\ v = team "red".
Proof.
  destruct (team_execute (move "blue") unrelated 21 db_red) as [r db'] eqn:E.
  pose proof red_move_outcome as Hr. rewrite E in Hr. cbn [fst] in Hr. subst r. unfold team_execute in E.
  destruct (mutation_serializable team_sha (fun _ => 1) (Some team_catalog) (fun _ _ => move "blue") (calm unrelated)
    team_request (from_ulid 21) only_unrelated (team_session 21) (Some team_catalog) team_grants db_red _ db' only_unrelated_keeps
    red_move_scenario db_red_ok (team_prepare 21) E)
    as [[_ H]|(n & v & b & o & clock & db0 & db1 & db2 & H0 & H1 & _ & _ & Hc & Ha & _ & Hv & _)].
  - destruct (H _ eq_refl) as [H1|[H1 _]]; discriminate H1.
  - exists v, b, o, clock, db0, db1, db2. split; [exact H0|]. split; [exact H1|]. split; [exact Hc|]. split; [exact Ha|].
    destruct (Hv _ eq_refl) as [<- _]. reflexivity.
Defined.

Lemma mutation_indexes_exact_witness :
  indexes_match sqlite_view team_catalog sample_scope (snd (team_execute (move "blue") id 21 db_red)).
Proof.
  assert (handler_ok (move "blue")) as Hh by team_solve. assert (ulid_range 21) as Hop by (by vm_compute).
  destruct (team_execute (move "blue") id 21 db_red) as [r db'] eqn:E. unfold team_execute in E. cbn [snd].
  apply (mutation_indexes_exact team_sha (fun _ => 1) (Some team_catalog) (fun _ _ => move "blue") (calm id) team_request
    (from_ulid 21) team_catalog (team_session 21) team_grants db_red r db'); [|apply db_red_ok|apply team_prepare|exact E|apply db_red_indexes].
  exact (team_scenario (move "blue") id 21 _ Hh Hop (fun db _ => rtc_refl _ db)).
Defined.

Definition late_batch : CommitBatch :=
  push_document (DM_Upsert team_table member (ER_Exact 1) (team "blue")) (CommitBatch_new sample_scope (from_ulid 50)).

Lemma late_batch_wf : batch_wf late_batch.
Proof. batch_wf_solve. Qed.

Lemma late_commit : fst (commit team_sha TO_Commit (Some 40) late_batch db_red)
  = Ok (mkCommitResult 2 [mkDocumentRevisionResult team_table member (Some 2)] false).
Proof. vm_compute. reflexivity. Qed.
Lemma red_document : sqlite_document db_red sample_scope (team_table, member)
  = Some (mkDocumentRecord team_table member 1 1 50 50 (team "red")).
Proof. vm_compute. reflexivity. Qed.

Lemma clock_set_back_unreadable_witness :
  fst (data_get (LS := sqlite_store team_sha) (team_session 21) (snd (commit team_sha TO_Commit (Some 40) late_batch db_red))
    (R_Waited W_Ready) (R_Waited W_Ready) (team_table, member) initial_state) = Err DE_Storage.
Proof.
  assert (session_ok (team_session 21)) as Hs by done.
  pose proof late_commit as Hc. destruct (commit team_sha TO_Commit (Some 40) late_batch db_red) as [r db'] eqn:E.
  cbn [fst snd] in *. subst r.
  destruct (clock_set_back_unreadable team_sha TO_Commit (Some 40) 40 late_batch db_red _ db' team_table member 1 (team "blue")
    _ (team_session 21) db_red_ok late_batch_wf E eq_refl eq_refl (list_elem_of_here _ _) red_document (eq_refl : 40 < 50) Hs eq_refl)
    as (st & Hg & _). rewrite Hg. reflexivity.
Defined.

Lemma red_attempt : match attempt_batch (LS := sqlite_store team_sha) team_sha (team_session 21) (Some team_catalog) (move "blue")
    (fun _ => no_faults) (fun _ => W_Ready) W_Ready db_red with Ok (v, Some _) => Some v | _ => None end = Some (team "red").
Proof. vm_compute. reflexivity. Qed.
Lemma blue_outcome : fst (team_execute (move "blue") id 21 db_red) = Ok (mkMutationOutcome (team "red") (Some 2) false 1).
Proof. vm_compute. reflexivity. Qed.
Lemma blue_again : fst (team_execute (move "blue") id 21 (snd (team_execute (move "blue") id 21 db_red)))
  = Err (ME_Storage SE_OperationIdReused).
Proof. vm_compute. reflexivity. Qed.
Lemma red_again : fst (team_execute (join "red") id 20 db_red) = Ok (mkMutationOutcome CV_Null (Some 1) true 1).
Proof. vm_compute. reflexivity. Qed.

Lemma mutation_batch_typed_witness : exists b,
  attempt_batch (LS := sqlite_store team_sha) team_sha (team_session 21) (Some team_catalog) (move "blue") (fun _ => no_faults)
    (fun _ => W_Ready) W_Ready db_red = Ok (team "red", Some b) /\ batch_wf b /\ b_scope b = sample_scope.
Proof.
  assert (session_ok (team_session 21)) as Hs by done. assert (handler_ok (move "blue")) as Hh by team_solve.
  assert (forall c, Some team_catalog = Some c -> catalog_built team_sha c) as Hc by (intros c [= <-]; apply team_catalog_built).
  pose proof red_attempt as Ha. destruct (attempt_batch _ _ _ _ _ _ _ _) as [[v [b|]]|e] eqn:E; [|discriminate Ha..].
  injection Ha as ->. exists b. split; [reflexivity|].
  destruct (mutation_batch_typed team_sha (team_session 21) (Some team_catalog) (move "blue") (fun _ => no_faults)
    (fun _ => W_Ready) W_Ready db_red _ b Hs Hc Hh db_red_ok E) as (Hw & _ & Hscope & _).
  split; [exact Hw|exact Hscope].
Defined.

(** A committed Mutation cannot always be replayed.  An execution with the identifier of a
    committed one is documented to return the original result.  It runs the handler again, on the
    committed state, and the journal only recognises the batch it stored: a handler that writes
    without reading is answered from the journal, but one that read what it changed builds another
    batch and is refused as a reuse of the identifier. *)
Theorem committed_replay_refused :
  (exists out db1, team_execute (move "blue") id 21 db_red = (Ok out, db1)
     /\ mo_value out = team "red" /\ mo_replayed out = false
     /\ fst (team_execute (move "blue") id 21 db1) = Err (ME_Storage SE_OperationIdReused))
  /\ (exists out, fst (team_execute (join "red") id 20 db_red) = Ok out /\ mo_replayed out = true).
Proof.
  split.
  - exists (mkMutationOutcome (team "red") (Some 2) false 1), (snd (team_execute (move "blue") id 21 db_red)).
    split; [rewrite <- blue_outcome; exact (surjective_pairing (team_execute (move "blue") id 21 db_red))|].
    split; [done|]. split; [done|]. exact blue_again.
  - exists (mkMutationOutcome CV_Null (Some 1) true 1). split; [exact red_again|done].
Qed.
