(* ===== verification/Worker.v ===== *)
(** * The scheduled-invocation worker: [crates/runku-execution/src/scheduler.rs]

    Configuration, retry policy and one poll of the worker that claims due invocations, hands each
    to a runner and stores the outcome, over the SQLite store.  The runner, the clock and what
    other clients do while a record runs are arguments.  Telemetry counters are left out. *)

From Stdlib Require Import Strings.Byte ZArith Lia.
From stdpp Require Import prelude strings gmap sorting list relations.
From S2P Require Import Prelude Order Ulid Value StoredValue Core StoreModel Batch Sql SqliteStore.
From S2P Require Import SqliteCommit SqliteInvariant SqliteReads SqliteSchedule.

(** ** Configuration *)

Record ScheduledWorkerConfig : Type := mkScheduledWorkerConfig {
  batch_limit : Z;
  lease_micros : Z;
  invocation_timeout : Z;  (** a [Duration], in nanoseconds *)
  max_attempts : Z;
  retry_base_micros : Z;
  retry_max_micros : Z
}.

Inductive ScheduledWorkerError : Type :=
| WK_InvalidConfiguration | WK_InvalidFailureCode | WK_Storage (e : StoreError) | WK_ClockUnavailable.

Definition ScheduledWorkerError_code (e : ScheduledWorkerError) : bytes :=
  match e with
  | WK_InvalidConfiguration => text "SCHEDULE_WORKER_CONFIGURATION_INVALID"
  | WK_InvalidFailureCode => text "SCHEDULE_RUNNER_ERROR_CODE_INVALID"
  | WK_Storage e => StoreError_code e
  | WK_ClockUnavailable => text "SCHEDULE_CLOCK_UNAVAILABLE"
  end.
Definition ScheduledWorkerError_retryable (e : ScheduledWorkerError) : bool :=
  match e with
  | WK_Storage e => StoreError_retryable e
  | WK_ClockUnavailable => true
  | WK_InvalidConfiguration | WK_InvalidFailureCode => false
  end.

Definition PRODUCTION : ScheduledWorkerConfig :=
  mkScheduledWorkerConfig 1 330000000 (5 * 60 * 1000000000) 10 1000000 300000000.

Definition config_validate (self : ScheduledWorkerConfig) : result ScheduledWorkerError ScheduledWorkerConfig :=
  let? timeout := ok_or WK_InvalidConfiguration (try_from_u u64_max (invocation_timeout self / 1000)) in
  let? required_lease := ok_or WK_InvalidConfiguration
    (value ← checked_mul u64_max timeout (batch_limit self); checked_add u64_max value 1000000) in
  if (batch_limit self =? 0) || (100 <? batch_limit self) || (invocation_timeout self =? 0)
     || (max_attempts self =? 0) || (retry_base_micros self =? 0)
     || (retry_max_micros self <? retry_base_micros self) || (lease_micros self <? required_lease)
  then Err WK_InvalidConfiguration else Ok self.

(** ** Failures *)

Record ScheduledRunFailure : Type := mkScheduledRunFailure { rf_code : bytes; rf_retryable : bool }.

Definition ScheduledRunFailure_new (code : bytes) (retryable : bool)
  : result ScheduledWorkerError ScheduledRunFailure :=
  if bool_decide (code = []) || (64 <? len code)
     || negb (forallb (fun b => is_ascii_uppercase b || is_ascii_digit b || bool_decide (b = x5f)) code)
  then Err WK_InvalidFailureCode else Ok (mkScheduledRunFailure code retryable).

Definition ScheduledRunFailure_internal : ScheduledRunFailure :=
  mkScheduledRunFailure (text "SCHEDULE_RUNNER_INTERNAL") false.

(** [SystemSchedulerClock::now]; the argument is the time since the epoch, if it is after it. *)
Definition SystemSchedulerClock_now (micros : option Z) : result ScheduledWorkerError Z :=
  let? elapsed := ok_or WK_ClockUnavailable micros in
  ok_or WK_ClockUnavailable (try_from_u i64_max elapsed).

(** ** Retries *)

Record ScheduledPollOutcome : Type := mkScheduledPollOutcome {
  po_claimed : Z; po_succeeded : Z; po_retried : Z; po_failed : Z
}.
Definition saturating_succ (n : Z) : Z := Z.min u32_max (n + 1).
Definition count_succeeded (o : ScheduledPollOutcome) : ScheduledPollOutcome :=
  mkScheduledPollOutcome (po_claimed o) (saturating_succ (po_succeeded o)) (po_retried o) (po_failed o).
Definition count_retried (o : ScheduledPollOutcome) : ScheduledPollOutcome :=
  mkScheduledPollOutcome (po_claimed o) (po_succeeded o) (saturating_succ (po_retried o)) (po_failed o).
Definition count_failed (o : ScheduledPollOutcome) : ScheduledPollOutcome :=
  mkScheduledPollOutcome (po_claimed o) (po_succeeded o) (po_retried o) (saturating_succ (po_failed o)).

Definition retry_or_fail (config : ScheduledWorkerConfig) (record : ScheduledInvocationRecord) (code : bytes)
  (retryable : bool) (now : Z) (outcome : ScheduledPollOutcome)
  : result ScheduledWorkerError (ScheduleCompletion * ScheduledPollOutcome) :=
  if retryable && (si_attempts record <? max_attempts config) then
    let shift := Z.min (Z.max 0 (si_attempts record - 1)) 63 in
    let delay := Z.min (Z.min u64_max (retry_base_micros config * Z.shiftl 1 shift)) (retry_max_micros config) in
    let? delay := ok_or WK_ClockUnavailable (try_from_u i64_max delay) in
    let? execute_at := ok_or WK_ClockUnavailable (checked_i64 (now + delay)) in
    Ok (SC_Retry execute_at code, count_retried outcome)
  else Ok (SC_Failed code, count_failed outcome).

(** ** One poll *)

(** How one claimed record fares: what the runner answers, if it answers in time, what it and
    everybody else do to the database meanwhile, and the clocks and the transaction of the
    completion. *)
Record Run : Type := mkRun {
  rn_answer : option (result ScheduledRunFailure unit);
  rn_effect : Db -> Db;
  rn_clock : result ScheduledWorkerError Z;
  rn_outcome : TxnOutcome;
  rn_store_clock : option Z
}.

Section poll.
Context {UL : UlidLib}.
Variables (config : ScheduledWorkerConfig) (worker_id : WorkerId) (scope : EnvironmentScope).

Definition decide_completion (record : ScheduledInvocationRecord) (run : Run) (outcome : ScheduledPollOutcome)
  : result ScheduledWorkerError (ScheduleCompletion * ScheduledPollOutcome) :=
  match rn_answer run with
  | Some (Ok _) => Ok (SC_Succeeded, count_succeeded outcome)
  | None =>
      let? now := rn_clock run in
      retry_or_fail config record (text "SCHEDULE_EXECUTION_TIMEOUT") true now outcome
  | Some (Err failure) =>
      let? now := rn_clock run in
      retry_or_fail config record (rf_code failure) (rf_retryable failure) now outcome
  end.

Fixpoint run_claimed (runner : ScheduledInvocationRecord -> Run) (claimed : list ScheduledInvocationRecord)
  (outcome : ScheduledPollOutcome) (db : Db) : result ScheduledWorkerError ScheduledPollOutcome * Db :=
  match claimed with
  | [] => (Ok outcome, db)
  | record :: claimed =>
      let run := runner record in
      let db := rn_effect run db in
      match decide_completion record run outcome with
      | Err e => (Err e, db)
      | Ok (completion, outcome) =>
          match complete_scheduled (rn_outcome run) (rn_store_clock run) scope (si_id record) worker_id
                  (si_lease_generation record) completion db with
          | (Err e, db) => (Err (WK_Storage e), db)
          | (Ok _, db) => run_claimed runner claimed outcome db
          end
      end
  end.

Definition poll_once (clock : result ScheduledWorkerError Z) (claim : TxnOutcome)
  (runner : ScheduledInvocationRecord -> Run) (db : Db) : result ScheduledWorkerError ScheduledPollOutcome * Db :=
  match
    let? now := clock in
    let? lease_delta := ok_or WK_InvalidConfiguration (try_from_u i64_max (lease_micros config)) in
    let? lease_until := ok_or WK_ClockUnavailable (checked_i64 (now + lease_delta)) in
    Ok (now, lease_until)
  with
  | Err e => (Err e, db)
  | Ok (now, lease_until) =>
      match claim_due_scheduled claim scope worker_id now lease_until (batch_limit config) db with
      | (Err e, db) => (Err (WK_Storage e), db)
      | (Ok claimed, db) =>
          run_claimed runner claimed
            (mkScheduledPollOutcome (default u32_max (try_from_u u32_max (len claimed))) 0 0 0) db
      end
  end.
End poll.

(** ** The retry policy *)

(** The delay before the retry that follows attempt number [attempts]. *)
Definition backoff (config : ScheduledWorkerConfig) (attempts : Z) : Z :=
  Z.min (retry_base_micros config * 2 ^ (attempts - 1)) (retry_max_micros config).

(** What [validate] and the types of the fields guarantee. *)
Record config_ok (config : ScheduledWorkerConfig) : Prop := {
  co_limit : 0 < batch_limit config <= 100;
  co_attempts : 0 < max_attempts config <= u32_max;
  co_base : 0 < retry_base_micros config <= retry_max_micros config;
  co_max : retry_max_micros config <= u64_max;
  co_lease : invocation_timeout config / 1000 * batch_limit config + 1000000 <= lease_micros config
}.

Definition config_typed (config : ScheduledWorkerConfig) : Prop :=
  0 <= batch_limit config <= u32_max /\ 0 <= lease_micros config <= u64_max /\ 0 <= invocation_timeout config
  /\ 0 <= max_attempts config <= u32_max /\ 0 <= retry_base_micros config <= u64_max
  /\ 0 <= retry_max_micros config <= u64_max.

Lemma config_validate_Ok config c : config_typed config -> config_validate config = Ok c -> c = config /\ config_ok config.
Proof.
  intros (Hb & Hl & Ht & Hm & Hr & Hx) (t & [-> _]%ok_or_Ok%try_from_u_Some & H)%rbind_Ok.
  apply rbind_Ok in H as (req & Hreq%ok_or_Ok & H). unfold checked_mul in Hreq.
  destruct (_ <=? u64_max); [|done]. cbn in Hreq. apply checked_add_Some in Hreq as [-> _].
  destruct (_ || _) eqn:E; [done|]. injection H as <-. split; [done|].
  rewrite !orb_false_iff, !Z.eqb_neq, !Z.ltb_ge in E. split; lia.
Qed.

Lemma retry_delay config attempts : config_ok config -> 1 <= attempts ->
  let delay := Z.min (Z.min u64_max (retry_base_micros config * Z.shiftl 1 (Z.min (Z.max 0 (attempts - 1)) 63)))
                 (retry_max_micros config) in
  (delay <= i64_max <-> backoff config attempts <= i64_max)
  /\ (delay <= i64_max -> delay = backoff config attempts) /\ 0 <= delay.
Proof.
  intros [_ _ Hb Hm _] Ha. unfold backoff. rewrite Z.shiftl_1_l, Z.max_r by lia.
  destruct (Z.le_gt_cases (attempts - 1) 63) as [Hs|Hs].
  - rewrite (Z.min_l (attempts - 1)) by lia. cbn zeta.
    assert (0 < 2 ^ (attempts - 1)) by (apply Z.pow_pos_nonneg; lia). nia.
  - rewrite (Z.min_r (attempts - 1)) by lia. cbn zeta.
    assert (2 ^ 64 <= 2 ^ (attempts - 1)) as Hp by (apply Z.pow_le_mono_r; lia).
    change (2 ^ 63) with 9223372036854775808 in *. change (2 ^ 64) with 18446744073709551616 in Hp.
    unfold u64_max, i64_max in *. nia.
Qed.

Lemma retry_equation config record code retryable now outcome :
  config_ok config -> 1 <= si_attempts record -> is_i64 now = true ->
  retry_or_fail config record code retryable now outcome =
    (if retryable && (si_attempts record <? max_attempts config) then
       if now + backoff config (si_attempts record) <=? i64_max
       then if backoff config (si_attempts record) <=? i64_max
            then Ok (SC_Retry (now + backoff config (si_attempts record)) code, count_retried outcome)
            else Err WK_ClockUnavailable
       else Err WK_ClockUnavailable
     else Ok (SC_Failed code, count_failed outcome))
  /\ retry_base_micros config <= backoff config (si_attempts record) <= retry_max_micros config.
Proof.
  intros Hc Ha Hn%is_i64_spec. destruct (retry_delay config (si_attempts record) Hc Ha) as (Hiff & Heq & Hpos). split.
  - unfold retry_or_fail. destruct (_ && _); [|done]. cbn zeta in *.
    match goal with |- context [try_from_u i64_max ?x] => generalize dependent x end.
    intros delay Hiff Heq Hpos. unfold try_from_u. rewrite (proj2 (Z.leb_le 0 delay)) by done. cbn [andb].
    destruct (Z.leb_spec delay i64_max) as [Hd|Hd]; cbn [ok_or rbind].
    + specialize (Heq Hd) as ->. unfold checked_i64, is_i64.
      rewrite (proj2 (Z.leb_le (backoff _ _) i64_max)) by done.
      rewrite (proj2 (Z.leb_le i64_min _)) by lia. cbn [andb]. by destruct (_ <=? i64_max).
    + destruct (Z.leb_spec (backoff config (si_attempts record)) i64_max); [lia|]. by destruct (_ <=? i64_max).
  - destruct Hc as [_ _ Hb _ _]. unfold backoff.
    assert (0 < 2 ^ (si_attempts record - 1)) by (apply Z.pow_pos_nonneg; lia). nia.
Qed.

(** The retry policy.  A failed attempt is retried exactly when its failure is retryable and
    fewer than [max_attempts] attempts were made; attempt [n] is followed by a delay of
    [retry_base * 2^(n-1)], capped by [retry_max], however large [n] is: the saturating 64-bit
    arithmetic and the bounded shift compute just that.  The delay lies between the two
    configured bounds.  Only a time that does not fit 64 bits is an error; otherwise the record is
    failed. *)
Theorem retry_policy config record code retryable now outcome :
  config_ok config -> 1 <= si_attempts record -> is_i64 now = true ->
  retry_or_fail config record code retryable now outcome =
    (if retryable && (si_attempts record <? max_attempts config) then
       if now + backoff config (si_attempts record) <=? i64_max
       then if backoff config (si_attempts record) <=? i64_max
            then Ok (SC_Retry (now + backoff config (si_attempts record)) code, count_retried outcome)
            else Err WK_ClockUnavailable
       else Err WK_ClockUnavailable
     else Ok (SC_Failed code, count_failed outcome))
  /\ retry_base_micros config <= backoff config (si_attempts record) <= retry_max_micros config.
Proof. apply retry_equation. Qed.

(** ** Sums *)

Lemma sum_list_with_le {A} (f g : A -> nat) l : (forall x, x ∈ l -> (f x <= g x)%nat) ->
  (sum_list_with f l <= sum_list_with g l)%nat.
Proof.
  induction l as [|x l IH]; intros H; cbn; [done|]. pose proof (H x (list_elem_of_here _ _)).
  assert (sum_list_with f l <= sum_list_with g l)%nat by (apply IH; intros; apply H; by right). lia.
Qed.
Lemma sum_list_with_lt {A} (f g : A -> nat) l y : (forall x, x ∈ l -> (f x <= g x)%nat) -> y ∈ l -> (f y < g y)%nat ->
  (sum_list_with f l < sum_list_with g l)%nat.
Proof.
  intros H Hy Hlt. apply list_elem_of_split in Hy as (l1 & l2 & ->). rewrite !sum_list_with_app. cbn.
  assert (sum_list_with f l1 <= sum_list_with g l1)%nat by (apply sum_list_with_le; intros; apply H; set_solver).
  assert (sum_list_with f l2 <= sum_list_with g l2)%nat by (apply sum_list_with_le; intros; apply H; set_solver). lia.
Qed.

(** ** One poll of a worker that is not disturbed *)

Section poll_facts.
Context {UL : UlidLib} {ULL : UlidLaws}.
Variables (config : ScheduledWorkerConfig) (w : WorkerId) (sc : EnvironmentScope).
Hypotheses (config_wf : config_ok config) (w_ok : id_ok w).

Definition clock_of (run : Run) : Z := match rn_clock run with Ok now => now | Err _ => 0 end.
Definition store_time (run : Run) : Z := match now_micros (rn_store_clock run) with Ok now => now | Err _ => 0 end.

(** The completion the retry policy prescribes. *)
Definition failed_completion (record : ScheduledInvocationRecord) (code : bytes) (retryable : bool) (now : Z)
  : ScheduleCompletion :=
  if retryable && (si_attempts record <? max_attempts config)
  then SC_Retry (now + backoff config (si_attempts record)) code else SC_Failed code.
Definition prescribed (record : ScheduledInvocationRecord) (run : Run) : ScheduleCompletion :=
  match rn_answer run with
  | Some (Ok _) => SC_Succeeded
  | Some (Err f) => failed_completion record (rf_code f) (rf_retryable f) (clock_of run)
  | None => failed_completion record (text "SCHEDULE_EXECUTION_TIMEOUT") true (clock_of run)
  end.
Definition count_as (c : ScheduleCompletion) (o : ScheduledPollOutcome) : ScheduledPollOutcome :=
  match c with SC_Succeeded => count_succeeded o | SC_Retry _ _ => count_retried o | SC_Failed _ => count_failed o end.

(** A record runs, with any answer, while clocks and store work and nobody touches the existing
    schedules of the Environment.  New ones may appear. *)
Record undisturbed (run : Run) : Prop := {
  ud_clock : exists now, rn_clock run = Ok now /\ is_i64 now = true /\ now + retry_max_micros config <= i64_max;
  ud_commit : rn_outcome run = TO_Commit;
  ud_store : exists now, now_micros (rn_store_clock run) = Ok now;
  ud_code f : rn_answer run = Some (Err f) -> validate_error_code (rf_code f) = Ok tt;
  ud_ok db : db_ok db -> db_ok (rn_effect run db);
  ud_rows db id row : schedules db !! (scope_key sc, id) = Some row ->
    schedules (rn_effect run db) !! (scope_key sc, id) = Some row
}.
Hypothesis (max_fits : retry_max_micros config <= i64_max).

Lemma retry_or_fail_prescribed record code retryable now outcome : 1 <= si_attempts record -> is_i64 now = true ->
  now + retry_max_micros config <= i64_max ->
  retry_or_fail config record code retryable now outcome
  = Ok (failed_completion record code retryable now, count_as (failed_completion record code retryable now) outcome).
Proof.
  intros Ha Hn Hmax. destruct (retry_equation config record code retryable now outcome config_wf Ha Hn) as [-> Hb].
  unfold failed_completion. destruct (_ && _); [|done].
  rewrite !(proj2 (Z.leb_le _ i64_max)) by lia. done.
Qed.

Lemma decide_completion_prescribed record run outcome : 1 <= si_attempts record -> undisturbed run ->
  decide_completion config record run outcome = Ok (prescribed record run, count_as (prescribed record run) outcome)
  /\ validate_completion (prescribed record run) = Ok tt.
Proof.
  intros Ha [(now & Hc & Hn & Hmax) _ _ Hcode _ _]. unfold decide_completion, prescribed, clock_of. rewrite Hc. cbn [rbind].
  assert (forall code retryable, validate_error_code code = Ok tt ->
    validate_completion (failed_completion record code retryable now) = Ok tt) as Hv
    by (intros; unfold failed_completion; by destruct (_ && _)).
  destruct (rn_answer run) as [[u|f]|]; [done| |]; rewrite retry_or_fail_prescribed by done; split; [done|auto|done|].
  by apply Hv.
Qed.

(** The lease a claimed record stands for. *)
Definition leased (db : Db) (rec : ScheduledInvocationRecord) : Prop :=
  id_ok (si_id rec) /\ 1 <= si_attempts rec /\ 0 < si_lease_generation rec <= i64_max
  /\ exists row, schedules db !! (scope_key sc, id_to_string (si_id rec)) = Some row
       /\ holds_lease w (si_lease_generation rec) row.

Lemma run_claimed_spec runner recs outcome db : db_ok db -> (forall rec, rec ∈ recs -> undisturbed (runner rec)) ->
  NoDup (map si_id recs) -> Forall (leased db) recs ->
  exists db', run_claimed config w sc runner recs outcome db
      = (Ok (fold_left (fun o rec => count_as (prescribed rec (runner rec)) o) recs outcome), db')
    /\ db_ok db'
    /\ (forall rec row, rec ∈ recs -> schedules db !! (scope_key sc, id_to_string (si_id rec)) = Some row ->
          schedules db' !! (scope_key sc, id_to_string (si_id rec))
          = Some (completed_row (prescribed rec (runner rec)) (store_time (runner rec)) row))
    /\ (forall id row, id ∉ map (fun rec => id_to_string (si_id rec)) recs ->
          schedules db !! (scope_key sc, id) = Some row -> schedules db' !! (scope_key sc, id) = Some row).
Proof.
  revert outcome db; induction recs as [|rec recs IH]; intros outcome db Hdb Hrun Hnd Hl.
  { exists db. split_and!; try done. by intros rec row ?%elem_of_nil. }
  cbn [map] in Hnd. apply NoDup_cons in Hnd as [Hid Hnd]. apply Forall_cons in Hl as [(Hi & Ha & Hg & row & Hrow & Hh) Hl].
  pose proof (Hrun rec (list_elem_of_here _ _)) as Hr. cbn [run_claimed fold_left].
  destruct (decide_completion_prescribed rec (runner rec) outcome Ha Hr) as [-> Hv].
  destruct Hr as [_ Hcommit (now & Hnow) _ Hok Hrows]. rewrite Hcommit.
  set (db1 := rn_effect (runner rec) db). set (key := (scope_key sc, id_to_string (si_id rec))) in *.
  rewrite (complete_held _ _ _ _ _ _ db1 now row Hv Hg Hnow (Hrows db _ row Hrow) Hh). fold key.
  set (db2 := set_schedules _ db1).
  assert (forall rec', rec' ∈ recs -> id_ok (si_id rec') -> (scope_key sc, id_to_string (si_id rec')) <> key) as Hne.
  { intros rec' Hin Hi' [_ E]%pair_equal_spec. apply id_to_string_inj in E; [|done..].
    apply Hid. rewrite <- E. by apply list_elem_of_In, in_map, list_elem_of_In. }
  assert (db_ok db2) as Hdb2.
  { pose proof (complete_preserves TO_Commit (rn_store_clock (runner rec)) sc (si_id rec) w (si_lease_generation rec)
      (prescribed rec (runner rec)) db1 (Hok db Hdb)) as H.
    by rewrite (complete_held _ _ _ _ _ _ db1 now row Hv Hg Hnow (Hrows db _ row Hrow) Hh) in H. }
  assert (forall id row', (scope_key sc, id) <> key -> schedules db !! (scope_key sc, id) = Some row' ->
    schedules db2 !! (scope_key sc, id) = Some row') as Hframe.
  { intros id row' Hn Hl'. cbn [db2 schedules set_schedules]. rewrite lookup_insert_ne by done. by apply Hrows. }
  destruct (IH (count_as (prescribed rec (runner rec)) outcome) db2 Hdb2) as (db' & Hrec & Hdb' & Hdone & Hkeep).
  { intros rec' Hin. apply Hrun. by right. }
  { done. }
  { rewrite Forall_forall in Hl |- *. intros rec' Hin. destruct (Hl rec' Hin) as (Hi' & Ha' & Hg' & row' & Hrow' & Hh').
    split_and!; try done; try lia. exists row'. split; [|done]. by apply Hframe; [apply Hne|]. }
  exists db'. split; [exact Hrec|]. split; [done|]. split.
  - intros rec' row' Hin Hrow'. apply elem_of_cons in Hin as [->|Hin].
    + fold key in Hrow'. rewrite Hrow in Hrow'. injection Hrow' as <-. unfold store_time. rewrite Hnow.
      apply Hkeep; [|cbn [db2 schedules set_schedules]; by rewrite lookup_insert_eq].
      intros (rec' & E & Hin)%list_elem_of_In%in_map_iff. apply list_elem_of_In in Hin.
      rewrite Forall_forall in Hl. destruct (Hl rec' Hin) as (Hi' & _). apply (Hne rec' Hin Hi'). unfold key. by rewrite E.
    + apply Hdone; [done|]. rewrite Forall_forall in Hl. destruct (Hl rec' Hin) as (Hi' & _). apply Hframe; [by apply Hne|done].
  - intros id row' Hn Hl'. cbn [map] in Hn. apply not_elem_of_cons in Hn as [Hn1 Hn2]. apply Hkeep; [done|].
    apply Hframe; [|done]. intros [_ E]%pair_equal_spec. done.
Qed.

(** The counters of the rows a claim at [now] may take are below their bounds. *)
Definition counters_fit (now : Z) (db : Db) : Prop :=
  forall r, due_entry (scope_key sc) now db r -> s_attempts (snd r) + 1 <= u32_max /\ s_lease_generation (snd r) + 1 <= i64_max.

(** A claim row becomes the claimed record, and that record's outcome is stored. *)
Definition served (now : Z) (runner : ScheduledInvocationRecord -> Run) (r : schedule_entry) (db' : Db) : Prop :=
  exists before, decode_schedule_row (snd (fst r)) (snd r) = Ok before
    /\ let rec := claimed_record w (now + lease_micros config) before in
       schedules db' !! fst r = Some (completed_row (prescribed rec (runner rec)) (store_time (runner rec))
         (claimed_row (id_to_string w) now (now + lease_micros config) (snd r))).

Lemma decode_schedule_id id row rec : decode_schedule_row id row = Ok rec ->
  id_ok (si_id rec) /\ id = id_to_string (si_id rec) /\ si_attempts rec = s_attempts row
  /\ si_lease_generation rec = s_lease_generation row /\ 0 <= s_attempts row /\ 0 <= s_lease_generation row.
Proof.
  unfold decode_schedule_row. intros H. apply rbind_Ok in H as (o1 & _ & H).
  apply rbind_Ok in H as (i & [Hi ->]%parse_id_Ok & H). do 4 (apply rbind_Ok in H as (? & _ & H)).
  apply rbind_Ok in H as (a & [-> Ha]%positive_or_zero_u32_Ok & H).
  apply rbind_Ok in H as (g & [-> Hg]%positive_or_zero_u64_Ok & H).
  apply rbind_Ok in H as (n & _ & H). injection H as <-. cbn. split_and!; done || lia.
Qed.

Definition record_key (rec : ScheduledInvocationRecord) : skey * bytes := (scope_key sc, id_to_string (si_id rec)).

(** What a claim at [now] hands out. *)
Lemma claim_leases now until db : db_ok db -> now < until -> counters_fit now db ->
  exists rows recs db1, claim_due_scheduled TO_Commit sc w now until (batch_limit config) db = (Ok recs, db1)
    /\ limit_query due_order (due_entry (scope_key sc) now db) (Z.to_nat (batch_limit config)) rows
    /\ map fst rows = map record_key recs /\ NoDup (map si_id recs) /\ Forall (leased db1) recs /\ db_ok db1
    /\ (forall r, r ∈ rows -> exists before, decode_schedule_row (snd (fst r)) (snd r) = Ok before
          /\ claimed_record w until before ∈ recs /\ fst r = record_key (claimed_record w until before)
          /\ schedules db1 !! fst r = Some (claimed_row (id_to_string w) now until (snd r)))
    /\ (forall k, k ∉ map fst rows -> schedules db1 !! k = schedules db !! k).
Proof.
  intros Hdb Hlt Hcnt. pose proof (co_limit _ config_wf) as Hlim.
  destruct (claim_due_commit sc w now until (batch_limit config) db Hdb w_ok Hlim Hlt Hcnt)
    as (rows & recs & db1 & Hclaim & Hq & Hall & Hframe & _).
  pose proof (claim_due_preserves TO_Commit sc w now until (batch_limit config) db Hdb) as Hdb1.
  rewrite Hclaim in Hdb1. cbn [snd] in Hdb1.
  apply (Forall2_with (fun r => r ∈ rows) _ (fun r rec => fst r = record_key rec /\ leased db1 rec
    /\ exists before, decode_schedule_row (snd (fst r)) (snd r) = Ok before /\ rec = claimed_record w until before
        /\ schedules db1 !! fst r = Some (claimed_row (id_to_string w) now until (snd r)))) in Hall;
    [|by intros ? ?%list_elem_of_In|].
  2:{ intros [[sk id] row] rec Hr (before & Hdec & -> & Hrow). destruct (lq_sound _ _ _ _ Hq _ Hr) as (Esk & Elk & Hdue).
      destruct (Hcnt _ (conj Esk (conj Elk Hdue))) as [Hca Hcg]. cbn [fst snd] in *. subst sk.
      destruct (decode_schedule_id _ _ _ Hdec) as (Hi & -> & Ea & Eg & Ha & Hg). split; [done|]. split; [|by exists before].
      unfold leased, claimed_record. cbn [si_id si_attempts si_lease_generation]. split_and!; [done|lia|lia|lia|].
      eexists. split; [exact Hrow|]. unfold holds_lease. cbn. by rewrite Eg. }
  assert (map fst rows = map record_key recs) as Hkeys by (clear -Hall; induction Hall as [|r rec ? ? (E & _)]; cbn; congruence).
  exists rows, recs, db1. split_and!; try done.
  - apply (NoDup_fmap_1 (fun i : ScheduledInvocationId => (scope_key sc, id_to_string i))).
    change (NoDup (map (fun i : ScheduledInvocationId => (scope_key sc, id_to_string i)) (map si_id recs))).
    rewrite map_map. fold record_key. rewrite <- Hkeys.
    apply (NoDup_rendered (fun r => r)); [rewrite map_id; apply (lq_nodup _ _ _ _ Hq)|].
    intros [k row] [k' row'] (_ & Hk & _)%(lq_sound _ _ _ _ Hq) (_ & Hk' & _)%(lq_sound _ _ _ _ Hq) E. cbn in *. congruence.
  - clear -Hall. induction Hall as [|r rec ? ? (_ & H & _)]; by constructor.
  - intros r (rec & Hin & E & _ & before & Hdec & -> & Hrow)%(Forall2_elem_l _ rows recs r Hall). eauto 10.
Qed.

Lemma poll_commit now runner db : db_ok db -> is_i64 now = true -> 0 < lease_micros config <= i64_max ->
  now + lease_micros config <= i64_max -> counters_fit now db -> (forall rec, undisturbed (runner rec)) ->
  exists rows out db', poll_once config w sc (Ok now) TO_Commit runner db = (Ok out, db')
    /\ limit_query due_order (due_entry (scope_key sc) now db) (Z.to_nat (batch_limit config)) rows
    /\ (forall r, r ∈ rows -> served now runner r db')
    /\ (forall id row, (scope_key sc, id) ∉ map fst rows -> schedules db !! (scope_key sc, id) = Some row ->
          schedules db' !! (scope_key sc, id) = Some row)
    /\ db_ok db'.
Proof.
  intros Hdb Hn Hl Hfit Hcnt Hrun. apply is_i64_spec in Hn.
  destruct (claim_leases now (now + lease_micros config) db Hdb ltac:(lia) Hcnt)
    as (rows & recs & db1 & Hclaim & Hq & Hkeys & Hnd & Hleased & Hdb1 & Hrows & Hframe).
  unfold poll_once. cbn [rbind].
  rewrite (proj2 (try_from_u_Some i64_max (lease_micros config) (lease_micros config))) by (split; [done|lia]). cbn [ok_or rbind].
  unfold checked_i64. rewrite (proj2 (is_i64_spec (now + lease_micros config))) by lia. cbn [ok_or rbind]. rewrite Hclaim.
  destruct (run_claimed_spec runner recs (mkScheduledPollOutcome (default u32_max (try_from_u u32_max (len recs))) 0 0 0) db1 Hdb1
    (fun rec _ => Hrun rec) Hnd Hleased) as (db' & Hrc & Hdb' & Hdone & Hkeep).
  eexists rows, _, db'. split; [exact Hrc|]. split_and!; [done| | |done].
  - intros r Hr. destruct (Hrows r Hr) as (before & Hdec & Hin & E & Hrow). exists before. split; [done|].
    rewrite E in Hrow |- *. by apply Hdone.
  - intros id row Hno Hrow. apply Hkeep; [|by rewrite Hframe].
    intros (rec & <- & Hin)%list_elem_of_In%in_map_iff. apply Hno. rewrite Hkeys. by apply list_elem_of_In, (in_map record_key).
Qed.

(** ** Draining *)

#[export] Instance terminal_dec row : Decision (terminal row).
Proof. unfold terminal. apply _. Defined.

(** The attempts a row may still take. *)
Definition remaining (row : ScheduleRow) : nat :=
  if decide (terminal row) then 0%nat else S (Z.to_nat (max_attempts config - s_attempts row)).
Definition remaining_at (db : Db) (k : skey * bytes) : nat :=
  if decide (fst k = scope_key sc) then default 0%nat (remaining <$> schedules db !! k) else 0%nat.
Definition work (db : Db) : nat := sum_list_with (remaining_at db) (elements (dom (schedules db))).

Definition drained (db : Db) : Prop :=
  forall id row, schedules db !! (scope_key sc, id) = Some row -> terminal row.

(** Serving a row uses up at least one of its attempts. *)
Lemma served_remaining now runner (r : schedule_entry) before : schedule_due now (snd r) = true ->
  decode_schedule_row (snd (fst r)) (snd r) = Ok before ->
  let rec := claimed_record w (now + lease_micros config) before in
  (remaining (completed_row (prescribed rec (runner rec)) (store_time (runner rec))
     (claimed_row (id_to_string w) now (now + lease_micros config) (snd r))) < remaining (snd r))%nat.
Proof.
  intros Hdue Hdec rec. destruct (decode_schedule_id _ _ _ Hdec) as (_ & _ & Ea & _ & Ha & _).
  pose proof (not_terminal _ (schedule_due_status _ _ Hdue)) as Hnt.
  unfold remaining at 2. rewrite decide_False by done.
  assert (forall c, (terminal (completed_row c (store_time (runner rec))
      (claimed_row (id_to_string w) now (now + lease_micros config) (snd r)))
    \/ (exists at_ code, c = SC_Retry at_ code))) as Hc.
  { intros [|at_ code|code]; [left; by left|right; eauto|left; right; by left]. }
  destruct (Hc (prescribed rec (runner rec))) as [Ht|(at_ & code & E)].
  { unfold remaining. rewrite decide_True by done. lia. }
  assert (si_attempts rec < max_attempts config) as Hlt.
  { unfold prescribed, failed_completion in E. destruct (Z.ltb_spec (si_attempts rec) (max_attempts config)); [done|].
    rewrite andb_false_r in E. by destruct (rn_answer (runner rec)) as [[|f]|]; [|rewrite andb_false_r in E|]. }
  rewrite E. unfold remaining. rewrite decide_False by (intros [?|[?|?]]; discriminate).
  cbn. unfold rec in Hlt. cbn in Hlt. lia.
Qed.

Lemma claim_dom o now until limit db :
  dom (schedules (snd (claim_due_scheduled o sc w now until limit db))) = dom (schedules db).
Proof.
  unfold claim_due_scheduled. destruct (_ || _ || _); [done|]. apply run_txn_inv; [done|].
  intros recs db' (_ & Hin & Hframe & _)%claim_due_body_Ok. apply set_eq. intros k. rewrite !elem_of_dom.
  destruct (decide (k ∈ map fst (take (Z.to_nat limit) (due_schedules (scope_key sc) now db)))) as [Hk|Hk]; [|by rewrite Hframe].
  apply list_elem_of_In, in_map_iff in Hk as (r & <- & Hr%list_elem_of_In). rewrite (Hin r Hr).
  destruct (lq_sound _ _ _ _ (due_schedules_query _ _ _ _) r Hr) as (_ & -> & _). by split; eexists.
Qed.

Lemma complete_dom o clock id g c db :
  dom (schedules (snd (complete_scheduled o clock sc id w g c db))) = dom (schedules db).
Proof.
  destruct (complete_scheduled _ _ _ _ _ _ _ _) as [r db'] eqn:E. cbn [snd].
  apply complete_scheduled_cases in E as [->|(row & now & Hl & _ & ->)]; [done|]. cbn [schedules set_schedules].
  rewrite dom_insert_L. apply elem_of_dom_2 in Hl. set_solver.
Qed.

(** No new schedule appears while a record runs. *)
Definition closed_run (run : Run) : Prop := forall db, dom (schedules (rn_effect run db)) = dom (schedules db).

Lemma run_claimed_dom runner recs outcome db : (forall rec, closed_run (runner rec)) ->
  dom (schedules (snd (run_claimed config w sc runner recs outcome db))) = dom (schedules db).
Proof.
  intros Hc. revert outcome db; induction recs as [|rec recs IH]; intros outcome db; cbn [run_claimed]; [done|].
  destruct (decide_completion _ _ _ _) as [[c o]|e]; [|apply Hc].
  pose proof (complete_dom (rn_outcome (runner rec)) (rn_store_clock (runner rec)) (si_id rec) (si_lease_generation rec) c
    (rn_effect (runner rec) db)) as Hd. rewrite (Hc rec) in Hd.
  destruct (complete_scheduled _ _ _ _ _ _ _ _) as [[u|e] db1]; cbn [snd] in *; [by rewrite IH|done].
Qed.

Lemma poll_dom clock o runner db : (forall rec, closed_run (runner rec)) ->
  dom (schedules (snd (poll_once config w sc clock o runner db))) = dom (schedules db).
Proof.
  intros Hc. unfold poll_once. destruct (rbind _ _) as [[now until]|e]; [|done].
  pose proof (claim_dom o now until (batch_limit config) db) as Hd.
  destruct (claim_due_scheduled _ _ _ _ _ _ _) as [[recs|e] db1]; cbn [snd] in *; [by rewrite run_claimed_dom|done].
Qed.

(** The counters leave room for the remaining work. *)
Definition headroom (db : Db) : Prop := forall id row, schedules db !! (scope_key sc, id) = Some row -> ~ terminal row ->
  s_attempts row + Z.of_nat (work db) <= u32_max /\ s_lease_generation row + Z.of_nat (work db) <= i64_max.

Lemma work_positive db id row : schedules db !! (scope_key sc, id) = Some row -> ~ terminal row -> (0 < work db)%nat.
Proof.
  intros Hl Hn. unfold work. eapply Nat.lt_le_trans; [|apply (sum_list_with_in (scope_key sc, id))].
  - unfold remaining_at. rewrite decide_True by done. rewrite Hl. cbn. unfold remaining. rewrite decide_False by done. lia.
  - apply elem_of_elements. by apply elem_of_dom_2 in Hl.
Qed.

Lemma work_drained db : work db = 0%nat -> drained db.
Proof.
  intros Hw id row Hl. destruct (decide (terminal row)) as [|Hn]; [done|]. pose proof (work_positive db id row Hl Hn). lia.
Qed.

Lemma headroom_fit now db : headroom db -> counters_fit now db.
Proof.
  intros Hh [[sk id] row] (E & Hl & Hdue). cbn [fst snd] in *. subst sk.
  pose proof (not_terminal _ (schedule_due_status _ _ Hdue)) as Hn. destruct (Hh id row Hl Hn).
  pose proof (work_positive db id row Hl Hn). lia.
Qed.

(** The clock of a poll, with room for its lease. *)
Definition clock_fits (now : Z) : Prop := is_i64 now = true /\ now + lease_micros config <= i64_max.
Hypothesis (lease_fits : 0 < lease_micros config <= i64_max).

(** What a poll does to a row, whether served or not. *)
Record advances (row row' : ScheduleRow) : Prop := {
  av_remaining : (remaining row' <= remaining row)%nat;
  av_attempts : s_attempts row' <= s_attempts row + 1;
  av_generation : s_lease_generation row' <= s_lease_generation row + 1;
  av_terminal : terminal row -> terminal row'
}.

Lemma served_advances now runner r db' : schedule_due now (snd r) = true -> served now runner r db' ->
  exists row', schedules db' !! fst r = Some row' /\ advances (snd r) row' /\ (remaining row' < remaining (snd r))%nat.
Proof.
  intros Hdue (before & Hdec & Hs). pose proof (served_remaining now runner r before Hdue Hdec) as Hlt.
  eexists. split; [exact Hs|]. split; [|exact Hlt]. split; [by apply Nat.lt_le_incl|destruct (prescribed _ _); cbn; lia..|].
  intros Ht. by apply not_terminal in Ht; [|by eapply schedule_due_status].
Qed.

(** Rows that advance, one of them strictly, leave less work. *)
Lemma work_decreases db db' id row row' : dom (schedules db') = dom (schedules db) ->
  (forall id row, schedules db !! (scope_key sc, id) = Some row ->
     exists row', schedules db' !! (scope_key sc, id) = Some row' /\ advances row row') ->
  schedules db !! (scope_key sc, id) = Some row -> schedules db' !! (scope_key sc, id) = Some row' ->
  (remaining row' < remaining row)%nat -> (work db' < work db)%nat.
Proof.
  intros Hdom Hrow Hl Hl' Hlt. unfold work. rewrite Hdom. apply (sum_list_with_lt _ _ _ (scope_key sc, id)).
  - intros [sk k] _. unfold remaining_at. cbn [fst]. case_decide as Ek; [|done]. subst sk.
    destruct (schedules db !! (scope_key sc, k)) as [r|] eqn:Ek.
    + destruct (Hrow k r Ek) as (r' & -> & Hav). apply Hav.
    + apply not_elem_of_dom in Ek. rewrite <- Hdom in Ek. apply not_elem_of_dom in Ek. by rewrite Ek.
  - apply elem_of_elements. by apply elem_of_dom_2 in Hl.
  - unfold remaining_at. rewrite !decide_True by done. rewrite Hl, Hl'. exact Hlt.
Qed.

Lemma headroom_kept db db' : dom (schedules db') = dom (schedules db) ->
  (forall id row, schedules db !! (scope_key sc, id) = Some row ->
     exists row', schedules db' !! (scope_key sc, id) = Some row' /\ advances row row') ->
  (work db' < work db)%nat -> headroom db -> headroom db'.
Proof.
  intros Hdom Hrow Hw Hh id row' Hl' Hn'.
  assert (is_Some (schedules db !! (scope_key sc, id))) as [row Hl].
  { apply elem_of_dom_2 in Hl'. rewrite Hdom in Hl'. by apply elem_of_dom in Hl'. }
  destruct (Hrow id row Hl) as (row2 & Hl2 & [_ Ha Hg Ht]). rewrite Hl' in Hl2. injection Hl2 as <-.
  destruct (Hh id row Hl) as [Ha0 Hg0]; [by auto|]. lia.
Qed.

(** A poll advances every row. *)
Lemma poll_advances now runner db : db_ok db -> clock_fits now -> counters_fit now db ->
  (forall rec, undisturbed (runner rec)) ->
  exists rows out db', poll_once config w sc (Ok now) TO_Commit runner db = (Ok out, db') /\ db_ok db'
    /\ limit_query due_order (due_entry (scope_key sc) now db) (Z.to_nat (batch_limit config)) rows
    /\ (forall r, r ∈ rows -> served now runner r db')
    /\ (forall id row, schedules db !! (scope_key sc, id) = Some row ->
          exists row', schedules db' !! (scope_key sc, id) = Some row' /\ advances row row').
Proof.
  intros Hdb [Hn Hfit] Hcnt Hrun. destruct (poll_commit now runner db Hdb Hn lease_fits Hfit Hcnt Hrun)
    as (rows & out & db' & Hp & Hq & Hserved & Hkeep & Hdb'). exists rows, out, db'. split_and!; try done.
  intros id row Hl. destruct (decide ((scope_key sc, id) ∈ map fst rows)) as [Hin|Hin].
  - apply list_elem_of_In, in_map_iff in Hin as (r' & E & Hr'%list_elem_of_In).
    destruct (lq_sound _ _ _ _ Hq r' Hr') as (_ & Hl' & Hd).
    destruct (served_advances now runner r' db' Hd (Hserved r' Hr')) as (row' & Hs & Hav & _).
    rewrite E in Hl', Hs. rewrite Hl in Hl'. injection Hl' as ->. eauto.
  - exists row. split; [by apply Hkeep|]. split; [done|lia|lia|done].
Qed.

(** A poll that finds something due leaves less work and enough room. *)
Lemma poll_progress now runner db r : db_ok db -> clock_fits now -> headroom db ->
  (forall rec, undisturbed (runner rec)) -> (forall rec, closed_run (runner rec)) ->
  due_entry (scope_key sc) now db r ->
  let db' := snd (poll_once config w sc (Ok now) TO_Commit runner db) in
  db_ok db' /\ headroom db' /\ (work db' < work db)%nat.
Proof.
  intros Hdb Hck Hh Hrun Hcl Hdue. pose proof (poll_dom (Ok now) TO_Commit runner db Hcl) as Hdom.
  destruct (poll_advances now runner db Hdb Hck (headroom_fit now db Hh) Hrun)
    as (rows & out & db' & Hp & Hdb' & Hq & Hserved & Hrow). rewrite Hp in Hdom |- *. cbn [snd] in *.
  assert (work db' < work db)%nat as Hwork; [|by eauto using headroom_kept].
  assert (exists r0, r0 ∈ rows) as [[[sk id] row0] Hr0].
  { destruct rows as [|r0 rows]; [|exists r0; left].
    destruct (lq_complete _ _ _ _ Hq r Hdue) as [Hlen _]; [by apply not_elem_of_nil|].
    cbn in Hlen. pose proof (co_limit _ config_wf). lia. }
  destruct (lq_sound _ _ _ _ Hq _ Hr0) as (Esk & Hl0 & Hd0).
  destruct (served_advances now runner _ db' Hd0 (Hserved _ Hr0)) as (row' & Hs & _ & Hlt). cbn [fst snd] in *. subst sk.
  by eapply work_decreases.
Qed.

(** A drained Environment stays drained. *)
Lemma poll_drained now runner db : db_ok db -> clock_fits now -> (forall rec, undisturbed (runner rec)) ->
  (forall rec, closed_run (runner rec)) -> drained db ->
  let db' := snd (poll_once config w sc (Ok now) TO_Commit runner db) in db_ok db' /\ drained db'.
Proof.
  intros Hdb Hck Hrun Hcl Hd. pose proof (poll_dom (Ok now) TO_Commit runner db Hcl) as Hdom.
  destruct (poll_advances now runner db Hdb Hck) as (rows & out & db' & Hp & Hdb' & _ & _ & Hrow).
  { intros [[sk id] row] (E & Hl & Hdue). cbn [fst snd] in *. subst sk. apply Hd in Hl.
    by apply not_terminal in Hl; [|by eapply schedule_due_status]. }
  { done. }
  rewrite Hp in Hdom |- *. cbn [snd] in *. split; [done|]. intros id row' Hl'.
  assert (is_Some (schedules db !! (scope_key sc, id))) as [row Hl].
  { apply elem_of_dom_2 in Hl'. rewrite Hdom in Hl'. by apply elem_of_dom in Hl'. }
  destruct (Hrow id row Hl) as (row2 & Hl2 & Hav). rewrite Hl' in Hl2. injection Hl2 as <-. by apply Hav, (Hd id).
Qed.

(** The database after [n] polls, the [i]-th at [clocks i] with [runners i]. *)
Fixpoint polls (clocks : nat -> Z) (runners : nat -> ScheduledInvocationRecord -> Run) (n : nat) (db : Db) : Db :=
  match n with
  | O => db
  | S n => snd (poll_once config w sc (Ok (clocks n)) TO_Commit (runners n) (polls clocks runners n db))
  end.

Lemma polls_progress clocks runners n db : db_ok db -> headroom db -> (forall i, clock_fits (clocks i)) ->
  (forall i rec, undisturbed (runners i rec)) -> (forall i rec, closed_run (runners i rec)) ->
  (forall i, drained (polls clocks runners i db) \/ exists r, due_entry (scope_key sc) (clocks i) (polls clocks runners i db) r) ->
  (exists m, (m <= n)%nat /\ drained (polls clocks runners m db))
  \/ (db_ok (polls clocks runners n db) /\ headroom (polls clocks runners n db)
      /\ (work (polls clocks runners n db) + n <= work db)%nat).
Proof.
  intros Hdb Hh Hck Hrun Hcl Hdue. induction n as [|n IH]; [right; cbn; split_and!; [done|done|lia]|].
  destruct IH as [(m & Hm & Hd)|(Hdbn & Hhn & Hw)]; [left; exists m; split; [lia|done]|].
  destruct (Hdue n) as [Hd|[r Hr]]; [left; exists n; split; [lia|done]|].
  destruct (poll_progress (clocks n) (runners n) _ r Hdbn (Hck n) Hhn (Hrun n) (Hcl n) Hr) as (? & ? & ?).
  right. cbn [polls]. split_and!; [done|done|lia].
Qed.

Lemma polls_drained clocks runners n m db : (n <= m)%nat -> (forall i, clock_fits (clocks i)) ->
  (forall i rec, undisturbed (runners i rec)) -> (forall i rec, closed_run (runners i rec)) ->
  db_ok (polls clocks runners n db) -> drained (polls clocks runners n db) -> drained (polls clocks runners m db).
Proof.
  intros Hle Hck Hrun Hcl Hdb Hd. assert (db_ok (polls clocks runners m db) /\ drained (polls clocks runners m db)) as [_ ?]; [|done].
  induction Hle as [|m _ [IH1 IH2]]; [done|]. cbn [polls]. by apply poll_drained.
Qed.
End poll_facts.

(** One poll.  While clocks, store and runner answer and nobody touches the Environment's
    existing schedules, a poll succeeds.  It takes exactly the due invocations a claim may take, in
    order and at most [batch_limit] of them, runs each with one more attempt counted, and stores for
    each the completion its answer and the retry policy prescribe, which releases the lease; every
    other schedule is left as it was. *)
Theorem poll_spec {UL : UlidLib} {ULL : UlidLaws} config w sc now runner db :
  config_ok config -> id_ok w -> retry_max_micros config <= i64_max ->
  db_ok db -> is_i64 now = true -> 0 < lease_micros config <= i64_max ->
  now + lease_micros config <= i64_max -> counters_fit sc now db -> (forall rec, undisturbed config sc (runner rec)) ->
  exists rows out db', poll_once config w sc (Ok now) TO_Commit runner db = (Ok out, db')
    /\ limit_query due_order (due_entry (scope_key sc) now db) (Z.to_nat (batch_limit config)) rows
    /\ (forall r, r ∈ rows -> served config w now runner r db')
    /\ (forall id row, (scope_key sc, id) ∉ map fst rows -> schedules db !! (scope_key sc, id) = Some row ->
          schedules db' !! (scope_key sc, id) = Some row)
    /\ db_ok db'.
Proof. intros Hc Hw Hm. by apply poll_commit. Qed.

(** C15: The worker drains an Environment.  Whatever the runner answers, if clocks and store work,
    nobody adds or touches schedules, and every poll happens at a time when some unfinished
    schedule is due, then after at most as many polls as there are attempts left (each unfinished
    schedule has those below [max_attempts], and one more) every schedule has succeeded, failed or
    been cancelled. *)
Theorem worker_drains {UL : UlidLib} {ULL : UlidLaws} config w sc clocks runners db :
  config_ok config -> id_ok w -> retry_max_micros config <= i64_max -> 0 < lease_micros config <= i64_max ->
  db_ok db -> headroom config sc db -> (forall i, clock_fits config (clocks i)) ->
  (forall i rec, undisturbed config sc (runners i rec)) -> (forall i rec, closed_run (runners i rec)) ->
  (forall i, drained sc (polls config w sc clocks runners i db)
     \/ exists r, due_entry (scope_key sc) (clocks i) (polls config w sc clocks runners i db) r) ->
  exists n, (n <= work config sc db)%nat /\ drained sc (polls config w sc clocks runners n db).
Proof.
  intros Hc Hw Hm Hlease Hdb Hh Hck Hrun Hcl Hdue.
  destruct (polls_progress config w sc Hc Hw Hm Hlease clocks runners (work config sc db) db Hdb Hh Hck Hrun Hcl Hdue)
    as [?|(_ & _ & Hle)]; [done|].
  exists (work config sc db). split; [done|]. apply (work_drained config). lia.
Qed.

(** ** Examples on the demonstration database *)

Lemma production_ok : config_ok PRODUCTION.
Proof. apply (config_validate_Ok PRODUCTION PRODUCTION); [by vm_compute|by vm_compute]. Qed.

Definition demo_record (attempts : Z) : ScheduledInvocationRecord :=
  mkScheduledInvocationRecord (from_ulid 9) (PC_Release (from_ulid 1)) (mkFunctionName (text "cleanup")) CV_Null 0 SS_Running
    attempts attempts None None None None 1.

Lemma retry_policy_witness : retry_or_fail PRODUCTION (demo_record 5) (text "BUSY") true 100 (mkScheduledPollOutcome 1 0 0 0)
  = Ok (SC_Retry 16000100 (text "BUSY"), mkScheduledPollOutcome 1 0 1 0).
Proof.
  assert (1 <= si_attempts (demo_record 5)) as Ha by (cbn; lia).
  destruct (retry_policy PRODUCTION (demo_record 5) (text "BUSY") true 100 (mkScheduledPollOutcome 1 0 0 0) production_ok Ha eq_refl)
    as [-> _]. vm_compute. reflexivity.
Defined.

(** A runner whose destination is busy, and one that succeeds, at time 2000. *)
Definition busy_run : Run :=
  mkRun (Some (Err (mkScheduledRunFailure (text "BUSY") true))) id (Ok 2000) TO_Commit (Some 2000).
Definition good_run : Run := mkRun (Some (Ok tt)) id (Ok 2000) TO_Commit (Some 2000).

Lemma busy_undisturbed : undisturbed PRODUCTION sample_scope busy_run.
Proof. split; try done; [by exists 2000|by exists 2000|]. by intros f [= <-]. Qed.
Lemma good_undisturbed : undisturbed PRODUCTION sample_scope good_run.
Proof. split; try done; [by exists 2000|by exists 2000]. Qed.

Lemma rows_forallb (f : ScheduleRow -> bool) db k row :
  forallb (fun r => f (snd r)) (map_to_list (schedules db)) = true -> schedules db !! k = Some row -> f row = true.
Proof.
  intros H Hl. rewrite forallb_forall in H. apply (H (k, row)). by apply list_elem_of_In, elem_of_map_to_list.
Qed.

Lemma demo_headroom : headroom PRODUCTION sample_scope demo_db.
Proof.
  intros id row Hl _. assert (work PRODUCTION sample_scope demo_db = 11%nat) as -> by (vm_compute; reflexivity).
  apply (rows_forallb (fun row => (s_attempts row + 11 <=? u32_max) && (s_lease_generation row + 11 <=? i64_max))) in Hl;
    [|vm_compute; reflexivity]. apply andb_true_iff in Hl as [?%Z.leb_le ?%Z.leb_le]. lia.
Qed.

Lemma poll_spec_witness : exists out db',
  poll_once PRODUCTION (from_ulid 11) sample_scope (Ok 2000) TO_Commit (fun _ => busy_run) demo_db = (Ok out, db') /\ db_ok db'.
Proof.
  assert (id_ok (from_ulid 11 : WorkerId)) as Hw by (apply worker_ok; lia).
  assert (retry_max_micros PRODUCTION <= i64_max) as Hm by (by vm_compute).
  assert (0 < lease_micros PRODUCTION <= i64_max) as Hl by (by vm_compute).
  assert (2000 + lease_micros PRODUCTION <= i64_max) as Hl' by (by vm_compute).
  destruct (poll_spec PRODUCTION (from_ulid 11) sample_scope 2000 (fun _ => busy_run) demo_db production_ok Hw Hm demo_db_ok eq_refl
    Hl Hl' (headroom_fit PRODUCTION sample_scope 2000 demo_db demo_headroom) (fun _ => busy_undisturbed))
    as (rows & out & db' & Hp & _ & _ & _ & Hok). exists out, db'. split; [exact Hp|exact Hok].
Defined.

Lemma demo_polled : forallb (fun r => bool_decide (terminal (snd r)))
  (map_to_list (schedules (polls PRODUCTION (from_ulid 11) sample_scope (fun _ => 2000) (fun _ _ => good_run) 1 demo_db))) = true.
Proof. vm_compute. reflexivity. Qed.

Lemma demo_due : exists r, due_entry (scope_key sample_scope) 2000 demo_db r.
Proof.
  destruct (schedules demo_db !! demo_key) as [row|] eqn:E; [|vm_compute in E; discriminate E].
  exists (demo_key, row). split; [done|]. split; [done|]. vm_compute in E. injection E as <-. vm_compute. reflexivity.
Qed.

Lemma production_fits : retry_max_micros PRODUCTION <= i64_max /\ 0 < lease_micros PRODUCTION <= i64_max
  /\ clock_fits PRODUCTION 2000.
Proof. unfold clock_fits. split_and!; by vm_compute. Qed.
Lemma good_closed : closed_run good_run.
Proof. by intros db. Qed.

Lemma demo_polled_ok : db_ok (polls PRODUCTION (from_ulid 11) sample_scope (fun _ => 2000) (fun _ _ => good_run) 1 demo_db).
Proof.
  destruct demo_due as [r Hr]. destruct production_fits as (Hm & Hl & Hck).
  apply (poll_progress PRODUCTION (from_ulid 11) sample_scope production_ok (worker_ok 11 ltac:(lia)) Hm Hl 2000
    (fun _ => good_run) demo_db r demo_db_ok Hck demo_headroom (fun _ => good_undisturbed) (fun _ => good_closed) Hr).
Qed.

Lemma demo_drained i :
  drained sample_scope (polls PRODUCTION (from_ulid 11) sample_scope (fun _ => 2000) (fun _ _ => good_run) (S i) demo_db).
Proof.
  destruct production_fits as (Hm & Hl & Hck).
  apply (polls_drained PRODUCTION (from_ulid 11) sample_scope production_ok (worker_ok 11 ltac:(lia)) Hm Hl (fun _ => 2000)
    (fun _ _ => good_run) 1 (S i) demo_db ltac:(lia) (fun _ => Hck) (fun _ _ => good_undisturbed) (fun _ _ => good_closed)).
  - exact demo_polled_ok.
  - intros id row Hrow. apply (rows_forallb (fun r => bool_decide (terminal r)) _ _ _ demo_polled) in Hrow. by apply bool_decide_eq_true in Hrow.
Qed.

Lemma worker_drains_witness : exists n, (n <= work PRODUCTION sample_scope demo_db)%nat
  /\ drained sample_scope (polls PRODUCTION (from_ulid 11) sample_scope (fun _ => 2000) (fun _ _ => good_run) n demo_db).
Proof.
  destruct production_fits as (Hm & Hl & Hck).
  apply (worker_drains PRODUCTION (from_ulid 11) sample_scope (fun _ => 2000) (fun _ _ => good_run) demo_db production_ok
    (worker_ok 11 ltac:(lia)) Hm Hl demo_db_ok demo_headroom (fun _ => Hck) (fun _ _ => good_undisturbed) (fun _ _ => good_closed)).
  intros [|i]; [right; exact demo_due|left; exact (demo_drained i)].
Defined.

(** A worker that dies after each of [n] claims, each made when the previous lease has expired. *)
Definition claim_time (n : nat) : Z := 2000 + Z.of_nat n * lease_micros PRODUCTION.
Fixpoint crashes (n : nat) (db : Db) : Db :=
  match n with
  | O => db
  | S n => snd (claim_due_scheduled TO_Commit sample_scope (from_ulid 12) (claim_time n) (claim_time (S n))
                  (batch_limit PRODUCTION) (crashes n db))
  end.

(** The attempt limit does not bound the number of claims.  [max_attempts] is documented as the
    maximum total claims before terminal failure, but only [retry_or_fail] looks at it: a record
    whose worker died during each of the ten attempts the production configuration allows is
    claimed an eleventh time and handed to the runner again. *)
Theorem attempt_limit_evaded_by_crashes :
  max_attempts PRODUCTION = 10
  /\ (exists rec, fst (claim_due_scheduled TO_Commit sample_scope (from_ulid 11) (claim_time 10) (claim_time 11) 1
         (crashes 10 demo_db)) = Ok [rec] /\ si_attempts rec = 11)
  /\ fst (poll_once PRODUCTION (from_ulid 11) sample_scope (Ok (claim_time 10)) TO_Commit (fun _ => good_run) (crashes 10 demo_db))
     = Ok (mkScheduledPollOutcome 1 1 0 0).
Proof.
  split; [reflexivity|]. split; [|vm_compute; reflexivity].
  destruct (fst (claim_due_scheduled _ _ _ _ _ _ _)) as [[|rec [|? ?]]|] eqn:E; try (vm_compute in E; discriminate E).
  exists rec. split; [done|]. vm_compute in E. injection E as <-. reflexivity.
Qed.
