(* ===== verification/Dispatcher.v ===== *)
(** * The change dispatcher: [crates/runku-realtime/src/dispatcher.rs]

    One poll of the worker that claims outbox events, marks the subscriptions they invalidate, reruns
    those and acknowledges the events, over the SQLite store and the subscription registry.

    The runner and what other tasks do to the database and to the registry while the poll waits are
    arguments.  The loop that reruns a subscription again when it became dirty in the meantime ends
    when nobody dirties it any more; its number of turns is bounded by an argument, and running out of
    it is a result of its own.  Telemetry is left out. *)

From Stdlib Require Import Strings.Byte ZArith Lia.
From stdpp Require Import prelude strings list gmap.
From S2P Require Import Prelude Order Ulid Value StoredValue IndexKey Core Release StoreModel Sql SqliteStore.
From S2P Require Import Batch Execution Mutation Query Impact Registry.

(** ** Configuration, failures and outcomes *)

Record DispatcherConfig : Type := mkDispatcherConfig { dc_batch_limit : Z; dc_lease_micros : Z }.

Definition DISPATCHER_PRODUCTION : DispatcherConfig := mkDispatcherConfig 100 30000000.

Definition DispatcherConfig_validate (self : DispatcherConfig) : result RealtimeError DispatcherConfig :=
  if (dc_batch_limit self =? 0) || (1000 <? dc_batch_limit self) || (dc_lease_micros self =? 0)
  then Err RE_InvalidConfiguration else Ok self.

Record SubscriptionRunFailure : Type := mkSubscriptionRunFailure { rf_code : bytes; rf_retryable : bool }.

Definition SubscriptionRunFailure_internal : SubscriptionRunFailure :=
  mkSubscriptionRunFailure (text "REALTIME_INTERNAL_ERROR") false.
Definition authorization_expired : SubscriptionRunFailure :=
  mkSubscriptionRunFailure (text "AUTHORIZATION_EXPIRED") false.

Definition SubscriptionRunFailure_new (code : bytes) (retryable : bool) : result RealtimeError SubscriptionRunFailure :=
  match code with
  | [] => Err RE_InvalidConfiguration
  | first :: _ =>
      if (64 <? len code) || negb (is_ascii_uppercase first)
         || negb (forallb (fun b => is_ascii_uppercase b || is_ascii_digit b || bool_decide (b = x5f)) code)
      then Err RE_InvalidConfiguration else Ok (mkSubscriptionRunFailure code retryable)
  end.

Definition SubscriptionRunFailure_from (error : ExecutionError) : SubscriptionRunFailure :=
  mkSubscriptionRunFailure (ExecutionError_code error) (ExecutionError_retryable error).

Inductive DispatcherError : Type :=
| DX_Storage (e : StoreError) | DX_Realtime (e : RealtimeError) | DX_Rerun (e : SubscriptionRunFailure).

Definition DispatcherError_code (e : DispatcherError) : bytes :=
  match e with
  | DX_Storage e => StoreError_code e
  | DX_Realtime e => RealtimeError_code e
  | DX_Rerun e => rf_code e
  end.
Definition DispatcherError_retryable (e : DispatcherError) : bool :=
  match e with
  | DX_Storage e => StoreError_retryable e
  | DX_Realtime e => RealtimeError_retryable e
  | DX_Rerun e => rf_retryable e
  end.

Record PollOutcome : Type := mkPollOutcome {
  po_lease_busy : bool;
  po_events : Z;
  po_reruns : Z;
  po_acknowledged_through : option OutboxCursor
}.

(** ** Running *)

(** The database and the registry, which other tasks share. *)
Record Shared : Type := mkShared { sh_db : Db; sh_entries : Entries }.

Definition with_db (db : Db) (w : Shared) : Shared := mkShared db (sh_entries w).
Definition with_entries (es : Entries) (w : Shared) : Shared := mkShared (sh_db w) es.

(** What is outside the dispatcher: what other tasks do before its [n]-th step, the answer of the runner
    to the rerun started at that step, and the fate of the two transactions. *)
Record Surroundings : Type := mkSurroundings {
  su_between : nat -> Shared -> Shared;
  su_rerun : nat -> SubscriptionSpec -> Db -> result SubscriptionRunFailure QueryOutcome;
  su_claim : TxnOutcome;
  su_ack : TxnOutcome;
  su_ack_clock : option Z
}.

(** The number of steps taken and the shared state. *)
Definition Progress : Type := nat * Shared.

Section dispatcher.
Context {UL : UlidLib}.
Variable sha256 : bytes -> bytes.
Variables (registry_config : RegistryConfig) (config : DispatcherConfig).
Variables (consumer : OutboxConsumerName) (worker_id : WorkerId) (su : Surroundings).

Definition tick (p : Progress) : Progress := (S (fst p), su_between su (fst p) (snd p)).

(** An operation of the registry. *)
Definition on_registry {A} (op : Entries -> result RealtimeError A * Entries) (p : Progress)
  : result DispatcherError A * Progress :=
  let '(r, es) := op (sh_entries (snd p)) in (map_err DX_Realtime r, (fst p, with_entries es (snd p))).

(** The end of a rerun that failed. *)
Definition rerun_failed (ticket : RerunTicket) (error : SubscriptionRunFailure) (now : Z) (p : Progress)
  : result DispatcherError Z * Progress :=
  let '(r, p) := on_registry (complete_failure registry_config ticket (rf_code error) (rf_retryable error) now) p in
  (let? _ := r in Err (DX_Rerun error), p).

(** The inner loop of [execute_tickets]. *)
Fixpoint run_ticket (fuel : nat) (now : Z) (ticket : RerunTicket) (completed : Z) (p : Progress)
  : option (result DispatcherError Z * Progress) :=
  match fuel with
  | O => None
  | S fuel =>
      if sp_authorized_until (rt_spec ticket) <=? now
      then Some (rerun_failed ticket authorization_expired now p) else
      let p := tick p in
      match su_rerun su (fst p) (rt_spec ticket) (sh_db (snd p)) with
      | Err error => Some (rerun_failed ticket error now (tick p))
      | Ok outcome =>
          let p := tick p in
          match checked_add u64_max completed 1 with
          | None => Some (Err (DX_Realtime RE_Internal), p)
          | Some completed =>
              match on_registry (complete_success sha256 registry_config ticket outcome) p with
              | (Err e, p) => Some (Err e, p)
              | (Ok None, p) => Some (Ok completed, p)
              | (Ok (Some next), p) => run_ticket fuel now next completed p
              end
          end
      end
  end.

Fixpoint execute_tickets (fuel : nat) (now : Z) (tickets : list RerunTicket) (completed : Z) (p : Progress)
  : option (result DispatcherError Z * Progress) :=
  match tickets with
  | [] => Some (Ok completed, p)
  | ticket :: tickets =>
      match run_ticket fuel now ticket completed p with
      | None => None
      | Some (Err e, p) => Some (Err e, p)
      | Some (Ok completed, p) => execute_tickets fuel now tickets completed p
      end
  end.

(** The loop over the claimed events. *)
Fixpoint mark_events (scope : EnvironmentScope) (now : Z) (events : list OutboxEventRecord) (p : Progress)
  : result DispatcherError (list RerunTicket) * Progress :=
  match events with
  | [] => (Ok [], p)
  | event :: events =>
      match decode (oe_payload event) with
      | Err e => (Err (DX_Realtime e), p)
      | Ok impact =>
          match on_registry (mark_impacted scope (OutboxEventRecord_cursor event) impact now) (tick p) with
          | (Err e, p) => (Err e, p)
          | (Ok tickets, p) =>
              let '(r, p) := mark_events scope now events p in
              (let? rest := r in Ok (tickets ++ rest), p)
          end
      end
  end.

(** [poll_once] from the acknowledgement on. *)
Definition acknowledge (scope : EnvironmentScope) (claim : ClaimedOutboxBatch) (reruns : Z) (p : Progress)
  : result DispatcherError PollOutcome * Progress :=
  match OutboxEventRecord_cursor <$> last (co_events claim) with
  | None => (Err (DX_Realtime RE_Internal), p)
  | Some through =>
      let p := tick p in
      if has_pending_through scope through (sh_entries (snd p)) then (Err (DX_Realtime RE_PendingWork), p) else
      let p := tick p in
      let '(r, db) := ack_outbox (su_ack su) (su_ack_clock su) scope consumer worker_id (co_lease_generation claim)
                        through (sh_db (snd p)) in
      let p := (fst p, with_db db (snd p)) in
      (let? _ := map_err DX_Storage r in
       Ok (mkPollOutcome false (Z.min u32_max (len (co_events claim))) reruns (Some through)), p)
  end.

Definition poll_once (fuel : nat) (scope : EnvironmentScope) (now : Z) (p : Progress)
  : option (result DispatcherError PollOutcome * Progress) :=
  match on_registry (ready_retries now) p with
  | (Err e, p) => Some (Err e, p)
  | (Ok tickets, p) =>
      match execute_tickets fuel now tickets 0 p with
      | None => None
      | Some (Err e, p) => Some (Err e, p)
      | Some (Ok reruns, p) =>
          match (let? lease_delta := ok_or (DX_Realtime RE_InvalidConfiguration)
                   (try_from_u i64_max (dc_lease_micros config)) in
                 ok_or (DX_Realtime RE_InvalidConfiguration) (checked_i64 (now + lease_delta))) with
          | Err e => Some (Err e, p)
          | Ok lease_until =>
              let p := tick p in
              let '(r, db) := claim_outbox (su_claim su) scope consumer worker_id now lease_until
                                (dc_batch_limit config) (sh_db (snd p)) in
              let p := (fst p, with_db db (snd p)) in
              match r with
              | Err SE_Busy => Some (Ok (mkPollOutcome true 0 reruns None), p)
              | Err e => Some (Err (DX_Storage e), p)
              | Ok claim =>
                  if bool_decide (co_events claim = []) then Some (Ok (mkPollOutcome false 0 reruns None), p) else
                  match mark_events scope now (co_events claim) p with
                  | (Err e, p) => Some (Err e, p)
                  | (Ok tickets, p) =>
                      match execute_tickets fuel now tickets 0 p with
                      | None => None
                      | Some (Err e, p) => Some (Err e, p)
                      | Some (Ok more, p) =>
                          match checked_add u64_max reruns more with
                          | None => Some (Err (DX_Realtime RE_Internal), p)
                          | Some reruns => Some (acknowledge scope claim reruns p)
                          end
                      end
                  end
              end
          end
      end
  end.
End dispatcher.
