(* ===== verification/QuerySqlite.v ===== *)
(** * Queries on the SQLite store

    What commits do to the answers of a Query's reads.  A Mutation publishes what it writes, so a Query
    whose recorded dependencies no published impact touches would return the same value again: the
    matching of impacts against dependencies misses no change. *)

From Stdlib Require Import Strings.Byte ZArith Lia.
From stdpp Require Import prelude strings gmap sorting list relations.
From S2P Require Import Prelude Order Ulid Value StoredValue IndexKey Core Schema StoreModel Batch Sql SqliteStore.
From S2P Require Import SqliteCommit SqliteInvariant SqliteReads SqliteOutbox SqliteExport SqliteSchedule SqliteSystem.
From S2P Require Import SqliteJournal SqliteTraces Execution Mutation MutationSession MutationCommit MutationSqlite.
From S2P Require Import MutationExecute Query QueryStable Impact.

(** ** Well-typed handlers *)

Definition document_answer_ok (a : result DataReadError (option DataDocument)) : Prop :=
  forall d, a = Ok (Some d) -> doc_key_ok (dd_table_id d, dd_document_id d) /\ is_u64 (dd_revision d) = true
    /\ value_ok (dd_value d) = true.
Definition scan_answer_ok (a : result DataReadError (list DataIndexEntry)) : Prop :=
  forall es, a = Ok es -> Forall (fun e => id_ok (di_table_id e) /\ id_ok (di_document_id e)) es.

Fixpoint query_ok (h : QueryHandler) : Prop :=
  match h with
  | Q_Return _ => True
  | Q_Get k next => doc_key_ok k /\ forall a, document_answer_ok a -> query_ok (next a)
  | Q_Scan rq next => id_ok (sr_index_id rq) /\ forall a, scan_answer_ok a -> query_ok (next a)
  | Q_Drop next => query_ok next
  end.

Definition dependency_ok (d : ReadDependency) : Prop :=
  match d with RD_Point t d _ _ => id_ok t /\ id_ok d | RD_Range i _ _ _ => id_ok i end.

Section typed.
Context {UL : UlidLib} {ULL : UlidLaws}.
Variables (sha256 : bytes -> bytes) (sc : EnvironmentScope) (db : Db).
Hypothesis db_is_ok : db_ok db.
#[local] Instance the_store : LogicalStore Db SqliteSnapshot (TxnOutcome * option Z) := sqlite_store sha256.
Abbreviation state := (SessionState SqliteSnapshot).

Definition typed (st : state) : Prop :=
  (forall s, qs_snapshot st = Some s -> s = snapshot_of sc db) /\ Forall dependency_ok (qs_dependencies st).

Lemma ensure_typed begin st : typed st -> typed (snd (ensure_snapshot sc db begin st))
  /\ forall s, fst (ensure_snapshot sc db begin st) = Ok s -> s = snapshot_of sc db.
Proof.
  intros [Hs Hd]. unfold ensure_snapshot. destruct (_ || _); [done|].
  destruct (qs_snapshot st) as [s|] eqn:Es.
  - split; [split; [cbn; intros; apply Hs; congruence|done]|]. intros s' [= <-]. by apply Hs.
  - destruct begin as [[|e|]|]; try (split; [split; [cbn; rewrite Es; naive_solver|done]|done]).
    cbn [ls_begin_read the_store sqlite_store]. rewrite sqlite_begin by done.
    split; [split; [by intros s [= <-]|done]|]. by intros s [= <-].
Qed.

Lemma depend_typed {A} d (a : A) st : typed st -> dependency_ok d -> typed (snd (depend d a st)).
Proof.
  intros [Hs Hd] Hok. unfold depend. destruct (_ && _); [done|]. split; [done|]. cbn.
  apply Forall_forall. intros x [->|Hx]%elem_of_dependency_insert; [done|]. by apply (proj1 (Forall_forall _ _) Hd).
Qed.

Lemma get_typed begin read k st : typed st -> doc_key_ok k ->
  typed (snd (get_inner sc db begin read k st)) /\ document_answer_ok (fst (get_inner sc db begin read k st)).
Proof.
  intros Ht Hk. unfold get_inner. destruct (ensure_typed begin st Ht) as [Ht1 Hs1].
  destruct (ensure_snapshot _ _ _ _) as [[s|e] st1]; cbn [fst snd] in *; [|split; [done|by intros d [=]]].
  rewrite (Hs1 s eq_refl). cbn [ls_get_document the_store sqlite_store]. rewrite sqlite_get by done.
  destruct (awaited read _) as [o|f] eqn:Ea; [|destruct f; split; done || by intros d [=]].
  destruct (qs_snapshot_sequence st1); [|split; [done|by intros d [=]]].
  destruct (answer_corrupt _ _ _); [split; [done|by intros d [=]]|].
  split; [by apply depend_typed|]. unfold depend. destruct (_ && _); [by intros d [=]|]. cbn.
  intros d [= Ed]. destruct read as [[|e|]|]; try done. cbn in Ea. injection Ea as <-.
  destruct (sqlite_document db sc k) as [r|] eqn:Er; [|done]. cbn in Ed. injection Ed as <-. cbn.
  destruct (sqlite_record sc db k r db_is_ok Hk Er) as (Ekey & Hr & _ & Hv).
  split; [by rewrite Ekey|]. split; [|done]. apply is_u64_spec. unfold i64_max, u64_max in *. lia.
Qed.

Lemma scanned_typed idx range limit es : scan_index (snapshot_of sc db) idx range limit = Ok es ->
  Forall (fun e => id_ok (ie_table_id e) /\ id_ok (ie_document_id e)) es.
Proof.
  intros H. apply rbind_Ok in H as (_ & _ & H). apply try_map_Ok in H. apply Forall_forall. intros e He.
  destruct (Forall2_elem_r _ _ _ e H He) as (r & _ & Hr).
  unfold decode_index_row in Hr. invert_ok. cbn.
  repeat match goal with H : parse_id _ _ = Ok _ |- _ => apply parse_id_Ok in H as [? _] end. done.
Qed.

Lemma scan_typed begin read rq st : typed st -> id_ok (sr_index_id rq) ->
  typed (snd (scan_inner sc db begin read rq st)) /\ scan_answer_ok (fst (scan_inner sc db begin read rq st)).
Proof.
  intros Ht Hi. unfold scan_inner. destruct (rbind (convert_bound _) _) as [[[range l] u]|]; [|split; [done|by intros es [=]]].
  destruct (ensure_typed begin st Ht) as [Ht1 Hs1].
  destruct (ensure_snapshot _ _ _ _) as [[s|e] st1]; cbn [fst snd] in *; [|split; [done|by intros d [=]]].
  rewrite (Hs1 s eq_refl). cbn [ls_scan_index the_store sqlite_store].
  destruct (awaited read _) as [o|f] eqn:Ea; [|destruct f; split; done || by intros d [=]].
  destruct (qs_snapshot_sequence st1); [|split; [done|by intros d [=]]].
  destruct (negb _); [split; [done|by intros d [=]]|]. destruct (checked_add _ _ _); [|split; [done|by intros d [=]]].
  destruct (_ <? _); [split; [done|by intros d [=]]|].
  split; [by apply depend_typed|]. unfold depend. destruct (_ && _); [by intros d [=]|]. cbn.
  intros es [= <-]. destruct read as [[|e|]|]; try done. apply map_err_Ok, scanned_typed in Ea.
  apply Forall_map. by eapply Forall_impl; [exact Ea|].
Qed.

Lemma counted_typed {A} (op : state -> result DataReadError A * state) (ok : result DataReadError A -> Prop) st :
  (forall st, typed st -> typed (snd (op st)) /\ ok (fst (op st))) -> typed st ->
  typed (snd (counted op st)) /\ ok (fst (counted op st)).
Proof.
  intros H Ht. unfold counted. destruct (H (with_active (qs_active_operations st + 1) st) Ht) as [H1 H2].
  destruct (op _) as [a st1]. done.
Qed.

Lemma run_typed h : forall faults st, query_ok h -> typed st -> typed (snd (query_run sc db faults h st)).
Proof.
  induction h as [r|k next IH|rq next IH|next IH]; intros faults st; cbn [query_ok query_run];
    destruct (faults 0%nat) as [begin read].
  - done.
  - intros [Hk Hn] Ht. destruct (counted_typed _ document_answer_ok st (fun st H => get_typed begin read k st H Hk) Ht) as [H1 H2].
    unfold query_get. destruct (counted _ _) as [a st1]. auto.
  - intros [Hk Hn] Ht. destruct (counted_typed _ scan_answer_ok st (fun st H => scan_typed begin read rq st H Hk) Ht) as [H1 H2].
    unfold query_scan. destruct (counted _ _) as [a st1]. auto.
  - intros Hn Ht. apply IH; [done|]. by apply ensure_typed.
Qed.

Lemma session_typed faults close h out : query_ok h -> query_session sc db faults close h = Ok out ->
  Forall dependency_ok (qo_dependencies out).
Proof.
  intros Hh. unfold query_session. pose proof (run_typed h faults session_new Hh ltac:(done)) as [_ Hd].
  destruct (query_run _ _ _ _ _) as [r st]. intros H. apply rbind_Ok in H as (sm & Hq%map_err_Ok & H).
  apply rbind_Ok in H as (v & _ & [= <-]). apply rbind_Ok in Hq as (_ & _ & Hq). destruct (final_failure _ _); [done|].
  by injection Hq as <-.
Qed.
End typed.

(** ** Published commits *)

(** A batch as a Mutation builds it: whoever writes documents publishes the writes. *)
Record published (sc : EnvironmentScope) (b : CommitBatch) {UL : UlidLib} : Prop := {
  pb_wf : batch_wf b;
  pb_scope : b_scope b = sc;
  pb_quiet : b_documents b = [] -> b_indexes b = [];
  pb_event : b_documents b <> [] -> exists id,
    b_outbox b = [mkOutboxAppend id (document_write_set_payload (b_documents b) (b_indexes b))]
}.

Section data_steps.
Context {UL : UlidLib} {ULL : UlidLaws}.
Variables (sha256 : bytes -> bytes) (sc : EnvironmentScope).
Hypothesis sc_ok : scope_ok sc.
Abbreviation sk := (scope_key sc).

(** What happens to an Environment whose documents only Mutations change. *)
Inductive data_step (db : Db) : Db -> Prop :=
| data_mutation o clock b : published sc b -> data_step db (snd (commit sha256 o clock b db))
| data_elsewhere sc' db' : scope_ok sc' -> sc' <> sc -> store_step sha256 sc' db db' \/ admin_step sc' db db' ->
    data_step db db'
| data_claim_outbox o c w now until limit : data_step db (snd (claim_outbox o sc c w now until limit db))
| data_ack_outbox o clock c w g through : data_step db (snd (ack_outbox o clock sc c w g through db))
| data_claim_due o w now until limit : id_ok w -> data_step db (snd (claim_due_scheduled o sc w now until limit db))
| data_complete o clock id w g completion : data_step db (snd (complete_scheduled o clock sc id w g completion db))
| data_cancel o clock id : data_step db (snd (cancel_scheduled o clock sc id db)).

(** A step that leaves documents, index entries and events alone. *)
Record neutral (db db' : Db) : Prop := {
  nt_documents k : documents db' !! (sk, k) = documents db !! (sk, k);
  nt_indexes k : indexes db' !! (sk, k) = indexes db !! (sk, k);
  nt_outbox k : outbox db' !! (sk, k) = outbox db !! (sk, k);
  nt_reached : reached sc db' = reached sc db
}.

Lemma neutral_refl db : neutral db db.
Proof. done. Qed.

Lemma neutral_same db db' : same_scope sk db db' -> neutral db db'.
Proof. intros []. split; try done. unfold reached. congruence. Qed.

Lemma data_step_ok db db' : db_ok db -> data_step db db' -> db_ok db'.
Proof.
  intros Hdb [o clock b [W _ _ _]|sc' d _ _ [H|H]| | | | |];
    [by apply commit_ok|by eapply store_step_ok|by eapply admin_step_ok|by apply claim_outbox_preserves
    |by apply ack_outbox_preserves|by apply claim_due_preserves|by apply complete_preserves|by apply cancel_preserves].
Qed.

Lemma data_step_cases db db' : data_step db db' ->
  neutral db db' \/ exists b dg now r, published sc b /\ batch_valid b /\ fresh_commit b dg now db r db'.
Proof.
  intros [o clock b P|sc' d Hsc' Hne H|o c w now until limit|o clock c w g through|o w now until limit Hw|o clock id w g x|o clock id].
  - pose proof (pb_wf _ _ P) as W. unfold commit. destruct (digest sha256 b) as [dg|] eqn:Hd; [|by left].
    apply digest_valid in Hd. apply run_txn_inv; [by left|].
    intros r db1 [[_ ->]|(now & _ & F)]%apply_commit_cases; [by left|right; eauto 7|done..].
  - left. apply neutral_same. assert (sk <> scope_key sc') by (intros E; by apply scope_key_inj in E).
    destruct H; [by eapply store_step_isolated|by eapply admin_step_isolated].
  - left. unfold claim_outbox. destruct (_ || _ || _); [done|]. apply run_txn_inv; [done|].
    intros b db1 H%claim_outbox_body_Ok. rewrite (oc_db _ _ _ _ _ _ _ _ _ H). split; try done.
    unfold reached. cbn [sequences set_consumers set_sequences]. rewrite (oc_sequences _ _ _ _ _ _ _ _ _ H).
    destruct (sequences db !! sk) eqn:E; [by rewrite E|]. by rewrite lookup_insert_eq.
  - left. unfold ack_outbox. destruct (_ || _); [done|]. apply run_txn_inv; [done|].
    by intros b db1 [(row & t & _ & _ & _ & _ & _ & ->)]%ack_outbox_body_Ok.
  - left. unfold claim_due_scheduled. destruct (_ || _ || _); [done|]. apply run_txn_inv; [done|].
    by intros recs db1 (_ & _ & _ & ->)%claim_due_body_Ok.
  - left. destruct (complete_scheduled _ _ _ _ _ _ _ _) as [r db1] eqn:E. cbn [snd].
    by apply complete_scheduled_cases in E as [->|(row & t & _ & _ & ->)].
  - left. unfold cancel_scheduled. apply run_txn_inv; [done|].
    by intros r db1 [->|(row & t & _ & _ & ->)]%cancel_body_cases.
Qed.

(** ** Events are kept, and new ones come later *)

Lemma data_step_events db db' : data_step db db' ->
  (forall e, stored_event sk db e -> stored_event sk db' e)
  /\ (forall e, stored_event sk db' e -> stored_event sk db e \/ reached sc db < oe_commit_sequence e)
  /\ reached sc db <= reached sc db'.
Proof.
  intros [[_ _ Ho Hr]|(b & dg & now & r & P & _ & F)]%data_step_cases.
  - split; [|split; [|lia]]; intros e (Hi & row & El & Hd); [|left]; (split; [done|]); exists row; by rewrite Ho in *.
  - destruct (quiet_fresh sc (mkOutboxConsumerName []) b dg now db r db' F) as [_ Hq1 Hq2]. split; [|done].
    intros e (Hi & row & El & Hd). split; [done|]. exists row. split; [|done].
    destruct (key_cases (fun a => (scope_key (b_scope b), id_to_string (oa_event_id a))) (b_outbox b)
      (sk, id_to_string (oe_event_id e))) as [(a & Ha & E)|Hk].
    + pose proof (fc_outbox _ _ _ _ _ _ F a Ha) as Ht. rewrite <- E, El in Ht. inversion Ht.
    + by rewrite (fc_outbox_frame _ _ _ _ _ _ F).
Qed.

Lemma data_steps_events db db' : rtc data_step db db' ->
  (forall e, stored_event sk db e -> stored_event sk db' e)
  /\ (forall e, stored_event sk db' e -> stored_event sk db e \/ reached sc db < oe_commit_sequence e)
  /\ reached sc db <= reached sc db'.
Proof.
  induction 1 as [|x y z Hs _ (IH1 & IH2 & IH3)]; [naive_solver lia|].
  destruct (data_step_events _ _ Hs) as (H1 & H2 & H3). split_and!; [auto| |lia].
  intros e He. destruct (IH2 e He) as [He'|]; [|right; lia]. by apply H2.
Qed.

Lemma data_steps_ok db db' : db_ok db -> rtc data_step db db' -> db_ok db'.
Proof. intros Hdb. induction 1; eauto using data_step_ok. Qed.

(** ** Reads a commit leaves alone *)

#[local] Instance the_sqlite : LogicalStore Db SqliteSnapshot (TxnOutcome * option Z) := sqlite_store sha256.

Lemma get_frame db db' t d :
  documents db' !! (sk, (id_to_string t, id_to_string d)) = documents db !! (sk, (id_to_string t, id_to_string d)) ->
  get_document (snapshot_of sc db') t d = get_document (snapshot_of sc db) t d.
Proof. intros E. unfold get_document. cbn [snap_db snap_scope snapshot_of]. by rewrite E. Qed.

Lemma scan_frame db db' i range limit :
  (forall k d, push_range range k = true ->
     indexes db' !! (sk, (id_to_string i, k, d)) = indexes db !! (sk, (id_to_string i, k, d))) ->
  scan_index (snapshot_of sc db') i range limit = scan_index (snapshot_of sc db) i range limit.
Proof.
  intros Hi. unfold scan_index. cbn [snap_db snap_scope snapshot_of]. destruct (IndexRange_validate _ _); [|done]. cbn [rbind].
  do 2 f_equal. unfold scan_rows. apply order_by_ext; [apply _|..].
  - intros [sk' [[i' k] d]] v (E1 & E2 & E3). unfold row_index, row_key in *. cbn [fst snd] in *. subst sk' i'. by rewrite Hi.
  - intros [[sk1 [[i1 k1] d1]] v1] [[sk2 [[i2 k2] d2]] v2] (E1 & E2 & _) (E1' & E2' & _).
    unfold scan_order, cmp_lex, cmp_on, row_index, row_key, row_document in *. cbn [fst snd] in *.
    destruct (bytes_cmp k1 k2) eqn:Ek; cbn [cmp_then]; try done. intros Ed.
    apply bytes_cmp_eq in Ek, Ed. congruence.
Qed.

Lemma push_range_bounds l u k : push_range (between (bound_of l) (bound_of u)) k = key_in_bounds k l u.
Proof. by destruct l, u. Qed.

Lemma neutral_answer db db' d : neutral db db' -> same_answer (snapshot_of sc db) (snapshot_of sc db') d.
Proof.
  intros [Hd Hi _ _]. destruct d as [t d r n|i l u n]; cbn.
  - apply get_frame, Hd.
  - intros limit. apply scan_frame. intros. apply Hi.
Qed.

Lemma fresh_answer b dg now db r db' d : published sc b -> fresh_commit b dg now db r db' -> dependency_ok d ->
  invalidates_one (impact_of (b_documents b) (b_indexes b)) d = false ->
  same_answer (snapshot_of sc db) (snapshot_of sc db') d.
Proof.
  intros P F Hd Hn. pose proof (pb_wf _ _ P) as W. destruct d as [t d rev n|i l u n]; cbn in Hd |- *.
  - apply get_frame, (fc_documents_frame _ _ _ _ _ _ F). intros m Hm [_ [Et Ed]%pair_equal_spec]%pair_equal_spec.
    pose proof (proj1 (Forall_forall _ _) (wf_documents _ W) m Hm) as [Htm Hdm]%document_ids_ok.
    apply id_to_string_inj in Et; [|tauto..]. apply id_to_string_inj in Ed; [|tauto..].
    apply not_true_iff_false in Hn. apply Hn, invalidates_point, list_elem_of_In, in_map_iff. exists m.
    split; [|by apply list_elem_of_In]. unfold document_key. congruence.
  - intros limit. apply scan_frame. intros k dd Hk. apply (fc_indexes_frame _ _ _ _ _ _ F). intros m Hm.
    unfold index_row_key. destruct (im_identity m) as [[i' k'] d'] eqn:Em.
    intros [_ [[Ei Ek]%pair_equal_spec Ed]%pair_equal_spec]%pair_equal_spec.
    pose proof (proj1 (Forall_forall _ _) (wf_indexes _ W) m Hm) as Hok.
    assert (id_ok i') as Hi' by (destruct m; cbn in *; simplify_eq; tauto).
    apply id_to_string_inj in Ei; [|done..]. subst i' k'.
    apply not_true_iff_false in Hn. apply Hn, invalidates_range. exists m, k, d'. split_and!; [done|done|].
    by rewrite <- push_range_bounds.
Qed.

(** The event of a commit that writes, as it is stored and decoded. *)
Lemma fresh_event b dg now db r db' : published sc b -> batch_valid b -> fresh_commit b dg now db r db' ->
  b_documents b <> [] -> exists e, stored_event sk db' e /\ reached sc db < oe_commit_sequence e
    /\ decode (oe_payload e) = Ok (impact_of (b_documents b) (b_indexes b)).
Proof.
  intros P V F Hne. pose proof (pb_wf _ _ P) as W. destruct (pb_event _ _ P Hne) as [id Ho].
  assert (mkOutboxAppend id (document_write_set_payload (b_documents b) (b_indexes b)) ∈ b_outbox b) as Hin
    by (rewrite Ho; by left).
  pose proof (proj1 (Forall_forall _ _) (wf_outbox _ W) _ Hin) as [Hid Hv]. cbn [oa_event_id oa_payload] in Hid, Hv.
  pose proof (fc_outbox _ _ _ _ _ _ F _ Hin) as Ht. rewrite (pb_scope _ _ P) in Ht. cbn [oa_event_id] in Ht.
  destruct (fc_sequence _ _ _ _ _ _ F) as [Hs Hpos]. rewrite (pb_scope _ _ P) in Hs.
  destruct (outbox db' !! (sk, id_to_string id)) as [row|] eqn:El; inversion Ht as [? payload Hp]; subst.
  exists (mkOutboxEventRecord id (cr_commit_sequence r) (document_write_set_payload (b_documents b) (b_indexes b))).
  split_and!.
  - split; [done|]. eexists. split; [exact El|]. unfold decode_outbox_event. cbn [oe_event_id o_commit_sequence o_payload].
    rewrite parse_id_render by done. cbn [rbind]. rewrite (proj2 (positive_u64_Ok _ (cr_commit_sequence r))) by (unfold u64_max, i64_max in *; lia).
    cbn [rbind]. by rewrite (decode_value_encode _ payload Hv Hp).
  - cbn. unfold reached. lia.
  - cbn [oe_payload]. destruct (bv_counts _ V) as (_ & Hc1 & Hc2 & _). apply decode_payload; [apply W|apply V|apply W|apply V|done|done].
Qed.

(** Nothing published since touches the dependencies: the reads are answered as before. *)
Lemma data_steps_answer db db' ds : Forall dependency_ok ds -> rtc data_step db db' ->
  (forall e impact, stored_event sk db' e -> reached sc db < oe_commit_sequence e ->
     decode (oe_payload e) = Ok impact -> invalidates impact ds = false) ->
  Forall (same_answer (snapshot_of sc db) (snapshot_of sc db')) ds.
Proof.
  intros Hok. induction 1 as [db|db db1 db2 Hs Hr IH]; intros Hn.
  { apply Forall_forall. by intros [] _. }
  destruct (data_step_events _ _ Hs) as (_ & _ & Hre). destruct (data_steps_events _ _ Hr) as (Hk & _ & _).
  assert (Forall (same_answer (snapshot_of sc db1) (snapshot_of sc db2)) ds) as H2.
  { apply IH. intros e impact He Hlt. apply (Hn e impact He). lia. }
  assert (Forall (same_answer (snapshot_of sc db) (snapshot_of sc db1)) ds) as H1.
  { apply data_step_cases in Hs as [Hneu|(b & dg & now & r & P & V & F)].
    { apply Forall_forall. intros. by apply neutral_answer. }
    apply Forall_forall. intros d Hd. eapply fresh_answer; [done|done|by apply (proj1 (Forall_forall _ _) Hok)|].
    destruct (decide (b_documents b = [])) as [E|Hne].
    { rewrite E, (pb_quiet _ _ P E). by destruct d. }
    destruct (fresh_event _ _ _ _ _ _ P V F Hne) as (e & He & Hlt & Hdec).
    specialize (Hn e _ (Hk e He) Hlt Hdec). apply not_true_iff_false in Hn. apply not_true_iff_false.
    intros Hi. apply Hn, existsb_exists. exists d. split; [by apply list_elem_of_In|done]. }
  rewrite Forall_forall in *. intros [t d rr n|i l u n] Hd.
  - etrans; [apply (H2 _ Hd)|apply (H1 _ Hd)].
  - intros limit. etrans; [apply (H2 _ Hd)|apply (H1 _ Hd)].
Qed.

(** ** Queries *)

(** The events later than [since] that invalidate the dependencies. *)
Definition outdates (db : Db) (since : Z) (ds : list ReadDependency) (e : OutboxEventRecord) : Prop :=
  stored_event sk db e /\ since < oe_commit_sequence e
  /\ exists impact, decode (oe_payload e) = Ok impact /\ invalidates impact ds = true.

(** A Query that no event since invalidates returns the same value again, with its dependencies at the
    sequence now reached. *)
Lemma query_still db db' faults close h out : db_ok db -> query_ok h ->
  query_session sc db faults close h = Ok out -> rtc data_step db db' ->
  (forall e, ~ outdates db' (reached sc db) (qo_dependencies out) e) ->
  query_session sc db' no_read_faults W_Ready h
  = Ok (mkQueryOutcome (qo_value out) ((fun _ => reached sc db') <$> qo_snapshot_sequence out)
          (map (restamp (reached sc db')) (qo_dependencies out))).
Proof.
  intros Hdb Hh Hq Hs Hn. pose proof (data_steps_ok _ _ Hdb Hs) as Hdb'.
  destruct (session_repeats (LS := the_sqlite) sc db db' (snapshot_of sc db) (snapshot_of sc db') (sqlite_begin _ _ Hdb) (sqlite_begin _ _ Hdb')
    (proj2 (proj2 (data_steps_events _ _ Hs))) faults close h out Hq) as (_ & _ & Hr).
  apply Hr, data_steps_answer; [exact (session_typed sha256 sc db Hdb faults close h out Hh Hq)|done|].
  intros e impact He Hlt Hd. apply not_true_iff_false. intros Hi. apply (Hn e). unfold outdates. eauto.
Qed.

(** The sequence a Query reports is the one its database has reached. *)
Lemma query_sequence db faults close h out : db_ok db -> query_session sc db faults close h = Ok out ->
  qo_snapshot_sequence out = Some (reached sc db) \/ qo_snapshot_sequence out = None /\ qo_dependencies out = [].
Proof.
  intros Hdb Hq. by destruct (session_repeats (LS := the_sqlite) sc db db (snapshot_of sc db) (snapshot_of sc db) (sqlite_begin _ _ Hdb)
    (sqlite_begin _ _ Hdb) ltac:(done) faults close h out Hq).
Qed.
End data_steps.

(** ** Mutations *)

(** The batch of an attempt publishes what it writes. *)
Lemma attempt_published {UL : UlidLib} {ULL : UlidLaws} sha256 self schema grants invoke wd n db v b :
  session_ok self -> (forall c, schema = Some c -> catalog_built sha256 c) -> handler_ok (invoke grants n) -> db_ok db ->
  attempt_at (LS := sqlite_store sha256) sha256 self schema grants invoke wd n db = Ok (v, Some b) ->
  published (sn_scope self) b.
Proof.
  intros Hs Hc Hh Hdb H. destruct (attempt_batch_facts sha256 sqlite_view self schema Hs Hc _ _ _ _ _ _ _ Hdb Hh H) as [st Hf].
  pose proof (attempt_batch_wf sha256 sqlite_view self schema Hs Hc db b st Hdb Hf) as W. destruct Hf as [_ Hb Hp].
  split; [done|apply Hb|..].
  - intros E. unfold planned in Hp. rewrite E in Hp. destruct schema; [|done]. by injection Hp as <-.
  - intros E. pose proof (bo_outbox _ _ _ _ _ _ _ _ Hb) as Ho. rewrite <- (bo_documents _ _ _ _ _ _ _ _ Hb) in Ho.
    rewrite bool_decide_false in Ho by done. eauto.
Qed.

Section mutations.
Context {UL : UlidLib} {ULL : UlidLaws}.
Variables (sha256 : bytes -> bytes) (timestamp_ms : Z -> Z) (attached : option SchemaCatalog).
Variables (invoke : Grants -> Z -> Handler) (wd : World (Store := Db) (Weather := TxnOutcome * option Z)).
Variables (request : InvocationRequest) (operation_id : OperationId).
Abbreviation scope := (rq_scope request).

Lemma execute_on_data db :
  scenario sha256 attached invoke wd request operation_id (data_step sha256 scope) -> db_ok db ->
  rtc (data_step sha256 scope) db (snd (execute_on sha256 timestamp_ms attached invoke wd request operation_id db)).
Proof.
  intros Hsc Hdb. apply execute_on_trace; [intros d d'; apply data_step_ok|done|done|].
  intros self schema grants n db0 v b w db' Hp Hdb0 Ha _.
  destruct (prepare_ok sha256 _ _ _ _ _ _ _ (sc_attached _ _ _ _ _ _ _ Hsc) (sc_request _ _ _ _ _ _ _ Hsc)
    (sc_operation _ _ _ _ _ _ _ Hsc) Hp) as (Hself & Es & Hschema).
  apply data_mutation. rewrite <- Es.
  exact (attempt_published sha256 self schema grants invoke wd n db0 v b Hself Hschema (sc_handler _ _ _ _ _ _ _ Hsc grants n) Hdb0 Ha).
Qed.
End mutations.

(** The events of an Environment as a list, and a test for the absence of outdating ones. *)
Definition stored_events {UL : UlidLib} (sc : EnvironmentScope) (db : Db) : list OutboxEventRecord :=
  omap (fun r =>
    if bool_decide (fst (fst r) = scope_key sc)
    then match decode_outbox_event (snd (fst r)) (snd r) with Ok e => Some e | Err _ => None end
    else None) (map_to_list (outbox db)).

Lemma stored_events_spec {UL : UlidLib} sc db e : stored_event (scope_key sc) db e -> e ∈ stored_events sc db.
Proof.
  intros (_ & row & El & Hd). apply list_elem_of_omap. exists ((scope_key sc, id_to_string (oe_event_id e)), row).
  split; [by apply elem_of_map_to_list|]. cbn [fst snd]. by rewrite bool_decide_true, Hd.
Qed.

Definition outdating {UL : UlidLib} (sc : EnvironmentScope) (db : Db) (since : Z) (ds : list ReadDependency) : bool :=
  existsb (fun e => (since <? oe_commit_sequence e)
    && match decode (oe_payload e) with Ok impact => invalidates impact ds | Err _ => false end) (stored_events sc db).

Lemma outdating_spec {UL : UlidLib} sc db since ds : outdating sc db since ds = false ->
  forall e, ~ outdates sc db since ds e.
Proof.
  intros H e (Hs%stored_events_spec & Hlt & impact & Hi & Hv). apply not_true_iff_false in H. apply H, existsb_exists.
  exists e. split; [by apply list_elem_of_In|]. by rewrite Hi, Hv, (proj2 (Z.ltb_lt _ _)).
Qed.

(** C10: What Mutations publish is enough to keep Queries current.  If a Query succeeded on a database,
    and after anything Mutations, deliveries, schedules and other Environments do, including one more
    execution of a Mutation with its retries, no stored event later than the Query's snapshot has an
    impact on the dependencies it recorded, then the Query run on the database as it is then returns
    the same value and the same dependencies, at the sequence reached then. *)
Theorem query_unaffected {UL : UlidLib} {ULL : UlidLaws} sha256 timestamp_ms attached invoke wd request operation_id
    db db1 r db' faults close h out :
  scenario sha256 attached invoke wd request operation_id (data_step sha256 (rq_scope request)) -> db_ok db -> query_ok h ->
  query_session (LS := sqlite_store sha256) (rq_scope request) db faults close h = Ok out ->
  rtc (data_step sha256 (rq_scope request)) db db1 ->
  execute_on sha256 timestamp_ms attached invoke wd request operation_id db1 = (r, db') ->
  (forall e, ~ outdates (rq_scope request) db' (reached (rq_scope request) db) (qo_dependencies out) e) ->
  query_session (LS := sqlite_store sha256) (rq_scope request) db' no_read_faults W_Ready h
  = Ok (mkQueryOutcome (qo_value out) ((fun _ => reached (rq_scope request) db') <$> qo_snapshot_sequence out)
          (map (restamp (reached (rq_scope request) db')) (qo_dependencies out))).
Proof.
  intros Hsc Hdb Hh Hq H1 Hx Hn. pose proof (sc_request _ _ _ _ _ _ _ Hsc) as [Hs _].
  apply (query_still sha256 _ Hs db db' faults close); try done. etrans; [exact H1|].
  pose proof (execute_on_data sha256 timestamp_ms attached invoke wd request operation_id db1 Hsc
    (data_steps_ok _ _ _ _ Hdb H1)) as H2. by rewrite Hx in H2.
Qed.

(** ** An example *)

(** A Query for the member, and a Mutation that adds another one. *)
Definition watch : QueryHandler :=
  Q_Get (team_table, member) (fun answer =>
    match answer with Ok (Some d) => Q_Return (Ok (dd_value d)) | _ => Q_Return (Ok CV_Null) end).
Definition hire : Handler :=
  H_Insert team_table (from_ulid 10) (team "blue") (fun _ => H_Return (Ok CV_Null)).

Lemma watch_ok : query_ok watch.
Proof. split; [done|]. by intros [[d|]|e] _. Qed.
Lemma hire_ok : handler_ok hire.
Proof. split; [|done]. split; [done|]. split; [done|]. split; done. Qed.

Definition db_hired : Db := snd (team_execute hire id 21 db_red).
Definition watched_red : QueryOutcome :=
  mkQueryOutcome (team "red") (Some 1) [RD_Point team_table member (Some 1) 1].

Lemma watch_red : query_session (LS := sqlite_store team_sha) sample_scope db_red no_read_faults W_Ready watch = Ok watched_red.
Proof. by vm_compute. Qed.

Lemma hire_scenario :
  scenario team_sha (Some team_catalog) (fun _ _ => hire) (calm id) team_request (from_ulid 21) (data_step team_sha sample_scope).
Proof. refine (team_scenario hire id 21 _ hire_ok _ (fun db _ => rtc_refl _ db)). done. Qed.

Lemma hired_quiet : outdating sample_scope db_hired (reached sample_scope db_red) (qo_dependencies watched_red) = false.
Proof. by vm_compute. Qed.

Lemma query_unaffected_witness :
  query_session (LS := sqlite_store team_sha) sample_scope db_hired no_read_faults W_Ready watch
  = Ok (mkQueryOutcome (team "red") (Some (reached sample_scope db_hired))
          [RD_Point team_table member (Some 1) (reached sample_scope db_hired)]).
Proof.
  refine (query_unaffected team_sha (fun _ => 1) (Some team_catalog) (fun _ _ => hire) (calm id) team_request (from_ulid 21)
    db_red db_red _ db_hired no_read_faults W_Ready watch watched_red hire_scenario db_red_ok watch_ok watch_red
    (rtc_refl _ _) (surjective_pairing _) (outdating_spec _ _ _ _ hired_quiet)).
Defined.
