(* ===== verification/Subscriptions.v ===== *)
(** * Live subscriptions over the SQLite store

    The dispatcher of [crates/runku-realtime/src/dispatcher.rs] composed with the registry, the store
    and Query execution.  Between polls, and while a poll waits, other tasks commit Mutations, register,
    remove and resume subscriptions.  What is shown: a subscription that owes no work holds the value
    its Query has on the current database once every event is acknowledged, provided no event outdated
    its first result before it was registered; polls end; what becomes of a rerun that a failing poll
    leaves behind; and that a change a registration missed is never made up for. *)

From Stdlib Require Import Strings.Byte ZArith Lia.
From stdpp Require Import prelude strings gmap sorting list relations.
From S2P Require Import Prelude Order Ulid Value StoredValue IndexKey Core Schema Release StoreModel Batch Sql SqliteStore.
From S2P Require Import SqliteCommit SqliteInvariant SqliteReads SqliteOutbox SqliteExport SqliteSchedule SqliteSystem.
From S2P Require Import SqliteJournal SqliteTraces Execution Mutation MutationSession MutationCommit MutationSqlite.
From S2P Require Import MutationExecute Query QueryStable Impact Registry Dispatcher QuerySqlite.

(** ** The other tasks *)

Section subscriptions.
Context {UL : UlidLib} {ULL : UlidLaws}.
Variables (sha256 : bytes -> bytes) (registry_config : RegistryConfig) (config : DispatcherConfig).
Variables (consumer : OutboxConsumerName) (worker_id : WorkerId).
(** The Query a subscription runs, and the one subscription an identifier is ever used for. *)
Variables (program : SubscriptionSpec -> QueryHandler) (specs : SubscriptionId -> SubscriptionSpec).
Variable sc : EnvironmentScope.
(** The subscriptions that clients end. *)
Variable removable : SubscriptionId -> Prop.
(** When clients register: [registers id db0 db out] allows the registration of the result [out] of a run
    on the database [db0] at a time when the database is [db]. *)
Variable registers : SubscriptionId -> Db -> Db -> QueryOutcome -> Prop.
Abbreviation sk := (scope_key sc).
#[local] Instance the_database : LogicalStore Db SqliteSnapshot (TxnOutcome * option Z) := sqlite_store sha256.

Definition answers (db : Db) (spec : SubscriptionSpec) (out : QueryOutcome) : Prop :=
  exists faults close, query_session sc db faults close (program spec) = Ok out.

Definition same_position (db db' : Db) : Prop :=
  forall position, position_of sc consumer db' position -> position_of sc consumer db position.

(** What other tasks do.  Nobody else acknowledges for the dispatcher's consumer.  The result a
    subscription is registered with comes from a run of its Query on an earlier database; whether
    events since then have outdated it, [register] does not ask. *)
Inductive client_step (w : Shared) : Shared -> Prop :=
| client_data db' : data_step sha256 sc (sh_db w) db' -> same_position (sh_db w) db' -> client_step w (with_db db' w)
| client_register spec out : specs (sp_id spec) = spec ->
    (sp_scope spec = sc -> exists db0, db_ok db0 /\ rtc (data_step sha256 sc) db0 (sh_db w) /\ answers db0 spec out
       /\ registers (sp_id spec) db0 (sh_db w) out) ->
    client_step w (with_entries (snd (register sha256 registry_config spec out (sh_entries w))) w)
| client_remove id : removable id -> client_step w (with_entries (snd (remove id (sh_entries w))) w)
| client_resume id : client_step w (with_entries (snd (resume id (sh_entries w))) w).

(** The subscription is only ever registered while its result is current: no event stored since its run
    invalidates what the run has read. *)
Definition timely (id : SubscriptionId) : Prop :=
  forall db0 db out, registers id db0 db out -> forall e, ~ outdates sc db (reached sc db0) (qo_dependencies out) e.

(** Surroundings in which the other tasks take such steps and the runner runs Queries. *)
Record surroundings_ok (su : Surroundings) : Prop := {
  so_between n w : rtc client_step w (su_between su n w);
  so_rerun n spec db out : sp_scope spec = sc -> su_rerun su n spec db = Ok out -> answers db spec out
}.

(** The steps of the whole: a poll, of any Environment, or a step of another task. *)
Inductive realtime_step (w : Shared) : Shared -> Prop :=
| realtime_client w' : client_step w w' -> realtime_step w w'
| realtime_poll su fuel scope now r n w' : surroundings_ok su -> scope_ok scope ->
    poll_once sha256 registry_config config consumer worker_id su fuel scope now (O, w) = Some (r, (n, w')) ->
    realtime_step w w'.

(** ** What is true of an entry *)

Definition past (db : Db) (x : option OutboxCursor) : Prop :=
  forall y, x = Some y -> oc_commit_sequence y <= reached sc db.

(** Work is recorded for the entry, or it can never be rerun again. *)
Definition owes (e : Entry) : Prop :=
  en_running_generation e <> None \/ en_dirty_through e <> None \/ u64_max <= en_next_generation e.

Abbreviation marking := (OutboxEventRecord -> Prop).

(** The entry holds the result of its Query on an earlier database, and what was marked since and
    outdates it is owed, if its registration was timely. *)
Record live (M : marking) (db : Db) (e : Entry) : Prop := {
  lv_processed : past db (sb_processed_through (en_snapshot e));
  lv_running : past db (en_running_through e);
  lv_dirty : past db (en_dirty_through e);
  lv_origin : exists db0 out, db_ok db0 /\ rtc (data_step sha256 sc) db0 db
    /\ answers db0 (sb_spec (en_snapshot e)) out
    /\ sb_value (en_snapshot e) = qo_value out /\ sb_dependencies (en_snapshot e) = qo_dependencies out
    /\ (timely (sp_id (sb_spec (en_snapshot e))) -> owes e \/ past db0 (sb_processed_through (en_snapshot e))
          /\ forall ev, M ev -> ~ outdates sc db (reached sc db0) (qo_dependencies out) ev)
}.

Hypothesis sc_ok : scope_ok sc.
Abbreviation steps := (rtc (data_step sha256 sc)).

Lemma past_later db db' x : steps db db' -> past db x -> past db' x.
Proof. intros H Hp y Hy. specialize (Hp y Hy). pose proof (proj2 (proj2 (data_steps_events sha256 sc sc_ok db db' H))). lia. Qed.

Lemma past_max db x y : past db x -> oc_commit_sequence y <= reached sc db -> past db (Some (max_cursor x y)).
Proof. intros Hx Hy z [= <-]. destruct (max_cursor_either x y) as [->|E]; [done|]. by apply Hx. Qed.

Lemma stored_reached db ev : db_ok db -> stored_event sk db ev -> oe_commit_sequence ev <= reached sc db.
Proof.
  intros Hdb (_ & row & El & Hd). apply decode_outbox_event_Ok in Hd as (_ & _ & E & _). unfold reached.
  apply (inv_outbox _ Hdb) in El as [(m & Hm & Hb) _]. cbn [fst snd] in *. rewrite Hm. cbn. unfold Datatypes.id. lia.
Qed.

Lemma outdates_earlier db db' since ds ev : steps db db' -> stored_event sk db ev ->
  outdates sc db' since ds ev -> outdates sc db since ds ev.
Proof. by intros _ He (_ & H). Qed.

(** Later databases. *)
Lemma live_later M db db' e : (forall ev, M ev -> stored_event sk db ev) -> steps db db' -> live M db e -> live M db' e.
Proof.
  intros HM Hs [Hp Hr Hd (db0 & out & Hok & H0 & Ha & Hv & Hdep & Hf)].
  split; [by eapply past_later..|]. exists db0, out. split_and!; try done; [by etrans|].
  intros Ht. destruct (Hf Ht) as [Ho|[Hp0 Hf']]; [by left|right]. split; [done|]. intros ev Hev Hout.
  apply (Hf' ev Hev). by eapply outdates_earlier; [exact Hs|apply HM|].
Qed.

Lemma live_fewer (M M' : marking) db e : (forall ev, M' ev -> M ev) -> live M db e -> live M' db e.
Proof.
  intros HM [Hp Hr Hd (db0 & out & Hok & H0 & Ha & Hv & Hdep & Hf)]. split; [done..|]. exists db0, out.
  split_and!; try done. intros Ht. destruct (Hf Ht) as [|[]]; auto.
Qed.

(** An operation that leaves the result and records work. *)
Lemma live_owed M M' db e e' : live M db e -> same_result (en_snapshot e) (en_snapshot e') ->
  past db (sb_processed_through (en_snapshot e')) -> past db (en_running_through e') -> past db (en_dirty_through e') ->
  owes e' -> live M' db e'.
Proof.
  intros [_ _ _ (db0 & out & Hok & H0 & Ha & Hv & Hdep & _)] [Es Ev Ed] Hp Hr Hd Ho. split; [done..|].
  exists db0, out. rewrite Es, Ev, Ed. split_and!; try done. intros _. by left.
Qed.

(** An operation that leaves result and work. *)
Lemma live_same M db e e' : live M db e -> same_result (en_snapshot e) (en_snapshot e') -> same_work e e' ->
  en_next_generation e' = en_next_generation e -> live M db e'.
Proof.
  intros [Hp Hr Hd (db0 & out & Hok & H0 & Ha & Hv & Hdep & Hf)] [Es Ev Ed] [E1 E2 E3 E4] E5.
  split; [by rewrite ?E2, ?E3, ?E4..|]. exists db0, out. unfold owes. rewrite Es, Ev, Ed, E1, E3, E4, E5. done.
Qed.

(** ** The operations on an entry *)

Definition marked_also (M : marking) (scope : EnvironmentScope) (ev : OutboxEventRecord) : marking :=
  fun ev' => M ev' \/ scope = sc /\ ev' = ev.

Lemma start_live M M' db e x r e' : live M db e -> oc_commit_sequence x <= reached sc db ->
  start_rerun e x = (r, e') -> (exists t, r = Ok t) /\ live M' db e' \/ (exists er, r = Err er) /\ e' = e.
Proof.
  intros Hl Hx [(Hr & -> & _)|(g & -> & _ & Es & _ & Eg & Et & Ed)]%start_rerun_cases; [by right|left].
  split; [by eexists|]. eapply live_owed; [exact Hl|by rewrite Es|rewrite Es; apply Hl|rewrite Et; by intros y [= <-]
    |rewrite Ed; apply Hl|]. left. by rewrite Eg.
Qed.

Lemma mark_live M db scope ev impact now e r e' : live M db e -> sp_scope (sb_spec (en_snapshot e)) = sc ->
  (scope = sc -> db_ok db /\ stored_event sk db ev) -> decode (oe_payload ev) = Ok impact ->
  mark_one scope (OutboxEventRecord_cursor ev) impact now e = (r, e') ->
  live M db e' /\ (is_ok r = true -> live (marked_also M scope ev) db e').
Proof.
  intros Hl Hsc Hst Hdec. unfold mark_one. rewrite Hsc. destruct (negb (bool_decide _) || _ || _) eqn:Eskip.
  - intros [= <- <-]. split; [done|intros _]. destruct Hl as [Hp Hr Hd (db0 & out & Hok & H0 & Ha & Hv & Hdep & Hf)].
    split; [done..|]. exists db0, out. split_and!; try done. intros Ht. destruct (Hf Ht) as [Ho|[Hp0 Hf']]; [by left|right].
    split; [done|]. intros ev' [Hev|[Esc ->]]; [by apply Hf'|]. intros (_ & Hlt & impact' & Hdec' & Hinv).
    rewrite bool_decide_true in Eskip by congruence. cbn [negb orb] in Eskip.
    apply orb_true_iff in Eskip as [(y & Hy & Hle)%seen_through_sequence|Hn%negb_true_iff].
    + specialize (Hp0 y Hy). cbn in Hle. lia.
    + rewrite Hdep in Hn. congruence.
  - apply orb_false_iff in Eskip as [[Esc _]%orb_false_iff _]. apply negb_false_iff, bool_decide_eq_true in Esc.
    destruct (Hst (eq_sym Esc)) as [Hdb Hev]. apply stored_reached in Hev; [|done].
    destruct (_ || _ || _).
    + intros [= <- <-]. assert (forall M', live M' db (set_dirty (Some (max_cursor (en_dirty_through e) (OutboxEventRecord_cursor ev))) e)) as H.
      { intros M'. eapply live_owed; [exact Hl|done|apply Hl|apply Hl|by apply past_max; [apply Hl|]|]. right; left. done. }
      split; [apply H|intros _; apply H].
    + destruct (start_rerun _ _) as [r1 e1] eqn:Es. intros [= <- <-].
      destruct (start_live M (marked_also M scope ev) db e (OutboxEventRecord_cursor ev) r1 e1 Hl Hev Es) as [[[t ->] H]|[[er ->] ->]]; [|done].
      split; [|done]. eapply live_fewer; [|exact H]. by left.
Qed.

Lemma retry_live M db now e r e' : live M db e -> retry_one now e = (r, e') -> live M db e'.
Proof.
  intros Hl. unfold retry_one. destruct (_ || _ || _); [by intros [= <- <-]|].
  destruct (en_dirty_through e) as [x|] eqn:Ed; [|by intros [= <- <-]].
  destruct (start_rerun _ _) as [r1 e1] eqn:Es. intros [= <- <-].
  apply start_rerun_cases in Es as [(_ & -> & Hg)|(g & -> & _ & Es & _ & Eg & Et & Edd)].
  - eapply live_owed; [exact Hl|done|apply Hl|apply Hl|done|]. right; right. done.
  - eapply live_owed; [exact Hl|by rewrite Es|rewrite Es; apply Hl| |by rewrite Edd|left; by rewrite Eg].
    rewrite Et. rewrite <- Ed. apply Hl.
Qed.

(** A rerun on an earlier database, at which everything marked so far was there. *)
Lemma succeed_live M db0 db ticket out hash e r e' : live M db e ->
  db_ok db0 -> steps db0 db -> answers db0 (sb_spec (en_snapshot e)) out -> (forall ev, M ev -> stored_event sk db0 ev) ->
  (en_running_generation e <> None -> past db0 (sb_processed_through (en_snapshot e)) /\ past db0 (en_running_through e)) ->
  succeed_rerun ticket out hash e = (r, e') -> live M db e'.
Proof.
  intros Hl Hdb0 Hs Ha HM Hpast. unfold succeed_rerun, require_generation. case_bool_decide as Eg; [|by intros [= <- <-]].
  destruct Hpast as [Hp Hr]; [by rewrite Eg|].
  destruct (en_running_through e) as [through|] eqn:Et; [|by intros [= <- <-]].
  specialize (Hr through eq_refl). cbn [sb_delivery_revision with_outcome sb_processed_through].
  destruct (checked_add _ _ _) as [revision|].
  2:{ intros [= <- <-]. split; cbn; [apply Hl|rewrite Et; by intros y [= <-]; pose proof (lv_running _ _ _ Hl through Et)|apply Hl|].
      exists db0, out. split_and!; try done. intros _. left. left. cbn. by rewrite Eg. }
  set (processed := max_cursor _ _).
  assert (past db0 (Some processed)) as Hp' by by apply past_max.
  set (e1 := mkEntry _ _ _ _ _ _ _ _).
  assert (live M db e1) as Hl1.
  { split; cbn; try done; [by eapply past_later|]. exists db0, out. split_and!; try done. intros _. right. split; [done|].
    intros ev Hev (_ & Hlt & _). pose proof (stored_reached db0 ev Hdb0 (HM ev Hev)). lia. }
  destruct (en_dirty_through e) as [dirty|] eqn:Ed; [|by intros [= <- <-]].
  destruct (cursor_leb _ _); [by intros [= <- <-]|].
  destruct (start_rerun e1 dirty) as [r1 e2] eqn:E. intros [= <- <-].
  destruct (start_live M M db e1 dirty r1 e2 Hl1 (lv_dirty _ _ _ Hl dirty Ed) E) as [[_ H]|[_ ->]]; done.
Qed.

Lemma fail_live M db ticket code retryable now e r e' : live M db e ->
  fail_rerun registry_config ticket code retryable now e = (r, e') -> live M db e'.
Proof.
  intros Hl. unfold fail_rerun, require_generation. case_bool_decide as Eg; [|by intros [= <- <-]].
  destruct (en_running_through e) as [through|] eqn:Et; [|by intros [= <- <-]].
  pose proof (lv_running _ _ _ Hl through Et) as Ht.
  assert (past db (Some (max_cursor (en_dirty_through e) through))) as Hd by (apply past_max; [apply Hl|done]).
  assert (past db (Some (max_cursor (sb_processed_through (en_snapshot e)) through))) as Hp by (apply past_max; [apply Hl|done]).
  destruct (_ && _).
  - destruct (rbind _ _) as [deadline|x].
    + destruct (checked_add _ _ _); intros [= <- <-];
        (eapply live_owed; [exact Hl|done|apply Hl|done|exact Hd|right; left; done]).
    + intros [= <- <-]. eapply live_owed; [exact Hl|done|apply Hl|done|exact Hd|right; left; done].
  - destruct (checked_add _ _ _); intros [= <- <-];
      (eapply live_owed; [exact Hl|done|exact Hp|done|exact Hd|right; left; done]).
Qed.

(** ** What is true of the whole *)

Definition entry_inv (M : marking) (db : Db) (id : SubscriptionId) (e : Entry) : Prop :=
  sb_spec (en_snapshot e) = specs id /\ sp_id (specs id) = id /\ (sp_scope (specs id) = sc -> live M db e).

(** [M] are the events whose impact every entry has been compared with. *)
Record world_inv (M : marking) (w : Shared) : Prop := {
  wi_ok : db_ok (sh_db w);
  wi_stored ev : M ev -> stored_event sk (sh_db w) ev;
  wi_acknowledged position ev : position_of sc consumer (sh_db w) position -> stored_event sk (sh_db w) ev ->
    covered position ev -> M ev;
  wi_entries : each (entry_inv M (sh_db w)) (sh_entries w)
}.

Lemma world_entries M w es : world_inv M w -> each (entry_inv M (sh_db w)) es -> world_inv M (with_entries es w).
Proof. by intros [] ?. Qed.

Lemma world_data M w db' : world_inv M w -> data_step sha256 sc (sh_db w) db' -> same_position (sh_db w) db' ->
  world_inv M (with_db db' w).
Proof.
  intros [Hdb HM Ha He] Hs Hp. pose proof (rtc_once _ _ Hs) as Hr.
  destruct (data_step_events sha256 sc sc_ok _ _ Hs) as (H1 & H2 & _). split; cbn [sh_db sh_entries with_db].
  - by eapply data_step_ok.
  - intros ev Hev. by apply H1, HM.
  - intros position ev Hpos%Hp Hev Hcov. destruct (H2 ev Hev) as [Hev'|Hlt]; [by eapply Ha|].
    pose proof (covered_sequence _ _ _ _ Hpos Hcov). pose proof (position_reached sc consumer _ Hdb). lia.
  - eapply each_impl; [|exact He]. intros id e (Es & Ei & Hl). split_and!; try done.
    intros Hsc. eapply live_later; [exact HM|exact Hr|by apply Hl].
Qed.

Lemma client_world M w w' : world_inv M w -> client_step w w' -> world_inv M w'.
Proof.
  intros Hw [db' Hs Hp|spec out Hspec Hreg|id _|id]; [by apply world_data|..]; (apply world_entries; [done|]);
    pose proof (wi_entries _ _ Hw) as He.
  - unfold register. destruct (rbind _ _) as [hash|]; [|done]. destruct (entry_get _ _); [done|].
    destruct (_ <=? _); [done|]. cbn [snd]. apply each_insert; [|done]. unfold entry_inv. rewrite Hspec.
    split_and!; [done|done|]. intros Hsc. destruct (Hreg Hsc) as (db0 & Hdb0 & Hs & Ha & Hout).
    split; cbn; try done. exists db0, out. split_and!; try done. intros Ht. right. split; [done|]. intros ev _. by apply (Ht db0).
  - unfold remove. destruct (entry_get _ _); [|done]. by apply each_remove.
  - unfold resume. destruct (entry_get id (sh_entries w)) as [e|] eqn:Eg; [|done]. apply entry_get_elem in Eg.
    destruct (each_elem _ _ _ _ He Eg) as (Es & Ei & Hl). apply each_update; [|done]. split_and!; [done|done|].
    intros Hsc. eapply live_same; [by apply Hl|done|done|done].
Qed.

Lemma clients_world M w w' : world_inv M w -> rtc client_step w w' -> world_inv M w'.
Proof. intros Hw. induction 1; eauto using client_world. Qed.

Lemma clients_steps w w' : rtc client_step w w' -> steps (sh_db w) (sh_db w').
Proof. induction 1 as [|x y z [db' Hs _| | |] _ IH]; [done|by eapply rtc_l|done..]. Qed.

(** The other tasks start no rerun and record no work. *)
Definition kept (es es' : Entries) : Prop :=
  forall id e', (id, e') ∈ es' -> en_running_generation e' <> None -> exists e, (id, e) ∈ es /\ same_work e e'.

Lemma client_kept w w' : client_step w w' -> kept (sh_entries w) (sh_entries w').
Proof.
  assert (forall es, kept es es) as Hrefl by (intros es id e' He _; by exists e').
  intros [db' _ _|spec out _ _|id _|id]; [done|..]; cbn [sh_entries with_entries].
  - unfold register. destruct (rbind _ _); [|done]. destruct (entry_get _ _); [done|]. destruct (_ <=? _); [done|].
    intros id e' [[= -> ->]|Hin]%elem_of_entry_insert Hg; [done|by apply Hrefl].
  - unfold remove. destruct (entry_get _ _); [|done]. intros id' e' [Hin _]%elem_of_entry_remove. by apply Hrefl.
  - unfold resume. destruct (entry_get id (sh_entries w)) as [e|] eqn:Eg; [|done]. apply entry_get_elem in Eg.
    intros id' e' [[[= -> ->] _]|[Hin _]]%elem_of_entry_update Hg; [by exists e|by apply Hrefl].
Qed.

Lemma clients_kept w w' : rtc client_step w w' -> kept (sh_entries w) (sh_entries w').
Proof.
  induction 1 as [w|w w1 w2 Hs _ IH]; [intros id e' He _; by exists e'|].
  intros id e2 H2 Hg. destruct (IH id e2 H2 Hg) as (e1 & H1 & [E1 E2 E3 E4]).
  destruct (client_kept _ _ Hs id e1 H1) as (e & He & [F1 F2 F3 F4]); [by rewrite <- E1|].
  exists e. split; [done|]. split; congruence.
Qed.

(** ** A poll *)

Definition ticket_ok (t : RerunTicket) : Prop := specs (sp_id (rt_spec t)) = rt_spec t.

(** What an operation on one entry owes: the entry stays one of the same subscription. *)
Lemma entry_step {A} (spec_of : A -> option SubscriptionSpec) M M' db id e (o : result RealtimeError A * Entry) :
  entry_inv M db id e -> keeps_spec spec_of e o -> (sp_scope (specs id) = sc -> live M' db (snd o)) ->
  entry_inv M' db id (snd o)
  /\ forall a t, fst o = Ok a -> spec_of a = Some (rt_spec t) -> ticket_ok t.
Proof.
  intros (Es & Ei & _) [E1 E2] Hl. split; [split; [congruence|done]|].
  intros a t Ha Ht. unfold ticket_ok. rewrite (E2 a _ Ha Ht), Es. by rewrite Ei.
Qed.

Lemma retries_world M w now r es : world_inv M w -> ready_retries now (sh_entries w) = (r, es) ->
  world_inv M (with_entries es w) /\ forall ts, r = Ok ts -> Forall ticket_ok ts.
Proof.
  intros Hw Hr.
  assert (forall id e, entry_inv M (sh_db w) id e -> entry_inv M (sh_db w) id (snd (retry_one now e))
    /\ forall a t, fst (retry_one now e) = Ok a -> rt_spec <$> a = Some (rt_spec t) -> ticket_ok t) as Hone.
  { intros id e Hi. apply (entry_step ticket_spec M M _ id e _ Hi (retry_one_spec now e)). intros Hsc.
    destruct (retry_one now e) as [r1 e1] eqn:E. eapply retry_live; [|exact E]. by apply Hi. }
  destruct (fun A B => visit_each (entry_inv M (sh_db w)) (entry_inv M (sh_db w)) ticket_ok _ _ _ _
    A B (fun _ _ H => H) (wi_entries _ _ Hw) Hr) as [H1 H2].
  - intros id e t e' Hi E. destruct (Hone id e Hi) as [H1 H2]. rewrite E in H1, H2. split; [done|].
    intros x ->. by apply (H2 (Some x)).
  - intros id e x e' Hi E. destruct (Hone id e Hi) as [H1 _]. by rewrite E in H1.
  - split; [by apply world_entries|]. intros ts ->. by apply H2.
Qed.

Lemma mark_world M w scope ev impact now r es : world_inv M w ->
  (scope = sc -> stored_event sk (sh_db w) ev) -> decode (oe_payload ev) = Ok impact ->
  mark_impacted scope (OutboxEventRecord_cursor ev) impact now (sh_entries w) = (r, es) ->
  world_inv M (with_entries es w)
  /\ forall ts, r = Ok ts -> world_inv (marked_also M scope ev) (with_entries es w) /\ Forall ticket_ok ts.
Proof.
  intros Hw Hst Hdec Hr. unfold mark_impacted in Hr. set (f := mark_one scope (OutboxEventRecord_cursor ev) impact now) in Hr.
  assert (forall id e, entry_inv M (sh_db w) id e -> entry_inv M (sh_db w) id (snd (f e))
    /\ forall a, fst (f e) = Ok a -> entry_inv (marked_also M scope ev) (sh_db w) id (snd (f e))
         /\ forall t, a = Some t -> ticket_ok t) as Hone.
  { intros id e Hi. pose proof (mark_one_spec scope (OutboxEventRecord_cursor ev) impact now e) as Hk. fold f in Hk.
    assert (sp_scope (specs id) = sc -> live M (sh_db w) (snd (f e))
      /\ (is_ok (fst (f e)) = true -> live (marked_also M scope ev) (sh_db w) (snd (f e)))) as Hl.
    { intros Hsc. destruct Hi as (Es & _ & Hl). destruct (f e) as [r1 e1] eqn:E. cbn [fst snd].
      eapply mark_live; [by apply Hl|congruence| |exact Hdec|exact E]. intros Hs. split; [apply Hw|by apply Hst]. }
    destruct (entry_step ticket_spec M M _ id e _ Hi Hk (fun H => proj1 (Hl H))) as [H1 H2]. split; [done|].
    intros a Ha. split; [|intros t ->; by apply (H2 (Some t))].
    apply (entry_step ticket_spec M (marked_also M scope ev) _ id e _ Hi Hk). intros Hsc. apply (Hl Hsc). by rewrite Ha. }
  destruct (fun A B C => visit_each (entry_inv M (sh_db w)) (entry_inv (marked_also M scope ev) (sh_db w)) ticket_ok _ _ _ _
    A B C (wi_entries _ _ Hw) Hr) as [H1 H2].
  - intros id e t e' Hi E. destruct (Hone id e Hi) as [_ H]. rewrite E in H. by apply (H t).
  - intros id e x e' Hi E. destruct (Hone id e Hi) as [H _]. by rewrite E in H.
  - intros id e (Es & Ei & Hl). split_and!; try done. intros Hsc. eapply live_fewer; [|by apply Hl]. by left.
  - split; [by apply world_entries|]. intros ts ->. destruct (H2 ts eq_refl) as [H3 H4]. split; [|done].
    destruct Hw as [Hdb HM Ha _]. split; cbn [sh_db sh_entries with_entries]; try done.
    + intros e [He|[Esc ->]]; [by apply HM|by apply Hst].
    + intros position e Hp He Hc. left. by eapply Ha.
Qed.

Lemma success_world M w1 w2 ticket out r es : world_inv M w1 -> rtc client_step w1 w2 -> ticket_ok ticket ->
  (sp_scope (rt_spec ticket) = sc -> answers (sh_db w1) (rt_spec ticket) out) ->
  complete_success sha256 registry_config ticket out (sh_entries w2) = (r, es) ->
  world_inv M (with_entries es w2) /\ forall t, r = Ok (Some t) -> ticket_ok t.
Proof.
  intros Hw1 Hc Ht Ha. pose proof (clients_world _ _ _ Hw1 Hc) as Hw2. unfold complete_success.
  destruct (rbind _ _) as [hash|x]; [|by intros [= <- <-]; split; [apply world_entries; [|apply Hw2]|]].
  destruct (entry_get _ _) as [e|] eqn:Eg; [|by intros [= <- <-]; split; [apply world_entries; [|apply Hw2]|]].
  apply entry_get_elem in Eg. pose proof (each_elem _ _ _ _ (wi_entries _ _ Hw2) Eg) as Hi.
  pose proof (succeed_rerun_spec ticket out hash e) as Hk.
  destruct (entry_step ticket_spec M M _ _ e _ Hi Hk) as [H1 H2].
  { intros Hsc. destruct Hi as (Es & _ & Hl). destruct (succeed_rerun _ _ _ _) as [r1 e1] eqn:E.
    eapply succeed_live; [by apply Hl|apply Hw1|by apply clients_steps| |apply Hw1| |exact E].
    - rewrite Es, Ht. apply Ha. by rewrite <- Ht.
    - intros Hg. destruct (clients_kept _ _ Hc _ _ Eg Hg) as (e0 & He0 & [_ E2 _ E4]). rewrite E2, E4.
      destruct (each_elem _ _ _ _ (wi_entries _ _ Hw1) He0) as (_ & _ & Hl0). by destruct (Hl0 Hsc). }
  destruct (succeed_rerun _ _ _ _) as [r1 e1]. cbn [fst snd] in H1, H2. intros [= <- <-]. split.
  - apply world_entries; [done|]. apply each_update; [done|apply Hw2].
  - intros t ->. by apply (H2 (Some t)).
Qed.

Lemma failure_world M w ticket code retryable now r es : world_inv M w ->
  complete_failure registry_config ticket code retryable now (sh_entries w) = (r, es) -> world_inv M (with_entries es w).
Proof.
  intros Hw. unfold complete_failure.
  destruct (entry_get _ _) as [e|] eqn:Eg; [|by intros [= <- <-]; apply world_entries; [|apply Hw]].
  apply entry_get_elem in Eg. pose proof (each_elem _ _ _ _ (wi_entries _ _ Hw) Eg) as Hi.
  destruct (entry_step (fun _ => None) M M _ _ e _ Hi (fail_rerun_spec registry_config ticket code retryable now e)) as [H1 _].
  { intros Hsc. destruct Hi as (_ & _ & Hl). destruct (fail_rerun _ _ _ _ _ _) as [r1 e1] eqn:E.
    eapply fail_live; [|exact E]. by apply Hl. }
  destruct (fail_rerun _ _ _ _ _ _) as [r1 e1]. intros [= <- <-]. apply world_entries; [done|].
  apply each_update; [done|apply Hw].
Qed.

(** The invariant is kept and the database moves on. *)
Definition leads (M : marking) (w w' : Shared) : Prop := world_inv M w' /\ steps (sh_db w) (sh_db w').

Lemma leads_trans M M' w w1 w2 : leads M w w1 -> leads M' w1 w2 -> leads M' w w2.
Proof. intros [_ H1] [H H2]. split; [done|]. by etrans. Qed.

Lemma leads_entries M w es : world_inv M (with_entries es w) -> leads M w (with_entries es w).
Proof. by split. Qed.

Section poll.
Variable su : Surroundings.
Hypothesis su_ok : surroundings_ok su.

Lemma tick_leads M p : world_inv M (snd p) -> leads M (snd p) (snd (tick su p)).
Proof.
  intros Hw. pose proof (so_between _ su_ok (fst p) (snd p)) as Hc. split; [by eapply clients_world|by apply clients_steps].
Qed.

Lemma rerun_failed_leads M ticket error now p r p' : world_inv M (snd p) ->
  rerun_failed registry_config ticket error now p = (r, p') -> leads M (snd p) (snd p').
Proof.
  intros Hw. unfold rerun_failed, on_registry. destruct (complete_failure _ _ _ _ _ _) as [r1 es] eqn:E. intros [= <- <-].
  apply leads_entries. by eapply failure_world.
Qed.

Lemma run_ticket_leads M fuel now ticket completed p r p' : world_inv M (snd p) -> ticket_ok ticket ->
  run_ticket sha256 registry_config su fuel now ticket completed p = Some (r, p') -> leads M (snd p) (snd p').
Proof.
  revert ticket completed p. induction fuel as [|fuel IH]; intros ticket completed p Hw Ht; [done|]. cbn [run_ticket].
  destruct (_ <=? _); [intros [= H]; by eapply rerun_failed_leads|].
  pose proof (tick_leads M p Hw) as L1. set (p1 := tick su p) in *. pose proof (tick_leads M p1 (proj1 L1)) as L2.
  destruct (su_rerun _ _ _ _) as [out|error] eqn:Er.
  - destruct (checked_add _ _ _) as [completed1|]; [|intros [= <- <-]; by eapply leads_trans].
    unfold on_registry. destruct (complete_success _ _ _ _ _) as [r1 es] eqn:Ec.
    destruct (success_world M (snd p1) (snd (tick su p1)) ticket out r1 es (proj1 L1) (so_between _ su_ok _ _) Ht
      (fun Hsc => so_rerun _ su_ok _ _ _ _ Hsc Er) Ec) as [Hw3 Hnext].
    assert (leads M (snd p) (with_entries es (snd (tick su p1)))) as L3.
    { eapply leads_trans; [exact L1|]. eapply leads_trans; [exact L2|]. by apply leads_entries. }
    destruct r1 as [[next|]|e]; cbn [map_err]; [|by intros [= <- <-]..]. intros H.
    eapply leads_trans; [exact L3|]. apply (IH next completed1 (fst (tick su p1), with_entries es (snd (tick su p1))));
      [done|by apply Hnext|exact H].
  - intros [= H]. eapply leads_trans; [exact L1|]. eapply leads_trans; [exact L2|]. by eapply rerun_failed_leads; [apply L2|].
Qed.

Lemma execute_tickets_leads M fuel now tickets completed p r p' : world_inv M (snd p) -> Forall ticket_ok tickets ->
  execute_tickets sha256 registry_config su fuel now tickets completed p = Some (r, p') -> leads M (snd p) (snd p').
Proof.
  intros Hw Ht. revert completed p Hw. induction Ht as [|ticket tickets Ht _ IH]; intros completed p Hw; cbn [execute_tickets].
  { by intros [= <- <-]. }
  destruct (run_ticket _ _ _ _ _ _ _ _) as [[[completed1|e] p1]|] eqn:E; [| |done].
  - pose proof (run_ticket_leads _ _ _ _ _ _ _ _ Hw Ht E) as L1. intros H. eapply leads_trans; [exact L1|].
    by apply (IH completed1 p1 (proj1 L1)).
  - intros [= <- <-]. by eapply run_ticket_leads.
Qed.

Lemma mark_events_leads M scope now events p r p' : world_inv M (snd p) ->
  (scope = sc -> Forall (stored_event sk (sh_db (snd p))) events) ->
  mark_events su scope now events p = (r, p') ->
  exists M', leads M' (snd p) (snd p') /\ (forall ev, M ev -> M' ev)
    /\ forall ts, r = Ok ts -> Forall ticket_ok ts /\ (scope = sc -> forall ev, ev ∈ events -> M' ev).
Proof.
  revert M p r p'. induction events as [|event events IH]; intros M p r p' Hw Hst; cbn [mark_events].
  { intros [= <- <-]. exists M. split; [done|]. split; [done|]. intros ts [= <-]. split; [done|]. by intros _ ev ?%not_elem_of_nil. }
  destruct (decode _) as [impact|e] eqn:Ed; [|intros [= <- <-]; by exists M].
  pose proof (tick_leads M p Hw) as L1. unfold on_registry.
  assert (forall ev, stored_event sk (sh_db (snd p)) ev -> stored_event sk (sh_db (snd (tick su p))) ev) as Hk.
  { apply (data_steps_events sha256 sc sc_ok). apply L1. }
  destruct (mark_impacted _ _ _ _ _) as [r1 es] eqn:Em.
  destruct (mark_world M (snd (tick su p)) scope event impact now r1 es (proj1 L1)) as [Hw1 Hw2]; [|done|done|].
  { intros Hsc. apply Hk. specialize (Hst Hsc). by apply Forall_cons in Hst as [? _]. }
  destruct r1 as [ts|e]; cbn [map_err].
  2:{ intros [= <- <-]. exists M. split; [|done]. eapply leads_trans; [exact L1|]. by apply leads_entries. }
  destruct (Hw2 ts eq_refl) as [Hw3 Hts]. clear Hw1 Hw2. destruct (mark_events _ _ _ _ _) as [r2 p2] eqn:E.
  apply (IH (marked_also M scope event)) in E as (M' & L2 & HM & H2); [|done|].
  2:{ intros Hsc. specialize (Hst Hsc). apply Forall_cons in Hst as [_ Hst]. eapply Forall_impl; [exact Hst|apply Hk]. }
  intros [= <- <-]. exists M'. split_and!.
  - eapply leads_trans; [exact L1|]. eapply leads_trans; [by apply leads_entries|exact L2].
  - intros ev Hev. apply HM. by left.
  - intros ts' Hr. apply rbind_Ok in Hr as (rest & -> & [= <-]). destruct (H2 rest eq_refl) as [H3 H4].
    split; [by apply Forall_app|]. intros Hsc ev [->|Hev]%elem_of_cons; [|by apply H4]. apply HM. by right.
Qed.

(** Everything up to the event is marked, whatever is committed later. *)
Definition settled (M : marking) (db : Db) (ev : OutboxEventRecord) : Prop :=
  id_ok (oe_event_id ev) /\ oe_commit_sequence ev <= reached sc db
  /\ forall e, stored_event sk db e -> covered (Some (OutboxEventRecord_cursor ev)) e -> M e.

Lemma settled_later M db db' ev : steps db db' -> settled M db ev -> settled M db' ev.
Proof.
  intros Hs (Hid & Hr & Hc). destruct (data_steps_events sha256 sc sc_ok _ _ Hs) as (_ & H2 & H3).
  split; [done|]. split; [lia|]. intros e He Hcov. destruct (H2 e He) as [He'|Hlt]; [by apply Hc|].
  apply covered_event_sequence in Hcov. lia.
Qed.

Lemma claim_leads M w scope o now until limit r db' : scope_ok scope -> world_inv M w ->
  claim_outbox o scope consumer worker_id now until limit (sh_db w) = (r, db') -> leads M w (with_db db' w).
Proof.
  intros Hsc Hw E. assert (data_step sha256 sc (sh_db w) db') as Hs.
  { replace db' with (snd (claim_outbox o scope consumer worker_id now until limit (sh_db w))) by by rewrite E.
    destruct (decide (scope = sc)) as [->|Hne]; [apply data_claim_outbox|].
    eapply data_elsewhere; [done|done|]. left. apply step_claim_outbox. }
  split; [|by apply rtc_once]. apply world_data; [done|done|].
  assert (quiet sc consumer (sh_db w) db') as [[E1 E2] _ _ _].
  { replace db' with (snd (claim_outbox o scope consumer worker_id now until limit (sh_db w))) by by rewrite E.
    apply (quiet_step_quiet sha256 sc consumer sc_ok). by apply quiet_claim. }
  intros position. unfold position_of. by rewrite E1, E2.
Qed.

Lemma claim_settles M w o now until limit b db' : world_inv M w ->
  claim_outbox o sc consumer worker_id now until limit (sh_db w) = (Ok b, db') ->
  Forall (stored_event sk db') (co_events b)
  /\ forall M' ev, (forall e, M e -> M' e) -> (forall e, e ∈ co_events b -> M' e) -> last (co_events b) = Some ev ->
       settled M' db' ev.
Proof.
  intros Hw E. pose proof (claim_outbox_Ok _ _ _ _ _ _ _ _ _ _ E) as H.
  pose proof (oc_cursor _ _ _ _ _ _ _ _ _ H) as Hpos.
  pose proof (outbox_events_query _ _ _ _ _ _ _ Hpos (oc_events _ _ _ _ _ _ _ _ _ H)) as Hq.
  assert (forall e, stored_event sk db' e <-> stored_event sk (sh_db w) e) as Hsame.
  { intros e. unfold stored_event. by rewrite (oc_db _ _ _ _ _ _ _ _ _ H). }
  split.
  { apply Forall_forall. intros e He. apply Hsame. by apply (lq_sound _ _ _ _ Hq). }
  intros M' ev HM He Hl. destruct (last_claimed_position sk _ _ _ _ _ _ (wi_ok _ _ Hw) (oc_events _ _ _ _ _ _ _ _ _ H) Hl)
    as [(m & Hm & Hb) Hid].
  split; [done|]. split; [unfold reached; rewrite (oc_sequences _ _ _ _ _ _ _ _ _ H), Hm, Hm; cbn; unfold Datatypes.id; lia|].
  intros e Hst%Hsame Hcov. destruct (claimed_covered sc sc_ok _ _ _ _ _ _ Hq Hl Hst Hcov) as [Hp|Hin]; [|by apply He].
  apply HM. eapply (wi_acknowledged _ _ Hw); [|done|exact Hp]. unfold position_of, the_row.
  destruct (consumer_row_cursor sk (consumer_str consumer) 0 now (sh_db w)) as [-> ->]. done.
Qed.

Lemma ack_leads M w scope o clock g ev : scope_ok scope -> world_inv M w -> (scope = sc -> settled M (sh_db w) ev) ->
  leads M w (with_db (snd (ack_outbox o clock scope consumer worker_id g (OutboxEventRecord_cursor ev) (sh_db w))) w).
Proof.
  intros Hsc Hw Hset. destruct (decide (scope = sc)) as [->|Hne].
  - pose proof (data_ack_outbox sha256 sc (sh_db w) o clock consumer worker_id g (OutboxEventRecord_cursor ev)) as Hs.
    split; [|by apply rtc_once]. revert Hs. unfold ack_outbox. destruct (_ || _); [by destruct w|].
    apply run_txn_inv; [by destruct w|]. intros u db' [(row & t & _ & _ & _ & _ & _ & ->)]%ack_outbox_body_Ok Hs.
    destruct (Hset eq_refl) as (Hid & _ & Hc). destruct Hw as [Hdb HM Ha He]. split.
    + by eapply data_step_ok.
    + exact HM.
    + intros position e Hpos%acknowledged_position Hst Hcov; [|done]. subst position. by apply Hc.
    + eapply each_impl; [|exact He]. intros id e (Es & Ei & Hl). split_and!; try done.
      intros Hs'. eapply live_later; [exact HM|by apply rtc_once|by apply Hl].
  - set (db' := snd _). assert (data_step sha256 sc (sh_db w) db') as Hs.
    { eapply data_elsewhere; [exact Hsc|done|]. left. apply step_ack_outbox. }
    split; [|by apply rtc_once]. apply world_data; [done|done|].
    assert (quiet sc consumer (sh_db w) db') as [[E1 E2] _ _ _].
    { apply (quiet_step_quiet sha256 sc consumer sc_ok). apply quiet_ack; [done|by left]. }
    intros position. unfold position_of. by rewrite E1, E2.
Qed.

Lemma acknowledge_leads M scope claim reruns p r p' : scope_ok scope -> world_inv M (snd p) ->
  (scope = sc -> forall ev, last (co_events claim) = Some ev -> settled M (sh_db (snd p)) ev) ->
  acknowledge consumer worker_id su scope claim reruns p = (r, p') -> leads M (snd p) (snd p').
Proof.
  intros Hsc Hw Hset. unfold acknowledge. destruct (last (co_events claim)) as [ev|]; [|by intros [= <- <-]]. cbn [fmap option_fmap option_map].
  pose proof (tick_leads M p Hw) as L1. destruct (has_pending_through _ _ _); [by intros [= <- <-]|].
  pose proof (tick_leads M _ (proj1 L1)) as L2. pose proof (leads_trans _ _ _ _ _ L1 L2) as L.
  destruct (ack_outbox _ _ _ _ _ _ _ _) as [r1 db] eqn:E. intros [= <- <-]. eapply leads_trans; [exact L|]. cbn [snd].
  replace db with (snd (r1, db)) by done. rewrite <- E. apply ack_leads; [done|apply L2|].
  intros Hs. eapply settled_later; [apply L|by apply Hset].
Qed.

Lemma poll_leads M fuel scope now p r p' : scope_ok scope -> world_inv M (snd p) ->
  poll_once sha256 registry_config config consumer worker_id su fuel scope now p = Some (r, p') ->
  exists M', world_inv M' (snd p').
Proof.
  intros Hsc Hw. unfold poll_once, on_registry. destruct (ready_retries now _) as [r0 es] eqn:E0.
  destruct (retries_world _ _ _ _ _ Hw E0) as [Hw0 Ht0]. destruct r0 as [tickets|]; cbn [map_err]; [|intros [= <- <-]; by exists M].
  destruct (execute_tickets _ _ _ _ _ _ _ _) as [[[reruns|e] p1]|] eqn:E1; [| |done];
    apply (execute_tickets_leads M) in E1 as [Hw1 _]; try done; try (by apply Ht0).
  2:{ intros [= <- <-]. by exists M. }
  destruct (rbind _ _) as [until|]; [|intros [= <- <-]; by exists M].
  pose proof (tick_leads M p1 Hw1) as [Hw2 _]. destruct (claim_outbox _ _ _ _ _ _ _ _) as [r2 db2] eqn:E2.
  destruct (claim_leads _ _ _ _ _ _ _ _ _ Hsc Hw2 E2) as [Hw3 _].
  destruct r2 as [claim|e2]; [|destruct e2; intros [= <- <-]; by exists M].
  case_bool_decide; [intros [= <- <-]; by exists M|].
  assert (scope = sc -> Forall (stored_event sk db2) (co_events claim)) as Hst.
  { intros ->. by apply (claim_settles M _ _ _ _ _ _ _ Hw2 E2). }
  destruct (mark_events _ _ _ _ _) as [r3 p3] eqn:E3.
  apply (mark_events_leads M) in E3 as (M' & L3 & HM & Hr3); [|done|done].
  destruct r3 as [tickets3|]; [|intros [= <- <-]; exists M'; apply L3]. destruct (Hr3 tickets3 eq_refl) as [Ht3 Hall].
  destruct (execute_tickets _ _ _ _ _ _ _ p3) as [[[more|e] p4]|] eqn:E4; [| |done];
    apply (execute_tickets_leads M') in E4 as L4; try done; try apply L3.
  2:{ intros [= <- <-]. exists M'. apply L4. }
  destruct (checked_add _ _ _) as [total|]; [|intros [= <- <-]; exists M'; apply L4].
  intros [= H4]. exists M'. eapply (acknowledge_leads M'); [exact Hsc|apply L4| |exact H4].
  intros -> ev Hl. destruct (claim_settles M _ _ _ _ _ _ _ Hw2 E2) as [_ Hset].
  eapply settled_later; [apply L4|]. eapply settled_later; [apply L3|]. apply Hset; [done|by apply Hall|done].
Qed.

(** ** The end of a poll *)

(** An entry that is being rerun has no more work recorded. *)
Definition last_rerun (id : SubscriptionId) (es : Entries) : Prop :=
  forall e, (id, e) ∈ es -> en_running_generation e <> None -> en_dirty_through e = None.

Lemma last_rerun_kept id es es' : kept es es' -> last_rerun id es -> last_rerun id es'.
Proof.
  intros Hk Hl e' He' Hg. destruct (Hk id e' He' Hg) as (e & He & [E1 _ E3 _]). rewrite E3. apply (Hl e He). by rewrite <- E1.
Qed.

Lemma succeed_again ticket out hash e next e' : succeed_rerun ticket out hash e = (Ok (Some next), e') ->
  en_running_generation e <> None /\ en_dirty_through e <> None /\ en_dirty_through e' = None.
Proof.
  unfold succeed_rerun, require_generation. case_bool_decide as Eg; [|done]. rewrite Eg.
  destruct (en_running_through e); [|done]. destruct (checked_add _ _ _); [|done]. destruct (en_dirty_through e); [|done].
  destruct (cursor_leb _ _); [done|]. destruct (start_rerun _ _) as [r1 e1] eqn:E. intros [= Hr <-].
  apply start_rerun_cases in E as [([x ->] & _)|(g & -> & _ & _ & _ & _ & _ & ->)]; done.
Qed.

Lemma run_last_ticket fuel now ticket completed p : last_rerun (sp_id (rt_spec ticket)) (sh_entries (snd p)) ->
  is_Some (run_ticket sha256 registry_config su (S fuel) now ticket completed p).
Proof.
  intros Hl. cbn [run_ticket]. destruct (_ <=? _); [done|]. destruct (su_rerun _ _ _ _); [|done]. destruct (checked_add _ _ _); [|done].
  pose proof (last_rerun_kept _ _ _ (clients_kept _ _ (so_between _ su_ok (fst p) (snd p))) Hl) as Hl1.
  set (p1 := tick su p) in *.
  pose proof (last_rerun_kept _ _ _ (clients_kept _ _ (so_between _ su_ok (fst p1) (snd p1))) Hl1) as Hl2.
  unfold on_registry, complete_success. destruct (rbind _ _) as [hash|]; [|done].
  destruct (entry_get _ _) as [e|] eqn:Eg; [|done]. apply entry_get_elem in Eg.
  destruct (succeed_rerun _ _ _ _) as [[[next|]|x] e'] eqn:E; [|done..].
  apply succeed_again in E as (Hg & Hd & _). by specialize (Hl2 e Eg Hg).
Qed.

Lemma run_ticket_ends M fuel now ticket completed p : world_inv M (snd p) -> ticket_ok ticket ->
  is_Some (run_ticket sha256 registry_config su (S (S fuel)) now ticket completed p).
Proof.
  intros Hw Ht. cbn [run_ticket]. fold (run_ticket sha256 registry_config su). destruct (_ <=? _); [done|].
  destruct (su_rerun _ _ _ _) as [out|]; [|done]. destruct (checked_add _ _ _); [|done].
  pose proof (tick_leads M p Hw) as [Hw1 _]. pose proof (tick_leads M _ Hw1) as [Hw2 _].
  generalize dependent (tick su (tick su p)). intros p2 Hw2. unfold on_registry.
  destruct (complete_success _ _ _ _ _) as [[[next|]|x] es] eqn:E; cbn [map_err]; [|done..].
  apply run_last_ticket. cbn [snd sh_entries with_entries]. revert E. unfold complete_success.
  destruct (rbind _ _) as [hash|]; [|done]. destruct (entry_get _ _) as [e|] eqn:Eg; [|done]. apply entry_get_elem in Eg.
  destruct (each_elem _ _ _ _ (wi_entries _ _ Hw2) Eg) as (Es & Ei & _).
  destruct (succeed_rerun_spec ticket out hash e) as [_ Hspec].
  destruct (succeed_rerun _ _ _ _) as [r1 e'] eqn:E. intros [= -> <-].
  rewrite (Hspec (Some next) (rt_spec next) eq_refl eq_refl), Es, Ei. apply succeed_again in E as (_ & _ & Hd).
  intros e1 [[[= ->] _]|[_ Hne]]%elem_of_entry_update _; [done|]. by destruct Hne.
Qed.

Lemma execute_tickets_end M fuel now tickets completed p : world_inv M (snd p) -> Forall ticket_ok tickets ->
  is_Some (execute_tickets sha256 registry_config su (S (S fuel)) now tickets completed p).
Proof.
  intros Hw Ht. revert completed p Hw. induction Ht as [|ticket tickets Ht _ IH]; intros completed p Hw; [done|].
  cbn [execute_tickets]. destruct (run_ticket_ends M fuel now ticket completed p Hw Ht) as [[[completed1|e] p1] E]; rewrite E; [|done].
  apply IH. by eapply run_ticket_leads.
Qed.

Lemma poll_ends M fuel scope now p : scope_ok scope -> world_inv M (snd p) ->
  is_Some (poll_once sha256 registry_config config consumer worker_id su (S (S fuel)) scope now p).
Proof.
  intros Hsc Hw. unfold poll_once, on_registry. destruct (ready_retries now _) as [r0 es] eqn:E0.
  destruct (retries_world _ _ _ _ _ Hw E0) as [Hw0 Ht0]. destruct r0 as [tickets|]; cbn [map_err]; [|done].
  destruct (execute_tickets_end M fuel now tickets 0 (fst p, with_entries es (snd p)) Hw0 (Ht0 tickets eq_refl)) as [[r1 p1] E1].
  rewrite E1. apply (execute_tickets_leads M) in E1 as [Hw1 _]; [|done|by apply Ht0]. destruct r1 as [reruns|]; [|done].
  destruct (rbind _ _) as [until|]; [|done].
  pose proof (tick_leads M p1 Hw1) as [Hw2 _]. destruct (claim_outbox _ _ _ _ _ _ _ _) as [r2 db2] eqn:E2.
  destruct (claim_leads _ _ _ _ _ _ _ _ _ Hsc Hw2 E2) as [Hw3 _]. destruct r2 as [claim|e2]; [|by destruct e2].
  case_bool_decide; [done|]. destruct (mark_events _ _ _ _ _) as [r3 p3] eqn:E3.
  apply (mark_events_leads M) in E3 as (M' & L3 & HM & Hr3); [|done|].
  2:{ intros ->. by apply (claim_settles M _ _ _ _ _ _ _ Hw2 E2). }
  destruct r3 as [tickets3|]; [|done].
  destruct (execute_tickets_end M' fuel now tickets3 0 p3 (proj1 L3) (proj1 (Hr3 tickets3 eq_refl))) as [[[more|] p4] E4]; rewrite E4; [|done].
  by destruct (checked_add _ _ _).
Qed.
End poll.

Lemma realtime_world M w w' : world_inv M w -> rtc realtime_step w w' -> exists M', world_inv M' w'.
Proof.
  intros Hw H. revert M Hw. induction H as [|w w1 w2 Hs _ IH]; intros M Hw; [by exists M|].
  destruct Hs as [w1 Hc|su fuel scope now r n w1 Hsu Hsc Hp].
  - eapply IH. by eapply client_world.
  - destruct (poll_leads su Hsu M fuel scope now (O, w) r (n, w1) Hsc Hw Hp) as [M' Hw1]. by eapply IH.
Qed.

(** A process starts with no subscription. *)
Lemma world_start db : db_ok db -> world_inv (stored_event sk db) (mkShared db []).
Proof. intros Hdb. split; [done|done|done|constructor]. Qed.

(** C3: Subscriptions are current.  Start with no subscription and let polls of any Environments run,
    with reruns that fail or succeed, while other tasks commit Mutations, register, remove and resume
    subscriptions at any of the points where a poll waits, nobody else acknowledging for the
    dispatcher's consumer.  Take a subscription whose registrations were timely: no event that was
    stored when it was registered invalidates what the run of its Query that it was registered with
    has read.  (The code does not see to that; other subscriptions may be registered at any time.)  If
    it has no rerun in progress and none recorded, then, once the consumer's acknowledged position
    covers all events, the value the subscription holds is the one its Query returns on the database
    as it is now.  No change is lost, whatever the order in which commits, marks, reruns and
    acknowledgements interleave. *)
Theorem subscriptions_current db0 w id e position :
  (forall spec, query_ok (program spec)) -> timely id -> db_ok db0 -> rtc realtime_step (mkShared db0 []) w ->
  entry_get id (sh_entries w) = Some e -> sp_scope (sb_spec (en_snapshot e)) = sc ->
  en_running_generation e = None -> en_dirty_through e = None -> en_next_generation e < u64_max ->
  position_of sc consumer (sh_db w) position ->
  (forall ev, stored_event sk (sh_db w) ev -> covered position ev) ->
  exists out, query_session sc (sh_db w) no_read_faults W_Ready (program (sb_spec (en_snapshot e))) = Ok out
    /\ qo_value out = sb_value (en_snapshot e).
Proof.
  intros Hprog Ht Hdb0 Hr Hget Hsc Hrun Hdirty Hgen Hpos Hall.
  destruct (realtime_world _ _ _ (world_start db0 Hdb0) Hr) as (M & [Hdb HM Hack He]).
  destruct (each_elem _ _ _ _ He (entry_get_elem _ _ _ Hget)) as (Es & Ei & Hl). rewrite Es in Hsc.
  destruct (lv_origin _ _ _ (Hl Hsc)) as (db1 & out & Hdb1 & Hs & (faults & close & Ha) & Hv & Hd & Hf).
  assert (forall ev, ~ outdates sc (sh_db w) (reached sc db1) (qo_dependencies out) ev) as Hn.
  { rewrite Es, Ei in Hf. destruct (Hf Ht) as [[?|[?|?]]|[_ Hf']]; [done|done|lia|].
    intros ev Hout. apply (Hf' ev); [|exact Hout]. eapply Hack; [exact Hpos|apply Hout|]. apply Hall, Hout. }
  eexists. split; [exact (query_still sha256 sc sc_ok db1 (sh_db w) faults close _ out Hdb1 (Hprog _) Ha Hs Hn)|by rewrite Hv].
Qed.

(** C16: Polls end.  The loop of [execute_tickets] that reruns a subscription again and again while it
    becomes dirty stops after the second rerun: only the dispatcher records work, and it does not while
    it runs tickets.  So from every reachable state, whatever reruns answer and other tasks do, a poll
    has a result with two turns of that loop per ticket. *)
Theorem poll_terminates db0 w su fuel scope now : db_ok db0 -> rtc realtime_step (mkShared db0 []) w ->
  surroundings_ok su -> scope_ok scope ->
  exists r n w', poll_once sha256 registry_config config consumer worker_id su (S (S fuel)) scope now (O, w) = Some (r, (n, w')).
Proof.
  intros Hdb0 Hr Hsu Hsc. destruct (realtime_world _ _ _ (world_start db0 Hdb0) Hr) as [M Hw].
  destruct (poll_ends su Hsu M fuel scope now (O, w) Hsc Hw) as [[r [n w']] E]. by exists r, n, w'.
Qed.

(** ** What happens to the database *)

(** The database moves on and the consumer's position stays. *)
Definition moved_on (db db' : Db) : Prop := steps db db' /\ same_position db db'.

Lemma moved_on_refl db : moved_on db db.
Proof. split; [apply rtc_refl|by intros position]. Qed.

Lemma moved_on_trans db1 db2 db3 : moved_on db1 db2 -> moved_on db2 db3 -> moved_on db1 db3.
Proof. intros [H1 P1] [H2 P2]. split; [by etrans|]. intros position Hp. by apply P1, P2. Qed.

Lemma clients_moved w w' : rtc client_step w w' -> moved_on (sh_db w) (sh_db w').
Proof.
  induction 1 as [|x y z [db' Hs Hp| | |] _ IH]; [apply moved_on_refl| |done..].
  eapply moved_on_trans; [|exact IH]. split; [by apply rtc_once|done].
Qed.

Lemma claim_moved scope o now until limit db : scope_ok scope ->
  moved_on db (snd (claim_outbox o scope consumer worker_id now until limit db)).
Proof.
  intros Hsc. split.
  - apply rtc_once. destruct (decide (scope = sc)) as [->|Hne]; [apply data_claim_outbox|].
    eapply data_elsewhere; [done|done|]. left. apply step_claim_outbox.
  - pose proof (quiet_claim sha256 sc consumer db o scope consumer worker_id now until limit Hsc) as Hq.
    apply (quiet_step_quiet sha256 sc consumer sc_ok) in Hq as [[E1 E2] _ _ _].
    intros position. unfold position_of. by rewrite E1, E2.
Qed.

Lemma ack_steps scope o clock g through db : scope_ok scope ->
  steps db (snd (ack_outbox o clock scope consumer worker_id g through db)).
Proof.
  intros Hsc. apply rtc_once. destruct (decide (scope = sc)) as [->|Hne]; [apply data_ack_outbox|].
  eapply data_elsewhere; [exact Hsc|done|]. left. apply step_ack_outbox.
Qed.

Section poll_databases.
Variable su : Surroundings.
Hypothesis su_ok : surroundings_ok su.
Definition ahead_of (p p' : Progress) : Prop := moved_on (sh_db (snd p)) (sh_db (snd p')).

Lemma tick_moved p : ahead_of p (tick su p).
Proof. apply clients_moved, (so_between _ su_ok). Qed.

Lemma run_ticket_moved fuel now ticket completed p r p' :
  run_ticket sha256 registry_config su fuel now ticket completed p = Some (r, p') -> ahead_of p p'.
Proof.
  assert (forall ticket error p r p', rerun_failed registry_config ticket error now p = (r, p') -> ahead_of p p') as Hf.
  { intros t e q r0 q'. unfold rerun_failed, on_registry. destruct (complete_failure _ _ _ _ _ _). intros [= <- <-]. apply moved_on_refl. }
  revert ticket completed p. induction fuel as [|fuel IH]; intros ticket completed p; [done|]. cbn [run_ticket].
  destruct (_ <=? _); [intros [= H]; by eapply Hf|].
  pose proof (tick_moved p) as H1. pose proof (moved_on_trans _ _ _ H1 (tick_moved (tick su p))) as H2.
  destruct (su_rerun _ _ _ _) as [out|error]; [|intros [= H]; eapply moved_on_trans; [exact H2|by eapply Hf]].
  destruct (checked_add _ _ _); [|by intros [= <- <-]]. unfold on_registry.
  destruct (complete_success _ _ _ _ _) as [[[next|]|e] es]; cbn [map_err]; [|by intros [= <- <-]..].
  intros H%IH. by eapply moved_on_trans.
Qed.

Lemma execute_tickets_moved fuel now tickets completed p r p' :
  execute_tickets sha256 registry_config su fuel now tickets completed p = Some (r, p') -> ahead_of p p'.
Proof.
  revert completed p. induction tickets as [|ticket tickets IH]; intros completed p; cbn [execute_tickets].
  { intros [= <- <-]. apply moved_on_refl. }
  destruct (run_ticket _ _ _ _ _ _ _ _) as [[[n|e] p1]|] eqn:E; [| |done]; apply run_ticket_moved in E.
  - intros H%IH. by eapply moved_on_trans.
  - by intros [= <- <-].
Qed.

Lemma mark_events_moved scope now events p r p' : mark_events su scope now events p = (r, p') -> ahead_of p p'.
Proof.
  revert p r p'. induction events as [|event events IH]; intros p r p'; cbn [mark_events]; [intros [= <- <-]; apply moved_on_refl|].
  destruct (decode _); [|intros [= <- <-]; apply moved_on_refl]. unfold on_registry.
  destruct (mark_impacted _ _ _ _ _) as [[ts|e] es]; cbn [map_err]; [|intros [= <- <-]; apply tick_moved].
  destruct (mark_events _ _ _ _ _) as [r2 p2] eqn:E. apply IH in E. intros [= <- <-].
  eapply moved_on_trans; [apply tick_moved|exact E].
Qed.

Lemma acknowledge_databases scope claim reruns p r p' :
  acknowledge consumer worker_id su scope claim reruns p = (r, p') ->
  ahead_of p p' \/ exists ev db, last (co_events claim) = Some ev /\ moved_on (sh_db (snd p)) db
    /\ sh_db (snd p') = snd (ack_outbox (su_ack su) (su_ack_clock su) scope consumer worker_id (co_lease_generation claim)
         (OutboxEventRecord_cursor ev) db).
Proof.
  unfold acknowledge. destruct (last (co_events claim)) as [ev|]; cbn [fmap option_fmap option_map];
    [|intros [= <- <-]; left; apply moved_on_refl].
  destruct (has_pending_through _ _ _); [intros [= <- <-]; left; apply tick_moved|].
  destruct (ack_outbox _ _ _ _ _ _ _ _) as [r1 db] eqn:E. intros [= <- <-]. right. exists ev. eexists. split; [done|].
  split; [|by rewrite E]. eapply moved_on_trans; [apply tick_moved|apply tick_moved].
Qed.

(** A poll moves the database on, claims, moves it on and, unless it ends there, acknowledges the last
    event it has claimed. *)
Lemma poll_databases fuel scope now p r p' : scope_ok scope ->
  poll_once sha256 registry_config config consumer worker_id su fuel scope now p = Some (r, p') ->
  ahead_of p p'
  \/ exists db1 until b db2 ev db3, moved_on (sh_db (snd p)) db1
      /\ claim_outbox (su_claim su) scope consumer worker_id now until (dc_batch_limit config) db1 = (Ok b, db2)
      /\ last (co_events b) = Some ev /\ moved_on db2 db3
      /\ sh_db (snd p') = snd (ack_outbox (su_ack su) (su_ack_clock su) scope consumer worker_id (co_lease_generation b)
           (OutboxEventRecord_cursor ev) db3).
Proof.
  intros Hsc. unfold poll_once, on_registry. destruct (ready_retries now _) as [r0 es].
  destruct r0 as [tickets|]; cbn [map_err]; [|intros [= <- <-]; left; apply moved_on_refl].
  destruct (execute_tickets _ _ _ _ _ _ _ _) as [[[reruns|e] p1]|] eqn:E1; [| |done]; apply execute_tickets_moved in E1;
    [|by intros [= <- <-]; left].
  destruct (rbind _ _) as [until|]; [|by intros [= <- <-]; left]. pose proof (moved_on_trans _ _ _ E1 (tick_moved p1)) as H1.
  pose proof (claim_moved scope (su_claim su) now until (dc_batch_limit config) (sh_db (snd (tick su p1))) Hsc) as Hm.
  destruct (claim_outbox _ _ _ _ _ _ _ _) as [r2 db2] eqn:E2. cbn [snd] in Hm.
  pose proof (moved_on_trans _ _ _ H1 Hm) as H2. destruct r2 as [claim|e2]; [|destruct e2; by intros [= <- <-]; left].
  case_bool_decide; [by intros [= <- <-]; left|]. destruct (mark_events _ _ _ _ _) as [r3 p3] eqn:E3. apply mark_events_moved in E3.
  pose proof (moved_on_trans _ _ _ H2 E3) as H3. destruct r3 as [tickets3|]; [|by intros [= <- <-]; left].
  destruct (execute_tickets _ _ _ _ _ _ _ p3) as [[[more|e] p4]|] eqn:E4; [| |done]; apply execute_tickets_moved in E4;
    pose proof (moved_on_trans _ _ _ H3 E4) as H4; [|by intros [= <- <-]; left].
  destruct (checked_add _ _ _); [|by intros [= <- <-]; left].
  intros [= [Hk|(ev & db3 & Hl & Hd & E)]%acknowledge_databases]; [left; by eapply moved_on_trans|right].
  exists (sh_db (snd (tick su p1))), until, claim, db2, ev, db3. split_and!; try done.
  eapply moved_on_trans; [exact E3|]. by eapply moved_on_trans.
Qed.

Lemma poll_data_steps fuel scope now p r p' : scope_ok scope ->
  poll_once sha256 registry_config config consumer worker_id su fuel scope now p = Some (r, p') ->
  steps (sh_db (snd p)) (sh_db (snd p')).
Proof.
  intros Hsc [[H _]|(db1 & until & b & db2 & ev & db3 & [H1 _] & Hc & _ & [H3 _] & ->)]%poll_databases; [done| |done].
  etrans; [exact H1|]. etrans; [|by apply ack_steps]. etrans; [|exact H3].
  pose proof (claim_moved scope (su_claim su) now until (dc_batch_limit config) db1 Hsc) as [H _]. by rewrite Hc in H.
Qed.
End poll_databases.

Lemma realtime_steps w w' : rtc realtime_step w w' -> steps (sh_db w) (sh_db w').
Proof.
  induction 1 as [|w w1 w2 [w1' Hc|su fuel scope now r n w1' Hsu Hsc Hp] _ IH]; [done|..]; (etrans; [|exact IH]).
  - apply clients_steps. by apply rtc_once.
  - exact (poll_data_steps su Hsu fuel scope now (O, w) r (n, w1') Hsc Hp).
Qed.

(** ** An entry that stays as it is *)

Definition resumed (e : Entry) : Entry :=
  mkEntry (with_progress (sb_delivery_revision (en_snapshot e)) (sb_processed_through (en_snapshot e)) false (en_snapshot e))
    (en_delivery e) (en_running_generation e) (en_next_generation e) (en_running_through e) (en_dirty_through e) None 0.

Section undisturbed.
Variables (id : SubscriptionId) (still : Entry -> Prop) (harmless : EnvironmentScope -> OutboxEventRecord -> Prop).
Hypothesis id_stays : ~ removable id.
(** Neither a resumption, nor a look for retries, nor a harmless event starts a rerun of it. *)
Hypothesis still_resumed : forall e, still e -> still (resumed e).
Hypothesis still_retried : forall now e, still e -> fst (retry_one now e) = Ok None /\ still (snd (retry_one now e)).
Hypothesis still_marked : forall scope ev impact now e, harmless scope ev -> decode (oe_payload ev) = Ok impact -> still e ->
  fst (mark_one scope (OutboxEventRecord_cursor ev) impact now e) = Ok None
  /\ still (snd (mark_one scope (OutboxEventRecord_cursor ev) impact now e)).

Definition stays (id' : SubscriptionId) (e : Entry) : Prop := sp_id (sb_spec (en_snapshot e)) = id' /\ (id' = id -> still e).
Definition undisturbed (es : Entries) : Prop := id ∈ map fst es /\ each stays es.
(** A ticket of another subscription. *)
Definition elsewhere (t : RerunTicket) : Prop := sp_id (rt_spec t) <> id.

Lemma undisturbed_entry es : undisturbed es -> exists e, entry_get id es = Some e /\ still e.
Proof.
  intros [[e Hg]%entry_get_key He]. exists e. split; [done|]. apply entry_get_elem in Hg.
  by apply (each_elem _ _ _ _ He Hg).
Qed.

Lemma client_undisturbed w w' : undisturbed (sh_entries w) -> client_step w w' -> undisturbed (sh_entries w').
Proof.
  intros [Hin He] [db' _ _|spec out _ _|id' Hr|id']; [done|..]; cbn [sh_entries with_entries].
  - unfold register. destruct (rbind _ _); [|done]. destruct (entry_get _ _) eqn:Eg; [done|]. destruct (_ <=? _); [done|].
    cbn [snd]. split; [by apply entry_insert_keys|]. apply each_insert; [|done]. split; [done|]. intros Eid.
    apply entry_get_key in Hin as [e Hin]. congruence.
  - unfold remove. destruct (entry_get _ _); [|done]. cbn [snd]. split; [|by apply each_remove].
    apply entry_remove_keys; [|done]. by intros ->.
  - unfold resume. destruct (entry_get _ _) as [e|] eqn:Eg; [|done]. apply entry_get_elem in Eg. cbn [snd].
    split; [by rewrite entry_update_keys|]. destruct (each_elem _ _ _ _ He Eg) as [Ek Hh].
    apply each_update; [|done]. split; [done|]. intros Eid. by apply still_resumed, Hh.
Qed.

Lemma clients_undisturbed w w' : undisturbed (sh_entries w) -> rtc client_step w w' -> undisturbed (sh_entries w').
Proof. intros H. induction 1; eauto using client_undisturbed. Qed.

(** Loops over the entries start no rerun of it. *)
Lemma visit_undisturbed f es r es' : (forall e, keeps_spec ticket_spec e (f e)) ->
  (forall e, still e -> fst (f e) = Ok None /\ still (snd (f e))) ->
  undisturbed es -> visit f es = (r, es') -> undisturbed es' /\ forall ts, r = Ok ts -> Forall elsewhere ts.
Proof.
  intros Hk Hf [Hin He] Hv. assert (id ∈ map fst es') as Hin' by by rewrite <- (visit_keys f es), Hv in Hin.
  assert (forall id' e, stays id' e -> stays id' (snd (f e)) /\ forall t, fst (f e) = Ok (Some t) -> elsewhere t) as Hone.
  { intros id' e [Ek Hh]. destruct (Hk e) as [E1 E2]. split.
    - split; [congruence|]. intros Eid. by apply Hf, Hh.
    - intros t Ht Eid. assert (id' = id) as Ei by (rewrite <- Ek, <- (E2 _ _ Ht eq_refl); exact Eid).
      destruct (Hf e (Hh Ei)). congruence. }
  destruct (fun A B => visit_each stays stays elsewhere f es r es' A B (fun _ _ H => H) He Hv) as [H1 H2].
  - intros id' e t e' Hh E. destruct (Hone id' e Hh) as [H1 H2]. rewrite E in H1, H2. split; [done|]. intros x ->. by apply H2.
  - intros id' e x e' Hh E. destruct (Hone id' e Hh) as [H1 _]. by rewrite E in H1.
  - split; [done|]. intros ts ->. by apply H2.
Qed.

(** The ends of other reruns leave it alone. *)
Lemma update_undisturbed {A} (spec_of : A -> option SubscriptionSpec) id' e (o : result RealtimeError A * Entry) es :
  id' <> id -> undisturbed es -> (id', e) ∈ es -> keeps_spec spec_of e o ->
  undisturbed (entry_update id' (snd o) es) /\ forall a t, fst o = Ok a -> spec_of a = Some (rt_spec t) -> elsewhere t.
Proof.
  intros Hne [Hin He] Hget [E1 E2]. destruct (each_elem _ _ _ _ He Hget) as [Ek _]. split.
  - split; [by rewrite entry_update_keys|]. apply each_update; [|done]. split; [congruence|done].
  - intros a t Ha Ht. unfold elsewhere. rewrite (E2 a _ Ha Ht). congruence.
Qed.

Lemma success_undisturbed ticket out es r es' : undisturbed es -> elsewhere ticket ->
  complete_success sha256 registry_config ticket out es = (r, es') ->
  undisturbed es' /\ forall t, r = Ok (Some t) -> elsewhere t.
Proof.
  intros Hs Ht. unfold complete_success. destruct (rbind _ _) as [hash|]; [|by intros [= <- <-]].
  destruct (entry_get _ _) as [e|] eqn:Eg; [|by intros [= <- <-]]. apply entry_get_elem in Eg.
  destruct (update_undisturbed ticket_spec _ e _ es Ht Hs Eg (succeed_rerun_spec ticket out hash e)) as [H1 H2].
  destruct (succeed_rerun _ _ _ _) as [r1 e1]. intros [= <- <-]. split; [done|]. intros t Hr. by apply (H2 (Some t)).
Qed.

Lemma failure_undisturbed ticket code retryable now es r es' : undisturbed es -> elsewhere ticket ->
  complete_failure registry_config ticket code retryable now es = (r, es') -> undisturbed es'.
Proof.
  intros Hs Ht. unfold complete_failure. destruct (entry_get _ _) as [e|] eqn:Eg; [|by intros [= <- <-]].
  apply entry_get_elem in Eg.
  destruct (update_undisturbed (fun _ => None) _ e _ es Ht Hs Eg (fail_rerun_spec registry_config ticket code retryable now e)) as [H1 _].
  destruct (fail_rerun _ _ _ _ _ _) as [r1 e1]. by intros [= <- <-].
Qed.

Section poll.
Variable su : Surroundings.
Hypothesis su_ok : surroundings_ok su.
Definition calm_at (p : Progress) : Prop := undisturbed (sh_entries (snd p)).

Lemma tick_undisturbed p : calm_at p -> calm_at (tick su p).
Proof. intros H. eapply clients_undisturbed; [exact H|]. apply (so_between _ su_ok). Qed.

Lemma rerun_failed_undisturbed ticket error now p r p' : calm_at p -> elsewhere ticket ->
  rerun_failed registry_config ticket error now p = (r, p') -> calm_at p'.
Proof.
  intros Hs Ht. unfold rerun_failed, on_registry. destruct (complete_failure _ _ _ _ _ _) as [r1 es] eqn:E. intros [= <- <-].
  exact (failure_undisturbed _ _ _ _ _ _ _ Hs Ht E).
Qed.

Lemma run_ticket_undisturbed fuel now ticket completed p r p' : calm_at p -> elsewhere ticket ->
  run_ticket sha256 registry_config su fuel now ticket completed p = Some (r, p') -> calm_at p'.
Proof.
  revert ticket completed p. induction fuel as [|fuel IH]; intros ticket completed p Hs Ht; [done|]. cbn [run_ticket].
  destruct (_ <=? _); [intros [= H]; by eapply rerun_failed_undisturbed|].
  apply tick_undisturbed in Hs. generalize dependent (tick su p). intros p1 Hs1. pose proof (tick_undisturbed _ Hs1) as Hs2.
  destruct (su_rerun _ _ _ _) as [out|error]; [|intros [= H]; by eapply rerun_failed_undisturbed].
  destruct (checked_add _ _ _) as [completed1|]; [|by intros [= <- <-]].
  unfold on_registry. destruct (complete_success _ _ _ _ _) as [r1 es] eqn:Ec.
  destruct (success_undisturbed _ _ _ _ _ Hs2 Ht Ec) as [Hs3 Hn].
  destruct r1 as [[next|]|e]; cbn [map_err]; [|by intros [= <- <-]..].
  apply (IH next completed1 (fst (tick su p1), with_entries es (snd (tick su p1)))); [exact Hs3|by apply Hn].
Qed.

Lemma execute_tickets_undisturbed fuel now tickets completed p r p' : calm_at p -> Forall elsewhere tickets ->
  execute_tickets sha256 registry_config su fuel now tickets completed p = Some (r, p') -> calm_at p'.
Proof.
  intros Hs Ht. revert completed p Hs. induction Ht as [|ticket tickets Ht _ IH]; intros completed p Hs; cbn [execute_tickets].
  { by intros [= <- <-]. }
  destruct (run_ticket _ _ _ _ _ _ _ _) as [[[completed1|e] p1]|] eqn:E; [| |done].
  - apply IH. by eapply run_ticket_undisturbed.
  - intros [= <- <-]. by eapply run_ticket_undisturbed.
Qed.

Lemma mark_events_undisturbed scope now events p r p' : calm_at p -> Forall (harmless scope) events ->
  mark_events su scope now events p = (r, p') -> calm_at p' /\ forall ts, r = Ok ts -> Forall elsewhere ts.
Proof.
  intros Hs Hh. revert p r p' Hs. induction Hh as [|event events Hh _ IH]; intros p r p' Hs; cbn [mark_events].
  { intros [= <- <-]. split; [done|]. by intros ts [= <-]. }
  destruct (decode _) as [impact|e] eqn:Ed; [|by intros [= <- <-]]. apply tick_undisturbed in Hs.
  unfold on_registry. destruct (mark_impacted _ _ _ _ _) as [r1 es] eqn:Em.
  apply visit_undisturbed in Em as [Hs1 Ht1]; [|intros e; apply mark_one_spec|intros e; by apply still_marked|done].
  destruct r1 as [ts|]; cbn [map_err]; [|by intros [= <- <-]]. destruct (mark_events _ _ _ _ _) as [r2 p2] eqn:E.
  apply IH in E as [Hs2 Ht2]; [|done]. intros [= <- <-]. split; [done|]. intros ts' (rest & -> & [= <-])%rbind_Ok.
  apply Forall_app. split; [by apply Ht1|by apply Ht2].
Qed.

(** What a poll acknowledges, it found nothing pending for. *)
Definition nothing_pending (scope : EnvironmentScope) (r : result DispatcherError PollOutcome) : Prop :=
  forall o through, r = Ok o -> po_acknowledged_through o = Some through ->
  exists es, undisturbed es /\ has_pending_through scope through es = false.

Lemma nothing_acknowledged scope o : po_acknowledged_through o = None -> nothing_pending scope (Ok o).
Proof. intros Hn o' t [= <-]. congruence. Qed.

Lemma acknowledge_undisturbed scope claim reruns p r p' : calm_at p ->
  acknowledge consumer worker_id su scope claim reruns p = (r, p') -> calm_at p' /\ nothing_pending scope r.
Proof.
  intros Hs. unfold acknowledge. destruct (OutboxEventRecord_cursor <$> _) as [through|]; [|by intros [= <- <-]].
  apply tick_undisturbed in Hs. destruct (has_pending_through _ _ _) eqn:Hp; [by intros [= <- <-]|].
  pose proof (tick_undisturbed _ Hs) as Hs2. destruct (ack_outbox _ _ _ _ _ _ _ _) as [r1 db]. intros [= <- <-]. split; [done|].
  intros o t Hr Ht. apply rbind_Ok in Hr as (_ & _ & [= <-]). cbn in Ht. injection Ht as <-. eexists. split; [exact Hs|exact Hp].
Qed.

(** A poll whose claimed events are harmless. *)
Lemma poll_undisturbed fuel scope now p r p' : scope_ok scope -> calm_at p ->
  (forall db1 until b db2, moved_on (sh_db (snd p)) db1 ->
     claim_outbox (su_claim su) scope consumer worker_id now until (dc_batch_limit config) db1 = (Ok b, db2) ->
     steps db2 (sh_db (snd p')) -> Forall (harmless scope) (co_events b)) ->
  poll_once sha256 registry_config config consumer worker_id su fuel scope now p = Some (r, p') ->
  calm_at p' /\ nothing_pending scope r.
Proof.
  intros Hsc Hs Hh. unfold poll_once, on_registry. destruct (ready_retries now _) as [r0 es] eqn:E0.
  apply visit_undisturbed in E0 as [Hs0 Ht0]; [|intros e; apply retry_one_spec|intros e; apply still_retried|done].
  destruct r0 as [tickets|]; cbn [map_err]; [|by intros [= <- <-]].
  destruct (execute_tickets _ _ _ _ _ _ _ _) as [[[reruns|e] p1]|] eqn:E1; [| |done];
    pose proof (execute_tickets_moved su su_ok _ _ _ _ _ _ _ E1) as H1;
    apply execute_tickets_undisturbed in E1; try done; try (by apply Ht0); [|by intros [= <- <-]].
  destruct (rbind _ _) as [until|]; [|by intros [= <- <-]]. apply tick_undisturbed in E1.
  pose proof (moved_on_trans _ _ _ H1 (tick_moved su su_ok p1)) as H2. cbn [sh_db with_entries snd] in H2.
  destruct (claim_outbox _ _ _ _ _ _ _ _) as [r2 db2] eqn:E2.
  destruct r2 as [claim|e2]; [|destruct e2; intros [= <- <-]; (split; [done|]); try done; by apply nothing_acknowledged].
  case_bool_decide; [intros [= <- <-]; split; [done|by apply nothing_acknowledged]|].
  destruct (mark_events _ _ _ _ _) as [r3 p3] eqn:E3. pose proof (mark_events_moved su su_ok _ _ _ _ _ _ E3) as [H3 _].
  cbn [sh_db with_db snd] in H3. intros Hrest.
  assert (steps db2 (sh_db (snd p')) -> calm_at p3 /\ forall ts, r3 = Ok ts -> Forall elsewhere ts) as Hmark.
  { intros Hto. eapply mark_events_undisturbed; [|by eapply Hh|exact E3]. exact E1. }
  destruct r3 as [tickets3|]; [|injection Hrest as <- <-; by destruct (Hmark H3)].
  destruct (execute_tickets _ _ _ _ _ _ _ p3) as [[[more|e] p4]|] eqn:E4; [| |done];
    pose proof (execute_tickets_moved su su_ok _ _ _ _ _ _ _ E4) as [H4 _]; assert (steps db2 (sh_db (snd p4))) as H5 by (etrans; [exact H3|exact H4]).
  2:{ injection Hrest as <- <-. destruct (Hmark H5) as [Hs3 Ht3]. split; [|done].
      exact (execute_tickets_undisturbed _ _ _ _ _ _ _ Hs3 (Ht3 _ eq_refl) E4). }
  assert (steps db2 (sh_db (snd p')) -> calm_at p4) as Hend.
  { intros Hto. destruct (Hmark Hto) as [Hs3 Ht3]. exact (execute_tickets_undisturbed _ _ _ _ _ _ _ Hs3 (Ht3 _ eq_refl) E4). }
  destruct (checked_add _ _ _); [|injection Hrest as <- <-; by split; [apply Hend|]]. injection Hrest as Hack.
  eapply acknowledge_undisturbed; [|exact Hack]. apply Hend. etrans; [exact H5|].
  apply acknowledge_databases in Hack as [[H6 _]|(ev & db3 & _ & [H6 _] & ->)]; [done| |done]. etrans; [exact H6|by apply ack_steps].
Qed.
End poll.
End undisturbed.

(** ** A rerun nobody finishes *)

Section abandoned.
Variables (id : SubscriptionId) (generation : Z) (cursor : OutboxCursor) (value : CanonicalValue) (home : EnvironmentScope).
Hypothesis id_stays : ~ removable id.

(** A rerun of the subscription is in progress, for an event at the cursor. *)
Record held (e : Entry) : Prop := {
  hd_scope : sp_scope (sb_spec (en_snapshot e)) = home;
  hd_generation : en_running_generation e = Some generation;
  hd_through : en_running_through e = Some cursor;
  hd_suspended : sb_suspended (en_snapshot e) = false;
  hd_value : sb_value (en_snapshot e) = value
}.

Definition stuck : Entries -> Prop := undisturbed id held.

Lemma held_resumed e : held e -> held (resumed e).
Proof. by intros []. Qed.
Lemma held_marked scope (ev : OutboxEventRecord) impact now e : True -> decode (oe_payload ev) = Ok impact -> held e ->
  fst (mark_one scope (OutboxEventRecord_cursor ev) impact now e) = Ok None
  /\ held (snd (mark_one scope (OutboxEventRecord_cursor ev) impact now e)).
Proof.
  intros _ _ Hh. unfold mark_one. destruct (negb _ || _ || _); [done|]. rewrite (hd_generation _ Hh). cbn [orb]. by destruct Hh.
Qed.
Lemma held_retried now e : held e -> fst (retry_one now e) = Ok None /\ held (snd (retry_one now e)).
Proof. intros Hh. unfold retry_one. by rewrite (hd_generation _ Hh). Qed.

Lemma stuck_pending through es : stuck es -> has_pending_through home through es = false -> cursor_leb cursor through = false.
Proof.
  intros (e & Hg%entry_get_elem & [E1 _ E3 E4 _])%undisturbed_entry Hp. apply not_true_iff_false in Hp. apply not_true_iff_false. intros Hc.
  apply Hp, existsb_exists. exists (id, e). split; [by apply list_elem_of_In|]. cbn [snd].
  rewrite E1, E3, E4, bool_decide_true by done. cbn. by rewrite Hc.
Qed.

Lemma poll_stuck su fuel scope now p r p' : surroundings_ok su -> scope_ok scope -> stuck (sh_entries (snd p)) ->
  poll_once sha256 registry_config config consumer worker_id su fuel scope now p = Some (r, p') ->
  stuck (sh_entries (snd p')) /\ nothing_pending id held scope r.
Proof.
  intros Hsu Hsc Hs. apply (poll_undisturbed id held (fun _ _ => True) id_stays held_resumed held_retried held_marked su Hsu); [done|done|].
  intros. by apply Forall_true.
Qed.

Lemma realtime_stuck w w' : stuck (sh_entries w) -> rtc realtime_step w w' -> stuck (sh_entries w').
Proof.
  intros Hs. induction 1 as [|w w1 w2 [w1' Hc|su fuel scope now r n w1' Hsu Hsc Hp] _ IH]; [done|..]; apply IH.
  - exact (client_undisturbed id held id_stays held_resumed _ _ Hs Hc).
  - exact (proj1 (poll_stuck su fuel scope now (O, w) r (n, w1') Hsu Hsc Hs Hp)).
Qed.

(** C38: A rerun that is left behind stays behind.  When a poll ends while a subscription is marked as
    being rerun, as it is when the rerun of an earlier ticket fails (the witness is such a poll),
    nothing but its removal ends that state: no later poll and no other task reruns the subscription
    or delivers another value for it, and no poll of its Environment acknowledges an event at or after
    the one it was marked for. *)
Theorem abandoned_rerun_stuck w w' : stuck (sh_entries w) -> rtc realtime_step w w' ->
  stuck (sh_entries w')
  /\ forall su fuel now r n w'' o through, surroundings_ok su -> scope_ok home ->
       poll_once sha256 registry_config config consumer worker_id su fuel home now (O, w') = Some (r, (n, w'')) ->
       r = Ok o -> po_acknowledged_through o = Some through -> cursor_leb cursor through = false.
Proof.
  intros Hs Hr. pose proof (realtime_stuck _ _ Hs Hr) as Hs'. split; [done|].
  intros su fuel now r n w'' o through Hsu Hsc Hp Ho Ht.
  destruct (poll_stuck su fuel home now (O, w') r (n, w'') Hsu Hsc Hs' Hp) as [_ Hn].
  destruct (Hn o through Ho Ht) as (es & Hes & Hpend). exact (stuck_pending through es Hes Hpend).
Qed.
End abandoned.

(** ** A change that a registration has missed *)

Section missed.
Variables (id : SubscriptionId) (value : CanonicalValue) (dependencies : list ReadDependency) (base : Db).
Hypothesis id_stays : ~ removable id.

(** The subscription holds the value and owes nothing. *)
Record content (e : Entry) : Prop := {
  ct_scope : sp_scope (sb_spec (en_snapshot e)) = sc;
  ct_value : sb_value (en_snapshot e) = value;
  ct_dependencies : sb_dependencies (en_snapshot e) = dependencies;
  ct_running : en_running_generation e = None;
  ct_dirty : en_dirty_through e = None
}.

(** The event changes nothing the value depends on. *)
Definition untouched (ev : OutboxEventRecord) : Prop :=
  forall impact, decode (oe_payload ev) = Ok impact -> invalidates impact dependencies = false.

Lemma content_resumed e : content e -> content (resumed e).
Proof. by intros []. Qed.
Lemma content_retried now e : content e -> fst (retry_one now e) = Ok None /\ content (snd (retry_one now e)).
Proof. intros Hc. unfold retry_one. destruct (_ || _ || _); [done|]. by rewrite (ct_dirty _ Hc). Qed.
Lemma content_marked scope ev impact now e : (scope = sc -> untouched ev) -> decode (oe_payload ev) = Ok impact -> content e ->
  fst (mark_one scope (OutboxEventRecord_cursor ev) impact now e) = Ok None
  /\ content (snd (mark_one scope (OutboxEventRecord_cursor ev) impact now e)).
Proof.
  intros Hu Hd Hc. unfold mark_one. rewrite (ct_scope _ Hc), (ct_dependencies _ Hc).
  case_bool_decide as Es; cbn [negb orb]; [|done]. rewrite (Hu (eq_sym Es) impact Hd), orb_true_r. done.
Qed.

(** The acknowledged position covers the events of the base. *)
Definition past_base (db : Db) : Prop :=
  forall position, position_of sc consumer db position -> forall ev, stored_event sk base ev -> covered position ev.

Lemma past_base_moved db db' : moved_on db db' -> past_base db -> past_base db'.
Proof. intros [_ Hp] Hb position Hpos. by apply Hb, Hp. Qed.

(** What is claimed comes after the position, and so does what is acknowledged. *)
Lemma claimed_after db o now until limit b db' : claim_outbox o sc consumer worker_id now until limit db = (Ok b, db') ->
  exists position, position_of sc consumer db position
    /\ forall ev, ev ∈ co_events b -> stored_event sk db' ev /\ after position ev.
Proof.
  intros E. pose proof (claim_outbox_Ok _ _ _ _ _ _ _ _ _ _ E) as H. pose proof (oc_cursor _ _ _ _ _ _ _ _ _ H) as Hpos.
  exists (co_acknowledged_through b). split.
  - unfold position_of, the_row. destruct (consumer_row_cursor sk (consumer_str consumer) 0 now db) as [-> ->]. done.
  - intros ev Hev. apply (lq_sound _ _ _ _ (outbox_events_query _ _ _ _ _ _ _ Hpos (oc_events _ _ _ _ _ _ _ _ _ H))) in Hev as [Hst Ha].
    split; [|done]. unfold stored_event. by rewrite (oc_db _ _ _ _ _ _ _ _ _ H).
Qed.

Lemma cursor_cmp_trans x y z : cursor_cmp x y <> Lt -> cursor_cmp x z = Lt -> cursor_cmp z y <> Lt.
Proof.
  unfold cursor_cmp. destruct (Z.compare_spec (oc_commit_sequence x) (oc_commit_sequence y)),
    (Z.compare_spec (oc_commit_sequence x) (oc_commit_sequence z)), (Z.compare_spec (oc_commit_sequence z) (oc_commit_sequence y));
    cbn [cmp_then]; try done; try lia.
  destruct (Z.compare_spec (as_ulid (oc_event_id x)) (as_ulid (oc_event_id y))),
    (Z.compare_spec (as_ulid (oc_event_id x)) (as_ulid (oc_event_id z))),
    (Z.compare_spec (as_ulid (oc_event_id z)) (as_ulid (oc_event_id y))); try done; lia.
Qed.

Lemma past_base_ack scope o clock g db db1 ev : scope_ok scope -> past_base db -> past_base db1 ->
  (scope = sc -> id_ok (oe_event_id ev) /\ exists position, position_of sc consumer db position /\ after position ev) ->
  past_base (snd (ack_outbox o clock scope consumer worker_id g (OutboxEventRecord_cursor ev) db1)).
Proof.
  intros Hsc Hb Hb1 Hafter. destruct (decide (scope = sc)) as [->|Hne].
  - destruct (Hafter eq_refl) as (Hid & position & Hpos & Ha). unfold ack_outbox. destruct (_ || _); [done|]. apply run_txn_inv; [done|].
    intros u db' [(row & t & _ & _ & _ & _ & _ & ->)]%ack_outbox_body_Ok position' Hpos'%acknowledged_position e He; [|done].
    subst position'. specialize (Hb position Hpos e He).
    unfold covered in *. destruct position as [x|]; cbn [after] in *; [by eapply cursor_cmp_trans|by destruct Hb].
  - eapply past_base_moved; [|exact Hb1]. split; [by apply ack_steps|].
    pose proof (quiet_ack sha256 sc consumer db1 o clock scope consumer worker_id g (OutboxEventRecord_cursor ev) Hsc (or_introl Hne)) as Hq.
    apply (quiet_step_quiet sha256 sc consumer sc_ok) in Hq as [[E1 E2] _ _ _].
    intros position. unfold position_of. by rewrite E1, E2.
Qed.

Lemma poll_past_base su fuel scope now p r p' : surroundings_ok su -> scope_ok scope -> past_base (sh_db (snd p)) ->
  poll_once sha256 registry_config config consumer worker_id su fuel scope now p = Some (r, p') -> past_base (sh_db (snd p')).
Proof.
  intros Hsu Hsc Hb [H|(db1 & until & b & db2 & ev & db3 & H1 & Hc & Hl & H3 & ->)]%poll_databases; [by eapply past_base_moved| |done|done].
  pose proof (claim_moved scope (su_claim su) now until (dc_batch_limit config) db1 Hsc) as H2. rewrite Hc in H2. cbn [snd] in H2.
  assert (ev ∈ co_events b) as Hev by (apply last_Some in Hl as [l ->]; set_solver).
  apply (past_base_ack scope _ _ _ db1); [done|by eapply past_base_moved| |].
  - eapply past_base_moved; [eapply moved_on_trans; [exact H2|exact H3]|]. by eapply past_base_moved.
  - intros ->. destruct (claimed_after _ _ _ _ _ _ _ Hc) as (position & Hp & Ha). destruct (Ha ev Hev) as [[Hid _] Haft].
    split; [done|]. by exists position.
Qed.

(** Between a moment when everything is acknowledged and one at which no event since touches it. *)
Lemma realtime_content w w' : past_base (sh_db w) -> undisturbed id content (sh_entries w) -> rtc realtime_step w w' ->
  (forall ev, stored_event sk (sh_db w') ev -> ~ stored_event sk base ev -> untouched ev) ->
  undisturbed id content (sh_entries w').
Proof.
  intros Hb Hu Hr Hquiet. induction Hr as [|w w1 w2 [w1' Hc|su fuel scope now r n w1' Hsu Hsc Hp] Hrest IH]; [done|..];
    (apply IH; [| |done]).
  - eapply past_base_moved; [|exact Hb]. apply clients_moved. by apply rtc_once.
  - exact (client_undisturbed id content id_stays content_resumed _ _ Hu Hc).
  - exact (poll_past_base su fuel scope now (O, w) r (n, w1') Hsu Hsc Hb Hp).
  - refine (proj1 (poll_undisturbed id content (fun scope ev => scope = sc -> untouched ev) id_stays content_resumed content_retried
      content_marked su Hsu fuel scope now (O, w) r (n, w1') Hsc Hu _ Hp)).
    intros db1 until b db2 H1 Hclaim H2. apply Forall_forall. intros ev Hev ->.
    destruct (claimed_after _ _ _ _ _ _ _ Hclaim) as (position & Hpos & Hall). destruct (Hall ev Hev) as [Hst Ha].
    apply Hquiet.
    + eapply (data_steps_events sha256 sc sc_ok); [|exact Hst]. etrans; [exact H2|]. by apply realtime_steps.
    + intros Hst0. exact (past_base_moved _ _ H1 Hb position Hpos ev Hst0 Ha).
Qed.
End missed.

(** C39: What a registration has missed is not made up for.  Take any reachable moment at which the
    consumer's acknowledged position covers all events, and register a subscription with a result; what
    was committed since the run it comes from, and outdates it, is among those events.  Then whatever
    polls and other tasks follow, short of removing the subscription: as long as no further event
    touches what the result depends on, the subscription keeps that result and never owes a rerun, even
    where its Query has long another value (the witness is such a run). *)
Theorem registration_race db0 w spec out snapshot es w' position :
  ~ removable (sp_id spec) -> db_ok db0 -> rtc realtime_step (mkShared db0 []) w ->
  position_of sc consumer (sh_db w) position -> (forall ev, stored_event sk (sh_db w) ev -> covered position ev) ->
  specs (sp_id spec) = spec -> sp_scope spec = sc ->
  register sha256 registry_config spec out (sh_entries w) = (Ok snapshot, es) ->
  rtc realtime_step (with_entries es w) w' ->
  (forall ev impact, stored_event sk (sh_db w') ev -> ~ stored_event sk (sh_db w) ev ->
     decode (oe_payload ev) = Ok impact -> invalidates impact (qo_dependencies out) = false) ->
  exists e, entry_get (sp_id spec) (sh_entries w') = Some e /\ sb_value (en_snapshot e) = qo_value out
    /\ en_running_generation e = None /\ en_dirty_through e = None.
Proof.
  intros Hid Hdb0 Hr Hpos Hall Hspec Hsc Hreg Hrun Hquiet.
  destruct (realtime_world _ _ _ (world_start db0 Hdb0) Hr) as (M & Hw).
  assert (undisturbed (sp_id spec) (content (qo_value out) (qo_dependencies out)) es) as Hu.
  { unfold register in Hreg. destruct (rbind _ _) as [hash|]; [|done]. destruct (entry_get _ _) eqn:Eg; [done|].
    destruct (_ <=? _); [done|]. injection Hreg as _ <-. split; [by apply entry_insert_self|]. apply each_insert; [by split|].
    apply each_intro. intros id e Hin. destruct (each_elem _ _ _ _ (wi_entries _ _ Hw) Hin) as (Es & Ei & _).
    split; [congruence|]. intros ->. by apply (entry_get_None _ _ e) in Eg. }
  assert (past_base (sh_db w) (sh_db (with_entries es w))) as Hb.
  { intros position' Hpos' ev Hev. unfold position_of in *. cbn [sh_db with_entries] in Hpos'. rewrite Hpos in Hpos'.
    injection Hpos' as <-. by apply Hall. }
  destruct (undisturbed_entry _ _ _ (realtime_content (sp_id spec) _ _ (sh_db w) Hid _ _ Hb Hu Hrun
    (fun ev Hst Hnew impact Hd => Hquiet ev impact Hst Hnew Hd))) as (e & Hg & [_ Hv _ Hrg Hdt]).
  by exists e.
Qed.

(** ** Mutations among the other tasks *)

(** The execution of a Mutation is a sequence of steps of the other tasks. *)
Lemma mutation_client timestamp_ms attached invoke wd request operation_id w : rq_scope request = sc ->
  scenario sha256 attached invoke wd request operation_id
    (fun db db' => data_step sha256 sc db db' /\ same_position db db') ->
  db_ok (sh_db w) ->
  rtc client_step w (with_db (snd (execute_on sha256 timestamp_ms attached invoke wd request operation_id (sh_db w))) w).
Proof.
  intros Esc Hsc Hdb. pose proof (execute_on_trace sha256 timestamp_ms attached invoke wd request operation_id
    (fun db db' => data_step sha256 sc db db' /\ same_position db db') (sh_db w)
    (fun d d' H S => data_step_ok _ _ _ _ H (proj1 S)) Hsc Hdb) as Ht.
  assert (forall db db', rtc (fun db db' => data_step sha256 sc db db' /\ same_position db db') db db' ->
    rtc client_step (with_db db w) (with_db db' w)) as Hlift.
  { intros db db'. induction 1 as [|x y z [H1 H2] _ IH]; [done|]. eapply rtc_l; [|exact IH]. by apply (client_data (with_db x w)). }
  replace w with (with_db (sh_db w) w) at 1 by by destruct w. apply Hlift, Ht.
  intros self schema grants n db v b [o clock] db' Hp Hdb1 Ha Hdb'.
  destruct (prepare_ok sha256 _ _ _ _ _ _ _ (sc_attached _ _ _ _ _ _ _ Hsc) (sc_request _ _ _ _ _ _ _ Hsc)
    (sc_operation _ _ _ _ _ _ _ Hsc) Hp) as (Hself & Es & Hschema).
  pose proof (attempt_published sha256 self schema grants invoke wd n db v b Hself Hschema
    (sc_handler _ _ _ _ _ _ _ Hsc grants n) Hdb1 Ha) as P. rewrite Es, Esc in P. split; [by apply data_mutation|].
  pose proof (quiet_commit sha256 sc consumer db' o clock b (pb_wf _ _ P)) as Hq.
  apply (quiet_step_quiet sha256 sc consumer sc_ok) in Hq as [[E1 E2] _ _ _].
  intros position. unfold position_of. cbn [fst snd]. by rewrite E1, E2.
Qed.
End subscriptions.

(** ** An example *)

(** Subscriptions to the member's team. *)
Definition watch_spec (id : SubscriptionId) : SubscriptionSpec :=
  mkSubscriptionSpec id sample_scope (from_ulid 5) (PC_Release (from_ulid 5)) (mkFunctionName (text "watch")) CV_Null 1%positive 1000000.
Definition watcher : SubscriptionId := from_ulid 50.
Definition second_watcher : SubscriptionId := from_ulid 51.
Definition realtime : OutboxConsumerName := mkOutboxConsumerName (text "realtime").
Definition dispatcher_worker : WorkerId := from_ulid 60.

(** Registrations at any time, and only of results that no event outdates. *)
Definition at_any_time (id : SubscriptionId) (db0 db : Db) (out : QueryOutcome) : Prop := True.
Definition in_time (id : SubscriptionId) (db0 db : Db) (out : QueryOutcome) : Prop :=
  forall e, ~ outdates sample_scope db (reached sample_scope db0) (qo_dependencies out) e.

(** Nobody else is around; the subscriptions in [failing] fail to run. *)
Definition team_surroundings (failing : SubscriptionId -> bool) : Surroundings :=
  mkSurroundings (fun _ w => w)
    (fun _ spec db =>
       if failing (sp_id spec) then Err (mkSubscriptionRunFailure (text "RUNTIME_OVERLOADED") true)
       else map_err SubscriptionRunFailure_from (query_session (LS := sqlite_store team_sha) sample_scope db no_read_faults W_Ready watch))
    TO_Commit TO_Commit (Some 200).

Definition team_poll (failing : SubscriptionId -> bool) (now : Z) (w : Shared) : option (result DispatcherError PollOutcome * Progress) :=
  poll_once team_sha REGISTRY_PRODUCTION DISPATCHER_PRODUCTION realtime dispatcher_worker (team_surroundings failing) 2
    sample_scope now (O, w).
Definition after_poll (failing : SubscriptionId -> bool) (now : Z) (w : Shared) : Shared :=
  match team_poll failing now w with Some (_, (_, w')) => w' | None => w end.

Definition watching (id : SubscriptionId) (w : Shared) : Shared :=
  with_entries (snd (register team_sha REGISTRY_PRODUCTION (watch_spec id) watched_red (sh_entries w))) w.
Definition moved (w : Shared) : Shared := with_db (snd (team_execute (move "blue") id 22 (sh_db w))) w.

(** The member is watched, changes the team, and the dispatcher polls. *)
Definition w_started : Shared := watching watcher (mkShared db_red []).
Definition w_moved : Shared := moved w_started.
Definition w_polled : Shared := after_poll (fun _ => false) 100 w_moved.

Lemma team_surroundings_ok failing removable registers :
  surroundings_ok team_sha REGISTRY_PRODUCTION realtime (fun _ => watch) watch_spec sample_scope removable registers (team_surroundings failing).
Proof.
  split; [done|]. intros n spec db out _. cbn [su_rerun team_surroundings]. destruct (failing _); [done|].
  intros Hq%map_err_Ok. by exists no_read_faults, W_Ready.
Qed.

Lemma team_poll_step failing now w r n w' removable registers : team_poll failing now w = Some (r, (n, w')) ->
  realtime_step team_sha REGISTRY_PRODUCTION DISPATCHER_PRODUCTION realtime dispatcher_worker (fun _ => watch) watch_spec
    sample_scope removable registers w w'.
Proof.
  intros H. exact (realtime_poll team_sha REGISTRY_PRODUCTION DISPATCHER_PRODUCTION realtime dispatcher_worker (fun _ => watch)
    watch_spec sample_scope removable registers w _ 2 sample_scope now r n w' (team_surroundings_ok failing removable registers) ltac:(done) H).
Qed.

Lemma after_poll_step failing now w removable registers : match team_poll failing now w with Some _ => true | None => false end = true ->
  realtime_step team_sha REGISTRY_PRODUCTION DISPATCHER_PRODUCTION realtime dispatcher_worker (fun _ => watch) watch_spec
    sample_scope removable registers w (after_poll failing now w).
Proof.
  unfold after_poll. destruct (team_poll failing now w) as [[r [n w']]|] eqn:E; [|done]. intros _. by eapply team_poll_step.
Qed.

(** The Mutation that moves the member, as steps of the clients. *)
Lemma moved_steps w removable registers : db_ok (sh_db w) ->
  rtc (client_step team_sha REGISTRY_PRODUCTION realtime (fun _ => watch) watch_spec sample_scope removable registers) w (moved w).
Proof.
  intros Hdb. apply (mutation_client team_sha REGISTRY_PRODUCTION realtime (fun _ => watch) watch_spec sample_scope removable registers
    ltac:(done) (fun _ => 1) (Some team_catalog) (fun _ _ => move "blue") (calm id) team_request (from_ulid 22) w eq_refl); [|done].
  refine (team_scenario (move "blue") id 22 _ (move_ok "blue" _) _ (fun db _ => rtc_refl _ db)); done.
Qed.

Lemma watching_step id db removable registers : registers id db_red db watched_red ->
  rtc (data_step team_sha sample_scope) db_red db -> forall es,
  client_step team_sha REGISTRY_PRODUCTION realtime (fun _ => watch) watch_spec sample_scope removable registers
    (mkShared db es) (watching id (mkShared db es)).
Proof.
  intros Ho Hs es. apply (client_register team_sha REGISTRY_PRODUCTION realtime (fun _ => watch) watch_spec sample_scope removable
    registers (mkShared db es) (watch_spec id) watched_red eq_refl).
  intros _. exists db_red. split; [exact db_red_ok|]. split; [exact Hs|]. split; [|exact Ho].
  exists no_read_faults, W_Ready. exact watch_red.
Qed.

Abbreviation team_step removable registers := (realtime_step team_sha REGISTRY_PRODUCTION DISPATCHER_PRODUCTION realtime dispatcher_worker
  (fun _ => watch) watch_spec sample_scope removable registers).

Lemma red_not_outdated : outdating sample_scope db_red (reached sample_scope db_red) (qo_dependencies watched_red) = false.
Proof. by vm_compute. Qed.
Lemma red_in_time id : in_time id db_red db_red watched_red.
Proof. exact (outdating_spec _ _ _ _ red_not_outdated). Qed.

Lemma clients_realtime removable registers w w' :
  rtc (client_step team_sha REGISTRY_PRODUCTION realtime (fun _ => watch) watch_spec sample_scope removable registers) w w' ->
  rtc (team_step removable registers) w w'.
Proof. intros H. eapply rtc_subrel; [|exact H]. intros x y. apply realtime_client. Qed.

Lemma w_moved_steps removable : rtc (team_step removable in_time) (mkShared db_red []) w_moved.
Proof.
  eapply rtc_l; [apply realtime_client; exact (watching_step watcher db_red removable in_time (red_in_time watcher) (rtc_refl _ _) [])|].
  apply clients_realtime. exact (moved_steps w_started removable in_time db_red_ok).
Qed.

Lemma w_polled_steps removable : rtc (team_step removable in_time) (mkShared db_red []) w_polled.
Proof.
  eapply rtc_r; [apply w_moved_steps|]. apply after_poll_step. by vm_compute.
Qed.

Definition w_polled_entry : Entry :=
  match entry_get watcher (sh_entries w_polled) with Some e => e | None => mkEntry (new_snapshot (watch_spec watcher) watched_red []) [] None 0 None None None 0 end.
Definition w_polled_position : option OutboxCursor := Some (mkOutboxCursor 2 (from_ulid 22)).

Lemma w_polled_entry_is : entry_get watcher (sh_entries w_polled) = Some w_polled_entry.
Proof. by vm_compute. Qed.

Lemma w_polled_facts : sp_scope (sb_spec (en_snapshot w_polled_entry)) = sample_scope
  /\ en_running_generation w_polled_entry = None /\ en_dirty_through w_polled_entry = None
  /\ (en_next_generation w_polled_entry <? u64_max) = true /\ sb_value (en_snapshot w_polled_entry) = team "blue".
Proof. by vm_compute. Qed.

Lemma w_polled_position_is : position_of sample_scope realtime (sh_db w_polled) w_polled_position.
Proof. by vm_compute. Qed.

(** A test that a position covers every event. *)
Lemma all_covered sc db cursor :
  forallb (fun e => match cursor_cmp cursor (OutboxEventRecord_cursor e) with Lt => false | _ => true end) (stored_events sc db) = true ->
  forall ev, stored_event (scope_key sc) db ev -> covered (Some cursor) ev.
Proof.
  intros H ev Hin%stored_events_spec%list_elem_of_In. rewrite forallb_forall in H. specialize (H ev Hin).
  unfold covered. cbn [after]. intros E. by rewrite E in H.
Qed.

Lemma w_polled_tested : forallb (fun e => match cursor_cmp (mkOutboxCursor 2 (from_ulid 22)) (OutboxEventRecord_cursor e) with
  Lt => false | _ => true end) (stored_events sample_scope (sh_db w_polled)) = true.
Proof. by vm_compute. Qed.

Lemma subscriptions_current_witness : exists out,
  query_session (LS := sqlite_store team_sha) sample_scope (sh_db w_polled) no_read_faults W_Ready watch = Ok out
  /\ qo_value out = sb_value (en_snapshot w_polled_entry).
Proof.
  destruct w_polled_facts as (H1 & H2 & H3 & H4 & _).
  exact (subscriptions_current team_sha REGISTRY_PRODUCTION DISPATCHER_PRODUCTION realtime dispatcher_worker (fun _ => watch)
    watch_spec sample_scope (fun _ => True) in_time (proj1 scopes_ok) db_red w_polled watcher w_polled_entry w_polled_position
    (fun _ => watch_ok) (fun _ _ _ H => H) db_red_ok (w_polled_steps _) w_polled_entry_is H1 H2 H3 (proj1 (Z.ltb_lt _ _) H4) w_polled_position_is
    (all_covered _ _ _ w_polled_tested)).
Defined.

Lemma poll_terminates_witness : exists r n w',
  poll_once team_sha REGISTRY_PRODUCTION DISPATCHER_PRODUCTION realtime dispatcher_worker (team_surroundings (fun _ => true)) 2
    sample_scope 200 (O, w_polled) = Some (r, (n, w')).
Proof.
  exact (poll_terminates team_sha REGISTRY_PRODUCTION DISPATCHER_PRODUCTION realtime dispatcher_worker (fun _ => watch)
    watch_spec sample_scope (fun _ => True) in_time (proj1 scopes_ok) db_red w_polled (team_surroundings (fun _ => true)) 0 sample_scope 200
    db_red_ok (w_polled_steps _) (team_surroundings_ok _ _ _) (proj1 scopes_ok)).
Defined.

(** Two watchers; the rerun of the first fails. *)
Definition w_failed : Shared :=
  after_poll (fun id => bool_decide (id = watcher)) 100 (moved (watching second_watcher w_started)).
Definition w_failed_later : Shared := after_poll (fun _ => false) 100000000 w_failed.

Lemma w_failed_entries : exists e1 e2, sh_entries w_failed = [(watcher, e1); (second_watcher, e2)]
  /\ sp_id (sb_spec (en_snapshot e1)) = watcher /\ sp_id (sb_spec (en_snapshot e2)) = second_watcher
  /\ held 1 (mkOutboxCursor 1 (from_ulid 20)) (team "red") sample_scope e2.
Proof.
  vm_compute. eexists _, _. split; [reflexivity|]. split; [reflexivity|]. split; [reflexivity|]. by split.
Qed.

Lemma w_failed_stuck : stuck second_watcher 1 (mkOutboxCursor 1 (from_ulid 20)) (team "red") sample_scope (sh_entries w_failed).
Proof.
  destruct w_failed_entries as (e1 & e2 & -> & E1 & E2 & Hh). split; [right; left|].
  constructor; [|constructor; [|constructor]]; (split; [done|]); [by intros [=]|done].
Qed.

Lemma abandoned_rerun_stuck_witness :
  stuck second_watcher 1 (mkOutboxCursor 1 (from_ulid 20)) (team "red") sample_scope (sh_entries w_failed_later).
Proof.
  refine (proj1 (abandoned_rerun_stuck team_sha REGISTRY_PRODUCTION DISPATCHER_PRODUCTION realtime dispatcher_worker (fun _ => watch)
    watch_spec sample_scope (fun _ => False) at_any_time second_watcher 1 (mkOutboxCursor 1 (from_ulid 20)) (team "red") sample_scope
    (fun H => H) w_failed w_failed_later w_failed_stuck (rtc_once _ _ (after_poll_step _ _ _ _ _ _)))).
  by vm_compute.
Defined.

(** The race: the Query runs, the member changes the team, a poll acknowledges all events, the
    subscription is registered with what the Query had returned, and the dispatcher polls again. *)
Definition w_acknowledged : Shared := after_poll (fun _ => false) 100 (moved (mkShared db_red [])).
Definition w_late : Shared := watching watcher w_acknowledged.
Definition w_late_polled : Shared := after_poll (fun _ => false) 200 w_late.

Lemma w_acknowledged_steps : rtc (team_step (fun _ => False) at_any_time) (mkShared db_red []) w_acknowledged.
Proof.
  eapply rtc_r; [apply clients_realtime; exact (moved_steps (mkShared db_red []) (fun _ => False) at_any_time db_red_ok)|].
  apply after_poll_step. by vm_compute.
Qed.

Lemma w_acknowledged_position : position_of sample_scope realtime (sh_db w_acknowledged) w_polled_position.
Proof. by vm_compute. Qed.
Lemma w_acknowledged_tested : forallb (fun e => match cursor_cmp (mkOutboxCursor 2 (from_ulid 22)) (OutboxEventRecord_cursor e) with
  Lt => false | _ => true end) (stored_events sample_scope (sh_db w_acknowledged)) = true.
Proof. by vm_compute. Qed.

Lemma late_registration : exists snapshot,
  fst (register team_sha REGISTRY_PRODUCTION (watch_spec watcher) watched_red (sh_entries w_acknowledged)) = Ok snapshot.
Proof. eexists. vm_compute. reflexivity. Qed.

Lemma late_poll_step : team_step (fun _ => False) at_any_time w_late w_late_polled.
Proof. apply after_poll_step. by vm_compute. Qed.

Lemma late_rows : map_to_list (outbox (sh_db w_late_polled)) = map_to_list (outbox (sh_db w_acknowledged)).
Proof. vm_compute. reflexivity. Qed.
Lemma late_outbox : outbox (sh_db w_late_polled) = outbox (sh_db w_acknowledged).
Proof. apply map_to_list_inj. by rewrite late_rows. Qed.
Lemma late_event ev : stored_event (scope_key sample_scope) (sh_db w_late_polled) ev ->
  stored_event (scope_key sample_scope) (sh_db w_acknowledged) ev.
Proof. unfold stored_event. by rewrite late_outbox. Qed.

Lemma late_value : match query_session (LS := sqlite_store team_sha) sample_scope (sh_db w_late_polled) no_read_faults W_Ready watch with
  Ok out => Some (qo_value out) | Err _ => None end = Some (team "blue").
Proof. by vm_compute. Qed.

Lemma registration_race_witness :
  (exists e, entry_get watcher (sh_entries w_late_polled) = Some e /\ sb_value (en_snapshot e) = team "red"
     /\ en_running_generation e = None /\ en_dirty_through e = None)
  /\ match query_session (LS := sqlite_store team_sha) sample_scope (sh_db w_late_polled) no_read_faults W_Ready watch with
     Ok out => Some (qo_value out) | Err _ => None end = Some (team "blue").
Proof.
  split; [|exact late_value]. destruct late_registration as [snapshot Hreg].
  exact (registration_race team_sha REGISTRY_PRODUCTION DISPATCHER_PRODUCTION realtime dispatcher_worker (fun _ => watch)
    watch_spec sample_scope (fun _ => False) at_any_time (proj1 scopes_ok) db_red w_acknowledged (watch_spec watcher) watched_red snapshot
    _ w_late_polled w_polled_position (fun H => H) db_red_ok w_acknowledged_steps w_acknowledged_position
    (all_covered _ _ _ w_acknowledged_tested) eq_refl eq_refl
    (eq_trans (surjective_pairing (register team_sha REGISTRY_PRODUCTION (watch_spec watcher) watched_red (sh_entries w_acknowledged)))
       (f_equal (fun r => (r, _)) Hreg))
    (rtc_once _ _ late_poll_step)
    (fun ev impact Hst Hnew _ => match Hnew (late_event ev Hst) with end)).
Defined.
