(* ===== verification/CronRepository.v ===== *)
(** * The Cron activation repository: [crates/runku-cron/src/model.rs] and [adapter.rs]

    Commands that enable and disable the Cron definitions of a release manifest, leases on the enabled
    ones that are due, and the completion that moves a definition's cursor to its next tick.

    The tables are finite maps from primary keys to rows; a transaction is a function of them, and its
    commit may fail after it took effect.  The backend is SQLite, whose pool has one connection, so that
    transactions do not overlap.  Connecting, migrating and telemetry are left out. *)

From Stdlib Require Import Strings.Byte ZArith Lia.
From stdpp Require Import prelude strings gmap sorting list.
From S2P Require Import Prelude Order Codec Ulid Value StoredValue IndexKey Core Release Cron Manifest StoreModel Sql SqliteStore.

(** ** Errors *)

Inductive CronError : Type :=
| CE_InvalidInput | CE_InvalidManifest | CE_Conflict | CE_Corruption | CE_LeaseLost | CE_LimitExceeded
| CE_Unavailable | CE_ResultUncertain | CE_Unsupported.

Definition CronError_code (e : CronError) : bytes :=
  match e with
  | CE_InvalidInput => text "CRON_INPUT_INVALID"
  | CE_InvalidManifest => text "CRON_MANIFEST_INVALID"
  | CE_Conflict => text "CRON_CONFLICT"
  | CE_Corruption => text "CRON_CORRUPTION"
  | CE_LeaseLost => text "CRON_LEASE_LOST"
  | CE_LimitExceeded => text "CRON_LIMIT_EXCEEDED"
  | CE_Unavailable => text "CRON_UNAVAILABLE"
  | CE_ResultUncertain => text "CRON_RESULT_UNCERTAIN"
  | CE_Unsupported => text "CRON_BACKEND_UNSUPPORTED"
  end.
Definition CronError_retryable (e : CronError) : bool :=
  match e with CE_Unavailable | CE_ResultUncertain => true | _ => false end.

(** ** Activations *)

Record CronContext : Type := mkCronContext { cx_scope : EnvironmentScope; cx_environment : EnvironmentDescriptor }.

#[export] Instance EnvironmentPurpose_eq_dec : EqDecision EnvironmentPurpose.
Proof. solve_decision. Defined.
#[export] Instance EnvironmentProtection_eq_dec : EqDecision EnvironmentProtection.
Proof. solve_decision. Defined.
#[export] Instance EnvironmentLocation_eq_dec : EqDecision EnvironmentLocation.
Proof. solve_decision. Defined.
#[export] Instance EnvironmentDescriptor_eq_dec : EqDecision EnvironmentDescriptor.
Proof. solve_decision. Defined.
#[export] Instance CronContext_eq_dec : EqDecision CronContext.
Proof. solve_decision. Defined.

Definition CronContext_validate (self : CronContext) : result CronError unit :=
  if bool_decide (environment_id (cx_scope self) <> ed_id (cx_environment self)) then Err CE_InvalidInput else Ok tt.

Record CronActivation : Type := mkCronActivation {
  ca_name : CronName;
  ca_activation_revision : Z;
  ca_pinned_code : PinnedCode;
  ca_release_id : ReleaseId;
  ca_schedule : CronSchedule;
  ca_function : FunctionName;
  ca_args : CanonicalValue;
  ca_next_tick : Z;
  ca_lease_generation : Z;
  ca_lease_owner : option WorkerId;
  ca_lease_until : option Z
}.

Definition CronActivation_validate (self : CronActivation) : result CronError unit :=
  let leased := match ca_lease_owner self with Some _ => true | None => false end in
  if (ca_activation_revision self =? 0) || (ca_next_tick self <? 0) || negb (is_ok (encode_stored_value (ca_args self)))
     || negb (eqb leased match ca_lease_until self with Some _ => true | None => false end)
     || (leased && (ca_lease_generation self =? 0))
  then Err CE_Corruption else Ok tt.

Record CronSnapshot : Type := mkCronSnapshot {
  cs_repository_revision : Z;
  cs_activations : list CronActivation;
  cs_disabled_definitions : list CronName
}.

(** [previous.is_some_and(|name| name >= next)] *)
Definition not_before (previous : option CronName) (name : CronName) : bool :=
  match previous with
  | Some p => match bytes_cmp (cron_name_str p) (cron_name_str name) with Lt => false | _ => true end
  | None => false
  end.

Definition CronSnapshot_validate (self : CronSnapshot) : result CronError unit :=
  let? _ := try_fold (fun previous a =>
      let? _ := CronActivation_validate a in
      if (cs_repository_revision self <? ca_activation_revision a) || not_before previous (ca_name a)
      then Err CE_Corruption else Ok (Some (ca_name a))) None (cs_activations self) in
  let? _ := try_fold (fun previous name =>
      if not_before previous name || existsb (fun a => bool_decide (ca_name a = name)) (cs_activations self)
      then Err CE_Corruption else Ok (Some name)) None (cs_disabled_definitions self) in
  Ok tt.

(** ** Commands *)

Inductive CronCommand : Type :=
| CC_ActivateManifest (expected_revision : Z) (pinned_code : PinnedCode) (manifest_bytes : bytes) (activated_at : Z)
| CC_DeactivateAll (expected_revision deactivated_at : Z)
| CC_SetDefinition (expected_revision : Z) (pinned_code : PinnedCode) (manifest_bytes : bytes) (name : CronName)
    (enabled : bool) (changed_at : Z).

Record CronCommandResult : Type := mkCronCommandResult {
  cq_repository_revision : Z;
  cq_active_definitions : Z;
  cq_replayed : bool
}.

Section commands.
Context {UL : UlidLib}.

(** [matches!(pinned_code, PinnedCode::Release(id) if *id != manifest.release_id)] *)
Definition pin_drift (pinned_code : PinnedCode) (manifest : ReleaseManifestV1) : bool :=
  match pinned_code with PC_Release id => bool_decide (id <> release_id manifest) | _ => false end.

(** The manifest of a command, if its bytes are the canonical ones of the project's manifest. *)
Definition command_manifest (context : CronContext) (pinned_code : PinnedCode) (manifest_bytes : bytes)
  : result CronError (ReleaseManifestV1 * bool) :=
  let? manifest := map_err (fun _ => CE_InvalidManifest) (decode_release_manifest manifest_bytes) in
  let? canonical := map_err (fun _ => CE_InvalidManifest) (encode_release_manifest manifest) in
  Ok (manifest, bool_decide (canonical <> manifest_bytes)
                || bool_decide (Manifest.project_id manifest <> Core.project_id (cx_scope context))
                || pin_drift pinned_code manifest).

Definition CronCommand_validate (self : CronCommand) (context : CronContext)
  : result CronError (option ReleaseManifestV1) :=
  let? _ := CronContext_validate context in
  match self with
  | CC_ActivateManifest _ pinned_code manifest_bytes activated_at =>
      if activated_at <? 0 then Err CE_InvalidInput else
      let? (manifest, refused) := command_manifest context pinned_code manifest_bytes in
      if refused || bool_decide (cron_definitions manifest = []) then Err CE_InvalidManifest else Ok (Some manifest)
  | CC_DeactivateAll _ deactivated_at => if deactivated_at <? 0 then Err CE_InvalidInput else Ok None
  | CC_SetDefinition _ pinned_code manifest_bytes name _ changed_at =>
      if changed_at <? 0 then Err CE_InvalidInput else
      let? (manifest, refused) := command_manifest context pinned_code manifest_bytes in
      if refused || negb (existsb (fun d => bool_decide (cron_name d = name)) (cron_definitions manifest))
      then Err CE_InvalidManifest else Ok (Some manifest)
  end.

Definition expected_revision (self : CronCommand) : Z :=
  match self with
  | CC_ActivateManifest r _ _ _ | CC_DeactivateAll r _ | CC_SetDefinition r _ _ _ _ _ => r
  end.

Definition command_time (self : CronCommand) : Z :=
  match self with
  | CC_ActivateManifest _ _ _ t | CC_DeactivateAll _ t | CC_SetDefinition _ _ _ _ _ t => t
  end.

Definition CronCommand_digest (sha256 : bytes -> bytes) (self : CronCommand) (context : CronContext) : result CronError bytes :=
  let? _ := CronCommand_validate self context in
  let head := text "RUNKU_CRON_COMMAND_V1" ++ [x00] ++ id_to_string (Core.project_id (cx_scope context)) ++ [x00]
              ++ id_to_string (environment_id (cx_scope context)) ++ to_be 8 (expected_revision self) in
  Ok (sha256 (head ++
    match self with
    | CC_ActivateManifest _ pinned_code manifest_bytes activated_at =>
        [x01] ++ PinnedCode_to_string pinned_code ++ to_be 8 (cast_unsigned activated_at) ++ manifest_bytes
    | CC_DeactivateAll _ deactivated_at => [x02] ++ to_be 8 (cast_unsigned deactivated_at)
    | CC_SetDefinition _ pinned_code manifest_bytes name enabled changed_at =>
        [x03] ++ PinnedCode_to_string pinned_code ++ [x00] ++ cron_name_str name ++ [if enabled then x01 else x00]
        ++ to_be 8 (cast_unsigned changed_at) ++ manifest_bytes
    end)).
End commands.

(** ** Tables *)

Record ActivationRow : Type := mkActivationRow {
  a_activation_revision : Z;
  a_pinned_code : bytes;
  a_release_id : bytes;
  a_schedule : bytes;
  a_function_name : bytes;
  a_args_bytes : bytes;
  a_next_tick : Z;
  a_lease_generation : Z;
  a_lease_owner : option bytes;
  a_lease_until : option Z;
  a_updated_at : Z
}.
Record CronOperationRow : Type := mkCronOperationRow {
  co_command_digest : bytes; co_repository_revision : Z; co_active_definitions : Z; co_created_at : Z
}.
Record DisabledRow : Type := mkDisabledRow { dd_updated_revision : Z; dd_updated_at : Z }.

Record CronDb : Type := mkCronDb {
  cron_environments : gmap skey Z;
  cron_activations : gmap (skey * bytes) ActivationRow;
  cron_operations : gmap (skey * bytes) CronOperationRow;
  cron_disabled : gmap (skey * bytes) DisabledRow
}.
Definition empty_cron_db : CronDb := mkCronDb ∅ ∅ ∅ ∅.

Definition set_activations (m : gmap (skey * bytes) ActivationRow) (db : CronDb) : CronDb :=
  mkCronDb (cron_environments db) m (cron_operations db) (cron_disabled db).
Definition set_disabled (m : gmap (skey * bytes) DisabledRow) (db : CronDb) : CronDb :=
  mkCronDb (cron_environments db) (cron_activations db) (cron_operations db) m.

(** ** Transactions *)

Inductive CronSqlxError : Type := CQ_RowNotFound | CQ_ColumnNotFound | CQ_ColumnDecode | CQ_Other.

Definition cron_map_sqlx_error (error : CronSqlxError) : CronError :=
  match error with CQ_RowNotFound | CQ_ColumnNotFound | CQ_ColumnDecode => CE_Corruption | CQ_Other => CE_Unavailable end.

(** What the environment does to a transaction: it works, a statement fails, or the final step fails,
    having taken effect or not. *)
Inductive CronTxn : Type := CT_Commit | CT_StatementFailed (error : CronSqlxError) | CT_CommitFailed (applied : bool).

(** A body ends with the tables to commit, or rolls back and still has a result. *)
Definition cron_txn {A} (o : CronTxn) (body : CronDb -> result CronError (A * option CronDb)) (db : CronDb)
  : result CronError A * CronDb :=
  match o with
  | CT_StatementFailed e => (Err (cron_map_sqlx_error e), db)
  | CT_Commit => match body db with Ok (a, o) => (Ok a, default db o) | Err e => (Err e, db) end
  | CT_CommitFailed applied =>
      match body db with
      | Ok (a, Some db') => (Err CE_ResultUncertain, if applied then db' else db)
      | Ok (a, None) => (Err CE_Unavailable, db)
      | Err e => (Err e, db)
      end
  end.

Definition cron_positive_i64 (value : Z) : result CronError Z :=
  if (0 <? value) && (value <=? i64_max) then Ok value else Err CE_LimitExceeded.
Definition cron_positive_u64 (value : Z) : result CronError Z := if 0 <? value then Ok value else Err CE_Corruption.
Definition cron_nonnegative_u64 (value : Z) : result CronError Z := if 0 <=? value then Ok value else Err CE_Corruption.
Definition cron_nonnegative_u32 (value : Z) : result CronError Z :=
  if (0 <=? value) && (value <=? u32_max) then Ok value else Err CE_Corruption.

Section repository.
Context {UL : UlidLib}.

(** ** Rows *)

Definition parse_column {E T} (parse : bytes -> result E T) (value : bytes) : result CronError T :=
  map_err (fun _ => CE_Corruption) (parse value).

Definition decode_activation (name : bytes) (row : ActivationRow) : result CronError CronActivation :=
  let? name := parse_column CronName_from_str name in
  let? revision := cron_positive_u64 (a_activation_revision row) in
  let? pinned := parse_column PinnedCode_from_str (a_pinned_code row) in
  let? release := parse_column (id_from_str ReleaseK) (a_release_id row) in
  let? schedule := parse_column CronSchedule_from_str (a_schedule row) in
  let? function := parse_column FunctionName_from_str (a_function_name row) in
  let? args := parse_column decode_stored_value (a_args_bytes row) in
  let? generation := cron_nonnegative_u64 (a_lease_generation row) in
  let? owner :=
    match a_lease_owner row with
    | Some w => let? w := parse_column (id_from_str WorkerK) w in Ok (Some w)
    | None => Ok None
    end in
  let activation := mkCronActivation name revision pinned release schedule function args (a_next_tick row) generation
                      owner (a_lease_until row) in
  let? _ := CronActivation_validate activation in
  Ok activation.

Definition delete_all (sk : skey) (db : CronDb) : CronDb :=
  set_activations (filter (fun r => fst (fst r) <> sk) (cron_activations db)) db.

Definition insert_activation (sk : skey) (revision : Z) (pinned_code : PinnedCode) (release : ReleaseId)
  (definition : CronDefinition) (changed_at : Z) (db : CronDb) : result CronError CronDb :=
  let? next_tick := map_err (fun _ => CE_InvalidManifest) (next_after (cron_schedule definition) changed_at) in
  let? args := map_err (fun _ => CE_InvalidManifest) (encode_stored_value (cron_args definition)) in
  let key := (sk, cron_name_str (cron_name definition)) in
  if bool_decide (is_Some (cron_activations db !! key)) then Err CE_Unavailable else
  Ok (set_activations
    (<[key := mkActivationRow revision (PinnedCode_to_string pinned_code) (id_to_string release)
                (canonical (cron_schedule definition)) (function_str (cron_function definition)) args next_tick 0 None None
                changed_at]> (cron_activations db)) db).

(** ** Commands *)

(** The changes of one command at the new revision. *)
Definition apply_change (sk : skey) (next : Z) (command : CronCommand) (manifest : option ReleaseManifestV1) (db : CronDb)
  : result CronError CronDb :=
  match command, manifest with
  | CC_ActivateManifest _ pinned_code _ activated_at, Some manifest =>
      try_fold (fun db definition =>
        if bool_decide (is_Some (cron_disabled db !! (sk, cron_name_str (cron_name definition)))) then Ok db
        else insert_activation sk next pinned_code (release_id manifest) definition activated_at db)
        (delete_all sk db) (cron_definitions manifest)
  | CC_DeactivateAll _ _, None => Ok (delete_all sk db)
  | CC_SetDefinition _ pinned_code _ name enabled changed_at, Some manifest =>
      let key := (sk, cron_name_str name) in
      let db := set_activations (delete key (cron_activations db)) db in
      if enabled then
        let db := set_disabled (delete key (cron_disabled db)) db in
        let? definition := ok_or CE_InvalidManifest
          (List.find (fun d => bool_decide (cron_name d = name)) (cron_definitions manifest)) in
        insert_activation sk next pinned_code (release_id manifest) definition changed_at db
      else Ok (set_disabled (<[key := mkDisabledRow next changed_at]> (cron_disabled db)) db)
  | _, _ => Err CE_Corruption
  end.

Definition active_definitions (sk : skey) (db : CronDb) : Z :=
  len (filter (fun r => fst (fst r) = sk) (map_to_list (cron_activations db))).

Definition apply_inner (context : CronContext) (operation_id : OperationId) (command : CronCommand)
  (manifest : option ReleaseManifestV1) (digest : bytes) (db : CronDb)
  : result CronError (CronCommandResult * option CronDb) :=
  let sk := scope_key (cx_scope context) in
  let current := default 0 (cron_environments db !! sk) in
  let op := id_to_string operation_id in
  match cron_operations db !! (sk, op) with
  | Some row =>
      if bool_decide (co_command_digest row <> digest) then Err CE_Conflict else
      let? revision := cron_positive_u64 (co_repository_revision row) in
      let? count := cron_nonnegative_u32 (co_active_definitions row) in
      Ok (mkCronCommandResult revision count true, None)
  | None =>
      let? revision := cron_nonnegative_u64 current in
      if negb (revision =? expected_revision command) then Err CE_Conflict else
      let? next := ok_or CE_LimitExceeded (checked_i64 (current + 1)) in
      let? db := apply_change sk next command manifest db in
      let? count := cron_nonnegative_u32 (active_definitions sk db) in
      Ok (mkCronCommandResult next count false,
          Some (mkCronDb (<[sk := next]> (cron_environments db)) (cron_activations db)
                  (<[(sk, op) := mkCronOperationRow digest next count (command_time command)]> (cron_operations db))
                  (cron_disabled db)))
  end.

(** ** The repository, opened for one context *)

Variables (sha256 : bytes -> bytes) (self : CronContext).

Definition validate_context (context : CronContext) : result CronError unit :=
  let? _ := CronContext_validate context in
  if bool_decide (context <> self) then Err CE_InvalidInput else Ok tt.

Definition apply (o : CronTxn) (context : CronContext) (operation_id : OperationId) (command : CronCommand) (db : CronDb)
  : result CronError CronCommandResult * CronDb :=
  match (let? _ := validate_context context in
         let? manifest := CronCommand_validate command context in
         let? digest := CronCommand_digest sha256 command context in Ok (manifest, digest)) with
  | Err e => (Err e, db)
  | Ok (manifest, digest) =>
      let '(r, db) := cron_txn o (apply_inner context operation_id command manifest digest) db in
      (let? result := r in
       let? revision := cron_positive_u64 (cq_repository_revision result) in
       Ok (mkCronCommandResult revision (cq_active_definitions result) (cq_replayed result)), db)
  end.

Definition operation (context : CronContext) (operation_id : OperationId) (db : CronDb)
  : result CronError (option CronCommandResult) :=
  let? _ := validate_context context in
  match cron_operations db !! (scope_key (cx_scope context), id_to_string operation_id) with
  | None => Ok None
  | Some row =>
      let? revision := cron_positive_u64 (co_repository_revision row) in
      let? count := cron_nonnegative_u32 (co_active_definitions row) in
      Ok (Some (mkCronCommandResult revision count true))
  end.

(** [ORDER BY cron_name] *)
Definition name_order {A} : (skey * bytes) * A -> (skey * bytes) * A -> comparison := cmp_on (fun r => snd (fst r)) bytes_cmp.

Definition snapshot (context : CronContext) (db : CronDb) : result CronError CronSnapshot :=
  let? _ := validate_context context in
  let sk := scope_key (cx_scope context) in
  let revision := default 0 (cron_environments db !! sk) in
  let? activations := try_map (fun r => decode_activation (snd (fst r)) (snd r))
    (order_by name_order (filter (fun r => fst (fst r) = sk) (map_to_list (cron_activations db)))) in
  let? disabled := try_map (fun r => parse_column CronName_from_str (snd (fst r)))
    (order_by name_order (filter (fun r => fst (fst r) = sk) (map_to_list (cron_disabled db)))) in
  let? revision := cron_nonnegative_u64 revision in
  let snapshot := mkCronSnapshot revision activations disabled in
  let? _ := CronSnapshot_validate snapshot in
  Ok snapshot.

(** ** Leases *)

Definition MAX_CLAIM : Z := 1000.

Definition activation_due (now : Z) (row : ActivationRow) : bool :=
  (a_next_tick row <=? now)
  && match a_lease_owner row with
     | None => true
     | Some _ => match a_lease_until row with Some t => t <=? now | None => false end
     end.

Definition activation_order : (skey * bytes) * ActivationRow -> (skey * bytes) * ActivationRow -> comparison :=
  cmp_lex (cmp_on (fun r => a_next_tick (snd r)) Z.compare) name_order.

Definition due_activations (sk : skey) (now : Z) (db : CronDb) : list ((skey * bytes) * ActivationRow) :=
  order_by activation_order
    (filter (fun r => fst (fst r) = sk /\ activation_due now (snd r) = true) (map_to_list (cron_activations db))).

Definition leased_row (worker : bytes) (now lease_until : Z) (row : ActivationRow) : ActivationRow :=
  mkActivationRow (a_activation_revision row) (a_pinned_code row) (a_release_id row) (a_schedule row) (a_function_name row)
    (a_args_bytes row) (a_next_tick row) (a_lease_generation row + 1) (Some worker) (Some lease_until) now.

(** The [UPDATE .. RETURNING] of one name; a generation out of range is no integer any more. *)
Definition claim_activation (sk : skey) (worker : bytes) (now lease_until : Z) (name : bytes) (db : CronDb)
  : result CronError (option CronActivation * CronDb) :=
  match cron_activations db !! (sk, name) with
  | Some row =>
      if activation_due now row then
        if i64_max <? a_lease_generation row + 1 then Err CE_Corruption else
        let row := leased_row worker now lease_until row in
        let? activation := decode_activation name row in
        Ok (Some activation, set_activations (<[(sk, name) := row]> (cron_activations db)) db)
      else Ok (None, db)
  | None => Ok (None, db)
  end.

Fixpoint claim_names (sk : skey) (worker : bytes) (now lease_until : Z) (names : list bytes) (db : CronDb)
  : result CronError (list CronActivation * CronDb) :=
  match names with
  | [] => Ok ([], db)
  | name :: names =>
      let? (a, db) := claim_activation sk worker now lease_until name db in
      let? (rest, db) := claim_names sk worker now lease_until names db in
      Ok (match a with Some a => a :: rest | None => rest end, db)
  end.

Definition claim_inner (context : CronContext) (worker : WorkerId) (now lease_until limit : Z) (db : CronDb)
  : result CronError (list CronActivation * option CronDb) :=
  let sk := scope_key (cx_scope context) in
  let names := map (fun r => snd (fst r)) (take (Z.to_nat limit) (due_activations sk now db)) in
  let? (claimed, db) := claim_names sk (id_to_string worker) now lease_until names db in
  Ok (claimed, Some db).

Definition claim_due (o : CronTxn) (context : CronContext) (worker : WorkerId) (now lease_until limit : Z) (db : CronDb)
  : result CronError (list CronActivation) * CronDb :=
  match validate_context context with
  | Err e => (Err e, db)
  | Ok _ =>
      if (now <? 0) || (lease_until <=? now) || (limit =? 0) || (MAX_CLAIM <? limit) then (Err CE_InvalidInput, db) else
      cron_txn o (claim_inner context worker now lease_until limit) db
  end.

(** ** Completion *)

Definition advanced_row (next completed : Z) (row : ActivationRow) : ActivationRow :=
  mkActivationRow (a_activation_revision row) (a_pinned_code row) (a_release_id row) (a_schedule row) (a_function_name row)
    (a_args_bytes row) next (a_lease_generation row) None None completed.

(** The one [UPDATE], with the number of rows it changed. *)
Definition advance (context : CronContext) (name : CronName) (worker : WorkerId) (generation expected next completed : Z)
  (db : CronDb) : bool * CronDb :=
  let key := (scope_key (cx_scope context), cron_name_str name) in
  match cron_activations db !! key with
  | Some row =>
      if bool_decide (a_lease_owner row = Some (id_to_string worker)) && (a_lease_generation row =? generation)
         && (a_next_tick row =? expected)
      then (true, set_activations (<[key := advanced_row next completed row]> (cron_activations db)) db)
      else (false, db)
  | None => (false, db)
  end.

Definition complete_inner (o : CronTxn) (context : CronContext) (name : CronName) (worker : WorkerId)
  (generation expected next completed : Z) (db : CronDb) : result CronError unit * CronDb :=
  match cron_positive_i64 generation with
  | Err e => (Err e, db)
  | Ok generation =>
      let '(changed, db') := advance context name worker generation expected next completed db in
      match o with
      | CT_StatementFailed e => (Err (cron_map_sqlx_error e), db)
      | CT_CommitFailed applied => (Err CE_Unavailable, if applied then db' else db)
      | CT_Commit => (if changed then Ok tt else Err CE_LeaseLost, db')
      end
  end.

Definition complete_tick (o : CronTxn) (context : CronContext) (name : CronName) (worker : WorkerId)
  (lease_generation expected_tick next_tick completed_at : Z) (db : CronDb) : result CronError unit * CronDb :=
  match validate_context context with
  | Err e => (Err e, db)
  | Ok _ =>
      if (lease_generation =? 0) || (expected_tick <? 0) || (next_tick <=? expected_tick) || (completed_at <? 0)
      then (Err CE_InvalidInput, db)
      else complete_inner o context name worker lease_generation expected_tick next_tick completed_at db
  end.
End repository.
