(* ===== verification/CronMaterializer.v ===== *)
(** * The Cron materializer: [crates/runku-cron/src/materializer.rs]

    A poll claims the activations that are due, commits for each one batch with the scheduled invocation
    of its tick, under identifiers that depend only on the activation and the tick, and then moves the
    activation's cursor.

    The store is any [LogicalStore].  What other workers and other clients do between the steps of a
    poll, and the fate of its transactions, are arguments.  Telemetry is left out. *)

From Stdlib Require Import Strings.Byte ZArith Lia.
From stdpp Require Import prelude strings gmap list.
From S2P Require Import Prelude Order Codec Ulid Value StoredValue IndexKey Core Release Cron Manifest StoreModel Batch.
From S2P Require Import Execution CronRepository.

(** The lease duration is in nanoseconds. *)
Record CronMaterializerConfig : Type := mkCronMaterializerConfig { cm_batch_size : Z; cm_lease_duration : Z }.

Definition CRON_MATERIALIZER_DEFAULT : CronMaterializerConfig := mkCronMaterializerConfig 100 (30 * 1000000000).

Definition CronMaterializerConfig_validate (self : CronMaterializerConfig) : result CronError CronMaterializerConfig :=
  if (cm_batch_size self =? 0) || (1000 <? cm_batch_size self) || (cm_lease_duration self =? 0)
     || (5 * 60 * 1000000000 <? cm_lease_duration self)
  then Err CE_InvalidInput else Ok self.

Record CronPollOutcome : Type := mkCronPollOutcome {
  cp_claimed : Z; cp_materialized : Z; cp_replayed : Z; cp_completed : Z; cp_lease_lost : Z
}.

(** ** The identity of a tick *)

(** The decimal digits of a number below [10 ^ fuel]. *)
Fixpoint decimal_digits (fuel : nat) (n : Z) : bytes :=
  match fuel with
  | O => []
  | S fuel => (if n <? 10 then [] else decimal_digits fuel (n / 10)) ++ [zb (48 + n mod 10)]
  end.
(** [format!("{n}")] of a 64-bit integer. *)
Definition decimal (n : Z) : bytes := if n <? 0 then x2d :: decimal_digits 20 (- n) else decimal_digits 20 n.

Section identity.
Context {UL : UlidLib}.

Definition tick_identity_bytes (context : CronContext) (name : CronName) (revision tick : Z) : bytes :=
  id_to_string (Core.project_id (cx_scope context)) ++ [x00] ++ id_to_string (environment_id (cx_scope context)) ++ [x00]
  ++ cron_name_str name ++ to_be 8 revision ++ to_be 8 (cast_unsigned tick).

Definition tick_ids (sha256 : bytes -> bytes) (context : CronContext) (name : CronName) (revision tick : Z)
  : OperationId * ScheduledInvocationId :=
  let input := tick_identity_bytes context name revision tick in
  let operation := sha256 (text "RUNKU_CRON_OPERATION_ID_V1" ++ [x00] ++ input) in
  let scheduled := sha256 (text "RUNKU_CRON_SCHEDULE_ID_V1" ++ [x00] ++ input) in
  (from_ulid (from_be (take 16 operation)), from_ulid (from_be (take 16 scheduled))).

Definition tick_key (name : CronName) (revision tick : Z) : result CronError bytes :=
  let key := text "cron:" ++ cron_name_str name ++ text ":" ++ decimal revision ++ text ":" ++ decimal tick in
  if 128 <? len key then Err CE_LimitExceeded else Ok key.

(** The batch of the activation's next tick. *)
Definition tick_batch (sha256 : bytes -> bytes) (context : CronContext) (a : CronActivation) : result CronError CommitBatch :=
  let '(operation_id, schedule_id) :=
    tick_ids sha256 context (ca_name a) (ca_activation_revision a) (ca_next_tick a) in
  let? key := tick_key (ca_name a) (ca_activation_revision a) (ca_next_tick a) in
  Ok (push_schedule
        (mkScheduledInvocationInsert schedule_id (ca_pinned_code a) (ca_function a) (ca_args a) (ca_next_tick a) (Some key))
        (CommitBatch_new (cx_scope context) operation_id)).
End identity.

Definition cron_map_store_error (error : StoreError) : CronError :=
  match error with
  | SE_ResultUncertain => CE_ResultUncertain
  | SE_LimitExceeded => CE_LimitExceeded
  | SE_OperationIdReused | SE_DuplicateMutation | SE_MutationConflict => CE_Conflict
  | SE_Corruption | SE_MigrationFailed => CE_Corruption
  | SE_ProductionBackendUnsupported => CE_Unsupported
  | SE_EmptyBatch | SE_InvalidRange | SE_NotFound | SE_LeaseLost | SE_OutboxLeaseLost | SE_Busy
  | SE_SerializationFailure | SE_Unavailable | SE_Internal => CE_Unavailable
  end.

(** ** Polls *)

Section poll.
Context {UL : UlidLib} {Store Snapshot Weather : Type} {LS : LogicalStore Store Snapshot Weather}.

(** The repository's tables and the store, which others share. *)
Record CronWorld : Type := mkCronWorld { cw_repository : CronDb; cw_store : Store }.

(** What others do before the [n]-th step of the poll, and the fate of the transaction it runs. *)
Record CronSurroundings : Type := mkCronSurroundings {
  cu_between : nat -> CronWorld -> CronWorld;
  cu_repository : nat -> CronTxn;
  cu_store : nat -> Weather
}.

Variable sha256 : bytes -> bytes.
Variables (self context : CronContext) (worker_id : WorkerId) (config : CronMaterializerConfig) (cu : CronSurroundings).

Definition cron_saturating (n : Z) : Z := Z.min u32_max (n + 1).

(** The loop over the claimed activations; steps are counted. *)
Fixpoint materialize (now : Z) (n : nat) (claimed : list CronActivation) (outcome : CronPollOutcome) (w : CronWorld)
  : result CronError CronPollOutcome * CronWorld :=
  match claimed with
  | [] => (Ok outcome, w)
  | a :: claimed =>
      match tick_batch sha256 context a with
      | Err e => (Err e, w)
      | Ok batch =>
          let w := cu_between cu n w in
          let '(r, store) := ls_commit (cu_store cu n) batch (cw_store w) in
          let w := mkCronWorld (cw_repository w) store in
          match map_err cron_map_store_error r with
          | Err e => (Err e, w)
          | Ok commit =>
              let outcome :=
                if cr_replayed commit
                then mkCronPollOutcome (cp_claimed outcome) (cp_materialized outcome) (cron_saturating (cp_replayed outcome))
                       (cp_completed outcome) (cp_lease_lost outcome)
                else mkCronPollOutcome (cp_claimed outcome) (cron_saturating (cp_materialized outcome)) (cp_replayed outcome)
                       (cp_completed outcome) (cp_lease_lost outcome) in
              match next_after (ca_schedule a) (ca_next_tick a) with
              | Err _ => (Err CE_Corruption, w)
              | Ok next_tick =>
                  let w := cu_between cu (S n) w in
                  let '(r, repository) :=
                    complete_tick self (cu_repository cu (S n)) context (ca_name a) worker_id (ca_lease_generation a)
                      (ca_next_tick a) next_tick now (cw_repository w) in
                  let w := mkCronWorld repository (cw_store w) in
                  match r with
                  | Ok _ =>
                      materialize now (S (S n)) claimed
                        (mkCronPollOutcome (cp_claimed outcome) (cp_materialized outcome) (cp_replayed outcome)
                           (cron_saturating (cp_completed outcome)) (cp_lease_lost outcome)) w
                  | Err CE_LeaseLost =>
                      materialize now (S (S n)) claimed
                        (mkCronPollOutcome (cp_claimed outcome) (cp_materialized outcome) (cp_replayed outcome)
                           (cp_completed outcome) (cron_saturating (cp_lease_lost outcome))) w
                  | Err e => (Err e, w)
                  end
              end
          end
      end
  end.

Definition poll_at (now : Z) (w : CronWorld) : result CronError CronPollOutcome * CronWorld :=
  if now <? 0 then (Err CE_InvalidInput, w) else
  match (let? lease_micros := ok_or CE_LimitExceeded (try_from_u i64_max (cm_lease_duration config / 1000)) in
         ok_or CE_LimitExceeded (checked_i64 (now + lease_micros))) with
  | Err e => (Err e, w)
  | Ok lease_until =>
      let w := cu_between cu 0 w in
      let '(r, repository) :=
        claim_due self (cu_repository cu 0) context worker_id now lease_until (cm_batch_size config) (cw_repository w) in
      let w := mkCronWorld repository (cw_store w) in
      match (let? claimed := r in
             let? count := ok_or CE_LimitExceeded (try_from_u u32_max (len claimed)) in Ok (claimed, count)) with
      | Err e => (Err e, w)
      | Ok (claimed, count) => materialize now 1 claimed (mkCronPollOutcome count 0 0 0 0) w
      end
  end.

(** [poll], by the system clock. *)
Definition cron_poll (clock : option Z) (w : CronWorld) : result CronError CronPollOutcome * CronWorld :=
  match (let? elapsed := ok_or CE_Unavailable clock in ok_or CE_LimitExceeded (try_from_u i64_max elapsed)) with
  | Err e => (Err e, w)
  | Ok now => poll_at now w
  end.
End poll.
Arguments CronWorld : clear implicits.
Arguments CronSurroundings : clear implicits.
