(* ===== verification/CronTicks.v ===== *)
(** * No Cron tick is skipped

    The repository of [CronRepository], the materializer of [CronMaterializer] and the SQLite store
    together.  Any number of workers poll; commands change the activations; transactions fail, or take
    effect without an answer; leases expire and pass to other workers.  Still, when the cursor of an
    activation stands at a tick, the invocation of every earlier occurrence of its schedule since the
    activation is in the store's operation journal. *)

From Stdlib Require Import Strings.Byte ZArith Lia.
From stdpp Require Import prelude strings gmap sorting list relations.
From S2P Require Import Prelude Order Codec Ulid Value StoredValue IndexKey Core Schema Release Cron Calendar Manifest.
From S2P Require Import StoreModel Batch Sql SqliteStore SqliteCommit SqliteInvariant SqliteSystem SqliteJournal.
From S2P Require Import Execution MutationSqlite CronRepository CronMaterializer.

(** ** Transactions *)

Lemma cron_txn_cases {A} o (body : CronDb -> result CronError (A * option CronDb)) db r db' :
  cron_txn o body db = (r, db') ->
  (db' = db \/ exists a, body db = Ok (a, Some db'))
  /\ forall a, r = Ok a -> exists od, body db = Ok (a, od) /\ db' = default db od.
Proof.
  destruct o as [|e|applied]; cbn [cron_txn]; [|intros [= <- <-]; by split; [left|]|].
  - destruct (body db) as [[a [db1|]]|e]; intros [= <- <-]; (split; [eauto|]); try done; intros a' [= <-]; eauto.
  - destruct (body db) as [[a [db1|]]|e]; [|intros [= <- <-]; by split; [left|]..].
    destruct applied; intros [= <- <-]; (split; [|done]); eauto.
Qed.

Section commands.
Context {UL : UlidLib} {ULL : UlidLaws}.
Variables (sha256 : bytes -> bytes) (self : CronContext).

(** A recorded command answers from its row. *)
Lemma apply_recorded context op command manifest dg db row :
  cron_operations db !! (scope_key (cx_scope context), id_to_string op) = Some row ->
  0 < co_repository_revision row -> 0 <= co_active_definitions row <= u32_max ->
  apply_inner context op command manifest dg db
  = if bool_decide (co_command_digest row <> dg) then Err CE_Conflict
    else Ok (mkCronCommandResult (co_repository_revision row) (co_active_definitions row) true, None).
Proof.
  intros Hr Hrev Hc. unfold apply_inner. rewrite Hr. case_bool_decide; [done|].
  unfold cron_positive_u64, cron_nonnegative_u32. rewrite (proj2 (Z.ltb_lt _ _)), !(proj2 (Z.leb_le _ _)) by lia. done.
Qed.

(** The changes of a command are to the activations and the disabled definitions. *)
Lemma apply_change_frame sk next command manifest db db' : apply_change sk next command manifest db = Ok db' ->
  cron_environments db' = cron_environments db /\ cron_operations db' = cron_operations db.
Proof.
  assert (forall pin rel d at_ db db', insert_activation sk next pin rel d at_ db = Ok db' ->
    cron_environments db' = cron_environments db /\ cron_operations db' = cron_operations db) as Hins.
  { unfold insert_activation. intros pin rel d at_ x y (t & _ & H)%rbind_Ok. apply rbind_Ok in H as (args & _ & H).
    destruct (bool_decide _); [done|]. by injection H as <-. }
  destruct command as [r pin bs at_|r at_|r pin bs name enabled at_], manifest as [m|]; try done; cbn [apply_change].
  - assert (cron_environments (delete_all sk db) = cron_environments db /\ cron_operations (delete_all sk db) = cron_operations db) as H0 by done.
    revert H0. generalize (delete_all sk db). induction (cron_definitions m) as [|d ds IH]; intros x H0; cbn [try_fold]; [by intros [= <-]|].
    intros (y & H1 & H)%rbind_Ok. eapply IH; [|exact H]. case_bool_decide; [by injection H1 as <-|].
    destruct (Hins _ _ _ _ _ _ H1) as [-> ->]. done.
  - by intros [= <-].
  - destruct enabled; [|by intros [= <-]]. intros (d & _ & H)%rbind_Ok. by destruct (Hins _ _ _ _ _ _ H) as [-> ->].
Qed.

(** What a command that is answered leaves in the repository. *)
Record recorded_command (context : CronContext) (op : OperationId) (command : CronCommand) (dg : bytes) (revision count : Z)
  (db db' : CronDb) : Prop := {
  rc_operation : exists row, cron_operations db' !! (scope_key (cx_scope context), id_to_string op) = Some row
    /\ co_command_digest row = dg /\ co_repository_revision row = revision /\ co_active_definitions row = count
    /\ 0 < revision /\ 0 <= count <= u32_max;
  rc_set : cron_operations db !! (scope_key (cx_scope context), id_to_string op) = None ->
    default 0 (cron_environments db !! scope_key (cx_scope context)) = expected_revision command
    /\ revision = expected_revision command + 1
    /\ cron_environments db' = <[scope_key (cx_scope context) := revision]> (cron_environments db)
    /\ count = active_definitions (scope_key (cx_scope context)) db';
  rc_replay : is_Some (cron_operations db !! (scope_key (cx_scope context), id_to_string op)) -> db' = db
}.

Lemma apply_records context op command manifest dg db res od : apply_inner context op command manifest dg db = Ok (res, od) ->
  recorded_command context op command dg (cq_repository_revision res) (cq_active_definitions res) db (default db od).
Proof.
  unfold apply_inner. destruct (cron_operations db !! _) as [row|] eqn:Eo.
  - case_bool_decide as Ed; [done|]. intros (rev & Hrev & H)%rbind_Ok. apply rbind_Ok in H as (n & Hn & [= <- <-]).
    unfold cron_positive_u64, cron_nonnegative_u32 in *. destruct (Z.ltb_spec 0 (co_repository_revision row)); [|done].
    destruct (Z.leb_spec 0 (co_active_definitions row)), (Z.leb_spec (co_active_definitions row) u32_max); try done.
    injection Hrev as <-. injection Hn as <-. split; [|congruence|done]. exists row. by split_and!.
  - intros (rev & Hrev & H)%rbind_Ok. destruct (Z.eqb_spec rev (expected_revision command)) as [Ee|]; [|done].
    apply rbind_Ok in H as (next & Hnext%ok_or_Ok & H). unfold checked_i64 in Hnext. destruct (is_i64 _); [|done].
    injection Hnext as <-. apply rbind_Ok in H as (db1 & Hc%apply_change_frame & H). destruct Hc as [E1 E2].
    apply rbind_Ok in H as (n & Hn & [= <- <-]).
    unfold cron_nonnegative_u64, cron_nonnegative_u32 in *. destruct (Z.leb_spec 0 (default 0 (cron_environments db !! scope_key (cx_scope context)))); [|done].
    injection Hrev as <-. destruct (Z.leb_spec 0 (active_definitions (scope_key (cx_scope context)) db1)),
      (Z.leb_spec (active_definitions (scope_key (cx_scope context)) db1) u32_max); try done. injection Hn as <-.
    split; cbn [default cron_operations cron_environments cq_repository_revision cq_active_definitions]; [| |rewrite Eo; by intros []].
    + eexists. split; [apply lookup_insert_eq|]. cbn. split_and!; try done; lia.
    + intros _. rewrite E1, <- Ee. done.
Qed.

(** ** Operations on the repository *)

(** Any operation of a repository, opened for any context, and any fate of its transaction. *)
Inductive repository_step (db : CronDb) : CronDb -> Prop :=
| repository_apply self' o context op command : repository_step db (snd (apply sha256 self' o context op command db))
| repository_claim self' o context worker now until limit :
    repository_step db (snd (claim_due self' o context worker now until limit db))
| repository_complete self' o context name worker generation expected next completed :
    repository_step db (snd (complete_tick self' o context name worker generation expected next completed db)).

Lemma claim_names_operations sk worker now until names db r db' :
  claim_names sk worker now until names db = Ok (r, db') -> cron_operations db' = cron_operations db.
Proof.
  revert db r db'. induction names as [|name names IH]; intros db r db'; cbn [claim_names]; [by intros [= _ <-]|].
  intros ([a db1] & H1 & H)%rbind_Ok. apply rbind_Ok in H as ([rest db2] & H2%IH & [= _ <-]). rewrite H2. clear H2.
  unfold claim_activation in H1. destruct (cron_activations db !! _) as [row|]; [|by injection H1 as _ <-].
  destruct (activation_due now row); [|by injection H1 as _ <-]. destruct (i64_max <? _); [done|].
  by apply rbind_Ok in H1 as (x & _ & [= _ <-]).
Qed.

(** The record of an operation is never changed or removed. *)
Lemma repository_step_operations db db' k row : repository_step db db' ->
  cron_operations db !! k = Some row -> cron_operations db' !! k = Some row.
Proof.
  intros [self' o context op command|self' o context worker now until limit|self' o context name worker generation expected next completed] Hk.
  - unfold apply. destruct (rbind _ _) as [[manifest dg]|]; [|done]. destruct (cron_txn _ _ _) as [r db1] eqn:Et. cbn [snd].
    apply cron_txn_cases in Et as [[->|[a Ha]] _]; [done|]. unfold apply_inner in Ha. destruct (cron_operations db !! (scope_key _, _)) eqn:Eo.
    { destruct (bool_decide _); [done|]. apply rbind_Ok in Ha as (? & _ & Ha). by apply rbind_Ok in Ha as (? & _ & [=]). }
    apply rbind_Ok in Ha as (rev & _ & Ha). destruct (negb _); [done|]. apply rbind_Ok in Ha as (next & _ & Ha).
    apply rbind_Ok in Ha as (db2 & [_ E2]%apply_change_frame & Ha). apply rbind_Ok in Ha as (count & _ & [= _ <-]).
    cbn [cron_operations]. rewrite E2, lookup_insert_ne; [done|congruence].
  - unfold claim_due. destruct (validate_context _ _); [|done]. destruct (_ || _ || _ || _); [done|].
    destruct (cron_txn _ _ _) as [r db1] eqn:Et. cbn [snd]. apply cron_txn_cases in Et as [[->|[x Ha]] _]; [done|].
    unfold claim_inner in Ha. apply rbind_Ok in Ha as ([claimed db2] & H%claim_names_operations & [= _ <-]). by rewrite H.
  - unfold complete_tick. destruct (validate_context _ _); [|done]. destruct (_ || _ || _ || _); [done|].
    unfold complete_inner. destruct (cron_positive_i64 _); [|done]. destruct (advance _ _ _ _ _ _ _ _) as [changed db1] eqn:Ea.
    assert (cron_operations db1 = cron_operations db) as E1.
    { unfold advance in Ea. destruct (cron_activations db !! _); [|by injection Ea as _ <-]. destruct (_ && _ && _); by injection Ea as _ <-. }
    by destruct o as [| |[]]; cbn [snd]; rewrite ?E1.
Qed.

Lemma repository_steps_operations db db' k row : rtc repository_step db db' ->
  cron_operations db !! k = Some row -> cron_operations db' !! k = Some row.
Proof. induction 1; eauto using repository_step_operations. Qed.

(** A command that was answered, or changed the repository without an answer. *)
Lemma apply_effect o context op command db r db1 : apply sha256 self o context op command db = (r, db1) ->
  is_ok r = true \/ db1 <> db ->
  exists manifest dg revision count, validate_context self context = Ok tt /\ CronCommand_validate command context = Ok manifest
    /\ CronCommand_digest sha256 command context = Ok dg
    /\ (forall a, r = Ok a -> cq_repository_revision a = revision /\ cq_active_definitions a = count)
    /\ recorded_command context op command dg revision count db db1.
Proof.
  unfold apply. destruct (rbind _ _) as [[manifest dg]|] eqn:Epre; [|by intros [= <- <-] [|]].
  apply rbind_Ok in Epre as ([] & Hc & Epre). apply rbind_Ok in Epre as (m & Hm & Epre). apply rbind_Ok in Epre as (d & Hd & [= <- <-]).
  destruct (cron_txn _ _ _) as [r0 db'] eqn:Et. intros [= Hr ->] Hne. apply cron_txn_cases in Et as [Hchanged Hok].
  assert (exists res od, apply_inner context op command m d db = Ok (res, od) /\ db1 = default db od /\ forall a, r0 = Ok a -> a = res)
    as (res & od & Hin & -> & Hres).
  { destruct r0 as [res|e].
    - destruct (Hok res eq_refl) as (od & Hin & ->). exists res, od. split; [done|]. split; [done|]. by intros a [= <-].
    - cbn in Hr. subst r. destruct Hne as [|Hne]; [done|]. destruct Hchanged as [->|[a Ha]]; [done|]. by exists a, (Some db1). }
  exists m, d, (cq_repository_revision res), (cq_active_definitions res). split_and!; try done; [|by apply apply_records in Hin].
  intros a Ha. rewrite <- Hr in Ha. apply rbind_Ok in Ha as (res' & E & Ha). apply Hres in E as ->.
  apply rbind_Ok in Ha as (rev & Hrev & [= <-]). cbn. split; [|done]. unfold cron_positive_u64 in Hrev. destruct (0 <? _); congruence.
Qed.

(** C19: Cron commands are compare-and-set and exactly-once.  Take a command that was answered, or whose
    answer was lost after it changed the repository.  If its operation identifier was new, it found the
    repository at the revision it expects, and the revision stored for its Environment, and for no
    other one, is now the next; the number of definitions it answers is the number of activations now
    stored.  If it was not new, nothing changed.  After that, whatever commands, claims and completions
    follow, on any Environments and with any fate of their transactions: the same command again answers
    with the same revision and number of definitions, marked as replayed, and changes nothing; and a
    command with another digest under the same operation identifier is a conflict and changes
    nothing. *)
Theorem cron_command_once o context op command command' db r db1 db2 manifest' dg' :
  apply sha256 self o context op command db = (r, db1) -> is_ok r = true \/ db1 <> db ->
  rtc repository_step db1 db2 ->
  CronCommand_validate command' context = Ok manifest' -> CronCommand_digest sha256 command' context = Ok dg' ->
  exists revision count,
    (forall a, r = Ok a -> cq_repository_revision a = revision /\ cq_active_definitions a = count)
    /\ (cron_operations db !! (scope_key (cx_scope context), id_to_string op) = None ->
        default 0 (cron_environments db !! scope_key (cx_scope context)) = expected_revision command
        /\ revision = expected_revision command + 1
        /\ cron_environments db1 = <[scope_key (cx_scope context) := revision]> (cron_environments db)
        /\ count = active_definitions (scope_key (cx_scope context)) db1)
    /\ (is_Some (cron_operations db !! (scope_key (cx_scope context), id_to_string op)) -> db1 = db)
    /\ apply sha256 self CT_Commit context op command db2 = (Ok (mkCronCommandResult revision count true), db2)
    /\ (CronCommand_digest sha256 command context <> Ok dg' ->
        apply sha256 self CT_Commit context op command' db2 = (Err CE_Conflict, db2)).
Proof.
  intros Ha Hne Hs Hv' Hd'. destruct (apply_effect _ _ _ _ _ _ _ Ha Hne) as (m & dg & revision & count & Hc & Hm & Hd & Hans & [Hop Hset Hrep]).
  destruct Hop as (row & Hl & Ed & Er & Ec & Hpos & Hcount). apply (repository_steps_operations _ _ _ _ Hs) in Hl.
  exists revision, count. split_and!; try done.
  - unfold apply. rewrite Hc, Hm, Hd. cbn [rbind cron_txn]. rewrite (apply_recorded _ _ _ _ _ _ row Hl), bool_decide_false by (lia || by intros []).
    cbn. unfold Datatypes.id. rewrite Er, Ec. unfold cron_positive_u64. rewrite (proj2 (Z.ltb_lt _ _)) by lia. done.
  - intros Hdiff. unfold apply. rewrite Hc, Hv', Hd'. cbn [rbind cron_txn].
    rewrite (apply_recorded _ _ _ _ _ _ row Hl), bool_decide_true by (lia || congruence). done.
Qed.
End commands.

(** ** Rows *)

Section rows.
Context {UL : UlidLib} {ULL : UlidLaws}.

(** A row and an activation without their lease. *)
Definition bare (row : ActivationRow) : ActivationRow :=
  mkActivationRow (a_activation_revision row) (a_pinned_code row) (a_release_id row) (a_schedule row) (a_function_name row)
    (a_args_bytes row) (a_next_tick row) 0 None None 0.
Definition at_tick (a : CronActivation) (tick : Z) : CronActivation :=
  mkCronActivation (ca_name a) (ca_activation_revision a) (ca_pinned_code a) (ca_release_id a) (ca_schedule a)
    (ca_function a) (ca_args a) tick 0 None None.

Record decoded (name : bytes) (row : ActivationRow) (a : CronActivation) : Prop := {
  de_name : name = cron_name_str (ca_name a);
  de_revision : ca_activation_revision a = a_activation_revision row;
  de_pinned : pinned_ok (ca_pinned_code a);
  de_schedule : CronSchedule_from_str (a_schedule row) = Ok (ca_schedule a);
  de_function : function_ok (ca_function a) = true;
  de_args : value_ok (ca_args a) = true;
  de_tick : ca_next_tick a = a_next_tick row;
  de_generation : ca_lease_generation a = a_lease_generation row;
  de_nonnegative : 0 <= a_next_tick row
}.

Lemma decode_activation_Ok name row a : decode_activation name row = Ok a ->
  decoded name row a /\ forall t, 0 <= t -> decode_activation name
    (mkActivationRow (a_activation_revision row) (a_pinned_code row) (a_release_id row) (a_schedule row) (a_function_name row)
       (a_args_bytes row) t 0 None None 0) = Ok (at_tick a t).
Proof.
  unfold decode_activation. cbn [a_activation_revision a_pinned_code a_release_id a_schedule a_function_name a_args_bytes
    a_next_tick a_lease_generation a_lease_owner a_lease_until]. intros H.
  apply rbind_Ok in H as (n & Hn & H). apply rbind_Ok in H as (rev & Hrev & H). apply rbind_Ok in H as (pin & Hpin & H).
  apply rbind_Ok in H as (rel & Hrel & H). apply rbind_Ok in H as (sch & Hsch & H). apply rbind_Ok in H as (f & Hf & H).
  apply rbind_Ok in H as (args & Hargs & H). apply rbind_Ok in H as (gen & Hgen & H). apply rbind_Ok in H as (own & Hown & H).
  apply rbind_Ok in H as ([] & Hval & [= <-]). rewrite Hn, Hrev, Hpin, Hrel, Hsch, Hf, Hargs. cbn [rbind].
  unfold CronActivation_validate in *. cbn [ca_activation_revision ca_next_tick ca_args ca_lease_owner ca_lease_until
    ca_lease_generation] in *. destruct (rev =? 0) eqn:Er; [done|]. destruct (a_next_tick row <? 0) eqn:Et; [done|].
  destruct (negb (is_ok _)) eqn:Ea; [done|]. split.
  - unfold parse_column in *. apply map_err_Ok in Hn, Hpin, Hsch, Hf, Hargs. apply CronName_from_str_Ok in Hn as [_ Hn].
    apply PinnedCode_from_str_Ok in Hpin as [Hpin _]. apply FunctionName_from_str_Ok in Hf as [Hf _].
    apply stored_encode_decode in Hargs as [Hargs _]. unfold cron_positive_u64 in Hrev. destruct (0 <? _); [|done].
    unfold cron_nonnegative_u64 in Hgen. destruct (0 <=? _); [|done]. split; try done; [by injection Hrev|by injection Hgen|lia].
  - intros t Ht. change (cron_nonnegative_u64 0) with (@Ok CronError Z 0). cbn [rbind orb].
    rewrite (proj2 (Z.ltb_ge t 0)) by lia. done.
Qed.

Lemma decode_bare name row a : decode_activation name row = Ok a ->
  decode_activation name (bare row) = Ok (at_tick a (a_next_tick row)).
Proof. intros [D H]%decode_activation_Ok. apply H, (de_nonnegative _ _ _ D). Qed.
End rows.

(** ** Ticks in the journal *)

Section ticks.
Context {UL : UlidLib} {ULL : UlidLaws}.
Variables (sha256 : bytes -> bytes) (self : CronContext).
Abbreviation scope := (cx_scope self).
Abbreviation sk := (scope_key (cx_scope self)).
Abbreviation world := (CronWorld Db).

(** The store has recorded the commit of the activation's next tick. *)
Definition journaled (db : Db) (a : CronActivation) : Prop :=
  exists b dg row, tick_batch sha256 self a = Ok b /\ digest sha256 b = Ok dg
    /\ operations db !! (sk, id_to_string (b_operation_id b)) = Some row /\ op_batch_digest row = dg.

(** Every occurrence after the command that created the activation and before its cursor. *)
Definition ticks_done (cdb : CronDb) (db : Db) (a : CronActivation) : Prop :=
  forall op o, cron_operations cdb !! (sk, op) = Some o -> co_repository_revision o = ca_activation_revision a ->
  forall m, co_created_at o < m * MICROS_PER_MINUTE < ca_next_tick a -> matches_minute (ca_schedule a) m = true ->
  journaled db (at_tick a (m * MICROS_PER_MINUTE)).

(** ** Steps *)

(** The completion of a tick whose invocation is recorded. *)
Definition earned (w : world) (worker : WorkerId) (name : CronName) (generation expected next : Z) : Prop :=
  forall row a, cron_activations (cw_repository w) !! (sk, cron_name_str name) = Some row ->
    a_lease_owner row = Some (id_to_string worker) -> a_lease_generation row = generation -> a_next_tick row = expected ->
    decode_activation (cron_name_str name) (bare row) = Ok a ->
    journaled (cw_store w) a /\ next_after (ca_schedule a) expected = Ok next.

(** What happens while workers other than this one, or this one, are active: commands, claims,
    completions of recorded ticks, any use of the store that does not erase the Environment, and
    anything in the tables of other Environments. *)
Inductive cron_step (worker : WorkerId) (w : world) : world -> Prop :=
| cron_command o context op command :
    cron_step worker w (mkCronWorld (snd (apply sha256 self o context op command (cw_repository w))) (cw_store w))
| cron_claim o context now until limit :
    cron_step worker w (mkCronWorld (snd (claim_due self o context worker now until limit (cw_repository w))) (cw_store w))
| cron_complete o context name generation expected next completed :
    earned w worker name generation expected next ->
    cron_step worker w (mkCronWorld
      (snd (complete_tick self o context name worker generation expected next completed (cw_repository w))) (cw_store w))
| cron_store db' : keeps sha256 scope (cw_store w) db' -> cron_step worker w (mkCronWorld (cw_repository w) db')
| cron_elsewhere cdb' :
    cron_environments cdb' !! sk = cron_environments (cw_repository w) !! sk ->
    (forall k, cron_activations cdb' !! (sk, k) = cron_activations (cw_repository w) !! (sk, k)) ->
    (forall k, cron_operations cdb' !! (sk, k) = cron_operations (cw_repository w) !! (sk, k)) ->
    cron_step worker w (mkCronWorld cdb' (cw_store w)).

(** ** What the transactions do to the tables *)

(** A row a command creates. *)
Record created (next at_ : Z) (row : ActivationRow) : Prop := {
  cd_revision : a_activation_revision row = next;
  cd_owner : a_lease_owner row = None;
  cd_schedule : exists s, CronSchedule_from_str (a_schedule row) = Ok s /\ next_after s at_ = Ok (a_next_tick row)
}.

(** The rows of the Environment are earlier ones or created ones. *)
Record changes (next at_ : Z) (db db' : CronDb) : Prop := {
  cg_environments : cron_environments db' = cron_environments db;
  cg_operations : cron_operations db' = cron_operations db;
  cg_activations name row : cron_activations db' !! (sk, name) = Some row ->
    cron_activations db !! (sk, name) = Some row \/ created next at_ row
}.

Lemma changes_trans next at_ x y z : changes next at_ x y -> changes next at_ y z -> changes next at_ x z.
Proof.
  intros [E1 E2 H1] [F1 F2 H2]. split; [congruence..|]. intros name row [Hy|]%H2; [by apply H1|by right].
Qed.

Lemma insert_activation_changes next pin rel d at_ db db' : Manifest.schedule_ok (cron_schedule d) ->
  insert_activation sk next pin rel d at_ db = Ok db' -> changes next at_ db db'.
Proof.
  intros Hs. unfold insert_activation. intros (t & Ht%map_err_Ok & H)%rbind_Ok. apply rbind_Ok in H as (args & _ & H).
  destruct (bool_decide _); [done|]. injection H as <-. split; [done|done|]. cbn [cron_activations set_activations].
  intros name row. destruct (decide (name = cron_name_str (cron_name d))) as [->|Hne].
  - rewrite lookup_insert_eq. intros [= <-]. right. split; [done|done|]. by exists (cron_schedule d).
  - rewrite lookup_insert_ne by congruence. by left.
Qed.

Lemma delete_all_changes next at_ db : changes next at_ db (delete_all sk db).
Proof.
  split; [done|done|]. intros name row. cbn [cron_activations delete_all set_activations].
  rewrite map_lookup_filter_Some. by intros [_ H].
Qed.

Lemma apply_change_changes next command manifest db db' :
  (forall m, manifest = Some m -> manifest_ok m) -> apply_change sk next command manifest db = Ok db' ->
  changes next (command_time command) db db'.
Proof.
  intros Hm. destruct command as [r pin bs at_|r at_|r pin bs name enabled at_], manifest as [m|]; try done; cbn [apply_change command_time].
  - pose proof (mo_crons _ (Hm m eq_refl)) as Hd. pose proof (delete_all_changes next at_ db) as H0.
    revert H0. generalize (delete_all sk db). induction Hd as [|d ds Hd _ IH]; intros db0 H0; cbn [try_fold]; [by intros [= <-]|].
    intros (db1 & H1 & H)%rbind_Ok. eapply IH; [|exact H]. case_bool_decide; [by injection H1 as <-|].
    eapply changes_trans; [exact H0|]. eapply insert_activation_changes; [apply Hd|exact H1].
  - intros [= <-]. apply delete_all_changes.
  - set (db0 := set_activations _ db). assert (changes next at_ db db0) as H0.
    { split; [done|done|]. intros name' row. cbn [cron_activations db0 set_activations]. rewrite lookup_delete_Some. by intros [_ ?]; left. }
    destruct enabled; [|intros [= <-]; by destruct H0].
    intros (d & Hd%ok_or_Ok & H)%rbind_Ok. apply find_some in Hd as [Hin _]. apply list_elem_of_In in Hin.
    eapply changes_trans; [|eapply insert_activation_changes; [|exact H]].
    + by destruct H0.
    + pose proof (mo_crons _ (Hm m eq_refl)) as Hall. rewrite Forall_forall in Hall. by apply Hall.
Qed.

(** ** The invariant *)

Abbreviation revision_of := (fun cdb => default 0 (cron_environments cdb !! sk)).

Record cron_inv (w : world) : Prop := {
  ci_ok : db_ok (cw_store w);
  ci_operations op o : cron_operations (cw_repository w) !! (sk, op) = Some o ->
    co_repository_revision o <= revision_of (cw_repository w);
  ci_rows name row : cron_activations (cw_repository w) !! (sk, name) = Some row ->
    a_activation_revision row <= revision_of (cw_repository w);
  ci_created name row : cron_activations (cw_repository w) !! (sk, name) = Some row ->
    exists op o, cron_operations (cw_repository w) !! (sk, op) = Some o /\ co_repository_revision o = a_activation_revision row;
  ci_done name row a : cron_activations (cw_repository w) !! (sk, name) = Some row ->
    decode_activation name (bare row) = Ok a ->
    is_i64 (a_next_tick row) = true /\ ticks_done (cw_repository w) (cw_store w) a
}.

Lemma decode_release_manifest_ok input m : decode_release_manifest input = Ok m -> manifest_ok m.
Proof.
  unfold decode_release_manifest. destruct (_ <? _); [done|]. destruct input as [|m1 [|m2 [|v rest]]]; try done.
  destruct (_ || _); [done|]. case_bool_decide; [done|]. by intros [Hm _]%decode_body_spec.
Qed.

Lemma CronCommand_validate_manifest command context m :
  CronCommand_validate command context = Ok (Some m) -> manifest_ok m.
Proof.
  unfold CronCommand_validate, command_manifest. intros (_ & _ & H)%rbind_Ok.
  destruct command as [r pin bs at_|r at_|r pin bs name enabled at_]; (destruct (_ <? 0); [done|]); [|done|];
    apply rbind_Ok in H as ([m' refused] & H1 & H); apply rbind_Ok in H1 as (m1 & Hd%map_err_Ok & H1);
    apply rbind_Ok in H1 as (c & _ & [= <- <-]); (destruct (_ || _) in H; [done|]); injection H as <-;
    by eapply decode_release_manifest_ok.
Qed.

Lemma validate_context_Ok context u : validate_context self context = Ok u -> context = self.
Proof. unfold validate_context. intros (_ & _ & H)%rbind_Ok. by case_bool_decide. Qed.

(** What a command leaves. *)
Lemma apply_cases o context op command db :
  snd (apply sha256 self o context op command db) = db
  \/ exists next count dg db1, cron_operations db !! (sk, id_to_string op) = None
       /\ next = default 0 (cron_environments db !! sk) + 1 /\ changes next (command_time command) db db1
       /\ snd (apply sha256 self o context op command db)
          = mkCronDb (<[sk := next]> (cron_environments db1)) (cron_activations db1)
              (<[(sk, id_to_string op) := mkCronOperationRow dg next count (command_time command)]> (cron_operations db1))
              (cron_disabled db1).
Proof.
  unfold apply. destruct (rbind _ _) as [[manifest dg]|] eqn:E; [|by left].
  apply rbind_Ok in E as (u & ->%validate_context_Ok & E). apply rbind_Ok in E as (m & Hm & E).
  apply rbind_Ok in E as (d & _ & [= <- <-]).
  destruct (cron_txn _ _ _) as [r db'] eqn:Et. cbn [snd].
  apply cron_txn_cases in Et as [[->|[a Ha]] _]; [by left|right]. unfold apply_inner in Ha.
  destruct (cron_operations db !! _) eqn:Eo.
  { destruct (bool_decide _); [done|]. apply rbind_Ok in Ha as (? & _ & Ha). by apply rbind_Ok in Ha as (? & _ & [=]). }
  apply rbind_Ok in Ha as (rev & _ & Ha). destruct (negb _); [done|]. apply rbind_Ok in Ha as (next & Hn%ok_or_Ok & Ha).
  unfold checked_i64 in Hn. destruct (is_i64 _); [|done]. injection Hn as <-.
  apply rbind_Ok in Ha as (db1 & Hc & Ha). apply rbind_Ok in Ha as (count & _ & [= _ <-]).
  eexists _, count, d, db1. split; [done|]. split; [done|]. split; [|done].
  eapply apply_change_changes; [|exact Hc]. intros m' ->. by eapply CronCommand_validate_manifest.
Qed.

Lemma command_inv o context op command w : cron_inv w ->
  cron_inv (mkCronWorld (snd (apply sha256 self o context op command (cw_repository w))) (cw_store w)).
Proof.
  intros [Hdb Hop Hrow Hcr Hdone].
  destruct (apply_cases o context op command (cw_repository w)) as [->|(next & count & dg & db1 & Hnew & En & [E1 E2 Hact] & ->)];
    [by destruct w|]. split; cbn [cw_store cw_repository cron_environments cron_activations cron_operations].
  - done.
  - intros op' o'. rewrite E2, lookup_insert_eq. intros [[_ <-]|[_ H]]%lookup_insert_Some; [done|]. apply Hop in H. cbn. unfold Datatypes.id. lia.
  - intros name row [Hr|[Er _ _]]%Hact; rewrite lookup_insert_eq; cbn; unfold Datatypes.id; [apply Hrow in Hr; lia|lia].
  - intros name row [Hr|[Er _ _]]%Hact; rewrite E2.
    + apply Hcr in Hr as (op' & o' & Ho & Er). exists op', o'. split; [|done]. by rewrite lookup_insert_ne by congruence.
    + exists (id_to_string op). eexists. rewrite lookup_insert_eq. done.
  - intros name row a Hr Hd. pose proof (decode_activation_Ok _ _ _ Hd) as [D _].
    pose proof (de_revision _ _ _ D) as Erev. cbn in Erev. apply Hact in Hr as [Hr|[Ec _ (s & Hs & Hn)]].
    + destruct (Hdone _ _ _ Hr Hd) as [Hi Ht]. split; [done|]. intros op' o' Ho Er. cbn [cron_operations] in Ho. rewrite E2 in Ho.
      apply lookup_insert_Some in Ho as [[_ <-]|[_ Ho]]; [|by eapply Ht]. cbn in Er. apply Hrow in Hr. lia.
    + apply next_after_Ok in Hn as (Hi & _ & _ & Hno). split; [done|]. intros op' o' Ho Er m Hm Hmatch.
      cbn [cron_operations] in Ho. rewrite E2 in Ho.
      apply lookup_insert_Some in Ho as [[_ <-]|[_ Ho]]; [|apply Hop in Ho; lia]. cbn [co_created_at] in Hm.
      assert (ca_schedule a = s) as Es by (pose proof (de_schedule _ _ _ D) as H; cbn in H; congruence).
      pose proof (de_tick _ _ _ D) as Et. cbn in Et. rewrite Es, Hno in Hmatch; [done|lia].
Qed.

(** What a claim leaves: leases. *)
Record leases (worker : bytes) (until : Z) (db db' : CronDb) : Prop := {
  ls_environments : cron_environments db' = cron_environments db;
  ls_operations : cron_operations db' = cron_operations db;
  ls_rows name row' : cron_activations db' !! (sk, name) = Some row' -> exists row,
    cron_activations db !! (sk, name) = Some row /\ bare row' = bare row /\ (row' = row \/ a_lease_owner row' = Some worker);
  ls_leased name row : cron_activations db !! (sk, name) = Some row -> a_lease_owner row <> None ->
    a_lease_until row = Some until -> cron_activations db' !! (sk, name) = Some row
}.

Lemma leases_refl worker until db : leases worker until db db.
Proof. split; try done. intros name row Hr. exists row. split; [done|]. split; [done|]. by left. Qed.

Lemma leases_trans worker until x y z : leases worker until x y -> leases worker until y z -> leases worker until x z.
Proof.
  intros [E1 E2 H1 H2] [F1 F2 G1 G2]. split; [congruence|congruence| |eauto].
  intros name row' (row1 & Hy & Eb & Ho)%G1. apply H1 in Hy as (row & Hx & Eb' & Ho'). exists row. split; [done|].
  split; [congruence|]. destruct Ho as [->|]; [done|by right].
Qed.

Lemma claim_activation_leases worker now until name db o db' : now < until ->
  claim_activation sk worker now until name db = Ok (o, db') ->
  leases worker until db db' /\ forall a, o = Some a -> exists row, cron_activations db' !! (sk, name) = Some row
    /\ decode_activation name row = Ok a /\ a_lease_owner row <> None /\ a_lease_until row = Some until.
Proof.
  intros Hlt. unfold claim_activation. destruct (cron_activations db !! (sk, name)) as [row|] eqn:Er;
    [|intros [= <- <-]; split; [apply leases_refl|done]].
  destruct (activation_due now row) eqn:Ed; [|intros [= <- <-]; split; [apply leases_refl|done]].
  destruct (_ <? _); [done|]. intros (a & Ha & [= <- <-])%rbind_Ok. split.
  - split; cbn [cron_environments cron_operations cron_activations set_activations]; [done|done|..].
    + intros name' row'. destruct (decide (name' = name)) as [->|Hne].
      * rewrite lookup_insert_eq. intros [= <-]. exists row. split; [done|]. split; [done|]. by right.
      * rewrite lookup_insert_ne by congruence. intros Hr. exists row'. split; [done|]. split; [done|]. by left.
    + intros name' row' Hr Ho Hu. destruct (decide (name' = name)) as [->|Hne]; [|by rewrite lookup_insert_ne by congruence].
      rewrite Er in Hr. injection Hr as <-. unfold activation_due in Ed. apply andb_true_iff in Ed as [_ Ed].
      destruct (a_lease_owner row); [|done]. rewrite Hu in Ed. lia.
  - intros a' [= <-]. exists (leased_row worker now until row). cbn [cron_activations set_activations].
    rewrite lookup_insert_eq. done.
Qed.

Lemma claim_names_leases worker now until names db l db' : now < until ->
  claim_names sk worker now until names db = Ok (l, db') ->
  leases worker until db db' /\ Forall (fun a => exists row, cron_activations db' !! (sk, cron_name_str (ca_name a)) = Some row
    /\ decode_activation (cron_name_str (ca_name a)) row = Ok a) l.
Proof.
  intros Hlt. revert db l db'. induction names as [|name names IH]; intros db l db'; cbn [claim_names].
  { intros [= <- <-]. split; [apply leases_refl|constructor]. }
  intros ([o db1] & H1 & H)%rbind_Ok. apply rbind_Ok in H as ([rest db2] & H2 & [= <- <-]).
  apply claim_activation_leases in H1 as [L1 Ho]; [|done]. apply IH in H2 as [L2 Hl].
  split; [by eapply leases_trans|]. destruct o as [a|]; [|done]. constructor; [|done].
  destruct (Ho a eq_refl) as (row & Hr & Hd & Hw & Hu). exists row. pose proof (decode_activation_Ok _ _ _ Hd) as [[Hn _ _ _ _ _ _ _ _] _].
  rewrite <- Hn. split; [|done]. by eapply (ls_leased _ _ _ _ L2).
Qed.

Lemma claim_due_leases o context worker now until limit db r db' :
  claim_due self o context worker now until limit db = (r, db') ->
  leases (id_to_string worker) until db db'
  /\ forall l, r = Ok l -> context = self /\ Forall (fun a => exists row, cron_activations db' !! (sk, cron_name_str (ca_name a)) = Some row
       /\ decode_activation (cron_name_str (ca_name a)) row = Ok a) l.
Proof.
  unfold claim_due. destruct (validate_context self context) eqn:Ev; [|intros [= <- <-]; split; [apply leases_refl|done]].
  apply validate_context_Ok in Ev as ->.
  destruct (now <? 0); [intros [= <- <-]; split; [apply leases_refl|done]|].
  destruct (Z.leb_spec until now) as [|Hlt]; [intros [= <- <-]; split; [apply leases_refl|done]|].
  destruct (_ || _); [intros [= <- <-]; split; [apply leases_refl|done]|]. intros [H1 H2]%cron_txn_cases. split.
  - destruct H1 as [->|[l H]]; [apply leases_refl|]. apply rbind_Ok in H as ([l' db1] & H & [= <- <-]).
    by eapply claim_names_leases.
  - intros l Hr. destruct (H2 l Hr) as (od & H & ->). apply rbind_Ok in H as ([l' db1] & H & [= <- <-]).
    split; [done|]. by eapply claim_names_leases.
Qed.

Lemma claim_inv o context worker now until limit w : cron_inv w ->
  cron_inv (mkCronWorld (snd (claim_due self o context worker now until limit (cw_repository w))) (cw_store w)).
Proof.
  intros [Hdb Hop Hrow Hcr Hdone]. destruct (claim_due _ _ _ _ _ _ _ _) as [r db'] eqn:E. apply claim_due_leases in E as [[E1 E2 Hr _] _].
  split; cbn [snd cw_store cw_repository]; [done|..].
  - intros op' o'. rewrite E1, E2. apply Hop.
  - intros name row' (row & Hl & Eb & _)%Hr. rewrite E1. apply Hrow in Hl.
    by replace (a_activation_revision row') with (a_activation_revision row) by (injection Eb; congruence).
  - intros name row' (row & Hl & Eb & _)%Hr. rewrite E2.
    replace (a_activation_revision row') with (a_activation_revision row) by (injection Eb; congruence). by eapply Hcr.
  - intros name row' a (row & Hl & Eb & _)%Hr Hd. rewrite Eb in Hd. destruct (Hdone _ _ _ Hl Hd) as [Hi Ht].
    replace (a_next_tick row') with (a_next_tick row) by (injection Eb; congruence). split; [done|].
    unfold ticks_done in *. by rewrite E2.
Qed.

(** What a completion leaves. *)
Lemma complete_cases o context name worker generation expected next completed db :
  snd (complete_tick self o context name worker generation expected next completed db) = db
  \/ exists row, cron_activations db !! (sk, cron_name_str name) = Some row
       /\ a_lease_owner row = Some (id_to_string worker) /\ a_lease_generation row = generation /\ a_next_tick row = expected
       /\ 0 <= expected < next
       /\ snd (complete_tick self o context name worker generation expected next completed db)
          = set_activations (<[(sk, cron_name_str name) := advanced_row next completed row]> (cron_activations db)) db.
Proof.
  unfold complete_tick. destruct (validate_context self context) eqn:Ev; [|by left]. apply validate_context_Ok in Ev as ->.
  destruct (_ =? 0); [by left|]. destruct (Z.ltb_spec expected 0); [by left|]. destruct (Z.leb_spec next expected); [by left|].
  destruct (_ <? 0); [by left|]. cbn [orb]. unfold complete_inner, cron_positive_i64. destruct (_ && _); [|by left].
  unfold advance. destruct (cron_activations db !! _) as [row|] eqn:Er; [|destruct o as [| |[]]; by left].
  destruct (_ && _ && _) eqn:Ec; [|destruct o as [| |[]]; by left].
  apply andb_true_iff in Ec as [[Ho%bool_decide_eq_true Hg%Z.eqb_eq]%andb_true_iff Ht%Z.eqb_eq].
  assert (0 <= expected < next) as Hlt by lia.
  destruct o as [| |[]]; [right|by left|right|by left]; by exists row.
Qed.

Lemma complete_inv o context name worker generation expected next completed w : cron_inv w ->
  earned w worker name generation expected next ->
  cron_inv (mkCronWorld (snd (complete_tick self o context name worker generation expected next completed (cw_repository w))) (cw_store w)).
Proof.
  intros Hi He. destruct (complete_cases o context name worker generation expected next completed (cw_repository w))
    as [->|(row & Hr & Ho & Hg & Ht & Hlt & ->)]; [by destruct w|].
  destruct Hi as [Hdb Hop Hrow Hcr Hdone]. split; cbn [cw_store cw_repository cron_environments cron_activations cron_operations set_activations]; [done|done|..].
  - intros name' row' [[_ <-]|[_ H]]%lookup_insert_Some; [exact (Hrow _ _ Hr)|exact (Hrow _ _ H)].
  - intros name' row' [[_ <-]|[_ H]]%lookup_insert_Some; [exact (Hcr _ _ Hr)|exact (Hcr _ _ H)].
  - intros name' row' a' [[[= <-] <-]|[_ H]]%lookup_insert_Some Hd; [|by eapply Hdone].
    destruct (decode_activation_Ok _ _ _ Hd) as [D Hat]. pose proof (de_tick _ _ _ D) as Et. cbn in Et.
    specialize (Hat expected ltac:(lia)). assert (decode_activation (cron_name_str name) (bare row) = Ok (at_tick a' expected)) as Hd0
      by (unfold bare; rewrite Ht; exact Hat).
    destruct (He row _ Hr Ho Hg Ht Hd0) as [Hj Hn]. apply next_after_Ok in Hn as (Hi & _ & _ & Hno). split; [done|].
    intros op' o' Hop' Er m Hm Hmatch. destruct (Hdone _ _ _ Hr Hd0) as [_ Hold].
    destruct (Z.lt_trichotomy (m * MICROS_PER_MINUTE) expected) as [Hlt'|[E|Hgt]].
    + apply (Hold op' o' Hop' Er m); [|done]. cbn. lia.
    + by rewrite E.
    + cbn [ca_schedule at_tick] in Hno. rewrite Hno in Hmatch; [done|lia].
Qed.

Lemma journaled_keeps db db' a : scope_ok scope -> keeps sha256 scope db db' -> journaled db a -> journaled db' a.
Proof.
  intros Hs Hk (b & dg & row & Hb & Hd & Ho & Hg). exists b, dg, row. split_and!; try done.
  by apply (keeps_journal sha256 scope _ _ _ Hs (rtc_once _ _ Hk)) in Ho as [? _].
Qed.

Hypothesis self_ok : scope_ok scope.

Lemma cron_step_inv worker w w' : cron_inv w -> cron_step worker w w' -> cron_inv w'.
Proof.
  intros Hi [o context op command|o context now until limit|o context name g e n t He|db' Hk|cdb' E1 E2 E3].
  - by apply command_inv.
  - by apply claim_inv.
  - by apply complete_inv.
  - destruct Hi as [Hdb Hop Hrow Hcr Hdone]. split; try done; [by eapply keeps_ok|].
    intros name row a Hr Hd. destruct (Hdone _ _ _ Hr Hd) as [Hi Ht]. split; [done|].
    intros op o Ho Er m Hm Hmatch. eapply journaled_keeps; [done|exact Hk|by eapply Ht].
  - destruct Hi as [Hdb Hop Hrow Hcr Hdone]. split; cbn [cw_repository cw_store]; [done|..].
    + intros op o. rewrite E1, E3. apply Hop.
    + intros name row. rewrite E1, E2. apply Hrow.
    + intros name row. rewrite E2. intros (op & o & Ho & Er)%Hcr. exists op, o. by rewrite E3.
    + intros name row a. rewrite E2. intros Hr Hd. destruct (Hdone _ _ _ Hr Hd) as [Hi Ht]. split; [done|].
      intros op o. rewrite E3. apply Ht.
Qed.

(** ** Polls *)

Lemma cron_step_rows worker w w' name row : cron_step worker w w' ->
  cron_activations (cw_repository w') !! (sk, name) = Some row ->
  cron_activations (cw_repository w) !! (sk, name) = Some row
  \/ a_lease_owner row = None \/ a_lease_owner row = Some (id_to_string worker).
Proof.
  intros [o context op command|o context now until limit|o context n g e nx t He|db' Hk|cdb' E1 E2 E3];
    cbn [cw_repository]; [| | |by left|by rewrite E2; left].
  - destruct (apply_cases o context op command (cw_repository w)) as [->|(next & count & dg & db1 & _ & _ & C & ->)]; [by left|].
    intros [Hr|C']%(cg_activations _ _ _ _ C); [by left|]. right. left. apply C'.
  - destruct (claim_due _ _ _ _ _ _ _ _) as [r db'] eqn:E. apply claim_due_leases in E as [L _]. cbn [snd].
    intros (row0 & Hr & _ & [->|Ho])%(ls_rows _ _ _ _ L); [by left|by right; right].
  - destruct (complete_cases o context n worker g e nx t (cw_repository w)) as [->|(row0 & Hr & _ & _ & _ & _ & ->)]; [by left|].
    cbn [cron_activations set_activations]. intros [[_ <-]|[_ ?]]%lookup_insert_Some; [by right; left|by left].
Qed.

Lemma tick_batch_wf name row a b : decode_activation name row = Ok a -> is_i64 (ca_next_tick a) = true ->
  tick_batch sha256 self a = Ok b -> batch_wf b /\ b_scope b = scope.
Proof.
  intros [D _]%decode_activation_Ok Hi. unfold tick_batch, tick_ids.
  assert (forall l, ulid_range (from_be (take 16 l))) as Hr.
  { intros l. pose proof (from_be_range (take 16 l)) as H. unfold ulid_range. split; [lia|].
    apply Z.lt_le_trans with (256 ^ len (take 16 l)); [lia|]. change (2 ^ 128) with (256 ^ 16).
    apply Z.pow_le_mono_r; [lia|]. unfold len. rewrite length_take. lia. }
  intros (key & _ & [= <-])%rbind_Ok. split; [|done]. split; cbn; try done; [apply Hr|].
  constructor; [|done]. split; [apply Hr|]. cbn. destruct D. done.
Qed.

Section worker.
Variables (worker : WorkerId) (config : CronMaterializerConfig) (cu : CronSurroundings Db (TxnOutcome * option Z)).
Hypothesis worker_ok : id_ok worker.
#[local] Instance tick_store : LogicalStore Db SqliteSnapshot (TxnOutcome * option Z) := sqlite_store sha256.

(** The steps of the others, and of all. *)
Definition other_step (w w' : world) : Prop := exists worker', id_ok worker' /\ worker' <> worker /\ cron_step worker' w w'.
Definition any_cron_step (w w' : world) : Prop := exists worker', cron_step worker' w w'.
Hypothesis between_ok : forall n w, rtc other_step w (cu_between cu n w).

Lemma any_cron_inv w w' : cron_inv w -> rtc any_cron_step w w' -> cron_inv w'.
Proof. intros Hi. induction 1 as [|x y z [worker' Hs] _ IH]; [done|]. apply IH. by eapply cron_step_inv. Qed.

Lemma others_any w w' : rtc other_step w w' -> rtc any_cron_step w w'.
Proof. intros H. eapply rtc_subrel; [|exact H]. intros x y (worker' & _ & _ & Hs). by exists worker'. Qed.

(** While the worker owns the row, the row is as it was claimed. *)
Definition holding (a : CronActivation) (w : world) : Prop :=
  forall row, cron_activations (cw_repository w) !! (sk, cron_name_str (ca_name a)) = Some row ->
    a_lease_owner row = Some (id_to_string worker) -> decode_activation (cron_name_str (ca_name a)) row = Ok a.

Lemma holding_others a w w' : rtc other_step w w' -> holding a w -> holding a w'.
Proof.
  induction 1 as [|x y z (worker' & Hid & Hne & Hs) _ IH]; [done|]. intros Hh. apply IH. intros row Hr Ho.
  destruct (cron_step_rows _ _ _ _ _ Hs Hr) as [Hr'|[E|E]]; [by apply Hh|congruence|].
  rewrite Ho in E. assert (id_to_string worker = id_to_string worker') as E' by congruence.
  apply id_to_string_inj in E'; [|done..]. congruence.
Qed.

Lemma journaled_any a w w' : rtc any_cron_step w w' -> journaled (cw_store w) a -> journaled (cw_store w') a.
Proof.
  induction 1 as [|x y z [worker' Hs] _ IH]; [done|]. intros Hj. apply IH.
  destruct Hs as [| | |db' Hk|]; try done. by eapply journaled_keeps.
Qed.

(** What is known of a claimed activation. *)
Definition claimed_ok (a : CronActivation) : Prop :=
  exists name row, decode_activation name row = Ok a /\ is_i64 (ca_next_tick a) = true.

Lemma commit_tick a b o clock w r db' : cron_inv w -> claimed_ok a -> tick_batch sha256 self a = Ok b ->
  commit sha256 o clock b (cw_store w) = (r, db') ->
  any_cron_step w (mkCronWorld (cw_repository w) db') /\ forall res, r = Ok res -> journaled db' a.
Proof.
  intros Hi (name & row & Hd & Hn) Hb Hc. destruct (tick_batch_wf name row a b Hd Hn Hb) as [W Hs]. split.
  - exists worker. apply cron_store. exists scope. split; [done|]. left.
    replace db' with (snd (commit sha256 o clock b (cw_store w))) by by rewrite Hc. by apply step_commit.
  - intros res ->. destruct (commit_recorded sha256 o clock b _ _ _ (ci_ok _ Hi) W Hc) as (dg & res' & Hdg & Hl & _); [by left|].
    unfold load_operation in Hl. rewrite Hs in Hl. destruct (operations db' !! _) as [orow|] eqn:Eo; [|done].
    exists b, dg, orow. split_and!; try done. by destruct (bool_decide_reflect (op_batch_digest orow <> dg)) as [|E%dec_stable] in Hl.
Qed.

Lemma complete_earned a w next : holding a w -> journaled (cw_store w) a ->
  next_after (ca_schedule a) (ca_next_tick a) = Ok next -> earned w worker (ca_name a) (ca_lease_generation a) (ca_next_tick a) next.
Proof.
  intros Hh Hj Hn row a' Hr Ho _ _ Hd. pose proof (Hh row Hr Ho) as Ha. pose proof (decode_bare _ _ _ Ha) as Hb.
  rewrite Hd in Hb. injection Hb as ->. pose proof (decode_activation_Ok _ _ _ Ha) as [D _].
  split; [|exact Hn]. rewrite <- (de_tick _ _ _ D). exact Hj.
Qed.

Lemma holding_own a a' o generation expected next completed w : holding a w ->
  holding a (mkCronWorld (snd (complete_tick self o self (ca_name a') worker generation expected next completed (cw_repository w))) (cw_store w)).
Proof.
  intros Hh row. cbn [cw_repository].
  destruct (complete_cases o self (ca_name a') worker generation expected next completed (cw_repository w))
    as [->|(row0 & _ & _ & _ & _ & _ & ->)]; [apply Hh|].
  cbn [cron_activations set_activations]. intros [[_ <-]|[_ Hr]]%lookup_insert_Some; [done|by apply Hh].
Qed.

Lemma materialize_steps now n claimed outcome w r w' : cron_inv w -> Forall claimed_ok claimed ->
  Forall (fun a => holding a w) claimed ->
  materialize sha256 self self worker cu now n claimed outcome w = (r, w') -> rtc any_cron_step w w'.
Proof.
  intros Hi Hc. revert n outcome w Hi. induction Hc as [|a claimed Ha _ IH]; intros n outcome w Hi Hh; cbn [materialize].
  { by intros [= <- <-]. }
  apply Forall_cons in Hh as [Hha Hh].
  destruct (tick_batch sha256 self a) as [b|] eqn:Hb; [|by intros [= <- <-]].
  pose proof (between_ok n w) as B1. pose proof (any_cron_inv _ _ Hi (others_any _ _ B1)) as Hi1.
  set (w1 := cu_between cu n w) in *. cbn [ls_commit tick_store sqlite_store].
  destruct (commit _ _ _ _ _) as [r1 db1] eqn:Ec.
  destruct (commit_tick a b _ _ w1 r1 db1 Hi1 Ha Hb Ec) as [S1 Hj]. pose proof (any_cron_inv _ _ Hi1 (rtc_once _ _ S1)) as Hi2.
  set (w2 := mkCronWorld _ db1) in *.
  assert (rtc any_cron_step w w2) as R2 by (eapply rtc_r; [by apply others_any|exact S1]).
  destruct r1 as [res|]; cbn [map_err]; [|by intros [= <- <-]]. specialize (Hj res eq_refl).
  destruct (next_after _ _) as [next|] eqn:En; [|by intros [= <- <-]].
  pose proof (between_ok (S n) w2) as B2. pose proof (any_cron_inv _ _ Hi2 (others_any _ _ B2)) as Hi3.
  assert (forall x, holding x w -> holding x (cu_between cu (S n) w2)) as Hkeep.
  { intros x Hx. eapply holding_others; [exact B2|]. eapply (holding_others x w w1 B1 Hx). }
  pose proof (journaled_any a _ _ (others_any _ _ B2) Hj) as Hj3. set (w3 := cu_between cu (S n) w2) in *.
  pose proof (complete_earned a w3 next (Hkeep a Hha) Hj3 En) as He.
  pose proof (cron_complete worker w3 (cu_repository cu (S n)) self _ _ _ _ now He) as S3.
  assert (forall x, holding x w -> holding x (mkCronWorld (snd (complete_tick self (cu_repository cu (S n)) self (ca_name a) worker
    (ca_lease_generation a) (ca_next_tick a) next now (cw_repository w3))) (cw_store w3))) as Hk3 by (intros; by apply holding_own, Hkeep).
  destruct (complete_tick _ _ _ _ _ _ _ _ _ _) as [r3 db3]. cbn [snd] in S3, Hk3.
  assert (rtc any_cron_step w (mkCronWorld db3 (cw_store w3))) as R3.
  { etrans; [exact R2|]. eapply rtc_r; [by apply others_any|]. by exists worker. }
  assert (Forall (fun x => holding x (mkCronWorld db3 (cw_store w3))) claimed) as Hh3 by (eapply Forall_impl; [exact Hh|apply Hk3]).
  pose proof (any_cron_inv _ _ Hi R3) as Hi4.
  destruct r3 as [[]|e3]; [intros H; etrans; [exact R3|by eapply IH]|].
  destruct e3; try (by intros [= <- <-]). intros H; etrans; [exact R3|by eapply IH].
Qed.

Lemma poll_steps now w r w' : cron_inv w -> poll_at sha256 self self worker config cu now w = (r, w') -> rtc any_cron_step w w'.
Proof.
  intros Hi. unfold poll_at. destruct (now <? 0); [by intros [= <- <-]|]. destruct (rbind _ _) as [until|]; [|by intros [= <- <-]].
  pose proof (between_ok 0 w) as B. pose proof (any_cron_inv _ _ Hi (others_any _ _ B)) as Hi1. set (w1 := cu_between cu 0 w) in *.
  pose proof (cron_claim worker w1 (cu_repository cu 0) self now until (cm_batch_size config)) as S1.
  destruct (claim_due _ _ _ _ _ _ _ _) as [r1 db1] eqn:Ec. cbn [snd] in S1. apply claim_due_leases in Ec as [_ Hl].
  assert (rtc any_cron_step w (mkCronWorld db1 (cw_store w1))) as R1 by (eapply rtc_r; [by apply others_any|by exists worker]).
  pose proof (any_cron_inv _ _ Hi R1) as Hi2.
  destruct (rbind r1 _) as [[claimed count]|] eqn:Er; [|by intros [= <- <-]].
  apply rbind_Ok in Er as (l & -> & Er). apply rbind_Ok in Er as (k & _ & [= <- <-]). destruct (Hl l eq_refl) as [_ Hrows].
  intros H. etrans; [exact R1|]. eapply materialize_steps; [exact Hi2| | |exact H]; (eapply Forall_impl; [exact Hrows|]);
    intros a (row & Hr & Hd).
  - exists (cron_name_str (ca_name a)), row. split; [done|]. pose proof (decode_bare _ _ _ Hd) as Hb.
    destruct (ci_done _ Hi2 _ _ _ Hr Hb) as [Hb64 _]. pose proof (decode_activation_Ok _ _ _ Hd) as [D _].
    by rewrite (de_tick _ _ _ D).
  - intros row' Hr' _. cbn [cw_repository] in Hr'. congruence.
Qed.
End worker.

(** ** Runs *)

Inductive cron_run (w : world) : world -> Prop :=
| run_command o context op command :
    cron_run w (mkCronWorld (snd (apply sha256 self o context op command (cw_repository w))) (cw_store w))
| run_store db' : keeps sha256 scope (cw_store w) db' -> cron_run w (mkCronWorld (cw_repository w) db')
| run_poll worker config cu now r w' : id_ok worker -> (forall n w, rtc (other_step worker) w (cu_between cu n w)) ->
    poll_at (LS := sqlite_store sha256) sha256 self self worker config cu now w = (r, w') -> cron_run w w'.

Lemma cron_run_inv w w' : cron_inv w -> rtc cron_run w w' -> cron_inv w'.
Proof.
  intros Hi. induction 1 as [|w w1 w2 Hs _ IH]; [done|]. apply IH.
  destruct Hs as [o context op command|db' Hk|worker config cu now r w1 Hw Hb Hp].
  - by apply command_inv.
  - exact (cron_step_inv (from_ulid 0) w _ Hi (cron_store _ _ _ Hk)).
  - apply (any_cron_inv w w1 Hi). by eapply poll_steps.
Qed.

Lemma cron_inv_empty db : db_ok db -> cron_inv (mkCronWorld empty_cron_db db).
Proof. intros Hdb. split; cbn; [done|..]; intros; simplify_map_eq. Qed.

Lemma snapshot_rows cdb s a : snapshot self self cdb = Ok s -> a ∈ cs_activations s ->
  exists name row, cron_activations cdb !! (sk, name) = Some row /\ decode_activation name row = Ok a.
Proof.
  unfold snapshot. intros (_ & _ & H)%rbind_Ok. apply rbind_Ok in H as (l & Hl%try_map_Ok & H).
  apply rbind_Ok in H as (d & _ & H). apply rbind_Ok in H as (rev & _ & H). apply rbind_Ok in H as (_ & _ & [= <-]).
  cbn [cs_activations]. intros Ha. apply list_elem_of_lookup in Ha as [k Hk].
  destruct (Forall2_lookup_r _ _ _ _ _ Hl Hk) as ([[sk' name] row] & Hrow & Hd). apply list_elem_of_lookup_2 in Hrow.
  rewrite order_by_perm in Hrow. apply list_elem_of_filter in Hrow as [E Hrow]. cbn in E, Hd. subst sk'.
  exists name, row. split; [by apply elem_of_map_to_list|done].
Qed.

(** C4: No occurrence of a Cron schedule is skipped.  Start with no activation and let commands, any use
    of the store short of erasing the Environment, and polls of any number of workers follow in any
    order, the steps of other workers falling between the steps of a poll, with transactions that fail
    or take effect unanswered and leases that expire.  Then every activation the repository reports
    was created by one recorded command, and every minute that its schedule matches, after the time of
    that command and before the activation's cursor, has the commit of its scheduled invocation in the
    store's operation journal. *)
Theorem no_tick_skipped db w s a : db_ok db -> rtc cron_run (mkCronWorld empty_cron_db db) w ->
  snapshot self self (cw_repository w) = Ok s -> a ∈ cs_activations s ->
  exists op o, cron_operations (cw_repository w) !! (sk, op) = Some o /\ co_repository_revision o = ca_activation_revision a
    /\ forall m, co_created_at o < m * MICROS_PER_MINUTE < ca_next_tick a -> matches_minute (ca_schedule a) m = true ->
         journaled (cw_store w) (at_tick a (m * MICROS_PER_MINUTE)).
Proof.
  intros Hdb Hr Hs Ha. pose proof (cron_run_inv _ _ (cron_inv_empty db Hdb) Hr) as Hi.
  destruct (snapshot_rows _ _ _ Hs Ha) as (name & row & Hrow & Hd). pose proof (decode_activation_Ok _ _ _ Hd) as [D _].
  destruct (ci_created _ Hi _ _ Hrow) as (op & o & Ho & Er). exists op, o. rewrite (de_revision _ _ _ D). split; [done|].
  split; [done|]. intros m Hm Hmatch. destruct (ci_done _ Hi _ _ _ Hrow (decode_bare _ _ _ Hd)) as [_ Ht].
  apply (Ht op o Ho); [by rewrite <- (de_revision _ _ _ D) in Er| |done]. cbn. by rewrite <- (de_tick _ _ _ D).
Qed.
End ticks.

(** ** An example *)

(** The daily Cron of the sample manifest is activated at the epoch and polled an hour after its first
    occurrence. *)
Definition tick_scope : EnvironmentScope := mkScope (from_ulid 2) (from_ulid 7).
Definition tick_context : CronContext := mkCronContext tick_scope (local_development (from_ulid 7)).
Definition tick_worker : WorkerId := from_ulid 8.
Definition HOUR : Z := 60 * MICROS_PER_MINUTE.
Definition activate : CronCommand :=
  CC_ActivateManifest 0 (PC_Release (from_ulid 1))
    match encode_release_manifest sample_manifest with Ok b => b | Err _ => [] end 0.
Definition calm_cron : CronSurroundings Db (TxnOutcome * option Z) :=
  mkCronSurroundings (fun _ w => w) (fun _ => CT_Commit) (fun _ => (TO_Commit, Some 50)).

Definition cron_activated : CronWorld Db :=
  mkCronWorld (snd (apply team_sha tick_context CT_Commit tick_context (from_ulid 9) activate empty_cron_db)) empty_db.
Definition cron_polled : CronWorld Db :=
  snd (poll_at (LS := sqlite_store team_sha) team_sha tick_context tick_context tick_worker CRON_MATERIALIZER_DEFAULT calm_cron
         (4 * HOUR) cron_activated).
Definition cron_status : CronSnapshot :=
  match snapshot tick_context tick_context (cw_repository cron_polled) with Ok s => s | Err _ => mkCronSnapshot 0 [] [] end.
Definition daily : CronActivation :=
  match cs_activations cron_status with
  | a :: _ => a
  | [] => mkCronActivation (mkCronName []) 0 (PC_Release (from_ulid 1)) (from_ulid 1) (cron_schedule sample_cron)
            (mkFunctionName []) CV_Null 0 0 None None
  end.

Lemma tick_scope_ok : scope_ok tick_scope.
Proof. split; done. Qed.

Lemma cron_polled_run : rtc (cron_run team_sha tick_context) (mkCronWorld empty_cron_db empty_db) cron_polled.
Proof.
  eapply rtc_l; [exact (run_command team_sha tick_context (mkCronWorld empty_cron_db empty_db) CT_Commit tick_context (from_ulid 9) activate)|].
  apply rtc_once. refine (run_poll team_sha tick_context _ tick_worker CRON_MATERIALIZER_DEFAULT calm_cron (4 * HOUR) _ _ _
    (fun _ w => rtc_refl _ w) (surjective_pairing _)). done.
Qed.

Lemma cron_status_is : snapshot tick_context tick_context (cw_repository cron_polled) = Ok cron_status.
Proof. unfold cron_status. destruct (snapshot _ _ _) eqn:E; [done|]. vm_compute in E. discriminate E. Qed.

Lemma daily_reported : cs_activations cron_status = [daily] /\ ca_next_tick daily = 27 * HOUR
  /\ matches_minute (ca_schedule daily) 180 = true.
Proof. by vm_compute. Qed.

Lemma no_tick_skipped_witness : exists op o,
  cron_operations (cw_repository cron_polled) !! (scope_key tick_scope, op) = Some o
  /\ co_repository_revision o = ca_activation_revision daily
  /\ forall m, co_created_at o < m * MICROS_PER_MINUTE < ca_next_tick daily -> matches_minute (ca_schedule daily) m = true ->
       journaled team_sha tick_context (cw_store cron_polled) (at_tick daily (m * MICROS_PER_MINUTE)).
Proof.
  assert (daily ∈ cs_activations cron_status) as Hd by (rewrite (proj1 daily_reported); left).
  exact (no_tick_skipped team_sha tick_context tick_scope_ok empty_db cron_polled cron_status daily db_ok_empty cron_polled_run
    cron_status_is Hd).
Defined.

(** The command, and the same after a worker has claimed what it activated. *)
Definition activated : CronDb := snd (apply team_sha tick_context CT_Commit tick_context (from_ulid 9) activate empty_cron_db).
Definition activated_claimed : CronDb :=
  snd (claim_due tick_context CT_Commit tick_context tick_worker (4 * HOUR) (5 * HOUR) 1 activated).

Lemma activate_answer : fst (apply team_sha tick_context CT_Commit tick_context (from_ulid 9) activate empty_cron_db)
  = Ok (mkCronCommandResult 1 1 false).
Proof. vm_compute. reflexivity. Qed.

Lemma cron_command_once_witness : cron_environments activated = {[scope_key tick_scope := 1]}
  /\ apply team_sha tick_context CT_Commit tick_context (from_ulid 9) activate activated_claimed
     = (Ok (mkCronCommandResult 1 1 true), activated_claimed).
Proof.
  pose proof (surjective_pairing (apply team_sha tick_context CT_Commit tick_context (from_ulid 9) activate empty_cron_db)) as E.
  rewrite activate_answer in E.
  assert (CronCommand_validate (CC_DeactivateAll 1 5) tick_context = Ok None) as Hv by by vm_compute.
  destruct (CronCommand_digest team_sha (CC_DeactivateAll 1 5) tick_context) as [dg|] eqn:Hd; [|vm_compute in Hd; discriminate Hd].
  destruct (cron_command_once team_sha tick_context CT_Commit tick_context (from_ulid 9) activate (CC_DeactivateAll 1 5)
    empty_cron_db _ _ activated_claimed None dg E (or_introl eq_refl)
    (rtc_once _ _ (repository_claim team_sha activated tick_context CT_Commit tick_context tick_worker (4 * HOUR) (5 * HOUR) 1)) Hv Hd)
    as (revision & count & Ha & Hset & _ & Hagain & _).
  destruct (Ha _ eq_refl) as [<- <-]. destruct (Hset eq_refl) as (_ & _ & He & _). split; [exact He|exact Hagain].
Defined.
