(* ===== verification/Routing.v ===== *)
(** * Release lifecycle and routing: [crates/runku-releases/src/routing.rs]

    The lifecycle of a Release, the serving configuration of one Environment and the resolution of a
    request's target against it. *)

From Stdlib Require Import Strings.Byte ZArith Lia.
From stdpp Require Import prelude strings gmap sorting list relations.
From S2P Require Import Prelude Order Ulid Value Core Release Manifest.

(** ** Lifecycle *)

Inductive ReleaseStatus : Type :=
| LC_Created | LC_Building | LC_BuildFailed | LC_Validating | LC_ValidationFailed | LC_CompatibilityBlocked
| LC_MigrationRequired | LC_Ready | LC_Servable | LC_Active | LC_Deprecated | LC_Retired | LC_GarbageCollected.
#[export] Instance ReleaseStatus_eq_dec : EqDecision ReleaseStatus.
Proof. solve_decision. Defined.

Definition advance (current next : ReleaseStatus) : result ReleaseError ReleaseStatus :=
  let allowed :=
    match current, next with
    | LC_Created, LC_Building
    | LC_Building, (LC_BuildFailed | LC_Validating)
    | LC_Validating, (LC_ValidationFailed | LC_CompatibilityBlocked | LC_MigrationRequired | LC_Ready)
    | (LC_CompatibilityBlocked | LC_MigrationRequired), LC_Validating
    | LC_Ready, LC_Servable
    | LC_Servable, LC_Deprecated
    | LC_Deprecated, LC_Retired
    | LC_Retired, LC_GarbageCollected => true
    | _, _ => false
    end in
  if allowed then Ok next else Err RE_InvalidTransition.

Definition with_channel_reference (current : ReleaseStatus) (referenced : bool) : result ReleaseError ReleaseStatus :=
  match current, referenced with
  | (LC_Servable | LC_Active), true => Ok LC_Active
  | (LC_Servable | LC_Active), false => Ok LC_Servable
  | _, _ => Err RE_InvalidTransition
  end.

Definition ReleaseStatus_as_str (self : ReleaseStatus) : bytes :=
  match self with
  | LC_Created => text "created"
  | LC_Building => text "building"
  | LC_BuildFailed => text "build_failed"
  | LC_Validating => text "validating"
  | LC_ValidationFailed => text "validation_failed"
  | LC_CompatibilityBlocked => text "compatibility_blocked"
  | LC_MigrationRequired => text "migration_required"
  | LC_Ready => text "ready"
  | LC_Servable => text "servable"
  | LC_Active => text "active"
  | LC_Deprecated => text "deprecated"
  | LC_Retired => text "retired"
  | LC_GarbageCollected => text "garbage_collected"
  end.

Definition explicitly_invocable (self : ReleaseStatus) : bool :=
  match self with LC_Servable | LC_Active | LC_Deprecated => true | _ => false end.

Definition ReleaseStatus_from_str (value : bytes) : result ReleaseError ReleaseStatus :=
  if bool_decide (value = text "created") then Ok LC_Created
  else if bool_decide (value = text "building") then Ok LC_Building
  else if bool_decide (value = text "build_failed") then Ok LC_BuildFailed
  else if bool_decide (value = text "validating") then Ok LC_Validating
  else if bool_decide (value = text "validation_failed") then Ok LC_ValidationFailed
  else if bool_decide (value = text "compatibility_blocked") then Ok LC_CompatibilityBlocked
  else if bool_decide (value = text "migration_required") then Ok LC_MigrationRequired
  else if bool_decide (value = text "ready") then Ok LC_Ready
  else if bool_decide (value = text "servable") then Ok LC_Servable
  else if bool_decide (value = text "active") then Ok LC_Active
  else if bool_decide (value = text "deprecated") then Ok LC_Deprecated
  else if bool_decide (value = text "retired") then Ok LC_Retired
  else if bool_decide (value = text "garbage_collected") then Ok LC_GarbageCollected
  else Err RE_Corruption.

(** ** Snapshots *)

#[export] Program Instance ChannelName_countable : Countable ChannelName := inj_countable' channel_str mkChannelName _.
Next Obligation. by intros []. Qed.

Record ServingReleaseEntry : Type := mkServingReleaseEntry {
  se_release_id : ReleaseId;
  se_project_id : ProjectId;
  se_manifest_digest : Sha256Digest;
  se_artifact : ArtifactDescriptor;
  se_runtime_version : RuntimeVersion;
  se_status : ReleaseStatus
}.
Record ChannelBinding : Type := mkChannelBinding { cb_channel : ChannelName; cb_release_id : ReleaseId }.

Record ServingSnapshot : Type := mkServingSnapshot {
  sn_scope : EnvironmentScope;
  sn_revision : Z;
  sn_releases : gmap ReleaseId ServingReleaseEntry;
  sn_channels : gmap ChannelName ReleaseId;
  sn_default_channel : option ChannelName
}.

(** The first loop of [new]: the map of the Releases. *)
Definition add_release (scope : EnvironmentScope) (m : gmap ReleaseId ServingReleaseEntry) (release : ServingReleaseEntry)
  : result ReleaseError (gmap ReleaseId ServingReleaseEntry) :=
  if bool_decide (se_project_id release <> Core.project_id scope) || bool_decide (is_Some (m !! se_release_id release))
  then Err RE_InvalidSnapshot else Ok (<[se_release_id release := release]> m).

(** The second loop: the map of the Channels and the Releases they refer to. *)
Definition add_channel (releases : gmap ReleaseId ServingReleaseEntry) (st : gmap ChannelName ReleaseId * gset ReleaseId)
  (binding : ChannelBinding) : result ReleaseError (gmap ChannelName ReleaseId * gset ReleaseId) :=
  let '(channels, referenced) := st in
  if bool_decide (is_Some (channels !! cb_channel binding)) then Err RE_InvalidSnapshot else
  let? release := ok_or RE_InvalidSnapshot (releases !! cb_release_id binding) in
  if bool_decide (se_status release <> LC_Active) then Err RE_InvalidSnapshot
  else Ok (<[cb_channel binding := cb_release_id binding]> channels, {[cb_release_id binding]} ∪ referenced).

(** The third loop: a Release is active exactly when a Channel refers to it. *)
Definition activity_drift (referenced : gset ReleaseId) (release : ServingReleaseEntry) : bool :=
  negb (eqb (bool_decide (se_status release = LC_Active)) (bool_decide (se_release_id release ∈ referenced))).

Definition ServingSnapshot_new (scope : EnvironmentScope) (revision : Z) (releases : list ServingReleaseEntry)
  (channels : list ChannelBinding) (default_channel : option ChannelName) : result ReleaseError ServingSnapshot :=
  if revision =? 0 then Err RE_InvalidSnapshot else
  let? release_map := try_fold (add_release scope) ∅ releases in
  let? (channel_map, referenced) := try_fold (add_channel release_map) (∅, ∅) channels in
  if existsb (fun e => activity_drift referenced (snd e)) (map_to_list release_map) then Err RE_InvalidSnapshot else
  if is_some_and default_channel (fun channel => bool_decide (channel_map !! channel = None)) then Err RE_InvalidSnapshot
  else Ok (mkServingSnapshot scope revision release_map channel_map default_channel).

(** ** The router *)

Record EffectiveRelease : Type := mkEffectiveRelease {
  ef_scope : EnvironmentScope;
  ef_serving_revision : Z;
  ef_release_id : ReleaseId;
  ef_manifest_digest : Sha256Digest;
  ef_artifact : ArtifactDescriptor;
  ef_runtime_version : RuntimeVersion
}.

Definition resolve_release (snapshot : ServingSnapshot) (release_id : ReleaseId) : result ReleaseError EffectiveRelease :=
  let? release := ok_or RE_ReleaseNotFound (sn_releases snapshot !! release_id) in
  if match se_status release with LC_Retired | LC_GarbageCollected => true | _ => false end then Err RE_ReleaseRetired
  else if negb (explicitly_invocable (se_status release)) then Err RE_ReleaseNotServable
  else Ok (mkEffectiveRelease (sn_scope snapshot) (sn_revision snapshot) release_id (se_manifest_digest release)
             (se_artifact release) (se_runtime_version release)).

Definition resolve (snapshot : ServingSnapshot) (target : CodeTarget) : result ReleaseError EffectiveRelease :=
  let? release_id :=
    match target with
    | CT_EnvironmentDefault => Err RE_EnvironmentServingPolicyMissing
    | CT_Release release_id => Ok release_id
    | CT_Channel channel => ok_or RE_ChannelNotFound (sn_channels snapshot !! channel)
    | CT_Workspace _ => Err RE_WorkspaceUnsupported
    end in
  resolve_release snapshot release_id.

Definition resolve_default (snapshot : ServingSnapshot) : result ReleaseError EffectiveRelease :=
  let? channel := ok_or RE_DefaultChannelMissing (sn_default_channel snapshot) in
  let? release_id := ok_or RE_InvalidSnapshot (sn_channels snapshot !! channel) in
  resolve_release snapshot release_id.

(** ** Lives of a Release *)

Inductive status_step (s s' : ReleaseStatus) : Prop :=
| status_advance : advance s s' = Ok s' -> status_step s s'
| status_reference referenced : with_channel_reference s referenced = Ok s' -> status_step s s'.

Lemma status_round_trip s : ReleaseStatus_from_str (ReleaseStatus_as_str s) = Ok s.
Proof. by destruct s. Qed.

(** A Release becomes invocable only through [Ready]. *)
Definition before_ready (s : ReleaseStatus) : bool :=
  match s with
  | LC_Created | LC_Building | LC_BuildFailed | LC_Validating | LC_ValidationFailed | LC_CompatibilityBlocked
  | LC_MigrationRequired => true
  | _ => false
  end.

Lemma served_was_ready s s' : before_ready s = true -> rtc status_step s s' -> explicitly_invocable s' = true ->
  rtc status_step s LC_Ready /\ rtc status_step LC_Ready s'.
Proof.
  intros Hs Hr Hi. induction Hr as [s|s s1 s' Hstep Hr IH]; [by destruct s|].
  destruct (before_ready s1) eqn:E1.
  - destruct (IH eq_refl Hi). split; [by eapply rtc_l|done].
  - assert (s1 = LC_Ready) as -> by (destruct Hstep as [E|b E]; [|destruct b]; by destruct s, s1).
    split; [by apply rtc_once|done].
Qed.

(** A Release that failed or was retired is never served again. *)
Definition finished (s : ReleaseStatus) : bool :=
  match s with LC_BuildFailed | LC_ValidationFailed | LC_Retired | LC_GarbageCollected => true | _ => false end.

Lemma retired_for_good s s' : rtc status_step s s' -> finished s = true -> explicitly_invocable s' = false.
Proof.
  induction 1 as [s|s s1 s' Hstep _ IH]; intros Hf; [by destruct s|]. apply IH.
  destruct Hstep as [E|b E]; [|destruct b]; by destruct s, s1.
Qed.

(** ** Snapshots that are accepted *)

Definition effective (scope : EnvironmentScope) (revision : Z) (r : ServingReleaseEntry) : EffectiveRelease :=
  mkEffectiveRelease scope revision (se_release_id r) (se_manifest_digest r) (se_artifact r) (se_runtime_version r).

Lemma releases_map scope l : forall m m', try_fold (add_release scope) m l = Ok m' ->
  forall id r, m' !! id = Some r <-> m !! id = Some r \/ (r ∈ l /\ se_release_id r = id).
Proof.
  induction l as [|x l IH]; intros m m'; cbn [try_fold]; [intros [= <-] id r; set_solver|].
  rewrite rbind_Ok. intros (m1 & E & H) id r. unfold add_release in E. destruct (_ || _) eqn:G; [done|]. injection E as <-.
  apply orb_false_iff in G as [_ G%bool_decide_eq_false]. rewrite (IH _ _ H). rewrite elem_of_cons.
  destruct (decide (se_release_id x = id)) as [<-|Hne].
  - rewrite lookup_insert_eq. assert (m !! se_release_id x = None) as -> by (by apply eq_None_not_Some). naive_solver.
  - rewrite lookup_insert_ne by done. naive_solver.
Qed.

Lemma channels_map releases l : forall st st', try_fold (add_channel releases) st l = Ok st' ->
  (forall c id, fst st' !! c = Some id <-> fst st !! c = Some id \/ mkChannelBinding c id ∈ l)
  /\ (forall id, id ∈ snd st' <-> id ∈ snd st \/ id ∈ map cb_release_id l)
  /\ (forall b, b ∈ l -> exists r, releases !! cb_release_id b = Some r /\ se_status r = LC_Active).
Proof.
  induction l as [|b l IH]; intros [m refs] st'; cbn [try_fold]; [intros [= <-]; set_solver|].
  rewrite rbind_Ok. intros (st1 & E & H). unfold add_channel in E. case_bool_decide as G; [done|].
  apply rbind_Ok in E as (r & Hr%ok_or_Ok & E). case_bool_decide as Ha; [done|]. injection E as <-.
  apply IH in H as (Hc & Hi & Hb). cbn [fst snd map] in *. split_and!.
  - intros c id. rewrite Hc, elem_of_cons. destruct b as [c' id']. cbn in *. destruct (decide (c' = c)) as [->|Hne].
    + rewrite lookup_insert_eq. assert (m !! c = None) as -> by (by apply eq_None_not_Some). naive_solver.
    + rewrite lookup_insert_ne by done. naive_solver.
  - intros id. rewrite Hi. set_solver.
  - intros x [->|Hx]%elem_of_cons; [by exists r|by apply Hb].
Qed.

(** C28: An accepted serving configuration routes completely.  A Release target resolves exactly when the
    configuration lists that Release in an invocable state, and then to its manifest, artifact and
    runtime; every configured Channel resolves, to the Release it is bound to; an unknown Channel is
    not found; a Release is active exactly when a Channel is bound to it; the default Channel, if there
    is one, resolves; and the other kinds of targets are refused. *)
Theorem snapshot_routes scope revision releases channels default s :
  ServingSnapshot_new scope revision releases channels default = Ok s ->
  (forall id e, resolve s (CT_Release id) = Ok e <->
     exists r, r ∈ releases /\ se_release_id r = id /\ explicitly_invocable (se_status r) = true /\ e = effective scope revision r)
  /\ (forall b, b ∈ channels -> exists r, r ∈ releases /\ se_release_id r = cb_release_id b
        /\ resolve s (CT_Channel (cb_channel b)) = Ok (effective scope revision r))
  /\ (forall c, c ∉ map cb_channel channels -> resolve s (CT_Channel c) = Err RE_ChannelNotFound)
  /\ (forall r, r ∈ releases -> se_status r = LC_Active <-> se_release_id r ∈ map cb_release_id channels)
  /\ (resolve_default s = match default with Some c => resolve s (CT_Channel c) | None => Err RE_DefaultChannelMissing end)
  /\ (forall c, default = Some c -> c ∈ map cb_channel channels)
  /\ resolve s CT_EnvironmentDefault = Err RE_EnvironmentServingPolicyMissing
  /\ (forall w, resolve s (CT_Workspace w) = Err RE_WorkspaceUnsupported).
Proof.
  unfold ServingSnapshot_new. destruct (revision =? 0); [done|]. rewrite rbind_Ok. intros (m & Hm & H).
  apply rbind_Ok in H as ([cm refs] & Hcm & H). destruct (existsb _ _) eqn:Hx; [done|].
  destruct (is_some_and _ _) eqn:Hd; [done|]. injection H as <-.
  pose proof (releases_map _ _ _ _ Hm) as Hrel. destruct (channels_map _ _ _ _ Hcm) as (Hc & Hi & Hb). cbn [fst snd] in *.
  assert (forall id r, m !! id = Some r <-> r ∈ releases /\ se_release_id r = id) as Hrel'.
  { intros id r. rewrite Hrel, lookup_empty. naive_solver. }
  assert (forall c id, cm !! c = Some id <-> mkChannelBinding c id ∈ channels) as Hc'.
  { intros c id. rewrite Hc, lookup_empty. naive_solver. }
  split_and!.
  - intros id e. unfold resolve. cbn [rbind]. unfold resolve_release. cbn [sn_releases sn_scope sn_revision]. split.
    + rewrite rbind_Ok. intros (r & [Hr <-]%ok_or_Ok%Hrel' & E). exists r. destruct (se_status r); try done; by injection E as <-.
    + intros (r & Hr & <- & Hinv & ->). rewrite (proj2 (Hrel' _ r)) by done. cbn [ok_or rbind].
      by destruct (se_status r).
  - intros [c id] Hbc. destruct (Hb _ Hbc) as (r & [Hr Eid]%Hrel' & Ha). exists r. split_and!; [done..|].
    unfold resolve. cbn [sn_channels cb_channel]. rewrite (proj2 (Hc' c id) Hbc). cbn [ok_or rbind]. unfold resolve_release.
    cbn [sn_releases]. cbn in Eid. rewrite (proj2 (Hrel' id r)) by done. cbn. rewrite Ha. cbn. by rewrite <-Eid.
  - intros c Hn. unfold resolve. cbn [sn_channels]. assert (cm !! c = None) as ->; [|done].
    apply eq_None_not_Some. intros [id Hbc%Hc']. apply Hn. by apply (list_elem_of_fmap_2 cb_channel) in Hbc.
  - intros r Hr. assert (activity_drift refs r = false) as Hdr.
    { destruct (activity_drift refs r) eqn:E; [|done]. rewrite (proj2 (existsb_exists _ _)) in Hx; [done|].
      exists (se_release_id r, r). split; [|done]. apply list_elem_of_In, elem_of_map_to_list. by apply Hrel'. }
    unfold activity_drift in Hdr. apply negb_false_iff, eqb_prop in Hdr.
    rewrite <-(bool_decide_eq_true (se_status r = LC_Active)), Hdr, bool_decide_eq_true, Hi. set_solver.
  - unfold resolve_default, resolve. cbn [sn_default_channel sn_channels]. destruct default as [c|]; cbn [ok_or rbind]; [|done].
    cbn in Hd. apply bool_decide_eq_false, not_eq_None_Some in Hd as [id ->]. done.
  - intros c ->. cbn in Hd. apply bool_decide_eq_false, not_eq_None_Some in Hd as [id Hbc%Hc'].
    by apply (list_elem_of_fmap_2 cb_channel) in Hbc.
  - done.
  - done.
Qed.

(** Two Releases, one of them on the default Channel. *)
Definition sample_entry (id : Z) (status : ReleaseStatus) : ServingReleaseEntry :=
  mkServingReleaseEntry (from_ulid id) (from_ulid 10) (replicate 32 x01)
    (mkArtifactDescriptor AF_SafeEsmBundleV1 (replicate 32 x02) 1024) (mkRuntimeVersion (text "runku-js-1")) status.
Definition stable : ChannelName := mkChannelName (text "stable").
Definition sample_snapshot : result ReleaseError ServingSnapshot :=
  ServingSnapshot_new (mkScope (from_ulid 10) (from_ulid 20)) 1 [sample_entry 1 LC_Deprecated; sample_entry 2 LC_Active]
    [mkChannelBinding stable (from_ulid 2)] (Some stable).

Lemma snapshot_routes_witness : exists s, sample_snapshot = Ok s
  /\ exists r, r ∈ [sample_entry 1 LC_Deprecated; sample_entry 2 LC_Active]
       /\ resolve s (CT_Channel stable) = Ok (effective (mkScope (from_ulid 10) (from_ulid 20)) 1 r).
Proof.
  destruct sample_snapshot as [s|e] eqn:E; [|vm_compute in E; discriminate E]. exists s. split; [done|].
  destruct (proj1 (proj2 (snapshot_routes _ _ _ _ _ s E)) (mkChannelBinding stable (from_ulid 2)) (list_elem_of_here _ _))
    as (r & Hr & _ & Hres).
  by exists r.
Defined.
