(* ===== verification/Serving.v ===== *)
(** * Serving policies: [crates/runku-serving/src/model.rs]

    Which Releases of an Environment take its future traffic, and in which proportion: weighted
    policies, the desired and observed record of one Environment, and the commands that change it.
    SHA-256 is the argument [sha256]. *)

From Stdlib Require Import Strings.Byte ZArith Lia.
From stdpp Require Import prelude strings sorting list.
From S2P Require Import Prelude Order Codec Ulid Value StoredValue Core Release Cron Manifest.

Abbreviation OperatorId := (ResourceId OperatorK).

Definition MAX_SERVING_RELEASES : Z := 16.
Definition MAX_AUDIT_PAGE_SIZE : Z := 100.

(** ** Errors *)

Inductive ServingPolicyError : Type :=
| SPE_InvalidInput | SPE_LimitExceeded | SPE_NotFound | SPE_Conflict | SPE_IncompatibleContracts | SPE_OperationIdReused
| SPE_Busy | SPE_Unavailable | SPE_ResultUncertain | SPE_Corruption | SPE_ProductionBackendUnsupported | SPE_Unsupported
| SPE_Internal.
#[export] Instance ServingPolicyError_eq_dec : EqDecision ServingPolicyError.
Proof. solve_decision. Defined.

Definition ServingPolicyError_code (e : ServingPolicyError) : bytes :=
  match e with
  | SPE_InvalidInput => text "SERVING_POLICY_INPUT_INVALID"
  | SPE_LimitExceeded => text "SERVING_POLICY_LIMIT_EXCEEDED"
  | SPE_NotFound => text "SERVING_POLICY_NOT_FOUND"
  | SPE_Conflict => text "SERVING_POLICY_CONFLICT"
  | SPE_IncompatibleContracts => text "SERVING_POLICY_INCOMPATIBLE_CONTRACTS"
  | SPE_OperationIdReused => text "SERVING_POLICY_OPERATION_ID_REUSED"
  | SPE_Busy => text "SERVING_POLICY_REPOSITORY_BUSY"
  | SPE_Unavailable => text "SERVING_POLICY_REPOSITORY_UNAVAILABLE"
  | SPE_ResultUncertain => text "SERVING_POLICY_RESULT_UNCERTAIN"
  | SPE_Corruption => text "SERVING_POLICY_REPOSITORY_CORRUPT"
  | SPE_ProductionBackendUnsupported => text "SERVING_POLICY_PRODUCTION_BACKEND_UNSUPPORTED"
  | SPE_Unsupported => text "SERVING_POLICY_BACKEND_UNSUPPORTED"
  | SPE_Internal => text "SERVING_POLICY_INTERNAL"
  end.
Definition ServingPolicyError_retryable (e : ServingPolicyError) : bool :=
  match e with SPE_Busy | SPE_Unavailable | SPE_ResultUncertain => true | _ => false end.

(** [map_manifest_error] *)
Definition map_manifest_error (error : ReleaseError) : ServingPolicyError :=
  match error with
  | RE_LimitExceeded => SPE_LimitExceeded
  | RE_Unsupported => SPE_Unsupported
  | RE_Internal => SPE_Internal
  | _ => SPE_InvalidInput
  end.

(** ** Policies *)

Inductive ServingMode : Type := SM_Atomic | SM_Gradual.
#[export] Instance ServingMode_eq_dec : EqDecision ServingMode.
Proof. solve_decision. Defined.

Definition ServingMode_as_str (self : ServingMode) : bytes :=
  match self with SM_Atomic => text "atomic" | SM_Gradual => text "gradual" end.
Definition ServingMode_from_persisted (value : bytes) : result ServingPolicyError ServingMode :=
  if bool_decide (value = text "atomic") then Ok SM_Atomic
  else if bool_decide (value = text "gradual") then Ok SM_Gradual
  else Err SPE_Corruption.
Definition mode_tag (mode : ServingMode) : byte := match mode with SM_Atomic => x01 | SM_Gradual => x02 end.

Record ServingContractHashes : Type := mkServingContractHashes {
  sc_schema : Sha256Digest; sc_indexes : Sha256Digest; sc_cron_declarations : Sha256Digest
}.
#[export] Instance ServingContractHashes_eq_dec : EqDecision ServingContractHashes.
Proof. solve_decision. Defined.

Record ServingRelease : Type := mkServingRelease {
  sv_release_id : ReleaseId; sv_weight_percent : Z; sv_contracts : ServingContractHashes
}.
#[export] Instance ServingRelease_eq_dec : EqDecision ServingRelease.
Proof. solve_decision. Defined.

Definition ServingRelease_new (release : ReleaseId) (weight_percent : Z) (contracts : ServingContractHashes)
  : result ServingPolicyError ServingRelease :=
  if (weight_percent =? 0) || (100 <? weight_percent) then Err SPE_InvalidInput
  else Ok (mkServingRelease release weight_percent contracts).

Record ServingPolicy : Type := mkServingPolicy {
  svp_project_id : ProjectId; svp_mode : ServingMode; svp_releases : list ServingRelease
}.
#[export] Instance ServingPolicy_eq_dec : EqDecision ServingPolicy.
Proof. solve_decision. Defined.

(** One turn of the loop of [validate]: the sum of the weights, the Releases seen, the one before. *)
Definition check_release (baseline : ServingContractHashes) (st : Z * list ReleaseId * option ReleaseId)
  (entry : ServingRelease) : result ServingPolicyError (Z * list ReleaseId * option ReleaseId) :=
  let '(total, seen, previous) := st in
  if (sv_weight_percent entry =? 0) || (100 <? sv_weight_percent entry) || bool_decide (sv_release_id entry ∈ seen)
     || match previous with Some value => as_ulid (sv_release_id entry) <=? as_ulid value | None => false end
  then Err SPE_InvalidInput else
  let? total := ok_or SPE_LimitExceeded (checked_add u16_max total (sv_weight_percent entry)) in
  if bool_decide (sc_indexes (sv_contracts entry) <> sc_indexes baseline)
     || bool_decide (sc_cron_declarations (sv_contracts entry) <> sc_cron_declarations baseline)
  then Err SPE_IncompatibleContracts
  else Ok (total, sv_release_id entry :: seen, Some (sv_release_id entry)).

Definition ServingPolicy_validate (self : ServingPolicy) : result ServingPolicyError unit :=
  match svp_releases self with
  | [] => Err SPE_LimitExceeded
  | first :: _ =>
      let n := len (svp_releases self) in
      if MAX_SERVING_RELEASES <? n then Err SPE_LimitExceeded else
      let? (total, _, _) := try_fold (check_release (sv_contracts first)) (0, [], None) (svp_releases self) in
      if negb (total =? 100)
         || match svp_mode self with SM_Atomic => negb (n =? 1) | SM_Gradual => n <? 2 end
      then Err SPE_InvalidInput else Ok tt
  end.

(** [sort_by_key(|entry| entry.release_id)], which is stable. *)
Fixpoint insert_release (entry : ServingRelease) (l : list ServingRelease) : list ServingRelease :=
  match l with
  | [] => [entry]
  | x :: l' =>
      if as_ulid (sv_release_id entry) <=? as_ulid (sv_release_id x) then entry :: l else x :: insert_release entry l'
  end.
Definition sort_releases : list ServingRelease -> list ServingRelease := foldr insert_release [].

Definition ServingPolicy_new (project : ProjectId) (mode : ServingMode) (releases : list ServingRelease)
  : result ServingPolicyError ServingPolicy :=
  let policy := mkServingPolicy project mode (sort_releases releases) in
  let? _ := ServingPolicy_validate policy in
  Ok policy.

(** The loop of [select_percentile]. *)
Fixpoint select_release (percentile upper : Z) (releases : list ServingRelease) : result ServingPolicyError ReleaseId :=
  match releases with
  | [] => Err SPE_Corruption
  | release :: releases =>
      let? upper := ok_or SPE_LimitExceeded (checked_add u16_max upper (sv_weight_percent release)) in
      if percentile <? upper then Ok (sv_release_id release) else select_release percentile upper releases
  end.
Definition select_percentile (self : ServingPolicy) (percentile : Z) : result ServingPolicyError ReleaseId :=
  let? _ := ServingPolicy_validate self in
  if 100 <=? percentile then Err SPE_InvalidInput else select_release percentile 0 (svp_releases self).

Section digests.
Context {UL : UlidLib}.
Variable sha256 : bytes -> bytes.

Definition release_preimage (entry : ServingRelease) : bytes :=
  id_to_string (sv_release_id entry) ++ [x00; zb (sv_weight_percent entry)] ++ sc_schema (sv_contracts entry)
  ++ sc_indexes (sv_contracts entry) ++ sc_cron_declarations (sv_contracts entry).

Definition ServingPolicy_digest (self : ServingPolicy) : Sha256Digest :=
  sha256 (text "RUNKU_SERVING_POLICY_V1" ++ [x00] ++ id_to_string (svp_project_id self) ++ [x00] ++ [mode_tag (svp_mode self)]
          ++ to_be 8 (len (svp_releases self)) ++ concat (map release_preimage (svp_releases self))).

(** ** Policies from manifests *)

Definition counted_text (t : bytes) : bytes := to_be 8 (len t) ++ t.

Definition cron_declaration_preimage (definition : CronDefinition) : result ServingPolicyError bytes :=
  let? args := map_err (fun _ => SPE_InvalidInput) (encode_stored_value (cron_args definition)) in
  Ok (counted_text (cron_name_str (cron_name definition)) ++ counted_text (canonical (cron_schedule definition))
      ++ counted_text (function_str (cron_function definition)) ++ counted_text args).

Definition canonical_cron_declarations_hash (manifest : ReleaseManifestV1) : result ServingPolicyError Sha256Digest :=
  let? _ := map_err map_manifest_error (validate manifest) in
  let? declarations := try_map cron_declaration_preimage (cron_definitions manifest) in
  Ok (sha256 (text "RUNKU_CRON_DECLARATIONS_V1" ++ [x00] ++ to_be 8 (len (cron_definitions manifest)) ++ concat declarations)).

Definition ServingRelease_from_manifest (scope : EnvironmentScope) (manifest : ReleaseManifestV1) (weight_percent : Z)
  : result ServingPolicyError ServingRelease :=
  let? _ := map_err map_manifest_error (validate manifest) in
  if bool_decide (Manifest.project_id manifest <> Core.project_id scope) then Err SPE_InvalidInput else
  let? cron_declarations := canonical_cron_declarations_hash manifest in
  ServingRelease_new (release_id manifest) weight_percent
    (mkServingContractHashes (schema_contract_hash manifest) (index_contract_hash manifest) cron_declarations).

Definition ServingPolicy_from_manifests (scope : EnvironmentScope) (mode : ServingMode)
  (manifests : list (ReleaseManifestV1 * Z)) : result ServingPolicyError ServingPolicy :=
  let? releases := try_map (fun e => ServingRelease_from_manifest scope (fst e) (snd e)) manifests in
  ServingPolicy_new (Core.project_id scope) mode releases.
End digests.

(** ** The record of an Environment *)

Inductive ServingObservedState : Type := SO_Pending | SO_Ready | SO_Failed.
#[export] Instance ServingObservedState_eq_dec : EqDecision ServingObservedState.
Proof. solve_decision. Defined.

Definition ServingObservedState_as_str (self : ServingObservedState) : bytes :=
  match self with SO_Pending => text "pending" | SO_Ready => text "ready" | SO_Failed => text "failed" end.
Definition ServingObservedState_from_persisted (value : bytes) : result ServingPolicyError ServingObservedState :=
  if bool_decide (value = text "pending") then Ok SO_Pending
  else if bool_decide (value = text "ready") then Ok SO_Ready
  else if bool_decide (value = text "failed") then Ok SO_Failed
  else Err SPE_Corruption.

Inductive ServingMaterializationOutcome : Type := MO_Ready | MO_Failed.
Definition observed_state (self : ServingMaterializationOutcome) : ServingObservedState :=
  match self with MO_Ready => SO_Ready | MO_Failed => SO_Failed end.

Record ServingPolicyRecord : Type := mkServingPolicyRecord {
  vr_scope : EnvironmentScope;
  vr_desired_policy : ServingPolicy;
  vr_policy_revision : Z;
  vr_observed_state : ServingObservedState;
  vr_observed_policy_revision : option Z;
  vr_created_at : Z;
  vr_updated_at : Z;
  vr_observed_at : option Z
}.

Definition ServingPolicyRecord_validate (self : ServingPolicyRecord) : result ServingPolicyError unit :=
  let? _ := map_err (fun _ => SPE_Corruption) (ServingPolicy_validate (vr_desired_policy self)) in
  if bool_decide (svp_project_id (vr_desired_policy self) <> Core.project_id (vr_scope self))
     || (vr_policy_revision self =? 0) || (vr_created_at self <? 0) || (vr_updated_at self <? vr_created_at self)
     || is_some_and (vr_observed_at self) (fun t => t <? vr_created_at self)
     || negb (eqb (bool_decide (is_Some (vr_observed_at self))) (bool_decide (is_Some (vr_observed_policy_revision self))))
     || is_some_and (vr_observed_policy_revision self) (fun r => (r =? 0) || (vr_policy_revision self <? r))
  then Err SPE_Corruption else
  match vr_observed_state self with
  | SO_Pending =>
      if is_some_and (vr_observed_policy_revision self) (fun r => vr_policy_revision self <=? r)
         || is_some_and (vr_observed_at self) (fun t => vr_updated_at self <? t)
      then Err SPE_Corruption else Ok tt
  | SO_Ready | SO_Failed =>
      if bool_decide (vr_observed_policy_revision self <> Some (vr_policy_revision self))
         || negb (is_some_and (vr_observed_at self) (fun t => vr_updated_at self <=? t))
      then Err SPE_Corruption else Ok tt
  end.

Definition is_converged (self : ServingPolicyRecord) : bool :=
  bool_decide (vr_observed_state self = SO_Ready)
  && bool_decide (vr_observed_policy_revision self = Some (vr_policy_revision self)).

(** ** Commands *)

Inductive ServingCommand : Type :=
| VC_SetDesired (actor : OperatorId) (expected_revision : option Z) (policy : ServingPolicy) (changed_at : Z)
| VC_Materialize (expected_revision : Z) (outcome : ServingMaterializationOutcome) (observed_at : Z).

Definition ServingCommand_validate (self : ServingCommand) (scope : EnvironmentScope) : result ServingPolicyError unit :=
  match self with
  | VC_SetDesired _ expected_revision policy changed_at =>
      let? _ := ServingPolicy_validate policy in
      if bool_decide (svp_project_id policy <> Core.project_id scope)
         || is_some_and expected_revision (fun revision => revision =? 0) || (changed_at <? 0)
      then Err SPE_InvalidInput else Ok tt
  | VC_Materialize expected_revision _ observed_at =>
      if (expected_revision =? 0) || (observed_at <? 0) then Err SPE_InvalidInput else Ok tt
  end.

Definition optional_revision_preimage (revision : option Z) : bytes :=
  match revision with Some revision => [x01] ++ to_be 8 revision | None => [x00] end.

Definition ServingCommand_digest {UL : UlidLib} (sha256 : bytes -> bytes) (self : ServingCommand) (scope : EnvironmentScope)
  : result ServingPolicyError bytes :=
  let? _ := ServingCommand_validate self scope in
  Ok (sha256 (text "RUNKU_SERVING_COMMAND_V1" ++ [x00] ++ id_to_string (Core.project_id scope) ++ [x00]
    ++ id_to_string (environment_id scope) ++ [x00]
    ++ match self with
       | VC_SetDesired actor expected_revision policy changed_at =>
           [x01] ++ id_to_string actor ++ [x00] ++ optional_revision_preimage expected_revision
           ++ ServingPolicy_digest sha256 policy ++ to_be 8 (cast_unsigned changed_at)
       | VC_Materialize expected_revision outcome observed_at =>
           [x02] ++ to_be 8 expected_revision ++ [match outcome with MO_Ready => x01 | MO_Failed => x02 end]
           ++ to_be 8 (cast_unsigned observed_at)
       end)).

Inductive ServingCommandKind : Type := VK_SetDesired | VK_Materialize.
#[export] Instance ServingCommandKind_eq_dec : EqDecision ServingCommandKind.
Proof. solve_decision. Defined.

Definition ServingCommandKind_as_str (self : ServingCommandKind) : bytes :=
  match self with VK_SetDesired => text "set_desired" | VK_Materialize => text "materialize" end.
Definition ServingCommandKind_from_persisted (value : bytes) : result ServingPolicyError ServingCommandKind :=
  if bool_decide (value = text "set_desired") then Ok VK_SetDesired
  else if bool_decide (value = text "materialize") then Ok VK_Materialize
  else Err SPE_Corruption.

Definition ServingCommand_kind (self : ServingCommand) : ServingCommandKind :=
  match self with VC_SetDesired _ _ _ _ => VK_SetDesired | VC_Materialize _ _ _ => VK_Materialize end.
Definition occurred_at (self : ServingCommand) : Z :=
  match self with VC_SetDesired _ _ _ changed_at => changed_at | VC_Materialize _ _ observed_at => observed_at end.

(** ** The lifecycle *)

Definition set_desired (scope : EnvironmentScope) (current : option ServingPolicyRecord) (expected_revision : option Z)
  (policy : ServingPolicy) (changed_at : Z) : result ServingPolicyError ServingPolicyRecord :=
  let? _ := ServingPolicy_validate policy in
  if bool_decide (svp_project_id policy <> Core.project_id scope) || (changed_at <? 0) then Err SPE_InvalidInput else
  if is_some_and current (fun record => bool_decide (vr_scope record <> scope)) then Err SPE_InvalidInput else
  match current with
  | None =>
      if bool_decide (is_Some expected_revision) then Err SPE_NotFound else
      let record := mkServingPolicyRecord scope policy 1 SO_Pending None changed_at changed_at None in
      let? _ := ServingPolicyRecord_validate record in
      Ok record
  | Some current =>
      let? _ := ServingPolicyRecord_validate current in
      if bool_decide (expected_revision <> Some (vr_policy_revision current)) then Err SPE_Conflict else
      if bool_decide (policy = vr_desired_policy current) || (changed_at <? vr_updated_at current)
         || is_some_and (vr_observed_at current) (fun value => changed_at <? value)
      then Err SPE_InvalidInput else
      let? revision := ok_or SPE_LimitExceeded (checked_add u64_max (vr_policy_revision current) 1) in
      let next := mkServingPolicyRecord (vr_scope current) policy revision SO_Pending (vr_observed_policy_revision current)
                    (vr_created_at current) changed_at (vr_observed_at current) in
      let? _ := ServingPolicyRecord_validate next in
      Ok next
  end.

Definition serving_materialize (current : ServingPolicyRecord) (expected_revision : Z)
  (outcome : ServingMaterializationOutcome) (observed_at : Z) : result ServingPolicyError ServingPolicyRecord :=
  let? _ := ServingPolicyRecord_validate current in
  let state := observed_state outcome in
  if negb (expected_revision =? vr_policy_revision current)
     || (bool_decide (vr_observed_state current = state)
         && bool_decide (vr_observed_policy_revision current = Some expected_revision))
  then Err SPE_Conflict else
  if (observed_at <? vr_updated_at current)
     || is_some_and (vr_observed_at current) (fun previous => observed_at <? previous)
  then Err SPE_InvalidInput else
  let next := mkServingPolicyRecord (vr_scope current) (vr_desired_policy current) (vr_policy_revision current) state
                (Some expected_revision) (vr_created_at current) (vr_updated_at current) (Some observed_at) in
  let? _ := ServingPolicyRecord_validate next in
  Ok next.

(** ** Journal and audit trail *)

(** [validate_observation] *)
Definition validate_observation (policy_revision : Z) (state : ServingObservedState) (observed_policy_revision : option Z)
  : result ServingPolicyError unit :=
  if (policy_revision =? 0) || is_some_and observed_policy_revision (fun r => (r =? 0) || (policy_revision <? r))
  then Err SPE_Corruption else
  match state with
  | SO_Pending =>
      if is_some_and observed_policy_revision (fun r => policy_revision <=? r) then Err SPE_Corruption else Ok tt
  | SO_Ready | SO_Failed =>
      if bool_decide (observed_policy_revision <> Some policy_revision) then Err SPE_Corruption else Ok tt
  end.

Record ServingOperation : Type := mkServingOperation {
  vo_scope : EnvironmentScope;
  vo_operation_id : OperationId;
  vo_kind : ServingCommandKind;
  vo_policy_revision : Z;
  vo_desired_policy_digest : Sha256Digest;
  vo_observed_state : ServingObservedState;
  vo_observed_policy_revision : option Z;
  vo_completed_at : Z
}.

(** A desired change leaves the state pending, an observation does not. *)
Definition kind_state_drift (kind : ServingCommandKind) (state : ServingObservedState) : bool :=
  (bool_decide (kind = VK_SetDesired) && bool_decide (state <> SO_Pending))
  || (bool_decide (kind = VK_Materialize) && bool_decide (state = SO_Pending)).

Definition ServingOperation_validate (self : ServingOperation) : result ServingPolicyError unit :=
  let? _ := validate_observation (vo_policy_revision self) (vo_observed_state self) (vo_observed_policy_revision self) in
  if (vo_completed_at self <? 0) || kind_state_drift (vo_kind self) (vo_observed_state self)
  then Err SPE_Corruption else Ok tt.

Record ServingOperationResult : Type := mkServingOperationResult { vs_operation : ServingOperation; vs_replayed : bool }.

Record ServingAuditEvent : Type := mkServingAuditEvent {
  va_scope : EnvironmentScope;
  va_operation_id : OperationId;
  va_actor_operator_id : option OperatorId;
  va_kind : ServingCommandKind;
  va_previous_policy_revision : option Z;
  va_policy_revision : Z;
  va_desired_policy_digest : Sha256Digest;
  va_observed_state : ServingObservedState;
  va_observed_policy_revision : option Z;
  va_occurred_at : Z
}.

Definition ServingAuditEvent_validate (self : ServingAuditEvent) : result ServingPolicyError unit :=
  let? _ := validate_observation (va_policy_revision self) (va_observed_state self) (va_observed_policy_revision self) in
  let revision_relationship_valid :=
    match va_kind self, va_previous_policy_revision self with
    | VK_SetDesired, None => va_policy_revision self =? 1
    | VK_SetDesired, Some previous => bool_decide (checked_add u64_max previous 1 = Some (va_policy_revision self))
    | VK_Materialize, Some previous => previous =? va_policy_revision self
    | VK_Materialize, None => false
    end in
  if (va_occurred_at self <? 0) || negb revision_relationship_valid
     || (bool_decide (va_kind self = VK_SetDesired) && bool_decide (va_actor_operator_id self = None))
     || (bool_decide (va_kind self = VK_Materialize) && bool_decide (is_Some (va_actor_operator_id self)))
     || kind_state_drift (va_kind self) (va_observed_state self)
  then Err SPE_Corruption else Ok tt.

Record ServingAuditCursor : Type := mkServingAuditCursor { vx_occurred_at : Z; vx_operation_id : OperationId }.
Record ServingAuditPageRequest : Type := mkServingAuditPageRequest { vq_after : option ServingAuditCursor; vq_limit : Z }.

Definition ServingAuditPageRequest_validate (self : ServingAuditPageRequest) : result ServingPolicyError unit :=
  if (vq_limit self =? 0) || (MAX_AUDIT_PAGE_SIZE <? vq_limit self)
     || match vq_after self with Some cursor => vx_occurred_at cursor <? 0 | None => false end
  then Err SPE_LimitExceeded else Ok tt.

Record ServingAuditPage : Type := mkServingAuditPage {
  vg_scope : EnvironmentScope; vg_events : list ServingAuditEvent; vg_next : option ServingAuditCursor
}.

(** ** Valid policies *)

Definition weights (l : list ServingRelease) : Z := foldr Z.add 0 (map sv_weight_percent l).
Definition weight_ok (e : ServingRelease) : Prop := 0 < sv_weight_percent e <= 100.

Lemma weights_app l k : weights (l ++ k) = weights l + weights k.
Proof. unfold weights. induction l as [|e l IH]; cbn; [done|]. cbn in IH. lia. Qed.

Lemma weights_nonneg l : Forall weight_ok l -> 0 <= weights l.
Proof. unfold weights, weight_ok. induction 1; cbn; lia. Qed.

(** Each identifier is greater than the one before. *)
Definition id_lt (x y : ServingRelease) : Prop := as_ulid (sv_release_id x) < as_ulid (sv_release_id y).
Definition follows (previous : option ReleaseId) (e : ServingRelease) : Prop :=
  forall p, previous = Some p -> as_ulid p < as_ulid (sv_release_id e).

Lemma check_releases_Ok baseline l : Forall (fun e => 0 <= sv_weight_percent e) l -> forall total seen previous st,
  try_fold (check_release baseline) (total, seen, previous) l = Ok st ->
  fst (fst st) = total + weights l /\ Forall weight_ok l /\ Forall (follows previous) l /\ StronglySorted id_lt l.
Proof.
  induction 1 as [|e l He _ IH]; intros total seen previous st.
  { intros [= <-]. cbn. split_and!; [lia|constructor..]. }
  cbn [try_fold]. rewrite rbind_Ok. intros (st' & E & Hr). unfold check_release in E. cbv beta iota in E.
  destruct (_ || _ || _ || _) eqn:Eg; [done|]. rewrite !orb_false_iff in Eg. destruct Eg as [[[E1 E2] E3] E4].
  apply rbind_Ok in E as (t & [-> _]%ok_or_Ok%checked_add_Some & E). destruct (_ || _); [done|]. injection E as <-.
  apply IH in Hr as (Ht & Hw & Hf & Hs). apply Z.eqb_neq in E1. apply Z.ltb_ge in E2.
  assert (follows previous e) as Hp by (intros p ->; by apply Z.leb_gt in E4).
  split_and!.
  - rewrite Ht. unfold weights. cbn. lia.
  - constructor; [split; lia|done].
  - constructor; [done|]. eapply Forall_impl; [done|]. intros x Hx p Ep. specialize (Hx _ eq_refl). specialize (Hp _ Ep). lia.
  - constructor; [done|]. eapply Forall_impl; [done|]. intros x Hx. by apply Hx.
Qed.

(** What a valid policy is, for weights that are no negative numbers. *)
Record policy_valid (p : ServingPolicy) : Prop := {
  pv_total : weights (svp_releases p) = 100;
  pv_weights : Forall weight_ok (svp_releases p);
  pv_sorted : StronglySorted id_lt (svp_releases p);
  pv_mode : match svp_mode p with SM_Atomic => len (svp_releases p) = 1 | SM_Gradual => 2 <= len (svp_releases p) end
}.

Lemma policy_validate_Ok p : Forall (fun e => 0 <= sv_weight_percent e) (svp_releases p) ->
  ServingPolicy_validate p = Ok tt -> policy_valid p.
Proof.
  intros Hn. unfold ServingPolicy_validate. destruct (svp_releases p) as [|first l] eqn:El; [done|]. rewrite <-El in *.
  destruct (_ <? _); [done|]. rewrite rbind_Ok. intros ([[total seen] previous] & Hf & Hm).
  apply check_releases_Ok in Hf as (Ht & Hw & _ & Hs); [|done]. cbn [fst] in Ht.
  destruct (negb (total =? 100)) eqn:E1; [done|]. apply negb_false_iff, Z.eqb_eq in E1. cbn [orb] in Hm.
  split; [lia|done..|]. destruct (svp_mode p).
  - destruct (Z.eqb_spec (len (svp_releases p)) 1); [done|by cbn in Hm].
  - destruct (Z.ltb_spec (len (svp_releases p)) 2); [done|lia].
Qed.

(** ** Traffic *)

Lemma select_release_spec p l1 e l2 : Forall weight_ok (l1 ++ e :: l2) -> forall upper,
  0 <= upper -> upper + weights (l1 ++ e :: l2) <= u16_max ->
  upper + weights l1 <= p < upper + weights l1 + sv_weight_percent e ->
  select_release p upper (l1 ++ e :: l2) = Ok (sv_release_id e).
Proof.
  induction l1 as [|x l1 IH]; cbn [app]; intros [Hx Hf]%Forall_cons upper Hu Hm Hp.
  - assert (0 <= weights l2) by by apply weights_nonneg. unfold weights in *. cbn in *. unfold checked_add.
    rewrite (proj2 (Z.leb_le _ _)) by lia. cbn. by rewrite (proj2 (Z.ltb_lt _ _)) by lia.
  - assert (0 <= weights l1) by (apply Forall_app in Hf as [? _]; by apply weights_nonneg).
    pose proof (weights_nonneg _ Hf). unfold weight_ok, weights in *. cbn in *. unfold checked_add.
    rewrite (proj2 (Z.leb_le _ _)) by lia. cbn. rewrite (proj2 (Z.ltb_ge _ _)) by lia. apply IH; lia || done.
Qed.

(** Every percentile falls into the share of a Release. *)
Lemma percentile_share l : Forall weight_ok l -> forall p, 0 <= p < weights l ->
  exists l1 e l2, l = l1 ++ e :: l2 /\ weights l1 <= p < weights l1 + sv_weight_percent e.
Proof.
  induction 1 as [|x l Hx Hf IH]; intros p Hp; [unfold weights in Hp; cbn in Hp; lia|].
  destruct (decide (p < sv_weight_percent x)) as [Hlt|Hge].
  - exists [], x, l. split; [done|]. unfold weights. cbn. lia.
  - destruct (IH (p - sv_weight_percent x)) as (l1 & e & l2 & -> & Hs); [unfold weights in *; cbn in *; lia|].
    exists (x :: l1), e, l2. split; [done|]. unfold weights in *. cbn in *. lia.
Qed.

Lemma sorted_ids_NoDup l : StronglySorted id_lt l -> NoDup (map sv_release_id l).
Proof.
  induction 1 as [|e l _ IH Hf]; cbn; constructor; [|done].
  intros (x & Ex & Hx)%list_elem_of_fmap. rewrite Forall_forall in Hf. specialize (Hf _ Hx). unfold id_lt in Hf.
  rewrite Ex in Hf. lia.
Qed.

Lemma split_unique {A B} (f : A -> B) l1 x l2 k1 y k2 : NoDup (map f (l1 ++ x :: l2)) ->
  l1 ++ x :: l2 = k1 ++ y :: k2 -> f x = f y -> l1 = k1.
Proof.
  revert k1. induction l1 as [|a l1 IH]; intros [|b k1]; cbn; intros [Hn Hd]%NoDup_cons; [done|..].
  - intros [= -> ->] E. destruct Hn. rewrite E. apply list_elem_of_fmap_2. set_solver.
  - intros [= -> <-] E. destruct Hn. rewrite <-E. apply list_elem_of_fmap_2. set_solver.
  - intros [= -> E'] E. f_equal. by apply IH.
Qed.

Lemma filter_all {A} (P : A -> Prop) `{!forall x, Decision (P x)} (l : list A) : Forall P l -> filter P l = l.
Proof. induction 1 as [|x l Hx _ IH]; [done|]. by rewrite filter_cons_True, IH. Qed.
Lemma filter_none {A} (P : A -> Prop) `{!forall x, Decision (P x)} (l : list A) : Forall (fun x => ~ P x) l -> filter P l = [].
Proof. induction 1 as [|x l Hx _ IH]; [done|]. by rewrite filter_cons_False. Qed.

Lemma filter_ext_in {A} (P Q : A -> Prop) `{!forall x, Decision (P x)} `{!forall x, Decision (Q x)} (l : list A) :
  (forall x, x ∈ l -> P x <-> Q x) -> filter P l = filter Q l.
Proof.
  induction l as [|x l IH]; intros Hx; [done|]. rewrite !filter_cons, IH by set_solver.
  assert (P x <-> Q x) by set_solver. by destruct (decide (P x)), (decide (Q x)); tauto || done.
Qed.

Lemma count_share a w n : 0 <= a -> 0 <= w -> a + w <= n ->
  len (filter (fun p => a <= p < a + w) (seqZ 0 n)) = w.
Proof.
  intros Ha Hw Hn. replace n with (a + (w + (n - a - w))) by lia. rewrite seqZ_app, seqZ_app, !filter_app by lia.
  rewrite (filter_none _ (seqZ 0 a)), (filter_all _ (seqZ (0 + a) w)), (filter_none _ (seqZ (0 + a + w) _)).
  - rewrite app_nil_l, app_nil_r. unfold len. rewrite length_seqZ. lia.
  - apply Forall_forall. intros p Hp%elem_of_seqZ. lia.
  - apply Forall_forall. intros p Hp%elem_of_seqZ. lia.
  - apply Forall_forall. intros p Hp%elem_of_seqZ. lia.
Qed.

Section traffic.
Context (p : ServingPolicy) (Hv : ServingPolicy_validate p = Ok tt) (Hp : policy_valid p).

Lemma share_selected l1 e l2 n : svp_releases p = l1 ++ e :: l2 ->
  weights l1 <= n < weights l1 + sv_weight_percent e -> select_percentile p n = Ok (sv_release_id e).
Proof.
  intros E Hr. destruct Hp as [Ht Hw _ _]. unfold select_percentile. rewrite Hv, E in *. cbn [rbind].
  assert (0 <= weights l2).
  { apply weights_nonneg. by apply Forall_app in Hw as [_ [_ ?]%Forall_cons]. }
  rewrite weights_app in Ht. change (weights (e :: l2)) with (sv_weight_percent e + weights l2) in Ht.
  rewrite (proj2 (Z.leb_gt _ _)) by lia. apply select_release_spec; [done|lia| |lia].
  rewrite weights_app. change (weights (e :: l2)) with (sv_weight_percent e + weights l2). unfold u16_max. lia.
Qed.

Lemma selected_share l1 e l2 n : svp_releases p = l1 ++ e :: l2 -> 0 <= n < 100 ->
  select_percentile p n = Ok (sv_release_id e) <-> weights l1 <= n < weights l1 + sv_weight_percent e.
Proof.
  intros E Hr. split; [|by apply share_selected with l2]. intros Hs.
  destruct (percentile_share (svp_releases p) (pv_weights p Hp) n) as (k1 & x & k2 & E' & Hr'); [by rewrite pv_total|].
  rewrite (share_selected k1 x k2 n E' Hr') in Hs. injection Hs as Hid.
  pose proof (sorted_ids_NoDup _ (pv_sorted p Hp)) as Hd.
  assert (k1 = l1) as ->.
  { eapply (split_unique sv_release_id k1 x k2 l1 e l2); [by rewrite <-E'|by rewrite <-E', <-E|done]. }
  rewrite E in E'. apply app_inv_head in E'. by injection E' as -> _.
Qed.
End traffic.

(** C27: Traffic follows the weights.  A valid policy sends every percentile below 100 to one of its
    Releases, and each Release receives exactly as many of the hundred percentiles as its weight says;
    a percentile of 100 or more is refused. *)
Theorem percentile_weights p : Forall (fun e => 0 <= sv_weight_percent e) (svp_releases p) ->
  ServingPolicy_validate p = Ok tt ->
  (forall n, 0 <= n < 100 -> exists e, e ∈ svp_releases p /\ select_percentile p n = Ok (sv_release_id e))
  /\ (forall e, e ∈ svp_releases p ->
       len (filter (fun n => select_percentile p n = Ok (sv_release_id e)) (seqZ 0 100)) = sv_weight_percent e)
  /\ (forall n, 100 <= n -> select_percentile p n = Err SPE_InvalidInput).
Proof.
  intros Hn Hv. pose proof (policy_validate_Ok p Hn Hv) as Hp. pose proof Hp as [Ht Hw Hs _]. split_and!.
  - intros n Hr. destruct (percentile_share _ Hw n) as (l1 & e & l2 & E & Hr'); [lia|]. exists e.
    split; [rewrite E; set_solver|by eapply share_selected].
  - intros e (l1 & l2 & E)%list_elem_of_split. rewrite E, Forall_app, Forall_cons in Hw. destruct Hw as (H1 & He & H2).
    rewrite E, weights_app in Ht. change (weights (e :: l2)) with (sv_weight_percent e + weights l2) in Ht.
    pose proof (weights_nonneg _ H1). pose proof (weights_nonneg _ H2). destruct He.
    rewrite (filter_ext_in _ (fun n => weights l1 <= n < weights l1 + sv_weight_percent e)).
    + apply count_share; lia.
    + intros n [? ?]%elem_of_seqZ. eapply selected_share; [done..|]. lia.
  - intros n Hr. unfold select_percentile. rewrite Hv. cbn [rbind]. by rewrite (proj2 (Z.leb_le _ _)).
Qed.

(** A canary: one Release in ten requests, the other in nine. *)
Definition sample_contracts (schema : byte) : ServingContractHashes :=
  mkServingContractHashes (replicate 32 schema) (replicate 32 x0b) (replicate 32 x0c).
Definition sample_serving_release (id weight : Z) : ServingRelease :=
  mkServingRelease (from_ulid id) weight (sample_contracts x0a).
Definition sample_canary : ServingPolicy :=
  mkServingPolicy (from_ulid 10) SM_Gradual [sample_serving_release 1 90; sample_serving_release 2 10].

Lemma percentile_weights_witness :
  len (filter (fun n => select_percentile sample_canary n = Ok (from_ulid 2)) (seqZ 0 100)) = 10.
Proof.
  refine (proj1 (proj2 (percentile_weights sample_canary _ _)) (sample_serving_release 2 10) _).
  - by repeat constructor.
  - by vm_compute.
  - by right; left.
Defined.
