(* ===== verification/ServingRepository.v ===== *)
(** * The serving-policy repository: [crates/runku-serving-repository/src/adapter.rs]

    Applies the commands of [Serving] to one row per Environment and its weighted Releases, with a
    journal of the operations that took effect and an audit trail, in one transaction each.

    The tables are finite maps from primary keys to rows that refuse what their CHECK, UNIQUE and
    FOREIGN KEY constraints refuse; a transaction is a function of them, and its commit may fail
    after it took effect.  The backend is SQLite, whose pool has one connection, so that transactions
    do not overlap.  Connecting, migrating and telemetry are left out. *)

From Stdlib Require Import Strings.Byte ZArith Lia.
From stdpp Require Import prelude strings gmap sorting list.
From S2P Require Import Prelude Order Codec Ulid Value StoredValue Core Release Cron Manifest StoreModel Sql SqliteStore Serving.

(** ** Tables *)

Record PolicyRow : Type := mkPolicyRow {
  pl_mode : bytes; pl_policy_digest : bytes; pl_policy_revision : Z; pl_observed_state : bytes;
  pl_observed_policy_revision : option Z; pl_created_at : Z; pl_updated_at : Z; pl_observed_at : option Z
}.
Record ServingReleaseRow : Type := mkServingReleaseRow {
  wr_weight_percent : Z; wr_schema_hash : bytes; wr_index_hash : bytes; wr_cron_hash : bytes
}.
Record ServingOperationRow : Type := mkServingOperationRow {
  vw_command_digest : bytes; vw_kind : bytes; vw_policy_revision : Z; vw_policy_digest : bytes; vw_observed_state : bytes;
  vw_observed_policy_revision : option Z; vw_completed_at : Z
}.
Record ServingAuditRow : Type := mkServingAuditRow {
  au_actor_operator_id : option bytes; au_kind : bytes; au_previous_policy_revision : option Z; au_policy_revision : Z;
  au_policy_digest : bytes; au_observed_state : bytes; au_observed_policy_revision : option Z; au_occurred_at : Z
}.

Record ServingDb : Type := mkServingDb {
  serving_policies : gmap skey PolicyRow;
  serving_releases : gmap (skey * bytes) ServingReleaseRow;
  serving_operations : gmap (skey * bytes) ServingOperationRow;
  serving_audit : gmap (skey * bytes) ServingAuditRow
}.
Definition empty_serving_db : ServingDb := mkServingDb ∅ ∅ ∅ ∅.

(** ** CHECK constraints, which a NULL never violates *)

Definition not_false (o : option Z) (p : Z -> bool) : bool := match o with Some v => p v | None => true end.

Definition state_check (state : bytes) : bool :=
  bool_decide (state ∈ [text "pending"; text "ready"; text "failed"]).
Definition kind_check (kind : bytes) : bool := bool_decide (kind ∈ [text "set_desired"; text "materialize"]).
Definition observed_check (observed : option Z) (revision : Z) : bool :=
  not_false observed (fun r => (0 <? r) && (r <=? revision)).

Definition policy_check (row : PolicyRow) : bool :=
  let pending := bool_decide (pl_observed_state row = text "pending") in
  let observed := bool_decide (pl_observed_state row ∈ [text "ready"; text "failed"]) in
  bool_decide (pl_mode row ∈ [text "atomic"; text "gradual"]) && (len (pl_policy_digest row) =? 32)
  && (0 <? pl_policy_revision row) && state_check (pl_observed_state row)
  && observed_check (pl_observed_policy_revision row) (pl_policy_revision row)
  && (0 <=? pl_created_at row) && (pl_created_at row <=? pl_updated_at row)
  && not_false (pl_observed_at row) (fun t => pl_created_at row <=? t)
  && eqb (bool_decide (pl_observed_policy_revision row = None)) (bool_decide (pl_observed_at row = None))
  && ((pending && not_false (pl_observed_at row) (fun t => t <=? pl_updated_at row))
      || (observed && not_false (pl_observed_at row) (fun t => pl_updated_at row <=? t)))
  && ((pending && not_false (pl_observed_policy_revision row) (fun r => r <? pl_policy_revision row))
      || (observed && not_false (pl_observed_policy_revision row) (fun r => r =? pl_policy_revision row))).

Definition release_check (row : ServingReleaseRow) : bool :=
  (0 <? wr_weight_percent row) && (wr_weight_percent row <=? 100) && (len (wr_schema_hash row) =? 32)
  && (len (wr_index_hash row) =? 32) && (len (wr_cron_hash row) =? 32).

Definition operation_check (row : ServingOperationRow) : bool :=
  (len (vw_command_digest row) =? 32) && kind_check (vw_kind row) && (0 <? vw_policy_revision row)
  && (len (vw_policy_digest row) =? 32) && state_check (vw_observed_state row)
  && observed_check (vw_observed_policy_revision row) (vw_policy_revision row) && (0 <=? vw_completed_at row).

Definition audit_check (row : ServingAuditRow) : bool :=
  kind_check (au_kind row) && not_false (au_previous_policy_revision row) (fun r => 0 <? r) && (0 <? au_policy_revision row)
  && (len (au_policy_digest row) =? 32) && state_check (au_observed_state row)
  && observed_check (au_observed_policy_revision row) (au_policy_revision row) && (0 <=? au_occurred_at row)
  && (if bool_decide (au_kind row = text "set_desired") then bool_decide (is_Some (au_actor_operator_id row))
      else bool_decide (au_actor_operator_id row = None)).

(** ** Driver errors and transactions *)

(** [SX_Constraint] is a violated UNIQUE or FOREIGN KEY constraint, [SX_DatabaseBusy] one of the codes
    40001, 40P01 and 5. *)
Inductive ServingSqlxError : Type :=
| SX_PoolTimedOut | SX_PoolClosed | SX_Io | SX_Tls | SX_Protocol | SX_DatabaseBusy | SX_Constraint | SX_Other.

Definition serving_map_sqlx_error (error : ServingSqlxError) : ServingPolicyError :=
  match error with
  | SX_PoolTimedOut | SX_DatabaseBusy => SPE_Busy
  | SX_PoolClosed | SX_Io | SX_Tls | SX_Protocol => SPE_Unavailable
  | SX_Constraint => SPE_Conflict
  | SX_Other => SPE_Corruption
  end.
Definition serving_map_commit_error (error : ServingSqlxError) : ServingPolicyError :=
  match error with
  | SX_Constraint => SPE_Conflict
  | SX_PoolClosed | SX_Io | SX_Tls | SX_Protocol => SPE_ResultUncertain
  | other => serving_map_sqlx_error other
  end.
Definition map_constraint_error (error : ServingSqlxError) : ServingPolicyError :=
  match error with SX_Constraint => SPE_Conflict | other => serving_map_sqlx_error other end.

(** What the environment does to a transaction: it works, [BEGIN] or a statement fails, or the final
    [COMMIT] or [ROLLBACK] fails.  A failed [COMMIT] may have taken effect, unless the database
    answered that it is busy or that a constraint is violated. *)
Inductive ServingTxn : Type :=
| XT_Commit | XT_StatementFailed (error : ServingSqlxError) | XT_CommitFailed (error : ServingSqlxError) (applied : bool).

Definition serving_commit_applied (error : ServingSqlxError) (applied : bool) : bool :=
  match error with SX_PoolTimedOut | SX_DatabaseBusy | SX_Constraint => false | _ => applied end.

(** How the body of a transaction ends when it does not return early. *)
Inductive ServingEnding (A : Type) : Type :=
| EN_Commit (a : A) (db : ServingDb)
| EN_Rollback (error : ServingPolicyError).
Arguments EN_Commit {A} a db.
Arguments EN_Rollback {A} error.

Definition serving_txn {A} (o : ServingTxn) (body : ServingDb -> result ServingPolicyError (ServingEnding A)) (db : ServingDb)
  : result ServingPolicyError A * ServingDb :=
  match o with
  | XT_StatementFailed e => (Err (serving_map_sqlx_error e), db)
  | XT_Commit =>
      match body db with
      | Ok (EN_Commit a db') => (Ok a, db')
      | Ok (EN_Rollback e) | Err e => (Err e, db)
      end
  | XT_CommitFailed e applied =>
      match body db with
      | Ok (EN_Commit a db') =>
          (Err (serving_map_commit_error e), if serving_commit_applied e applied then db' else db)
      | Ok (EN_Rollback _) => (Err (serving_map_sqlx_error e), db)
      | Err e => (Err e, db)
      end
  end.

(** [INSERT] of one row. *)
Definition insert_unique {K V} `{Countable K} (check : V -> bool) (k : K) (row : V) (m : gmap K V)
  : result ServingPolicyError (gmap K V) :=
  if negb (check row) then Err (map_constraint_error SX_Other)
  else if bool_decide (is_Some (m !! k)) then Err (map_constraint_error SX_Constraint)
  else Ok (<[k := row]> m).

(** ** Columns *)

Definition serving_to_i64 (value : Z) : result ServingPolicyError Z := ok_or SPE_LimitExceeded (try_from_u i64_max value).
Definition optional_revision (value : option Z) : result ServingPolicyError (option Z) :=
  match value with Some v => let? v := serving_to_i64 v in Ok (Some v) | None => Ok None end.
Definition serving_positive_u64 (value : Z) : result ServingPolicyError Z :=
  if value <=? 0 then Err SPE_Corruption else ok_or SPE_Corruption (try_from_u u64_max value).
Definition optional_positive_u64 (value : option Z) : result ServingPolicyError (option Z) :=
  match value with Some v => let? v := serving_positive_u64 v in Ok (Some v) | None => Ok None end.
Definition serving_decode_digest (value : bytes) : result ServingPolicyError Sha256Digest :=
  if len value =? 32 then Ok value else Err SPE_Corruption.
(** [.parse().map_err(corrupt)] *)
Definition parsed {E T} (r : result E T) : result ServingPolicyError T := map_err (fun _ => SPE_Corruption) r.

Section repository.
Context {UL : UlidLib}.
Variable sha256 : bytes -> bytes.

(** ** Reading *)

Definition decode_serving_release (r : (skey * bytes) * ServingReleaseRow) : result ServingPolicyError ServingRelease :=
  let? release := parsed (id_from_str ReleaseK (snd (fst r))) in
  let? weight := ok_or SPE_Corruption (try_from_u u8_max (wr_weight_percent (snd r))) in
  let? schema := serving_decode_digest (wr_schema_hash (snd r)) in
  let? indexes := serving_decode_digest (wr_index_hash (snd r)) in
  let? cron_declarations := serving_decode_digest (wr_cron_hash (snd r)) in
  parsed (ServingRelease_new release weight (mkServingContractHashes schema indexes cron_declarations)).

(** [ORDER BY release_id] *)
Definition release_order : (skey * bytes) * ServingReleaseRow -> (skey * bytes) * ServingReleaseRow -> comparison :=
  cmp_on (fun r => snd (fst r)) bytes_cmp.

Definition load_policy (scope : EnvironmentScope) (db : ServingDb) : result ServingPolicyError (option ServingPolicyRecord) :=
  let sk := scope_key scope in
  match serving_policies db !! sk with
  | None => Ok None
  | Some row =>
      let? releases := try_map decode_serving_release
        (order_by release_order (filter (fun r => fst (fst r) = sk) (map_to_list (serving_releases db)))) in
      let? mode := ServingMode_from_persisted (pl_mode row) in
      let? policy := parsed (ServingPolicy_new (Core.project_id scope) mode releases) in
      let? stored_digest := serving_decode_digest (pl_policy_digest row) in
      if bool_decide (stored_digest <> ServingPolicy_digest sha256 policy) then Err SPE_Corruption else
      let? revision := serving_positive_u64 (pl_policy_revision row) in
      let? state := ServingObservedState_from_persisted (pl_observed_state row) in
      let? observed := optional_positive_u64 (pl_observed_policy_revision row) in
      let record := mkServingPolicyRecord scope policy revision state observed (pl_created_at row) (pl_updated_at row)
                      (pl_observed_at row) in
      let? _ := ServingPolicyRecord_validate record in
      Ok (Some record)
  end.

Definition decode_operation (scope : EnvironmentScope) (operation_id : OperationId) (row : ServingOperationRow)
  : result ServingPolicyError (bytes * ServingOperation) :=
  if negb (len (vw_command_digest row) =? 32) then Err SPE_Corruption else
  let? kind := ServingCommandKind_from_persisted (vw_kind row) in
  let? revision := serving_positive_u64 (vw_policy_revision row) in
  let? digest := serving_decode_digest (vw_policy_digest row) in
  let? state := ServingObservedState_from_persisted (vw_observed_state row) in
  let? observed := optional_positive_u64 (vw_observed_policy_revision row) in
  let operation := mkServingOperation scope operation_id kind revision digest state observed (vw_completed_at row) in
  let? _ := ServingOperation_validate operation in
  Ok (vw_command_digest row, operation).

Definition serving_load_operation (scope : EnvironmentScope) (operation_id : OperationId) (db : ServingDb)
  : result ServingPolicyError (option (bytes * ServingOperation)) :=
  match serving_operations db !! (scope_key scope, id_to_string operation_id) with
  | None => Ok None
  | Some row => let? stored := decode_operation scope operation_id row in Ok (Some stored)
  end.

Definition decode_audit (scope : EnvironmentScope) (r : (skey * bytes) * ServingAuditRow)
  : result ServingPolicyError ServingAuditEvent :=
  let row := snd r in
  let? operation_id := parsed (id_from_str OperationK (snd (fst r))) in
  let? actor :=
    match au_actor_operator_id row with
    | Some value => let? actor := parsed (id_from_str OperatorK value) in Ok (Some actor)
    | None => Ok None
    end in
  let? kind := ServingCommandKind_from_persisted (au_kind row) in
  let? previous := optional_positive_u64 (au_previous_policy_revision row) in
  let? revision := serving_positive_u64 (au_policy_revision row) in
  let? digest := serving_decode_digest (au_policy_digest row) in
  let? state := ServingObservedState_from_persisted (au_observed_state row) in
  let? observed := optional_positive_u64 (au_observed_policy_revision row) in
  let event := mkServingAuditEvent scope operation_id actor kind previous revision digest state observed (au_occurred_at row) in
  let? _ := ServingAuditEvent_validate event in
  Ok event.

(** [ORDER BY occurred_at_micros, operation_id] *)
Definition audit_order : (skey * bytes) * ServingAuditRow -> (skey * bytes) * ServingAuditRow -> comparison :=
  cmp_lex (cmp_on (fun r => au_occurred_at (snd r)) Z.compare) (cmp_on (fun r => snd (fst r)) bytes_cmp).

(** [occurred_at_micros > $3 OR (occurred_at_micros = $3 AND operation_id > $4)] *)
Definition after_audit_cursor (after : option ServingAuditCursor) (r : (skey * bytes) * ServingAuditRow) : bool :=
  match after with
  | None => true
  | Some c =>
      (vx_occurred_at c <? au_occurred_at (snd r))
      || ((au_occurred_at (snd r) =? vx_occurred_at c) && bytes_ltb (id_to_string (vx_operation_id c)) (snd (fst r)))
  end.

Definition load_audit (scope : EnvironmentScope) (request : ServingAuditPageRequest) (db : ServingDb)
  : result ServingPolicyError ServingAuditPage :=
  let fetch_limit := vq_limit request + 1 in
  let rows := take (Z.to_nat fetch_limit)
    (order_by audit_order
       (filter (fun r => fst (fst r) = scope_key scope /\ after_audit_cursor (vq_after request) r = true)
          (map_to_list (serving_audit db)))) in
  let? events := try_map (decode_audit scope) rows in
  let has_more := vq_limit request <? len events in
  let events := if has_more then removelast events else events in
  let next :=
    if has_more
    then (fun event => mkServingAuditCursor (va_occurred_at event) (va_operation_id event)) <$> last events
    else None in
  Ok (mkServingAuditPage scope events next).

(** ** Writing *)

Definition with_policies (m : gmap skey PolicyRow) (db : ServingDb) : ServingDb :=
  mkServingDb m (serving_releases db) (serving_operations db) (serving_audit db).
Definition with_releases (m : gmap (skey * bytes) ServingReleaseRow) (db : ServingDb) : ServingDb :=
  mkServingDb (serving_policies db) m (serving_operations db) (serving_audit db).

(** The columns bound from a record; [UPDATE] leaves out the time of creation. *)
Definition policy_row (record : ServingPolicyRecord) : result ServingPolicyError PolicyRow :=
  let? revision := serving_to_i64 (vr_policy_revision record) in
  let? observed := optional_revision (vr_observed_policy_revision record) in
  Ok (mkPolicyRow (ServingMode_as_str (svp_mode (vr_desired_policy record)))
        (ServingPolicy_digest sha256 (vr_desired_policy record)) revision
        (ServingObservedState_as_str (vr_observed_state record)) observed (vr_created_at record) (vr_updated_at record)
        (vr_observed_at record)).
Definition keep_created (stored row : PolicyRow) : PolicyRow :=
  mkPolicyRow (pl_mode row) (pl_policy_digest row) (pl_policy_revision row) (pl_observed_state row)
    (pl_observed_policy_revision row) (pl_created_at stored) (pl_updated_at row) (pl_observed_at row).

Definition insert_policy (record : ServingPolicyRecord) (db : ServingDb) : result ServingPolicyError ServingDb :=
  let? row := policy_row record in
  let? policies := insert_unique policy_check (scope_key (vr_scope record)) row (serving_policies db) in
  Ok (with_policies policies db).

Definition update_policy (record : ServingPolicyRecord) (expected_revision : Z) (db : ServingDb)
  : result ServingPolicyError ServingDb :=
  let sk := scope_key (vr_scope record) in
  let? row := policy_row record in
  let? expected := serving_to_i64 expected_revision in
  match serving_policies db !! sk with
  | Some stored =>
      if negb (pl_policy_revision stored =? expected) then Err SPE_Conflict
      else if negb (policy_check (keep_created stored row)) then Err (map_constraint_error SX_Other)
      else Ok (with_policies (<[sk := keep_created stored row]> (serving_policies db)) db)
  | None => Err SPE_Conflict
  end.

Definition release_row (entry : ServingRelease) : ServingReleaseRow :=
  mkServingReleaseRow (sv_weight_percent entry) (sc_schema (sv_contracts entry)) (sc_indexes (sv_contracts entry))
    (sc_cron_declarations (sv_contracts entry)).

Definition insert_releases (record : ServingPolicyRecord) (db : ServingDb) : result ServingPolicyError ServingDb :=
  let sk := scope_key (vr_scope record) in
  try_fold (fun db entry =>
      let? releases := insert_unique release_check (sk, id_to_string (sv_release_id entry)) (release_row entry)
                         (serving_releases db) in
      if bool_decide (is_Some (serving_policies db !! sk)) then Ok (with_releases releases db)
      else Err (map_constraint_error SX_Constraint))
    db (svp_releases (vr_desired_policy record)).

Definition replace_releases (record : ServingPolicyRecord) (db : ServingDb) : result ServingPolicyError ServingDb :=
  let sk := scope_key (vr_scope record) in
  insert_releases record (with_releases (filter (fun r => fst (fst r) <> sk) (serving_releases db)) db).

Definition serving_insert_operation (operation : ServingOperation) (command_digest : bytes) (db : ServingDb)
  : result ServingPolicyError ServingDb :=
  let sk := scope_key (vo_scope operation) in
  let? revision := serving_to_i64 (vo_policy_revision operation) in
  let? observed := optional_revision (vo_observed_policy_revision operation) in
  let? operations := insert_unique operation_check (sk, id_to_string (vo_operation_id operation))
    (mkServingOperationRow command_digest (ServingCommandKind_as_str (vo_kind operation)) revision
       (vo_desired_policy_digest operation) (ServingObservedState_as_str (vo_observed_state operation)) observed
       (vo_completed_at operation)) (serving_operations db) in
  if bool_decide (is_Some (serving_policies db !! sk))
  then Ok (mkServingDb (serving_policies db) (serving_releases db) operations (serving_audit db))
  else Err (map_constraint_error SX_Constraint).

Definition insert_audit (event : ServingAuditEvent) (db : ServingDb) : result ServingPolicyError ServingDb :=
  let key := (scope_key (va_scope event), id_to_string (va_operation_id event)) in
  let? previous := optional_revision (va_previous_policy_revision event) in
  let? revision := serving_to_i64 (va_policy_revision event) in
  let? observed := optional_revision (va_observed_policy_revision event) in
  let? audit := insert_unique audit_check key
    (mkServingAuditRow (id_to_string <$> va_actor_operator_id event) (ServingCommandKind_as_str (va_kind event)) previous
       revision (va_desired_policy_digest event) (ServingObservedState_as_str (va_observed_state event)) observed
       (va_occurred_at event)) (serving_audit db) in
  if bool_decide (is_Some (serving_operations db !! key))
  then Ok (mkServingDb (serving_policies db) (serving_releases db) (serving_operations db) audit)
  else Err (map_constraint_error SX_Constraint).

(** ** Commands *)

(** The transition a command asks for. *)
Definition next_record (scope : EnvironmentScope) (current : option ServingPolicyRecord) (command : ServingCommand)
  : result ServingPolicyError ServingPolicyRecord :=
  match command with
  | VC_SetDesired _ expected_revision policy changed_at => set_desired scope current expected_revision policy changed_at
  | VC_Materialize expected_revision outcome observed_at =>
      let? current := ok_or SPE_NotFound current in
      serving_materialize current expected_revision outcome observed_at
  end.

Definition store_record (command : ServingCommand) (current : option ServingPolicyRecord) (next : ServingPolicyRecord)
  (db : ServingDb) : result ServingPolicyError ServingDb :=
  match current with
  | Some current =>
      let? db := update_policy next (vr_policy_revision current) db in
      match command with VC_SetDesired _ _ _ _ => replace_releases next db | VC_Materialize _ _ _ => Ok db end
  | None =>
      let? db := insert_policy next db in
      insert_releases next db
  end.

Definition operation_of (scope : EnvironmentScope) (operation_id : OperationId) (command : ServingCommand)
  (next : ServingPolicyRecord) : ServingOperation :=
  mkServingOperation scope operation_id (ServingCommand_kind command) (vr_policy_revision next)
    (ServingPolicy_digest sha256 (vr_desired_policy next)) (vr_observed_state next) (vr_observed_policy_revision next)
    (occurred_at command).

Definition audit_of (scope : EnvironmentScope) (operation_id : OperationId) (command : ServingCommand)
  (previous : option Z) (next : ServingPolicyRecord) : ServingAuditEvent :=
  mkServingAuditEvent scope operation_id match command with VC_SetDesired actor _ _ _ => Some actor | _ => None end
    (ServingCommand_kind command) previous (vr_policy_revision next) (ServingPolicy_digest sha256 (vr_desired_policy next))
    (vr_observed_state next) (vr_observed_policy_revision next) (occurred_at command).

Definition serving_apply_body (scope : EnvironmentScope) (operation_id : OperationId) (command : ServingCommand)
  (command_digest : bytes) (db : ServingDb) : result ServingPolicyError (ServingEnding ServingOperationResult) :=
  let? stored := serving_load_operation scope operation_id db in
  match stored with
  | Some (digest, operation) =>
      if bool_decide (digest <> command_digest) then Ok (EN_Rollback SPE_OperationIdReused)
      else Ok (EN_Commit (mkServingOperationResult operation true) db)
  | None =>
      let? current := load_policy scope db in
      let? next := next_record scope current command in
      let? db := store_record command current next db in
      let operation := operation_of scope operation_id command next in
      let? _ := ServingOperation_validate operation in
      let audit := audit_of scope operation_id command (vr_policy_revision <$> current) next in
      let? _ := ServingAuditEvent_validate audit in
      let? db := serving_insert_operation operation command_digest db in
      let? db := insert_audit audit db in
      Ok (EN_Commit (mkServingOperationResult operation false) db)
  end.

Definition serving_apply (o : ServingTxn) (scope : EnvironmentScope) (operation_id : OperationId) (command : ServingCommand)
  (db : ServingDb) : result ServingPolicyError ServingOperationResult * ServingDb :=
  match ServingCommand_digest sha256 command scope with
  | Err e => (Err e, db)
  | Ok digest => serving_txn o (serving_apply_body scope operation_id command digest) db
  end.

(** ** Reads of the repository; a failed statement or [COMMIT] is an argument *)

Definition serving_read {A} (fault : option ServingSqlxError) (r : result ServingPolicyError A) : result ServingPolicyError A :=
  match fault with Some e => Err (serving_map_sqlx_error e) | None => r end.

Definition serving_get (fault : option ServingSqlxError) (scope : EnvironmentScope) (db : ServingDb)
  : result ServingPolicyError (option ServingPolicyRecord) := serving_read fault (load_policy scope db).

Definition serving_operation (fault : option ServingSqlxError) (scope : EnvironmentScope) (operation_id : OperationId)
  (db : ServingDb) : result ServingPolicyError (option ServingOperation) :=
  let? stored := serving_read fault (serving_load_operation scope operation_id db) in
  Ok (snd <$> stored).

Definition serving_audit_page (fault : option ServingSqlxError) (scope : EnvironmentScope)
  (request : ServingAuditPageRequest) (db : ServingDb) : result ServingPolicyError ServingAuditPage :=
  let? _ := ServingAuditPageRequest_validate request in
  serving_read fault (load_audit scope request db).
End repository.
