(* ===== verification/ServingHistory.v ===== *)
(** * Histories of the serving-policy repository

    Whatever commands reach the repository of [ServingRepository], under whatever fate of their
    transactions, an Environment has a history: the commands that took effect, each once and each from
    the record the one before left.  The policy, the journal and the audit trail are read from it. *)

From Stdlib Require Import Strings.Byte ZArith Lia.
From stdpp Require Import prelude strings gmap sorting list.
From S2P Require Import Prelude Order Codec Ulid Value StoredValue Core Release Cron Manifest StoreModel Batch Sql SqliteStore SqliteCommit.
From S2P Require Import Serving ServingRepository.

(** ** What the Rust types guarantee *)

Definition contracts_ok (c : ServingContractHashes) : Prop :=
  digest_ok (sc_schema c) /\ digest_ok (sc_indexes c) /\ digest_ok (sc_cron_declarations c).
Definition serving_release_ok (e : ServingRelease) : Prop :=
  id_ok (sv_release_id e) /\ 0 <= sv_weight_percent e /\ contracts_ok (sv_contracts e).
Definition policy_ok (p : ServingPolicy) : Prop := Forall serving_release_ok (svp_releases p).
Definition command_ok (c : ServingCommand) : Prop :=
  match c with
  | VC_SetDesired actor _ policy _ => id_ok actor /\ policy_ok policy
  | VC_Materialize expected_revision _ _ => 0 <= expected_revision
  end.

(** A record of the Environment [scope] that is in the database. *)
Record record_ok (scope : EnvironmentScope) (r : ServingPolicyRecord) : Prop := {
  ro_scope : vr_scope r = scope;
  ro_policy : policy_ok (vr_desired_policy r);
  ro_valid : ServingPolicyRecord_validate r = Ok tt;
  ro_revision : 0 <= vr_policy_revision r <= i64_max;
  ro_observed : forall n, vr_observed_policy_revision r = Some n -> 0 <= n
}.

Lemma policy_ok_weights p : policy_ok p -> Forall (fun e => 0 <= sv_weight_percent e) (svp_releases p).
Proof. intros Hp. eapply Forall_impl; [done|]. by intros e (_ & ? & _). Qed.

Lemma mode_round_trip m : ServingMode_from_persisted (ServingMode_as_str m) = Ok m.
Proof. by destruct m. Qed.
Lemma state_round_trip s : ServingObservedState_from_persisted (ServingObservedState_as_str s) = Ok s.
Proof. by destruct s. Qed.
Lemma kind_round_trip k : ServingCommandKind_from_persisted (ServingCommandKind_as_str k) = Ok k.
Proof. by destruct k. Qed.

Lemma serving_to_i64_Ok v n : serving_to_i64 v = Ok n <-> n = v /\ 0 <= v <= i64_max.
Proof. unfold serving_to_i64. rewrite ok_or_Ok, try_from_u_Some. naive_solver. Qed.
Lemma serving_to_i64_eq v : 0 <= v <= i64_max -> serving_to_i64 v = Ok v.
Proof. intros. by apply serving_to_i64_Ok. Qed.
Lemma serving_positive_u64_eq v : 0 < v <= i64_max -> serving_positive_u64 v = Ok v.
Proof.
  intros. unfold serving_positive_u64. rewrite (proj2 (Z.leb_gt _ _)) by lia.
  apply ok_or_Ok, try_from_u_Some. unfold i64_max, u64_max in *. lia.
Qed.
Lemma decode_digest_eq d : digest_ok d -> serving_decode_digest d = Ok d.
Proof. unfold digest_ok, serving_decode_digest. by intros ->. Qed.

(** Optional revisions that are written are read back. *)
Definition optional_ok (o : option Z) (limit : Z) : Prop := forall n, o = Some n -> 0 < n <= limit.
Lemma optional_revision_eq o limit : optional_ok o limit -> limit <= i64_max ->
  optional_revision o = Ok o /\ optional_positive_u64 o = Ok o.
Proof.
  unfold optional_revision, optional_positive_u64. destruct o as [n|]; [|done]. intros Ho Hl. specialize (Ho n eq_refl).
  by rewrite serving_to_i64_eq, serving_positive_u64_eq by lia.
Qed.

(** ** Facts of a valid record *)

Record record_facts (r : ServingPolicyRecord) : Prop := {
  rf_policy : ServingPolicy_validate (vr_desired_policy r) = Ok tt;
  rf_project : svp_project_id (vr_desired_policy r) = Core.project_id (vr_scope r);
  rf_revision : vr_policy_revision r <> 0;
  rf_created : 0 <= vr_created_at r <= vr_updated_at r;
  rf_observed_at : forall t, vr_observed_at r = Some t -> vr_created_at r <= t;
  rf_both : is_Some (vr_observed_at r) <-> is_Some (vr_observed_policy_revision r);
  rf_observed : forall n, vr_observed_policy_revision r = Some n -> n <> 0 /\ n <= vr_policy_revision r;
  rf_state :
    match vr_observed_state r with
    | SO_Pending =>
        (forall n, vr_observed_policy_revision r = Some n -> n < vr_policy_revision r)
        /\ (forall t, vr_observed_at r = Some t -> t <= vr_updated_at r)
    | SO_Ready | SO_Failed =>
        vr_observed_policy_revision r = Some (vr_policy_revision r)
        /\ exists t, vr_observed_at r = Some t /\ vr_updated_at r <= t
    end
}.

Lemma is_some_and_false {A} (o : option A) p : is_some_and o p = false <-> forall a, o = Some a -> p a = false.
Proof. destruct o; cbn; naive_solver. Qed.

Lemma record_validate_Ok r : ServingPolicyRecord_validate r = Ok tt -> record_facts r.
Proof.
  unfold ServingPolicyRecord_validate. rewrite rbind_Ok. intros ([] & Hp%map_err_Ok & H).
  destruct (_ || _) eqn:E in H; [done|]. rewrite !orb_false_iff in E. destruct E as ((((((E1 & E2) & E3) & E4) & E5) & E6) & E7).
  apply bool_decide_eq_false in E1. apply dec_stable in E1. apply Z.eqb_neq in E2. apply Z.ltb_ge in E3, E4.
  rewrite is_some_and_false in E5, E7. apply negb_false_iff, eqb_prop in E6.
  split; [done|done|done|lia|..].
  - intros t Ht. apply E5 in Ht. lia.
  - destruct (vr_observed_at r), (vr_observed_policy_revision r); cbn in *; split; intros [? ?]; done || eauto.
  - intros n Hn. apply E7 in Hn. lia.
  - destruct (vr_observed_state r); destruct (_ || _) eqn:E in H; try done; apply orb_false_iff in E as [E E'];
      try (apply bool_decide_eq_false, dec_stable in E; split; [done|];
           destruct (vr_observed_at r) as [t|]; [|done]; exists t; split; [done|]; cbn in E'; lia).
    rewrite is_some_and_false in E, E'. split; [intros n Hn; apply E in Hn; lia|intros t Ht; apply E' in Ht; lia].
Qed.

Section rows.
Context {UL : UlidLib} {ULL : UlidLaws}.
Variable sha256 : bytes -> bytes.
Hypothesis sha256_len : forall m, len (sha256 m) = 32.

(** The row of a Release in the table, and the table with the rows of several. *)
Definition keyed_release (sk : skey) (e : ServingRelease) : (skey * bytes) * ServingReleaseRow :=
  ((sk, id_to_string (sv_release_id e)), release_row e).
Definition release_rows (sk : skey) (l : list ServingRelease) : gmap (skey * bytes) ServingReleaseRow :=
  list_to_map (map (keyed_release sk) l).

Lemma decode_keyed_release sk e : serving_release_ok e -> weight_ok e ->
  decode_serving_release (keyed_release sk e) = Ok e.
Proof.
  intros (Hi & _ & H1 & H2 & H3) [Hw1 Hw2]. unfold decode_serving_release, keyed_release. cbn [fst snd release_row].
  rewrite id_from_to_string by done. cbn. rewrite (proj2 (try_from_u_Some _ _ _)) by (unfold u8_max; split; [reflexivity|lia]).
  cbn. rewrite !decode_digest_eq by done. cbn. unfold ServingRelease_new.
  rewrite (proj2 (Z.eqb_neq _ _)), (proj2 (Z.ltb_ge _ _)) by lia. by destruct e as [? ? []].
Qed.

Lemma keyed_release_NoDup sk l : Forall serving_release_ok l -> StronglySorted id_lt l ->
  NoDup (map fst (map (keyed_release sk) l)).
Proof.
  intros Hl Hs%sorted_ids_NoDup. rewrite map_map. apply (NoDup_rendered sv_release_id); [done|].
  rewrite Forall_forall in Hl. intros x y Hx Hy E.
  apply (f_equal snd), id_to_string_inj in E; [done|by apply Hl..].
Qed.

Lemma keyed_release_sorted sk l : Forall serving_release_ok l -> StronglySorted id_lt l ->
  StronglySorted (cmp_le release_order) (map (keyed_release sk) l).
Proof.
  intros Hl. induction 1 as [|e l Hs IH Hf]; cbn [map]; [constructor|]. apply Forall_cons in Hl as [He Hl].
  constructor; [by apply IH|]. apply Forall_forall. intros x (y & -> & Hy)%list_elem_of_fmap.
  rewrite Forall_forall in Hf, Hl. specialize (Hf _ Hy). destruct He as [He _], (Hl _ Hy) as [Hy' _].
  unfold cmp_le, release_order, cmp_on, keyed_release. cbn [fst snd]. rewrite id_to_string_cmp by done.
  unfold id_lt in Hf. by rewrite (proj2 (Z.compare_lt_iff _ _)).
Qed.

(** The rows of an Environment in a table that has no others of it. *)
Lemma ordered_releases (m : gmap (skey * bytes) ServingReleaseRow) sk l :
  Forall serving_release_ok l -> StronglySorted id_lt l ->
  (forall t, m !! (sk, t) = release_rows sk l !! (sk, t)) ->
  order_by release_order (filter (fun r => fst (fst r) = sk) (map_to_list m)) = map (keyed_release sk) l.
Proof.
  intros Hl Hs Hm. pose proof (keyed_release_NoDup sk l Hl Hs) as Hn. apply order_by_unique.
  - apply _.
  - apply NoDup_Permutation; [apply NoDup_filter, NoDup_map_to_list|by eapply NoDup_fmap_1|].
    intros [[sk' t] row]. rewrite list_elem_of_filter, elem_of_map_to_list. cbn [fst]. unfold release_rows in Hm. split.
    + intros [-> E]. rewrite Hm in E. by apply elem_of_list_to_map in E.
    + intros E. assert (sk' = sk) as -> by (apply list_elem_of_fmap in E as (e & E & _); exact (f_equal (fun r => fst (fst r)) E)).
      split; [done|]. rewrite Hm. by apply elem_of_list_to_map.
  - by apply keyed_release_sorted.
  - intros x y (a & -> & Ha)%list_elem_of_fmap (b & -> & Hb)%list_elem_of_fmap E%bytes_cmp_eq.
    cbn [keyed_release fst snd] in E. rewrite Forall_forall in Hl.
    assert (sv_release_id a = sv_release_id b) as Eid by (apply id_to_string_inj in E; [done|by apply Hl..]).
    pose proof (sorted_ids_NoDup _ Hs) as Hd. f_equal.
    apply list_elem_of_lookup in Ha as [i Ha], Hb as [j Hb].
    assert (i = j) as ->; [|congruence].
    eapply NoDup_lookup; [done|rewrite list_lookup_fmap, Ha; done|rewrite list_lookup_fmap, Hb; cbn; by rewrite Eid].
Qed.

Lemma sort_releases_sorted l : StronglySorted id_lt l -> sort_releases l = l.
Proof.
  induction 1 as [|e l Hs IH Hf]; [done|]. cbn. fold sort_releases. rewrite IH. destruct Hf as [|x l Hx _]; [done|].
  cbn. unfold id_lt in Hx. by rewrite (proj2 (Z.leb_le _ _)) by lia.
Qed.

(** ** The stored record *)

Lemma ok_policy scope r : record_ok scope r -> policy_valid (vr_desired_policy r).
Proof.
  intros [_ Hp Hv _ _]. apply policy_validate_Ok; [by apply policy_ok_weights|by apply record_validate_Ok].
Qed.

Lemma ok_observed scope r : record_ok scope r -> optional_ok (vr_observed_policy_revision r) (vr_policy_revision r).
Proof.
  intros [_ _ Hv%record_validate_Ok _ Ho] n E. pose proof (rf_observed r Hv n E). pose proof (Ho n E). lia.
Qed.

Definition stored_row (r : ServingPolicyRecord) : PolicyRow :=
  mkPolicyRow (ServingMode_as_str (svp_mode (vr_desired_policy r))) (ServingPolicy_digest sha256 (vr_desired_policy r))
    (vr_policy_revision r) (ServingObservedState_as_str (vr_observed_state r)) (vr_observed_policy_revision r)
    (vr_created_at r) (vr_updated_at r) (vr_observed_at r).

Lemma policy_row_eq scope r : record_ok scope r -> policy_row sha256 r = Ok (stored_row r).
Proof.
  intros Hr. unfold policy_row. rewrite serving_to_i64_eq by apply Hr. cbn [rbind].
  by rewrite (proj1 (optional_revision_eq _ _ (ok_observed _ _ Hr) (proj2 (ro_revision _ _ Hr)))).
Qed.

Lemma not_false_true o p : not_false o p = true <-> forall n, o = Some n -> p n = true.
Proof. destruct o; cbn; naive_solver. Qed.

Lemma stored_row_check scope r : record_ok scope r -> policy_check (stored_row r) = true.
Proof.
  intros Hr. pose proof (ok_observed _ _ Hr) as Ho. destruct Hr as [_ _ Hv%record_validate_Ok Hrev _]. destruct Hv.
  unfold policy_check, stored_row. cbn [pl_mode pl_policy_digest pl_policy_revision pl_observed_state
    pl_observed_policy_revision pl_created_at pl_updated_at pl_observed_at].
  unfold ServingPolicy_digest. rewrite sha256_len. cbn [Z.eqb Pos.eqb]. rewrite !andb_true_iff. split_and!.
  - by destruct (svp_mode _).
  - done.
  - lia.
  - by destruct (vr_observed_state r).
  - apply not_false_true. intros n E. pose proof (Ho n E). lia.
  - lia.
  - lia.
  - apply not_false_true. intros t E. pose proof (rf_observed_at0 t E). lia.
  - destruct (vr_observed_at r), (vr_observed_policy_revision r); cbn; try done; exfalso;
      [destruct rf_both0 as [H _]; by destruct H as [? ?]|destruct rf_both0 as [_ H]; by destruct H as [? ?]].
  - destruct (vr_observed_state r); cbn [ServingObservedState_as_str]; apply orb_true_iff.
    + left. apply not_false_true. intros t E. pose proof (proj2 rf_state0 t E). lia.
    + right. destruct rf_state0 as (_ & t & E & ?). rewrite E. apply andb_true_iff. split; [done|]. cbn. lia.
    + right. destruct rf_state0 as (_ & t & E & ?). rewrite E. apply andb_true_iff. split; [done|]. cbn. lia.
  - destruct (vr_observed_state r); cbn [ServingObservedState_as_str]; apply orb_true_iff.
    + left. apply not_false_true. intros n E. pose proof (proj1 rf_state0 n E). lia.
    + right. destruct rf_state0 as (E & _). rewrite E. apply andb_true_iff. split; [done|]. cbn. lia.
    + right. destruct rf_state0 as (E & _). rewrite E. apply andb_true_iff. split; [done|]. cbn. lia.
Qed.

(** The current record of an Environment is what its rows say. *)
Definition stored_record (scope : EnvironmentScope) (current : option ServingPolicyRecord) (db : ServingDb) : Prop :=
  serving_policies db !! scope_key scope = stored_row <$> current
  /\ (forall t, serving_releases db !! (scope_key scope, t)
        = release_rows (scope_key scope) (from_option (fun r => svp_releases (vr_desired_policy r)) [] current)
            !! (scope_key scope, t))
  /\ (forall r, current = Some r -> record_ok scope r).

Lemma load_stored scope current db : stored_record scope current db -> load_policy sha256 scope db = Ok current.
Proof.
  intros (Hp & Hrows & Hok). unfold load_policy. rewrite Hp. destruct current as [r|]; cbn [fmap option_fmap option_map]; [|done].
  specialize (Hok r eq_refl). cbn [from_option] in Hrows. pose proof (ok_policy _ _ Hok) as [_ Hw Hs _].
  rewrite (ordered_releases _ _ (svp_releases (vr_desired_policy r))) by (done || apply Hok).
  pose proof (optional_revision_eq _ _ (ok_observed _ _ Hok) (proj2 (ro_revision _ _ Hok))) as [_ Eo].
  destruct Hok as [Hsc Hpo Hv Hrev _]. pose proof (record_validate_Ok _ Hv) as Hf.
  rewrite (proj2 (try_map_Ok _ _ (svp_releases (vr_desired_policy r)))).
  2: { apply Forall2_fmap_l, Forall_Forall2_diag. eapply Forall_impl; [exact (proj2 (Forall_and _ _) (conj Hpo Hw))|].
       intros e [? ?]. by apply decode_keyed_release. }
  cbn [rbind stored_row pl_mode pl_policy_digest pl_policy_revision pl_observed_state pl_observed_policy_revision].
  rewrite mode_round_trip. cbn [rbind]. unfold ServingPolicy_new. rewrite sort_releases_sorted by done.
  assert (mkServingPolicy (Core.project_id scope) (svp_mode (vr_desired_policy r)) (svp_releases (vr_desired_policy r))
          = vr_desired_policy r) as ->.
  { rewrite <-Hsc, <-(rf_project r Hf). by destruct (vr_desired_policy r). }
  rewrite (rf_policy r Hf). cbn [rbind parsed map_err]. rewrite decode_digest_eq by apply sha256_len. cbn [rbind].
  rewrite bool_decide_eq_false_2 by (intros Hne; by apply Hne). pose proof (rf_revision r Hf).
  rewrite serving_positive_u64_eq by lia. cbn [rbind]. rewrite state_round_trip, Eo. cbn [rbind].
  replace (mkServingPolicyRecord _ _ _ _ _ _ _ _) with r by (rewrite <-Hsc; by destruct r). by rewrite Hv.
Qed.

(** ** Transitions *)

(** The time of the last change of a record. *)
Definition last_change (r : ServingPolicyRecord) : Z := Z.max (vr_updated_at r) (default 0 (vr_observed_at r)).

Record transition (scope : EnvironmentScope) (current : option ServingPolicyRecord) (command : ServingCommand)
  (next : ServingPolicyRecord) : Prop := {
  tr_valid : ServingPolicyRecord_validate next = Ok tt;
  tr_scope : vr_scope next = scope;
  tr_policy : policy_ok (vr_desired_policy next);
  tr_observed : forall n, vr_observed_policy_revision next = Some n -> 0 <= n;
  tr_state : kind_state_drift (ServingCommand_kind command) (vr_observed_state next) = false;
  tr_created : forall r, current = Some r -> vr_created_at next = vr_created_at r;
  tr_kind :
    match command with
    | VC_SetDesired _ expected policy _ =>
        expected = vr_policy_revision <$> current /\ vr_desired_policy next = policy
        /\ vr_policy_revision next = default 0 (vr_policy_revision <$> current) + 1
        /\ vr_policy_revision next <= u64_max
    | VC_Materialize expected _ _ =>
        exists r, current = Some r /\ expected = vr_policy_revision r /\ vr_desired_policy next = vr_desired_policy r
          /\ vr_policy_revision next = vr_policy_revision r
    end;
  tr_time : 0 <= occurred_at command /\ last_change next = occurred_at command;
  tr_later : forall r, current = Some r -> last_change r <= occurred_at command
}.

Lemma set_desired_transition scope current actor expected policy t next :
  (forall r, current = Some r -> record_ok scope r) -> policy_ok policy ->
  set_desired scope current expected policy t = Ok next ->
  transition scope current (VC_SetDesired actor expected policy t) next.
Proof.
  intros Hc Hp. unfold set_desired. rewrite rbind_Ok. intros ([] & Hv & H).
  destruct (bool_decide _ || _) eqn:E in H; [done|]. apply orb_false_iff in E as [_ Et%Z.ltb_ge].
  destruct (is_some_and current _); [done|]. destruct current as [r|].
  - apply rbind_Ok in H as ([] & Hr & H). case_bool_decide as He; [done|].
    destruct (bool_decide _ || _ || _) eqn:E in H; [done|]. rewrite !orb_false_iff in E. destruct E as [[_ E1%Z.ltb_ge] E2].
    rewrite is_some_and_false in E2. apply rbind_Ok in H as (n & [-> Hn]%ok_or_Ok%checked_add_Some & H).
    apply rbind_Ok in H as ([] & Hv' & [= <-]). destruct (Hc r eq_refl) as [Hs _ _ _ Ho].
    assert (last_change r <= t) as Hl.
    { unfold last_change. destruct (vr_observed_at r) as [o|]; cbn; [specialize (E2 o eq_refl)|]; lia. }
    split; cbn; try done.
    + by intros ? [= <-].
    + split; [lia|]. unfold last_change in *. cbn. lia.
    + by intros ? [= <-].
  - case_bool_decide as He; [done|]. apply rbind_Ok in H as ([] & Hv' & [= <-]).
    assert (expected = None) by (destruct expected; [by destruct He|done]).
    split; cbn; try done. split; [lia|]. unfold last_change. cbn. lia.
Qed.

Lemma materialize_transition scope r expected outcome t next : record_ok scope r -> 0 <= expected -> 0 <= t ->
  serving_materialize r expected outcome t = Ok next ->
  transition scope (Some r) (VC_Materialize expected outcome t) next.
Proof.
  intros [Hs Hp _ _ _] Hx Ht0. unfold serving_materialize. rewrite rbind_Ok. intros ([] & Hv & H).
  destruct (negb _ || _) eqn:E in H; [done|]. apply orb_false_iff in E as [->%negb_false_iff%Z.eqb_eq _].
  destruct (_ || _) eqn:E in H; [done|]. apply orb_false_iff in E as [E1%Z.ltb_ge E2]. rewrite is_some_and_false in E2.
  apply rbind_Ok in H as ([] & Hv' & [= <-]). split; cbn; try done.
  - by intros ? [= <-].
  - by destruct outcome.
  - by intros ? [= <-].
  - eauto.
  - split; [done|]. unfold last_change. cbn. lia.
  - intros ? [= <-]. unfold last_change. destruct (vr_observed_at r) as [o|]; cbn; [specialize (E2 o eq_refl)|]; lia.
Qed.

Lemma next_record_transition scope current command next :
  (forall r, current = Some r -> record_ok scope r) -> command_ok command ->
  ServingCommand_validate command scope = Ok tt ->
  next_record scope current command = Ok next -> transition scope current command next.
Proof.
  intros Hc Hk Hv. destruct command as [actor expected policy t|expected outcome t]; cbn [next_record].
  - intros H. eapply set_desired_transition; [done|by destruct Hk|done].
  - rewrite rbind_Ok. intros (r & ->%ok_or_Ok & H). cbn in Hv. destruct (_ || _) eqn:E in Hv; [done|].
    apply orb_false_iff in E as [_ E%Z.ltb_ge]. apply materialize_transition; auto.
Qed.

(** The metadata written for a transition is valid. *)
Lemma transition_observation scope current command next : transition scope current command next ->
  0 < vr_policy_revision next ->
  validate_observation (vr_policy_revision next) (vr_observed_state next) (vr_observed_policy_revision next) = Ok tt.
Proof.
  intros Ht Hpos. pose proof (record_validate_Ok _ (tr_valid _ _ _ _ Ht)) as []. unfold validate_observation.
  rewrite (proj2 (Z.eqb_neq _ _)) by lia. cbn [orb].
  assert (is_some_and (vr_observed_policy_revision next) (fun r => (r =? 0) || (vr_policy_revision next <? r)) = false) as ->.
  { apply is_some_and_false. intros n E. pose proof (rf_observed0 n E). lia. }
  destruct (vr_observed_state next).
  - assert (is_some_and (vr_observed_policy_revision next) (fun r => vr_policy_revision next <=? r) = false) as ->; [|done].
    apply is_some_and_false. intros n E. pose proof (proj1 rf_state0 n E). lia.
  - by rewrite (proj1 rf_state0), bool_decide_eq_false_2 by naive_solver.
  - by rewrite (proj1 rf_state0), bool_decide_eq_false_2 by naive_solver.
Qed.

(** ** Writing a record *)

Lemma insert_unique_eq {K V} `{Countable K} (check : V -> bool) (k : K) row (m : gmap K V) :
  check row = true -> m !! k = None -> insert_unique check k row m = Ok (<[k := row]> m).
Proof. intros Hc Hm. unfold insert_unique. rewrite Hc, Hm. by rewrite bool_decide_eq_false_2 by (by intros [? ?]). Qed.

Lemma release_row_check e : serving_release_ok e -> weight_ok e -> release_check (release_row e) = true.
Proof.
  intros (_ & _ & H1 & H2 & H3) [? ?]. unfold release_check, release_row, digest_ok in *. cbn. rewrite H1, H2, H3.
  rewrite !andb_true_iff. split_and!; done || lia.
Qed.

Lemma insert_releases_eq sk l : Forall serving_release_ok l -> Forall weight_ok l -> StronglySorted id_lt l -> forall db,
  is_Some (serving_policies db !! sk) -> (forall t, serving_releases db !! (sk, t) = None) ->
  try_fold (fun db entry =>
      let? releases := insert_unique release_check (sk, id_to_string (sv_release_id entry)) (release_row entry)
                         (serving_releases db) in
      if bool_decide (is_Some (serving_policies db !! sk)) then Ok (with_releases releases db)
      else Err (map_constraint_error SX_Constraint)) db l
  = Ok (with_releases (release_rows sk l ∪ serving_releases db) db).
Proof.
  intros Hl Hw Hs db Hp Hn. pose proof (keyed_release_NoDup sk l Hl Hs) as Hd.
  assert (Hf : forall e, e ∈ l -> serving_releases db !! fst (keyed_release sk e) = None) by (intros; apply Hn).
  clear Hn Hs. revert db Hp Hf. induction l as [|e l IH]; intros db Hp Hf.
  { cbn. unfold release_rows. cbn. rewrite (left_id_L ∅ (∪)). by destruct db. }
  apply Forall_cons in Hl as [He Hl], Hw as [Hwe Hw]. cbn [map] in Hd. apply NoDup_cons in Hd as [Hne Hd]. cbn [try_fold].
  rewrite insert_unique_eq by (by apply release_row_check || by apply (Hf e (list_elem_of_here _ _))). cbn [rbind].
  rewrite bool_decide_eq_true_2 by done. cbn [rbind]. rewrite IH; try done.
  - cbn [with_releases serving_releases serving_policies serving_operations serving_audit]. unfold with_releases. cbn.
    do 2 f_equal. unfold release_rows. cbn [map list_to_map foldr keyed_release fst snd].
    rewrite <-insert_union_l, insert_union_r; [done|]. by apply not_elem_of_list_to_map_1.
  - intros x Hx. cbn. rewrite lookup_insert_ne; [by apply Hf; right|].
    intros E. apply Hne. change (fst (keyed_release sk e) = fst (keyed_release sk x)) in E. rewrite E.
    by apply list_elem_of_fmap_2, list_elem_of_fmap_2.
Qed.

(** What the tables say of the Environment with key [sk]. *)
Definition same_rows (sk : skey) (db db' : ServingDb) : Prop :=
  serving_policies db' !! sk = serving_policies db !! sk
  /\ (forall t, serving_releases db' !! (sk, t) = serving_releases db !! (sk, t))
  /\ (forall t, serving_operations db' !! (sk, t) = serving_operations db !! (sk, t))
  /\ (forall t, serving_audit db' !! (sk, t) = serving_audit db !! (sk, t)).

Lemma same_rows_trans sk db1 db2 db3 : same_rows sk db1 db2 -> same_rows sk db2 db3 -> same_rows sk db1 db3.
Proof. intros (A1 & B1 & C1 & D1) (A2 & B2 & C2 & D2). split_and!; intros; congruence. Qed.

Lemma release_rows_other sk sk' l t : sk <> sk' -> release_rows sk' l !! (sk, t) = None.
Proof.
  intros Hne. apply not_elem_of_list_to_map_1. rewrite map_map.
  intros (e & E & _)%list_elem_of_fmap. apply (f_equal fst) in E. done.
Qed.

(** The tables with a record in place of the one that was there. *)
Definition replaced (scope : EnvironmentScope) (next : ServingPolicyRecord) (db : ServingDb) : ServingDb :=
  let sk := scope_key scope in
  mkServingDb (<[sk := stored_row next]> (serving_policies db))
    (release_rows sk (svp_releases (vr_desired_policy next)) ∪ filter (fun r => fst (fst r) <> sk) (serving_releases db))
    (serving_operations db) (serving_audit db).

Lemma filter_key_None {V} (sk : skey) (m : gmap (skey * bytes) V) (t : bytes) :
  filter (fun r : (skey * bytes) * V => fst (fst r) <> sk) m !! (sk, t) = None.
Proof. apply map_lookup_filter_None. right. intros row _ H. by apply H. Qed.
Lemma filter_key_other {V} (sk sk' : skey) (m : gmap (skey * bytes) V) (t : bytes) : sk <> sk' ->
  filter (fun r : (skey * bytes) * V => fst (fst r) <> sk') m !! (sk, t) = m !! (sk, t).
Proof. intros Hne. apply option_eq. intros row. rewrite map_lookup_filter_Some. cbn. naive_solver. Qed.

Lemma replaced_stored scope next db : record_ok scope next -> stored_record scope (Some next) (replaced scope next db).
Proof.
  intros Hok. split_and!.
  - by unfold replaced; cbn; rewrite lookup_insert_eq.
  - intros t. cbn. rewrite lookup_union, filter_key_None. by rewrite (right_id_L None _).
  - by intros ? [= <-].
Qed.

Lemma replaced_other sk scope next db : sk <> scope_key scope -> same_rows sk db (replaced scope next db).
Proof.
  intros Hne. unfold replaced. split_and!; cbn; try done.
  - by rewrite lookup_insert_ne.
  - intros t. rewrite lookup_union, release_rows_other, filter_key_other by done. by rewrite (left_id_L None _).
Qed.

Lemma insert_releases_record scope next db : record_ok scope next -> is_Some (serving_policies db !! scope_key scope) ->
  (forall t, serving_releases db !! (scope_key scope, t) = None) ->
  insert_releases next db
  = Ok (with_releases (release_rows (scope_key scope) (svp_releases (vr_desired_policy next)) ∪ serving_releases db) db).
Proof.
  intros Hok. pose proof (ok_policy _ _ Hok) as [_ Hw Hs _]. unfold insert_releases. rewrite (ro_scope _ _ Hok).
  apply insert_releases_eq; [apply Hok|done..].
Qed.

Lemma filter_own scope current db : stored_record scope current db ->
  release_rows (scope_key scope) (from_option (fun r => svp_releases (vr_desired_policy r)) [] current)
    ∪ filter (fun r => fst (fst r) <> scope_key scope) (serving_releases db) = serving_releases db.
Proof.
  intros (_ & Hr & _). apply map_eq. intros [sk t]. rewrite lookup_union. destruct (decide (sk = scope_key scope)) as [->|Hne].
  - by rewrite filter_key_None, Hr, (right_id_L None _).
  - by rewrite release_rows_other, filter_key_other, (left_id_L None _) by done.
Qed.

Lemma update_policy_eq scope r command next db : stored_record scope (Some r) db ->
  transition scope (Some r) command next -> record_ok scope next ->
  update_policy sha256 next (vr_policy_revision r) db
  = Ok (with_policies (<[scope_key scope := stored_row next]> (serving_policies db)) db).
Proof.
  intros (Hp & _ & Hr) Ht Hn. specialize (Hr r eq_refl). unfold update_policy.
  rewrite (ro_scope _ _ Hn), Hp, (policy_row_eq _ _ Hn). cbn [rbind].
  rewrite serving_to_i64_eq by apply Hr. cbn [rbind fmap option_fmap option_map stored_row pl_policy_revision].
  rewrite Z.eqb_refl. cbn [negb].
  assert (keep_created (stored_row r) (stored_row next) = stored_row next) as E.
  { unfold keep_created, stored_row. cbn. by rewrite (tr_created _ _ _ _ Ht r eq_refl). }
  change (mkPolicyRow _ _ _ _ _ _ _ _) with (stored_row r). rewrite E.
  by rewrite (stored_row_check _ _ Hn).
Qed.

Lemma store_record_eq scope current command next db : stored_record scope current db ->
  transition scope current command next -> record_ok scope next ->
  store_record sha256 command current next db = Ok (replaced scope next db).
Proof.
  intros Hst Ht Hn. pose proof (filter_own _ _ _ Hst) as Hown. destruct current as [r|]; cbn [store_record].
  - rewrite (update_policy_eq _ _ _ _ _ Hst Ht Hn). cbn [rbind]. destruct command as [actor expected policy t|expected outcome t].
    + unfold replace_releases. rewrite (ro_scope _ _ Hn). rewrite (insert_releases_record scope); [done|done| |].
      * cbn. rewrite lookup_insert_eq. eauto.
      * intros t'. apply filter_key_None.
    + destruct (tr_kind _ _ _ _ Ht) as (r' & [= <-] & _ & E & _). unfold replaced. cbn [from_option] in Hown.
      by rewrite E, Hown.
  - unfold insert_policy. rewrite (policy_row_eq _ _ Hn). cbn [rbind]. rewrite (ro_scope _ _ Hn).
    destruct Hst as (Hp & Hr & _). rewrite insert_unique_eq by (by eapply stored_row_check || done). cbn [rbind].
    rewrite (insert_releases_record scope); [|done| |].
    + unfold replaced. cbn in Hown |- *. rewrite (left_id_L ∅ (∪)) in Hown. by rewrite Hown.
    + cbn. rewrite lookup_insert_eq. eauto.
    + intros t. cbn. by rewrite Hr.
Qed.

(** A record that is written fits the columns. *)
Lemma stored_fits scope current command next db db' : stored_record scope current db -> transition scope current command next ->
  store_record sha256 command current next db = Ok db' -> record_ok scope next.
Proof.
  intros (_ & _ & Hcur) Ht Hs.
  assert (exists row, policy_row sha256 next = Ok row) as [row Hrow].
  { destruct current as [r|]; cbn [store_record] in Hs; apply rbind_Ok in Hs as (db1 & H & _).
    - unfold update_policy in H. apply rbind_Ok in H as (row & H & _). eauto.
    - unfold insert_policy in H. apply rbind_Ok in H as (row & H & _). eauto. }
  unfold policy_row in Hrow. apply rbind_Ok in Hrow as (n & [_ Hn]%serving_to_i64_Ok & _).
  by split; apply Ht || done.
Qed.

(** ** Histories *)

(** A command that took effect, with the records before and after it. *)
Record ServingStep : Type := mkServingStep {
  ss_operation_id : OperationId; ss_command : ServingCommand;
  ss_previous : option ServingPolicyRecord; ss_record : ServingPolicyRecord
}.

(** The commands that took effect, the latest first, and the record they lead to. *)
Inductive history (scope : EnvironmentScope) : list ServingStep -> option ServingPolicyRecord -> Prop :=
| history_nil : history scope [] None
| history_cons h current op command next :
    history scope h current -> op ∉ map ss_operation_id h ->
    id_ok op -> command_ok command -> ServingCommand_validate command scope = Ok tt ->
    next_record scope current command = Ok next -> vr_policy_revision next <= i64_max ->
    history scope (mkServingStep op command current next :: h) (Some next).

Definition step_operation (scope : EnvironmentScope) (s : ServingStep) : ServingOperation :=
  operation_of sha256 scope (ss_operation_id s) (ss_command s) (ss_record s).
Definition step_audit (scope : EnvironmentScope) (s : ServingStep) : ServingAuditEvent :=
  audit_of sha256 scope (ss_operation_id s) (ss_command s) (vr_policy_revision <$> ss_previous s) (ss_record s).
Definition step_digest (scope : EnvironmentScope) (s : ServingStep) : bytes :=
  match ServingCommand_digest sha256 (ss_command s) scope with Ok d => d | Err _ => [] end.
Definition find_step (op : OperationId) (h : list ServingStep) : option ServingStep :=
  List.find (fun s => bool_decide (ss_operation_id s = op)) h.

Record step_ok (scope : EnvironmentScope) (s : ServingStep) : Prop := {
  so_id : id_ok (ss_operation_id s);
  so_command : command_ok (ss_command s);
  so_validate : ServingCommand_validate (ss_command s) scope = Ok tt;
  so_transition : transition scope (ss_previous s) (ss_command s) (ss_record s);
  so_record : record_ok scope (ss_record s);
  so_previous : forall r, ss_previous s = Some r -> record_ok scope r
}.

Lemma transition_record_ok scope current command next :
  (forall r, current = Some r -> record_ok scope r) -> transition scope current command next ->
  vr_policy_revision next <= i64_max -> record_ok scope next.
Proof.
  intros Hc Ht Hle. split; try apply Ht. split; [|done]. pose proof (tr_kind _ _ _ _ Ht) as Hk.
  destruct command as [actor expected policy t|expected outcome t].
  - destruct Hk as (_ & _ & -> & _). destruct current as [r|]; cbn; [|lia].
    destruct (Hc r eq_refl) as [_ _ _ [? _] _]. lia.
  - destruct Hk as (r & -> & _ & _ & ->). apply (Hc r eq_refl).
Qed.

Lemma history_ok scope h current : history scope h current ->
  Forall (step_ok scope) h /\ forall r, current = Some r -> record_ok scope r.
Proof.
  induction 1 as [|h current op command next Hh [IHs IHc] Hop Hid Hk Hv Hn Hle]; [by split|].
  pose proof (next_record_transition _ _ _ _ IHc Hk Hv Hn) as Ht.
  pose proof (transition_record_ok _ _ _ _ IHc Ht Hle) as Hok.
  split; [constructor; [by split|done]|]. by intros ? [= <-].
Qed.

(** Its rows in the journal and in the audit trail. *)
Definition keyed_operation (scope : EnvironmentScope) (s : ServingStep) : (skey * bytes) * ServingOperationRow :=
  let o := step_operation scope s in
  ((scope_key scope, id_to_string (ss_operation_id s)),
   mkServingOperationRow (step_digest scope s) (ServingCommandKind_as_str (vo_kind o)) (vo_policy_revision o)
     (vo_desired_policy_digest o) (ServingObservedState_as_str (vo_observed_state o)) (vo_observed_policy_revision o)
     (vo_completed_at o)).
Definition keyed_audit (scope : EnvironmentScope) (s : ServingStep) : (skey * bytes) * ServingAuditRow :=
  let a := step_audit scope s in
  ((scope_key scope, id_to_string (ss_operation_id s)),
   mkServingAuditRow (id_to_string <$> va_actor_operator_id a) (ServingCommandKind_as_str (va_kind a))
     (va_previous_policy_revision a) (va_policy_revision a) (va_desired_policy_digest a)
     (ServingObservedState_as_str (va_observed_state a)) (va_observed_policy_revision a) (va_occurred_at a)).

Lemma step_revision scope s : step_ok scope s ->
  0 < vr_policy_revision (ss_record s) <= i64_max
  /\ optional_ok (vr_policy_revision <$> ss_previous s) i64_max
  /\ optional_ok (vr_observed_policy_revision (ss_record s)) (vr_policy_revision (ss_record s)).
Proof.
  intros Hs. pose proof (so_record _ _ Hs) as Hr. assert (forall r, record_ok scope r -> 0 < vr_policy_revision r <= i64_max) as Hpos.
  { intros r [_ _ Hv%record_validate_Ok ? _]. pose proof (rf_revision r Hv). lia. }
  split_and!; [by apply Hpos..| |by eapply ok_observed].
  intros n (r & Ep & ->)%fmap_Some. by apply Hpos, Hs.
Qed.

Lemma step_digest_eq scope s : step_ok scope s ->
  ServingCommand_digest sha256 (ss_command s) scope = Ok (step_digest scope s) /\ len (step_digest scope s) = 32.
Proof.
  intros Hs. unfold step_digest, ServingCommand_digest. rewrite (so_validate _ _ Hs). cbn [rbind]. split; [done|]. apply sha256_len.
Qed.

Lemma step_operation_valid scope s : step_ok scope s -> ServingOperation_validate (step_operation scope s) = Ok tt.
Proof.
  intros Hs. pose proof (step_revision _ _ Hs) as ([? _] & _). destruct Hs as [_ _ _ Ht _ _].
  unfold ServingOperation_validate, step_operation, operation_of. cbn.
  rewrite (transition_observation _ _ _ _ Ht) by done. cbn [rbind]. rewrite (tr_state _ _ _ _ Ht), orb_false_r.
  by rewrite (proj2 (Z.ltb_ge _ _) (proj1 (tr_time _ _ _ _ Ht))).
Qed.

Lemma step_audit_valid scope s : step_ok scope s -> ServingAuditEvent_validate (step_audit scope s) = Ok tt.
Proof.
  intros Hs. pose proof (step_revision _ _ Hs) as ([? _] & _). destruct Hs as [_ _ _ Ht _ _].
  unfold ServingAuditEvent_validate, step_audit, audit_of. cbn.
  rewrite (transition_observation _ _ _ _ Ht) by done. cbn [rbind]. rewrite (tr_state _ _ _ _ Ht), orb_false_r.
  rewrite (proj2 (Z.ltb_ge _ _) (proj1 (tr_time _ _ _ _ Ht))). cbn [orb]. pose proof (tr_kind _ _ _ _ Ht) as Hk.
  destruct (ss_command s) as [actor expected policy t|expected outcome t]; cbn in Hk |- *.
  - destruct Hk as (_ & _ & Hrev & Hle). destruct (ss_previous s) as [r|]; cbn in Hrev |- *; rewrite Hrev; [|done].
    by rewrite bool_decide_eq_true_2 by (apply checked_add_Some; lia).
  - destruct Hk as (r & -> & _ & _ & ->). cbn. by rewrite Z.eqb_refl.
Qed.

Lemma decode_keyed_operation scope s : step_ok scope s ->
  decode_operation scope (ss_operation_id s) (snd (keyed_operation scope s))
  = Ok (step_digest scope s, step_operation scope s).
Proof.
  intros Hs. destruct (step_revision _ _ Hs) as (Hrev & _ & Ho). destruct (step_digest_eq _ _ Hs) as [_ Hd].
  pose proof (step_operation_valid _ _ Hs) as Hv. unfold step_operation, operation_of in Hv.
  unfold decode_operation, keyed_operation, step_operation, operation_of. cbn -[step_digest].
  rewrite Hd. cbn [Z.eqb Pos.eqb negb]. rewrite kind_round_trip. cbn [rbind]. rewrite serving_positive_u64_eq by done. cbn [rbind].
  rewrite decode_digest_eq by apply sha256_len. cbn [rbind]. rewrite state_round_trip. cbn [rbind].
  rewrite (proj2 (optional_revision_eq _ _ Ho (proj2 Hrev))). cbn [rbind]. by rewrite Hv.
Qed.

Lemma decode_keyed_audit scope s : step_ok scope s -> decode_audit scope (keyed_audit scope s) = Ok (step_audit scope s).
Proof.
  intros Hs. destruct (step_revision _ _ Hs) as (Hrev & Hp & Ho). pose proof (step_audit_valid _ _ Hs) as Hv.
  unfold step_audit, audit_of in Hv. pose proof (so_command _ _ Hs) as Hc. pose proof (so_id _ _ Hs) as Hid.
  unfold decode_audit, keyed_audit, step_audit, audit_of. cbn -[id_from_str id_to_string].
  rewrite id_from_to_string by done. cbn [parsed map_err rbind].
  assert (match id_to_string <$> match ss_command s with VC_SetDesired actor _ _ _ => Some actor | _ => None end with
          | Some value => let? actor := parsed (id_from_str OperatorK value) in Ok (Some actor)
          | None => Ok None
          end = Ok match ss_command s with VC_SetDesired actor _ _ _ => Some actor | _ => None end) as ->.
  { destruct (ss_command s) as [actor expected policy t|]; cbn -[id_from_str id_to_string]; [|done].
    by rewrite id_from_to_string by apply Hc. }
  cbn [rbind]. rewrite kind_round_trip. cbn [rbind]. rewrite (proj2 (optional_revision_eq _ _ Hp (Z.le_refl _))). cbn [rbind].
  rewrite serving_positive_u64_eq by done. cbn [rbind]. rewrite decode_digest_eq by apply sha256_len. cbn [rbind].
  rewrite state_round_trip. cbn [rbind]. rewrite (proj2 (optional_revision_eq _ _ Ho (proj2 Hrev))). cbn [rbind].
  by rewrite Hv.
Qed.

Lemma keyed_operation_check scope s : step_ok scope s -> operation_check (snd (keyed_operation scope s)) = true.
Proof.
  intros Hs. destruct (step_revision _ _ Hs) as (Hrev & _ & Ho). destruct (step_digest_eq _ _ Hs) as [_ Hd].
  destruct Hs as [_ _ _ Ht _ _]. unfold operation_check, keyed_operation, step_operation, operation_of. cbn -[step_digest].
  unfold ServingPolicy_digest. rewrite Hd, sha256_len. cbn [Z.eqb Pos.eqb]. rewrite !andb_true_iff. split_and!; try done.
  - by destruct (ss_command s).
  - lia.
  - by destruct (vr_observed_state _).
  - apply not_false_true. intros n E. pose proof (Ho n E). lia.
  - pose proof (tr_time _ _ _ _ Ht). lia.
Qed.

Lemma keyed_audit_check scope s : step_ok scope s -> audit_check (snd (keyed_audit scope s)) = true.
Proof.
  intros Hs. destruct (step_revision _ _ Hs) as (Hrev & Hp & Ho). destruct Hs as [_ _ _ Ht _ _].
  unfold audit_check, keyed_audit, step_audit, audit_of. cbn. unfold ServingPolicy_digest. rewrite sha256_len.
  cbn [Z.eqb Pos.eqb]. rewrite !andb_true_iff. split_and!; try done.
  - by destruct (ss_command s).
  - apply not_false_true. intros n E. pose proof (Hp n E). lia.
  - lia.
  - by destruct (vr_observed_state _).
  - apply not_false_true. intros n E. pose proof (Ho n E). lia.
  - pose proof (tr_time _ _ _ _ Ht). lia.
  - by destruct (ss_command s).
Qed.

(** The tables after a step. *)
Definition recorded (scope : EnvironmentScope) (s : ServingStep) (db : ServingDb) : ServingDb :=
  let db := replaced scope (ss_record s) db in
  mkServingDb (serving_policies db) (serving_releases db)
    (<[fst (keyed_operation scope s) := snd (keyed_operation scope s)]> (serving_operations db))
    (<[fst (keyed_audit scope s) := snd (keyed_audit scope s)]> (serving_audit db)).

Lemma record_step_eq scope s db : step_ok scope s ->
  serving_operations db !! fst (keyed_operation scope s) = None -> serving_audit db !! fst (keyed_audit scope s) = None ->
  is_Some (serving_policies db !! scope_key scope) ->
  (let? db := serving_insert_operation (step_operation scope s) (step_digest scope s) db in
   insert_audit (step_audit scope s) db)
  = Ok (mkServingDb (serving_policies db) (serving_releases db)
          (<[fst (keyed_operation scope s) := snd (keyed_operation scope s)]> (serving_operations db))
          (<[fst (keyed_audit scope s) := snd (keyed_audit scope s)]> (serving_audit db))).
Proof.
  intros Hs Ho Ha Hp. destruct (step_revision _ _ Hs) as (Hrev & Hprev & Hobs).
  pose proof (keyed_operation_check _ _ Hs) as Hc. pose proof (keyed_audit_check _ _ Hs) as Hc'.
  unfold serving_insert_operation. cbn [step_operation operation_of vo_scope vo_operation_id vo_kind vo_policy_revision
    vo_desired_policy_digest vo_observed_state vo_observed_policy_revision vo_completed_at].
  rewrite serving_to_i64_eq by lia. cbn [rbind]. rewrite (proj1 (optional_revision_eq _ _ Hobs (proj2 Hrev))). cbn [rbind].
  rewrite insert_unique_eq by done. cbn [rbind]. rewrite bool_decide_eq_true_2 by done. cbn [rbind].
  unfold insert_audit. cbn [step_audit audit_of va_scope va_operation_id va_actor_operator_id va_kind
    va_previous_policy_revision va_policy_revision va_desired_policy_digest va_observed_state va_observed_policy_revision
    va_occurred_at serving_policies serving_releases serving_operations serving_audit].
  rewrite (proj1 (optional_revision_eq _ _ Hprev (Z.le_refl _))). cbn [rbind]. rewrite serving_to_i64_eq by lia. cbn [rbind].
  rewrite (proj1 (optional_revision_eq _ _ Hobs (proj2 Hrev))). cbn [rbind]. rewrite insert_unique_eq by done. cbn [rbind].
  rewrite bool_decide_eq_true_2 by (rewrite lookup_insert_eq; eauto). done.
Qed.

(** ** What explains the tables of an Environment *)

Record explained (scope : EnvironmentScope) (h : list ServingStep) (current : option ServingPolicyRecord) (db : ServingDb)
  : Prop := {
  ex_history : history scope h current;
  ex_record : stored_record scope current db;
  ex_operations t : serving_operations db !! (scope_key scope, t)
    = (list_to_map (map (keyed_operation scope) h) : gmap _ _) !! (scope_key scope, t);
  ex_audit t : serving_audit db !! (scope_key scope, t)
    = (list_to_map (map (keyed_audit scope) h) : gmap _ _) !! (scope_key scope, t)
}.

Lemma explained_empty scope : explained scope [] None empty_serving_db.
Proof. split; [constructor|by split_and!|done..]. Qed.

(** Looking a rendered identifier up in the rows of a history. *)
Lemma lookup_step {V} scope (key : ServingStep -> (skey * bytes) * V) h op : id_ok op -> Forall (step_ok scope) h ->
  (forall s, fst (key s) = (scope_key scope, id_to_string (ss_operation_id s))) ->
  (list_to_map (map key h) : gmap _ _) !! (scope_key scope, id_to_string op) = (fun s => snd (key s)) <$> find_step op h.
Proof.
  intros Hop Hh Hk. induction Hh as [|s h Hs _ IH]; [done|]. cbn [map list_to_map foldr find_step List.find].
  rewrite Hk. case_bool_decide as E.
  - rewrite E. by rewrite lookup_insert_eq.
  - rewrite lookup_insert_ne; [done|]. intros [= Eq]. apply E. apply id_to_string_inj; [apply Hs|done|].
    unfold id_to_string. by rewrite Eq.
Qed.

Lemma find_step_None op h : find_step op h = None <-> op ∉ map ss_operation_id h.
Proof.
  induction h as [|s h IH]; cbn; [split; [intros _; apply not_elem_of_nil|done]|].
  rewrite not_elem_of_cons. case_bool_decide as E; [naive_solver|]. rewrite IH. naive_solver.
Qed.

Lemma load_operation_explained scope h current db op : explained scope h current db -> id_ok op ->
  serving_load_operation scope op db = Ok ((fun s => (step_digest scope s, step_operation scope s)) <$> find_step op h).
Proof.
  intros He Hop. destruct (history_ok _ _ _ (ex_history _ _ _ _ He)) as [Hh _]. unfold serving_load_operation.
  rewrite (ex_operations _ _ _ _ He), (lookup_step scope) by done.
  destruct (find_step op h) as [s|] eqn:E; cbn [fmap option_fmap option_map]; [|done].
  apply find_some in E as [Hin Eop%bool_decide_eq_true]. subst op.
  rewrite decode_keyed_operation; [done|]. rewrite Forall_forall in Hh. apply Hh. by apply list_elem_of_In.
Qed.

Lemma explained_recorded scope h current op command next db : explained scope h current db ->
  op ∉ map ss_operation_id h -> id_ok op -> command_ok command -> ServingCommand_validate command scope = Ok tt ->
  next_record scope current command = Ok next -> vr_policy_revision next <= i64_max ->
  explained scope (mkServingStep op command current next :: h) (Some next)
    (recorded scope (mkServingStep op command current next) db).
Proof.
  intros [Hh Hst Ho Ha] Hop Hid Hk Hv Hn Hle.
  assert (history scope (mkServingStep op command current next :: h) (Some next)) as Hh' by by constructor.
  split; [done|..].
  - change (stored_record scope (Some next) (replaced scope next db)). apply replaced_stored.
    by apply (history_ok _ _ _ Hh').
  - intros t. unfold recorded. cbn [map list_to_map foldr serving_operations replaced]. rewrite !lookup_insert.
    by destruct (decide _).
  - intros t. unfold recorded. cbn [map list_to_map foldr serving_audit replaced]. rewrite !lookup_insert.
    by destruct (decide _).
Qed.

(** A revision that no longer fits its column is refused. *)
Lemma store_record_overflow scope current command next db : transition scope current command next ->
  (forall r, current = Some r -> record_ok scope r) -> i64_max < vr_policy_revision next ->
  store_record sha256 command current next db = Err SPE_LimitExceeded.
Proof.
  intros Ht Hc Hgt.
  assert (policy_row sha256 next = Err SPE_LimitExceeded) as E.
  { unfold policy_row. destruct (serving_to_i64 (vr_policy_revision next)) as [n|e] eqn:E.
    - apply serving_to_i64_Ok in E. lia.
    - unfold serving_to_i64, ok_or in E. destruct (try_from_u _ _); [done|]. by injection E as <-. }
  destruct current as [r|]; cbn [store_record].
  - unfold update_policy. by rewrite E.
  - unfold insert_policy. by rewrite E.
Qed.

(** What a command does, from its history. *)
Lemma apply_body_explained scope h current op command digest db : explained scope h current db ->
  id_ok op -> command_ok command -> ServingCommand_digest sha256 command scope = Ok digest ->
  serving_apply_body sha256 scope op command digest db =
  match find_step op h with
  | Some s =>
      if bool_decide (step_digest scope s <> digest) then Ok (EN_Rollback SPE_OperationIdReused)
      else Ok (EN_Commit (mkServingOperationResult (step_operation scope s) true) db)
  | None =>
      let? next := next_record scope current command in
      let s := mkServingStep op command current next in
      if i64_max <? vr_policy_revision next then Err SPE_LimitExceeded
      else Ok (EN_Commit (mkServingOperationResult (step_operation scope s) false) (recorded scope s db))
  end.
Proof.
  intros He Hid Hk Hd. pose proof Hd as Hd'. unfold ServingCommand_digest in Hd'. apply rbind_Ok in Hd' as ([] & Hv & _).
  destruct (history_ok _ _ _ (ex_history _ _ _ _ He)) as [Hh Hc]. unfold serving_apply_body.
  rewrite (load_operation_explained _ _ _ _ _ He Hid). cbn [rbind].
  destruct (find_step op h) as [s|] eqn:Ef; cbn [fmap option_fmap option_map]; [done|].
  rewrite (load_stored _ _ _ (ex_record _ _ _ _ He)). cbn [rbind].
  destruct (next_record scope current command) as [next|e] eqn:En; cbn [rbind]; [|done].
  pose proof (next_record_transition _ _ _ _ Hc Hk Hv En) as Ht.
  destruct (Z.ltb_spec i64_max (vr_policy_revision next)) as [Hgt|Hle].
  { by rewrite (store_record_overflow scope _ _ _ _ Ht Hc Hgt). }
  pose proof (transition_record_ok _ _ _ _ Hc Ht Hle) as Hn.
  rewrite (store_record_eq _ _ _ _ _ (ex_record _ _ _ _ He) Ht Hn). cbn [rbind]. set (s := mkServingStep op command current next).
  assert (step_ok scope s) as Hs by by split.
  change (operation_of sha256 scope op command next) with (step_operation scope s).
  change (audit_of sha256 scope op command (vr_policy_revision <$> current) next) with (step_audit scope s).
  rewrite (step_operation_valid _ _ Hs), (step_audit_valid _ _ Hs). cbn [rbind].
  assert (digest = step_digest scope s) as -> by (unfold step_digest; cbn [ss_command s]; by rewrite Hd).
  assert (forall t, t = id_to_string op -> serving_operations (replaced scope next db) !! (scope_key scope, t) = None
            /\ serving_audit (replaced scope next db) !! (scope_key scope, t) = None) as Hfree.
  { intros t ->. cbn [replaced serving_operations serving_audit].
    by rewrite (ex_operations _ _ _ _ He), (ex_audit _ _ _ _ He), !(lookup_step scope), Ef by done. }
  pose proof (record_step_eq scope s (replaced scope next db) Hs (proj1 (Hfree _ eq_refl)) (proj2 (Hfree _ eq_refl))) as E.
  apply rbind_Ok in E as (db1 & E1 & E2); [by rewrite E1; cbn [rbind]; rewrite E2|]. cbn. rewrite lookup_insert_eq. eauto.
Qed.

(** ** Steps of the repository *)

(** A transaction has no effect or that of its body; an answered one has it. *)
Lemma serving_txn_cases {A} o (body : ServingDb -> result ServingPolicyError (ServingEnding A)) db r db' :
  serving_txn o body db = (r, db') ->
  (exists e, r = Err e /\ db' = db) \/ (exists a, body db = Ok (EN_Commit a db') /\ forall a', r = Ok a' -> a' = a).
Proof.
  destruct o as [|e|e applied]; cbn [serving_txn].
  - destruct (body db) as [[a db1|e]|e]; intros [= <- <-]; eauto. right. exists a. split; [done|]. by intros ? [= ->].
  - intros [= <- <-]. eauto.
  - destruct (body db) as [[a db1|e']|e']; intros [= <- <-]; eauto. destruct (serving_commit_applied e applied); eauto.
    right. exists a. by split.
Qed.

(** Some command reaches the repository, under some fate of its transaction. *)
Inductive serving_step (db db' : ServingDb) : Prop :=
| serving_step_apply o scope op command r :
    scope_ok scope -> id_ok op -> command_ok command ->
    serving_apply sha256 o scope op command db = (r, db') -> serving_step db db'.

Definition all_explained (db : ServingDb) : Prop :=
  forall scope, scope_ok scope -> exists h current, explained scope h current db.

Lemma same_rows_explained scope h current db db' : same_rows (scope_key scope) db db' ->
  explained scope h current db -> explained scope h current db'.
Proof.
  intros (Hp & Hr & Ho & Ha) [Hh (Sp & Sr & Sok) Eo Ea]. split; [done|split_and!|..].
  - by rewrite Hp.
  - intros t. by rewrite Hr.
  - done.
  - intros t. by rewrite Ho.
  - intros t. by rewrite Ha.
Qed.

Lemma recorded_other sk scope s db : sk <> scope_key scope -> same_rows sk db (recorded scope s db).
Proof.
  intros Hne. destruct (replaced_other sk scope (ss_record s) db Hne) as (Hp & Hr & Ho & Ha).
  split_and!; [done..| |]; intros t; unfold recorded; cbn [serving_operations serving_audit].
  - rewrite lookup_insert_ne; [done|]. intros E. by apply (f_equal fst) in E.
  - rewrite lookup_insert_ne; [done|]. intros E. by apply (f_equal fst) in E.
Qed.

(** The effect of one command on its Environment: none, or one more step of its history. *)
Lemma apply_explained o scope h current op command db r db' : explained scope h current db ->
  id_ok op -> command_ok command -> serving_apply sha256 o scope op command db = (r, db') ->
  (db' = db /\ forall a, r = Ok a -> exists s, find_step op h = Some s /\ a = mkServingOperationResult (step_operation scope s) true
      /\ ServingCommand_digest sha256 command scope = Ok (step_digest scope s))
  \/ (exists next, find_step op h = None /\ next_record scope current command = Ok next
      /\ ServingCommand_validate command scope = Ok tt /\ vr_policy_revision next <= i64_max
      /\ db' = recorded scope (mkServingStep op command current next) db
      /\ forall a, r = Ok a -> a = mkServingOperationResult (step_operation scope (mkServingStep op command current next)) false).
Proof.
  intros He Hid Hk. unfold serving_apply.
  destruct (ServingCommand_digest sha256 command scope) as [digest|e] eqn:Hd; [|by intros [= <- <-]; left].
  intros H. apply serving_txn_cases in H as [(e & -> & ->)|(a & Hb & Hr)]; [by left|].
  rewrite (apply_body_explained _ _ _ _ _ _ _ He Hid Hk Hd) in Hb. destruct (find_step op h) as [s|] eqn:Ef.
  - case_bool_decide as E; [done|]. injection Hb as <- <-. left. split; [done|]. intros a Ha. apply Hr in Ha as ->.
    exists s. by rewrite E.
  - right. apply rbind_Ok in Hb as (next & En & Hb). destruct (Z.ltb_spec i64_max (vr_policy_revision next)); [done|].
    injection Hb as <- <-. exists next. split_and!; try done.
    unfold ServingCommand_digest in Hd. apply rbind_Ok in Hd as ([] & Hv & _). done.
Qed.

Lemma step_extends scope h current db db' : all_explained db -> scope_ok scope -> explained scope h current db ->
  serving_step db db' -> exists k current', explained scope (k ++ h) current' db'.
Proof.
  intros Hall Hsc He [o scope' op command r Hsc' Hid Hk Ha].
  destruct (decide (scope' = scope)) as [->|Hne].
  - eapply apply_explained in Ha as [[-> _]|(next & Ef & En & Hv & Hle & -> & _)]; try done; [by exists [], current|].
    exists [mkServingStep op command current next], (Some next). apply explained_recorded; try done. by apply find_step_None.
  - destruct (Hall scope' Hsc') as (h' & current' & He').
    assert (scope_key scope <> scope_key scope') as Hkey by (intros E; by apply scope_key_inj in E).
    exists [], current.
    eapply apply_explained in Ha as [[-> _]|(next & _ & _ & _ & _ & -> & _)]; try done.
    by eapply same_rows_explained; [apply recorded_other|].
Qed.

Lemma step_all_explained db db' : all_explained db -> serving_step db db' -> all_explained db'.
Proof.
  intros Hall Hs scope Hsc. destruct (Hall scope Hsc) as (h & current & He).
  destruct (step_extends _ _ _ _ _ Hall Hsc He Hs) as (k & current' & He'). eauto.
Qed.

Lemma steps_extend scope h current db db' : all_explained db -> scope_ok scope -> explained scope h current db ->
  rtc serving_step db db' -> exists k current', explained scope (k ++ h) current' db'.
Proof.
  intros Hall Hsc He Hr. revert h current Hall He. induction Hr as [db|db db1 db' Hs _ IH]; intros h current Hall He.
  { by exists [], current. }
  destruct (step_extends _ _ _ _ _ Hall Hsc He Hs) as (k & current1 & He1).
  destruct (IH _ _ (step_all_explained _ _ Hall Hs) He1) as (k' & current' & He').
  exists (k' ++ k), current'. by rewrite <-(assoc_L (++)).
Qed.

Lemma reachable_explained db : rtc serving_step empty_serving_db db -> all_explained db.
Proof.
  intros Hr scope Hsc. destruct (steps_extend scope [] None empty_serving_db db) as (k & current & He); try done.
  - intros sc _. exists [], None. apply explained_empty.
  - apply explained_empty.
  - rewrite app_nil_r in He. eauto.
Qed.

(** A command of the history is answered from the journal. *)
Lemma apply_replayed scope h current op command digest db s : explained scope h current db -> id_ok op -> command_ok command ->
  ServingCommand_digest sha256 command scope = Ok digest -> find_step op h = Some s ->
  (digest = step_digest scope s ->
     serving_apply sha256 XT_Commit scope op command db = (Ok (mkServingOperationResult (step_operation scope s) true), db))
  /\ (digest <> step_digest scope s ->
     serving_apply sha256 XT_Commit scope op command db = (Err SPE_OperationIdReused, db)).
Proof.
  intros He Hid Hk Hd Hf. unfold serving_apply. rewrite Hd. cbn [serving_txn].
  rewrite (apply_body_explained _ _ _ _ _ _ _ He Hid Hk Hd), Hf. split; intros E.
  - by rewrite bool_decide_eq_false_2 by (intros Hne; by apply Hne).
  - by rewrite bool_decide_eq_true_2 by congruence.
Qed.

Lemma find_step_app op k h s : find_step op h = Some s -> NoDup (map ss_operation_id (k ++ h)) -> find_step op (k ++ h) = Some s.
Proof.
  intros Hf. induction k as [|x k IH]; cbn [app map]; [done|]. intros [Hx Hd]%NoDup_cons. cbn. rewrite bool_decide_eq_false_2.
  - by apply IH.
  - intros <-. apply Hx. rewrite map_app. apply elem_of_app. right.
    apply find_some in Hf as [Hin Eq%bool_decide_eq_true]. rewrite <-Eq. apply list_elem_of_fmap_2. by apply list_elem_of_In.
Qed.

Lemma history_NoDup scope h current : history scope h current -> NoDup (map ss_operation_id h).
Proof. induction 1; cbn; constructor; done. Qed.

(** C20: A serving command takes effect once.  When a command was answered or changed the database, with
    its answer possibly lost, then from then on repeating it under its operation identifier is
    answered from the journal with the same operation and changes nothing, whatever other commands
    come between; and another command under that identifier is refused and changes nothing. *)
Theorem serving_command_once o scope op command db r db' : rtc serving_step empty_serving_db db ->
  scope_ok scope -> id_ok op -> command_ok command ->
  serving_apply sha256 o scope op command db = (r, db') -> is_ok r = true \/ db' <> db ->
  exists operation, (forall a, r = Ok a -> vs_operation a = operation)
    /\ forall db'', rtc serving_step db' db'' ->
         serving_apply sha256 XT_Commit scope op command db'' = (Ok (mkServingOperationResult operation true), db'')
         /\ forall other, command_ok other -> ServingCommand_validate other scope = Ok tt ->
              ServingCommand_digest sha256 other scope <> ServingCommand_digest sha256 command scope ->
              serving_apply sha256 XT_Commit scope op other db'' = (Err SPE_OperationIdReused, db'').
Proof.
  intros Hr Hsc Hid Hk Ha Heff. pose proof (reachable_explained _ Hr) as Hall.
  destruct (Hall scope Hsc) as (h & current & He). pose proof (serving_step_apply db db' _ _ _ _ _ Hsc Hid Hk Ha) as Hstep.
  assert (exists s h1 current1, explained scope h1 current1 db' /\ find_step op h1 = Some s
            /\ (forall a, r = Ok a -> vs_operation a = step_operation scope s)
            /\ ServingCommand_digest sha256 command scope = Ok (step_digest scope s))
    as (s & h1 & current1 & He1 & Hf & Hop & Hd).
  { eapply apply_explained in Ha as [[-> Hok]|(next & Ef & En & Hv & Hle & -> & Hok)]; try done.
    - destruct Heff as [Hi|]; [|done]. destruct r as [a|]; [|done]. destruct (Hok a eq_refl) as (s & Hf & -> & Hd).
      exists s, h, current. split_and!; try done. by intros ? [= <-].
    - eexists (mkServingStep op command current next), _, _.
      pose proof (explained_recorded _ _ _ _ _ _ _ He (proj1 (find_step_None _ _) Ef) Hid Hk Hv En Hle) as He1.
      split_and!; [exact He1|by cbn; rewrite bool_decide_eq_true_2| |].
      + intros a Ea. by rewrite (Hok a Ea).
      + unfold step_digest, ServingCommand_digest. cbn [ss_command]. by rewrite Hv. }
  exists (step_operation scope s). split; [done|]. intros db'' Hr'.
  destruct (steps_extend _ _ _ _ _ (step_all_explained _ _ Hall Hstep) Hsc He1 Hr') as (k & current2 & He2).
  apply (find_step_app _ k) in Hf; [|by eapply history_NoDup, He2]. split.
  - by eapply apply_replayed.
  - intros other Hk' Hv' Hne. rewrite Hd in Hne. unfold ServingCommand_digest in Hne. rewrite Hv' in Hne. cbn [rbind] in Hne.
    eapply apply_replayed; [done..|unfold ServingCommand_digest; by rewrite Hv'|done|congruence].
Qed.

(** ** Strictly ordered lists *)

Section strict.
Context {A : Type} (cmp : A -> A -> comparison) `{!TotalCmp cmp}.

Lemma strict_eq l x y : StronglySorted (fun x y => cmp x y = Lt) l -> x ∈ l -> y ∈ l -> cmp x y = Eq -> x = y.
Proof.
  induction 1 as [|a l _ IH Hf]; [by intros ?%elem_of_nil|]. rewrite Forall_forall in Hf.
  intros [->|Hx]%elem_of_cons [->|Hy]%elem_of_cons E; [done|..|by apply IH].
  - rewrite (Hf y Hy) in E. done.
  - rewrite (cmp_antisym a x), (Hf x Hx) in E. done.
Qed.

Lemma strict_NoDup l : StronglySorted (fun x y => cmp x y = Lt) l -> NoDup l.
Proof.
  induction 1 as [|a l _ IH Hf]; constructor; [|done]. rewrite Forall_forall in Hf. intros Ha%Hf. by rewrite cmp_refl in Ha.
Qed.

Lemma order_by_strict l l' : NoDup l -> (forall x, x ∈ l <-> x ∈ l') -> StronglySorted (fun x y => cmp x y = Lt) l' ->
  order_by cmp l = l'.
Proof.
  intros Hd Hin Hs. apply order_by_unique; [done| | |].
  - apply NoDup_Permutation; [done|by apply strict_NoDup|done].
  - clear Hin. induction Hs as [|a l' Hs IH Hf]; constructor; [done|]. eapply Forall_impl; [done|]. intros x E.
    unfold cmp_le. by rewrite E.
  - intros x y. by apply strict_eq.
Qed.

(** The elements of a strictly ordered list after one of them. *)
Lemma strict_after l1 x l2 : StronglySorted (fun x y => cmp x y = Lt) (l1 ++ x :: l2) ->
  filter (fun y => cmp x y = Lt) (l1 ++ x :: l2) = l2.
Proof.
  intros Hs. rewrite filter_app, filter_cons_False by (by rewrite cmp_refl). apply StronglySorted_app in Hs as (H12 & _ & H2).
  rewrite (filter_none _ l1), (filter_all _ l2); [done|..].
  - inversion H2; subst. done.
  - apply Forall_forall. intros y Hy E. specialize (H12 y x Hy (list_elem_of_here _ _)).
    rewrite (cmp_antisym y x), H12 in E. done.
Qed.
End strict.

(** ** Reading the audit trail page by page *)

Fixpoint audit_walk (fuel : nat) (scope : EnvironmentScope) (limit : Z) (after : option ServingAuditCursor) (db : ServingDb)
  : result ServingPolicyError (list ServingAuditEvent) :=
  match fuel with
  | O => Err SPE_Internal
  | S fuel =>
      let? page := serving_audit_page None scope (mkServingAuditPageRequest after limit) db in
      match vg_next page with
      | None => Ok (vg_events page)
      | Some cursor => let? rest := audit_walk fuel scope limit (Some cursor) db in Ok (vg_events page ++ rest)
      end
  end.

(** The order of the events of a trail. *)
Definition event_order : ServingAuditEvent -> ServingAuditEvent -> comparison :=
  cmp_lex (cmp_on va_occurred_at Z.compare) (cmp_on (fun e => as_ulid (va_operation_id e)) Z.compare).
Definition event_lt (x y : ServingAuditEvent) : Prop := event_order x y = Lt.
Definition event_cursor (e : ServingAuditEvent) : ServingAuditCursor := mkServingAuditCursor (va_occurred_at e) (va_operation_id e).

Section trail.
Context (scope : EnvironmentScope) (h : list ServingStep).
Hypothesis steps_ok : Forall (step_ok scope) h.
Hypothesis steps_once : NoDup (map ss_operation_id h).

Definition step_order : ServingStep -> ServingStep -> comparison := cmp_on (step_audit scope) event_order.
#[local] Instance step_order_total : TotalCmp step_order.
Proof. unfold step_order, event_order. apply _. Qed.

(** The steps in the order of the trail. *)
Definition trail : list ServingStep := order_by step_order h.

Lemma keyed_audit_order x y : step_ok scope x -> step_ok scope y ->
  audit_order (keyed_audit scope x) (keyed_audit scope y) = step_order x y.
Proof.
  intros Hx Hy. unfold audit_order, step_order, event_order, cmp_lex, cmp_on. cbn -[id_to_string].
  by rewrite id_to_string_cmp by (apply Hx || apply Hy).
Qed.

Lemma trail_ok : Forall (step_ok scope) trail.
Proof. unfold trail. by rewrite order_by_perm. Qed.

Lemma step_order_eq x y : x ∈ h -> y ∈ h -> step_order x y = Eq -> x = y.
Proof.
  intros Hx Hy E. unfold step_order, event_order, cmp_lex, cmp_on in E. cbn in E.
  assert (ss_operation_id x = ss_operation_id y) as Eop.
  { destruct (_ ?= _) in E; cbn in E; try done. apply Z.compare_eq in E.
    destruct (ss_operation_id x), (ss_operation_id y). cbn in E. by subst. }
  apply list_elem_of_lookup in Hx as [i Hi], Hy as [j Hj]. assert (i = j) as ->; [|congruence].
  eapply NoDup_lookup; [exact steps_once|by rewrite list_lookup_fmap, Hi|by rewrite list_lookup_fmap, Hj; cbn; rewrite Eop].
Qed.

Lemma trail_sorted : StronglySorted (fun x y => step_order x y = Lt) trail.
Proof.
  assert (NoDup trail) as Hd by (unfold trail; rewrite order_by_perm; by eapply NoDup_fmap_1).
  pose proof (order_by_sorted step_order h) as Hs. fold trail in Hs.
  assert (forall x, x ∈ trail -> x ∈ h) as Hin by (intros x; unfold trail; by rewrite elem_of_order_by).
  induction Hs as [|x l Hs IH Hf]; [constructor|]. apply NoDup_cons in Hd as [Hx Hd].
  constructor; [apply IH; [done|set_solver]|]. rewrite Forall_forall in Hf |- *. intros y Hy. specialize (Hf y Hy).
  unfold cmp_le in Hf. destruct (step_order x y) eqn:E; [|done..].
  apply step_order_eq in E; [by subst|apply Hin; set_solver..].
Qed.

(** The rows after a cursor, in order. *)
Context (m : gmap (skey * bytes) ServingAuditRow).
Hypothesis rows : forall t, m !! (scope_key scope, t)
  = (list_to_map (map (keyed_audit scope) h) : gmap _ _) !! (scope_key scope, t).

Definition audit_after (after : option ServingAuditCursor) (s : ServingStep) : bool :=
  match after with
  | None => true
  | Some c => match event_order (mkServingAuditEvent scope (vx_operation_id c) None VK_SetDesired None 0 [] SO_Pending None
                                   (vx_occurred_at c)) (step_audit scope s) with Lt => true | _ => false end
  end.

Lemma after_audit_step after s : step_ok scope s -> (forall c, after = Some c -> id_ok (vx_operation_id c)) ->
  after_audit_cursor after (keyed_audit scope s) = audit_after after s.
Proof.
  intros Hs Hc. destruct after as [c|]; [|done]. unfold after_audit_cursor, audit_after, event_order, cmp_lex, cmp_on.
  cbn -[id_to_string]. unfold bytes_ltb. rewrite id_to_string_cmp by (by apply Hc || apply Hs).
  destruct (Z.compare_spec (vx_occurred_at c) (occurred_at (ss_command s))) as [E|E|E]; cbn.
  - rewrite E, Z.ltb_irrefl, Z.eqb_refl. done.
  - by rewrite (proj2 (Z.ltb_lt _ _)).
  - rewrite (proj2 (Z.ltb_ge _ _)), (proj2 (Z.eqb_neq _ _)) by lia. done.
Qed.

Lemma trail_filter_sorted after : StronglySorted (fun x y => audit_order x y = Lt)
  (map (keyed_audit scope) (filter (fun s => audit_after after s = true) trail)).
Proof.
  pose proof trail_ok as Hok. induction trail_sorted as [|x l Hs IH Hf]; [constructor|].
  apply Forall_cons in Hok as [Hx Hok]. rewrite filter_cons. destruct (decide _); [|by apply IH]. cbn [map].
  constructor; [by apply IH|]. apply Forall_forall. intros y (z & -> & [_ Hz]%list_elem_of_filter)%list_elem_of_fmap.
  rewrite Forall_forall in Hf, Hok. by rewrite keyed_audit_order by auto; apply Hf.
Qed.

Lemma audit_rows after : (forall c, after = Some c -> id_ok (vx_operation_id c)) ->
  order_by audit_order (filter (fun r => fst (fst r) = scope_key scope /\ after_audit_cursor after r = true) (map_to_list m))
  = map (keyed_audit scope) (filter (fun s => audit_after after s = true) trail).
Proof.
  intros Hc. apply order_by_strict; [unfold audit_order; apply _| | |apply trail_filter_sorted].
  { apply NoDup_filter, NoDup_map_to_list. }
  assert (NoDup (map fst (map (keyed_audit scope) h))) as Hd.
  { rewrite map_map. apply (NoDup_rendered ss_operation_id); [done|]. rewrite Forall_forall in steps_ok.
    intros x y Hx Hy E. apply (f_equal snd), id_to_string_inj in E; [done|by apply steps_ok..]. }
  intros [[sk t] row]. rewrite list_elem_of_filter, elem_of_map_to_list, list_elem_of_fmap. cbn [fst]. rewrite Forall_forall in steps_ok.
  split.
  - intros [[-> Ha] E]. rewrite rows in E. apply elem_of_list_to_map in E; [|done].
    apply list_elem_of_fmap in E as (s & E & Hs). exists s. split; [done|]. rewrite list_elem_of_filter. split.
    + rewrite <-(after_audit_step after) by auto. by rewrite <-E.
    + unfold trail. by rewrite elem_of_order_by.
  - intros (s & E & [Ha Hs]%list_elem_of_filter). unfold trail in Hs. rewrite elem_of_order_by in Hs.
    assert (sk = scope_key scope) as -> by exact (f_equal (fun r => fst (fst r)) E). split; [split; [done|]|].
    + rewrite E. by rewrite after_audit_step by auto.
    + rewrite rows. apply elem_of_list_to_map; [done|]. rewrite E. by apply list_elem_of_fmap_2.
Qed.

(** The part of the trail a cursor leaves. *)
Lemma audit_after_split l1 s l2 : trail = l1 ++ s :: l2 ->
  filter (fun x => audit_after (Some (event_cursor (step_audit scope s))) x = true) trail = l2.
Proof.
  intros E. pose proof trail_sorted as Hs. rewrite E in Hs. rewrite <-(strict_after step_order l1 s l2 Hs). rewrite <-E.
  apply filter_ext_in. intros x _. unfold audit_after, step_order, event_order, cmp_on, cmp_lex. cbn.
  destruct (cmp_then _ _); split; congruence.
Qed.

Context (db : ServingDb) (limit : Z).
Hypothesis table : serving_audit db = m.
Hypothesis limit_ok : 1 <= limit <= MAX_AUDIT_PAGE_SIZE.

Lemma audit_page_eq after l1 post : (forall c, after = Some c -> id_ok (vx_operation_id c) /\ 0 <= vx_occurred_at c) ->
  trail = l1 ++ post -> filter (fun s => audit_after after s = true) trail = post ->
  serving_audit_page None scope (mkServingAuditPageRequest after limit) db
  = Ok (mkServingAuditPage scope (map (step_audit scope) (take (Z.to_nat limit) post))
          (if limit <? len post then event_cursor <$> last (map (step_audit scope) (take (Z.to_nat limit) post)) else None)).
Proof.
  intros Hc El Ep. unfold serving_audit_page, ServingAuditPageRequest_validate. cbn [vq_after vq_limit].
  rewrite (proj2 (Z.eqb_neq _ _)), (proj2 (Z.ltb_ge _ _)) by lia. cbn [orb].
  assert (match after with Some cursor => vx_occurred_at cursor <? 0 | None => false end = false) as ->.
  { destruct after as [c|]; [|done]. apply Z.ltb_ge. by apply Hc. }
  cbn [rbind serving_read]. unfold load_audit. cbn [vq_after vq_limit]. rewrite table.
  rewrite audit_rows by (intros; by apply Hc). rewrite Ep, firstn_map.
  rewrite (proj2 (try_map_Ok _ _ (map (step_audit scope) (take (Z.to_nat (limit + 1)) post)))).
  2: { apply Forall2_fmap_2, Forall_Forall2_diag, Forall_take. pose proof trail_ok as Hok. rewrite El in Hok.
       apply Forall_app in Hok as [_ Hok]. eapply Forall_impl; [done|]. intros x. apply decode_keyed_audit. }
  cbn [rbind]. unfold len. rewrite length_map, length_take.
  replace (Z.to_nat (limit + 1)) with (S (Z.to_nat limit)) by lia.
  destruct (Z.ltb_spec limit (Z.of_nat (length post))) as [Hlt|Hge].
  - rewrite (proj2 (Z.ltb_lt _ _)) by lia.
    destruct (lookup_lt_is_Some_2 post (Z.to_nat limit)) as [x Hx]; [lia|].
    rewrite (take_S_r _ _ x Hx), map_app. cbn [map]. by rewrite removelast_last.
  - rewrite (proj2 (Z.ltb_ge _ _)) by lia. by rewrite !take_ge by lia.
Qed.

Lemma audit_walk_eq fuel : forall after l1 post, (length post < fuel)%nat ->
  (forall c, after = Some c -> id_ok (vx_operation_id c) /\ 0 <= vx_occurred_at c) ->
  trail = l1 ++ post -> filter (fun s => audit_after after s = true) trail = post ->
  audit_walk fuel scope limit after db = Ok (map (step_audit scope) post).
Proof.
  induction fuel as [|fuel IH]; intros after l1 post Hf Hc El Ep; [lia|]. cbn [audit_walk].
  rewrite (audit_page_eq after l1 post Hc El Ep). cbn [rbind vg_next vg_events]. unfold len.
  destruct (Z.ltb_spec limit (Z.of_nat (length post))) as [Hlt|Hge]; [|by rewrite take_ge by lia].
  destruct (lookup_lt_is_Some_2 post (Z.to_nat (limit - 1))) as [s Hs]; [lia|].
  replace (Z.to_nat limit) with (S (Z.to_nat (limit - 1))) by lia. rewrite (take_S_r _ _ s Hs), map_app.
  cbn [map]. rewrite last_snoc. cbn [fmap option_fmap option_map].
  assert (trail = (l1 ++ take (Z.to_nat (limit - 1)) post) ++ s :: drop (S (Z.to_nat (limit - 1))) post) as El'.
  { by rewrite <-(assoc_L (++)), take_drop_middle. }
  rewrite (IH (Some (event_cursor (step_audit scope s))) (l1 ++ take (Z.to_nat (limit - 1)) post ++ [s])
              (drop (S (Z.to_nat (limit - 1))) post)).
  - cbn [rbind]. rewrite <-(assoc_L (++)). cbn [app]. f_equal.
    change (step_audit scope s :: map (step_audit scope) (drop (S (Z.to_nat (limit - 1))) post))
      with (map (step_audit scope) (s :: drop (S (Z.to_nat (limit - 1))) post)).
    by rewrite <-map_app, (take_drop_middle _ _ _ Hs).
  - rewrite length_drop. lia.
  - intros c [= <-]. pose proof trail_ok as Hok. rewrite El' in Hok. apply Forall_app in Hok as [_ [Hok _]%Forall_cons].
    split; [apply Hok|]. apply (tr_time _ _ _ _ (so_transition _ _ Hok)).
  - rewrite El'. by rewrite <-!(assoc_L (++)).
  - by eapply audit_after_split.
Qed.
End trail.

(** ** The claims *)

Lemma history_times scope h current : history scope h current ->
  StronglySorted (fun x y => occurred_at (ss_command y) <= occurred_at (ss_command x)) h
  /\ forall r, current = Some r -> Forall (fun s => occurred_at (ss_command s) <= last_change r) h.
Proof.
  induction 1 as [|h current op command next Hh [IHs IHc] Hop Hid Hk Hv Hn Hle]; [by repeat constructor|].
  destruct (history_ok _ _ _ Hh) as [_ Hok]. pose proof (next_record_transition _ _ _ _ Hok Hk Hv Hn) as Ht.
  pose proof (tr_time _ _ _ _ Ht) as [_ Hlast].
  assert (Forall (fun s => occurred_at (ss_command s) <= occurred_at command) h) as Hf.
  { destruct current as [r|].
    - eapply Forall_impl; [exact (IHc r eq_refl)|]. intros s Hs. pose proof (tr_later _ _ _ _ Ht r eq_refl).
      cbn beta in *. lia.
    - inversion Hh. constructor. }
  split; [by constructor|]. intros ? [= <-]. constructor; cbn; [lia|]. by rewrite Hlast.
Qed.

(** C9: The repository is explained by a history.  After any sequence of commands, for any Environments
    and with any fate of their transactions, an Environment has a list of commands that took effect,
    each under its own operation identifier and as the lifecycle's transition from the record before
    it, at times that never go back.  Reading the policy gives the record the list ends with, looking
    up an operation gives its step of the list or nothing, and reading the audit trail page by page,
    with any page size, gives every step of the list once, in the order of time and identifier. *)
Theorem serving_history scope db : rtc serving_step empty_serving_db db -> scope_ok scope ->
  exists h current, history scope h current
    /\ StronglySorted (fun x y => occurred_at (ss_command y) <= occurred_at (ss_command x)) h
    /\ serving_get sha256 None scope db = Ok current
    /\ (forall op, id_ok op -> serving_operation None scope op db = Ok (step_operation scope <$> find_step op h))
    /\ (forall limit, 1 <= limit <= MAX_AUDIT_PAGE_SIZE -> exists events,
          audit_walk (S (length h)) scope limit None db = Ok events
          /\ events ≡ₚ map (step_audit scope) h /\ StronglySorted event_lt events).
Proof.
  intros Hr Hsc. destruct (reachable_explained _ Hr scope Hsc) as (h & current & He). exists h, current.
  pose proof (ex_history _ _ _ _ He) as Hh. destruct (history_ok _ _ _ Hh) as [Hok _].
  split_and!; [done|by eapply history_times|by apply load_stored, He|..].
  - intros op Hop. unfold serving_operation. cbn [serving_read].
    rewrite (load_operation_explained _ _ _ _ _ He Hop). cbn [rbind]. by destruct (find_step op h).
  - intros limit Hl. exists (map (step_audit scope) (trail scope h)). split_and!.
    + eapply (audit_walk_eq scope h Hok (history_NoDup _ _ _ Hh) (serving_audit db) (ex_audit _ _ _ _ He) db limit eq_refl Hl _ None []).
      * unfold trail. rewrite order_by_perm. lia.
      * done.
      * done.
      * apply filter_all. by apply Forall_forall.
    + unfold trail. by rewrite order_by_perm.
    + induction (trail_sorted scope h Hok (history_NoDup _ _ _ Hh)) as [|x l _ IH Hf]; cbn [map]; constructor; [done|].
      apply Forall_fmap. eapply Forall_impl; [done|]. by intros y.
Qed.
End rows.

(** ** An example: a canary is rolled out, and the answer to its observation is lost *)

Definition serving_sha (p : bytes) : bytes := to_be 32 (from_be p mod (2 ^ 256 - 189)).
Lemma serving_sha_len p : len (serving_sha p) = 32.
Proof. apply len_to_be. Qed.

Definition canary_scope : EnvironmentScope := mkScope (from_ulid 10) (from_ulid 20).
Definition rollout : ServingCommand := VC_SetDesired (from_ulid 7) None sample_canary 10.
Definition observation : ServingCommand := VC_Materialize 1 MO_Ready 11.
Definition rolled_out : ServingDb := snd (serving_apply serving_sha XT_Commit canary_scope (from_ulid 100) rollout empty_serving_db).
Definition observed_db : ServingDb :=
  snd (serving_apply serving_sha (XT_CommitFailed SX_Io true) canary_scope (from_ulid 101) observation rolled_out).

Lemma small_id_ok {k} (n : Z) : 0 <= n < 1000 -> id_ok (k := k) (from_ulid n).
Proof. unfold id_ok, ulid_range. cbn. lia. Qed.

Lemma canary_scope_ok : scope_ok canary_scope.
Proof. split; apply small_id_ok; lia. Qed.
Lemma rollout_ok : command_ok rollout.
Proof.
  split; [by apply small_id_ok|]. repeat constructor; cbn; try (unfold ulid_range; lia); done.
Qed.

Lemma canary_step o op command db : id_ok op -> command_ok command ->
  serving_step serving_sha db (snd (serving_apply serving_sha o canary_scope op command db)).
Proof.
  intros Hop Hc. destruct (serving_apply serving_sha o canary_scope op command db) as [r db'] eqn:E.
  exact (serving_step_apply serving_sha db db' o canary_scope op command r canary_scope_ok Hop Hc E).
Qed.

Lemma rolled_out_steps : rtc (serving_step serving_sha) empty_serving_db rolled_out.
Proof.
  exact (rtc_once _ _ (canary_step XT_Commit (from_ulid 100) rollout empty_serving_db (small_id_ok 100 ltac:(lia)) rollout_ok)).
Qed.

Lemma observation_ok : command_ok observation.
Proof. cbv. congruence. Qed.

Lemma observed_steps : rtc (serving_step serving_sha) empty_serving_db observed_db.
Proof.
  exact (rtc_r _ _ _ rolled_out_steps
    (canary_step (XT_CommitFailed SX_Io true) (from_ulid 101) observation rolled_out (small_id_ok 101 ltac:(lia)) observation_ok)).
Qed.

Lemma serving_history_witness : exists h current,
  history canary_scope h current /\ serving_get serving_sha None canary_scope observed_db = Ok current.
Proof.
  destruct (serving_history serving_sha serving_sha_len canary_scope observed_db observed_steps canary_scope_ok)
    as (h & current & Hh & _ & Hg & _).
  exact (ex_intro _ h (ex_intro _ current (conj Hh Hg))).
Defined.

Lemma observation_lost :
  serving_apply serving_sha (XT_CommitFailed SX_Io true) canary_scope (from_ulid 101) observation rolled_out
  = (Err SPE_ResultUncertain, observed_db).
Proof.
  rewrite (surjective_pairing (serving_apply serving_sha _ _ _ _ _)). fold observed_db.
  assert (fst (serving_apply serving_sha (XT_CommitFailed SX_Io true) canary_scope (from_ulid 101) observation rolled_out)
          = Err SPE_ResultUncertain) as -> by (vm_compute; reflexivity).
  reflexivity.
Qed.

Lemma observation_effect : observed_db <> rolled_out.
Proof.
  assert (size (serving_audit observed_db) = 2%nat) as H2 by (vm_compute; reflexivity).
  assert (size (serving_audit rolled_out) = 1%nat) as H1 by (vm_compute; reflexivity).
  intros E. rewrite E, H1 in H2. discriminate H2.
Qed.

Lemma serving_command_once_witness : exists operation,
  serving_apply serving_sha XT_Commit canary_scope (from_ulid 101) observation observed_db
  = (Ok (mkServingOperationResult operation true), observed_db).
Proof.
  destruct (serving_command_once serving_sha serving_sha_len (XT_CommitFailed SX_Io true) canary_scope (from_ulid 101)
              observation rolled_out (Err SPE_ResultUncertain) observed_db rolled_out_steps canary_scope_ok
              (small_id_ok 101 ltac:(lia)) observation_ok observation_lost (or_intror observation_effect)) as (operation & _ & H).
  exact (ex_intro _ operation (proj1 (H observed_db (rtc_refl _ _)))).
Defined.
